(* ===== verification/_CoqProject ===== *)
-Q . S2P
Prelude.v
Errors.v
Messages.v
Frames.v
Streams.v
Iterators.v
PriorityQueue.v
Groups.v
CycleChannel.v
Channels.v
Atomics.v
Blackboard.v
BehaviorTree.v
Agent.v
Connections.v
Sharded.v
EventBus.v
Fields.v
SliceFields.v
Server.v
SdkClient.v
Clients.v
Registry.v
SyncVars.v
VarMetrics.v
Collector.v
VarManager.v
Concurrent.v
Wrappers.v
FieldUtils.v
ConnectionWorkers.v
QuicTransport.v
GridSearch.v
NpcWeb.v
Logging.v
FieldChannels.v
Persistence.v
SyncFactory.v
Accessors.v
AdaptiveSteps.v
ChannelSteps.v
BroadcastSteps.v
ShardedViews.v
Background.v
AtomicSteps.v
