(* ===== verification/Prelude.v ===== *)
(** * zeusync: a verification development

    zeusync is a game-server framework in Go: a wire protocol over QUIC with
    pooled messages, groups and scopes of clients, a server and a Go client for
    it; replicated variables in two generations ("sync" and "syncv2") and
    versioned field accessors; behaviour trees for non-player characters; an
    event bus; and a small library of iterators and queues. This library models
    the logic of these parts and proves what makes them correct, and, where the
    code does not do what it means to, what it does instead. Paths are relative to [src/internal/core] unless they start
    with [src/].

    ** How the parts interact

    A [Message] (Messages) is encoded into a frame (Frames), sent with a length
    header over a stream (Streams); a connection (Connections) opens one stream
    per message, queues outgoing messages and passes incoming ones to readers.
    Messages come from a pool and are reference counted by the connection's
    queue. The server (Server) runs over any connection with the operations of
    class [ServerConn] — the QUIC connection is an instance — and keeps a
    session per client, groups and scopes; the SDK client (SdkClient) sends it
    control messages and believes itself in the groups it asked for, and
    [subscriptions_agree] composes the two. Groups, Clients and Registry are
    the protocol package's own classes for the same things. The syncv2 roots
    (Channels, CycleChannel, Atomics, Sharded) and the field accessors (Fields,
    SliceFields) hold shared state; so do the first-generation variables
    (SyncVars), which a factory builds, a decorator measures, an analyzer
    judges and a manager migrates (VarMetrics, Collector, VarManager). An agent (Agent) is built from a
    configuration into a behaviour tree (BehaviorTree) whose nodes read and
    write a blackboard (Blackboard). The iterators (Iterators) are used by
    Atomics and Sharded to sort; the priority queue (PriorityQueue) stands
    alone, as does the event bus (EventBus).

    ** Files

    - [Prelude]: results and panics of Go functions, joined errors, machine
      integers, bytes and big-endian fields, slices and [copy], list lemmas,
      hints and tactics.
    - [Errors] ([protocol/errors.go]): sentinels, codes, wrapping, severity.
    - [Messages] ([protocol/message.go], [types.go]): the message record, its
      builder and filters; Module [Pool]: objects on a heap with reference
      counts and a pool that may hand out any free object.
    - [Frames] ([protocol/quic/stream.go]): the byte layout, field by field.
    - [Streams] ([protocol/stream.go], [quic/stream.go]): the framing over an
      interface for the QUIC stream (class [RawStream] and its laws), proved
      against the interface and instantiated by a pipe.
    - [Connections] ([protocol/quic/connection.go], [connection.go],
      [transport.go]): the connection over a class for the QUIC connection; one
      definition per method and per round of a goroutine. [ConnectionWorkers]:
      the goroutines of a connection as interleaved steps over those.
    - [Groups] ([protocol/group.go]): sequential operations, and Module
      [Interleaved] for their atomic steps.
    - [Iterators], [PriorityQueue] ([src/pkg/sequence]): push iterators as
      folds with effects; the binary heap of [container/heap] over items that
      are shared objects with an index.
    - [CycleChannel], [Channels] ([syncv2/vars/channel.go]): the ring over
      32-bit counters; buffered, priority and broadcast channels. An operation
      that would wait returns an outcome that says so. [ChannelSteps]: the
      buffered channel's operations as interleaved steps, where they wait;
      [BroadcastSteps]: the broadcast channel's, with its lock.
    - [Atomics] ([syncv2/vars/atomic*.go], [custom.go], [variable.go]): values
      with version and dirty flag, and the merging of deltas at each width.
    - [Sharded] ([syncv2/vars/sharded.go]): class [ShardedRoot], whose laws the
      hash, consistent-hash and range roots satisfy; Module [Adaptive].
      [AdaptiveSteps]: its reads, writes and resizes as interleaved steps.
      [ShardedViews]: iterating, merging and statistics.
    - [Blackboard] ([npc/blackboard.go], [sensors.go]), [BehaviorTree]
      ([npc/composites.go], [decorators.go], [actions.go], [base.go],
      [tree.go], [memory.go]), [Agent] ([npc/registry.go], [buildin.go],
      [loader.go], [agent.go]).
    - [EventBus] ([events/bus/eventbus.go]): handlers may change the bus while
      an event is delivered; the order of Go's map iteration is an argument.
    - [Background] ([PublishAsync], [SendMessageAsync], [MonitorVariable]): a
      call or a series of analyses in a goroutine that answers on a channel.
    - [QuicTransport] ([protocol/quic/transport.go], [listener.go], [quic.go]):
      dialing, listening and accepting over class [QuicNet].
    - [Fields], [SliceFields] ([fields]): the accessor with history and
      transactions under interference; its writes as interleaved steps; the
      synchronizer; slices as headers over a heap of arrays. [FieldUtils]
      ([fields/utils.go]): aggregator, throttler, debouncer, validator and
      transformer over the accessors' notifications. [FieldChannels]: locks with
      a timeout, subscription channels and wait groups as steps. [Accessors]
      ([fields.go]): the interface as class [FieldAccessor] with its laws, the
      accessors that delegate, and a client of the interface.
    - [Server] ([src/internal/server/server.go]): the tables and the step
      relation of acceptors, sessions' goroutines and methods.
    - [SdkClient] ([src/sdk/go/client/client.go]): connecting, disconnecting and
      closing as programs of atomic steps beside the three goroutines; its
      requests against the server's dispatch.
    - [Clients] ([protocol/client.go]), [Registry] ([protocol/transport.go],
      [protocol.go]): the protocol's client, in sequence and interleaved; the
      registry of transports and the protocol's life cycle.
    - [SyncVars] ([sync/vars], [sync/resolver]): [Mutex], [Atomic] and
      [AtomicInt] with their ring of deltas; Modules [Complex] and [ShardedVar].
      [AtomicSteps]: concurrent [Set]s of [Atomic] as interleaved steps.
    - [VarMetrics] ([sync/metrics/metrics.go], [sync/analyzer]): the variables
      behind their interface, the decorator, and the analyzer over 64-bit
      floats. [Collector] ([sync/metrics/collector.go]): the channel, its
      batches and its shutdown.
    - [VarManager] ([sync/factory], [sync/migrator], [sync/manager]): named
      variables as shared objects; Module [AutoOptimization] for the goroutine
      beside the methods.
    - [Concurrent] ([src/pkg/concurrent], [src/pkg/generic]): one step relation
      for goroutines under a semaphore and a wait group, with its invariant,
      progress and measure; every helper is an instance.
    - [Wrappers] ([syncv2/wrappers]): the wrappers over class [WrappedRoot] and
      the users' variable over class [Core].
    - [GridSearch], [NpcWeb] ([src/examples/npc_web/main.go]): the agent of the
      demonstration, over [BehaviorTree] and [Agent], with its world as a shared
      object; its search, the program's ticks and the hub of its watchers.
    - [Persistence] ([npc/agent.go], [memory.go], [blackboard.go],
      [learning.go], [communication.go]): snapshots over class [Gob].
    - [Logging] ([observability/log]): fields, levels and shared loggers over
      class [ZapLevels].
    - [SyncFactory] ([syncv2/interfaces/factory.go]): the roots and variables
      that the factories make, over [Wrappers].

    ** What the theorems show

    - Wire: a message that fits survives encoding and decoding, and a sequence
      of messages written to a stream is read back in order
      ([frame_roundtrip], [stream_pipeline]); short payloads are refused
      ([short_payload_rejected]).
    - Pool: no object is handed out twice while it is in use, provided its
      clients touch only messages they hold, and balanced retains and releases
      return it once ([get_exclusive], [retain_release_balanced]); the
      connection retains too late, and breaks the condition.
    - Connections: what [Close] leaves, the queue in order, and that with a
      positive [MaxStreams] sending fails from the moment as many streams were
      opened and accepted, closed ones included, less the calls of
      [RemoveStream], which nothing makes ([streams_run_out]). Under every
      interleaving of its goroutines received messages are delivered once and in
      order or given back to the pool, and nothing panics before the connection
      is closed ([messages_accounted]);
      the accept loop then ends ([accept_loop_stops]), and a handler may then
      panic ([close_races_with_forward]).
    - Transport: its counters are those of the connections it gave out
      ([connections_counted]); failed calls leave no socket
      ([listen_sockets_exact]); what reaches quic-go ([effective_config]).
    - Groups: the limits hold in sequence, and by how much concurrent joins
      exceed them; the accounting of data sizes.
    - Queues: the ring refines a bounded queue, the heap drains in order, the
      channels deliver in order and to whom; senders and receivers of a
      buffered channel see a queue under every interleaving
      ([channel_is_fifo]), and with resizes and closing every value is
      accounted for ([channel_accounts]), though a resize may make a sender
      panic ([resize_disturbs]). No interleaving makes a broadcast panic, only
      a subscription after a negative size was set, and each subscriber receives
      in order what it was sent ([broadcast_interleaved]); one that stops reading blocks everybody
      ([blocked_send_blocks_all]). A call in a goroutine answers once
      ([async_once]), a monitor in order ([monitor_correct]). [Join] zips its sources ([Join_correct]).
    - Variables: deltas merge to the last value set plus later updates, in any
      order of arrival; sharded roots are tables from shards to values; no
      interleaving of reads, writes and resizes of the adaptive one panics
      ([adaptive_interleaved]), but a resize can lose a write and changes what
      a merge sees ([resize_changes_merge]).
    - Accessors: a single user sees a log of values ([FA_refines_log]); a
      transaction takes effect atomically or not at all, whatever others do
      between its atomic steps ([Transaction_linearizable]); every version from
      2 on is given once however writes interleave ([concurrent_versions]); slices cannot be changed in place
      ([slice_mutations_panic]); synchronized accessors never come to rest
      ([sync_never_quiesces]); an aggregator settles on its sources
      ([aggregator_settles]), a debouncer writes the last of each burst
      ([debounce_bursts]), a throttler spaces its writes ([throttle_spaced]).
    - Trees: each composite against its specification ([Parallel_correct]),
      termination of every tick ([tick_total]), and that building an acyclic
      configuration ends, with the tree it describes or an error
      ([Build_correct]).
    - Event bus: registrations and delivery are exact, and topics survive a
      round trip.
    - Server and client: the tables and the sessions agree in every reachable
      state ([membership_agrees]); by how much the limit is exceeded
      ([server_limit]); when a broadcast finds its group and to whom it sends
      ([broadcast_exact]), and what a leaving client leaves; after any sequence
      of requests client and server agree on the groups and scopes, but for the
      empty name ([subscriptions_agree]); closing a connected client never returns
      ([close_never_returns]) and each reconnection adds goroutines.
    - First-generation variables: [Mutex] refines a log of changes, [Atomic] is
      [Mutex] at one type and panics elsewhere, deltas replicate the value to a
      [Mutex] and only the history to an [Atomic] ([mutex_refines_log],
      [atomic_is_mutex], [delta_replication]); concurrent
      sets count and enter every value once, each in an order of its own
      ([atomic_sets_interleaved]); the decorator's answers, counts and averages
      ([wrapper_exact]); the collector's account of every event
      ([collector_conserves]); batches are atomic,
      migration keeps value and permissions, races with the users of the
      variable, and can deadlock with its own cancellation
      ([CreateBatch_atomic], [Migrate_correct], [migration_races],
      [disable_may_deadlock]).
    - Concurrent helpers: under every schedule they return what the sequential
      function returns ([parallel_map_correct] for the map and the filter,
      [merge_correct], [pipeline_correct]), for any positive number of workers.
    - Wrappers: which deltas replicate a value and which reset it
      ([delta_applied]); what an unsubscription removes
      ([unsubscribe_stale]).
    - Demonstration: the search finds a nearest unvisited cell and the first
      step of a shortest walk to it ([bfs_correct]); however long the agent
      plays it stays on the grid, its health never grows, its energy counts the
      artifacts taken and it forgets no danger ([game_safe]).
    - Subscription channels: every value is accounted for, and after the
      cancellation the goroutine ends ([subscription_accounts],
      [cancelled_closes]), but a value can come twice ([subscription_repeats])
      or never ([subscription_misses]); a lock that timed out is leaked
      ([trylock_timeout_leaks]).
    - Snapshots: what is saved is loaded into a new agent, and what it is
      merged with in another ([save_load]).
    - Logging: which fields reach zap and which panic ([fields_exact]), and
      which levels take effect ([levels_effective]).
    - Factory: which variables work and which panic ([atomic_variable],
      [other_variables]).

    ** Representation

    Fixed-width integers are [Z] with explicit wrap-around ([wrapU], [wrapS]);
    [int] is 64 bits. Times are nanoseconds, and every reading of a clock is an
    argument. Maps are [gmap], with the order of iteration an argument where it
    can be observed. A function that returns an error gives a [result], one
    that can panic an [outcome]. Methods that lock a mutex for their whole body
    are single steps; concurrency is modelled where a method is several atomic
    operations. Code outside the repository (QUIC, xxhash, gob) is a class or a
    parameter, with its documented behaviour as laws.

    Coarser than the code: the server handles one message in one step (its
    lookups in the tables, its counters and the session's lists), a message
    touching only its own session and that client's places; a concurrent write
    of an accessor records and notifies in one step in [Fields.Interleaved],
    while [FieldChannels] and [Fields.Transaction] take every step apart; a send
    of a broadcast stores the value, the version and the flag in one step under
    the read lock. Type parameters stand for concrete types: with an interface
    type, [atomic.Value] also panics on nil and on a change of dynamic type.

    ** Fuel

    - [BehaviorTree.tick] recurses on the tree, with fuel for the loop of
      [Until], which may not end; [tick_total] gives fuel that suffices for
      trees whose [Until] nodes have an attempt limit, and [tick_fuel_mono]
      shows that more fuel never changes a result.
    - [Agent.buildNode] follows names and takes fuel; [Build_terminates] gives
      enough for configurations without cycles, and shows that a cycle of first
      children exhausts every amount.
    - The sifts of the heap are defined by well-founded recursion; the loop of
      [sort.Search] takes the length of the range as fuel, which
      [Search_spec] proves enough, and so does the loop of
      [SliceFields.Reverse]; transactions make the code's ten attempts.

    ** Not modelled

    Configuration of and calls into quic-go; what zap does with the calls it is
    given; JSON, YAML and gob encodings; timers and tickers; interfaces without
    behaviour; commands and the other examples; texts of errors and reports. *)

From Stdlib Require Import ZArith Lia.
From Stdlib Require Import Strings.Byte.
From Stdlib Require Import Strings.String.
From stdpp Require Import base tactics decidable numbers list gmap sets strings sorting.

Declare Scope zs_scope.
Delimit Scope zs_scope with zs.
Open Scope Z_scope.

(** ** Results of fallible Go functions

    A Go function returning [(T, error)] is a [result error T]; code that can
    panic returns an [outcome]. *)
Inductive result (E A : Type) : Type :=
  | Ok (a : A)
  | Err (e : E).
Arguments Ok {E A} a.
Arguments Err {E A} e.

#[export] Instance result_ret E : MRet (result E) := fun A a => Ok a.
#[export] Instance result_bind E : MBind (result E) :=
  fun A B f r => match r with Ok a => f a | Err e => Err e end.
#[export] Instance result_fmap E : FMap (result E) :=
  fun A B f r => match r with Ok a => Ok (f a) | Err e => Err e end.

Definition is_ok {E A} (r : result E A) : bool :=
  match r with Ok _ => true | Err _ => false end.

Lemma is_ok_spec {E A} (r : result E A) : is_ok r = true <-> exists a, r = Ok a.
Proof. destruct r; simpl; split; [eauto | auto | done | intros [? ?]; done]. Qed.

(** A computation that may panic at run time. *)
Inductive outcome (A : Type) : Type :=
  | Done (a : A)
  | Panic.
Arguments Done {A} a.
Arguments Panic {A}.

#[export] Instance outcome_ret : MRet outcome := fun A a => Done a.
#[export] Instance outcome_bind : MBind outcome :=
  fun A B f r => match r with Done a => f a | Panic => Panic end.

(** ** Joined errors

    [errors.New] or [fmt.Errorf], and [errors.Join]. *)
Inductive nerr : Type := EText (s : string) | EJoin (a b : nerr).

(** [if err != nil { if allErr == nil {allErr = err} else {Join} }] *)
Definition join_err (allErr err : option nerr) : option nerr :=
  match err, allErr with
  | None, _ => allErr
  | Some e, None => Some e
  | Some e, Some a => Some (EJoin a e)
  end.

(** ** Machine integers

    A Go integer of width [w] is a [Z] in range; arithmetic wraps around
    through [wrapU] (unsigned) or [wrapS] (two's complement). *)
Definition wrapU (w z : Z) : Z := z mod 2 ^ w.
Definition wrapS (w z : Z) : Z := (z + 2 ^ (w - 1)) mod 2 ^ w - 2 ^ (w - 1).
Definition in_u (w z : Z) : Prop := 0 <= z < 2 ^ w.
Definition in_s (w z : Z) : Prop := - 2 ^ (w - 1) <= z < 2 ^ (w - 1).

Lemma pow2_pos w : 0 <= w -> 0 < 2 ^ w.
Proof. intros. apply Z.pow_pos_nonneg; lia. Qed.

Lemma wrapU_range w z : 0 <= w -> in_u w (wrapU w z).
Proof. intros Hw. apply Z.mod_pos_bound, pow2_pos, Hw. Qed.

Lemma wrapU_id w z : in_u w z -> wrapU w z = z.
Proof. apply Z.mod_small. Qed.

Lemma pow2_split w : 0 < w -> 2 ^ w = 2 * 2 ^ (w - 1).
Proof.
  intros Hw. replace w with (Z.succ (w - 1)) at 1 by lia.
  rewrite Z.pow_succ_r by lia. done.
Qed.

Lemma wrapS_range w z : 0 < w -> in_s w (wrapS w z).
Proof.
  intros Hw. unfold wrapS, in_s.
  pose proof (Z.mod_pos_bound (z + 2 ^ (w - 1)) (2 ^ w) (pow2_pos w ltac:(lia))).
  rewrite (pow2_split w Hw) in *. lia.
Qed.

Lemma wrapS_id w z : 0 < w -> in_s w z -> wrapS w z = z.
Proof.
  intros Hw [H1 H2]. unfold wrapS. rewrite Z.mod_small; [lia|].
  rewrite (pow2_split w Hw). lia.
Qed.

(** Converting a signed value to unsigned and back is the identity. *)
Lemma wrapS_wrapU w z : 0 < w -> in_s w z -> wrapS w (wrapU w z) = z.
Proof.
  intros Hw Hz. unfold wrapS, wrapU.
  rewrite Z.add_mod_idemp_l by (pose proof (pow2_pos w); lia).
  apply (wrapS_id w z Hw Hz).
Qed.

Lemma wrapU_add_l w a b : 0 <= w -> wrapU w (wrapU w a + b) = wrapU w (a + b).
Proof. intros. unfold wrapU. rewrite Z.add_mod_idemp_l; [done|]. pose proof (pow2_pos w); lia. Qed.

Lemma wrapU_add_r w a b : 0 <= w -> wrapU w (a + wrapU w b) = wrapU w (a + b).
Proof. intros. unfold wrapU. rewrite Z.add_mod_idemp_r; [done|]. pose proof (pow2_pos w); lia. Qed.

Lemma wrapU_sub_r w a b : 0 <= w -> wrapU w (a - wrapU w b) = wrapU w (a - b).
Proof. intros. unfold wrapU. rewrite Zminus_mod_idemp_r; done. Qed.

Lemma wrapU_wrapU w a : 0 <= w -> wrapU w (wrapU w a) = wrapU w a.
Proof. intros. apply wrapU_id, wrapU_range. done. Qed.

Lemma wrapS_add_l w a b : 0 < w -> wrapS w (wrapS w a + b) = wrapS w (a + b).
Proof.
  intros Hw. unfold wrapS. f_equal.
  replace ((a + 2 ^ (w - 1)) mod 2 ^ w - 2 ^ (w - 1) + b + 2 ^ (w - 1))
    with ((a + 2 ^ (w - 1)) mod 2 ^ w + b) by lia.
  rewrite Zplus_mod_idemp_l. f_equal. lia.
Qed.

(** The largest unsigned value is the two's complement of 1: [a + ^uint64(n - 1)]
    subtracts [n]. *)
Lemma wrapU_sub_complement w a n :
  0 <= w -> wrapU w (a + (2 ^ w - 1 - wrapU w (n - 1))) = wrapU w (a - n).
Proof.
  intros Hw. replace (a + (2 ^ w - 1 - wrapU w (n - 1)))
    with ((a - 1 - wrapU w (n - 1)) + 1 * 2 ^ w) by lia.
  unfold wrapU at 1. rewrite Z.mod_add by (pose proof (pow2_pos w Hw); lia).
  fold (wrapU w (a - 1 - wrapU w (n - 1))). rewrite wrapU_sub_r by done.
  f_equal. lia.
Qed.

(** [time.Time.Sub] on instants in nanoseconds: the saturated 64-bit difference. *)
Definition time_Sub (a b : Z) : Z := Z.max (- 2 ^ 63) (Z.min (2 ^ 63 - 1) (a - b)).

(** ** Bytes *)
#[export] Instance byte_eq_dec : EqDecision byte := Byte.byte_eq_dec.

Definition byte_to_Z (b : byte) : Z := Z.of_N (Byte.to_N b).
Definition byte_of_Z (z : Z) : byte :=
  match Byte.of_N (Z.to_N (z mod 256)) with Some b => b | None => x00 end.

Lemma byte_to_Z_range b : 0 <= byte_to_Z b < 256.
Proof. unfold byte_to_Z. pose proof (Byte.to_N_bounded b). lia. Qed.

Lemma byte_to_of_Z z : byte_to_Z (byte_of_Z z) = z mod 256.
Proof.
  unfold byte_to_Z, byte_of_Z.
  pose proof (Z.mod_pos_bound z 256 ltac:(lia)) as Hb.
  destruct (Byte.of_N (Z.to_N (z mod 256))) as [b|] eqn:E.
  - apply Byte.to_of_N in E. rewrite E. lia.
  - apply Byte.of_N_None_iff in E. lia.
Qed.

Lemma byte_of_to_Z b : byte_of_Z (byte_to_Z b) = b.
Proof.
  unfold byte_of_Z. rewrite Z.mod_small by apply byte_to_Z_range.
  unfold byte_to_Z. rewrite N2Z.id, Byte.of_to_N. done.
Qed.

(** Big-endian encoding of the [n] low bytes of [z], as
    [binary.BigEndian.PutUint*] writes them, and the decoder. *)
Fixpoint be_encode (n : nat) (z : Z) : list byte :=
  match n with
  | O => []
  | S n' => byte_of_Z (Z.shiftr z (8 * Z.of_nat n')) :: be_encode n' z
  end.

Definition be_decode (l : list byte) : Z :=
  foldl (fun acc b => acc * 256 + byte_to_Z b) 0 l.

Lemma length_be_encode n z : length (be_encode n z) = n.
Proof. induction n; simpl; congruence. Qed.

Lemma be_decode_acc l acc :
  foldl (fun acc b => acc * 256 + byte_to_Z b) acc l =
  acc * 256 ^ Z.of_nat (length l) + be_decode l.
Proof.
  revert acc. induction l as [|b l IH]; intros acc; unfold be_decode; cbn [foldl length].
  - rewrite Z.pow_0_r. lia.
  - rewrite (IH (acc * 256 + byte_to_Z b)), (IH (0 * 256 + byte_to_Z b)).
    rewrite Nat2Z.inj_succ, Z.pow_succ_r by lia. lia.
Qed.

Lemma be_decode_cons b l :
  be_decode (b :: l) = byte_to_Z b * 256 ^ Z.of_nat (length l) + be_decode l.
Proof. unfold be_decode at 1. cbn [foldl]. rewrite be_decode_acc. lia. Qed.

Lemma be_decode_range l : 0 <= be_decode l < 256 ^ Z.of_nat (length l).
Proof.
  induction l as [|b l IH]; [unfold be_decode; simpl; lia|].
  rewrite be_decode_cons. simpl length. rewrite Nat2Z.inj_succ, Z.pow_succ_r by lia.
  pose proof (byte_to_Z_range b). nia.
Qed.

Lemma pow_256 n : 256 ^ Z.of_nat n = 2 ^ (8 * Z.of_nat n).
Proof. change 256 with (2 ^ 8). rewrite <- Z.pow_mul_r by lia. done. Qed.

Lemma be_decode_encode n z :
  be_decode (be_encode n z) = wrapU (8 * Z.of_nat n) z.
Proof.
  unfold wrapU. rewrite <- pow_256. induction n as [|n IH].
  - simpl. rewrite Z.mod_1_r. done.
  - cbn [be_encode]. rewrite be_decode_cons, IH, length_be_encode, byte_to_of_Z.
    rewrite Nat2Z.inj_succ, Z.pow_succ_r by lia.
    rewrite Z.shiftr_div_pow2, <- pow_256 by lia.
    rewrite (Z.mul_comm 256), Z.rem_mul_r by lia. lia.
Qed.

Lemma be_encode_app_low n a r :
  0 <= r < 256 ^ Z.of_nat n -> be_encode n (a * 256 ^ Z.of_nat n + r) = be_encode n r.
Proof.
  intros Hr. revert a r Hr.
  cut (forall m, (m <= n)%nat -> forall a r,
    be_encode m (a * 256 ^ Z.of_nat n + r) = be_encode m r); [intros H a r _; apply H; done|].
  induction m as [|m IH]; intros Hm a r; [done|]. cbn [be_encode]. rewrite IH by lia.
  f_equal. unfold byte_of_Z. rewrite !Z.shiftr_div_pow2, <- !pow_256 by lia.
  replace (Z.of_nat n) with (Z.of_nat m + Z.succ (Z.of_nat (n - m - 1))) by lia.
  rewrite Z.pow_add_r, Z.pow_succ_r by lia.
  replace (a * (256 ^ Z.of_nat m * (256 * 256 ^ Z.of_nat (n - m - 1))) + r)
    with (r + (a * 256 ^ Z.of_nat (n - m - 1) * 256) * 256 ^ Z.of_nat m) by lia.
  rewrite Z.div_add by (pose proof (Z.pow_pos_nonneg 256 (Z.of_nat m)); lia).
  rewrite Z.mod_add by lia. done.
Qed.

Lemma be_encode_decode l : be_encode (length l) (be_decode l) = l.
Proof.
  induction l as [|b l IH]; [done|]. cbn [length be_encode].
  rewrite be_decode_cons. pose proof (be_decode_range l) as Hr.
  rewrite be_encode_app_low, IH by done. f_equal.
  rewrite Z.shiftr_div_pow2, <- pow_256, Z.div_add_l by lia.
  rewrite Z.div_small, Z.add_0_r by done. apply byte_of_to_Z.
Qed.

(** ** Go slices and [copy]

    [copy_at buf lo hi src] is the buffer after [copy(buf[lo:hi], src)]. *)
Definition slice {A} (lo hi : nat) (l : list A) : list A := take (hi - lo) (drop lo l).
Definition copy_at {A} (buf : list A) (lo hi : nat) (src : list A) : list A :=
  let n := Nat.min (hi - lo) (length src) in
  take lo buf ++ take n src ++ drop (lo + n) buf.

(** A field of [n] bytes: the source cut at [n] and padded with zeros. *)
Definition padded (n : nat) (src : list byte) : list byte :=
  take n src ++ replicate (n - length src) x00.

Lemma length_padded n src : length (padded n src) = n.
Proof. unfold padded. rewrite length_app, length_take, length_replicate. lia. Qed.

Lemma copy_at_zeros pre n m src k :
  k = length pre ->
  copy_at (pre ++ replicate (n + m) x00) k (k + n) src =
  (pre ++ padded n src) ++ replicate m x00.
Proof.
  intros ->. unfold copy_at, padded. rewrite take_app_length, <- !app_assoc. f_equal.
  replace (length pre + n - length pre)%nat with n by lia.
  rewrite drop_app_add'; [|done]. rewrite drop_replicate.
  replace (take (Nat.min n (length src)) src) with (take n src).
  - f_equal. rewrite <- replicate_add. f_equal. lia.
  - destruct (decide (n <= length src)%nat).
    + rewrite Nat.min_l by lia. done.
    + rewrite Nat.min_r, !take_ge by lia. done.
Qed.

Lemma length_copy_at {A} (buf : list A) lo hi src :
  (lo <= hi <= length buf)%nat -> length (copy_at buf lo hi src) = length buf.
Proof. intros. unfold copy_at. rewrite !length_app, !length_take, length_drop. lia. Qed.

(** Reading a field out of a buffer given as the concatenation of its fields:
    skip the fields before it, then take it. *)
Lemma slice_skip {A} (seg rest : list A) lo hi :
  (length seg <= lo)%nat ->
  slice lo hi (seg ++ rest) = slice (lo - length seg) (hi - length seg) rest.
Proof.
  intros H. unfold slice. rewrite drop_app_ge by done.
  f_equal. lia.
Qed.

Lemma slice_here {A} (seg rest : list A) lo hi :
  lo = 0%nat -> hi = length seg -> slice lo hi (seg ++ rest) = seg.
Proof. intros -> ->. unfold slice. rewrite Nat.sub_0_r, drop_0, take_app_length. done. Qed.

Lemma drop_skip {A} (seg rest : list A) n :
  (length seg <= n)%nat -> drop n (seg ++ rest) = drop (n - length seg) rest.
Proof. intros. by rewrite drop_app_ge. Qed.

Lemma length_slice {A} (l : list A) lo hi :
  (lo <= hi <= length l)%nat -> length (slice lo hi l) = (hi - lo)%nat.
Proof. intros. unfold slice. rewrite length_take, length_drop. lia. Qed.

(** Counting the elements that satisfy a test, as an integer. *)
Fixpoint cnt {A} (P : A -> bool) (l : list A) : Z :=
  match l with [] => 0 | x :: l => (if P x then 1 else 0) + cnt P l end.

Lemma cnt_nonneg {A} (P : A -> bool) l : 0 <= cnt P l.
Proof. induction l as [|x l IH]; simpl; [done|]. destruct (P x); lia. Qed.

Lemma cnt_le_length {A} (P : A -> bool) l : cnt P l <= Z.of_nat (length l).
Proof. induction l as [|x l IH]; simpl; [done|]. destruct (P x); lia. Qed.

Lemma cnt_insert {A} (P : A -> bool) l i x y : l !! i = Some x ->
  cnt P (<[i := y]> l) = cnt P l - (if P x then 1 else 0) + (if P y then 1 else 0).
Proof.
  revert i. induction l as [|z l IH]; intros [|i] H; simplify_eq/=; [lia|].
  rewrite (IH i H). lia.
Qed.

Lemma cnt_pos {A} (P : A -> bool) l i x : l !! i = Some x -> P x = true -> 1 <= cnt P l.
Proof.
  revert i. induction l as [|y l IH]; intros [|i] Hi HP; simplify_eq/=.
  - rewrite HP. pose proof (cnt_nonneg P l). lia.
  - specialize (IH i Hi HP). destruct (P y); lia.
Qed.

Lemma cnt_pos2 {A} (P : A -> bool) l i j x y :
  l !! i = Some x -> l !! j = Some y -> i <> j -> P x = true -> P y = true -> 2 <= cnt P l.
Proof.
  revert i j. induction l as [|z l IH]; intros [|i] [|j] Hi Hj Hne HP HQ; simplify_eq/=.
  - rewrite HP. pose proof (cnt_pos P l j y Hj HQ). lia.
  - rewrite HQ. pose proof (cnt_pos P l i x Hi HP). lia.
  - specialize (IH i j Hi Hj ltac:(congruence) HP HQ). destruct (P z); lia.
Qed.

(** Two exclusive tests count at most the whole list, and one less when some
    element satisfies neither. *)
Lemma cnt_two {A} (P Q : A -> bool) l i x :
  (forall a, P a && Q a = false) -> l !! i = Some x -> P x = false -> Q x = false ->
  cnt P l + cnt Q l <= Z.of_nat (length l) - 1.
Proof.
  intros HPQ Hi HP HQ.
  assert (Hall : forall l, cnt P l + cnt Q l <= Z.of_nat (length l)).
  { induction l0 as [|z l0 IH]; simpl; [done|]. specialize (HPQ z).
    destruct (P z), (Q z); simpl in *; try discriminate; lia. }
  revert i Hi. induction l as [|z l IH]; intros [|i] Hi; simplify_eq/=.
  - rewrite HP, HQ. specialize (Hall l). lia.
  - specialize (IH i Hi). specialize (HPQ z). destruct (P z), (Q z); simpl in *; try discriminate; lia.
Qed.

Lemma cnt_app {A} (P : A -> bool) l k : cnt P (l ++ k) = cnt P l + cnt P k.
Proof. induction l as [|x l IH]; simpl; [done|]. rewrite IH. lia. Qed.

Lemma cnt_Permutation {A} (P : A -> bool) l k : l ≡ₚ k -> cnt P l = cnt P k.
Proof. induction 1; simpl; lia. Qed.

(** Counting the values of a map. *)
Definition mcnt {K A} `{Countable K} (P : A -> bool) (m : gmap K A) : Z := cnt P (map_to_list m).*2.

Lemma mcnt_insert_new {K A} `{Countable K} (P : A -> bool) (m : gmap K A) k x :
  m !! k = None -> mcnt P (<[k := x]> m) = mcnt P m + (if P x then 1 else 0).
Proof.
  intros Hk. unfold mcnt. rewrite (cnt_Permutation P _ ((k, x) :: map_to_list m).*2).
  - rewrite fmap_cons. cbn [cnt snd]. lia.
  - by rewrite map_to_list_insert.
Qed.

Lemma mcnt_delete {K A} `{Countable K} (P : A -> bool) (m : gmap K A) k x :
  m !! k = Some x -> mcnt P (delete k m) = mcnt P m - (if P x then 1 else 0).
Proof.
  intros Hk. rewrite <- (insert_delete_id m k x) at 2 by done.
  rewrite mcnt_insert_new by apply lookup_delete_eq. lia.
Qed.

Lemma mcnt_insert {K A} `{Countable K} (P : A -> bool) (m : gmap K A) k x y :
  m !! k = Some x -> mcnt P (<[k := y]> m) = mcnt P m - (if P x then 1 else 0) + (if P y then 1 else 0).
Proof.
  intros Hk. rewrite <- insert_delete_eq, mcnt_insert_new by apply lookup_delete_eq.
  by rewrite (mcnt_delete P m k x Hk).
Qed.

Lemma mcnt_nonneg {K A} `{Countable K} (P : A -> bool) (m : gmap K A) : 0 <= mcnt P m.
Proof. apply cnt_nonneg. Qed.

Lemma foldl_append {A} (l acc : list A) : foldl (fun out v => out ++ [v]) acc l = acc ++ l.
Proof.
  revert acc. induction l as [|x l IH]; intros acc; simpl; [by rewrite app_nil_r|].
  by rewrite IH, <- app_assoc.
Qed.

Lemma filter_none {A} (P : A -> Prop) `{!forall x, Decision (P x)} (l : list A) : (forall x, x ∈ l -> ~ P x) -> filter P l = [].
Proof.
  induction l as [|x l IH]; intros Hl; [done|]. rewrite filter_cons_False by (apply Hl; left).
  apply IH. intros y Hy. apply Hl. by right.
Qed.

Lemma filter_every {A} (P : A -> Prop) `{!forall x, Decision (P x)} (l : list A) : (forall x, x ∈ l -> P x) -> filter P l = l.
Proof.
  induction l as [|x l IH]; intros Hl; [done|]. rewrite filter_cons_True by (apply Hl; left).
  f_equal. apply IH. intros y Hy. apply Hl. by right.
Qed.

Lemma NoDup_delete {A} (l : list A) i : NoDup l -> NoDup (delete i l).
Proof. intros H. eapply sublist_NoDup; [exact H|apply sublist_delete]. Qed.

Lemma elem_of_delete {A} (l : list A) i x : x ∈ delete i l -> x ∈ l.
Proof. intros H. eapply elem_of_sublist; [exact H|apply sublist_delete]. Qed.

Lemma NoDup_delete_not_elem {A} (l : list A) i x :
  NoDup l -> l !! i = Some x -> x ∉ delete i l.
Proof.
  intros Hnd Hi. rewrite (delete_Permutation l i x Hi) in Hnd.
  by apply NoDup_cons in Hnd as [? _].
Qed.

(** Changing one element of a list of elements that each hold some values. *)
Lemma mjoin_insert {A B} (f : A -> list B) (l : list A) i x y : l !! i = Some x ->
  f x ++ mjoin (f <$> <[i := y]> l) ≡ₚ f y ++ mjoin (f <$> l).
Proof.
  revert i. induction l as [|z l IH]; intros [|i] H; [done|done| |].
  - injection H as ->. cbn. by rewrite Permutation_app_swap_app.
  - cbn. rewrite Permutation_app_swap_app, (IH i H). by rewrite Permutation_app_swap_app.
Qed.
Lemma mjoin_snoc {A B} (f : A -> list B) (l : list A) x : mjoin (f <$> (l ++ [x])) = mjoin (f <$> l) ++ f x.
Proof. rewrite fmap_app, join_app. cbn. by rewrite app_nil_r. Qed.

(** ** Dynamically typed values ([interface{}]) *)
Inductive any : Type :=
  | AnyNil
  | AnyBool (b : bool)
  | AnyInt (z : Z)
  | AnyString (s : string)
  | AnyBytes (l : list byte).

#[export] Instance any_eq_dec : EqDecision any.
Proof. solve_decision. Defined.

(** ** Automation *)
Create HintDb zs discriminated.
Create Rewrite HintDb zs_len.
#[export] Hint Resolve wrapU_range wrapS_range byte_to_Z_range be_decode_range : zs.
#[export] Hint Rewrite length_be_encode length_padded @length_app @length_take
  @length_drop @length_replicate : zs_len.

(** Case analysis on every guard of the goal, then simplification. *)
Ltac guards := repeat case_match; simplify_eq/=.
(** Equality of concatenations up to associativity. *)
Ltac list_assoc := repeat (rewrite <- ?app_assoc; simpl); done.
(** Lengths of concatenated fields. *)
Ltac len := autorewrite with zs_len; cbn [length]; lia.
