(* ===== verification/Errors.v ===== *)
(** * Protocol errors ([internal/core/protocol/errors.go])

    The sentinel errors, the numeric codes, the [*Error] wrapper and the code
    lookup through [errors.As]. *)
From S2P Require Import Prelude.
From Stdlib Require Import ZArith Lia Strings.String.
From stdpp Require Import base list strings gmap.
Open Scope Z_scope.

(** The sentinels created with [errors.New]; two are equal iff they are the
    same variable. *)
Inductive sentinel : Type :=
  | ErrConnectionClosed | ErrConnectionTimeout | ErrConnectionRefused
  | ErrConnectionLost | ErrInvalidConnection | ErrMaxConnectionsReached
  | ErrClientNotFound | ErrClientInactive | ErrClientDisconnected
  | ErrMaxClientsExceeded | ErrInvalidClientID
  | ErrMessageTooLarge | ErrMessageExpired | ErrInvalidMessage
  | ErrMessageQueueFull | ErrSerializationFailed | ErrDeserializationFailed
  | ErrStreamClosed | ErrStreamNotFound | ErrMaxStreamsReached
  | ErrStreamTimeout | ErrInvalidStreamID | ErrStreamReset
  | ErrGroupNotFound | ErrGroupClosed | ErrMaxGroupsExceeded
  | ErrGroupAlreadyExists | ErrInvalidGroupID
  | ErrScopeNotFound | ErrScopeClosed | ErrMaxScopesExceeded
  | ErrScopeAlreadyExists | ErrInvalidScopeID | ErrMaxDataSizeExceeded
  | ErrMaxKeysExceeded | ErrDataNotFound
  | ErrTransportNotSupported | ErrTransportClosed | ErrTransportFailed
  | ErrInvalidAddress | ErrBindFailed | ErrListenFailed | ErrDialFailed
  | ErrRegistryClosed | ErrAlreadyRegistered | ErrNotRegistered
  | ErrInvalidConfig | ErrConfigurationMissing | ErrUnsupportedFeature
  | ErrAuthenticationFailed | ErrAuthorizationFailed | ErrCertificateInvalid
  | ErrEncryptionFailed | ErrDecryptionFailed
  | ErrProtocolViolation | ErrInvalidFrame | ErrFrameTooLarge
  | ErrInvalidHeader | ErrChecksumMismatch
  | ErrResourceExhausted | ErrMemoryLimitExceeded | ErrCPULimitExceeded
  | ErrDiskSpaceExhausted
  | ErrDeadlock | ErrRaceCondition | ErrLockTimeout
  | ErrNotImplemented | ErrOperationNotSupported | ErrInternalError
  | ErrUnknownError.

#[export] Instance sentinel_eq_dec : EqDecision sentinel.
Proof. solve_decision. Defined.

(** The numeric codes. *)
Definition ErrorCodeConnectionClosed := 1001.
Definition ErrorCodeConnectionTimeout := 1002.
Definition ErrorCodeConnectionRefused := 1003.
Definition ErrorCodeConnectionLost := 1004.
Definition ErrorCodeProtocolViolation := 1007.
Definition ErrorCodeAuthenticationFailed := 1008.
Definition ErrorCodeAuthorizationFailed := 2006.
Definition ErrorCodeMessageQueueFull := 3004.
Definition ErrorCodeStreamTimeout := 4004.
Definition ErrorCodeResourceExhausted := 4007.
Definition ErrorCodeUnknownError := 9999.

(** An error value: a sentinel, a [*Error], an error of another package
    (named), or one that wraps another with [fmt.Errorf] and the verb [%w]. *)
Inductive error : Type :=
  | Sentinel (s : sentinel)
  | ProtocolError (code : Z) (message : string) (cause : option error)
      (context : list (string * any)) (timestamp : Z)
  | External (name : string)
  | Wrapped (text : string) (inner : error).

(** [errorCodeMap]: the entries of the map, in order. *)
Definition errorCodeMap (s : sentinel) : option Z :=
  match s with
  | ErrConnectionClosed => Some 1001 | ErrConnectionTimeout => Some 1002
  | ErrConnectionRefused => Some 1003 | ErrConnectionLost => Some 1004
  | ErrInvalidConnection => Some 1005 | ErrMaxConnectionsReached => Some 1006
  | ErrClientNotFound => Some 2001 | ErrClientInactive => Some 2002
  | ErrClientDisconnected => Some 2003 | ErrMaxClientsExceeded => Some 2004
  | ErrInvalidClientID => Some 2005
  | ErrMessageTooLarge => Some 3001 | ErrMessageExpired => Some 3002
  | ErrInvalidMessage => Some 3003 | ErrMessageQueueFull => Some 3004
  | ErrSerializationFailed => Some 3005 | ErrDeserializationFailed => Some 3006
  | ErrStreamClosed => Some 4001 | ErrStreamNotFound => Some 4002
  | ErrMaxStreamsReached => Some 4003 | ErrStreamTimeout => Some 4004
  | ErrInvalidStreamID => Some 4005 | ErrStreamReset => Some 4006
  | ErrGroupNotFound => Some 5001 | ErrGroupClosed => Some 5002
  | ErrMaxGroupsExceeded => Some 5003 | ErrGroupAlreadyExists => Some 5004
  | ErrInvalidGroupID => Some 5005
  | ErrScopeNotFound => Some 6001 | ErrScopeClosed => Some 6002
  | ErrMaxScopesExceeded => Some 6003 | ErrScopeAlreadyExists => Some 6004
  | ErrInvalidScopeID => Some 6005 | ErrMaxDataSizeExceeded => Some 6006
  | ErrMaxKeysExceeded => Some 6007 | ErrDataNotFound => Some 6008
  | ErrTransportNotSupported => Some 7001 | ErrTransportClosed => Some 7002
  | ErrTransportFailed => Some 7003 | ErrInvalidAddress => Some 7004
  | ErrBindFailed => Some 7005 | ErrListenFailed => Some 7006
  | ErrDialFailed => Some 7007
  | ErrNotImplemented => Some 9001 | ErrOperationNotSupported => Some 9002
  | ErrInternalError => Some 9003 | ErrUnknownError => Some ErrorCodeUnknownError
  | _ => None
  end.

(** [errors.As(err, &protocolErr)]: the code of the first [*Error] of the
    [Unwrap] chain. *)
Fixpoint errors_As (e : error) : option Z :=
  match e with
  | ProtocolError code _ _ _ _ => Some code
  | Wrapped _ inner => errors_As inner
  | Sentinel _ | External _ => None
  end.

Definition GetErrorCode (e : error) : Z :=
  match (match e with Sentinel s => errorCodeMap s | _ => None end) with
  | Some code => code
  | None =>
      match errors_As e with
      | Some code => code
      | None => ErrorCodeUnknownError
      end
  end.

(** [now] is [time.Now().Unix()]. *)
Definition NewProtocolError (now code : Z) (message : string) (cause : option error) : error :=
  ProtocolError code message cause [] now.

Definition WrapError (now : Z) (e : error) (message : string) : error :=
  NewProtocolError now (GetErrorCode e) message (Some e).

(** [Unwrap] *)
Definition error_Unwrap (e : error) : option error :=
  match e with
  | ProtocolError _ _ cause _ _ => cause
  | Wrapped _ inner => Some inner
  | _ => None
  end.

(** [WithContext]: assigns a key of the context map. *)
Definition WithContext (e : error) (key : string) (value : any) : error :=
  match e with
  | ProtocolError c m cause ctx t =>
      ProtocolError c m cause
        ((key, value) :: filter (fun kv => kv.1 <> key) ctx) t
  | _ => e
  end.

Definition IsTemporary (code : Z) : bool :=
  bool_decide (code ∈ [ErrorCodeConnectionTimeout; ErrorCodeConnectionLost;
    ErrorCodeMessageQueueFull; ErrorCodeStreamTimeout; ErrorCodeResourceExhausted]).
Definition IsRetryable (code : Z) : bool := IsTemporary code.
Definition IsFatal (code : Z) : bool :=
  bool_decide (code ∈ [ErrorCodeConnectionClosed; ErrorCodeConnectionRefused;
    ErrorCodeProtocolViolation; ErrorCodeAuthenticationFailed;
    ErrorCodeAuthorizationFailed]).

(** The codes of a chain of wrappings, outermost first. *)
Fixpoint wrap_all (now : Z) (messages : list string) (e : error) : error :=
  match messages with
  | [] => e
  | m :: ms => WrapError now (wrap_all now ms e) m
  end.

Lemma GetErrorCode_WrapError now e m : GetErrorCode (WrapError now e m) = GetErrorCode e.
Proof. done. Qed.


(** however often an error is wrapped on its way up, the code that
    [GetErrorCode] reports is the one of the original error, and unwrapping
    the outermost [*Error] gives the error that was wrapped. *)
Theorem wrap_preserves_code now ms e :
  GetErrorCode (wrap_all now ms e) = GetErrorCode e /\
  forall m, error_Unwrap (WrapError now (wrap_all now ms e) m) = Some (wrap_all now ms e).
Proof. split; [induction ms; simpl; [done|]; by rewrite GetErrorCode_WrapError | done]. Qed.

(** the code table is injective on the sentinels it holds: a code
    determines the sentinel, so the numeric code loses no information. *)
Theorem errorCodeMap_injective s1 s2 c :
  errorCodeMap s1 = Some c -> errorCodeMap s2 = Some c -> s1 = s2.
Proof.
  intros H1 H2. destruct s1; simpl in H1; simplify_eq; destruct s2; simpl in H2; simplify_eq; done.
Qed.

Lemma errorCodeMap_injective_witness :
  GetErrorCode (Sentinel ErrStreamReset) = 4006 /\ ErrStreamReset = ErrStreamReset.
Proof.
  split; [reflexivity|]. apply (errorCodeMap_injective _ _ 4006); reflexivity.
Defined.

(** the sentinels of the security and protocol-violation classes are not in
    the table, so an error that is exactly the authentication, authorization or
    protocol-violation sentinel is wrapped with the unknown code and is neither
    fatal nor retryable, while the same code given directly is fatal. *)
Theorem security_sentinels_not_fatal now m :
  Forall (fun s => GetErrorCode (WrapError now (Sentinel s) m) = ErrorCodeUnknownError /\
                   IsFatal (GetErrorCode (WrapError now (Sentinel s) m)) = false /\
                   IsTemporary (GetErrorCode (WrapError now (Sentinel s) m)) = false)
    [ErrAuthenticationFailed; ErrAuthorizationFailed; ErrProtocolViolation; ErrResourceExhausted] /\
  IsFatal ErrorCodeAuthenticationFailed = true /\ IsFatal ErrorCodeAuthorizationFailed = true /\
  IsFatal ErrorCodeProtocolViolation = true /\ IsTemporary ErrorCodeResourceExhausted = true.
Proof. split; [repeat constructor | repeat split]. Qed.
