(* ===== verification/Messages.v ===== *)
(** * Messages, message pool and filters ([internal/core/protocol/message.go],
    [types.go])

    The [Message] record, the constructors and the builder, the reference
    count, the pool over a heap of message objects, and the filter
    combinators. *)
From S2P Require Import Prelude.
From Stdlib Require Import ZArith Lia Strings.String Strings.Byte.
From stdpp Require Import base list strings gmap sets.
Open Scope Z_scope.

(** ** Identifiers and enumerations *)
Abbreviation MessageID := string.
Abbreviation ClientID := string.
Abbreviation GroupID := string.
Abbreviation ScopeID := string.
Abbreviation StreamID := string.
Abbreviation ConnectionID := string.

Inductive ConnectionState : Type :=
  | ConnectionStateConnecting
  | ConnectionStateConnected
  | ConnectionStateDisconnecting
  | ConnectionStateDisconnected
  | ConnectionStateError.
#[export] Instance ConnectionState_eq_dec : EqDecision ConnectionState.
Proof. solve_decision. Defined.

(** [MessageType] and [Priority] are [uint8]: any byte can arrive. *)
Definition MessageTypeData := 0.
Definition MessageTypeControl := 1.
Definition MessageTypeHeartbeat := 2.
Definition MessageTypeAck := 3.
Definition MessageTypeStream := 4.
Definition MessageTypeGroupcast := 5.
Definition MessageTypeScopecast := 6.

Definition MessageType_String (mt : Z) : string :=
  if mt =? MessageTypeData then "data"
  else if mt =? MessageTypeControl then "control"
  else if mt =? MessageTypeHeartbeat then "heartbeat"
  else if mt =? MessageTypeAck then "ack"
  else if mt =? MessageTypeStream then "stream"
  else if mt =? MessageTypeGroupcast then "groupcast"
  else if mt =? MessageTypeScopecast then "scopecast"
  else "unknown".

Definition PriorityLow := 0.
Definition PriorityNormal := 1.
Definition PriorityHigh := 2.
Definition PriorityCritical := 3.

(** ** The message record

    [Payload] is the slice's content and [PayloadCap] the capacity of its
    backing array; [Timestamp] is in nanoseconds since the epoch. *)
Record Message : Type := mkMessage {
  ID : MessageID;
  Type_ : Z;
  Priority : Z;
  Payload : list byte;
  PayloadCap : Z;
  Timestamp : Z;
  TTL : Z;
  SourceClientID : ClientID;
  TargetClientID : ClientID;
  MsgGroupID : GroupID;
  MsgScopeID : ScopeID;
  pooled : bool;
  refCount : Z
}.

(** [NewMessage]; [id] and [now] are the values [GenerateMessageID] and
    [time.Now] return. *)
Definition NewMessage (id : MessageID) (now : Z) (msgType : Z)
    (payload : list byte) (cap : Z) : Message :=
  mkMessage id msgType PriorityNormal payload cap now 0 "" "" "" "" false 1.

(** The payload is copied into a slice of exactly its length. *)
Definition NewMessageFromBytes (id : MessageID) (now msgType : Z) (data : list byte) : Message :=
  mkMessage id msgType PriorityNormal data (Z.of_nat (length data)) now 0 "" "" "" "" false 1.

(** [data, err := obj.Serialize()] has been run by the caller of the model. *)
Definition NewMessageFromSerializable {E} (id : MessageID) (now msgType : Z)
    (serialized : result E (list byte)) (cap : Z) : result E Message :=
  match serialized with
  | Err e => Err e
  | Ok data => Ok (mkMessage id msgType PriorityNormal data cap now 0 "" "" "" "" false 1)
  end.

(** The setters of the builder. *)
Definition WithType (t : Z) (m : Message) : Message :=
  mkMessage (ID m) t (Priority m) (Payload m) (PayloadCap m) (Timestamp m) (TTL m)
    (SourceClientID m) (TargetClientID m) (MsgGroupID m) (MsgScopeID m) (pooled m) (refCount m).
Definition WithPriority (p : Z) (m : Message) : Message :=
  mkMessage (ID m) (Type_ m) p (Payload m) (PayloadCap m) (Timestamp m) (TTL m)
    (SourceClientID m) (TargetClientID m) (MsgGroupID m) (MsgScopeID m) (pooled m) (refCount m).
Definition WithPayload (b : list byte) (m : Message) : Message :=
  mkMessage (ID m) (Type_ m) (Priority m) b (Z.of_nat (length b)) (Timestamp m) (TTL m)
    (SourceClientID m) (TargetClientID m) (MsgGroupID m) (MsgScopeID m) (pooled m) (refCount m).
Definition WithTTL (ttl : Z) (m : Message) : Message :=
  mkMessage (ID m) (Type_ m) (Priority m) (Payload m) (PayloadCap m) (Timestamp m) ttl
    (SourceClientID m) (TargetClientID m) (MsgGroupID m) (MsgScopeID m) (pooled m) (refCount m).
Definition WithSource (c : ClientID) (m : Message) : Message :=
  mkMessage (ID m) (Type_ m) (Priority m) (Payload m) (PayloadCap m) (Timestamp m) (TTL m)
    c (TargetClientID m) (MsgGroupID m) (MsgScopeID m) (pooled m) (refCount m).
Definition WithTarget (c : ClientID) (m : Message) : Message :=
  mkMessage (ID m) (Type_ m) (Priority m) (Payload m) (PayloadCap m) (Timestamp m) (TTL m)
    (SourceClientID m) c (MsgGroupID m) (MsgScopeID m) (pooled m) (refCount m).
Definition WithGroup (g : GroupID) (m : Message) : Message :=
  mkMessage (ID m) (Type_ m) (Priority m) (Payload m) (PayloadCap m) (Timestamp m) (TTL m)
    (SourceClientID m) (TargetClientID m) g (MsgScopeID m) (pooled m) (refCount m).
Definition WithScope (s : ScopeID) (m : Message) : Message :=
  mkMessage (ID m) (Type_ m) (Priority m) (Payload m) (PayloadCap m) (Timestamp m) (TTL m)
    (SourceClientID m) (TargetClientID m) (MsgGroupID m) s (pooled m) (refCount m).

(** [Clone]: fresh identifier, own payload, not pooled, one reference. *)
Definition Clone (id : MessageID) (m : Message) : Message :=
  mkMessage id (Type_ m) (Priority m) (Payload m) (Z.of_nat (length (Payload m)))
    (Timestamp m) (TTL m) (SourceClientID m) (TargetClientID m) (MsgGroupID m)
    (MsgScopeID m) false 1.

(** [IsExpired] at the time [now]; [time.Since(t)] is [now.Sub(t)]. *)
Definition IsExpired (now : Z) (m : Message) : bool :=
  if TTL m =? 0 then false else TTL m <? time_Sub now (Timestamp m).

Definition AsString (m : Message) : string := string_of_list_byte (Payload m).

(** ** Filters *)
Definition MessageFilter := Message -> bool.
Definition FilterByType (msgType : Z) : MessageFilter := fun msg => Type_ msg =? msgType.
Definition FilterByPriority (minPriority : Z) : MessageFilter :=
  fun msg => minPriority <=? Priority msg.
Definition FilterBySource (sourceID : ClientID) : MessageFilter :=
  fun msg => bool_decide (SourceClientID msg = sourceID).
Definition FilterByGroup (groupID : GroupID) : MessageFilter :=
  fun msg => bool_decide (MsgGroupID msg = groupID).
Definition FilterByScope (scopeID : ScopeID) : MessageFilter :=
  fun msg => bool_decide (MsgScopeID msg = scopeID).

(** The loops return at the first filter that refuses (accepts). *)
Fixpoint CombineFilters (filters : list MessageFilter) : MessageFilter :=
  fun msg =>
    match filters with
    | [] => true
    | f :: fs => if negb (f msg) then false else CombineFilters fs msg
    end.
Fixpoint AnyFilter (filters : list MessageFilter) : MessageFilter :=
  fun msg =>
    match filters with
    | [] => false
    | f :: fs => if f msg then true else AnyFilter fs msg
    end.

(** ** The message pool

    Messages are shared objects: the pool state holds the heap of message
    objects by location, the locations lying in the [sync.Pool], and the two
    counters. [sync.Pool] may hand out any of the objects put in it or call
    [New]; that choice is an argument of [Pool_Get]. *)
Module Pool.

Abbreviation loc := positive.

Record MessagePool : Type := mkPool {
  heap : gmap loc Message;
  free : list loc;
  gets : Z;
  puts : Z
}.

Definition NewMessagePool : MessagePool := mkPool ∅ [] 0 0.

(** A message as [New] allocates it. *)
Definition blank : Message := mkMessage "" 0 0 [] 0 0 0 "" "" "" "" false 0.

(** The reset done by [Get]; the payload keeps its backing array. *)
Definition reset (id : MessageID) (now : Z) (m : Message) : Message :=
  mkMessage id MessageTypeData PriorityNormal [] (PayloadCap m) now 0 "" "" "" "" true 1.

(** [Get]: [choice = Some i] when the [sync.Pool] hands out the [i]-th of the
    objects put in it, [None] when it calls [New] (the object is then the
    newly allocated [fresh]). *)
Definition Get (p : MessagePool) (choice : option nat) (fresh : loc) (id : MessageID) (now : Z)
    : MessagePool * loc :=
  match (i ← choice; l ← free p !! i; m ← (heap p !! l); Some (i, l, m)) with
  | Some (i, l, m) =>
      (mkPool (<[l := reset id now m]> (heap p)) (delete i (free p))
         (wrapU 64 (gets p + 1)) (puts p), l)
  | None =>
      (mkPool (<[fresh := reset id now blank]> (heap p)) (free p)
         (wrapU 64 (gets p + 1)) (puts p), fresh)
  end.

Definition set_refCount (n : Z) (m : Message) : Message :=
  mkMessage (ID m) (Type_ m) (Priority m) (Payload m) (PayloadCap m) (Timestamp m) (TTL m)
    (SourceClientID m) (TargetClientID m) (MsgGroupID m) (MsgScopeID m) (pooled m) n.

(** The message [Put] leaves in the pool. *)
Definition cleared (m : Message) : Message :=
  mkMessage (ID m) (Type_ m) (Priority m) [] (if 1024 <? PayloadCap m then 0 else PayloadCap m)
    (Timestamp m) (TTL m) (SourceClientID m) (TargetClientID m) (MsgGroupID m) (MsgScopeID m)
    (pooled m) 0.

Definition Put (p : MessagePool) (l : loc) : MessagePool :=
  match heap p !! l with
  | None => p
  | Some m =>
      if negb (pooled m) then p
      else mkPool (<[l := cleared m]> (heap p)) (free p ++ [l]) (gets p) (wrapU 64 (puts p + 1))
  end.

Definition Retain (p : MessagePool) (l : loc) : MessagePool :=
  match heap p !! l with
  | None => p
  | Some m => mkPool (<[l := set_refCount (wrapS 32 (refCount m + 1)) m]> (heap p))
                (free p) (gets p) (puts p)
  end.

(** [Release]: the pool is [defaultMessagePool]. *)
Definition Release (p : MessagePool) (l : loc) : MessagePool :=
  match heap p !! l with
  | None => p
  | Some m =>
      let n := wrapS 32 (refCount m - 1) in
      let p' := mkPool (<[l := set_refCount n m]> (heap p)) (free p) (gets p) (puts p) in
      if (n =? 0) && pooled m then Put p' l else p'
  end.

Definition Stats (p : MessagePool) : Z * Z := (gets p, puts p).

(** The owner of a reference writes the payload. *)
Definition SetPayload (p : MessagePool) (l : loc) (b : list byte) : MessagePool :=
  match heap p !! l with
  | None => p
  | Some m => mkPool (<[l := WithPayload b m]> (heap p)) (free p) (gets p) (puts p)
  end.

(** A location somebody holds a reference to. *)
Definition live (p : MessagePool) (l : loc) : Prop :=
  exists m, heap p !! l = Some m /\ 0 < refCount m.

(** Steps of clients that only touch messages they hold a reference to. *)
Inductive step : MessagePool -> MessagePool -> Prop :=
  | step_get p choice fresh id now :
      heap p !! fresh = None -> step p (Get p choice fresh id now).1
  | step_put p l : live p l -> step p (Put p l)
  | step_retain p l : live p l -> step p (Retain p l)
  | step_release p l : live p l -> step p (Release p l)
  | step_write p l b : live p l -> step p (SetPayload p l b)
  | step_gc p i : step p (mkPool (heap p) (delete i (free p)) (gets p) (puts p)).

Definition reachable : MessagePool -> Prop := rtc step NewMessagePool.

(** Every object in the pool is there once, has no references, is marked
    as pooled, has an empty payload and at most 1024 bytes of backing array. *)
Definition idle (m : Message) : Prop :=
  refCount m = 0 /\ pooled m = true /\ Payload m = [] /\ PayloadCap m <= 1024.

Definition pool_inv (p : MessagePool) : Prop :=
  NoDup (free p) /\ forall l, l ∈ free p -> exists m, heap p !! l = Some m /\ idle m.

Lemma live_not_free p l : pool_inv p -> live p l -> l ∉ free p.
Proof. intros [_ H] (m & Hm & Hr) Hin. destruct (H l Hin) as (m' & ? & ? & _). simplify_eq; lia. Qed.

Lemma pool_inv_write p l m f :
  pool_inv p -> l ∉ free p -> forall g q,
  f = <[l := m]> (heap p) -> pool_inv (mkPool f (free p) g q).
Proof.
  intros [Hnd H] Hl g q ->. split; [done|]. simpl. intros k Hk.
  rewrite lookup_insert_ne by (intros ->; done). auto.
Qed.

Lemma cleared_idle m : pooled m = true -> idle (cleared m).
Proof. intros ?. repeat split; simpl; [done|]. case_match; [done|lia]. Qed.

Lemma Put_inv p l : pool_inv p -> l ∉ free p -> pool_inv (Put p l).
Proof.
  intros [Hnd H] Hl. unfold Put. destruct (heap p !! l) as [m|] eqn:Hm; [|done].
  destruct (pooled m) eqn:Hp; [|done]. split; simpl.
  - apply NoDup_app. repeat split; [done| |apply NoDup_singleton].
    intros k Hk ->%list_elem_of_singleton. done.
  - intros k [Hk| ->%list_elem_of_singleton]%elem_of_app.
    + rewrite lookup_insert_ne by (intros ->; done). auto.
    + exists (cleared m). rewrite lookup_insert_eq. auto using cleared_idle.
Qed.

Lemma Get_inv p choice fresh id now :
  heap p !! fresh = None -> pool_inv p -> pool_inv (Get p choice fresh id now).1.
Proof.
  intros Hf [Hnd H]. unfold Get.
  destruct (i ← choice; (l ← free p !! i; (m ← (heap p !! l); Some (i, l, m)))) as [[[i l] m]|] eqn:E;
    simpl.
  - destruct choice as [i'|]; [|done]. simpl in E.
    destruct (free p !! i') as [l'|] eqn:Hi; [|done]. simpl in E.
    destruct (heap p !! l') as [m'|] eqn:Hm; simplify_eq/=. split; simpl.
    + by apply NoDup_delete.
    + intros k Hk. rewrite lookup_insert_ne; [by eapply H, elem_of_delete|].
      intros ->. by eapply NoDup_delete_not_elem.
  - split; simpl; [done|]. intros k Hk. rewrite lookup_insert_ne; [auto|].
    intros ->. destruct (H k Hk) as (? & ? & _). congruence.
Qed.

Lemma step_inv p q : step p q -> pool_inv p -> pool_inv q.
Proof.
  intros Hs Hp. destruct Hs as [p choice fresh id now Hf|p l Hl|p l Hl|p l Hl|p l b Hl|p i].
  - by apply Get_inv.
  - apply Put_inv; [done|]. by apply live_not_free.
  - unfold Retain. destruct (heap p !! l); [|done].
    eapply pool_inv_write; [done|by apply live_not_free|done].
  - pose proof (live_not_free p l Hp Hl) as Hnf. unfold Release.
    destruct (heap p !! l) as [m|]; [|done].
    assert (pool_inv (mkPool (<[l:=set_refCount (wrapS 32 (refCount m - 1)) m]> (heap p))
      (free p) (gets p) (puts p))) by (by eapply pool_inv_write).
    case_match; [|done]. by apply Put_inv.
  - unfold SetPayload. destruct (heap p !! l); [|done].
    eapply pool_inv_write; [done|by apply live_not_free|done].
  - destruct Hp as [Hnd H]. split; simpl.
    + by apply NoDup_delete.
    + intros k Hk. by eapply H, elem_of_delete.
Qed.

Lemma reachable_inv p : reachable p -> pool_inv p.
Proof.
  intros Hr. unfold reachable in Hr.
  cut (pool_inv NewMessagePool); [|split; [apply NoDup_nil_2|]; intros ? []%not_elem_of_nil].
  induction Hr; eauto using step_inv.
Qed.

(** C6: As long as the pool's clients write, retain, release and put back only
    messages with a reference left, it never hands out one that has: whatever
    object the [sync.Pool] chooses, [Get] returns a message that was not live,
    that is not left in the pool, and that is reset (data type, normal priority,
    empty payload, no route, one reference). The condition is needed
    ([retain_after_put_aliases]), and senders of the program, which retain a
    message after its sender may have released it, do not keep it
    ([Connections.send_retains_too_late]). *)
Theorem get_exclusive p choice fresh id now :
  reachable p -> heap p !! fresh = None ->
  let '(p', l) := Get p choice fresh id now in
  ~ live p l /\ (l ∉ free p') /\
  exists m, heap p' !! l = Some m /\ refCount m = 1 /\ pooled m = true /\ ID m = id /\
    Type_ m = MessageTypeData /\ Priority m = PriorityNormal /\ Payload m = [] /\
    TTL m = 0 /\ SourceClientID m = "" /\ TargetClientID m = "" /\
    MsgGroupID m = "" /\ MsgScopeID m = "".
Proof.
  intros Hr Hf. pose proof (reachable_inv p Hr) as Hp.
  assert (Hnl : ~ live p fresh) by (intros (m & ? & _); congruence).
  assert (Hnf : fresh ∉ free p).
  { intros Hin. destruct (proj2 Hp fresh Hin) as (? & ? & _). congruence. }
  unfold Get.
  destruct (i ← choice; (l ← free p !! i; (m ← (heap p !! l); Some (i, l, m)))) as [[[i l] m]|] eqn:E.
  - destruct choice as [i'|]; [|done]. simpl in E.
    destruct (free p !! i') as [l'|] eqn:Hi; [|done]. simpl in E.
    destruct (heap p !! l') as [m'|] eqn:Hm; simplify_eq/=.
    assert (Hin : l ∈ free p) by (apply list_elem_of_lookup; eauto).
    split; [intros Hl; by apply (live_not_free p l)|].
    split; [by apply NoDup_delete_not_elem; [apply Hp|]|].
    exists (reset id now m). rewrite lookup_insert_eq. repeat split.
  - simpl. split; [done|]. split; [done|].
    exists (reset id now blank). rewrite lookup_insert_eq. repeat split.
Qed.

Lemma get_exclusive_witness :
  let p := Release (Get NewMessagePool None 1%positive "a" 7).1 1%positive in
  free p = [1%positive] /\ ~ live p (Get p (Some 0%nat) 2%positive "b" 8).2.
Proof.
  intros p. split; [reflexivity|].
  assert (Hr : reachable p).
  { eapply rtc_l; [apply (step_get _ None 1%positive "a" 7); reflexivity|].
    eapply rtc_l; [apply (step_release _ 1%positive); eexists; split; [reflexivity|simpl; lia]|].
    apply rtc_refl. }
  assert (Hf : heap p !! 2%positive = None) by reflexivity.
  pose proof (get_exclusive p (Some 0%nat) 2%positive "b" 8 Hr Hf) as H.
  destruct (Get p (Some 0%nat) 2%positive "b" 8) as [p' l]. apply H.
Defined.

Lemma Retain_lookup p l m :
  heap p !! l = Some m -> 0 <= refCount m < 2 ^ 31 - 1 ->
  heap (Retain p l) !! l = Some (set_refCount (refCount m + 1) m) /\
  free (Retain p l) = free p /\ puts (Retain p l) = puts p.
Proof.
  intros Hm Hr. unfold Retain. rewrite Hm. simpl. rewrite lookup_insert_eq.
  rewrite wrapS_id; [done|lia|]. unfold in_s. simpl. lia.
Qed.

Lemma Release_lookup p l m :
  heap p !! l = Some m -> 1 < refCount m < 2 ^ 31 ->
  heap (Release p l) !! l = Some (set_refCount (refCount m - 1) m) /\
  free (Release p l) = free p /\ puts (Release p l) = puts p.
Proof.
  intros Hm Hr. unfold Release. rewrite Hm.
  rewrite wrapS_id; [|lia|unfold in_s; simpl; lia].
  rewrite (proj2 (Z.eqb_neq _ _)) by lia. simpl. rewrite lookup_insert_eq. done.
Qed.

Lemma Release_last p l m :
  heap p !! l = Some m -> refCount m = 1 -> pooled m = true ->
  heap (Release p l) !! l = Some (cleared m) /\
  free (Release p l) = free p ++ [l] /\ puts (Release p l) = wrapU 64 (puts p + 1).
Proof.
  intros Hm Hr Hp. unfold Release. rewrite Hm, Hr, Hp. cbn. unfold Put. simpl.
  rewrite lookup_insert_eq. simpl. rewrite Hp. simpl. rewrite lookup_insert_eq. done.
Qed.

(** The references counted up and down again. *)
Lemma Retain_iter n p l m :
  heap p !! l = Some m -> 0 <= refCount m -> refCount m + Z.of_nat n < 2 ^ 31 ->
  let q := Nat.iter n (fun p => Retain p l) p in
  heap q !! l = Some (set_refCount (refCount m + Z.of_nat n) m) /\
  free q = free p /\ puts q = puts p.
Proof.
  intros Hm H0 Hn. induction n as [|n IH]; simpl.
  - rewrite Z.add_0_r. destruct m. done.
  - destruct IH as (IH1 & IH2 & IH3); [lia|].
    destruct (Retain_lookup _ l _ IH1) as (H1 & H2 & H3); [simpl; lia|].
    rewrite H1, H2, H3. split; [|done]. unfold set_refCount; simpl. f_equal; f_equal; lia.
Qed.

Lemma Release_iter n p l m :
  heap p !! l = Some m -> refCount m = 1 + Z.of_nat n -> refCount m < 2 ^ 31 ->
  let q := Nat.iter n (fun p => Release p l) p in
  heap q !! l = Some (set_refCount 1 m) /\ free q = free p /\ puts q = puts p.
Proof.
  intros Hm H0 Hn.
  cut (forall k, (k <= n)%nat -> let q := Nat.iter k (fun p => Release p l) p in
    heap q !! l = Some (set_refCount (refCount m - Z.of_nat k) m) /\
    free q = free p /\ puts q = puts p).
  { intros H. destruct (H n) as (H1 & H2); [lia|]. split; [|done].
    rewrite H1. unfold set_refCount; simpl. f_equal; f_equal; lia. }
  induction k as [|k IH]; intros Hk; simpl.
  - rewrite Z.sub_0_r. destruct m. done.
  - destruct IH as (IH1 & IH2 & IH3); [lia|].
    destruct (Release_lookup _ l _ IH1) as (H1 & H2 & H3); [simpl; lia|].
    rewrite H1, H2, H3. split; [|done]. unfold set_refCount; simpl. f_equal; f_equal; lia.
Qed.

(** Reference counting is exact: a message got from the pool and retained
    [n] times stays out of the pool through the first [n] releases, and the
    next release, and only it, returns the message. *)
Theorem retain_release_balanced n p l m :
  heap p !! l = Some m -> refCount m = 1 -> pooled m = true -> Z.of_nat n < 2 ^ 31 - 1 ->
  let q := Nat.iter n (fun p => Release p l) (Nat.iter n (fun p => Retain p l) p) in
  free q = free p /\ puts q = puts p /\ live q l /\
  free (Release q l) = free p ++ [l] /\ puts (Release q l) = wrapU 64 (puts p + 1) /\
  ~ live (Release q l) l.
Proof.
  intros Hm Hr Hp Hn q.
  destruct (Retain_iter n p l m Hm) as (H1 & H2 & H3); [lia..|].
  destruct (Release_iter n _ l _ H1) as (H4 & H5 & H6); [simpl; lia..|].
  fold q in H4, H5, H6.
  destruct (Release_last q l _ H4) as (H7 & H8 & H9); [done|done|].
  rewrite H8, H9, H5, H6, H2, H3. repeat split.
  - eexists. split; [exact H4|]. simpl. lia.
  - intros (m' & Hm' & Hpos). rewrite H7 in Hm'. simplify_eq/=. lia.
Qed.

Lemma retain_release_balanced_witness :
  let p := (Get NewMessagePool None 1%positive "a" 7).1 in
  free (Release (Release (Retain p 1%positive) 1%positive) 1%positive) = [1%positive].
Proof.
  intros p. eapply (retain_release_balanced 1 p 1%positive); reflexivity.
Defined.

(** Without that discipline the pool can hand the same object out twice: a
    [Retain] and [Release] of a message after its last [Release] puts it in
    the pool a second time, and two [Get]s then return the same location. *)
Theorem retain_after_put_aliases id now :
  let p0 := (Get NewMessagePool None 1%positive id now).1 in
  let p1 := Release p0 1%positive in
  let p2 := Release (Retain p1 1%positive) 1%positive in
  free p1 = [1%positive] /\ free p2 = [1%positive; 1%positive] /\
  let '(p3, l3) := Get p2 (Some 0%nat) 2%positive id now in
  let '(p4, l4) := Get p3 (Some 0%nat) 2%positive id now in
  l3 = l4 /\ live p3 l3.
Proof. simpl. repeat split. eexists. split; [reflexivity|]. simpl. lia. Qed.

End Pool.

(** ** Filters and expiry *)
Lemma CombineFilters_spec fs m : CombineFilters fs m = forallb (fun f => f m) fs.
Proof. induction fs as [|f fs IH]; simpl; [done|]. rewrite IH. by destruct (f m). Qed.
Lemma AnyFilter_spec fs m : AnyFilter fs m = existsb (fun f => f m) fs.
Proof. induction fs as [|f fs IH]; simpl; [done|]. rewrite IH. by destruct (f m). Qed.

(** The filter combinators are conjunction and disjunction of any number of
    filters, and are dual to each other. *)
Theorem filters_boolean (fs : list MessageFilter) (m : Message) :
  (CombineFilters fs m = true <-> Forall (fun f => f m = true) fs) /\
  (AnyFilter fs m = true <-> Exists (fun f => f m = true) fs) /\
  AnyFilter (map (fun f m => negb (f m)) fs) m = negb (CombineFilters fs m).
Proof.
  rewrite CombineFilters_spec, !AnyFilter_spec. repeat split.
  - intros H. rewrite forallb_forall in H. apply Forall_forall. intros f Hf.
    apply H. by apply list_elem_of_In.
  - intros H. rewrite Forall_forall in H. apply forallb_forall. intros f Hf.
    apply H. by apply list_elem_of_In.
  - intros (f & Hf & H)%existsb_exists. apply Exists_exists. exists f.
    split; [by apply list_elem_of_In|done].
  - intros (f & Hf & H)%Exists_exists. apply existsb_exists. exists f.
    split; [by apply list_elem_of_In|done].
  - induction fs as [|f fs IH]; simpl; [done|]. rewrite IH, negb_andb. done.
Qed.

(** Expiry is monotone in time and off for a zero TTL: once a message is
    expired it stays expired, and a message with no TTL never is. *)
Theorem IsExpired_monotone now now' m :
  now <= now' -> IsExpired now m = true -> IsExpired now' m = true /\ TTL m <> 0.
Proof.
  unfold IsExpired, time_Sub. destruct (TTL m =? 0) eqn:E; [done|].
  rewrite !Z.ltb_lt. lia.
Qed.

Lemma IsExpired_monotone_witness :
  let m := WithTTL 5 (NewMessage "x" 10 MessageTypeData [] 0) in
  IsExpired 15 m = false /\ IsExpired 20 m = true.
Proof.
  intros m. split; [reflexivity|].
  apply (IsExpired_monotone 16 20 m); [lia|reflexivity].
Defined.
