(* ===== verification/Frames.v ===== *)
(** * The message frame codec ([internal/core/protocol/quic/stream.go])

    [createMessageFrame] writes a message into a fixed-layout buffer and
    [parseMessageFrame] reads it back; [SendMessage] and [ReceiveMessage] put
    an 8-byte length in front of each frame on the byte stream. *)
From S2P Require Import Prelude Errors Messages.
From Stdlib Require Import ZArith Lia Strings.String Strings.Byte.
From stdpp Require Import base list strings gmap.
Open Scope Z_scope.

Definition id_bytes (s : string) : list byte := list_byte_of_string s.

(** The header occupies this many bytes: the sum the code writes out. *)
Definition headerSize : nat := 36 + 1 + 1 + 8 + 8 + 36 + 36 + 36 + 36 + 4.

(** [createMessageFrame]: the writes into the zeroed buffer, in order. *)
Definition createMessageFrame (msg : Message) : list byte :=
  let frame := replicate (headerSize + length (Payload msg)) x00 in
  let offset := 0%nat in
  let frame := copy_at frame offset (offset + 36) (id_bytes (ID msg)) in
  let offset := (offset + 36)%nat in
  let frame := copy_at frame offset (offset + 1) [byte_of_Z (Type_ msg)] in
  let offset := (offset + 1)%nat in
  let frame := copy_at frame offset (offset + 1) [byte_of_Z (Priority msg)] in
  let offset := (offset + 1)%nat in
  let frame := copy_at frame offset (offset + 8) (be_encode 8 (wrapU 64 (Timestamp msg))) in
  let offset := (offset + 8)%nat in
  let frame := copy_at frame offset (offset + 8) (be_encode 8 (wrapU 64 (TTL msg))) in
  let offset := (offset + 8)%nat in
  let frame := copy_at frame offset (offset + 36) (id_bytes (SourceClientID msg)) in
  let offset := (offset + 36)%nat in
  let frame := copy_at frame offset (offset + 36) (id_bytes (TargetClientID msg)) in
  let offset := (offset + 36)%nat in
  let frame := copy_at frame offset (offset + 36) (id_bytes (MsgGroupID msg)) in
  let offset := (offset + 36)%nat in
  let frame := copy_at frame offset (offset + 36) (id_bytes (MsgScopeID msg)) in
  let offset := (offset + 36)%nat in
  let frame := copy_at frame offset (offset + 4)
                 (be_encode 4 (wrapU 32 (Z.of_nat (length (Payload msg))))) in
  let offset := (offset + 4)%nat in
  copy_at frame offset (length frame) (Payload msg).

(** [findNullTerminator] *)
Fixpoint findNullTerminator (data : list byte) : nat :=
  match data with
  | [] => 0
  | b :: data' => if decide (b = x00) then 0 else S (findNullTerminator data')
  end.

(** The identifier held by a 36-byte field. *)
Definition parse_id (frame : list byte) (offset : nat) : string :=
  let bytes := slice offset (offset + 36) frame in
  string_of_list_byte (take (findNullTerminator bytes) bytes).

(** [parseMessageFrame]: [m0] is the message [GetMessage] hands out. *)
Definition parseMessageFrame (m0 : Message) (frame : list byte) : result error Message :=
  if Z.of_nat (length frame) <? 234 then Err (Sentinel ErrInvalidMessage)
  else
    let offset := 0%nat in
    let messageID := parse_id frame offset in
    let offset := (offset + 36)%nat in
    let messageType := be_decode (slice offset (offset + 1) frame) in
    let offset := (offset + 1)%nat in
    let priority := be_decode (slice offset (offset + 1) frame) in
    let offset := (offset + 1)%nat in
    let timestamp := wrapS 64 (be_decode (slice offset (offset + 8) frame)) in
    let offset := (offset + 8)%nat in
    let ttl := wrapS 64 (be_decode (slice offset (offset + 8) frame)) in
    let offset := (offset + 8)%nat in
    let sourceClientID := parse_id frame offset in
    let offset := (offset + 36)%nat in
    let targetClientID := parse_id frame offset in
    let offset := (offset + 36)%nat in
    let groupID := parse_id frame offset in
    let offset := (offset + 36)%nat in
    let scopeID := parse_id frame offset in
    let offset := (offset + 36)%nat in
    let payloadLength := be_decode (slice offset (offset + 4) frame) in
    let offset := (offset + 4)%nat in
    if negb (Z.of_nat offset + payloadLength =? Z.of_nat (length frame))
    then Err (Sentinel ErrInvalidMessage)
    else
      Ok (mkMessage messageID messageType priority (drop offset frame) payloadLength
            timestamp ttl sourceClientID targetClientID groupID scopeID
            (pooled m0) (refCount m0)).

(** ** The layout of a frame *)
Definition header_of (msg : Message) : list byte :=
  padded 36 (id_bytes (ID msg)) ++
  padded 1 [byte_of_Z (Type_ msg)] ++
  padded 1 [byte_of_Z (Priority msg)] ++
  padded 8 (be_encode 8 (wrapU 64 (Timestamp msg))) ++
  padded 8 (be_encode 8 (wrapU 64 (TTL msg))) ++
  padded 36 (id_bytes (SourceClientID msg)) ++
  padded 36 (id_bytes (TargetClientID msg)) ++
  padded 36 (id_bytes (MsgGroupID msg)) ++
  padded 36 (id_bytes (MsgScopeID msg)) ++
  padded 4 (be_encode 4 (wrapU 32 (Z.of_nat (length (Payload msg))))).

Lemma length_header_of msg : length (header_of msg) = headerSize.
Proof. unfold header_of. autorewrite with zs_len. reflexivity. Qed.

Lemma frame_layout msg : createMessageFrame msg = header_of msg ++ Payload msg.
Proof.
  unfold createMessageFrame, header_of. cbv zeta.
  set (n := length (Payload msg)).
  replace (replicate (headerSize + n) x00)
    with ([] ++ replicate (36 + (1 + (1 + (8 + (8 + (36 + (36 + (36 + (36 + (4 + n)))))))))) x00)
    by (f_equal; f_equal; unfold headerSize; lia).
  do 10 (rewrite copy_at_zeros; [|len]).
  rewrite <- (Nat.add_0_r n) at 2.
  match goal with |- copy_at ?b ?k ?h _ = _ =>
    replace h with (k + n)%nat by len end.
  rewrite copy_at_zeros; [|len]. simpl replicate. rewrite app_nil_r, !app_nil_l, <- !app_assoc.
  repeat f_equal. unfold padded. rewrite take_ge by lia.
  replace (n - length (Payload msg))%nat with 0%nat by lia. apply app_nil_r.
Qed.

Lemma findNull_padded n l :
  x00 ∉ l -> (length l <= n)%nat ->
  take (findNullTerminator (padded n l)) (padded n l) = l.
Proof.
  intros H0 Hn. unfold padded. rewrite (take_ge l) by lia.
  generalize (n - length l)%nat. clear Hn. intros k. induction l as [|b l IH]; simpl.
  - destruct k; done.
  - rewrite not_elem_of_cons in H0. destruct H0 as [H1 H2].
    rewrite decide_False by done. simpl. f_equal. auto.
Qed.

(** An identifier the frame can carry: at most 36 bytes, none of them NUL. *)
Definition wf_id (s : string) : Prop := (x00 ∉ id_bytes s) /\ (length (id_bytes s) <= 36)%nat.

Lemma parse_id_padded s : wf_id s ->
  string_of_list_byte (take (findNullTerminator (padded 36 (id_bytes s))) (padded 36 (id_bytes s))) = s.
Proof.
  intros [H0 Hn]. rewrite findNull_padded by done.
  apply string_of_list_byte_of_string.
Qed.

Lemma padded_exact n l : length l = n -> padded n l = l.
Proof. intros <-. unfold padded. rewrite take_ge, Nat.sub_diag by done. apply app_nil_r. Qed.

(** The messages the wire format can represent. *)
Record wf_msg (msg : Message) : Prop := mk_wf_msg {
  wf_ID : wf_id (ID msg);
  wf_Source : wf_id (SourceClientID msg);
  wf_Target : wf_id (TargetClientID msg);
  wf_Group : wf_id (MsgGroupID msg);
  wf_Scope : wf_id (MsgScopeID msg);
  wf_Type : in_u 8 (Type_ msg);
  wf_Priority : in_u 8 (Priority msg);
  wf_Timestamp : in_s 64 (Timestamp msg);
  wf_TTL : in_s 64 (TTL msg);
  wf_Payload : Z.of_nat (length (Payload msg)) < 2 ^ 32
}.

(** Reading a field of a frame. *)
Ltac read_field :=
  repeat (rewrite slice_skip by len); rewrite slice_here by len.

Lemma be_decode_1 z : in_u 8 z -> be_decode (padded 1 [byte_of_Z z]) = z.
Proof.
  intros Hz. rewrite padded_exact by done. rewrite be_decode_cons.
  unfold be_decode. simpl. rewrite byte_to_of_Z, Z.mod_small by exact Hz. lia.
Qed.

Lemma be_decode_padded n w z : w = 8 * Z.of_nat n ->
  be_decode (padded n (be_encode n (wrapU w z))) = wrapU w z.
Proof.
  intros ->. rewrite padded_exact by apply length_be_encode.
  rewrite be_decode_encode, wrapU_wrapU by lia. done.
Qed.

Lemma length_createMessageFrame msg :
  length (createMessageFrame msg) = (headerSize + length (Payload msg))%nat.
Proof. rewrite frame_layout, length_app, length_header_of. done. Qed.

(** What [parseMessageFrame] leaves of a message: the fields of the pool object
    it is written into and a payload of exactly its length. *)
Definition received (m0 msg : Message) : Message :=
  mkMessage (ID msg) (Type_ msg) (Priority msg) (Payload msg)
    (Z.of_nat (length (Payload msg))) (Timestamp msg) (TTL msg) (SourceClientID msg)
    (TargetClientID msg) (MsgGroupID msg) (MsgScopeID msg) (pooled m0) (refCount m0).

Lemma parse_frame_long m0 msg :
  wf_msg msg -> (32 <= length (Payload msg))%nat ->
  parseMessageFrame m0 (createMessageFrame msg) = Ok (received m0 msg).
Proof.
  intros [] Hlen. unfold parseMessageFrame.
  rewrite length_createMessageFrame. unfold headerSize.
  rewrite (proj2 (Z.ltb_ge _ _)) by lia.
  unfold parse_id. rewrite frame_layout. unfold header_of. rewrite <- !app_assoc.
  cbv zeta. simpl Nat.add.
  repeat read_field.
  rewrite !parse_id_padded, !be_decode_1, !be_decode_padded by done.
  rewrite !wrapS_wrapU by done. rewrite wrapU_id by (unfold in_u; lia).
  rewrite (proj2 (Z.eqb_eq _ _)) by lia. simpl negb. cbv iota.
  repeat (rewrite drop_skip by len).
  autorewrite with zs_len. done.
Qed.

Lemma parse_frame_short m0 msg :
  (length (Payload msg) < 32)%nat ->
  parseMessageFrame m0 (createMessageFrame msg) = Err (Sentinel ErrInvalidMessage).
Proof.
  intros Hlen. unfold parseMessageFrame. rewrite length_createMessageFrame.
  unfold headerSize. rewrite (proj2 (Z.ltb_lt _ _)) by lia. done.
Qed.

(** C5: A frame carries a message whole: a well-formed message whose payload has
    at least 32 bytes is read back by [parseMessageFrame] with every field
    (identifiers, type, priority, timestamp, TTL, route and payload) equal. *)
Theorem frame_roundtrip m0 msg :
  wf_msg msg -> (32 <= length (Payload msg))%nat ->
  parseMessageFrame m0 (createMessageFrame msg) = Ok (received m0 msg).
Proof. apply parse_frame_long. Qed.

Definition sample_msg (payload : list byte) : Message :=
  mkMessage "5f0c" MessageTypeControl PriorityHigh payload 0 1700000000000000000 (-1)
    "alice" "bob" "g" "" false 1.

Lemma sample_msg_wf payload :
  Z.of_nat (length payload) < 2 ^ 32 -> wf_msg (sample_msg payload).
Proof.
  intros Hp.
  assert (Hid : forall s, bool_decide (wf_id s) = true -> wf_id s) by
    (intros s Hs; by apply bool_decide_eq_true in Hs).
  split; try (apply Hid; vm_compute; reflexivity); simpl; try done.
Qed.

Lemma frame_roundtrip_witness :
  parseMessageFrame Pool.blank (createMessageFrame (sample_msg (replicate 40 x41))) =
  Ok (received Pool.blank (sample_msg (replicate 40 x41))).
Proof. apply frame_roundtrip; [apply sample_msg_wf; reflexivity|]. simpl. lia. Defined.

(** The receiver refuses every message whose payload is shorter than 32
    bytes, although the sender's frame for it is complete: the minimum length
    tested is 234 while the header the two functions share has 202 bytes. *)
Theorem short_payload_rejected m0 msg :
  (length (Payload msg) < 32)%nat ->
  parseMessageFrame m0 (createMessageFrame msg) = Err (Sentinel ErrInvalidMessage) /\
  (Z.of_nat (length (createMessageFrame msg)) = 202 + Z.of_nat (length (Payload msg))).
Proof.
  intros Hlen. split; [by apply parse_frame_short|].
  rewrite length_createMessageFrame. unfold headerSize. lia.
Qed.

Lemma short_payload_rejected_witness :
  parseMessageFrame Pool.blank (createMessageFrame (sample_msg (id_bytes "ping"))) =
  Err (Sentinel ErrInvalidMessage).
Proof. apply short_payload_rejected. simpl. lia. Defined.

(** What [parseMessageFrame] accepts is well-formed: the frame is exactly a
    202-byte header and the payload, type and priority are bytes, the times
    are 64-bit, and the payload is the end of the frame. Any other length is
    refused as an invalid message. *)
Theorem parse_frame_exact m0 frame msg :
  parseMessageFrame m0 frame = Ok msg ->
  Z.of_nat (length frame) = 202 + Z.of_nat (length (Payload msg)) /\
  Payload msg = drop 202 frame /\ in_u 8 (Type_ msg) /\ in_u 8 (Priority msg) /\
  in_s 64 (Timestamp msg) /\ in_s 64 (TTL msg) /\ 32 <= Z.of_nat (length (Payload msg)) /\
  PayloadCap msg = Z.of_nat (length (Payload msg)).
Proof.
  unfold parseMessageFrame. destruct (Z.ltb_spec (Z.of_nat (length frame)) 234); [done|].
  cbv zeta. simpl Nat.add. case_match eqn:E; [done|]. intros Heq.
  apply negb_false_iff, Z.eqb_eq in E. simplify_eq/=.
  rewrite length_drop. repeat split; try lia;
    try (apply be_decode_range); try (by apply wrapS_range);
    (eapply Z.lt_le_trans; [apply be_decode_range|]; rewrite length_slice by lia; simpl; lia).
Qed.

Lemma parse_frame_exact_witness :
  let f := createMessageFrame (sample_msg (replicate 40 x41)) in
  Z.of_nat (length f) = 202 + 40.
Proof.
  intros f. destruct (parse_frame_exact Pool.blank f (received Pool.blank (sample_msg (replicate 40 x41)))) as [H _].
  - vm_compute. reflexivity.
  - rewrite H. reflexivity.
Defined.
