(* ===== verification/Streams.v ===== *)
(** * Streams of messages ([internal/core/protocol/stream.go],
    [internal/core/protocol/quic/stream.go])

    The state a stream keeps ([BaseStream] and the closed flag of the QUIC
    stream), reading, writing and closing, and the framed sending and
    receiving of messages. The transport underneath ([*quic.Stream]) is an
    interface, [RawStream]; what a reliable ordered transport promises is the
    class [ReliableStream]. *)
From S2P Require Import Prelude Errors Messages Frames.
From Stdlib Require Import ZArith Lia Strings.String Strings.Byte.
From stdpp Require Import base list strings gmap.
Open Scope Z_scope.

Definition EOF_ : error := External "EOF".
Definition ErrUnexpectedEOF : error := External "unexpected EOF".

Inductive StreamState : Type :=
  | StreamStateOpen
  | StreamStateHalfClosed
  | StreamStateClosed
  | StreamStateError.
#[export] Instance StreamState_eq_dec : EqDecision StreamState.
Proof. solve_decision. Defined.

(** [err == io.EOF] *)
Definition is_EOF (e : error) : bool :=
  match e with External n => bool_decide (n = "EOF"%string) | _ => false end.

(** The operations of [*quic.Stream] the code uses; [io.ReadFull] over its
    [Read] is [raw_read_full]. A write gives the bytes taken and the error. *)
Class RawStream (Raw : Type) : Type := {
  raw_write : Raw -> list byte -> Raw * nat * option error;
  raw_read : Raw -> nat -> Raw * list byte * option error;
  raw_read_full : Raw -> nat -> Raw * list byte * option error;
  raw_close : Raw -> Raw * option error
}.

(** A transport that delivers bytes whole and in order: [pending] are the bytes
    that will arrive before the end of the stream, [sent] those written. *)
Class ReliableStream (Raw : Type) `{RawStream Raw} : Type := {
  pending : Raw -> list byte;
  sent : Raw -> list byte;
  reliable_write r p :
    exists r', raw_write r p = (r', length p, None) /\ sent r' = sent r ++ p /\ pending r' = pending r;
  reliable_read_full r n : (n <= length (pending r))%nat ->
    exists r', raw_read_full r n = (r', take n (pending r), None) /\
               pending r' = drop n (pending r) /\ sent r' = sent r;
  reliable_read_eof r n : (0 < n)%nat -> pending r = [] ->
    exists r', raw_read_full r n = (r', [], Some EOF_) /\ pending r' = [] /\ sent r' = sent r;
  reliable_read_short r n : (0 < length (pending r) < n)%nat ->
    exists r', raw_read_full r n = (r', pending r, Some ErrUnexpectedEOF) /\
               pending r' = [] /\ sent r' = sent r
}.

(** An in-memory pipe: bytes to read, bytes written. *)
Record Pipe : Type := mkPipe { pipe_in : list byte; pipe_out : list byte }.

#[export] Instance pipe_raw : RawStream Pipe := {
  raw_write r p := (mkPipe (pipe_in r) (pipe_out r ++ p), length p, None);
  raw_read r n := (mkPipe (drop n (pipe_in r)) (pipe_out r), take n (pipe_in r),
                   if decide (pipe_in r = []) then Some EOF_ else None);
  raw_read_full r n :=
    (mkPipe (drop n (pipe_in r)) (pipe_out r), take n (pipe_in r),
     if decide (n <= length (pipe_in r))%nat then None
     else if decide (pipe_in r = []) then Some EOF_ else Some ErrUnexpectedEOF);
  raw_close r := (r, None)
}.

#[export] Program Instance pipe_reliable : ReliableStream Pipe :=
  {| pending := pipe_in; sent := pipe_out |}.
Next Obligation. intros r p. eexists. done. Qed.
Next Obligation.
  intros r n Hn. eexists. cbn [raw_read_full pipe_raw]. rewrite decide_True by done. done.
Qed.
Next Obligation.
  intros r n Hn Hr. eexists. cbn [raw_read_full pipe_raw]. rewrite Hr.
  rewrite decide_False by (simpl; lia). rewrite take_nil, drop_nil. done.
Qed.
Next Obligation.
  intros r n Hn. eexists. cbn [raw_read_full pipe_raw]. rewrite decide_False by lia.
  rewrite decide_False by (intros E; rewrite E in Hn; simpl in Hn; lia).
  rewrite take_ge, drop_ge by lia. done.
Qed.

Section Streams.
Context {Raw : Type} {RS : RawStream Raw}.

Record Stream : Type := mkStream {
  stream_id : StreamID;
  state : StreamState;
  closed : bool;           (* the QUIC stream's atomic flag *)
  done_closed : bool;      (* the [done] channel is closed *)
  lastActivity : Z;
  bytesSent : Z;
  bytesReceived : Z;
  MaxMessageSize : Z;
  raw : Raw
}.

(** [NewBaseStream] and [NewQUICStream]. *)
Definition NewQUICStream (id : StreamID) (now maxMessageSize : Z) (r : Raw) : Stream :=
  mkStream id StreamStateOpen false false now 0 0 maxMessageSize r.

Definition SetState (st : StreamState) (s : Stream) : Stream :=
  mkStream (stream_id s) st (closed s) (done_closed s) (lastActivity s) (bytesSent s)
    (bytesReceived s) (MaxMessageSize s) (raw s).
Definition SetRaw (r : Raw) (s : Stream) : Stream :=
  mkStream (stream_id s) (state s) (closed s) (done_closed s) (lastActivity s) (bytesSent s)
    (bytesReceived s) (MaxMessageSize s) r.

(** [UpdateActivity] and the counters: 64-bit, wrapping. *)
Definition UpdateActivity (now : Z) (s : Stream) : Stream :=
  mkStream (stream_id s) (state s) (closed s) (done_closed s) now (bytesSent s)
    (bytesReceived s) (MaxMessageSize s) (raw s).
Definition AddBytesSent (now bytes : Z) (s : Stream) : Stream :=
  UpdateActivity now
    (mkStream (stream_id s) (state s) (closed s) (done_closed s) (lastActivity s)
       (wrapU 64 (bytesSent s + bytes)) (bytesReceived s) (MaxMessageSize s) (raw s)).
Definition AddBytesReceived (now bytes : Z) (s : Stream) : Stream :=
  UpdateActivity now
    (mkStream (stream_id s) (state s) (closed s) (done_closed s) (lastActivity s)
       (bytesSent s) (wrapU 64 (bytesReceived s + bytes)) (MaxMessageSize s) (raw s)).

(** [MarkClosed]: the channel is closed at most once. *)
Definition MarkClosed (s : Stream) : Stream :=
  mkStream (stream_id s) StreamStateClosed (closed s) true (lastActivity s) (bytesSent s)
    (bytesReceived s) (MaxMessageSize s) (raw s).

(** [Read] with a buffer of [n] bytes. *)
Definition Read (now : Z) (n : nat) (s : Stream) : Stream * list byte * option error :=
  if closed s then (s, [], Some (Sentinel ErrStreamClosed))
  else
    let '(r, got, err) := raw_read (raw s) n in
    let s := SetRaw r s in
    let s := if decide (0 < length got)%nat
             then AddBytesReceived now (Z.of_nat (length got)) (UpdateActivity now s) else s in
    let s := match err with
             | Some e => if is_EOF e then SetState StreamStateHalfClosed s else s
             | None => s
             end in
    (s, got, err).

Definition Write (now : Z) (p : list byte) (s : Stream) : Stream * nat * option error :=
  if closed s then (s, 0%nat, Some (Sentinel ErrStreamClosed))
  else
    let '(r, n, err) := raw_write (raw s) p in
    let s := SetRaw r s in
    let s := if decide (0 < n)%nat
             then AddBytesSent now (Z.of_nat n) (UpdateActivity now s) else s in
    (s, n, err).

(** [SendMessage]: an 8-byte length, then the frame. *)
Definition SendMessage (now : Z) (msg : Message) (s : Stream) : Stream * option error :=
  if closed s then (s, Some (Sentinel ErrStreamClosed))
  else
    let frame := createMessageFrame msg in
    let header := be_encode 8 (wrapU 64 (Z.of_nat (length frame))) in
    match Write now header s with
    | (s, _, Some err) => (s, Some (WrapError now err "failed to write message header"))
    | (s, _, None) =>
        match Write now frame s with
        | (s, _, Some err) => (s, Some (WrapError now err "failed to write message data"))
        | (s, _, None) => (s, None)
        end
    end.

(** [ReceiveMessage]; [m0] is the pool object the message is written into. *)
Definition ReceiveMessage (now : Z) (m0 : Message) (s : Stream) : Stream * result error Message :=
  if closed s then (s, Err (Sentinel ErrStreamClosed))
  else
    match raw_read_full (raw s) 8 with
    | (r, _, Some err) =>
        (SetRaw r s,
         if is_EOF err then Err EOF_
         else Err (WrapError now err "failed to read message header"))
    | (r, header, None) =>
        let s := SetRaw r s in
        let frameLength := be_decode header in
        if wrapU 64 (MaxMessageSize s) <? frameLength then (s, Err (Sentinel ErrMessageTooLarge))
        else
          match raw_read_full (raw s) (Z.to_nat frameLength) with
          | (r, _, Some err) => (SetRaw r s, Err (WrapError now err "failed to read message data"))
          | (r, frameData, None) =>
              let s := SetRaw r s in
              match parseMessageFrame m0 frameData with
              | Err err => (s, Err (WrapError now err "failed to parse message frame"))
              | Ok msg => (s, Ok msg)
              end
          end
    end.

(** [Close]: only the first call acts. *)
Definition Close (s : Stream) : Stream * option error :=
  if closed s then (s, None)
  else
    let s := mkStream (stream_id s) (state s) true (done_closed s) (lastActivity s)
               (bytesSent s) (bytesReceived s) (MaxMessageSize s) (raw s) in
    let s := MarkClosed (SetState StreamStateClosed s) in
    let '(r, err) := raw_close (raw s) in
    (SetRaw r s, err).

Definition CloseWrite (s : Stream) : Stream * option error :=
  if closed s then (s, Some (Sentinel ErrStreamClosed))
  else
    let '(r, err) := raw_close (raw s) in
    (SetRaw r (SetState StreamStateHalfClosed s), err).

Definition CloseRead (s : Stream) : Stream * option error :=
  if closed s then (s, Some (Sentinel ErrStreamClosed))
  else (SetState StreamStateHalfClosed s, None).
End Streams.
Arguments Stream : clear implicits.

(** The counters and flags as functions of the operations. *)
Section Facts.
Context {Raw : Type} {RS : RawStream Raw}.
Implicit Types s : Stream Raw.

(** Operations in sequence. *)
Fixpoint send_all (now : Z) (msgs : list Message) (s : Stream Raw) : Stream Raw * option error :=
  match msgs with
  | [] => (s, None)
  | m :: ms => match SendMessage now m s with
               | (s, None) => send_all now ms s
               | (s, Some e) => (s, Some e)
               end
  end.

(** Receives until the first error, at most [fuel] messages. *)
Fixpoint receive_all (fuel : nat) (now : Z) (m0 : Message) (s : Stream Raw)
    : Stream Raw * list Message * option error :=
  match fuel with
  | O => (s, [], None)
  | S fuel =>
      match ReceiveMessage now m0 s with
      | (s, Err e) => (s, [], Some e)
      | (s, Ok m) =>
          let '(s, ms, e) := receive_all fuel now m0 s in (s, m :: ms, e)
      end
  end.

(** The bytes of a message on the stream. *)
Definition wire (msg : Message) : list byte :=
  be_encode 8 (wrapU 64 (Z.of_nat (length (createMessageFrame msg)))) ++ createMessageFrame msg.

Context {RelS : ReliableStream Raw}.

Lemma Write_ok now p s : closed s = false ->
  exists s', Write now p s = (s', length p, None) /\ sent (raw s') = sent (raw s) ++ p /\
    closed s' = false /\ bytesReceived s' = bytesReceived s /\
    (bytesSent s = wrapU 64 (bytesSent s) ->
     bytesSent s' = wrapU 64 (bytesSent s + Z.of_nat (length p))).
Proof.
  intros Hc. unfold Write. rewrite Hc.
  destruct (reliable_write (raw s) p) as (r' & -> & Hs & _).
  eexists. split; [done|]. case_decide as Hp; simpl; repeat split; try done.
  intros Hw. replace (length p) with 0%nat by lia. by rewrite Z.add_0_r.
Qed.

Lemma SendMessage_ok now msg s : closed s = false ->
  exists s', SendMessage now msg s = (s', None) /\
    sent (raw s') = sent (raw s) ++ wire msg /\ closed s' = false.
Proof.
  intros Hc. unfold SendMessage. rewrite Hc. cbv zeta.
  edestruct (Write_ok now) as (s1 & -> & Hs1 & Hc1 & _); [done|].
  edestruct (Write_ok now) as (s2 & -> & Hs2 & Hc2 & _); [exact Hc1|].
  exists s2. split; [done|]. split; [|done].
  rewrite Hs2, Hs1. unfold wire. by rewrite <- app_assoc.
Qed.

Lemma send_all_ok now msgs s : closed s = false ->
  exists s', send_all now msgs s = (s', None) /\
    sent (raw s') = sent (raw s) ++ concat (map wire msgs) /\ closed s' = false.
Proof.
  revert s. induction msgs as [|m ms IH]; intros s Hc; simpl.
  - exists s. by rewrite app_nil_r.
  - destruct (SendMessage_ok now m s Hc) as (s1 & -> & Hs1 & Hc1).
    destruct (IH s1 Hc1) as (s2 & -> & Hs2 & Hc2). exists s2.
    rewrite Hs2, Hs1, <- app_assoc. done.
Qed.

(** A message a receiver with this configuration can take. *)
Definition acceptable (max : Z) (msg : Message) : Prop :=
  wf_msg msg /\ (32 <= length (Payload msg))%nat /\
  Z.of_nat (length (createMessageFrame msg)) <= max.

Lemma ReceiveMessage_ok now m0 msg rest s :
  closed s = false -> in_u 64 (MaxMessageSize s) -> acceptable (MaxMessageSize s) msg ->
  pending (raw s) = wire msg ++ rest ->
  exists s', ReceiveMessage now m0 s = (s', Ok (received m0 msg)) /\
    pending (raw s') = rest /\ closed s' = false /\ MaxMessageSize s' = MaxMessageSize s.
Proof.
  intros Hc Hmax (Hwf & Hlen & Hsize) Hp. unfold ReceiveMessage. rewrite Hc.
  unfold wire in Hp. rewrite <- app_assoc in Hp.
  destruct (reliable_read_full (raw s) 8) as (r1 & -> & Hp1 & _).
  { rewrite Hp. len. }
  rewrite Hp in Hp1 |- *. rewrite take_app_length' by len. rewrite drop_app_length' in Hp1 by len.
  rewrite be_decode_encode. change (8 * Z.of_nat 8) with 64.
  rewrite wrapU_wrapU by lia. rewrite (wrapU_id 64 (Z.of_nat _)) by (unfold in_u in *; lia).
  cbn [MaxMessageSize SetRaw raw]. rewrite wrapU_id by done.
  rewrite (proj2 (Z.ltb_ge _ _)) by lia. rewrite Nat2Z.id.
  destruct (reliable_read_full r1 (length (createMessageFrame msg))) as (r2 & -> & Hp2 & _).
  { rewrite Hp1. len. }
  rewrite Hp1 in Hp2 |- *. rewrite take_app_length. rewrite drop_app_length in Hp2.
  rewrite parse_frame_long by done. eexists. split; [done|]. done.
Qed.

Lemma ReceiveMessage_eof now m0 s : closed s = false -> pending (raw s) = [] ->
  exists s', ReceiveMessage now m0 s = (s', Err EOF_).
Proof.
  intros Hc Hp. unfold ReceiveMessage. rewrite Hc.
  destruct (reliable_read_eof (raw s) 8) as (r1 & -> & _); [lia|done|].
  simpl. eauto.
Qed.

Lemma receive_all_wire now m0 msgs rx :
  closed rx = false -> in_u 64 (MaxMessageSize rx) ->
  Forall (acceptable (MaxMessageSize rx)) msgs ->
  pending (raw rx) = concat (map wire msgs) ->
  exists rx', receive_all (S (length msgs)) now m0 rx = (rx', map (received m0) msgs, Some EOF_).
Proof.
  revert rx. induction msgs as [|m ms IH]; intros rx Hrx Hmax Hacc Hp.
  - destruct (ReceiveMessage_eof now m0 rx Hrx Hp) as (rx' & E).
    exists rx'. cbn [length receive_all]. by rewrite E.
  - apply Forall_cons in Hacc as [Hm Hms]. cbn [map concat] in Hp.
    destruct (ReceiveMessage_ok now m0 m _ rx Hrx Hmax Hm Hp) as (r1 & E & Hp1 & Hc1 & Hmx).
    destruct (IH r1) as (rx' & IHE); [done|by rewrite Hmx|by rewrite Hmx|done|].
    exists rx'. cbn [length] in *. remember (S (length ms)) as k. cbn [receive_all].
    rewrite E, IHE. done.
Qed.

(** C1: Messages cross a reliable stream whole, in order and without loss: when
    any sequence of acceptable messages is sent and the receiving side gets
    exactly the bytes written, receiving gives these messages, in order, and
    then the end of the stream. *)
Theorem stream_pipeline now m0 msgs (tx rx : Stream Raw) :
  closed tx = false -> closed rx = false -> in_u 64 (MaxMessageSize rx) ->
  Forall (acceptable (MaxMessageSize rx)) msgs ->
  exists tx', send_all now msgs tx = (tx', None) /\
    (sent (raw tx') = sent (raw tx) ++ pending (raw rx) ->
     exists rx', receive_all (S (length msgs)) now m0 rx =
       (rx', map (received m0) msgs, Some EOF_)).
Proof.
  intros Htx Hrx Hmax Hacc.
  destruct (send_all_ok now msgs tx Htx) as (tx' & Hsend & Hsent & _).
  exists tx'. split; [done|]. rewrite Hsent. intros Hlink%app_inv_head.
  by apply receive_all_wire.
Qed.

(** A receiver never takes a frame longer than its limit: after a complete
    length header that exceeds [MaxMessageSize], [ReceiveMessage] reads none of
    the frame and reports the message as too large. *)
Theorem oversized_frame_refused now m0 n rest (s : Stream Raw) :
  closed s = false -> in_u 64 (MaxMessageSize s) -> in_u 64 n -> MaxMessageSize s < n ->
  pending (raw s) = be_encode 8 n ++ rest ->
  exists s', ReceiveMessage now m0 s = (s', Err (Sentinel ErrMessageTooLarge)) /\
    pending (raw s') = rest.
Proof.
  intros Hc Hmax Hn Hlt Hp. unfold ReceiveMessage. rewrite Hc.
  destruct (reliable_read_full (raw s) 8) as (r1 & -> & Hp1 & _).
  { rewrite Hp. len. }
  rewrite Hp in Hp1 |- *. rewrite take_app_length' by len. rewrite drop_app_length' in Hp1 by len.
  rewrite be_decode_encode. change (8 * Z.of_nat 8) with 64. rewrite (wrapU_id 64 n) by done.
  cbn [MaxMessageSize SetRaw raw]. rewrite wrapU_id by done.
  rewrite (proj2 (Z.ltb_lt _ _)) by lia. eexists. split; [done|]. done.
Qed.
End Facts.

Definition default_max : Z := 1024 * 1024.
Definition stream_on (r : Pipe) : Stream Pipe := NewQUICStream "s" 0 default_max r.
Definition two_messages : list Message :=
  [sample_msg (replicate 32 x41); sample_msg (replicate 50 x42)].

Lemma sample_acceptable payload :
  (32 <= length payload <= 1000)%nat -> acceptable default_max (sample_msg payload).
Proof.
  intros Hl. split; [apply sample_msg_wf; lia|]. split; [simpl; lia|].
  rewrite length_createMessageFrame. unfold default_max, headerSize. simpl Payload. lia.
Qed.

Lemma stream_pipeline_witness :
  exists rx', receive_all 3 5 Pool.blank (stream_on (mkPipe (concat (map wire two_messages)) []))
    = (rx', map (received Pool.blank) two_messages, Some EOF_).
Proof.
  destruct (stream_pipeline 5 Pool.blank two_messages (stream_on (mkPipe [] []))
    (stream_on (mkPipe (concat (map wire two_messages)) []))) as (tx' & E & H);
    [done|done|done| |].
  - apply Forall_forall. intros m [-> | [-> | []%not_elem_of_nil]%elem_of_cons]%elem_of_cons;
      apply sample_acceptable; simpl; lia.
  - apply H. vm_compute in E. injection E as <-. vm_compute. reflexivity.
Defined.

Lemma oversized_frame_refused_witness :
  exists s', ReceiveMessage 5 Pool.blank
    (stream_on (mkPipe (be_encode 8 2000000 ++ [x41]) [])) =
    (s', Err (Sentinel ErrMessageTooLarge)) /\ pending (raw s') = [x41].
Proof.
  apply (oversized_frame_refused 5 Pool.blank 2000000 [x41]); done.
Defined.
