(* ===== verification/Iterators.v ===== *)
(** * Push iterators ([src/pkg/sequence/functional.go])

    An [Iterator] is a function that pushes its elements to a callback, which
    answers whether it wants more. The callback works on the state of the
    program [W] and on the variables [S] it captures. *)
From S2P Require Import Prelude.
From Stdlib Require Import ZArith Lia.
From stdpp Require Import base list gmap sorting.
Open Scope Z_scope.

(** [yield func(T) bool] *)
Definition Yield (W T S : Type) : Type := T -> W -> S -> (W * S) * bool.
Definition Iterator (W T : Type) : Type := forall S : Type, Yield W T S -> W -> S -> W * S.

Section Iterators.
Context {W : Type}.

(** [From] ignores the callback's answer. *)
Fixpoint push_all {T S} (data : list T) (yield : Yield W T S) (w : W) (s : S) : W * S :=
  match data with
  | [] => (w, s)
  | v :: data' => let '((w, s), _) := yield v w s in push_all data' yield w s
  end.
Definition From_ {T} (data : list T) : Iterator W T := fun S yield w s => push_all data yield w s.

(** [FromMap]: the entries come in an unspecified order, [order]. *)
Definition FromMap {K T} `{Countable K} (data : gmap K T) (order : list K) : Iterator W T :=
  fun S yield w s => push_all (omap (fun k => data !! k) order) yield w s.

(** ** Consumers: the callback always asks for more, except where noted *)
Definition Collect {T} (i : Iterator W T) (w : W) : W * list T :=
  i (list T) (fun v w out => ((w, out ++ [v]), true)) w [].

Definition Reduce {T} (i : Iterator W T) (init : T) (reducer : T -> T -> T) (w : W) : W * T :=
  i T (fun v w acc => ((w, reducer acc v), true)) w init.

(** [Find] answers false at a match. *)
Definition Find {T} (zero : T) (i : Iterator W T) (pred : T -> bool) (w : W) : W * (T * bool) :=
  i (T * bool)%type (fun v w '(z, found) =>
    if pred v then ((w, (v, true)), false) else ((w, (z, found)), true)) w (zero, false).

Definition Any {T} (i : Iterator W T) (pred : T -> bool) (w : W) : W * bool :=
  i bool (fun v w found => if pred v then ((w, true), false) else ((w, found), true)) w false.

Definition All {T} (i : Iterator W T) (pred : T -> bool) (w : W) : W * bool :=
  i bool (fun v w all => if negb (pred v) then ((w, false), false) else ((w, all), true)) w true.

Definition Partition {T} (i : Iterator W T) (pred : T -> bool) (w : W) : W * (list T * list T) :=
  i (list T * list T)%type (fun v w '(matches, rest) =>
    ((w, if pred v then (matches ++ [v], rest) else (matches, rest ++ [v])), true)) w ([], []).

Definition First {T} (zero : T) (i : Iterator W T) (w : W) : W * (T * bool) :=
  i (T * bool)%type (fun v w _ => ((w, (v, true)), false)) w (zero, false).

Definition Last {T} (zero : T) (i : Iterator W T) (w : W) : W * (T * bool) :=
  i (T * bool)%type (fun v w _ => ((w, (v, true)), true)) w (zero, false).

Definition Count {T} (i : Iterator W T) (w : W) : W * Z :=
  i Z (fun _ w count => ((w, wrapS 64 (count + 1)), true)) w 0.

Definition GroupBy {T K} `{Countable K} (i : Iterator W T) (keyFn : T -> K) (w : W) : W * gmap K (list T) :=
  i (gmap K (list T)) (fun v w groups =>
    ((w, <[keyFn v := default [] (groups !! keyFn v) ++ [v]]> groups), true)) w ∅.

Definition ToMap {T K V} `{Countable K} (i : Iterator W T) (keyFn : T -> K) (valFn : T -> V)
    (w : W) : W * gmap K V :=
  i (gmap K V) (fun v w m => ((w, <[keyFn v := valFn v]> m), true)) w ∅.

Definition ToSet {T} `{Countable T} (i : Iterator W T) (w : W) : W * gset T :=
  i (gset T) (fun v w set => ((w, {[v]} ∪ set), true)) w ∅.

Definition ToArray {T R} (i : Iterator W T) (callback : T -> R) (w : W) : W * list R :=
  i (list R) (fun v w arr => ((w, arr ++ [callback v]), true)) w [].

(** ** Transformers: nothing runs before the result is consumed *)

(** [Each] runs the action on every element when it is consumed, and never
    calls the consumer's callback. *)
Definition Each {T} (i : Iterator W T) (action : T -> W -> W) : Iterator W T :=
  fun S yield w s =>
    let '(w, _) := i unit (fun v w u => ((action v w, u), true)) w tt in (w, s).

Definition Filter {T} (i : Iterator W T) (pred : T -> bool) : Iterator W T :=
  fun S yield w s =>
    i S (fun v w s => if pred v then yield v w s else ((w, s), true)) w s.

Definition Take {T} (i : Iterator W T) (n : Z) : Iterator W T :=
  fun S yield w s =>
    let '(w, (_, s)) :=
      i (Z * S)%type (fun v w '(count, s) =>
        if count <? n then
          let count := count + 1 in
          let '((w, s), more) := yield v w s in ((w, (count, s)), more)
        else ((w, (count, s)), false)) w (0, s) in
    (w, s).

Definition Drop {T} (i : Iterator W T) (n : Z) : Iterator W T :=
  fun S yield w s =>
    let '(w, (_, s)) :=
      i (Z * S)%type (fun v w '(count, s) =>
        if count <? n then ((w, (count + 1, s)), true)
        else let '((w, s), more) := yield v w s in ((w, (count, s)), more)) w (0, s) in
    (w, s).

Definition Distinct {T} `{Countable T} (i : Iterator W T) : Iterator W T :=
  fun S yield w s =>
    let '(w, (_, s)) :=
      i (gset T * S)%type (fun v w '(seen, s) =>
        if decide (v ∈ seen) then ((w, (seen, s)), true)
        else
          let seen := {[v]} ∪ seen in
          let '((w, s), more) := yield v w s in ((w, (seen, s)), more)) w (∅, s) in
    (w, s).

(** The inner loop of [Flatten] stops when the callback refuses. *)
Fixpoint push_until {T S} (data : list T) (yield : Yield W T S) (w : W) (s : S) : (W * S) * bool :=
  match data with
  | [] => ((w, s), true)
  | v :: data' =>
      let '((w, s), more) := yield v w s in
      if negb more then ((w, s), false) else push_until data' yield w s
  end.
Definition Flatten {T} (it : Iterator W (list T)) : Iterator W T :=
  fun S yield w s => it S (fun slice w s => push_until slice yield w s) w s.

Fixpoint Chain {T} (iters : list (Iterator W T)) : Iterator W T :=
  fun S yield w s =>
    match iters with
    | [] => (w, s)
    | it :: rest => let '(w, s) := it S (fun v w s => yield v w s) w s in Chain rest S yield w s
    end.

(** [sort.SliceStable] on a slice, as the insertion sort it runs: the next
    element moves left past those it is less than. [rp] is the sorted prefix,
    last element first. *)
Fixpoint insert_back {T} (less : T -> T -> bool) (x : T) (rp : list T) : list T :=
  match rp with
  | [] => [x]
  | y :: rp' => if less x y then y :: insert_back less x rp' else x :: y :: rp'
  end.
Definition SliceStable {T} (less : T -> T -> bool) (data : list T) : list T :=
  reverse (foldl (fun rp x => insert_back less x rp) [] data).

(** [Sort] collects when it is called and returns a new iterator. *)
Definition Sort {T} (i : Iterator W T) (less : T -> T -> bool) (w : W) : W * Iterator W T :=
  let '(w, data) := Collect i w in (w, From_ (SliceStable less data)).

(** The swapping loop of [Reverse]; [fuel] bounds the iterations. *)
Fixpoint reverse_loop {T} (fuel l r : nat) (data : list T) : list T :=
  match fuel with
  | O => data
  | S fuel =>
      if decide (l < r)%nat then
        match data !! l, data !! r with
        | Some x, Some y => reverse_loop fuel (l + 1) (r - 1) (<[r := x]> (<[l := y]> data))
        | _, _ => data
        end
      else data
  end.
Definition Reverse {T} (i : Iterator W T) (w : W) : W * Iterator W T :=
  let '(w, data) := Collect i w in
  (w, From_ (reverse_loop (length data) 0 (length data - 1) data)).
End Iterators.

Definition Transform {T} (data : list T) (mutate : T -> T) : list T := map mutate data.

(** ** Iterators up to what they push *)
#[export] Instance iterator_equiv W T : Equiv (Iterator W T) :=
  fun i j => forall S (y : Yield W T S) w s, i S y w s = j S y w s.
#[export] Instance iterator_equivalence W T : Equivalence (≡@{Iterator W T}).
Proof.
  split.
  - by intros i S y w s.
  - by intros i j H S y w s.
  - intros i j k H1 H2 S y w s. by rewrite H1.
Qed.

Section Laws.
Context {W : Type}.

#[export] Instance Filter_proper T : Proper ((≡@{Iterator W T}) ==> (=) ==> (≡)) Filter.
Proof. intros i j H p ? <- S y w s. unfold Filter. by rewrite H. Qed.
#[export] Instance Take_proper T : Proper ((≡@{Iterator W T}) ==> (=) ==> (≡)) Take.
Proof. intros i j H p ? <- S y w s. unfold Take. by rewrite H. Qed.
#[export] Instance Drop_proper T : Proper ((≡@{Iterator W T}) ==> (=) ==> (≡)) Drop.
Proof. intros i j H p ? <- S y w s. unfold Drop. by rewrite H. Qed.
#[export] Instance Distinct_proper T `{Countable T} :
  Proper ((≡@{Iterator W T}) ==> (≡)) Distinct.
Proof. intros i j E S y w s. unfold Distinct. by rewrite E. Qed.
#[export] Instance Collect_proper T : Proper ((≡@{Iterator W T}) ==> (=) ==> (=)) Collect.
Proof. intros i j E w ? <-. unfold Collect. by rewrite E. Qed.

(** Distinct elements, first occurrences kept. *)
Fixpoint distinct {T} `{Countable T} (seen : gset T) (l : list T) : list T :=
  match l with
  | [] => []
  | x :: l => if decide (x ∈ seen) then distinct seen l else x :: distinct ({[x]} ∪ seen) l
  end.

Lemma Filter_From T p (l : list T) : Filter (W:=W) (From_ l) p ≡ From_ (List.filter p l).
Proof.
  intros S y w s. unfold Filter, From_. revert w s.
  induction l as [|x l IH]; intros w s; simpl; [done|].
  destruct (p x); simpl; [destruct (y x w s) as [[w' s'] b]|]; apply IH.
Qed.

Lemma Take_From T n (l : list T) : Take (W:=W) (From_ l) n ≡ From_ (take (Z.to_nat n) l).
Proof.
  intros S y w s. unfold Take, From_.
  cut (forall c w s, 0 <= c ->
    (let '(w, (_, s)) := push_all l (fun v w '(count, s) =>
        if count <? n then
          let count := count + 1 in
          let '((w, s), more) := y v w s in ((w, (count, s)), more)
        else ((w, (count, s)), false)) w (c, s) in (w, s)) =
    push_all (take (Z.to_nat (n - c)) l) y w s).
  { intros H. rewrite H by lia. by rewrite Z.sub_0_r. }
  induction l as [|x l IH]; intros c w0 s0 Hc; simpl; [by rewrite take_nil|].
  destruct (Z.ltb_spec c n).
  - replace (Z.to_nat (n - c)) with (Datatypes.S (Z.to_nat (n - (c + 1)))) by lia. simpl.
    destruct (y x w0 s0) as [[w1 s1] b]. apply IH. lia.
  - rewrite IH by lia. replace (Z.to_nat (n - c)) with 0%nat by lia. done.
Qed.

Lemma Drop_From T n (l : list T) : Drop (W:=W) (From_ l) n ≡ From_ (drop (Z.to_nat n) l).
Proof.
  intros S y w s. unfold Drop, From_.
  cut (forall c w s, 0 <= c ->
    (let '(w, (_, s)) := push_all l (fun v w '(count, s) =>
        if count <? n then ((w, (count + 1, s)), true)
        else let '((w, s), more) := y v w s in ((w, (count, s)), more)) w (c, s) in (w, s)) =
    push_all (drop (Z.to_nat (n - c)) l) y w s).
  { intros H. rewrite H by lia. by rewrite Z.sub_0_r. }
  induction l as [|x l IH]; intros c w0 s0 Hc; simpl; [by rewrite drop_nil|].
  destruct (Z.ltb_spec c n).
  - rewrite IH by lia. replace (Z.to_nat (n - c)) with (Datatypes.S (Z.to_nat (n - (c + 1)))) by lia.
    done.
  - replace (Z.to_nat (n - c)) with 0%nat by lia. simpl.
    destruct (y x w0 s0) as [[w1 s1] b]. rewrite IH by lia.
    replace (Z.to_nat (n - c)) with 0%nat by lia. by rewrite drop_0.
Qed.

Lemma Distinct_From T `{Countable T} (l : list T) :
  Distinct (W:=W) (From_ l) ≡ From_ (distinct ∅ l).
Proof.
  intros S y w s. unfold Distinct, From_. generalize (∅ : gset T). revert w s.
  induction l as [|x l IH]; intros w s seen; simpl; [done|].
  case_decide; simpl; [apply IH|]. destruct (y x w s) as [[w1 s1] b]. apply IH.
Qed.

Lemma push_all_app {T S} (l1 l2 : list T) (y : Yield W T S) w s :
  push_all (l1 ++ l2) y w s = let '(w, s) := push_all l1 y w s in push_all l2 y w s.
Proof.
  revert w s. induction l1 as [|x l1 IH]; intros w s; simpl; [done|].
  destruct (y x w s) as [[w1 s1] b]. apply IH.
Qed.

Lemma push_all_ext {T S} (l : list T) (y y' : Yield W T S) w s :
  (forall v w s, y v w s = y' v w s) -> push_all l y w s = push_all l y' w s.
Proof.
  intros E. revert w s. induction l as [|x l IH]; intros w s; simpl; [done|].
  rewrite E. destruct (y' x w s) as [[w1 s1] b]. apply IH.
Qed.

Lemma Chain_From T (ls : list (list T)) : Chain (W:=W) (map From_ ls) ≡ From_ (concat ls).
Proof.
  intros S y w s. revert w s. induction ls as [|l ls IH]; intros w s; simpl; [done|].
  unfold From_ at 1. rewrite (push_all_ext l _ y) by done.
  unfold From_. rewrite push_all_app. destruct (push_all l y w s) as [w1 s1]. apply IH.
Qed.

(** The consumers on a slice. *)
Lemma push_all_pure {T A} (l : list T) (f : A -> T -> A) (b : T -> A -> bool) (w : W) (a : A) :
  push_all l (fun v w a => ((w, f a v), b v a)) w a = (w, foldl f a l).
Proof. revert a. induction l as [|x l IH]; intros a; simpl; [done|]. apply IH. Qed.

Lemma Collect_From T (l : list T) (w : W) : Collect (From_ l) w = (w, l).
Proof.
  unfold Collect, From_. rewrite (push_all_pure l (fun out v => out ++ [v]) (fun _ _ => true)).
  by rewrite foldl_append.
Qed.

Lemma Flatten_Collect T (ls : list (list T)) (w : W) :
  Collect (Flatten (From_ ls)) w = (w, concat ls).
Proof.
  unfold Collect, Flatten, From_.
  assert (Hu : forall (l out : list T) (w : W), push_until l
    (fun v w out => ((w, out ++ [v]), true)) w out = ((w, out ++ l), true)).
  { induction l as [|x l IH]; intros out w0; simpl; [by rewrite app_nil_r|].
    rewrite IH, <- app_assoc. done. }
  cut (forall out : list T, push_all ls (fun slice w s => push_until slice
    (fun v w out => ((w, out ++ [v]), true)) w s) w out = (w, out ++ concat ls)); [auto|].
  induction ls as [|l ls IH]; intros out; simpl; [by rewrite app_nil_r|].
  rewrite Hu, IH, <- app_assoc. done.
Qed.

(** C40: Pipelines compute what their names say when they are collected: on
    slices, [Filter], [Take], [Drop], [Distinct] and [Chain] push exactly the
    elements of the corresponding list operation, in order, whatever the
    consumer is, and [Collect] returns them; [Flatten] collects to the
    concatenation. The laws hold up to [≡], so they rewrite inside pipelines. *)
Theorem combinators_denote {T} `{Countable T} (l : list T) (ls : list (list T)) p n (w : W) :
  Filter (W:=W) (From_ l) p ≡ From_ (List.filter p l) /\
  Take (W:=W) (From_ l) n ≡ From_ (take (Z.to_nat n) l) /\
  Drop (W:=W) (From_ l) n ≡ From_ (drop (Z.to_nat n) l) /\
  Distinct (W:=W) (From_ l) ≡ From_ (distinct ∅ l) /\
  Chain (W:=W) (map From_ ls) ≡ From_ (concat ls) /\
  Collect (Flatten (From_ ls)) w = (w, concat ls) /\
  Collect (Take (Filter (From_ l) p) n) w = (w, take (Z.to_nat n) (List.filter p l)).
Proof.
  repeat split; [apply Filter_From|apply Take_From|apply Drop_From|apply Distinct_From
    |apply Chain_From|apply Flatten_Collect|].
  rewrite Filter_From, Take_From. apply Collect_From.
Qed.

Lemma distinct_spec {T} `{Countable T} (l : list T) seen :
  NoDup (distinct seen l) /\ forall x, x ∈ distinct seen l <-> x ∈ l /\ x ∉ seen.
Proof.
  revert seen. induction l as [|a l IH]; intros seen; simpl.
  - split; [apply NoDup_nil_2|]. set_solver.
  - case_decide as Ha; [destruct (IH seen) as [H1 H2]; set_solver|].
    destruct (IH ({[a]} ∪ seen)) as [H1 H2]. split.
    + apply NoDup_cons. split; [rewrite H2; set_solver|done].
    + intros x. rewrite elem_of_cons, H2. destruct (decide (x = a)); set_solver.
Qed.

(** [First] and [Find] report the LAST element (the last match): [From] does
    not stop when the callback answers false, so each later element overwrites
    the one found. [Any] and [All] are right nevertheless. *)
Theorem First_returns_last {T} (z : T) (l : list T) p (w : W) :
  First z (From_ l) w = (w, match last l with Some v => (v, true) | None => (z, false) end) /\
  Find z (From_ l) p w =
    (w, match last (List.filter p l) with Some v => (v, true) | None => (z, false) end) /\
  Any (From_ l) p w = (w, existsb p l) /\ All (From_ l) p w = (w, forallb p l).
Proof.
  assert (HF : forall l' (a : T * bool), foldl (fun _ v => (v, true)) a l' =
    match last l' with Some v => (v, true) | None => a end).
  { induction l' as [|x l' IH]; intros a; simpl; [done|]. rewrite IH.
    change (x :: l') with ([x] ++ l'). rewrite last_app. by destruct (last l'). }
  repeat split.
  - unfold First, From_. rewrite (push_all_pure l (fun _ v => (v, true)) (fun _ _ => false)).
    by rewrite HF.
  - unfold Find, From_. rewrite <- HF. generalize (z, false).
    induction l as [|x l IH]; intros [a b]; simpl; [done|].
    destruct (p x); simpl; apply IH.
  - unfold Any, From_. cut (forall b, push_all l (fun v w found =>
      if p v then ((w, true), false) else ((w, found), true)) w b = (w, b || existsb p l)); [auto|].
    induction l as [|x l IH]; intros b; simpl; [by rewrite orb_false_r|].
    destruct (p x); rewrite IH; [by rewrite orb_true_r|done].
  - unfold All, From_. cut (forall b, push_all l (fun v w all =>
      if negb (p v) then ((w, false), false) else ((w, all), true)) w b = (w, b && forallb p l)); [auto|].
    induction l as [|x l IH]; intros b; simpl; [by rewrite andb_true_r|].
    destruct (p x); simpl; rewrite IH; [done|by rewrite andb_false_r].
Qed.

(** An iterator made with [Each] does its work only when it is consumed, and
    gives its consumer nothing: making it leaves the state alone, collecting
    it applies the action to every element in order and returns no element. *)
Theorem Each_is_lazy {T} (l : list T) (action : T -> W -> W) (w : W) :
  Collect (Each (From_ l) action) w = (foldl (fun w v => action v w) w l, []) /\
  Count (Each (From_ l) action) w = (foldl (fun w v => action v w) w l, 0).
Proof.
  assert (H : forall w u, push_all l (fun v w u => ((action v w, u), true)) w u =
    (foldl (fun w v => action v w) w l, u : unit)).
  { induction l as [|x l IH]; intros w0 u; simpl; [done|]. apply IH. }
  unfold Collect, Count, Each, From_. by rewrite H.
Qed.
End Laws.

(** ** Sorting *)
Section Sorting.
Context {T : Type} (less : T -> T -> bool).

Lemma insert_back_perm x rp : insert_back less x rp ≡ₚ x :: rp.
Proof.
  induction rp as [|y rp IH]; simpl; [done|]. case_match; [|done].
  rewrite IH. apply Permutation_swap.
Qed.

Lemma SliceStable_perm l : SliceStable less l ≡ₚ l.
Proof.
  unfold SliceStable. rewrite reverse_Permutation.
  cut (forall acc, foldl (fun rp x => insert_back less x rp) acc l ≡ₚ acc ++ l); [intros ->; done|].
  induction l as [|x l IH]; intros acc; simpl; [by rewrite app_nil_r|].
  rewrite IH, insert_back_perm. by rewrite <- Permutation_middle.
Qed.

(** [less] decides a total preorder, strictly or not. *)
Context (R : T -> T -> Prop) {Htrans : Transitive R}.
Context (Hless : forall x y, less x y = true -> R x y).
Context (Hmore : forall x y, less x y = false -> R y x).

Lemma insert_back_sorted x rp :
  StronglySorted (flip R) rp -> StronglySorted (flip R) (insert_back less x rp).
Proof.
  induction 1 as [|y rp Hs IH Hy]; simpl; [repeat constructor|].
  destruct (less x y) eqn:E.
  - constructor; [done|]. rewrite insert_back_perm. constructor; [|done].
    by apply Hless.
  - apply Hmore in E. constructor; [by constructor|]. constructor; [done|].
    eapply Forall_impl; [exact Hy|]. simpl. intros z Hz. by etrans.
Qed.

Lemma foldl_insert_sorted l acc :
  StronglySorted (flip R) acc ->
  StronglySorted (flip R) (foldl (fun rp x => insert_back less x rp) acc l).
Proof. revert acc. induction l as [|x l IH]; intros acc Ha; simpl; auto using insert_back_sorted. Qed.

Lemma StronglySorted_reverse l : StronglySorted (flip R) l -> StronglySorted R (reverse l).
Proof.
  induction 1 as [|y l Hs IH Hy]; [constructor|]. rewrite reverse_cons.
  apply StronglySorted_app_2; [|done|repeat constructor].
  intros a b Ha ->%list_elem_of_singleton. rewrite elem_of_reverse in Ha.
  rewrite Forall_forall in Hy. by apply Hy.
Qed.

Lemma SliceStable_sorted l : StronglySorted R (SliceStable less l).
Proof. apply StronglySorted_reverse, foldl_insert_sorted. constructor. Qed.
End Sorting.

(** Elements that are not less than each other keep their order. *)
Lemma insert_back_stable {T} (less : T -> T -> bool) (P : T -> bool) x rp :
  (forall a b, P a = true -> P b = true -> less a b = false) ->
  List.filter P (insert_back less x rp) = List.filter P (x :: rp).
Proof.
  intros HP. induction rp as [|y rp IH]; [done|]. cbn [insert_back].
  destruct (less x y) eqn:E; [|done]. cbn [List.filter] in *. rewrite IH.
  destruct (P y) eqn:Ey, (P x) eqn:Ex; try done. rewrite HP in E; done.
Qed.

Lemma filter_reverse {T} (P : T -> bool) l : List.filter P (reverse l) = reverse (List.filter P l).
Proof.
  induction l as [|x l IH]; [done|]. rewrite reverse_cons, List.filter_app, IH. simpl.
  destruct (P x); [by rewrite reverse_cons|by rewrite app_nil_r].
Qed.

Lemma SliceStable_stable {T} (less : T -> T -> bool) (P : T -> bool) l :
  (forall a b, P a = true -> P b = true -> less a b = false) ->
  List.filter P (SliceStable less l) = List.filter P l.
Proof.
  intros HP. unfold SliceStable. rewrite filter_reverse.
  cut (forall acc, List.filter P (foldl (fun rp x => insert_back less x rp) acc l) =
    reverse (List.filter P l) ++ List.filter P acc).
  { intros ->. simpl. by rewrite app_nil_r, reverse_involutive. }
  induction l as [|x l IH]; intros acc; simpl; [done|].
  rewrite IH, insert_back_stable by done. simpl.
  destruct (P x); [|done]. by rewrite reverse_cons, <- app_assoc.
Qed.

(** [Sort] returns the elements of the iterator, sorted and in a stable
    order: for a [less] that is a strict weak order with preorder [R], what the
    new iterator pushes is a permutation of the source, sorted by [R], and
    elements not less than one another keep their order. *)
Theorem Sort_correct {W T} (i : Iterator W T) less (R : T -> T -> Prop) (w : W) :
  Transitive R -> (forall x y, less x y = true -> R x y) ->
  (forall x y, less x y = false -> R y x) ->
  let '(w1, l) := Collect i w in
  let '(w2, sorted) := Sort i less w in
  w1 = w2 /\ exists l', Collect sorted w2 = (w2, l') /\ l' ≡ₚ l /\ StronglySorted R l' /\
    forall P, (forall a b, P a = true -> P b = true -> less a b = false) ->
      List.filter P l' = List.filter P l.
Proof.
  intros Htr Hl Hm. unfold Sort. destruct (Collect i w) as [w1 l]. split; [done|].
  exists (SliceStable less l). rewrite Collect_From. split; [done|].
  split; [apply SliceStable_perm|]. split; [by apply SliceStable_sorted|].
  intros P HP. by apply SliceStable_stable.
Qed.

Lemma Sort_correct_witness :
  exists l', Collect (Sort (W:=unit) (From_ [3; 1; 2; 1]) Z.ltb tt).2 tt = (tt, l') /\
    l' ≡ₚ [3; 1; 2; 1] /\ StronglySorted Z.le l'.
Proof.
  destruct (Sort_correct (W:=unit) (From_ [3; 1; 2; 1]) Z.ltb Z.le tt) as (_ & l' & H1 & H2 & H3 & _).
  - intros x y z. lia.
  - intros x y. lia.
  - intros x y. lia.
  - exists l'. split; [exact H1|]. split; [exact H2|exact H3].
Defined.

(** The swapping loop reverses the slice. *)
Lemma reverse_loop_spec {T} fuel (pre mid post : list T) :
  (length mid <= fuel)%nat ->
  reverse_loop fuel (length pre) (length pre + length mid - 1) (pre ++ mid ++ post) =
  pre ++ reverse mid ++ post.
Proof.
  revert pre mid post. induction fuel as [|fuel IH]; intros pre mid post Hf.
  - destruct mid; [done|simpl in Hf; lia].
  - cbn [reverse_loop]. case_decide as Hlt.
    + destruct mid as [|x mid]; [simpl in *; lia|].
      destruct mid as [|y mid _] using rev_ind; [simpl in *; lia|].
      rewrite !length_cons, !length_app in *. simpl in *.
      assert (E1 : (pre ++ x :: (mid ++ [y]) ++ post) !! length pre = Some x).
      { by rewrite list_lookup_middle. }
      replace (length pre + S (length mid + 1) - 1)%nat with (length (pre ++ x :: mid)) by
        (rewrite length_app, length_cons; lia).
      assert (E2 : (pre ++ x :: (mid ++ [y]) ++ post) !! length (pre ++ x :: mid) = Some y).
      { replace (pre ++ x :: (mid ++ [y]) ++ post) with ((pre ++ x :: mid) ++ y :: post)
          by list_assoc.
        by rewrite list_lookup_middle. }
      rewrite E1, E2. clear E1 E2.
      assert (E : <[length (pre ++ x :: mid):=x]> (<[length pre:=y]> (pre ++ x :: (mid ++ [y]) ++ post))
        = (pre ++ [y]) ++ mid ++ [x] ++ post).
      { replace (<[length pre:=y]> (pre ++ x :: (mid ++ [y]) ++ post))
          with ((pre ++ y :: mid) ++ y :: post).
        - rewrite !length_app, !length_cons, <- length_cons with (x:=y), <- length_app.
          rewrite insert_app_r_alt, Nat.sub_diag by lia. list_assoc.
        - rewrite insert_app_r_alt, Nat.sub_diag by lia. list_assoc. }
      rewrite E. replace (length pre + 1)%nat with (length (pre ++ [y])) by (rewrite length_app; done).
      replace (length (pre ++ x :: mid) - 1)%nat with (length (pre ++ [y]) + length mid - 1)%nat
        by (rewrite !length_app, length_cons; simpl; lia).
      rewrite IH by lia. rewrite reverse_cons, reverse_app. simpl.
      list_assoc.
    + destruct mid as [|x [|y mid]]; [done|done|simpl in *; lia].
Qed.

(** [Reverse] pushes the elements in the opposite order. *)
Theorem Reverse_correct {W T} (i : Iterator W T) (w : W) :
  let '(w1, l) := Collect i w in
  let '(w2, r) := Reverse i w in
  w1 = w2 /\ Collect r w2 = (w2, reverse l).
Proof.
  unfold Reverse. destruct (Collect i w) as [w1 l]. split; [done|]. rewrite Collect_From.
  f_equal. pose proof (reverse_loop_spec (length l) [] l [] (le_n _)) as H.
  simpl in H. by rewrite !app_nil_r in H.
Qed.

(** ** Iterators over channels *)
Section Channels.
Context {W : Type}.

(** [FromChannel] ranges over the values [vs] a channel gives until it is
    closed, and ignores the callback's answer. *)
Definition FromChannel {T} (vs : list T) : Iterator W T := fun S yield w s => push_all vs yield w s.

Fixpoint transform_loop {T S} (idx : Z) (data : list T) (mutate : T -> T) (yield : Yield W (Z * T) S) (w : W) (s : S) : W * S :=
  match data with
  | [] => (w, s)
  | value :: data =>
      let '((w, s), more) := yield (idx, mutate value) w s in
      if negb more then (w, s) else transform_loop (idx + 1) data mutate yield w s
  end.
Definition TransformIterator {T} (data : list T) (mutate : T -> T) : Iterator W (Z * T) :=
  fun S yield w s => transform_loop 0 data mutate yield w s.

(** The loop of [Join]. Each source runs in a goroutine of its own and hands
    over one value at a time; [first] and [second] are the values they have yet
    to hand over, after which their channels are closed. The result also says
    what they still hold when the loop ends: a goroutine that holds a value
    waits for ever to hand it over. *)
Fixpoint join_loop {T S R A} (fuel : nat) (zeroT : T) (zeroS : S) (join : T -> S -> R) (first : list T) (second : list S)
    (yield : Yield W R A) (w : W) (a : A) : W * A * (list T * list S) :=
  match fuel with
  | O => (w, a, (first, second))
  | Datatypes.S fuel =>
      match first, second with
      | [], [] => (w, a, ([], []))
      | _, _ =>
          let v := default zeroT (head first) in
          let u := default zeroS (head second) in
          let '((w, a), more) := yield (join v u) w a in
          if negb more then (w, a, (tail first, tail second))
          else join_loop fuel zeroT zeroS join (tail first) (tail second) yield w a
      end
  end.
(** As many rounds as the longer source has values, and one that finds both closed. *)
Definition Join_run {T S R A} zeroT zeroS (join : T -> S -> R) (first : list T) (second : list S) (yield : Yield W R A) w a :=
  join_loop (Datatypes.S (Nat.max (length first) (length second))) zeroT zeroS join first second yield w a.
Definition Join {T S R} (zeroT : T) (zeroS : S) (first : list T) (second : list S) (join : T -> S -> R) : Iterator W R :=
  fun A yield w a => (Join_run zeroT zeroS join first second yield w a).1.

(** The sources in step, the shorter continued with zero values. *)
Fixpoint zip_pad {T S R} (zeroT : T) (zeroS : S) (join : T -> S -> R) (first : list T) (second : list S) : list R :=
  match first, second with
  | [], _ => join zeroT <$> second
  | _, [] => (fun v => join v zeroS) <$> first
  | v :: first, u :: second => join v u :: zip_pad zeroT zeroS join first second
  end.

Lemma join_loop_zip {T S R A} zeroT zeroS (join : T -> S -> R) (yield : Yield W R A) fuel : forall first second w a,
  (Nat.max (length first) (length second) < fuel)%nat ->
  exists more, push_until (zip_pad zeroT zeroS join first second) yield w a =
    ((join_loop fuel zeroT zeroS join first second yield w a).1, more) /\
    (more = true -> (join_loop fuel zeroT zeroS join first second yield w a).2 = ([], [])).
Proof.
  induction fuel as [|fuel IH]; intros first second w a Hf; [lia|].
  destruct first as [|v first], second as [|u second]; cbn -[Nat.max] in *; [by exists true|..];
    destruct (yield _ w a) as [[w1 a1] []]; cbn; try (by exists false).
  - destruct (IH [] second w1 a1) as (more & E & Hm); [cbn; lia|]. exists more. cbn in E. destruct second; exact (conj E Hm).
  - destruct (IH first [] w1 a1) as (more & E & Hm); [cbn; lia|]. exists more. cbn in E. destruct first; exact (conj E Hm).
  - apply IH. lia.
Qed.

Lemma push_until_collect {R} (l : list R) (w : W) (out : list R) :
  push_until l (fun v w out => ((w, out ++ [v]), true)) w out = ((w, out ++ l), true).
Proof. revert out. induction l as [|x l IH]; intros out; cbn; [by rewrite app_nil_r|]. by rewrite IH, <- app_assoc. Qed.

(** [Join] yields the pairs of its sources in step, as many as the longer has
    values, the shorter continued with zero values; it stops when the callback
    refuses. When it was not stopped both goroutines have ended. *)
Theorem Join_correct {T S R} (zeroT : T) (zeroS : S) (join : T -> S -> R) first second (w : W) :
  let l := zip_pad zeroT zeroS join first second in
  length l = Nat.max (length first) (length second) /\
  Collect (Join zeroT zeroS first second join) w = (w, l) /\
  (forall A (yield : Yield W R A) (a : A), (Join zeroT zeroS first second join) A yield w a = (push_until l yield w a).1) /\
  forall A (yield : Yield W R A) (a : A), (push_until l yield w a).2 = true ->
    (Join_run zeroT zeroS join first second yield w a).2 = ([], []).
Proof.
  intros l. assert (forall A (yield : Yield W R A) (a : A), exists more,
    push_until l yield w a = ((Join_run zeroT zeroS join first second yield w a).1, more) /\
    (more = true -> (Join_run zeroT zeroS join first second yield w a).2 = ([], []))) as H
    by (intros A yield a; apply join_loop_zip; lia).
  assert (forall A (yield : Yield W R A) (a : A), Join zeroT zeroS first second join A yield w a = (push_until l yield w a).1) as HJ.
  { intros A yield a. destruct (H A yield a) as (more & -> & _). done. }
  split_and!; [| |exact HJ|].
  - unfold l. clear. revert second. induction first as [|v first IH]; intros [|u second]; cbn; rewrite ?length_map; try done. by rewrite IH.
  - unfold Collect. rewrite HJ, push_until_collect. done.
  - intros A yield a. destruct (H A yield a) as (more & -> & Hm). exact Hm.
Qed.

(** A consumer that stops early leaves the goroutines behind: after the first
    pair of two sources of at least two values both still hold values, and
    nothing receives them any more. *)
Lemma Join_leaks {T S R} (zeroT : T) (zeroS : S) (join : T -> S -> R) v v' vs u u' us (w : W) :
  Join_run zeroT zeroS join (v :: v' :: vs) (u :: u' :: us) (fun r w (_ : option R) => ((w, Some r), false)) w None =
  (w, Some (join v u), (v' :: vs, u' :: us)).
Proof. reflexivity. Qed.

(** [FromChannel] pushes what the channel gives; [TransformIterator] the index
    and the changed value of each element, until the callback refuses. *)
Lemma FromChannel_From T (vs : list T) : FromChannel vs ≡ From_ (W := W) vs.
Proof. by intros S yield w s. Qed.
Lemma TransformIterator_pushes {T} (data : list T) mutate S (yield : Yield W (Z * T) S) w s :
  TransformIterator data mutate S yield w s = (push_until (imap (fun i v => (Z.of_nat i, mutate v)) data) yield w s).1.
Proof.
  unfold TransformIterator. change 0 with (Z.of_nat 0).
  assert (forall k, transform_loop (Z.of_nat k) data mutate yield w s = (push_until (imap (fun i v => (Z.of_nat (k + i), mutate v)) data) yield w s).1) as H; [|apply H].
  revert w s. induction data as [|v data IH]; intros w s k; [done|]. cbn. rewrite Nat.add_0_r.
  destruct (yield _ w s) as [[w1 s1] []]; cbn; [|done]. replace (Z.of_nat k + 1) with (Z.of_nat (Datatypes.S k)) by lia.
  rewrite IH. do 2 f_equal. apply imap_ext. intros i x _. cbn. do 2 f_equal. lia.
Qed.
End Channels.
