(* ===== verification/PriorityQueue.v ===== *)
(** * The priority queue ([src/pkg/sequence/queue.go])

    Items are shared objects with a back-reference to their position; the
    queue is an array of pointers kept in heap order by [container/heap],
    whose sift loops are written over an interface as in the library. *)
From S2P Require Import Prelude.
From Stdlib Require Import ZArith Lia.
From stdpp Require Import base list gmap sorting.

(** ** [container/heap] over [heap.Interface] *)
Class HeapInterface (St : Type) : Type := {
  Len : St -> nat;
  Less : St -> nat -> nat -> bool;
  Swap : St -> nat -> nat -> St
}.

Section Heap.
Context {St : Type} {HI : HeapInterface St}.

(** [up]: towards the root while the element is less than its parent. *)
Fixpoint up (fuel : nat) (h : St) (j : nat) : St :=
  match fuel with
  | O => h
  | S fuel =>
      let i := Nat.div2 (j - 1) in
      if (i =? j)%nat || negb (Less h j i) then h else up fuel (Swap h i j) i
  end.

(** [down]: towards the leaves among the first [n] elements. Returns the
    position reached. *)
Fixpoint down_loop (fuel : nat) (h : St) (i n : nat) : St * nat :=
  match fuel with
  | O => (h, i)
  | S fuel =>
      let j1 := (2 * i + 1)%nat in
      if (n <=? j1)%nat then (h, i)
      else
        let j2 := (j1 + 1)%nat in
        let j := if (j2 <? n)%nat && Less h j2 j1 then j2 else j1 in
        if negb (Less h j i) then (h, i)
        else down_loop fuel (Swap h i j) j n
  end.
Definition down (h : St) (i0 n : nat) : St * bool :=
  let '(h, i) := down_loop n h i0 n in (h, (i0 <? i)%nat).

(** [heap.Fix]; a negative index (an item no longer in the queue) does nothing. *)
Definition Fix (h : St) (i : Z) : St :=
  if decide (i < 0)%Z then h
  else
    let i := Z.to_nat i in
    let '(h, moved) := down h i (Len h) in
    if moved then h else up (Len h) h i.

(** [heap.Init] *)
Fixpoint init_loop (k : nat) (h : St) (n : nat) : St :=
  match k with
  | O => h
  | S i => init_loop i (down h i n).1 n
  end.
Definition Init (h : St) : St := init_loop (Nat.div2 (Len h)) h (Len h).
End Heap.

(** ** The queue *)
Section Queue.
Context {T : Type}.

Record PriorityItem : Type := mkItem { Value : T; Priority : Z; index : Z }.

(** The array of pointers and the items they point to. *)
Record priorityQueue : Type := mkPQ { items : list positive; store : gmap positive PriorityItem }.

Definition prio_at (q : priorityQueue) (i : nat) : Z :=
  match items q !! i with
  | Some l => match store q !! l with Some it => Priority it | None => 0 end
  | None => 0
  end.

Definition set_index (k : Z) (it : PriorityItem) : PriorityItem := mkItem (Value it) (Priority it) k.

Definition pq_Len (q : priorityQueue) : nat := length (items q).
Definition pq_Less (q : priorityQueue) (i j : nat) : bool := (prio_at q j <? prio_at q i)%Z.
Definition pq_Swap (q : priorityQueue) (i j : nat) : priorityQueue :=
  match items q !! i, items q !! j with
  | Some a, Some b =>
      mkPQ (<[j := a]> (<[i := b]> (items q)))
        (alter (set_index (Z.of_nat j)) a (alter (set_index (Z.of_nat i)) b (store q)))
  | _, _ => q
  end.
#[export] Instance pq_heap : HeapInterface priorityQueue :=
  { Len := pq_Len; Less := pq_Less; Swap := pq_Swap }.

(** [Push] and [Pop] of the interface: at the end of the array. *)
Definition pq_Push (q : priorityQueue) (l : positive) : priorityQueue :=
  mkPQ (items q ++ [l]) (alter (set_index (Z.of_nat (length (items q)))) l (store q)).
Definition pq_Pop (q : priorityQueue) : priorityQueue * option positive :=
  let n := length (items q) in
  match items q !! (n - 1)%nat with
  | None => (q, None)
  | Some l => (mkPQ (take (n - 1) (items q)) (alter (set_index (-1)) l (store q)), Some l)
  end.

(** [heap.Push] and [heap.Pop]. *)
Definition heap_Push (q : priorityQueue) (l : positive) : priorityQueue :=
  let q := pq_Push q l in up (pq_Len q) q (pq_Len q - 1).
Definition heap_Pop (q : priorityQueue) : priorityQueue * option positive :=
  let n := (pq_Len q - 1)%nat in
  let q := pq_Swap q 0 n in
  let '(q, _) := down q 0 n in
  pq_Pop q.

Definition NewPriorityQueue : priorityQueue := Init (mkPQ [] ∅).

(** [Enqueue]; [l] is the location of the new item, which is returned. *)
Definition Enqueue (q : priorityQueue) (l : positive) (value : T) (priority : Z)
    : priorityQueue * positive :=
  let q := mkPQ (items q) (<[l := mkItem value priority 0]> (store q)) in
  (heap_Push q l, l).

Definition Dequeue (q : priorityQueue) : priorityQueue * option T :=
  if (pq_Len q =? 0)%nat then (q, None)
  else
    let '(q, l) := heap_Pop q in
    (q, l ← l; it ← store q !! l; Some (Value it)).

Definition Peek (q : priorityQueue) : option T :=
  if (pq_Len q =? 0)%nat then None
  else l ← items q !! 0%nat; it ← store q !! l; Some (Value it).

(** [Update] of the item at location [l]. *)
Definition Update (q : priorityQueue) (l : positive) (value : T) (priority : Z) : priorityQueue :=
  match store q !! l with
  | None => q
  | Some it =>
      Fix (mkPQ (items q) (<[l := mkItem value priority (index it)]> (store q))) (index it)
  end.

Definition IsEmpty (q : priorityQueue) : bool := (pq_Len q =? 0)%nat.
End Queue.
Arguments PriorityItem : clear implicits.
Arguments priorityQueue : clear implicits.

(** ** Correctness of the sift loops, for any implementation of the interface *)

(** Exchange of two positions. *)
Definition lswap {A} (i j : nat) (l : list A) : list A :=
  match l !! i, l !! j with
  | Some x, Some y => <[j := x]> (<[i := y]> l)
  | _, _ => l
  end.

Lemma length_lswap {A} i j (l : list A) : length (lswap i j l) = length l.
Proof. unfold lswap. repeat case_match; by rewrite ?length_insert. Qed.

Lemma lswap_total i j c (l : list Z) : (i < length l)%nat -> (j < length l)%nat ->
  lswap i j l !!! c = if decide (c = j) then l !!! i else if decide (c = i) then l !!! j else l !!! c.
Proof.
  intros Hi Hj. unfold lswap.
  destruct (lookup_lt_is_Some_2 l i Hi) as [x Ex], (lookup_lt_is_Some_2 l j Hj) as [y Ey].
  rewrite Ex, Ey, !list_lookup_total_alt, Ex, Ey. simpl.
  repeat case_decide; subst.
  - rewrite list_lookup_insert_eq by (by rewrite length_insert). done.
  - rewrite list_lookup_insert_ne, list_lookup_insert_eq by done. done.
  - rewrite !list_lookup_insert_ne by done. done.
Qed.

Lemma lswap_perm {A} i j (l : list A) : lswap i j l ≡ₚ l.
Proof.
  unfold lswap. destruct (l !! i) as [x|] eqn:Ei; [|done]. destruct (l !! j) as [y|] eqn:Ej; [|done].
  by apply Permutation_insert_swap.
Qed.

Class HeapLaws (St : Type) `{HeapInterface St} : Type := {
  keys : St -> list Z;
  Len_keys h : Len h = length (keys h);
  Less_keys h i j : (i < Len h)%nat -> (j < Len h)%nat -> Less h i j = (keys h !!! j <? keys h !!! i)%Z;
  keys_Swap h i j : (i < Len h)%nat -> (j < Len h)%nat -> keys (Swap h i j) = lswap i j (keys h)
}.

Definition parent (c : nat) : nat := Nat.div2 (c - 1).

Lemma parent_cases c : (0 < c)%nat -> c = (2 * parent c + 1)%nat \/ c = (2 * parent c + 2)%nat.
Proof.
  intros Hc. unfold parent. pose proof (Nat.div2_odd (c - 1)) as H.
  destruct (Nat.odd (c - 1)); simpl in H; lia.
Qed.
Lemma parent_0 : parent 0 = 0%nat. Proof. done. Qed.
Lemma parent_lt c : (0 < c)%nat -> (parent c < c)%nat.
Proof. intros Hc. destruct (parent_cases c Hc); lia. Qed.
Lemma parent_left i : parent (2 * i + 1) = i.
Proof. destruct (parent_cases (2 * i + 1)); lia. Qed.
Lemma parent_right i : parent (2 * i + 2) = i.
Proof. destruct (parent_cases (2 * i + 2)); lia. Qed.

Local Open Scope Z_scope.

Definition edge (K : list Z) (c : nat) : Prop := K !!! c <= K !!! (parent c).
(** The first [n] elements are in heap order (largest first). *)
Definition heap_upto (n : nat) (K : list Z) : Prop := forall c, (0 < c < n)%nat -> edge K c.

(** Heap order except below (above) one position, whose neighbours are
    ordered with each other. *)
Definition bridge (n : nat) (i : nat) (K : list Z) : Prop :=
  forall c, (0 < c < n)%nat -> parent c = i -> (0 < i)%nat -> K !!! c <= K !!! (parent i).
Definition heap_but_below (n i : nat) (K : list Z) : Prop :=
  (forall c, (0 < c < n)%nat -> parent c <> i -> edge K c) /\ bridge n i K.
Definition heap_but_above (n i : nat) (K : list Z) : Prop :=
  (forall c, (0 < c < n)%nat -> c <> i -> edge K c) /\ bridge n i K.
Definition heap_but_at (n i : nat) (K : list Z) : Prop :=
  (forall c, (0 < c < n)%nat -> c <> i -> parent c <> i -> edge K c) /\ bridge n i K.

Section Sift.
Context {St : Type} {HI : HeapInterface St} {HL : HeapLaws St}.
Implicit Types h : St.

Lemma Len_Swap h i j : (i < Len h)%nat -> (j < Len h)%nat -> Len (Swap h i j) = Len h.
Proof. intros. by rewrite !Len_keys, keys_Swap, length_lswap. Qed.

(** What every exchange inside the array preserves, the loops preserve. *)
Section Induction.
Context (P : St -> Prop) (n : nat).
Context (Pswap : forall h i j, (i < n)%nat -> (j < n)%nat -> P h -> P (Swap h i j)).

Lemma up_ind fuel h j : (j < n)%nat -> P h -> P (up fuel h j).
Proof.
  revert h j. induction fuel as [|fuel IH]; intros h j Hj HP; simpl; [done|].
  fold (parent j). case_match; [done|].
  destruct (decide (j = 0)%nat) as [->|Hj0]; [by rewrite parent_0 in *|].
  pose proof (parent_lt j ltac:(lia)).
  apply IH; [lia|]. apply Pswap; [lia..|done].
Qed.

Lemma down_loop_ind fuel h i : P h -> P (down_loop fuel h i n).1.
Proof.
  revert h i. induction fuel as [|fuel IH]; intros h i HP; [done|].
  cbn [down_loop]. case_match eqn:E1; [done|]. apply Nat.leb_gt in E1.
  set (j := if _ && _ then _ else _).
  assert (Hj : (j < n)%nat).
  { unfold j. case_match eqn:E2; [|lia]. apply andb_true_iff in E2 as [E2 _].
    apply Nat.ltb_lt in E2. lia. }
  case_match; [done|]. apply IH. apply Pswap; [lia..|done].
Qed.
End Induction.

Lemma keys_down_step h i j n :
  (i < j < Len h)%nat -> (n <= Len h)%nat -> (j < n)%nat -> parent j = i -> (0 < j)%nat ->
  keys h !!! i < keys h !!! j ->
  (forall c, (0 < c < n)%nat -> parent c = i -> keys h !!! c <= keys h !!! j) ->
  heap_but_at n i (keys h) ->
  heap_but_below n j (keys (Swap h i j)).
Proof.
  intros Hij Hn Hjn Hp Hj0 Hlt Hsib [Hok Hbr].
  assert (Hl : forall c, keys (Swap h i j) !!! c =
    if decide (c = j) then keys h !!! i else if decide (c = i) then keys h !!! j else keys h !!! c).
  { intros c. rewrite keys_Swap by lia. apply lswap_total; rewrite <- Len_keys; lia. }
  split.
  - intros c Hc Hpc. unfold edge. rewrite !Hl.
    pose proof (parent_lt c ltac:(lia)).
    destruct (decide (c = j)) as [->|Hcj].
    + rewrite Hp, decide_False, decide_True by lia. lia.
    + rewrite (decide_False (P := parent c = j)) by done.
      destruct (decide (c = i)) as [->|Hci].
      * rewrite decide_False by lia. by apply Hbr; [| |lia].
      * destruct (decide (parent c = i)); [by apply Hsib|]. by apply Hok.
  - intros c Hc Hpc _. rewrite Hp, !Hl.
    pose proof (parent_lt c ltac:(lia)).
    rewrite !decide_False, decide_True by lia.
    rewrite <- Hpc. apply Hok; lia.
Qed.

(** The larger child. *)
Lemma larger_child h i n :
  (n <= Len h)%nat -> (2 * i + 1 < n)%nat ->
  let j1 := (2 * i + 1)%nat in
  let j := if ((j1 + 1 <? n)%nat && Less h (j1 + 1) j1) then (j1 + 1)%nat else j1 in
  (i < j < n)%nat /\ parent j = i /\
  forall c, (0 < c < n)%nat -> parent c = i -> keys h !!! c <= keys h !!! j.
Proof.
  intros Hn Hi j1 j. unfold j, j1.
  destruct (Nat.ltb_spec (2 * i + 1 + 1) n) as [H2|H2]; cbn [andb]; cbv iota.
  - rewrite Less_keys by lia. destruct (Z.ltb_spec (keys h !!! (2 * i + 1)%nat) (keys h !!! (2 * i + 1 + 1)%nat)) as [H3|H3];
      cbv iota; (split; [lia|]);
      (split; [first [apply parent_left | replace (2 * i + 1 + 1)%nat with (2 * i + 2)%nat by lia; apply parent_right]|]);
      intros c Hc Hp; destruct (parent_cases c) as [E|E]; try lia; rewrite Hp in E;
      replace (2 * i + 1 + 1)%nat with (2 * i + 2)%nat in * by lia; subst c; lia.
  - split; [lia|]. split; [apply parent_left|].
    intros c Hc Hp. destruct (parent_cases c) as [E|E]; try lia; rewrite Hp in E; subst c; lia.
Qed.

Lemma down_below fuel h i n :
  (i < n <= Len h)%nat -> (n - i <= fuel)%nat -> heap_but_below n i (keys h) ->
  heap_upto n (keys (down_loop fuel h i n).1).
Proof.
  revert h i. induction fuel as [|fuel IH]; intros h i Hn Hf HD; [lia|].
  cbn [down_loop]. destruct (Nat.leb_spec n (2 * i + 1)) as [Hleaf|Hleaf].
  - intros c Hc. apply HD; [done|]. destruct (parent_cases c); lia.
  - destruct (larger_child h i n ltac:(lia) Hleaf) as (Hj & Hp & Hmax).
    set (j := if _ && _ then _ else _) in *. rewrite Less_keys by lia.
    destruct (Z.ltb_spec (keys h !!! i) (keys h !!! j)) as [Hlt|Hge]; cbn [negb]; cbv iota.
    + apply IH; [rewrite Len_Swap; lia|lia|].
      apply keys_down_step; try lia; auto.
      split; [|apply HD]. intros c Hc _ Hpc. by apply HD.
    + intros c Hc. destruct (decide (parent c = i)) as [Hpc|Hpc]; [|by apply HD].
      cbn [fst]. unfold edge. rewrite Hpc. specialize (Hmax c Hc Hpc). lia.
Qed.

(** [down] from a position out of order in both directions: either it moved
    and everything is in order, or nothing changed and only the edge above
    is left. *)
Lemma down_at fuel h i n :
  (i < n <= Len h)%nat -> (n - i <= fuel)%nat -> heap_but_at n i (keys h) ->
  let '(h', k) := down_loop fuel h i n in
  ((i < k)%nat /\ heap_upto n (keys h')) \/ (k = i /\ h' = h /\ heap_but_above n i (keys h)).
Proof.
  intros Hn Hf HW. destruct fuel as [|fuel]; [lia|].
  cbn [down_loop]. destruct (Nat.leb_spec n (2 * i + 1)) as [Hleaf|Hleaf].
  - right. split; [done|]. split; [done|]. split; [|apply HW].
    intros c Hc Hci. apply HW; [done..|]. destruct (parent_cases c); lia.
  - destruct (larger_child h i n ltac:(lia) Hleaf) as (Hj & Hp & Hmax).
    set (j := if _ && _ then _ else _) in *. rewrite Less_keys by lia.
    destruct (Z.ltb_spec (keys h !!! i) (keys h !!! j)) as [Hlt|Hge]; cbn [negb]; cbv iota.
    + assert (HD : heap_but_below n j (keys (Swap h i j))) by (apply keys_down_step; auto; lia).
      assert (Hh : heap_upto n (keys (down_loop fuel (Swap h i j) j n).1)).
      { apply down_below; [rewrite Len_Swap; lia|lia|done]. }
      assert (Hk : forall f h0 j0, (j0 <= (down_loop f h0 j0 n).2)%nat).
      { clear. induction f as [|f IHf]; intros h0 j0; [simpl; lia|]. cbn [down_loop].
        repeat (case_match; simpl; try lia); (etrans; [|apply IHf]); lia. }
      specialize (Hk fuel (Swap h i j) j).
      destruct (down_loop fuel (Swap h i j) j n) as [h' k]. simpl in *. left. split; [lia|done].
    + right. split; [done|]. split; [done|]. split; [|apply HW].
      intros c Hc Hci. destruct (decide (parent c = i)) as [Hpc|Hpc]; [|by apply HW].
      cbn [fst]. unfold edge. rewrite Hpc. specialize (Hmax c Hc Hpc). lia.
Qed.

Lemma up_above fuel h j :
  (j < Len h)%nat -> (j < fuel)%nat -> heap_but_above (Len h) j (keys h) ->
  heap_upto (Len h) (keys (up fuel h j)).
Proof.
  revert h j. induction fuel as [|fuel IH]; intros h j Hj Hf [Hok Hbr]; [lia|].
  cbn [up]. fold (parent j). destruct (Nat.eqb_spec (parent j) j) as [E|E]; cbn [orb]; cbv iota.
  { assert (j = 0)%nat as -> by (destruct j; [done|pose proof (parent_lt (S j)); lia]).
    intros c Hc. apply Hok; lia. }
  assert (Hj0 : (0 < j)%nat) by (destruct j; [by rewrite parent_0 in E|lia]).
  pose proof (parent_lt j Hj0) as Hpj. rewrite Less_keys by lia.
  destruct (Z.ltb_spec (keys h !!! parent j) (keys h !!! j)) as [Hlt|Hge]; cbn [negb]; cbv iota.
  - set (i := parent j) in *.
    assert (Hl : forall c, keys (Swap h i j) !!! c =
      if decide (c = j) then keys h !!! i else if decide (c = i) then keys h !!! j else keys h !!! c).
    { intros c. rewrite keys_Swap by lia. apply lswap_total; rewrite <- Len_keys; lia. }
    rewrite <- (Len_Swap h i j) by lia. apply IH; [rewrite Len_Swap; lia|lia|].
    rewrite Len_Swap by lia. split.
    + intros c Hc Hci. unfold edge. rewrite !Hl. pose proof (parent_lt c ltac:(lia)).
      destruct (decide (c = j)) as [->|Hcj].
      * fold i. rewrite decide_False, decide_True by lia. lia.
      * rewrite (decide_False (P := c = i)) by done.
        destruct (decide (parent c = j)) as [Hpc|Hpc].
        -- apply Hbr; done.
        -- specialize (Hok c Hc Hcj). unfold edge in Hok.
           destruct (decide (parent c = i)) as [Hpi|Hpi]; [rewrite Hpi in Hok; lia|done].
    + intros c Hc Hpc Hi0. rewrite !Hl. pose proof (parent_lt i Hi0).
      rewrite (decide_False (P := parent i = j)), (decide_False (P := parent i = i)) by lia.
      assert (Hi : edge (keys h) i) by (apply Hok; lia). unfold edge in Hi.
      destruct (decide (c = j)) as [->|Hcj]; [done|].
      pose proof (parent_lt c ltac:(lia)). rewrite decide_False by lia.
      specialize (Hok c Hc Hcj). unfold edge in Hok. rewrite Hpc in Hok. lia.
  - intros c Hc. destruct (decide (c = j)) as [->|Hcj]; [|by apply Hok].
    unfold edge. lia.
Qed.
End Sift.

(** ** The queue implements the interface's laws *)
Section QueueFacts.
Context {T : Type}.
Implicit Types q : priorityQueue T.

(** Value and priority of an item: what the positions do not affect. *)
Definition content q (l : positive) : option (T * Z) :=
  (fun it => (Value it, Priority it)) <$> store q !! l.
Definition key_of q (l : positive) : Z := from_option snd 0 (content q l).

Lemma content_set_index k a (m : gmap positive (PriorityItem T)) l :
  (fun it => (Value it, Priority it)) <$> alter (set_index k) a m !! l =
  (fun it => (Value it, Priority it)) <$> m !! l.
Proof.
  destruct (decide (l = a)) as [->|].
  - rewrite lookup_alter_eq. by destruct (m !! a).
  - by rewrite lookup_alter_ne.
Qed.

Lemma content_Swap q i j l : content (pq_Swap q i j) l = content q l.
Proof. unfold pq_Swap, content. repeat case_match; [|done..]. simpl. by rewrite !content_set_index. Qed.

Lemma key_of_Swap q i j l : key_of (pq_Swap q i j) l = key_of q l.
Proof. unfold key_of. by rewrite content_Swap. Qed.

Lemma items_Swap q i j : items (pq_Swap q i j) = lswap i j (items q).
Proof. unfold pq_Swap, lswap. by repeat case_match. Qed.

Lemma lswap_fmap {A B} (f : A -> B) i j (l : list A) : f <$> lswap i j l = lswap i j (f <$> l).
Proof.
  unfold lswap. rewrite !list_lookup_fmap.
  destruct (l !! i); [|done]. destruct (l !! j); [|done]. simpl. by rewrite !list_fmap_insert.
Qed.

#[export] Program Instance pq_heap_laws : HeapLaws (priorityQueue T) :=
  {| keys q := key_of q <$> items q |}.
Next Obligation. intros q. simpl. by rewrite length_fmap. Qed.
Next Obligation.
  intros q i j Hi Hj. simpl in *. unfold pq_Len in *. unfold pq_Less, prio_at.
  destruct (lookup_lt_is_Some_2 _ _ Hi) as [a Ea], (lookup_lt_is_Some_2 _ _ Hj) as [b Eb].
  rewrite !list_lookup_total_alt, !list_lookup_fmap, Ea, Eb. unfold key_of, content. simpl.
  by destruct (store q !! a), (store q !! b).
Qed.
Next Obligation.
  intros q i j _ _. simpl. rewrite items_Swap, <- lswap_fmap.
  apply list_fmap_ext. intros k l _. apply key_of_Swap.
Qed.

(** Well-formed: no item twice, every item knows its position, and an item
    that is not in the queue has index -1. *)
Definition pq_wf q : Prop :=
  NoDup (items q) /\
  (forall i l, items q !! i = Some l -> index <$> store q !! l = Some (Z.of_nat i)) /\
  (forall l it, store q !! l = Some it -> l ∈ items q \/ index it = -1).

Lemma pq_wf_Swap q i j : pq_wf q -> pq_wf (pq_Swap q i j).
Proof.
  intros (Hnd & Hidx & Hout). unfold pq_Swap.
  destruct (items q !! i) as [a|] eqn:Ea; [|done]. destruct (items q !! j) as [b|] eqn:Eb; [|done].
  pose proof (Permutation_insert_swap (items q) i j a b Ea Eb) as Hperm.
  split; simpl; [by rewrite Hperm|]. split.
  - intros k l Hk. rewrite list_lookup_insert_Some, list_lookup_insert_Some in Hk.
    destruct Hk as [(<- & <- & _)|(Hkj & [(<- & <- & _)|(Hki & Hk)])].
    + rewrite lookup_alter_eq. pose proof (Hidx i a Ea) as H.
      destruct (decide (a = b)) as [<-|]; [rewrite lookup_alter_eq|rewrite lookup_alter_ne by done];
        revert H; by destruct (store q !! a).
    + rewrite lookup_alter_ne, lookup_alter_eq.
      * pose proof (Hidx j b Eb) as H. revert H. by destruct (store q !! b).
      * intros ->. apply Hkj. by eapply NoDup_lookup.
    + rewrite !lookup_alter_ne; [by apply Hidx|..]; intros ->;
        first [apply Hki; exact (NoDup_lookup _ _ _ _ Hnd Ea Hk)
              |apply Hkj; exact (NoDup_lookup _ _ _ _ Hnd Eb Hk)].
  - intros l it Hl. rewrite Hperm. destruct (decide (l ∈ items q)) as [|Hn]; [by left|].
    rewrite !lookup_alter_ne in Hl by (intros ->; apply Hn, list_elem_of_lookup; eauto).
    by apply Hout.
Qed.

(** The same items with the same contents. *)
Definition same_contents q q' : Prop :=
  items q' ≡ₚ items q /\ (forall l, content q' l = content q l) /\ pq_wf q'.

Lemma same_contents_Swap q q' i j :
  same_contents q q' -> same_contents q (pq_Swap q' i j).
Proof.
  intros (Hp & Hc & Hw). split; [|split].
  - by rewrite items_Swap, lswap_perm.
  - intros l. by rewrite content_Swap.
  - by apply pq_wf_Swap.
Qed.

Definition pq_inv q : Prop := pq_wf q /\ heap_upto (length (items q)) (keys q).

Lemma same_contents_up q q' fuel j :
  (j < pq_Len q')%nat -> same_contents q q' -> same_contents q (up fuel q' j).
Proof.
  intros Hj HP. apply (up_ind (same_contents q) (pq_Len q')); [|done|done].
  intros h i k _ _ H. by apply same_contents_Swap.
Qed.

Lemma same_contents_down q q' fuel i n :
  same_contents q q' -> same_contents q (down_loop fuel q' i n).1.
Proof.
  intros HP. apply (down_loop_ind (same_contents q)); [|done].
  intros h k k' _ _ H. by apply same_contents_Swap.
Qed.

Lemma same_contents_length q q' : same_contents q q' -> length (items q') = length (items q).
Proof. intros (Hp & _). by rewrite Hp. Qed.

(** Contents of the array's positions. *)
Lemma keys_lookup q i l : items q !! i = Some l -> keys q !!! i = key_of q l.
Proof. intros Hi. simpl. rewrite list_lookup_total_alt, list_lookup_fmap, Hi. done. Qed.

Lemma heap_root_max n K : heap_upto n K -> forall c, (c < n)%nat -> K !!! c <= K !!! 0%nat.
Proof.
  intros H c. induction c as [c IH] using lt_wf_ind. intros Hc.
  destruct (decide (c = 0)%nat) as [->|]; [done|].
  specialize (H c ltac:(lia)). unfold edge in H. pose proof (parent_lt c ltac:(lia)).
  specialize (IH (parent c) ltac:(lia) ltac:(lia)). lia.
Qed.

Lemma heap_upto_ext n K K' :
  (forall c, (c < n)%nat -> K !!! c = K' !!! c) -> heap_upto n K -> heap_upto n K'.
Proof.
  intros E H c Hc. unfold edge. pose proof (parent_lt c ltac:(lia)).
  rewrite <- !E by lia. by apply H.
Qed.

Lemma keys_same q q' : items q' = items q ->
  (forall l, l ∈ items q -> content q' l = content q l) -> keys q' = keys q.
Proof.
  intros Hi Hc. simpl. rewrite Hi. apply list_fmap_ext. intros k l Hl.
  unfold key_of. rewrite Hc; [done|]. by eapply list_elem_of_lookup_2.
Qed.

Lemma keys_set q q' k l0 : items q' = items q -> NoDup (items q) -> items q !! k = Some l0 ->
  (forall l, l <> l0 -> content q' l = content q l) ->
  forall c, c <> k -> keys q' !!! c = keys q !!! c.
Proof.
  intros Hi Hnd Hk Hc c Hck. simpl. rewrite !list_lookup_total_alt, !list_lookup_fmap, Hi.
  destruct (items q !! c) as [l|] eqn:El; [|done]. simpl. unfold key_of. rewrite Hc; [done|].
  intros ->. by apply Hck, (NoDup_lookup (items q) c k l0).
Qed.

(** [Enqueue] adds the item: the invariant (heap order, no duplicates, every
    item knows its position, items outside have index -1) is kept, the queue
    gains exactly the new item with its value and priority, and no other
    item's value or priority changes. *)
Theorem Enqueue_correct q l v p :
  pq_inv q -> store q !! l = None ->
  let q' := (Enqueue q l v p).1 in
  pq_inv q' /\ items q' ≡ₚ l :: items q /\ content q' l = Some (v, p) /\
  forall l', l' <> l -> content q' l' = content q l'.
Proof.
  intros [(Hnd & Hidx & Hout) Hheap] Hl q'.
  assert (Hnl : l ∉ items q).
  { intros (k & Hk)%list_elem_of_lookup. specialize (Hidx k l Hk). by rewrite Hl in Hidx. }
  set (q1 := mkPQ (items q ++ [l]) (<[l := mkItem v p (Z.of_nat (length (items q)))]> (store q))).
  assert (Eq' : q' = up (pq_Len q1) q1 (pq_Len q1 - 1)).
  { unfold q', Enqueue, heap_Push.
    replace (pq_Push (mkPQ (items q) (<[l := mkItem v p 0]> (store q))) l) with q1; [done|].
    unfold q1, pq_Push. cbn [items store]. f_equal. by rewrite alter_insert_eq. }
  assert (Hlen : pq_Len q1 = S (length (items q))) by (unfold pq_Len; simpl; rewrite length_app; simpl; lia).
  assert (Hc1 : forall l', l' <> l -> content q1 l' = content q l').
  { intros l' Hne. unfold content, q1. simpl. by rewrite lookup_insert_ne. }
  assert (Hcl : content q1 l = Some (v, p)).
  { unfold content, q1. simpl. by rewrite lookup_insert_eq. }
  assert (Hw1 : pq_wf q1).
  { split; [|split]; simpl.
    - apply NoDup_app. split; [done|]. split; [|apply NoDup_singleton].
      by intros x Hx ->%list_elem_of_singleton.
    - intros i x [Hi|[Hi Hx]]%lookup_app_Some.
      + rewrite lookup_insert_ne; [by apply Hidx|]. intros ->. apply Hnl. by eapply list_elem_of_lookup_2.
      + apply list_lookup_singleton_Some in Hx as [Hi0 <-]. rewrite lookup_insert_eq. simpl. do 2 f_equal. lia.
    - intros x it Hx. destruct (decide (x = l)) as [->|Hne]; [left; set_solver|].
      rewrite lookup_insert_ne in Hx by done. destruct (Hout x it Hx); [left; set_solver|by right]. }
  assert (HS : same_contents q1 q').
  { rewrite Eq'. apply same_contents_up; [lia|]. by split. }
  destruct HS as (Hperm & Hcont & Hwf).
  split; [split; [done|]|split; [|split]].
  - rewrite (Permutation_length Hperm). rewrite Eq'.
    change (length (items q1)) with (Len q1).
    apply up_above; simpl Len; [lia..|]. rewrite Hlen.
    replace (S (length (items q)) - 1)%nat with (length (items q)) by lia. split.
    + intros c Hc Hne. pose proof (parent_lt c ltac:(lia)). unfold edge.
      assert (Hk : forall d, (d < length (items q))%nat -> keys q1 !!! d = keys q !!! d).
      { intros d Hd. simpl. rewrite !list_lookup_total_alt, !list_lookup_fmap.
        rewrite lookup_app_l by done. destruct (items q !! d) as [x|] eqn:Ex; [|done]. simpl.
        unfold key_of. rewrite Hc1; [done|]. intros ->. apply Hnl. by eapply list_elem_of_lookup_2. }
      rewrite !Hk by lia. apply Hheap. lia.
    + intros c Hc Hp _. destruct (parent_cases c); lia.
  - rewrite Hperm. simpl. by rewrite Permutation_app_comm.
  - by rewrite Hcont.
  - intros l' Hne. by rewrite Hcont, Hc1.
Qed.

Lemma lswap_above {A} n i j (l : list A) :
  (i < n)%nat -> (j < n)%nat -> lswap i j l !! n = l !! n.
Proof. intros. unfold lswap. repeat case_match; [|done..]. by rewrite !list_lookup_insert_ne by lia. Qed.

Lemma down_above q n fuel i : items (down_loop fuel q i n).1 !! n = items q !! n.
Proof.
  apply (down_loop_ind (fun h => items h !! n = items q !! n)); [|done].
  intros h a b Ha Hb Hh. simpl. by rewrite items_Swap, lswap_above.
Qed.

Lemma down_fst q i n : (down q i n).1 = (down_loop n q i n).1.
Proof. unfold down. by destruct (down_loop n q i n). Qed.

(** After the root went to the end and the rest was sifted, the rest is in
    heap order and the old root is last. *)
Lemma sift_rest q n root :
  pq_inv q -> length (items q) = S n -> items q !! 0%nat = Some root ->
  let q2 := (down (pq_Swap q 0 n) 0 n).1 in
  same_contents q q2 /\ items q2 !! n = Some root /\ heap_upto n (keys q2).
Proof.
  intros [Hw Hheap] Hlen H0. rewrite down_fst.
  assert (HS1 : same_contents q (pq_Swap q 0 n)) by by apply same_contents_Swap.
  assert (Hn : exists b, items q !! n = Some b) by (apply lookup_lt_is_Some_2; lia).
  destruct Hn as [b Hb].
  split; [by apply same_contents_down|]. split.
  - rewrite down_above, items_Swap. unfold lswap. rewrite H0, Hb.
    rewrite list_lookup_insert_eq; [done|]. rewrite length_insert. lia.
  - destruct n as [|n]; [intros c Hc; lia|].
    assert (HL : Len (pq_Swap q 0 (S n)) = S (S n)).
    { simpl. unfold pq_Len. by rewrite items_Swap, length_lswap. }
    apply down_below; [rewrite HL; lia|lia|]. split; [|intros c Hc Hp Hi; lia].
    intros c Hc Hp. unfold edge. pose proof (parent_lt c ltac:(lia)).
    change (pq_Swap q 0 (S n)) with (Swap q 0%nat (S n)).
    rewrite keys_Swap by (simpl; unfold pq_Len; lia).
    rewrite !lswap_total by (rewrite <- Len_keys; simpl; unfold pq_Len; lia).
    rewrite !decide_False by lia. apply Hheap. lia.
Qed.

(** Taking the last item off: what is left is in order when the heap order held
    up to it. *)
Lemma pop_last_inv q2 n root :
  pq_wf q2 -> length (items q2) = S n -> items q2 !! n = Some root -> heap_upto n (keys q2) ->
  let q3 := mkPQ (take n (items q2)) (alter (set_index (-1)) root (store q2)) in
  pq_inv q3 /\ items q2 ≡ₚ root :: items q3 /\ forall l', content q3 l' = content q2 l'.
Proof.
  intros (Hnd2 & Hidx2 & Hout2) Hlen2 Hlast Hh2 q3.
  assert (Hsplit : items q2 = take n (items q2) ++ [root]).
  { rewrite <- (take_drop n (items q2)) at 1. f_equal.
    rewrite (drop_S _ root) by done. rewrite drop_ge by lia. done. }
  assert (Hc3 : forall l', content q3 l' = content q2 l').
  { intros l'. unfold content, q3. simpl. apply content_set_index. }
  rewrite Hsplit in Hnd2. apply NoDup_app in Hnd2 as (Hnd3 & Hd & _).
  assert (Hnr : root ∉ take n (items q2)).
  { intros Hin. by apply (Hd root); [|apply list_elem_of_singleton]. }
  split; [split; [split; [done|split]|]|split; [|done]].
  - intros i x Hx. simpl in *. rewrite lookup_alter_ne.
    + apply Hidx2. by apply lookup_take_Some in Hx as [? _].
    + intros ->. apply Hnr. by eapply list_elem_of_lookup_2.
  - intros x it Hx. simpl in *. destruct (decide (x = root)) as [->|Hxr].
    + right. rewrite lookup_alter_eq in Hx. by destruct (store q2 !! root); simplify_eq/=.
    + rewrite lookup_alter_ne in Hx by done. destruct (Hout2 x it Hx) as [Hin|]; [left|by right].
      rewrite Hsplit in Hin. set_solver.
  - simpl length. rewrite length_take, Nat.min_l by lia.
    eapply heap_upto_ext; [|exact Hh2]. intros c Hc. simpl.
    rewrite !list_lookup_total_alt, !list_lookup_fmap, lookup_take_lt by done.
    destruct (items q2 !! c) as [x|]; [|done]. simpl. unfold key_of. by rewrite Hc3.
  - simpl. rewrite Hsplit at 1. by rewrite Permutation_app_comm.
Qed.

(** [Dequeue] returns a highest-priority value: on a non-empty queue in the
    invariant it removes exactly one item, whose priority is at least that of
    every item in the queue, returns that item's value, leaves all contents
    unchanged and keeps the invariant. *)
Theorem Dequeue_correct q :
  pq_inv q -> items q <> [] ->
  exists q' l v p, Dequeue q = (q', Some v) /\ Peek q = Some v /\ pq_inv q' /\
    items q ≡ₚ l :: items q' /\ content q l = Some (v, p) /\
    (forall l' v' p', l' ∈ items q -> content q l' = Some (v', p') -> p' <= p) /\
    (forall l', content q' l' = content q l').
Proof.
  intros Hinv Hne. pose proof Hinv as [(Hnd & Hidx & Hout) Hheap].
  destruct (items q) as [|root rest] eqn:Eitems; [done|]. rewrite <- Eitems in *.
  assert (H0 : items q !! 0%nat = Some root) by by rewrite Eitems.
  assert (Hlen : length (items q) = S (length rest)) by by rewrite Eitems.
  set (n := length rest) in *.
  destruct (sift_rest q n root Hinv Hlen H0) as (HS & Hlast & Hh2).
  pose proof (Hidx 0%nat root H0) as Hroot.
  destruct (store q !! root) as [[v p ix]|] eqn:Est; [|done].
  assert (Hcr : content q root = Some (v, p)) by (unfold content; by rewrite Est).
  set (q2 := (down (pq_Swap q 0 n) 0 n).1) in *.
  pose proof HS as (Hperm & Hcont & Hw2).
  assert (Hlen2 : length (items q2) = S n) by (by rewrite Hperm).
  set (q3 := mkPQ (take n (items q2)) (alter (set_index (-1)) root (store q2))).
  destruct (pop_last_inv q2 n root Hw2 Hlen2 Hlast Hh2) as (Hinv3 & Hperm3 & Hc32). fold q3 in Hinv3, Hperm3, Hc32.
  assert (Hc3 : forall l', content q3 l' = content q l') by (intros l'; by rewrite Hc32).
  assert (Edeq : Dequeue q = (q3, Some v)).
  { unfold Dequeue, heap_Pop, pq_Len. rewrite Hlen. simpl Nat.eqb. cbv iota.
    replace (S n - 1)%nat with n by lia.
    assert (Ed : down (pq_Swap q 0 n) 0 n = (q2, (down (pq_Swap q 0 n) 0 n).2)).
    { unfold q2. by destruct (down (pq_Swap q 0 n) 0 n). }
    rewrite Ed. unfold pq_Pop. rewrite Hlen2. replace (S n - 1)%nat with n by lia.
    rewrite Hlast. fold q3. simpl. f_equal. pose proof (Hc3 root) as Hr. rewrite Hcr in Hr.
    unfold content in Hr. destruct (store q3 !! root) as [it|] eqn:E3; [|done]. simpl in *.
    unfold q3 in E3. simpl in E3. rewrite E3. simpl. by simplify_eq/=. }
  exists q3, root, v, p. split; [done|]. split.
  { unfold Peek, pq_Len. rewrite Hlen, H0. simpl. by rewrite Est. }
  split; [done|]. split; [by rewrite <- Hperm, Hperm3|]. split; [done|]. split; [|done].
  intros l' v' p' (k & Hk)%list_elem_of_lookup Hc'.
  pose proof (heap_root_max _ _ Hheap k ltac:(by eapply lookup_lt_Some)) as Hmax.
  rewrite (keys_lookup q k l'), (keys_lookup q 0 root) in Hmax by done.
  unfold key_of in Hmax. by rewrite Hc', Hcr in Hmax.
Qed.

(** [Update] re-sorts: changing the value and priority of an item of the
    store keeps the invariant and the set of items, sets exactly that item's
    contents, and is safe for an item that has left the queue. *)
Theorem Update_correct q l it v p :
  pq_inv q -> store q !! l = Some it ->
  let q' := Update q l v p in
  pq_inv q' /\ items q' ≡ₚ items q /\ content q' l = Some (v, p) /\
  forall l', l' <> l -> content q' l' = content q l'.
Proof.
  intros [(Hnd & Hidx & Hout) Hheap] Hl q'.
  set (q1 := mkPQ (items q) (<[l := mkItem v p (index it)]> (store q))).
  assert (Eq' : q' = Fix q1 (index it)) by (unfold q', Update; by rewrite Hl).
  assert (Hc1 : forall l', l' <> l -> content q1 l' = content q l').
  { intros l' Hne. unfold content, q1. simpl. by rewrite lookup_insert_ne. }
  assert (Hcl : content q1 l = Some (v, p)).
  { unfold content, q1. simpl. by rewrite lookup_insert_eq. }
  assert (Hw1 : pq_wf q1).
  { split; [done|split]; simpl.
    - intros i x Hx. specialize (Hidx i x Hx). destruct (decide (x = l)) as [->|].
      + rewrite lookup_insert_eq. by rewrite Hl in Hidx.
      + by rewrite lookup_insert_ne.
    - intros x y Hx. destruct (decide (x = l)) as [->|].
      + rewrite lookup_insert_eq in Hx. simplify_eq/=. by apply Hout.
      + rewrite lookup_insert_ne in Hx by done. by apply Hout. }
  assert (HS1 : same_contents q1 q1) by by split.
  cut (same_contents q1 q' /\ heap_upto (length (items q)) (keys q')).
  { intros [(Hperm & Hcont & Hwf) Hh]. simpl in Hperm.
    split; [split; [done|by rewrite (Permutation_length Hperm)]|].
    split; [done|]. split; [by rewrite Hcont|]. intros l' Hne. by rewrite Hcont, Hc1. }
  rewrite Eq'. unfold Fix. case_decide as Hneg.
  { split; [done|]. rewrite (keys_same q q1); [done|done|].
    intros x Hx. apply Hc1. intros ->. apply list_elem_of_lookup in Hx as [k Hk].
    specialize (Hidx k l Hk). rewrite Hl in Hidx. simplify_eq/=. lia. }
  destruct (Hout l it Hl) as [Hin|]; [|lia].
  apply list_elem_of_lookup in Hin as [k Hk]. pose proof (Hidx k l Hk) as Hix.
  rewrite Hl in Hix. simpl in Hix. injection Hix as Hix. rewrite Hix, Nat2Z.id.
  assert (Hklt : (k < length (items q))%nat) by by eapply lookup_lt_Some.
  assert (HW : heap_but_at (length (items q)) k (keys q1)).
  { pose proof (keys_set q q1 k l eq_refl Hnd Hk Hc1) as Hks. split.
    - intros c Hc Hck Hpk. unfold edge. rewrite !Hks by done. by apply Hheap.
    - intros c Hc Hp Hk0. pose proof (parent_lt k Hk0). pose proof (parent_lt c ltac:(lia)).
      rewrite !Hks by lia.
      etrans; [apply Hheap; lia|]. rewrite Hp. apply Hheap. lia. }
  pose proof (down_at (Len q1) q1 k (Len q1)) as Hd. unfold down.
  change (Len q1) with (length (items q)) in *.
  specialize (Hd ltac:(simpl; unfold pq_Len; simpl; lia) ltac:(lia) HW).
  pose proof (same_contents_down q1 q1 (length (items q)) k (length (items q)) HS1) as HSd.
  destruct (down_loop (length (items q)) q1 k (length (items q))) as [h' k'].
  destruct Hd as [[Hlt Hh]|(-> & -> & HU)].
  - rewrite (proj2 (Nat.ltb_lt _ _)) by done. by split.
  - rewrite Nat.ltb_irrefl. split; [by apply same_contents_up|].
    pose proof (up_above (length (items q)) q1 k) as Hup.
    assert (HL : Len q1 = length (items q)) by reflexivity. rewrite HL in Hup. by apply Hup.
Qed.

(** ** The queue as a sorting device *)

(** Enqueues a list of values at fresh locations, starting at [l]. *)
Fixpoint enqueue_all (q : priorityQueue T) (l : positive) (vs : list (T * Z)) : priorityQueue T :=
  match vs with
  | [] => q
  | (v, p) :: vs => enqueue_all (Enqueue q l v p).1 (Pos.succ l) vs
  end.

(** Dequeues until the queue is empty, at most [fuel] times. *)
Fixpoint dequeue_all (fuel : nat) (q : priorityQueue T) : list T :=
  match fuel with
  | O => []
  | S fuel => match Dequeue q with
              | (q, Some v) => v :: dequeue_all fuel q
              | (_, None) => []
              end
  end.

Definition contents q : list (T * Z) := omap (content q) (items q).

Lemma enqueue_all_correct q l vs :
  pq_inv q -> (forall l', (l <= l')%positive -> store q !! l' = None) ->
  pq_inv (enqueue_all q l vs) /\ contents (enqueue_all q l vs) ≡ₚ contents q ++ vs.
Proof.
  revert q l. induction vs as [|[v p] vs IH]; intros q l Hinv Hfresh; cbn [enqueue_all].
  - by rewrite app_nil_r.
  - destruct (Enqueue_correct q l v p Hinv (Hfresh l ltac:(lia))) as (Hi & Hp & Hcl & Hc).
    destruct (IH (Enqueue q l v p).1 (Pos.succ l) Hi) as [IH1 IH2].
    { intros l' Hl'. specialize (Hc l' ltac:(lia)). unfold content in Hc.
      rewrite (Hfresh l' ltac:(lia)) in Hc. by destruct (store (Enqueue q l v p).1 !! l'). }
    split; [done|]. rewrite IH2. rewrite <- Permutation_middle.
    change ((v, p) :: contents q ++ vs) with (((v, p) :: contents q) ++ vs). f_equiv.
    unfold contents at 1. rewrite Hp. cbn [omap list_omap]. rewrite Hcl. f_equiv. unfold contents.
    apply reflexive_eq, list_omap_ext, Forall_Forall2_diag, Forall_forall.
    intros x Hx. apply Hc. intros ->. apply list_elem_of_lookup in Hx as [k Hk].
    destruct Hinv as [(_ & Hidx & _) _]. specialize (Hidx k l Hk).
    by rewrite (Hfresh l ltac:(lia)) in Hidx.
Qed.

Lemma dequeue_all_correct n q :
  pq_inv q -> length (items q) = n ->
  exists vps, dequeue_all (S n) q = map fst vps /\ vps ≡ₚ contents q /\
    StronglySorted (fun a b => snd b <= snd a) vps.
Proof.
  revert q. induction n as [|n IH]; intros q Hinv Hn.
  - apply length_zero_iff_nil in Hn. exists []. simpl. unfold Dequeue, pq_Len, contents.
    rewrite Hn. repeat split; constructor.
  - destruct (Dequeue_correct q Hinv) as (q' & l & v & p & E & _ & Hinv' & Hp & Hcl & Hmax & Hc);
      [by intros E; rewrite E in Hn|].
    destruct (IH q' Hinv') as (vps & Hvps & Hperm & Hsorted).
    { apply Permutation_length in Hp. simpl in Hp. lia. }
    exists ((v, p) :: vps). remember (S n) as m. cbn [dequeue_all]. rewrite E, Hvps.
    assert (Hcs : contents q ≡ₚ (v, p) :: contents q').
    { unfold contents at 1. rewrite Hp. simpl. rewrite Hcl. f_equiv.
      apply reflexive_eq, list_omap_ext, Forall_Forall2_diag, Forall_forall.
      intros x _. by rewrite Hc. }
    split; [done|]. split; [by rewrite Hperm, Hcs|]. constructor; [done|].
    apply Forall_forall. intros [v' p'] Hin. simpl. rewrite Hperm in Hin.
    apply list_elem_of_omap in Hin as (x & Hx & Hcx). rewrite Hc in Hcx.
    eapply Hmax; [|exact Hcx]. rewrite Hp. by apply list_elem_of_further.
Qed.

Lemma empty_inv : pq_inv (NewPriorityQueue (T:=T)).
Proof.
  split; [split; [apply NoDup_nil_2|split]|]; simpl.
  - by intros i l Hi.
  - intros l it H. by rewrite lookup_empty in H.
  - intros c Hc. simpl in Hc. lia.
Qed.

(** C23: A queue drains in priority order: enqueueing any list of values and
    dequeueing until the queue is empty returns all of them, as a permutation,
    in order of non-increasing priority. *)
Theorem queue_drains_sorted (vs : list (T * Z)) :
  exists vps, dequeue_all (S (length vs)) (enqueue_all NewPriorityQueue 1 vs) = map fst vps /\
    vps ≡ₚ vs /\ StronglySorted (fun a b => snd b <= snd a) vps.
Proof.
  destruct (enqueue_all_correct NewPriorityQueue 1%positive vs empty_inv) as [Hinv Hcont].
  { intros l' _. apply lookup_empty. }
  destruct (dequeue_all_correct _ _ Hinv eq_refl) as (vps & H1 & H2 & H3).
  exists vps. rewrite Hcont in H2. simpl in H2. split; [|done]. rewrite <- H1. do 2 f_equal.
  assert (Hall : forall q, pq_wf q -> length (contents q) = length (items q)).
  { intros q (_ & Hidx & _). unfold contents.
    cut (forall l, (forall x, x ∈ l -> x ∈ items q) -> length (omap (content q) l) = length l); [auto|].
    induction l as [|x l IHl]; intros Hl; [done|]. simpl.
    destruct (proj1 (list_elem_of_lookup _ _) (Hl x ltac:(set_solver))) as [k Hk].
    specialize (Hidx k x Hk). unfold content at 1. destruct (store q !! x); [|done]. simpl.
    f_equal. apply IHl. set_solver. }
  rewrite <- Hall by apply Hinv. by rewrite Hcont.
Qed.
End QueueFacts.

Definition sample_queue : priorityQueue Z :=
  enqueue_all NewPriorityQueue 1 [(10, 1); (20, 5); (30, 3)].

Lemma sample_queue_inv : pq_inv sample_queue.
Proof.
  apply enqueue_all_correct; [apply empty_inv|]. intros l' _. apply lookup_empty.
Qed.

Lemma Enqueue_correct_witness :
  pq_inv (Enqueue sample_queue 4 40 9).1 /\ Peek (Enqueue sample_queue 4 40 9).1 = Some 40.
Proof.
  split; [|reflexivity]. apply (Enqueue_correct sample_queue 4 40 9 sample_queue_inv). reflexivity.
Defined.

Lemma Dequeue_correct_witness :
  exists q', Dequeue sample_queue = (q', Some 20) /\ pq_inv q'.
Proof.
  destruct (Dequeue_correct sample_queue sample_queue_inv) as (q' & l & v & p & E & _ & Hi & _);
    [discriminate|].
  exists q'. split; [|exact Hi]. rewrite E. f_equal.
  assert (Hv : (Dequeue sample_queue).2 = Some 20) by reflexivity. by rewrite E in Hv.
Defined.

Lemma Update_correct_witness :
  pq_inv (Update sample_queue 1 11 7) /\ Peek (Update sample_queue 1 11 7) = Some 11.
Proof.
  split; [|reflexivity].
  apply (Update_correct sample_queue 1 (mkItem 10 1 1) 11 7 sample_queue_inv). reflexivity.
Defined.
