(* ===== verification/Groups.v ===== *)
(** * Groups and scopes ([internal/core/protocol/group.go])

    [BaseGroup] keeps a set of clients and an atomic counter; [BaseScope] adds
    a keyed data store with an atomic size. What both promise about
    membership is the class [Membership], against which the sequential
    theorems are proved; [Interleaved] runs the individual atomic steps of
    concurrent calls. *)
From S2P Require Import Prelude Errors Messages.
From Stdlib Require Import ZArith Lia Strings.String Strings.Byte.
From stdpp Require Import base list strings gmap sets fin_maps.
Open Scope Z_scope.

Record GroupConfig : Type := mkGroupConfig { MaxClients : Z }.
Record ScopeConfig : Type := mkScopeConfig {
  ScopeMaxClients : Z; MaxDataSize : Z; MaxKeys : Z
}.

(** ** Groups *)
Record BaseGroup : Type := mkGroup {
  g_id : GroupID;
  g_name : string;
  g_clients : gset ClientID;
  g_clientCount : Z;
  g_metadata : gmap string any;
  g_createdAt : Z;
  g_config : GroupConfig;
  g_closed : bool
}.

Definition NewBaseGroup (id : GroupID) (name : string) (now : Z) (config : GroupConfig) : BaseGroup :=
  mkGroup id name ∅ 0 ∅ now config false.

Definition g_set_clients (cs : gset ClientID) (n : Z) (g : BaseGroup) : BaseGroup :=
  mkGroup (g_id g) (g_name g) cs n (g_metadata g) (g_createdAt g) (g_config g) (g_closed g).

Definition group_AddClient (g : BaseGroup) (c : ClientID) : BaseGroup * option error :=
  if g_closed g then (g, Some (Sentinel ErrGroupClosed))
  else if (0 <? MaxClients (g_config g)) && (MaxClients (g_config g) <=? g_clientCount g)
  then (g, Some (Sentinel ErrMaxClientsExceeded))
  else if decide (c ∈ g_clients g) then (g, None)
  else (g_set_clients ({[c]} ∪ g_clients g) (wrapS 64 (g_clientCount g + 1)) g, None).

Definition group_RemoveClient (g : BaseGroup) (c : ClientID) : BaseGroup * option error :=
  if decide (c ∈ g_clients g)
  then (g_set_clients (g_clients g ∖ {[c]}) (wrapS 64 (g_clientCount g - 1)) g, None)
  else (g, None).

Definition group_HasClient (g : BaseGroup) (c : ClientID) : bool := bool_decide (c ∈ g_clients g).
Definition group_Clients (g : BaseGroup) : list ClientID := elements (g_clients g).
Definition group_ClientCount (g : BaseGroup) : Z := g_clientCount g.
Definition group_Metadata (g : BaseGroup) : gmap string any := g_metadata g.
Definition group_SetMetadata (g : BaseGroup) (k : string) (v : any) : BaseGroup :=
  mkGroup (g_id g) (g_name g) (g_clients g) (g_clientCount g) (<[k := v]> (g_metadata g))
    (g_createdAt g) (g_config g) (g_closed g).
Definition group_Close (g : BaseGroup) : BaseGroup :=
  mkGroup (g_id g) (g_name g) (g_clients g) (g_clientCount g) (g_metadata g) (g_createdAt g)
    (g_config g) true.
Definition group_IsClosed (g : BaseGroup) : bool := g_closed g.

Record GroupInfo : Type := mkGroupInfo {
  gi_ID : GroupID; gi_Name : string; gi_ClientCount : Z; gi_CreatedAt : Z; gi_Metadata : gmap string any
}.
Definition group_Info (g : BaseGroup) : GroupInfo :=
  mkGroupInfo (g_id g) (g_name g) (g_clientCount g) (g_createdAt g) (g_metadata g).

(** ** Scopes *)
Record BaseScope : Type := mkScope {
  s_id : ScopeID;
  s_name : string;
  s_clients : gset ClientID;
  s_clientCount : Z;
  s_data : gmap string (list byte);
  s_dataSize : Z;
  s_metadata : gmap string any;
  s_createdAt : Z;
  s_config : ScopeConfig;
  s_closed : bool
}.

Definition NewBaseScope (id : ScopeID) (name : string) (now : Z) (config : ScopeConfig) : BaseScope :=
  mkScope id name ∅ 0 ∅ 0 ∅ now config false.

Definition s_set_clients (cs : gset ClientID) (n : Z) (s : BaseScope) : BaseScope :=
  mkScope (s_id s) (s_name s) cs n (s_data s) (s_dataSize s) (s_metadata s) (s_createdAt s)
    (s_config s) (s_closed s).
Definition s_set_data (d : gmap string (list byte)) (n : Z) (s : BaseScope) : BaseScope :=
  mkScope (s_id s) (s_name s) (s_clients s) (s_clientCount s) d n (s_metadata s) (s_createdAt s)
    (s_config s) (s_closed s).

Definition scope_AddClient (s : BaseScope) (c : ClientID) : BaseScope * option error :=
  if s_closed s then (s, Some (Sentinel ErrScopeClosed))
  else if (0 <? ScopeMaxClients (s_config s)) && (ScopeMaxClients (s_config s) <=? s_clientCount s)
  then (s, Some (Sentinel ErrMaxClientsExceeded))
  else if decide (c ∈ s_clients s) then (s, None)
  else (s_set_clients ({[c]} ∪ s_clients s) (wrapS 64 (s_clientCount s + 1)) s, None).

Definition scope_RemoveClient (s : BaseScope) (c : ClientID) : BaseScope * option error :=
  if decide (c ∈ s_clients s)
  then (s_set_clients (s_clients s ∖ {[c]}) (wrapS 64 (s_clientCount s - 1)) s, None)
  else (s, None).

Definition scope_HasClient (s : BaseScope) (c : ClientID) : bool := bool_decide (c ∈ s_clients s).
Definition scope_Clients (s : BaseScope) : list ClientID := elements (s_clients s).
Definition scope_ClientCount (s : BaseScope) : Z := s_clientCount s.

(** [^uint64(n - 1)]: the complement used to subtract. *)
Definition complement_minus_1 (n : Z) : Z := 2 ^ 64 - 1 - wrapU 64 (n - 1).

Definition SetData (s : BaseScope) (key : string) (data : list byte) : BaseScope * option error :=
  if s_closed s then (s, Some (Sentinel ErrScopeClosed))
  else
    let len := Z.of_nat (length data) in
    let newSize := wrapU 64 (s_dataSize s + wrapU 64 len) in
    if (0 <? MaxDataSize (s_config s)) && (MaxDataSize (s_config s) <? newSize)
    then (s, Some (Sentinel ErrMaxDataSizeExceeded))
    else
      let keyCount := Z.of_nat (size (s_data s)) in
      if (0 <? MaxKeys (s_config s)) && (MaxKeys (s_config s) <=? keyCount)
         && bool_decide (s_data s !! key = None)
      then (s, Some (Sentinel ErrMaxKeysExceeded))
      else
        let size :=
          match s_data s !! key with
          | Some oldData => wrapU 64 (s_dataSize s + complement_minus_1 (Z.of_nat (length oldData)))
          | None => s_dataSize s
          end in
        (s_set_data (<[key := data]> (s_data s)) (wrapU 64 (size + wrapU 64 len)) s, None).

Definition GetData (s : BaseScope) (key : string) : option (list byte) := s_data s !! key.

Definition DeleteData (s : BaseScope) (key : string) : BaseScope * option error :=
  match s_data s !! key with
  | Some value =>
      (s_set_data (delete key (s_data s))
         (wrapU 64 (s_dataSize s + complement_minus_1 (Z.of_nat (length value)))) s, None)
  | None => (s, None)
  end.

Definition ListKeys (s : BaseScope) : list string := (map_to_list (s_data s)).*1.
Definition DataSize (s : BaseScope) : Z := s_dataSize s.
Definition scope_Metadata (s : BaseScope) : gmap string any := s_metadata s.
Definition scope_SetMetadata (s : BaseScope) (k : string) (v : any) : BaseScope :=
  mkScope (s_id s) (s_name s) (s_clients s) (s_clientCount s) (s_data s) (s_dataSize s)
    (<[k := v]> (s_metadata s)) (s_createdAt s) (s_config s) (s_closed s).
Definition scope_Close (s : BaseScope) : BaseScope :=
  mkScope (s_id s) (s_name s) (s_clients s) (s_clientCount s) (s_data s) (s_dataSize s)
    (s_metadata s) (s_createdAt s) (s_config s) true.
Definition scope_IsClosed (s : BaseScope) : bool := s_closed s.

Record ScopeInfo : Type := mkScopeInfo {
  si_ID : ScopeID; si_Name : string; si_ClientCount : Z; si_DataSize : Z; si_CreatedAt : Z;
  si_Metadata : gmap string any
}.
Definition scope_Info (s : BaseScope) : ScopeInfo :=
  mkScopeInfo (s_id s) (s_name s) (s_clientCount s) (s_dataSize s) (s_createdAt s) (s_metadata s).

(** ** What groups and scopes promise about membership *)
Class Membership (S : Type) : Type := {
  members : S -> gset ClientID;
  count : S -> Z;
  limit : S -> Z;
  is_closed : S -> bool;
  closed_error : sentinel;
  add_member : S -> ClientID -> S * option error;
  remove_member : S -> ClientID -> S * option error;
  add_refused_closed s c : is_closed s = true ->
    add_member s c = (s, Some (Sentinel closed_error));
  add_refused_full s c : is_closed s = false -> 0 < limit s <= count s ->
    add_member s c = (s, Some (Sentinel ErrMaxClientsExceeded));
  add_accepted s c : is_closed s = false -> ~ (0 < limit s <= count s) ->
    exists s', add_member s c = (s', None) /\ members s' = {[c]} ∪ members s /\
      limit s' = limit s /\ is_closed s' = false /\
      count s' = if decide (c ∈ members s) then count s else wrapS 64 (count s + 1);
  remove_result s c :
    exists s', remove_member s c = (s', None) /\ members s' = members s ∖ {[c]} /\
      limit s' = limit s /\ is_closed s' = is_closed s /\
      count s' = if decide (c ∈ members s) then wrapS 64 (count s - 1) else count s
}.

Lemma guard_full_true n m : 0 < n <= m -> (0 <? n) && (n <=? m) = true.
Proof. intros [??]. apply andb_true_iff. split; lia. Qed.
Lemma guard_full_false n m : ~ (0 < n <= m) -> (0 <? n) && (n <=? m) = false.
Proof. intros H. apply andb_false_iff. destruct (Z.ltb_spec 0 n); [right|left]; lia. Qed.

#[export] Program Instance group_membership : Membership BaseGroup := {|
  members := g_clients; count := g_clientCount; limit g := MaxClients (g_config g);
  is_closed := g_closed; closed_error := ErrGroupClosed;
  add_member := group_AddClient; remove_member := group_RemoveClient |}.
Next Obligation. intros g c H. unfold group_AddClient. by rewrite H. Qed.
Next Obligation. intros g c H1 H2. unfold group_AddClient. by rewrite H1, guard_full_true. Qed.
Next Obligation.
  intros g c H1 H2. unfold group_AddClient. rewrite H1, guard_full_false by done.
  case_decide; eexists; (split; [done|]); simpl; repeat split; try done. set_solver.
Qed.
Next Obligation.
  intros g c. unfold group_RemoveClient. case_decide; eexists; (split; [done|]); simpl;
    repeat split; try done. set_solver.
Qed.

#[export] Program Instance scope_membership : Membership BaseScope := {|
  members := s_clients; count := s_clientCount; limit s := ScopeMaxClients (s_config s);
  is_closed := s_closed; closed_error := ErrScopeClosed;
  add_member := scope_AddClient; remove_member := scope_RemoveClient |}.
Next Obligation. intros s c H. unfold scope_AddClient. by rewrite H. Qed.
Next Obligation. intros s c H1 H2. unfold scope_AddClient. by rewrite H1, guard_full_true. Qed.
Next Obligation.
  intros s c H1 H2. unfold scope_AddClient. rewrite H1, guard_full_false by done.
  case_decide; eexists; (split; [done|]); simpl; repeat split; try done. set_solver.
Qed.
Next Obligation.
  intros s c. unfold scope_RemoveClient. case_decide; eexists; (split; [done|]); simpl;
    repeat split; try done. set_solver.
Qed.

Section MembershipFacts.
Context {S : Type} {M : Membership S}.
Implicit Types s : S.

Inductive member_op : Type := Join (c : ClientID) | Leave (c : ClientID).

Definition run_op (s : S) (o : member_op) : S :=
  match o with Join c => (add_member s c).1 | Leave c => (remove_member s c).1 end.
Definition run_ops (s : S) (os : list member_op) : S := foldl run_op s os.

(** The counter is the number of members (as a 64-bit integer), and a positive
    limit is respected. *)
Definition members_inv s : Prop :=
  count s = wrapS 64 (Z.of_nat (size (members s))) /\
  (0 < limit s -> Z.of_nat (size (members s)) <= limit s).

Lemma size_insert_new (X : gset ClientID) c :
  size ({[c]} ∪ X) = if decide (c ∈ X) then size X else Datatypes.S (size X).
Proof.
  case_decide.
  - by rewrite subseteq_union_1_L by set_solver.
  - rewrite size_union by set_solver. by rewrite size_singleton.
Qed.

Lemma size_remove (X : gset ClientID) c :
  Z.of_nat (size (X ∖ {[c]})) = if decide (c ∈ X) then Z.of_nat (size X) - 1 else Z.of_nat (size X).
Proof.
  case_decide.
  - rewrite size_difference by set_solver. rewrite size_singleton.
    assert (size X <> 0%nat) by (rewrite size_non_empty_iff; set_solver). lia.
  - do 2 f_equal. set_solver.
Qed.

Lemma wrapS_add z k : wrapS 64 (wrapS 64 z + k) = wrapS 64 (z + k).
Proof.
  unfold wrapS. f_equal.
  replace ((z + 2 ^ (64 - 1)) mod 2 ^ 64 - 2 ^ (64 - 1) + k + 2 ^ (64 - 1))
    with ((z + 2 ^ (64 - 1)) mod 2 ^ 64 + k) by lia.
  rewrite Z.add_mod_idemp_l by done. f_equal. lia.
Qed.

Lemma add_member_inv s c : in_s 64 (limit s) -> members_inv s -> members_inv (add_member s c).1.
Proof.
  intros Hl [Hc Hlim]. destruct (is_closed s) eqn:Ecl.
  { by rewrite add_refused_closed. }
  destruct (decide (0 < limit s <= count s)) as [Hfull|Hfull].
  { by rewrite add_refused_full. }
  destruct (add_accepted s c Ecl Hfull) as (s' & E & Hm & Hls & _ & Hcnt). rewrite E. simpl.
  unfold members_inv. rewrite Hm, Hls, Hcnt, size_insert_new. case_decide; [done|].
  rewrite Hc, wrapS_add. split; [f_equal; lia|]. intros Hpos. specialize (Hlim Hpos).
  rewrite Hc, wrapS_id in Hfull; [lia|lia|]. unfold in_s in *. simpl in *. lia.
Qed.

Lemma remove_member_inv s c : members_inv s -> members_inv (remove_member s c).1.
Proof.
  intros [Hc Hlim]. destruct (remove_result s c) as (s' & E & Hm & Hls & _ & Hcnt).
  rewrite E. simpl. unfold members_inv. rewrite Hm, Hls, Hcnt, size_remove.
  case_decide; [|done]. rewrite Hc. unfold Z.sub. rewrite wrapS_add. split; [done|].
  intros Hpos. specialize (Hlim Hpos). lia.
Qed.

Lemma run_op_limit s o : limit (run_op s o) = limit s.
Proof.
  destruct o as [c|c]; simpl.
  - destruct (is_closed s) eqn:Ecl; [by rewrite add_refused_closed|].
    destruct (decide (0 < limit s <= count s)); [by rewrite add_refused_full|].
    destruct (add_accepted s c) as (s' & -> & _ & ? & _); done.
  - destruct (remove_result s c) as (s' & -> & _ & ? & _); done.
Qed.

(** Whatever joins and leaves are issued one after the other, a group or
    scope counts its members exactly and never exceeds a positive limit. *)
Theorem membership_invariant s os :
  in_s 64 (limit s) -> members_inv s -> members_inv (run_ops s os).
Proof.
  intros Hl. unfold run_ops. revert s Hl. induction os as [|o os IH]; intros s Hl Hi; [done|].
  cbn [foldl]. apply IH; [by rewrite run_op_limit|].
  destruct o; [by apply add_member_inv|by apply remove_member_inv].
Qed.

(** Joining and leaving do what they say: on an open group or scope below
    its limit a join succeeds and adds exactly that client, after a leave the
    client is out and the others are untouched, and both are idempotent. *)
Theorem join_leave_correct s c c' :
  is_closed s = false -> ~ (0 < limit s <= count s) ->
  (add_member s c).2 = None /\
  (c' ∈ members (add_member s c).1 <-> c' = c \/ c' ∈ members s) /\
  (c' ∈ members (remove_member s c).1 <-> c' <> c /\ c' ∈ members s) /\
  (remove_member s c).2 = None /\
  (c ∈ members s -> count (add_member s c).1 = count s).
Proof.
  intros Hc Hf. destruct (add_accepted s c Hc Hf) as (s1 & -> & Hm1 & _ & _ & Hn1).
  destruct (remove_result s c) as (s2 & -> & Hm2 & _). simpl. rewrite Hm1, Hm2.
  rewrite elem_of_union, elem_of_difference, elem_of_singleton.
  split; [done|]. split; [done|]. split; [tauto|]. split; [done|].
  intros Hin. by rewrite Hn1, decide_True.
Qed.
End MembershipFacts.
Arguments members_inv {S M} s.

Definition two_client_group : BaseGroup :=
  NewBaseGroup "g" "group" 0 (mkGroupConfig 2).

Lemma membership_invariant_witness :
  members_inv (run_ops two_client_group [Join "a"; Join "a"; Join "b"; Join "c"; Leave "a"; Join "d"])
  /\ map (group_HasClient (run_ops two_client_group [Join "a"; Join "a"; Join "b"; Join "c"]))
       ["a"; "b"; "c"] = [true; true; false].
Proof.
  split; [|vm_compute; reflexivity]. apply membership_invariant.
  - split; [discriminate|reflexivity].
  - split; [reflexivity|]. intros _. discriminate.
Defined.

Lemma join_leave_correct_witness : (add_member two_client_group "a").2 = None.
Proof.
  apply (join_leave_correct two_client_group "a" "a"); [reflexivity|].
  intros [_ H]. by apply H.
Defined.

(** ** The data store of a scope *)
Definition data_bytes (m : gmap string (list byte)) : Z :=
  map_fold (fun _ v acc => Z.of_nat (length v) + acc) 0 m.

Lemma data_bytes_insert_new m k v :
  m !! k = None -> data_bytes (<[k := v]> m) = Z.of_nat (length v) + data_bytes m.
Proof. intros H. unfold data_bytes. rewrite map_fold_insert_L; [done| |done]. intros; lia. Qed.

Lemma data_bytes_delete m k v :
  m !! k = Some v -> data_bytes (delete k m) = data_bytes m - Z.of_nat (length v).
Proof.
  intros H. rewrite <- (insert_delete_id m k v H) at 2.
  rewrite data_bytes_insert_new by apply lookup_delete_eq. lia.
Qed.

Lemma data_bytes_insert m k v :
  data_bytes (<[k := v]> m) =
  data_bytes m - match m !! k with Some o => Z.of_nat (length o) | None => 0 end + Z.of_nat (length v).
Proof.
  destruct (m !! k) as [o|] eqn:E.
  - rewrite <- insert_delete_eq, data_bytes_insert_new by apply lookup_delete_eq.
    rewrite (data_bytes_delete m k o E). lia.
  - rewrite data_bytes_insert_new by done. lia.
Qed.

Lemma data_bytes_nonneg m : 0 <= data_bytes m.
Proof.
  unfold data_bytes. apply (map_fold_weak_ind (fun r _ => 0 <= r)); [done|]. intros; lia.
Qed.

(** The recorded size is the number of bytes held, modulo 2^64; positive
    limits on bytes and keys are respected. *)
Definition scope_data_inv (s : BaseScope) : Prop :=
  s_dataSize s = wrapU 64 (data_bytes (s_data s)) /\
  (0 < MaxDataSize (s_config s) -> data_bytes (s_data s) <= MaxDataSize (s_config s)) /\
  (0 < MaxKeys (s_config s) -> Z.of_nat (size (s_data s)) <= MaxKeys (s_config s)).

(** The limit test of [SetData], on the bytes held. *)
Definition data_fits (s : BaseScope) (data : list byte) : Prop :=
  0 < MaxDataSize (s_config s) -> s_dataSize s + Z.of_nat (length data) <= MaxDataSize (s_config s).
Definition key_fits (s : BaseScope) (key : string) : Prop :=
  0 < MaxKeys (s_config s) -> Z.of_nat (size (s_data s)) < MaxKeys (s_config s) \/ is_Some (s_data s !! key).

Lemma complement_subtracts a n : wrapU 64 (a + complement_minus_1 n) = wrapU 64 (a - n).
Proof. by apply (wrapU_sub_complement 64). Qed.

Lemma SetData_accepted s key data :
  s_closed s = false -> in_u 64 (s_dataSize s + Z.of_nat (length data)) ->
  data_fits s data -> key_fits s key ->
  s_dataSize s = wrapU 64 (data_bytes (s_data s)) ->
  SetData s key data =
    (s_set_data (<[key := data]> (s_data s)) (wrapU 64 (data_bytes (<[key := data]> (s_data s)))) s, None).
Proof.
  intros Hc Hu Hd Hk Hs. pose proof (wrapU_range 64 (data_bytes (s_data s)) ltac:(lia)).
  unfold SetData. rewrite Hc. cbv zeta.
  rewrite (wrapU_id 64 (Z.of_nat _)) by (unfold in_u in *; lia).
  rewrite (wrapU_id 64 (_ + _)) by done.
  replace (_ && _) with false.
  2:{ symmetry. apply andb_false_iff. destruct (Z.ltb_spec 0 (MaxDataSize (s_config s))) as [Hp|];
      [right; specialize (Hd Hp); lia|by left]. }
  replace (_ && bool_decide _) with false.
  2:{ symmetry. apply andb_false_iff. destruct (Z.ltb_spec 0 (MaxKeys (s_config s))) as [Hp|];
      [|by left]. destruct (Hk Hp) as [Hlt|[o Ho]]; [left; simpl; lia|right].
      by rewrite Ho, bool_decide_eq_false_2. }
  do 2 f_equal. rewrite data_bytes_insert. destruct (s_data s !! key) as [o|]; rewrite Hs.
  - rewrite complement_subtracts, wrapU_add_l by lia. unfold Z.sub. rewrite <- !Z.add_assoc.
    rewrite wrapU_add_l by lia. done.
  - rewrite wrapU_add_l by lia. f_equal. lia.
Qed.

Lemma SetData_refused_size s key data :
  s_closed s = false -> in_u 64 (s_dataSize s + Z.of_nat (length data)) ->
  in_u 64 (s_dataSize s) -> ~ data_fits s data ->
  SetData s key data = (s, Some (Sentinel ErrMaxDataSizeExceeded)).
Proof.
  intros Hc Hu Hs Hd. unfold SetData. rewrite Hc. cbv zeta.
  rewrite (wrapU_id 64 (Z.of_nat _)) by (unfold in_u in *; lia).
  rewrite (wrapU_id 64 (_ + _)) by done.
  destruct (Z.ltb_spec 0 (MaxDataSize (s_config s))) as [Hp|Hp];
    destruct (Z.ltb_spec (MaxDataSize (s_config s)) (s_dataSize s + Z.of_nat (length data))); [done|..];
    exfalso; apply Hd; unfold data_fits; lia.
Qed.

Lemma SetData_refused_keys s key data :
  s_closed s = false -> in_u 64 (s_dataSize s + Z.of_nat (length data)) ->
  in_u 64 (s_dataSize s) -> data_fits s data -> ~ key_fits s key ->
  SetData s key data = (s, Some (Sentinel ErrMaxKeysExceeded)).
Proof.
  intros Hc Hu Hs Hd Hk. unfold SetData. rewrite Hc. cbv zeta.
  rewrite (wrapU_id 64 (Z.of_nat _)) by (unfold in_u in *; lia).
  rewrite (wrapU_id 64 (_ + _)) by done.
  replace (_ && _) with false.
  2:{ symmetry. apply andb_false_iff. destruct (Z.ltb_spec 0 (MaxDataSize (s_config s))) as [Hp|];
      [right; specialize (Hd Hp); lia|by left]. }
  replace (_ && bool_decide _) with true; [done|]. symmetry.
  destruct (s_data s !! key) as [o|] eqn:Ho; [exfalso; apply Hk; intros ?; right; eauto|].
  rewrite andb_true_iff, bool_decide_eq_true. split; [|done]. apply guard_full_true.
  destruct (decide (0 < MaxKeys (s_config s))) as [Hp|Hp]; [|exfalso; apply Hk; intros ?; lia].
  destruct (decide (Z.of_nat (size (s_data s)) < MaxKeys (s_config s))); [|lia].
  exfalso. apply Hk. intros _. by left.
Qed.

(** [SetData] on every branch. On a scope in its invariant, and while sizes
    stay below 2^64: a closed scope refuses; otherwise the call succeeds exactly
    when the bytes held plus the new value fit the size limit and the key is
    present or fits the key limit; on success exactly that key is bound, the
    size is recounted and the invariant is kept; on refusal nothing changes. *)
Theorem SetData_correct s key data :
  scope_data_inv s -> in_u 64 (s_dataSize s + Z.of_nat (length data)) ->
  data_bytes (s_data s) < 2 ^ 64 ->
  let '(s', e) := SetData s key data in
  scope_data_inv s' /\
  (e = None <-> s_closed s = false /\ data_fits s data /\ key_fits s key) /\
  (e = None -> GetData s' key = Some data /\
     DataSize s' = DataSize s - match GetData s key with Some o => Z.of_nat (length o) | None => 0 end
                   + Z.of_nat (length data)) /\
  (e <> None -> s' = s) /\
  (forall k, k <> key -> GetData s' k = GetData s k).
Proof.
  intros (Hs & Hmax & Hkeys) Hu Hb. pose proof (data_bytes_nonneg (s_data s)) as Hnn.
  assert (Hs' : s_dataSize s = data_bytes (s_data s)) by (by rewrite Hs, wrapU_id).
  destruct (s_closed s) eqn:Hc.
  { unfold SetData. rewrite Hc. repeat split; try done. by intros (? & _). }
  destruct (decide (s_dataSize s + Z.of_nat (length data) <= MaxDataSize (s_config s) \/ MaxDataSize (s_config s) <= 0)) as [Hd|Hd].
  2:{ assert (Hnd : ~ data_fits s data) by (intros H; unfold data_fits in H; lia).
      rewrite SetData_refused_size by (done || (unfold in_u in *; lia)).
      repeat split; try done. by intros (_ & ? & _). }
  assert (Hfit : data_fits s data) by (intros ?; lia).
  destruct (decide (Z.of_nat (size (s_data s)) < MaxKeys (s_config s) \/ is_Some (s_data s !! key) \/ MaxKeys (s_config s) <= 0)) as [Hk|Hk].
  2:{ assert (Hnk : ~ key_fits s key) by (intros H; unfold key_fits in H; apply Hk;
        destruct (decide (0 < MaxKeys (s_config s))) as [Hp|]; [destruct (H Hp); auto|right; right; lia]).
      rewrite SetData_refused_keys by (done || (unfold in_u in *; lia)).
      repeat split; try done. by intros (_ & _ & ?). }
  assert (Hkfit : key_fits s key) by (intros ?; destruct Hk as [?|[?|?]]; [by left|by right|lia]).
  pose proof (data_bytes_insert (s_data s) key data) as Hins.
  pose proof (data_bytes_nonneg (<[key:=data]> (s_data s))) as Hnn'.
  rewrite SetData_accepted by done. unfold scope_data_inv, GetData, DataSize. simpl.
  assert (Ho : 0 <= match s_data s !! key with Some o => Z.of_nat (length o) | None => 0 end)
    by (destruct (s_data s !! key); lia).
  split; [split; [done|split]|split; [|split; [|split]]].
  - intros Hp. specialize (Hfit Hp). lia.
  - intros Hp. destruct (s_data s !! key) as [o|] eqn:Eo.
    + rewrite map_size_insert_Some by eauto. auto.
    + rewrite map_size_insert_None by done. destruct (Hkfit Hp) as [?|[? ?]]; [lia|congruence].
  - done.
  - intros _. split; [by rewrite lookup_insert_eq|].
    rewrite wrapU_id; [lia|]. unfold in_u in *. lia.
  - done.
  - intros k Hne. by rewrite lookup_insert_ne.
Qed.

Definition small_scope : BaseScope := NewBaseScope "s" "scope" 0 (mkScopeConfig 10 8 2).
Definition full_scope : BaseScope := (SetData small_scope "k" (replicate 6 x41)).1.

Lemma small_scope_inv : scope_data_inv small_scope.
Proof. split; [reflexivity|]. split; intros _; simpl; vm_compute; discriminate. Qed.

(** Replacing a value by one of the same size is refused when the scope is
    more than half full: the test adds the new size without deducting the old. *)
Lemma SetData_correct_witness :
  scope_data_inv full_scope /\
  (SetData full_scope "k" (replicate 6 x42)).2 = Some (Sentinel ErrMaxDataSizeExceeded).
Proof.
  split; [|reflexivity].
  pose proof (SetData_correct small_scope "k" (replicate 6 x41) small_scope_inv) as H.
  unfold full_scope. destruct (SetData small_scope "k" (replicate 6 x41)) as [s' e].
  apply H; [split; [discriminate|reflexivity]|reflexivity].
Defined.

(** [DeleteData] removes exactly the key and gives its bytes back, and after
    deleting every key that was set the recorded size is what it was. *)
Theorem DeleteData_correct s key :
  scope_data_inv s -> data_bytes (s_data s) < 2 ^ 64 ->
  let '(s', e) := DeleteData s key in
  e = None /\ scope_data_inv s' /\ GetData s' key = None /\
  DataSize s' = DataSize s - match GetData s key with Some o => Z.of_nat (length o) | None => 0 end /\
  (forall k, k <> key -> GetData s' k = GetData s k).
Proof.
  intros (Hs & Hmax & Hkeys) Hb. pose proof (data_bytes_nonneg (s_data s)) as Hnn.
  unfold DeleteData, GetData, DataSize. destruct (s_data s !! key) as [o|] eqn:Eo; simpl.
  - pose proof (data_bytes_delete _ _ _ Eo) as Hd. pose proof (data_bytes_nonneg (delete key (s_data s))).
    assert (E : wrapU 64 (s_dataSize s + complement_minus_1 (Z.of_nat (length o))) =
                data_bytes (delete key (s_data s))).
    { rewrite complement_subtracts, Hs. unfold Z.sub. rewrite wrapU_add_l by lia.
      rewrite Hd, wrapU_id by (unfold in_u; lia). lia. }
    rewrite E. unfold scope_data_inv. simpl. rewrite lookup_delete_eq, map_size_delete_Some by eauto.
    split; [done|]. split; [split; [rewrite wrapU_id; [done|unfold in_u; lia]|split]|split; [done|split]].
    + intros Hp. specialize (Hmax Hp). lia.
    + intros Hp. specialize (Hkeys Hp). lia.
    + rewrite Hs, wrapU_id; unfold in_u; lia.
    + intros k Hne. by rewrite lookup_delete_ne.
  - split; [done|]. split; [by split|]. split; [done|]. split; [lia|done].
Qed.

Lemma DeleteData_correct_witness : DataSize (DeleteData full_scope "k").1 = 0.
Proof.
  pose proof (DeleteData_correct full_scope "k") as H.
  destruct (DeleteData full_scope "k") as [s' e].
  destruct H as (_ & _ & _ & H & _); [apply SetData_correct_witness|reflexivity|].
  cbn [fst]. rewrite H. vm_compute. reflexivity.
Defined.

(** ** Concurrent joins and leaves

    [AddClient] and [RemoveClient] are sequences of atomic operations, with no
    lock around them. A goroutine is the call it runs and how far it got. *)
Module Interleaved.

Inductive pc : Type :=
  | AddCheckClosed (c : ClientID)     (* atomic.LoadInt32(&g.closed) *)
  | AddCheckLimit (c : ClientID)      (* atomic.LoadInt64(&g.clientCount) *)
  | AddStore (c : ClientID)           (* clients.LoadOrStore *)
  | AddCount                          (* atomic.AddInt64(&g.clientCount, 1) *)
  | RemoveDelete (c : ClientID)       (* clients.LoadAndDelete *)
  | RemoveCount                       (* atomic.AddInt64(&g.clientCount, -1) *)
  | Returned (e : option sentinel).

Record state : Type := mkState {
  closed : bool; max : Z; clients : gset ClientID; clientCount : Z; threads : list pc
}.

(** The shared state and next position after one atomic operation. *)
Definition atom (st : state) (p : pc) : gset ClientID * Z * pc :=
  match p with
  | AddCheckClosed c =>
      (clients st, clientCount st, if closed st then Returned (Some ErrGroupClosed) else AddCheckLimit c)
  | AddCheckLimit c =>
      (clients st, clientCount st,
       if (0 <? max st) && (max st <=? clientCount st) then Returned (Some ErrMaxClientsExceeded)
       else AddStore c)
  | AddStore c =>
      if decide (c ∈ clients st) then (clients st, clientCount st, Returned None)
      else ({[c]} ∪ clients st, clientCount st, AddCount)
  | AddCount => (clients st, clientCount st + 1, Returned None)
  | RemoveDelete c =>
      if decide (c ∈ clients st) then (clients st ∖ {[c]}, clientCount st, RemoveCount)
      else (clients st, clientCount st, Returned None)
  | RemoveCount => (clients st, clientCount st - 1, Returned None)
  | Returned e => (clients st, clientCount st, Returned e)
  end.

Definition run (st : state) (i : nat) : state :=
  match threads st !! i with
  | None => st
  | Some p =>
      let '(cs, n, p') := atom st p in
      mkState (closed st) (max st) cs n (<[i := p']> (threads st))
  end.

(** Any interleaving: the schedule names the goroutine that moves. *)
Definition run_all (st : state) (schedule : list nat) : state := foldl run st schedule.

Definition is_store (p : pc) : bool := match p with AddStore _ => true | _ => false end.
Definition is_count (p : pc) : bool := match p with AddCount => true | _ => false end.
Definition is_uncount (p : pc) : bool := match p with RemoveCount => true | _ => false end.
Definition is_returned (p : pc) : bool := match p with Returned _ => true | _ => false end.

(** The counter lags behind the set by the updates still to come, and the set
    exceeds a positive limit by less than the number of goroutines. *)
Definition inv (st : state) : Prop :=
  clientCount st = Z.of_nat (size (clients st)) - cnt is_count (threads st) + cnt is_uncount (threads st) /\
  (0 < max st -> Z.of_nat (size (clients st)) + cnt is_store (threads st)
                 <= max st + Z.of_nat (length (threads st)) - 1).

Lemma run_inv st i : inv st -> inv (run st i).
Proof.
  intros [Hc Hb]. unfold run. destruct (threads st !! i) as [p|] eqn:Hp; [|done].
  pose proof (cnt_insert is_store (threads st) i p) as Es.
  pose proof (cnt_insert is_count (threads st) i p) as Ec.
  pose proof (cnt_insert is_uncount (threads st) i p) as Eu.
  pose proof (cnt_two is_store is_count (threads st) i p ltac:(by intros []) Hp) as H2.
  pose proof (cnt_nonneg is_uncount (threads st)).
  destruct p as [c|c|c| |c| |e]; simpl in H2 |- *; unfold inv;
    repeat case_match; simplify_eq/=; rewrite Es, Ec, Eu by done; simpl;
    rewrite ?length_insert, ?size_insert_new, ?size_remove, ?decide_False, ?decide_True by done;
    try (split; [lia|intros Hm; specialize (Hb Hm); lia]).
Qed.

Definition start (closed : bool) (max : Z) (ts : list pc) : state := mkState closed max ∅ 0 ts.

(** Calls that have not begun. *)
Definition is_call (p : pc) : bool :=
  match p with AddCheckClosed _ | RemoveDelete _ => true | _ => false end.

(** C38: Concurrent joins and leaves, whatever the interleaving of their atomic
    operations: once all calls have returned the counter is the number of
    members again, and throughout the members exceed a positive limit by less
    than the number of goroutines. *)
Theorem concurrent_membership closed max ts schedule :
  ts <> [] -> forallb is_call ts = true ->
  let st := run_all (start closed max ts) schedule in
  (forallb is_returned (threads st) = true -> clientCount st = Z.of_nat (size (clients st))) /\
  (0 < max -> Z.of_nat (size (clients st)) <= max + Z.of_nat (length ts) - 1).
Proof.
  intros Hne Hcall st.
  assert (Hz : forall P, (forall p, is_call p = true -> P p = false) -> cnt P ts = 0).
  { intros P HP. clear -Hcall HP. induction ts as [|p ts IH]; [done|]. simpl in *.
    apply andb_true_iff in Hcall as [H1 H2]. rewrite HP by done. by apply IH. }
  assert (Hstart : inv (start closed max ts)).
  { unfold start, inv. cbn [clientCount clients threads Interleaved.max].
    rewrite !Hz by (by intros []). rewrite size_empty. split; [done|].
    intros Hm. destruct ts; [done|]. simpl. lia. }
  assert (Hrun : forall sch st0, inv st0 -> inv (run_all st0 sch) /\
      Interleaved.max (run_all st0 sch) = Interleaved.max st0 /\
      length (threads (run_all st0 sch)) = length (threads st0)).
  { induction sch as [|i sch IH]; intros st0 H0; [done|]. cbn [run_all foldl].
    destruct (IH (run st0 i) (run_inv st0 i H0)) as (? & Hm & Hl). split; [done|].
    unfold run_all in *. rewrite Hm, Hl. unfold run. destruct (threads st0 !! i); [|done].
    destruct (atom st0 p) as [[cs n] p']. simpl. by rewrite length_insert. }
  destruct (Hrun schedule _ Hstart) as ([Hc Hb] & Hm & Hl). fold st in Hc, Hb, Hm, Hl.
  simpl in Hm, Hl. split.
  - intros Hret. rewrite Hc.
    assert (Hz' : forall P, (forall e, P (Returned e) = false) -> cnt P (threads st) = 0).
    { intros P HP. revert Hret. generalize (threads st). induction l as [|p l IH]; [done|]. simpl.
      intros [H1 H2]%andb_true_iff. destruct p; try done. rewrite HP. by apply IH. }
    rewrite !Hz' by done. lia.
  - intros Hpos. rewrite Hm in Hb. specialize (Hb Hpos). rewrite Hl in Hb.
    pose proof (cnt_nonneg is_store (threads st)). lia.
Qed.

(** Two goroutines join a group that holds one client at most: both get in. *)
Lemma concurrent_membership_witness :
  let st := run_all (start false 1 [AddCheckClosed "a"; AddCheckClosed "b"]) [0; 1; 0; 1; 0; 1; 0; 1]%nat in
  clientCount st = Z.of_nat (size (clients st)) /\ clientCount st = 2.
Proof.
  split; [|reflexivity].
  apply (concurrent_membership false 1 [AddCheckClosed "a"; AddCheckClosed "b"]); [discriminate|reflexivity|reflexivity].
Defined.
End Interleaved.
