(* ===== verification/CycleChannel.v ===== *)
(** * The circular channel ([internal/core/syncv2/vars/channel.go], [CycleChannel])

    A ring buffer with 32-bit positions that drops the oldest item when it is
    full. The ring refines a bounded queue as long as the positions do not
    wrap around, or when the size divides 2^32; past that point it loses
    items. *)
From S2P Require Import Prelude.
From Stdlib Require Import ZArith Lia.
From stdpp Require Import base list.
Open Scope Z_scope.

Section Cycle.
Context {T : Type} {inh : Inhabited T}.

Record CycleChannel : Type := mkCycle {
  buffer : list T;
  size : Z;        (* uint32 *)
  head : Z;        (* uint32 *)
  tail : Z;        (* uint32 *)
  count : Z;       (* int32 *)
  version : Z;     (* uint64 *)
  dirty : bool;
  closed : bool;
  current : T
}.

(** Unlike the other channels the version starts at 0. *)
Definition NewCycleChannel (bufferSize : Z) (initialValue : T) : CycleChannel :=
  let bufferSize := if bufferSize <=? 0 then 1 else bufferSize in
  mkCycle (replicate (Z.to_nat bufferSize) inhabitant) (wrapU 32 bufferSize) 0 0 0 0 false false
    initialValue.

Definition Get (c : CycleChannel) : T := current c.

Definition Set_ (value : T) (c : CycleChannel) : CycleChannel :=
  mkCycle (buffer c) (size c) (head c) (tail c) (count c) (wrapU 64 (version c + 1)) true
    (closed c) value.

Definition Send (value : T) (c : CycleChannel) : CycleChannel * bool :=
  if closed c then (c, false)
  else
    let headPos := head c mod size c in
    let buffer' := <[Z.to_nat headPos := value]> (buffer c) in
    let head' := wrapU 32 (head c + 1) in
    let currentCount := wrapS 32 (count c + 1) in
    let '(tail', count') :=
      if wrapS 32 (size c) <? currentCount
      then (wrapU 32 (tail c + 1), wrapS 32 (size c))
      else (tail c, currentCount) in
    (mkCycle buffer' (size c) head' tail' count' (wrapU 64 (version c + 1)) true (closed c) value,
     true).

Definition SendBlocking (value : T) (c : CycleChannel) : CycleChannel := (Send value c).1.

(** The element at an index of the buffer. *)
Definition at_ (c : CycleChannel) (pos : Z) : T := buffer c !!! Z.to_nat pos.

Definition Receive (c : CycleChannel) : CycleChannel * option T :=
  if count c =? 0 then (c, None)
  else
    let tailPos := tail c mod size c in
    let value := at_ c tailPos in
    (mkCycle (buffer c) (size c) (head c) (wrapU 32 (tail c + 1)) (wrapS 32 (count c - 1))
       (version c) (dirty c) (closed c) value, Some value).

(** [None] when the call waits; on a closed empty channel the zero value. *)
Definition ReceiveBlocking (c : CycleChannel) : option (CycleChannel * T) :=
  if (count c =? 0) && negb (closed c) then None
  else if count c =? 0 then Some (c, inhabitant)
  else
    let tailPos := tail c mod size c in
    let value := at_ c tailPos in
    Some (mkCycle (buffer c) (size c) (head c) (wrapU 32 (tail c + 1)) (wrapS 32 (count c - 1))
            (version c) (dirty c) (closed c) value, value).

Definition BufferSize (c : CycleChannel) : Z := size c.
Definition Version (c : CycleChannel) : Z := version c.
Definition IsDirty (c : CycleChannel) : bool := dirty c.
Definition MarkClean (c : CycleChannel) : CycleChannel :=
  mkCycle (buffer c) (size c) (head c) (tail c) (count c) (version c) false (closed c) (current c).
Definition Close (c : CycleChannel) : CycleChannel :=
  mkCycle (buffer c) (size c) (head c) (tail c) (count c) (version c) (dirty c) true (current c).

(** The [n] items from position [t] on. *)
Definition read_from (c : CycleChannel) (t : Z) (n : nat) : list T :=
  map (fun i => at_ c (wrapU 32 (t + Z.of_nat i) mod size c)) (seq 0 n).

Inductive resize_error : Type := SizeNotPositive | ChannelClosed.

Definition SetBufferSize (n : Z) (c : CycleChannel) : CycleChannel * option resize_error :=
  if n <=? 0 then (c, Some SizeNotPositive)
  else if closed c then (c, Some ChannelClosed)
  else
    let currentCount := count c in
    let '(preserveCount, tail') :=
      if wrapS 32 n <? currentCount
      then (wrapS 32 n, wrapU 32 (tail c + wrapU 32 (currentCount - wrapS 32 n)))
      else (currentCount, tail c) in
    let copied := read_from c tail' (Z.to_nat preserveCount) in
    let newBuffer := copied ++ replicate (Z.to_nat n - length copied) inhabitant in
    (mkCycle newBuffer (wrapU 32 n) (wrapU 32 preserveCount) 0 preserveCount
       (wrapU 64 (version c + 1)) true (closed c) (current c), None).

Definition Peek (c : CycleChannel) : option T :=
  if count c =? 0 then None else Some (at_ c (tail c mod size c)).

Definition DrainAll (c : CycleChannel) : CycleChannel * list T :=
  if count c =? 0 then (c, [])
  else
    (mkCycle (buffer c) (size c) 0 0 0 (wrapU 64 (version c + 1)) true (closed c) (current c),
     read_from c (tail c) (Z.to_nat (count c))).

(** ** Abstraction: the queue of items held *)
Definition items (c : CycleChannel) : list T := read_from c (tail c) (Z.to_nat (count c)).

Record ring_inv (c : CycleChannel) : Prop := mk_ring_inv {
  inv_size : 0 < size c < 2 ^ 31 - 1;
  inv_buffer : Z.of_nat (length (buffer c)) = size c;
  inv_tail : in_u 32 (tail c);
  inv_count : 0 <= count c <= size c;
  inv_head : head c = wrapU 32 (tail c + count c)
}.

(** The positions used next do not wrap, or wrapping is harmless. *)
Definition no_wrap (c : CycleChannel) : Prop :=
  2 ^ 32 mod size c = 0 \/ tail c + size c < 2 ^ 32.

(** The bounded queue: at most [n] items, the most recent ones. *)
Definition last_n (n : nat) (l : list T) : list T := drop (length l - n) l.

Lemma wrap_mod s z : 0 < s -> 2 ^ 32 mod s = 0 -> wrapU 32 z mod s = z mod s.
Proof.
  intros Hs H. unfold wrapU. apply Z.mod_divide in H as [k Hk]; [|lia].
  rewrite Hk. rewrite Z.mul_comm. rewrite Z.rem_mul_r by nia.
  rewrite Z.mul_comm, Z.mod_add by lia. by apply Z.mod_mod; lia.
Qed.

Lemma pos_eq c i : ring_inv c -> no_wrap c -> 0 <= i <= size c ->
  (i < size c \/ 2 ^ 32 mod size c = 0 \/ tail c + size c < 2 ^ 32) ->
  wrapU 32 (tail c + i) mod size c = (tail c + i) mod size c.
Proof.
  intros [? ? Ht ? ?] Hw Hi _. destruct Hw as [Hd|Hlt]; [apply wrap_mod; [lia|done]|].
  rewrite wrapU_id; [done|]. unfold in_u in *. lia.
Qed.

Lemma length_read_from c t n : length (read_from c t n) = n.
Proof. unfold read_from. by rewrite length_map, length_seq. Qed.

Lemma read_from_lookup c t n i : (i < n)%nat ->
  read_from c t n !! i = Some (at_ c (wrapU 32 (t + Z.of_nat i) mod size c)).
Proof. intros Hi. unfold read_from. rewrite list_lookup_fmap, lookup_seq_lt by done. done. Qed.

(** Reading a buffer whose positions do not collide with a write. *)
Lemma mod_neq s a b : 0 < s -> a < b < a + s -> a mod s <> b mod s.
Proof.
  intros Hs Hab E. assert (H : (b - a) mod s = 0).
  { rewrite Zminus_mod, E, Z.sub_diag. apply Z.mod_0_l. lia. }
  rewrite Z.mod_small in H by lia. lia.
Qed.

Lemma items_lookup c i : ring_inv c -> no_wrap c -> (i < Z.to_nat (count c))%nat ->
  items c !! i = Some (at_ c ((tail c + Z.of_nat i) mod size c)).
Proof.
  intros Hi Hw Hlt. unfold items. rewrite read_from_lookup by done. do 2 f_equal.
  pose proof (inv_count c Hi). apply pos_eq; [done|done|lia|left; lia].
Qed.

Lemma length_items c : length (items c) = Z.to_nat (count c).
Proof. apply length_read_from. Qed.

Lemma at_insert_eq buf k (v : T) : (k < length buf)%nat -> <[k := v]> buf !!! k = v.
Proof. intros. by apply list_lookup_total_insert_eq. Qed.

Lemma mod_lt_length c z : ring_inv c -> (Z.to_nat (z mod size c) < length (buffer c))%nat.
Proof.
  intros [? ? ? ? ?]. pose proof (Z.mod_pos_bound z (size c)). lia.
Qed.

(** What [Send] leaves at the positions of the ring. *)
Lemma at_after_write c v a b : ring_inv c -> a <= b < a + size c + 1 ->
  <[Z.to_nat (b mod size c) := v]> (buffer c) !!! Z.to_nat (a mod size c) =
  if decide (a = b \/ b = a + size c) then v else at_ c (a mod size c).
Proof.
  intros Hi Hab. pose proof (inv_size c Hi). pose proof (mod_lt_length c b Hi).
  case_decide as Hd.
  - assert (E : a mod size c = b mod size c).
    { destruct Hd as [->| ->]; [done|]. rewrite <- (Z.mul_1_l (size c)) at 2.
      by rewrite Z.mod_add by lia. }
    rewrite E. by apply at_insert_eq.
  - assert (a mod size c <> b mod size c) by (apply mod_neq; lia).
    pose proof (Z.mod_pos_bound a (size c)). pose proof (Z.mod_pos_bound b (size c)).
    unfold at_. rewrite list_lookup_total_insert_ne; [done|]. lia.
Qed.

Lemma head_pos c : ring_inv c -> no_wrap c -> head c mod size c = (tail c + count c) mod size c.
Proof.
  intros Hi Hw. rewrite (inv_head c Hi). pose proof (inv_count c Hi). pose proof (inv_size c Hi).
  apply pos_eq; [done|done|lia|]. destruct Hw; auto.
Qed.

Lemma Send_items c v : ring_inv c -> no_wrap c -> closed c = false ->
  let '(c', ok) := Send v c in
  ok = true /\ ring_inv c' /\ items c' = last_n (Z.to_nat (size c)) (items c ++ [v]) /\
  size c' = size c /\ current c' = v /\ closed c' = false /\ version c' = wrapU 64 (version c + 1).
Proof.
  intros Hi Hw Hc. pose proof Hi as [Hs Hb Ht Hn Hh]. unfold Send. rewrite Hc.
  rewrite head_pos by done. rewrite (wrapS_id 32 (size c)) by (unfold in_s; simpl; lia).
  rewrite (wrapS_id 32 (count c + 1)) by (unfold in_s; simpl; lia).
  destruct (Z.ltb_spec (size c) (count c + 1)) as [Hfull|Hroom].
  - assert (count c = size c) as Hcs by lia. split; [done|].
    set (c' := mkCycle _ _ _ _ _ _ _ _ _).
    assert (Hi' : ring_inv c').
    { split; simpl; [lia|by rewrite length_insert|by apply wrapU_range|lia|].
      rewrite Hh, Hcs, !wrapU_add_l by lia. f_equal. lia. }
    split; [done|]. split; [|done]. apply list_eq. intros i. unfold last_n.
    rewrite lookup_drop, length_app, length_items. simpl.
    replace (Z.to_nat (count c) + 1 - Z.to_nat (size c) + i)%nat with (S i) by lia.
    destruct (decide (i < Z.to_nat (size c))%nat) as [Hlt|Hge].
    + unfold items at 1. rewrite read_from_lookup by done. simpl.
      rewrite wrapU_add_l by lia. rewrite <- Z.add_assoc.
      rewrite pos_eq; [|done|done|lia|destruct Hw; auto].
      unfold at_. simpl. rewrite at_after_write by (done || lia).
      destruct (decide (i = Z.to_nat (size c) - 1)%nat) as [Hlast|Hlast].
      * rewrite decide_True by lia. rewrite lookup_app_r by (rewrite length_items; lia).
        rewrite length_items. replace (S i - Z.to_nat (count c))%nat with 0%nat by lia. done.
      * rewrite decide_False by lia. rewrite lookup_app_l by (rewrite length_items; lia).
        rewrite items_lookup by (done || lia). do 3 f_equal. lia.
    + rewrite !lookup_ge_None_2; [done| |].
      * rewrite length_app, length_items. simpl. lia.
      * rewrite length_items. simpl. lia.
  - split; [done|]. set (c' := mkCycle _ _ _ _ _ _ _ _ _).
    assert (Hi' : ring_inv c').
    { split; simpl; [lia|by rewrite length_insert|done|lia|].
      rewrite Hh, wrapU_add_l by lia. f_equal. lia. }
    split; [done|]. split; [|done]. unfold last_n.
    rewrite length_app, length_items. simpl.
    replace (Z.to_nat (count c) + 1 - Z.to_nat (size c))%nat with 0%nat by lia. rewrite drop_0.
    apply list_eq. intros i. destruct (decide (i < Z.to_nat (count c + 1))%nat) as [Hlt|Hge].
    + unfold items at 1. rewrite read_from_lookup by done. simpl.
      rewrite pos_eq; [|done|done|lia|left; lia].
      unfold at_. simpl. rewrite at_after_write by (done || lia).
      destruct (decide (i = Z.to_nat (count c))) as [Hlast|Hlast].
      * rewrite decide_True by lia. rewrite lookup_app_r by (rewrite length_items; lia).
        rewrite length_items. replace (i - Z.to_nat (count c))%nat with 0%nat by lia. done.
      * rewrite decide_False by lia. rewrite lookup_app_l by (rewrite length_items; lia).
        rewrite items_lookup by (done || lia). done.
    + rewrite !lookup_ge_None_2; [done| |].
      * rewrite length_app, length_items. simpl. lia.
      * rewrite length_items. simpl. lia.
Qed.

Lemma Receive_items c : ring_inv c -> no_wrap c ->
  let '(c', r) := Receive c in
  ring_inv c' /\ size c' = size c /\ closed c' = closed c /\
  match items c with
  | [] => r = None /\ c' = c
  | v :: q => r = Some v /\ items c' = q /\ current c' = v
  end.
Proof.
  intros Hi Hw. pose proof Hi as [Hs Hb Ht Hn Hh]. unfold Receive.
  destruct (Z.eqb_spec (count c) 0) as [H0|H0].
  - split; [done|]. split; [done|]. split; [done|].
    assert (E : items c = []) by (apply length_zero_iff_nil; rewrite length_items; lia). by rewrite E.
  - rewrite (wrapS_id 32 (count c - 1)) by (unfold in_s; simpl; lia).
    set (c' := mkCycle _ _ _ _ _ _ _ _ _).
    assert (Hi' : ring_inv c').
    { split; simpl; [lia|done|by apply wrapU_range|lia|].
      rewrite Hh, wrapU_add_l by lia. f_equal. lia. }
    split; [done|]. split; [done|]. split; [done|].
    pose proof (items_lookup c 0 Hi Hw ltac:(lia)) as Hhd.
    destruct (items c) as [|v q] eqn:Eq; [done|]. simpl in Hhd. rewrite Z.add_0_r in Hhd.
    injection Hhd as ->. split; [done|]. split; [|done]. apply list_eq. intros i.
    assert (Hlen : S (length q) = Z.to_nat (count c)) by (rewrite <- length_items, Eq; done).
    destruct (decide (i < length q)%nat) as [Hlt|Hge].
    + unfold items. rewrite read_from_lookup by (simpl; lia). simpl.
      rewrite wrapU_add_l by lia. rewrite <- Z.add_assoc.
      rewrite pos_eq; [|done|done|lia|left; lia].
      pose proof (items_lookup c (S i) Hi Hw ltac:(lia)) as Hi1. rewrite Eq in Hi1.
      change ((at_ c (tail c mod size c) :: q) !! S i) with (q !! i) in Hi1.
      rewrite Hi1. unfold at_. simpl buffer.
      replace (1 + Z.of_nat i) with (Z.of_nat (S i)) by lia. done.
    + rewrite !lookup_ge_None_2; [done|lia|]. rewrite length_items. simpl. lia.
Qed.

(** ** Refinement of a bounded queue *)
Inductive op : Type := OSend (v : T) | OReceive | OPeek.
Inductive answer : Type := ASent (ok : bool) | AGot (v : option T).

Definition run_op (c : CycleChannel) (o : op) : CycleChannel * answer :=
  match o with
  | OSend v => let '(c, ok) := Send v c in (c, ASent ok)
  | OReceive => let '(c, r) := Receive c in (c, AGot r)
  | OPeek => (c, AGot (Peek c))
  end.

(** The specification: a list, oldest first, that forgets the oldest items. *)
Definition spec_op (n : nat) (q : list T) (o : op) : list T * answer :=
  match o with
  | OSend v => (last_n n (q ++ [v]), ASent true)
  | OReceive => match q with [] => ([], AGot None) | v :: q => (q, AGot (Some v)) end
  | OPeek => (q, AGot (hd_error q))
  end.

Fixpoint run_ops (c : CycleChannel) (os : list op) : CycleChannel * list answer :=
  match os with
  | [] => (c, [])
  | o :: os => let '(c, a) := run_op c o in let '(c, l) := run_ops c os in (c, a :: l)
  end.
Fixpoint spec_ops (n : nat) (q : list T) (os : list op) : list T * list answer :=
  match os with
  | [] => (q, [])
  | o :: os => let '(q, a) := spec_op n q o in let '(q, l) := spec_ops n q os in (q, a :: l)
  end.

Lemma Peek_items c : ring_inv c -> no_wrap c -> Peek c = hd_error (items c).
Proof.
  intros Hi Hw. unfold Peek. pose proof (inv_count c Hi). destruct (Z.eqb_spec (count c) 0) as [H0|H0].
  - assert (E : items c = []) by (apply length_zero_iff_nil; rewrite length_items; lia). by rewrite E.
  - pose proof (items_lookup c 0 Hi Hw ltac:(lia)) as Hhd. destruct (items c); [done|].
    simpl in *. rewrite Z.add_0_r in Hhd. congruence.
Qed.

Lemma run_op_tail c o : ring_inv c -> tail (run_op c o).1 <= tail c + 1.
Proof.
  intros [_ _ Ht _ _]. assert (H : wrapU 32 (tail c + 1) <= tail c + 1).
  { apply Z.mod_le; unfold in_u in Ht; lia. }
  destruct o as [v| |]; simpl; [unfold Send|unfold Receive|lia].
  - destruct (closed c); [simpl; lia|]. destruct (_ <? _); simpl; lia.
  - destruct (count c =? 0); simpl; lia.
Qed.

(** C22: The ring implements a bounded queue: from any well-formed open ring, as
    long as the positions cannot wrap around (or the size divides 2^32), every
    sequence of sends, receives and peeks gives exactly the answers of a list
    that keeps the [size] most recent items, oldest first. *)
Theorem cycle_refines_queue os : forall c,
  ring_inv c -> closed c = false ->
  2 ^ 32 mod size c = 0 \/ tail c + Z.of_nat (length os) + size c < 2 ^ 32 ->
  let '(c', l) := run_ops c os in
  ring_inv c' /\ spec_ops (Z.to_nat (size c)) (items c) os = (items c', l).
Proof.
  induction os as [|o os IH]; intros c Hi Hc Hb; [done|].
  assert (Hw : no_wrap c) by (destruct Hb; [by left|right; simpl in *; lia]).
  pose proof (run_op_tail c o Hi) as Ht. cbn [run_ops spec_ops].
  assert (Hstep : ring_inv (run_op c o).1 /\ size (run_op c o).1 = size c /\
    closed (run_op c o).1 = false /\
    spec_op (Z.to_nat (size c)) (items c) o = (items (run_op c o).1, (run_op c o).2)).
  { destruct o as [v| |]; cbn [run_op spec_op].
    - pose proof (Send_items c v Hi Hw Hc) as H. destruct (Send v c) as [c' ok].
      destruct H as (-> & ? & E & ? & _ & ? & _). simpl. by rewrite E.
    - pose proof (Receive_items c Hi Hw) as H. destruct (Receive c) as [c' r].
      destruct H as (? & ? & Hc' & H). simpl. rewrite Hc' , Hc.
      destruct (items c) eqn:Eq; [destruct H as [-> ->]|destruct H as (-> & -> & _)]; by rewrite ?Eq.
    - simpl. by rewrite Peek_items. }
  destruct (run_op c o) as [c1 a]. simpl in Hstep, Ht. destruct Hstep as (Hi1 & Hs1 & Hc1 & E).
  rewrite E. specialize (IH c1 Hi1 Hc1). rewrite Hs1 in IH.
  destruct (run_ops c1 os) as [c2 l]. destruct IH as [Hi2 E2]; [|by rewrite E2].
  destruct Hb; [by left|right]. simpl in *. lia.
Qed.

(** Resizing keeps the most recent items: [SetBufferSize] to a positive size
    on an open ring keeps the last [n] items in order and a well-formed ring;
    a size that is not positive, or a closed ring, changes nothing. *)
Theorem SetBufferSize_correct n c :
  ring_inv c -> no_wrap c -> n < 2 ^ 31 - 1 ->
  let '(c', e) := SetBufferSize n c in
  (e = None <-> 0 < n /\ closed c = false) /\
  (e <> None -> c' = c) /\
  (e = None -> ring_inv c' /\ size c' = n /\ items c' = last_n (Z.to_nat n) (items c) /\
     version c' = wrapU 64 (version c + 1)).
Proof.
  intros Hi Hw Hn. pose proof Hi as [Hs Hb Ht Hcnt Hh]. unfold SetBufferSize.
  destruct (Z.leb_spec n 0); [split; [split; [done|lia]|done]|].
  destruct (closed c) eqn:Hc; [split; [split; [done|intros [_ ?]; done]|done]|].
  rewrite (wrapS_id 32 n) by (unfold in_s; simpl; lia).
  set (k := Z.min n (count c)).
  set (t := if n <? count c then wrapU 32 (tail c + (count c - n)) else tail c).
  assert (E : (if n <? count c then (n, wrapU 32 (tail c + wrapU 32 (count c - n)))
               else (count c, tail c)) = (k, t)).
  { unfold k, t. destruct (Z.ltb_spec n (count c)); [|f_equal; lia].
    rewrite wrapU_add_r by lia. f_equal. lia. }
  rewrite E. split; [by split|]. split; [done|]. intros _.
  assert (Hk : 0 <= k <= n /\ k <= count c) by lia.
  assert (Hcopy : read_from c t (Z.to_nat k) = last_n (Z.to_nat n) (items c)).
  { apply list_eq. intros i. unfold last_n. rewrite lookup_drop, length_items.
    destruct (decide (i < Z.to_nat k)%nat) as [Hlt|Hge].
    - rewrite read_from_lookup by done. rewrite items_lookup by (done || lia). do 2 f_equal.
      unfold t. destruct (Z.ltb_spec n (count c)).
      + rewrite wrapU_add_l, <- Z.add_assoc by lia. rewrite pos_eq; [f_equal; lia|done|done|lia|left; lia].
      + rewrite pos_eq; [f_equal; lia|done|done|lia|left; lia].
    - rewrite !lookup_ge_None_2; [done| |rewrite length_read_from; lia].
      rewrite length_items. lia. }
  rewrite (wrapU_id 32 n) by (unfold in_u; lia).
  set (c' := mkCycle _ _ _ _ _ _ _ _ _).
  assert (Hlen : length (buffer c') = Z.to_nat n).
  { simpl. rewrite length_app, length_replicate, length_read_from. lia. }
  assert (Hi' : ring_inv c').
  { split; [simpl; lia|rewrite Hlen; simpl; lia|unfold in_u; simpl; lia|simpl; lia|done]. }
  split; [done|]. split; [done|]. split; [|done].
  rewrite <- Hcopy. apply list_eq. intros i.
  destruct (decide (i < Z.to_nat k)%nat) as [Hlt|Hge].
  - assert (Hw' : no_wrap c') by (right; simpl; lia).
    rewrite (items_lookup c' i Hi' Hw') by done. simpl tail. rewrite Z.add_0_l.
    rewrite Z.mod_small by (simpl; lia). unfold at_. rewrite Nat2Z.id. simpl buffer.
    rewrite list_lookup_total_alt, lookup_app_l by (by rewrite length_read_from).
    by rewrite read_from_lookup.
  - rewrite !lookup_ge_None_2; [done|rewrite length_read_from; lia|].
    rewrite length_items. simpl. lia.
Qed.

(** [DrainAll] returns every item, oldest first, and empties the ring. *)
Theorem DrainAll_correct c :
  ring_inv c -> no_wrap c ->
  let '(c', l) := DrainAll c in
  l = items c /\ ring_inv c' /\ items c' = [] /\ (l <> [] -> version c' = wrapU 64 (version c + 1)).
Proof.
  intros Hi Hw. unfold DrainAll. destruct (Z.eqb_spec (count c) 0) as [H0|H0].
  - assert (E : items c = []) by (apply length_zero_iff_nil; rewrite length_items; lia). by rewrite E.
  - split; [done|]. split; [|done]. destruct Hi. split; simpl; try done; lia.
Qed.

Lemma NewCycleChannel_inv n v : n < 2 ^ 31 - 1 ->
  ring_inv (NewCycleChannel n v) /\ items (NewCycleChannel n v) = [] /\
  size (NewCycleChannel n v) = Z.max 1 n.
Proof.
  intros Hn. unfold NewCycleChannel. set (m := if n <=? 0 then 1 else n).
  assert (Hm : m = Z.max 1 n) by (unfold m; destruct (Z.leb_spec n 0); lia).
  rewrite (wrapU_id 32 m) by (unfold in_u; lia).
  split; [|split; [done|simpl; lia]]. split; simpl; try done; rewrite ?length_replicate; lia.
Qed.

(** Rounds of one send and one receive advance both positions together. *)
Lemma rounds n c v : ring_inv c -> count c = 0 -> closed c = false ->
  let c' := Nat.iter n (fun c => (Receive (Send v c).1).1) c in
  ring_inv c' /\ count c' = 0 /\ closed c' = false /\ size c' = size c /\
  tail c' = wrapU 32 (tail c + Z.of_nat n).
Proof.
  intros Hi H0 Hc. induction n as [|n IH]; [cbv zeta; simpl|].
  - rewrite Z.add_0_r, wrapU_id by apply Hi. done.
  - cbv zeta in IH |- *. destruct IH as (IHi & IH0 & IHc & IHs & IHt). rewrite Nat.iter_succ.
    set (d := Nat.iter n _ c) in *. clearbody d. pose proof IHi as [Hs Hb Ht Hn Hh].
    unfold Send. rewrite IHc, IH0. rewrite (wrapS_id 32 (size d)) by (unfold in_s; simpl; lia).
    change (wrapS 32 (0 + 1)) with 1. rewrite (proj2 (Z.ltb_ge _ _)) by lia. simpl.
    unfold Receive. simpl. change (wrapS 32 (1 - 1)) with 0.
    rewrite IHs, IHt, wrapU_add_l by lia. split.
    + split; simpl; [by rewrite <- IHs|by rewrite length_insert, Hb|by apply wrapU_range|lia|].
      rewrite Hh, IH0, IHt, Z.add_0_r, Z.add_0_r, !wrapU_add_l by lia.
      by rewrite wrapU_wrapU by lia.
    + repeat split. f_equal. lia.
Qed.
End Cycle.
Arguments CycleChannel : clear implicits.

(** Past 2^32 operations the ring of size 3 loses items: after 2^32 - 1
    rounds of a send and a receive, two sends of different values are answered
    by two receives of the second value, because the write position wraps from
    2^32 - 1 to 0 and both map to index 0. *)
Theorem cycle_wrap_loses (v a b : Z) :
  exists n, let c := Nat.iter n (fun c => (Receive (Send v c).1).1) (NewCycleChannel 3 v) in
  ring_inv c /\ items c = [] /\
  (run_ops c [OSend a; OSend b; OReceive; OReceive]).2 =
    [ASent true; ASent true; AGot (Some b); AGot (Some b)].
Proof.
  exists (Z.to_nat (2 ^ 32 - 1)).
  destruct (NewCycleChannel_inv 3 v ltac:(lia)) as (Hi & Hit & Hs).
  destruct (rounds (Z.to_nat (2 ^ 32 - 1)) (NewCycleChannel 3 v) v Hi eq_refl eq_refl)
    as (Hi' & H0' & Hc' & Hs' & Ht').
  cbv zeta. set (c := Nat.iter _ _ _) in *. clearbody c. rewrite Z2Nat.id in Ht' by lia.
  change (tail (NewCycleChannel 3 v)) with 0 in Ht'. change (size (NewCycleChannel 3 v)) with 3 in Hs'.
  split; [done|]. split; [apply length_zero_iff_nil; rewrite length_items, H0'; done|].
  destruct Hi' as [_ Hb _ _ Hh]. rewrite Hs' in Hb. destruct c as [buf sz hd tl cn ver di cl cu]. simpl in *. subst.
  change (wrapU 32 (0 + (2 ^ 32 - 1))) with 4294967295.
  destruct buf as [|x [|y [|z [|]]]]; simpl in Hb; try lia. reflexivity.
Qed.

Lemma cycle_refines_queue_witness :
  let os := [OSend 1; OSend 2; OSend 3; OReceive; OPeek; OSend 4; OReceive; OReceive; OReceive] in
  (run_ops (NewCycleChannel 2 0) os).2 = (spec_ops 2 [] os).2 /\
  (spec_ops 2 [] os).2 = [ASent true; ASent true; ASent true; AGot (Some 2); AGot (Some 3);
                          ASent true; AGot (Some 3); AGot (Some 4); AGot None].
Proof.
  intros os. split; [|reflexivity].
  pose proof (cycle_refines_queue os (NewCycleChannel 2 0)) as H.
  destruct (run_ops (NewCycleChannel 2 0) os) as [c' l].
  destruct H as [_ H]; [apply NewCycleChannel_inv; lia|reflexivity|left; reflexivity|].
  change (spec_ops 2 [] os) with (spec_ops (Z.to_nat (size (NewCycleChannel 2 0)))
    (items (NewCycleChannel 2 0)) os). rewrite H. reflexivity.
Defined.

Lemma SetBufferSize_correct_witness :
  let c := (run_ops (NewCycleChannel 3 0) [OSend 1; OSend 2; OSend 3; OSend 4]).1 in
  items (SetBufferSize 2 c).1 = [3; 4].
Proof.
  intros c. pose proof (SetBufferSize_correct 2 c) as H.
  destruct (SetBufferSize 2 c) as [c' e] eqn:E.
  destruct H as (_ & _ & H).
  - split; vm_compute; intuition (congruence || discriminate).
  - right. reflexivity.
  - lia.
  - destruct H as (_ & _ & H & _); [vm_compute in E; by injection E as _ <-|]. simpl. rewrite H. reflexivity.
Defined.

Lemma DrainAll_correct_witness :
  let c := (run_ops (NewCycleChannel 3 0) [OSend 1; OSend 2]).1 in (DrainAll c).2 = [1; 2].
Proof.
  intros c. pose proof (DrainAll_correct c) as H. destruct (DrainAll c) as [c' l].
  destruct H as [H _].
  - split; vm_compute; intuition (congruence || discriminate).
  - right. reflexivity.
  - simpl. rewrite H. reflexivity.
Defined.
