(* ===== verification/Channels.v ===== *)
(** * Channel roots ([internal/core/syncv2/vars/channel.go]): buffered,
    unbuffered, priority and broadcast

    Each is a module with its state and operations. [GoChan] is the Go channel
    the code is built on; sending on a closed channel panics. Operations that
    can wait return [None] for the outcome of waiting. *)
From S2P Require Import Prelude PriorityQueue.
From Stdlib Require Import ZArith Lia.
From stdpp Require Import base list gmap sorting.
Open Scope Z_scope.

(** ** Go channels with a buffer *)
Record GoChan (T : Type) : Type := mkChan { chan_buf : list T; chan_cap : Z; chan_closed : bool }.
Arguments mkChan {T}.
Arguments chan_buf {T}.
Arguments chan_cap {T}.
Arguments chan_closed {T}.

(** [make(chan T, n)]: panics for a negative size. *)
Definition make_chan {T} (n : Z) : outcome (GoChan T) :=
  if n <? 0 then Panic else Done (mkChan [] n false).

(** [select { case ch <- v: default: }] *)
Definition try_send {T} (v : T) (ch : GoChan T) : outcome (GoChan T * bool) :=
  if chan_closed ch then Panic
  else if Z.of_nat (length (chan_buf ch)) <? chan_cap ch
  then Done (mkChan (chan_buf ch ++ [v]) (chan_cap ch) false, true)
  else Done (ch, false).

(** [select { case v := <-ch: default: }]: a closed empty channel is always
    ready and gives the zero value. *)
Definition try_recv {T} (zero : T) (ch : GoChan T) : GoChan T * option T :=
  match chan_buf ch with
  | v :: rest => (mkChan rest (chan_cap ch) (chan_closed ch), Some v)
  | [] => (ch, if chan_closed ch then Some zero else None)
  end.

(** [close(ch)] *)
Definition close_chan {T} (ch : GoChan T) : outcome (GoChan T) :=
  if chan_closed ch then Panic else Done (mkChan (chan_buf ch) (chan_cap ch) true).

(** ** Buffered channels *)
Module Buffered.
Section Buffered.
Context {T : Type} {inh : Inhabited T}.

Record BufferedChannel : Type := mkB {
  ch : GoChan T; current : T; version : Z; dirty : bool; closed : bool
}.

Definition NewBufferedChannel (bufferSize : Z) (initialValue : T) : outcome BufferedChannel :=
  c ← make_chan bufferSize; mret (mkB c initialValue 1 false false).

Definition Get (c : BufferedChannel) : T := current c.

(** The write of [current], the version and the dirty flag. *)
Definition touch (v : T) (c : BufferedChannel) : BufferedChannel :=
  mkB (ch c) v (wrapU 64 (version c + 1)) true (closed c).
Definition set_chan (k : GoChan T) (c : BufferedChannel) : BufferedChannel :=
  mkB k (current c) (version c) (dirty c) (closed c).

(** [Set] does not look at the closed flag. *)
Definition Set_ (value : T) (c : BufferedChannel) : outcome BufferedChannel :=
  let c := touch value c in
  '(k, _) ← try_send value (ch c); mret (set_chan k c).

Definition Send (value : T) (c : BufferedChannel) : outcome (BufferedChannel * bool) :=
  if closed c then mret (c, false)
  else
    '(k, sent) ← try_send value (ch c);
    if (sent : bool) then mret (touch value (set_chan k c), true) else mret (c, false).

Definition Receive (c : BufferedChannel) : BufferedChannel * option T :=
  match try_recv inhabitant (ch c) with
  | (k, Some value) => (mkB k value (version c) (dirty c) (closed c), Some value)
  | (_, None) => (c, None)
  end.

(** [None]: the call waits. *)
Definition SendBlocking (value : T) (c : BufferedChannel) : outcome (option BufferedChannel) :=
  if closed c then mret (Some c)
  else
    '(k, sent) ← try_send value (ch c);
    mret (if (sent : bool) then Some (touch value (set_chan k c)) else None).
Definition ReceiveBlocking (c : BufferedChannel) : option (BufferedChannel * T) :=
  match Receive c with (c, Some v) => Some (c, v) | (_, None) => None end.

Definition BufferSize (c : BufferedChannel) : Z := chan_cap (ch c).

(** The drain loop: [break] leaves the [select], not the loop. *)
Fixpoint drain (vs : list T) (newCh : GoChan T) : outcome (GoChan T) :=
  match vs with
  | [] => mret newCh
  | value :: vs => '(k, _) ← try_send value newCh; drain vs k
  end.

Definition SetBufferSize (size : Z) (c : BufferedChannel) : outcome (BufferedChannel * bool) :=
  if closed c then mret (c, false)
  else
    newCh ← make_chan size;
    old ← close_chan (ch c);
    k ← drain (chan_buf old) newCh;
    mret (set_chan k c, true).

Definition Version (c : BufferedChannel) : Z := version c.
Definition IsDirty (c : BufferedChannel) : bool := dirty c.
Definition MarkClean (c : BufferedChannel) : BufferedChannel :=
  mkB (ch c) (current c) (version c) false (closed c).

Definition Close (c : BufferedChannel) : outcome BufferedChannel :=
  if closed c then mret c
  else k ← close_chan (ch c); mret (mkB k (current c) (version c) (dirty c) true).

(** The flag says whether the Go channel is closed, and the buffer fits. *)
Definition inv (c : BufferedChannel) : Prop :=
  chan_closed (ch c) = closed c /\ Z.of_nat (length (chan_buf (ch c))) <= chan_cap (ch c).

Lemma drain_spec vs k : chan_closed k = false ->
  Z.of_nat (length (chan_buf k)) <= chan_cap k ->
  drain vs k = Done (mkChan (take (Z.to_nat (chan_cap k)) (chan_buf k ++ vs)) (chan_cap k) false).
Proof.
  revert k. induction vs as [|v vs IH]; intros [b n cl] Hc Hl; simpl in *; subst.
  - rewrite app_nil_r, take_ge by lia. done.
  - unfold try_send. simpl. destruct (Z.ltb_spec (Z.of_nat (length b)) n); simpl.
    + rewrite IH; simpl; [|done|rewrite length_app; simpl; lia]. by rewrite <- app_assoc.
    + rewrite IH by done. simpl. rewrite !take_app_le by lia. done.
Qed.

(** Before it is closed, a buffered channel is a first-in first-out queue of
    bounded size: a send is accepted exactly when there is room and goes to the
    back, a receive takes the front, resizing keeps the oldest items that fit,
    and no operation panics. *)
Theorem buffered_fifo (c : BufferedChannel) (v : T) size :
  inv c -> closed c = false -> 0 <= size ->
  (exists c', Send v c = Done (c', bool_decide (Z.of_nat (length (chan_buf (ch c))) < chan_cap (ch c))) /\
     inv c' /\ chan_buf (ch c') =
       if decide (Z.of_nat (length (chan_buf (ch c))) < chan_cap (ch c))
       then chan_buf (ch c) ++ [v] else chan_buf (ch c)) /\
  (let '(c', r) := Receive c in
     inv c' /\ r = hd_error (chan_buf (ch c)) /\ chan_buf (ch c') = tail (chan_buf (ch c))) /\
  (exists c', SetBufferSize size c = Done (c', true) /\ inv c' /\
     chan_buf (ch c') = take (Z.to_nat size) (chan_buf (ch c)) /\ BufferSize c' = size) /\
  (exists c', Set_ v c = Done c' /\ inv c' /\ Get c' = v /\ Version c' = wrapU 64 (version c + 1)).
Proof.
  destruct c as [[b n kc] cur ver d cl]. intros [H1 H2] Hcl Hs. simpl in *. subst.
  split; [|split; [|split]].
  - unfold Send, try_send. simpl. case_decide as Hd.
    + rewrite bool_decide_eq_true_2, (proj2 (Z.ltb_lt _ _)) by done. simpl. eexists. split; [done|].
      split; [split; simpl; [done|rewrite length_app; simpl; lia]|done].
    + rewrite bool_decide_eq_false_2, (proj2 (Z.ltb_ge _ _)) by (done || lia). simpl.
      eexists. split; [done|]. by split.
  - unfold Receive, try_recv. simpl. destruct b as [|x b]; simpl; [by split|].
    split; [split; simpl in *; [done|lia]|done].
  - unfold SetBufferSize, make_chan. simpl. rewrite (proj2 (Z.ltb_ge _ _)) by done.
    unfold mbind, outcome_bind, close_chan. simpl. rewrite drain_spec by done. simpl.
    eexists. split; [done|]. split; [|done]. split; [done|]. simpl. rewrite length_take. lia.
  - unfold Set_, try_send. simpl. destruct (Z.ltb_spec (Z.of_nat (length b)) n); simpl;
      eexists; (split; [done|]); (split; [split; simpl; [done|rewrite ?length_app; simpl; lia]|done]).
Qed.

(** After [Close] the buffered channel misbehaves where the interface does
    not expect it: [Set] panics (a send on a closed channel), and once drained
    [Receive] reports a received zero value and overwrites the current value
    with it, while [Send] and [SetBufferSize] refuse and a second [Close] does
    nothing. *)
Theorem buffered_after_close (c c1 : BufferedChannel) (v : T) size :
  inv c -> closed c = false -> Close c = Done c1 ->
  Set_ v c1 = Panic /\ Send v c1 = Done (c1, false) /\
  SetBufferSize size c1 = Done (c1, false) /\ Close c1 = Done c1 /\
  (chan_buf (ch c) = [] -> (Receive c1).2 = Some inhabitant /\ Get (Receive c1).1 = inhabitant).
Proof.
  destruct c as [[b n kc] cur ver d cl]. intros [H1 H2] Hcl E. simpl in *. subst.
  unfold Close, close_chan in E. simpl in E. injection E as <-.
  do 4 (split; [done|]). intros ->. done.
Qed.
End Buffered.
Arguments BufferedChannel : clear implicits.

Definition sample : BufferedChannel Z := mkB (mkChan [1; 2] 3 false) 2 3 true false.

Lemma buffered_fifo_witness :
  exists c', SetBufferSize 1 sample = Done (c', true) /\ chan_buf (ch c') = [1].
Proof.
  destruct (buffered_fifo sample 9 1) as (_ & _ & (c' & E & _ & Hb & _) & _);
    [split; [reflexivity|discriminate]|reflexivity|lia|].
  exists c'. split; [exact E|]. rewrite Hb. reflexivity.
Defined.

Lemma buffered_after_close_witness :
  exists c1, Close sample = Done c1 /\ Set_ 9 c1 = Panic.
Proof.
  eexists. split; [reflexivity|].
  eapply (buffered_after_close sample _ 9 1); [split; [reflexivity|discriminate]|reflexivity|reflexivity].
Defined.
End Buffered.

(** ** Unbuffered channels *)
Module Unbuffered.
Section Unbuffered.
Context {T : Type} {inh : Inhabited T}.

(** [waiting_receiver] and [waiting_sender] in the operations say whether
    another goroutine is blocked on the other side of the rendezvous. *)
Record UnbufferedChannel : Type := mkU { current : T; version : Z; dirty : bool; closed : bool }.

Definition NewUnbufferedChannel (initialValue : T) : UnbufferedChannel :=
  mkU initialValue 1 false false.
Definition Get (c : UnbufferedChannel) : T := current c.
Definition Set_ (value : T) (c : UnbufferedChannel) : UnbufferedChannel :=
  mkU value (wrapU 64 (version c + 1)) true (closed c).
Definition Send (waiting_receiver : bool) (value : T) (c : UnbufferedChannel) : UnbufferedChannel * bool :=
  if closed c then (c, false)
  else if waiting_receiver then (Set_ value c, true) else (c, false).
Definition Receive (waiting_sender : option T) (c : UnbufferedChannel) : UnbufferedChannel * option T :=
  match (if closed c then Some inhabitant else waiting_sender) with
  | Some v => (mkU v (version c) (dirty c) (closed c), Some v)
  | None => (c, None)
  end.
Definition BufferSize (c : UnbufferedChannel) : Z := 0.
Definition SetBufferSize (size : Z) (c : UnbufferedChannel) : UnbufferedChannel * bool := (c, false).
Definition Version (c : UnbufferedChannel) : Z := version c.
Definition IsDirty (c : UnbufferedChannel) : bool := dirty c.
Definition MarkClean (c : UnbufferedChannel) : UnbufferedChannel :=
  mkU (current c) (version c) false (closed c).
Definition Close (c : UnbufferedChannel) : UnbufferedChannel :=
  mkU (current c) (version c) (dirty c) true.
End Unbuffered.
End Unbuffered.

(** ** Priority channels *)
Module PriorityChan.
Section PriorityChan.
Context {T : Type} {inh : Inhabited T}.

(** [next] is the next free location for queue items. *)
Record PriorityChannel : Type := mkP {
  queue : priorityQueue T; next : positive; current : T; version : Z; dirty : bool;
  closed : bool; maxSize : Z
}.

Definition NewPriorityChannel (maxSize : Z) (initialValue : T) : PriorityChannel :=
  mkP NewPriorityQueue 1 initialValue 1 false false maxSize.
Definition Get (c : PriorityChannel) : T := current c.
Definition Set_ (value : T) (c : PriorityChannel) : PriorityChannel :=
  mkP (queue c) (next c) value (wrapU 64 (version c + 1)) true (closed c) (maxSize c).

(** The part of the senders below the capacity test. *)
Definition enqueue (value : T) (priority : Z) (c : PriorityChannel) : PriorityChannel :=
  mkP (Enqueue (queue c) (next c) value priority).1 (Pos.succ (next c)) value
    (wrapU 64 (version c + 1)) true (closed c) (maxSize c).
Definition full (c : PriorityChannel) : bool := maxSize c <=? Z.of_nat (pq_Len (queue c)).

Definition SendWithPriority (value : T) (priority : Z) (c : PriorityChannel) : PriorityChannel * bool :=
  if closed c then (c, false)
  else if full c then (c, false)
  else (enqueue value priority c, true).
Definition Send (value : T) (c : PriorityChannel) : PriorityChannel * bool := SendWithPriority value 0 c.

Definition Receive (c : PriorityChannel) : PriorityChannel * option T :=
  match Dequeue (queue c) with
  | (q, Some value) => (mkP q (next c) value (version c) (dirty c) (closed c) (maxSize c), Some value)
  | (q, None) => (mkP q (next c) (current c) (version c) (dirty c) (closed c) (maxSize c), None)
  end.

(** [None]: the call waits on the condition variable. *)
Definition SendBlockingWithPriority (value : T) (priority : Z) (c : PriorityChannel) : option PriorityChannel :=
  if closed c then Some c
  else if full c then None
  else Some (enqueue value priority c).
Definition SendBlocking (value : T) (c : PriorityChannel) : option PriorityChannel :=
  SendBlockingWithPriority value 0 c.
Definition ReceiveBlocking (c : PriorityChannel) : option (PriorityChannel * T) :=
  if IsEmpty (queue c) && negb (closed c) then None
  else if IsEmpty (queue c) then Some (c, inhabitant)
  else match Receive c with
       | (c, Some v) => Some (c, v)
       | (c, None) => Some (c, inhabitant)
       end.

Definition BufferSize (c : PriorityChannel) : Z := maxSize c.
Definition SetBufferSize (size : Z) (c : PriorityChannel) : PriorityChannel * bool :=
  if closed c then (c, false)
  else (mkP (queue c) (next c) (current c) (version c) (dirty c) (closed c) size, true).
Definition Version (c : PriorityChannel) : Z := version c.
Definition IsDirty (c : PriorityChannel) : bool := dirty c.
Definition MarkClean (c : PriorityChannel) : PriorityChannel :=
  mkP (queue c) (next c) (current c) (version c) false (closed c) (maxSize c).
Definition Close (c : PriorityChannel) : PriorityChannel :=
  mkP (queue c) (next c) (current c) (version c) (dirty c) true (maxSize c).

(** The queue's invariant, and the locations from [next] on are free. *)
Definition inv (c : PriorityChannel) : Prop :=
  pq_inv (queue c) /\ forall l, (next c <= l)%positive -> store (queue c) !! l = None.

Lemma content_None q l : content q l = None <-> store (T:=T) q !! l = None.
Proof. unfold content. by destruct (store q !! l). Qed.

(** A priority channel delivers the most urgent value: sends below the
    capacity add the value with its priority, a send at capacity or after
    [Close] is refused without a change, [Receive] returns a value of highest
    priority among those held and removes it, also after [Close], and the
    queue's invariant is kept throughout. *)
Theorem priority_channel_correct (c : PriorityChannel) (v : T) (p : Z) :
  inv c ->
  let '(c1, ok) := SendWithPriority v p c in
  (ok = true <-> closed c = false /\ Z.of_nat (pq_Len (queue c)) < maxSize c) /\
  inv c1 /\ contents (queue c1) ≡ₚ (if ok then [(v, p)] else []) ++ contents (queue c) /\
  (ok = false -> c1 = c) /\
  let '(c2, r) := Receive c in
  inv c2 /\
  match r with
  | None => contents (queue c) = [] /\ contents (queue c2) = []
  | Some w => exists pw, contents (queue c) ≡ₚ (w, pw) :: contents (queue c2) /\
                Forall (fun x => x.2 <= pw) (contents (queue c)) /\ Get c2 = w
  end.
Proof.
  intros [Hq Hf]. unfold SendWithPriority.
  assert (Hrecv : let '(c2, r) := Receive c in
    inv c2 /\ match r with
    | None => contents (queue c) = [] /\ contents (queue c2) = []
    | Some w => exists pw, contents (queue c) ≡ₚ (w, pw) :: contents (queue c2) /\
                  Forall (fun x => x.2 <= pw) (contents (queue c)) /\ Get c2 = w
    end).
  { unfold Receive. destruct (items (queue c)) as [|l0 rest] eqn:Ei.
    - assert (E : Dequeue (queue c) = (queue c, None)).
      { unfold Dequeue, pq_Len. by rewrite Ei. }
      rewrite E. split; [done|]. simpl. unfold contents. by rewrite Ei.
    - destruct (Dequeue_correct (queue c) Hq) as (q' & l & w & pw & E & _ & Hi & Hp & Hc & Hmax & Hsame);
        [by rewrite Ei|].
      rewrite E. split; [split; [done|]|].
      + intros k Hk. apply content_None. simpl. rewrite Hsame. by apply content_None, Hf.
      + exists pw. simpl. split; [|split; [|done]].
        * unfold contents at 1. rewrite Hp. cbn [omap list_omap]. rewrite Hc. f_equiv.
          apply reflexive_eq, list_omap_ext, Forall_Forall2_diag, Forall_forall.
          intros x _. by rewrite Hsame.
        * apply Forall_forall. intros [v' p'] (k & Hk & Hck)%list_elem_of_omap. by eapply Hmax. }
  destruct (closed c) eqn:Hc.
  { split; [by split; [done|intros [? ?]]|]. do 3 (split; [done|]). exact Hrecv. }
  unfold full. destruct (Z.leb_spec (maxSize c) (Z.of_nat (pq_Len (queue c)))) as [Hl|Hl].
  { split; [split; [done|intros [_ ?]; lia]|]. do 3 (split; [done|]). exact Hrecv. }
  destruct (enqueue_all_correct (queue c) (next c) [(v, p)] Hq Hf) as [Hi Hcont].
  split; [done|]. split; [split; [exact Hi|]|split; [|split; [done|exact Hrecv]]].
  - intros l Hnl. destruct (Enqueue_correct (queue c) (next c) v p Hq (Hf (next c) ltac:(lia))) as (_ & _ & _ & Hsame).
    cbn [enqueue next] in Hnl. apply content_None. cbn [enqueue queue].
    rewrite Hsame by (intros ->; lia).
    apply content_None, Hf. lia.
  - cbn [enqueue queue]. etrans; [exact Hcont|]. by rewrite Permutation_app_comm.
Qed.
End PriorityChan.
Arguments PriorityChannel : clear implicits.

Lemma priority_channel_correct_witness :
  let c := (SendWithPriority 7 1 (SendWithPriority 8 4 (NewPriorityChannel 2 0)).1).1 in
  (Receive c).2 = Some 8 /\ (SendWithPriority 9 9 c).2 = false /\ inv c.
Proof.
  intros c. split; [reflexivity|]. split; [reflexivity|].
  assert (H0 : inv (NewPriorityChannel 2 0)) by (split; [apply empty_inv|intros; apply lookup_empty]).
  pose proof (priority_channel_correct (NewPriorityChannel 2 0) 8 4 H0) as H1.
  destruct (SendWithPriority 8 4 (NewPriorityChannel 2 0)) as [c1 ok1].
  destruct H1 as (_ & Hi1 & _).
  pose proof (priority_channel_correct c1 7 1 Hi1) as H2. unfold c. cbn [fst].
  destruct (SendWithPriority 7 1 c1) as [c2 ok2]. apply H2.
Defined.
End PriorityChan.

(** ** Broadcast channels *)
Module Broadcast.
Section Broadcast.
Context {T : Type} {inh : Inhabited T}.

(** [chans] are the channels handed to subscribers, by subscription;
    [subscribers] is the map's key set, [None] once [Close] set it to nil. *)
Record BroadcastChannel : Type := mkBr {
  subscribers : option (gset nat); chans : gmap nat (GoChan T);
  current : T; version : Z; dirty : bool; closed : bool; bufferSize : Z
}.

Definition NewBroadcastChannel (bufferSize : Z) (initialValue : T) : BroadcastChannel :=
  mkBr (Some ∅) ∅ initialValue 1 false false bufferSize.

Definition set_subs (s : option (gset nat)) (cs : gmap nat (GoChan T)) (c : BroadcastChannel) :=
  mkBr s cs (current c) (version c) (dirty c) (closed c) (bufferSize c).
Definition touch (v : T) (c : BroadcastChannel) : BroadcastChannel :=
  mkBr (subscribers c) (chans c) v (wrapU 64 (version c + 1)) true (closed c) (bufferSize c).
Definition subs (c : BroadcastChannel) : gset nat := default ∅ (subscribers c).

(** [Subscribe]; [sub] is the new subscription's address. A closed channel
    gives a closed subscription that is not recorded. *)
Definition Subscribe (sub : nat) (c : BroadcastChannel) : outcome BroadcastChannel :=
  if closed c
  then mret (set_subs (subscribers c) (<[sub := mkChan [] 1 true]> (chans c)) c)
  else
    k ← make_chan (bufferSize c);
    mret (set_subs (Some ({[sub]} ∪ subs c)) (<[sub := k]> (chans c)) c).

Definition Unsubscribe (sub : nat) (c : BroadcastChannel) : outcome BroadcastChannel :=
  if decide (sub ∈ subs c) then
    match chans c !! sub with
    | Some k =>
        k ← close_chan k;
        mret (set_subs (Some (subs c ∖ {[sub]})) (<[sub := k]> (chans c)) c)
    | None => mret c
    end
  else mret c.

Definition Get (c : BroadcastChannel) : T := current c.
Definition Set_ (value : T) (c : BroadcastChannel) : BroadcastChannel := touch value c.

(** One pass over the subscribers, in some order. *)
Fixpoint offer_all (value : T) (order : list nat) (cs : gmap nat (GoChan T)) : outcome (gmap nat (GoChan T)) :=
  match order with
  | [] => mret cs
  | s :: order =>
      match cs !! s with
      | Some k => '(k, _) ← try_send value k; offer_all value order (<[s := k]> cs)
      | None => offer_all value order cs
      end
  end.

(** [concurrent.Batch] calls the action once per chunk of 4; the action does
    not use its chunk: it passes over all subscribers. *)
Fixpoint offer_batches (n : nat) (value : T) (order : list nat) (cs : gmap nat (GoChan T))
    : outcome (gmap nat (GoChan T)) :=
  match n with
  | O => mret cs
  | S n => cs ← offer_all value order cs; offer_batches n value order cs
  end.
Definition batch_count (n : nat) : nat := (n + 3) / 4.

Definition Send (value : T) (c : BroadcastChannel) : outcome (BroadcastChannel * bool) :=
  if closed c then mret (c, false)
  else
    let c := touch value c in
    let order := elements (subs c) in
    cs ← (if Z.of_nat (size (subs c)) <? 1000 then offer_all value order (chans c)
          else offer_batches (batch_count (size (subs c))) value order (chans c));
    mret (set_subs (subscribers c) cs c, true).

Definition Receive (c : BroadcastChannel) : BroadcastChannel * option T := (c, None).
Definition ReceiveBlocking (c : BroadcastChannel) : BroadcastChannel * T := (c, inhabitant).
Definition BufferSize (c : BroadcastChannel) : Z := bufferSize c.
Definition SetBufferSize (size : Z) (c : BroadcastChannel) : BroadcastChannel * bool :=
  if closed c then (c, false)
  else (mkBr (subscribers c) (chans c) (current c) (version c) (dirty c) (closed c) size, true).
Definition Version (c : BroadcastChannel) : Z := version c.
Definition IsDirty (c : BroadcastChannel) : bool := dirty c.
Definition MarkClean (c : BroadcastChannel) : BroadcastChannel :=
  mkBr (subscribers c) (chans c) (current c) (version c) false (closed c) (bufferSize c).

Fixpoint close_all (order : list nat) (cs : gmap nat (GoChan T)) : outcome (gmap nat (GoChan T)) :=
  match order with
  | [] => mret cs
  | s :: order =>
      match cs !! s with
      | Some k => k ← close_chan k; close_all order (<[s := k]> cs)
      | None => close_all order cs
      end
  end.
Definition Close (c : BroadcastChannel) : outcome BroadcastChannel :=
  if closed c then mret c
  else
    cs ← close_all (elements (subs c)) (chans c);
    mret (mkBr None cs (current c) (version c) (dirty c) true (bufferSize c)).

(** Subscribed channels exist, are open and within capacity; a closed
    broadcast has no subscribers. *)
Definition inv (c : BroadcastChannel) : Prop :=
  (forall s, s ∈ subs c -> exists k, chans c !! s = Some k /\ chan_closed k = false /\
     Z.of_nat (length (chan_buf k)) <= chan_cap k) /\
  (closed c = true -> subs c = ∅) /\ 0 <= bufferSize c.

(** The channel after [n] offers of the same value. *)
Definition offered (n : nat) (v : T) (k : GoChan T) : GoChan T :=
  mkChan (chan_buf k ++ replicate (Nat.min n (Z.to_nat (chan_cap k) - length (chan_buf k))) v)
    (chan_cap k) false.

Lemma try_send_offered v n k : chan_closed k = false -> Z.of_nat (length (chan_buf k)) <= chan_cap k ->
  exists b, try_send v (offered n v k) = Done (offered (S n) v k, b).
Proof.
  destruct k as [b c cl]. simpl. intros -> Hl. unfold try_send, offered. cbn [chan_buf chan_cap chan_closed].
  rewrite length_app, length_replicate. set (r := (Z.to_nat c - length b)%nat).
  destruct (Z.ltb_spec (Z.of_nat (length b + Nat.min n r)) c); eexists.
  - rewrite <- app_assoc, <- replicate_S_end.
    replace (Nat.min (S n) r) with (S (Nat.min n r)) by lia. done.
  - replace (Nat.min (S n) r) with (Nat.min n r) by lia. done.
Qed.

Lemma offer_all_spec v order cs n :
  NoDup order ->
  (forall s, s ∈ order -> exists k, cs !! s = Some (offered n v k) /\ chan_closed k = false /\
     Z.of_nat (length (chan_buf k)) <= chan_cap k) ->
  exists cs', offer_all v order cs = Done cs' /\
    (forall s k, s ∈ order -> cs !! s = Some (offered n v k) -> chan_closed k = false ->
       Z.of_nat (length (chan_buf k)) <= chan_cap k -> cs' !! s = Some (offered (S n) v k)) /\
    (forall s, s ∉ order -> cs' !! s = cs !! s).
Proof.
  revert cs. induction order as [|s order IH]; intros cs Hnd Hok; simpl.
  - exists cs. split; [done|]. split; [by intros ? ? ?%not_elem_of_nil|done].
  - apply NoDup_cons in Hnd as [Hs Hnd].
    destruct (Hok s) as (k & Ek & Hc & Hl); [set_solver|]. rewrite Ek.
    destruct (try_send_offered v n k Hc Hl) as [b Eb]. rewrite Eb. simpl.
    destruct (IH (<[s := offered (S n) v k]> cs) Hnd) as (cs' & E & H1 & H2).
    { intros s' Hs'. rewrite lookup_insert_ne by (intros ->; done). apply Hok. set_solver. }
    exists cs'. split; [done|]. split.
    + intros s' k' [->|Hs']%elem_of_cons Ek' Hc' Hl'.
      * rewrite H2 by done. rewrite lookup_insert_eq.
        destruct (try_send_offered v n k' Hc' Hl') as [b' Eb'].
        assert (E2 : offered n v k = offered n v k') by congruence.
        rewrite E2, Eb' in Eb. congruence.
      * apply H1; [done| |done|done]. rewrite lookup_insert_ne; [done|]. intros ->; done.
    + intros s' Hs'. rewrite not_elem_of_cons in Hs'. destruct Hs'.
      rewrite H2 by done. by rewrite lookup_insert_ne.
Qed.

Lemma offered_0 v k : chan_closed k = false -> offered 0 v k = k.
Proof. destruct k as [b c cl]. simpl. intros ->. unfold offered. simpl. by rewrite app_nil_r. Qed.

(** The channel after [m] offers holds them if there is room. *)
Lemma offer_batches_spec m v order cs n :
  NoDup order ->
  (forall s, s ∈ order -> exists k, cs !! s = Some (offered n v k) /\ chan_closed k = false /\
     Z.of_nat (length (chan_buf k)) <= chan_cap k) ->
  exists cs', offer_batches m v order cs = Done cs' /\
    (forall s k, s ∈ order -> cs !! s = Some (offered n v k) -> chan_closed k = false ->
       Z.of_nat (length (chan_buf k)) <= chan_cap k -> cs' !! s = Some (offered (m + n) v k)).
Proof.
  intros Hnd. revert cs n. induction m as [|m IH]; intros cs n Hok; simpl; [by eexists|].
  destruct (offer_all_spec v order cs n Hnd Hok) as (cs1 & E1 & H1 & _). rewrite E1. simpl.
  destruct (IH cs1 (S n)) as (cs2 & E2 & H2).
  { intros s Hs. destruct (Hok s Hs) as (k & Ek & Hc & Hl). exists k. auto. }
  exists cs2. split; [done|]. intros s k Hs Ek Hc Hl.
  rewrite <- Nat.add_succ_r. by apply H2; [|apply H1| |].
Qed.

(** What subscribers get from one [Send]: with fewer than 1000 subscribers
    every subscriber with room in its buffer gets the value once, the others
    are skipped; from 1000 subscribers on every subscriber is offered the value
    once per batch of four, so it gets as many copies as fit of
    ceil(subscribers / 4). A send never panics and never blocks. *)
Theorem broadcast_send (c : BroadcastChannel) (v : T) :
  inv c -> closed c = false ->
  exists c', Send v c = Done (c', true) /\ Get c' = v /\
  forall s k, s ∈ subs c -> chans c !! s = Some k ->
    chans c' !! s = Some (offered (if Z.of_nat (size (subs c)) <? 1000 then 1
                                   else batch_count (size (subs c))) v k).
Proof.
  intros (Hok & _ & _) Hc. unfold Send. rewrite Hc.
  change (subs (touch v c)) with (subs c). change (chans (touch v c)) with (chans c).
  assert (Hpre : forall s, s ∈ elements (subs c) -> exists k, chans c !! s = Some (offered 0 v k) /\
    chan_closed k = false /\ Z.of_nat (length (chan_buf k)) <= chan_cap k).
  { intros s Hs. destruct (Hok s) as (k & Ek & Hk & Hl); [by apply elem_of_elements|].
    exists k. by rewrite offered_0. }
  assert (Hpost : forall s k, s ∈ subs c -> chans c !! s = Some k ->
    s ∈ elements (subs c) /\ chans c !! s = Some (offered 0 v k) /\ chan_closed k = false /\
    Z.of_nat (length (chan_buf k)) <= chan_cap k).
  { intros s k Hs Ek. destruct (Hok s Hs) as (k' & Ek' & Hk & Hl). simplify_eq.
    rewrite offered_0 by done. split; [by apply elem_of_elements|done]. }
  destruct (_ <? 1000).
  - destruct (offer_all_spec v _ (chans c) 0 (NoDup_elements _) Hpre) as (cs' & E & H & _).
    rewrite E. simpl. eexists. split; [done|]. split; [done|]. intros s k Hs Ek.
    destruct (Hpost s k Hs Ek) as (? & ? & ? & ?). by apply H.
  - destruct (offer_batches_spec (batch_count (size (subs c))) v _ (chans c) 0 (NoDup_elements _) Hpre)
      as (cs' & E & H).
    rewrite E. simpl. eexists. split; [done|]. split; [done|]. intros s k Hs Ek.
    destruct (Hpost s k Hs Ek) as (? & ? & ? & ?). rewrite <- (Nat.add_0_r (batch_count _)). by apply H.
Qed.
End Broadcast.
Arguments BroadcastChannel : clear implicits.

(** A thousand subscribers with room for three values each. *)
Definition crowd (n : nat) : BroadcastChannel Z :=
  mkBr (Some (list_to_set (seq 0 n))) (list_to_map ((fun s => (s, mkChan [] 3 false)) <$> seq 0 n))
    0 1 false false 3.

Lemma crowd_inv n : inv (crowd n).
Proof.
  split; [|split; [done|done]]. intros s Hs. unfold crowd, subs in Hs. simpl in Hs.
  rewrite elem_of_list_to_set in Hs. exists (mkChan [] 3 false). split; [|done].
  apply elem_of_list_to_map_1.
  - rewrite <- list_fmap_compose. simpl. rewrite list_fmap_id. apply NoDup_seq.
  - apply list_elem_of_fmap. eauto.
Qed.

Lemma broadcast_send_witness :
  exists c', Send 7 (crowd 1000) = Done (c', true) /\
    chan_buf <$> chans c' !! 5%nat = Some [7; 7; 7].
Proof.
  destruct (broadcast_send (crowd 1000) 7 (crowd_inv 1000) eq_refl) as (c' & E & _ & H).
  exists c'. split; [exact E|]. rewrite (H 5%nat (mkChan [] 3 false)); [vm_compute; reflexivity| |].
  - apply elem_of_list_to_set, elem_of_seq. lia.
  - vm_compute. reflexivity.
Defined.
End Broadcast.
