(* ===== verification/Atomics.v ===== *)
(** * Atomic roots ([internal/core/syncv2/vars/atomic*.go], [custom.go])

    Every atomic variable holds a value, a version counter and a dirty flag.
    [Root] is what their users rely on (read what was written, one version
    step per write); each implementation is an instance. [ApplyDeltas] merges
    a batch of remote changes. *)
From S2P Require Import Prelude Iterators.
From Stdlib Require Import ZArith Lia Strings.String Strings.Byte.
From stdpp Require Import base list strings sorting.
Open Scope Z_scope.

(** ** Deltas ([syncv2/variable.go]) *)
Inductive OpType : Type := OpSet | OpUpdate | OpDelete.
#[export] Instance OpType_eq_dec : EqDecision OpType.
Proof. solve_decision. Defined.

Record Delta (T : Type) : Type := mkDelta {
  dVersion : Z; dValue : T; dTimestamp : Z; dClientID : string; dOpType : OpType
}.
Arguments mkDelta {T}.
Arguments dVersion {T}.
Arguments dValue {T}.
Arguments dTimestamp {T}.
Arguments dClientID {T}.
Arguments dOpType {T}.

(** The order of [ApplyDeltas]: [a.Version <= b.Version]. *)
Definition by_version {T} (a b : Delta T) : bool := dVersion a <=? dVersion b.

(** [sequence.From(deltas).Sort(...).Collect()] *)
Definition sorted_deltas {T} (deltas : list (Delta T)) : list (Delta T) :=
  (Collect (Sort (W:=unit) (From_ deltas) by_version tt).2 tt).2.

(** ** The common state *)
Record Atomic (V : Type) : Type := mkAtomic { value : V; version : Z; dirty : bool }.
Arguments mkAtomic {V}.
Arguments value {V}.
Arguments version {V}.
Arguments dirty {V}.

Section Common.
Context {V : Type}.
Definition new_atomic (initialValue : V) : Atomic V := mkAtomic initialValue 1 false.
(** A write: the value, then [version.Add(1)], then [dirty.Store(true)]. *)
Definition write (v : V) (a : Atomic V) : Atomic V := mkAtomic v (wrapU 64 (version a + 1)) true.
Definition Version (a : Atomic V) : Z := version a.
Definition IsDirty (a : Atomic V) : bool := dirty a.
Definition MarkClean (a : Atomic V) : Atomic V := mkAtomic (value a) (version a) false.
End Common.

(** What the wrappers rely on. *)
Class Root (S V : Type) : Type := {
  root_get : S -> outcome V;
  root_set : V -> S -> S;
  root_version : S -> Z;
  root_dirty : S -> bool;
  root_clean : S -> S;
  root_ok : V -> Prop;
  root_get_set v s : root_ok v -> root_get (root_set v s) = Done v;
  root_version_set v s : root_version (root_set v s) = wrapU 64 (root_version s + 1);
  root_dirty_set v s : root_dirty (root_set v s) = true;
  root_dirty_clean s : root_dirty (root_clean s) = false;
  root_get_clean s : root_get (root_clean s) = root_get s;
  root_version_clean s : root_version (root_clean s) = root_version s
}.

(** ** [AtomicValue] *)
Module AtomicValue.
Section AtomicValue.
Context {T : Type} {eqT : EqDecision T}.

Definition NewAtomicValue (initialValue : T) : Atomic T := new_atomic initialValue.
Definition Get (a : Atomic T) : T := value a.
Definition Set_ (v : T) (a : Atomic T) : Atomic T := write v a.
Definition Swap (new : T) (a : Atomic T) : Atomic T * T := (write new a, value a).
Definition CompareAndSwap (old new : T) (a : Atomic T) : Atomic T * bool :=
  if decide (value a = old) then (write new a, true) else (a, false).

(** The chain [From.Sort.Each] makes an iterator, and nothing consumes it. *)
Definition ApplyDeltas (deltas : list (Delta T)) (a : Atomic T) : Atomic T * T :=
  let '(a, sorted) := Sort (From_ deltas) (fun x y => dVersion y <? dVersion x) a in
  let discarded : Iterator (Atomic T) (Delta T) :=
    Each sorted (fun d a => if decide (dOpType d = OpSet) then Set_ (dValue d) a else a) in
  (a, Get a).
End AtomicValue.
End AtomicValue.

(** ** Integers: [AtomicInt64], [AtomicInt32], [AtomicUint64], [AtomicUint32]

    The four files have the same text; [wrap] is the type's arithmetic. *)
Module AtomicInt.
Section AtomicInt.
Context (wrap : Z -> Z).

Definition Get (a : Atomic Z) : Z := value a.
Definition Set_ (v : Z) (a : Atomic Z) : Atomic Z := write v a.
Definition Swap (new : Z) (a : Atomic Z) : Atomic Z * Z := (write new a, value a).
Definition Add (delta : Z) (a : Atomic Z) : Atomic Z * Z :=
  let n := wrap (value a + delta) in (write n a, n).
Definition CompareAndSwap (old new : Z) (a : Atomic Z) : Atomic Z * bool :=
  if value a =? old then (write new a, true) else (a, false).

(** The loop's variables. *)
Definition merge_step (st : Z * option Z) (delta : Delta Z) : Z * option Z :=
  let '(totalDelta, setValue) := st in
  match dOpType delta with
  | OpSet => (0, Some (dValue delta))
  | OpUpdate => match setValue with
                | None => (wrap (totalDelta + dValue delta), None)
                | Some _ => (totalDelta, setValue)
                end
  | OpDelete => (totalDelta, setValue)
  end.

Definition ApplyDeltas (deltas : list (Delta Z)) (a : Atomic Z) : Atomic Z * Z :=
  let '(totalDelta, setValue) := foldl merge_step (0, None) (sorted_deltas deltas) in
  match setValue with
  | Some v => (Set_ v a, v)
  | None => if negb (totalDelta =? 0) then Add totalDelta a else (a, Get a)
  end.
End AtomicInt.

Definition NewAtomicInt64 (v : Z) : Atomic Z := new_atomic v.
Definition Int64_Add := Add (wrapS 64).
Definition Int64_ApplyDeltas := ApplyDeltas (wrapS 64).
Definition NewAtomicInt32 (v : Z) : Atomic Z := new_atomic v.
Definition Int32_Add := Add (wrapS 32).
Definition Int32_ApplyDeltas := ApplyDeltas (wrapS 32).
Definition NewAtomicUint64 (v : Z) : Atomic Z := new_atomic v.
Definition Uint64_Add := Add (wrapU 64).
Definition Uint64_ApplyDeltas := ApplyDeltas (wrapU 64).
Definition NewAtomicUint32 (v : Z) : Atomic Z := new_atomic v.
Definition Uint32_Add := Add (wrapU 32).
Definition Uint32_ApplyDeltas := ApplyDeltas (wrapU 32).
End AtomicInt.

(** ** [AtomicBool] *)
Module AtomicBool.
Definition NewAtomicBool (v : bool) : Atomic bool := new_atomic v.
Definition Get (a : Atomic bool) : bool := value a.
Definition Set_ (v : bool) (a : Atomic bool) : Atomic bool := write v a.
Definition Swap (new : bool) (a : Atomic bool) : Atomic bool * bool := (write new a, value a).
Definition CompareAndSwap (old new : bool) (a : Atomic bool) : Atomic bool * bool :=
  if Bool.eqb (value a) old then (write new a, true) else (a, false).
(** The operation type is not looked at. *)
Definition ApplyDeltas (zero : Delta bool) (deltas : list (Delta bool)) (a : Atomic bool)
    : Atomic bool * bool :=
  let '(_, (last, found)) := Last zero (Sort (W:=unit) (From_ deltas) by_version tt).2 tt in
  let a := if (found : bool) then Set_ (dValue last) a else a in
  (a, Get a).
End AtomicBool.

(** ** [FastString] ([custom.go]): a pointer to a copy of the bytes, and the
    length. Reading goes through an array type of 2^30 bytes, so a longer
    string panics with a slice bound out of range. *)
Module FastString.
Record FastString : Type := mkFast { data : option (list byte); length_ : Z }.

Definition NewFastString (s : string) : FastString :=
  let bytes := list_byte_of_string s in
  if Z.of_nat (length bytes) =? 0 then mkFast None 0
  else mkFast (Some bytes) (Z.of_nat (length bytes)).

Definition String_ (fs : FastString) : outcome string :=
  match data fs with
  | None => Done EmptyString
  | Some bytes =>
      if length_ fs =? 0 then Done EmptyString
      else if 2 ^ 30 <? length_ fs then Panic
      else Done (string_of_list_byte (take (Z.to_nat (length_ fs)) bytes))
  end.

Definition small (s : string) : Prop := Z.of_nat (length (list_byte_of_string s)) <= 2 ^ 30.

Lemma FastString_roundtrip s : small s -> String_ (NewFastString s) = Done s.
Proof.
  intros Hs. unfold small in Hs. unfold String_, NewFastString.
  destruct (Z.eqb_spec (Z.of_nat (length (list_byte_of_string s))) 0) as [H0|H0]; simpl.
  - destruct s; [done|simpl in H0; lia].
  - rewrite (proj2 (Z.eqb_neq _ _)) by done. rewrite (proj2 (Z.ltb_ge _ _)) by done.
    rewrite Nat2Z.id, take_ge by lia. by rewrite string_of_list_byte_of_string.
Qed.
End FastString.

(** ** [AtomicString] *)
Module AtomicString.
Import FastString.

(** The pointer is never nil after construction. *)
Definition NewAtomicString (initialValue : string) : Atomic FastString :=
  new_atomic (NewFastString initialValue).
Definition Get (a : Atomic FastString) : outcome string := String_ (value a).
Definition Set_ (v : string) (a : Atomic FastString) : Atomic FastString := write (NewFastString v) a.
Definition Swap (new : string) (a : Atomic FastString) : Atomic FastString * outcome string :=
  (write (NewFastString new) a, String_ (value a)).

Definition merge_step (current : outcome string) (setValue : outcome (option string)) (delta : Delta string)
    : outcome (option string) :=
  setValue ← setValue;
  match dOpType delta with
  | OpSet => mret (Some (dValue delta))
  | OpUpdate => match setValue with
                | None => c ← current; mret (Some (String.append c (dValue delta)))
                | Some _ => mret setValue
                end
  | OpDelete => mret setValue
  end.

Definition ApplyDeltas (deltas : list (Delta string)) (a : Atomic FastString)
    : outcome (Atomic FastString * string) :=
  setValue ← foldl (merge_step (Get a)) (mret None) (sorted_deltas deltas);
  match setValue with
  | Some v => mret (Set_ v a, v)
  | None => v ← Get a; mret (a, v)
  end.
End AtomicString.

(** ** [AtomicPointer]

    The value is the address of a fresh variable holding the pointer, or nil;
    the addresses are arguments where the code allocates. *)
Module AtomicPointer.
Definition ptr := option positive.          (* unsafe.Pointer, nil or an address *)
Record cell : Type := mkCell { addr : positive; content : positive }.
Definition cell_eq_dec : EqDecision cell.
Proof. solve_decision. Defined.

Definition box (fresh : positive) (p : ptr) : option cell :=
  match p with None => None | Some x => Some (mkCell fresh x) end.
Definition NewAtomicPointer (fresh : positive) (p : ptr) : Atomic (option cell) := new_atomic (box fresh p).
Definition Get (a : Atomic (option cell)) : ptr := content <$> value a.
Definition Set_ (fresh : positive) (p : ptr) (a : Atomic (option cell)) : Atomic (option cell) :=
  write (box fresh p) a.
Definition Swap (fresh : positive) (p : ptr) (a : Atomic (option cell)) : Atomic (option cell) * ptr :=
  (write (box fresh p) a, Get a).

(** [now] is the cell found by the final compare-and-swap: [value a] unless
    another goroutine wrote in between. *)
Definition CompareAndSwap (fresh : positive) (old new : ptr) (now : option cell) (a : Atomic (option cell))
    : Atomic (option cell) * bool :=
  if bool_decide (Get a = old) then
    if bool_decide (addr <$> now = addr <$> value a) then (write (box fresh new) a, true) else (a, false)
  else (a, false).

Definition merge_step (setValue : option ptr) (delta : Delta ptr) : option ptr :=
  match dOpType delta with
  | OpSet | OpUpdate => Some (dValue delta)
  | OpDelete => setValue
  end.
Definition ApplyDeltas (fresh : positive) (deltas : list (Delta ptr)) (a : Atomic (option cell))
    : Atomic (option cell) * ptr :=
  match foldl merge_step None (sorted_deltas deltas) with
  | Some v => (Set_ fresh v a, v)
  | None => (a, Get a)
  end.
End AtomicPointer.

(** ** The implementations keep the promise *)
#[export] Program Instance value_root T : Root (Atomic T) T := {|
  root_get a := Done (value a); root_set := write; root_version := version; root_dirty := dirty;
  root_clean := MarkClean; root_ok _ := True |}.
Solve All Obligations with done.

#[export] Program Instance string_root : Root (Atomic FastString.FastString) string := {|
  root_get := AtomicString.Get; root_set := AtomicString.Set_; root_version := version;
  root_dirty := dirty; root_clean := MarkClean; root_ok := FastString.small |}.
Next Obligation. intros v s Hv. by apply FastString.FastString_roundtrip. Qed.
Solve All Obligations with done.

Section RootFacts.
Context {S V : Type} {R : Root S V}.

(** Writes in sequence. *)
Definition write_all (vs : list V) (s : S) : S := foldl (fun s v => root_set v s) s vs.

(** For every implementation of an atomic root: after any sequence of writes
    the value read is the last one written, the version has advanced by
    exactly the number of writes (modulo 2^64), and the variable is dirty until
    it is marked clean. *)
Theorem root_writes (s : S) (v : V) vs :
  root_ok v ->
  let s' := write_all (vs ++ [v]) s in
  root_get s' = Done v /\
  root_version s' = wrapU 64 (root_version s + Z.of_nat (length vs) + 1) /\
  root_dirty s' = true /\ root_dirty (root_clean s') = false /\ root_get (root_clean s') = Done v.
Proof.
  intros Hv. unfold write_all. rewrite foldl_snoc.
  assert (Hver : forall vs s, root_version (foldl (fun s v => root_set v s) s vs) =
    wrapU 64 (root_version s + Z.of_nat (length vs)) \/ vs = []).
  { induction vs0 as [|w vs0 IH]; intros s0; [by right|left]. cbn [foldl length].
    destruct (IH (root_set w s0)) as [E| ->].
    - rewrite E, root_version_set, wrapU_add_l by lia. f_equal. lia.
    - simpl. by rewrite root_version_set. }
  rewrite root_get_set, root_version_set, root_dirty_set, root_dirty_clean, root_get_clean by done.
  rewrite root_get_set by done. split; [done|]. split; [|done].
  destruct (Hver vs s) as [E| ->]; [by rewrite E, wrapU_add_l by lia|].
  simpl. f_equal. lia.
Qed.
End RootFacts.

Lemma root_writes_witness :
  root_get (write_all (["a"; "bc"] ++ ["zeus"]) (AtomicString.NewAtomicString "x")) = Done "zeus".
Proof.
  refine (proj1 (root_writes (AtomicString.NewAtomicString "x") "zeus" ["a"; "bc"] _)).
  vm_compute. discriminate.
Defined.

(** ** Merging deltas *)
Lemma sorted_deltas_perm {T} (l : list (Delta T)) : sorted_deltas l ≡ₚ l.
Proof.
  unfold sorted_deltas, Sort. rewrite Collect_From. simpl. rewrite Collect_From.
  apply SliceStable_perm.
Qed.

Lemma sorted_deltas_sorted {T} (l : list (Delta T)) :
  StronglySorted (fun a b => dVersion a <= dVersion b) (sorted_deltas l).
Proof.
  unfold sorted_deltas, Sort. rewrite Collect_From. simpl. rewrite Collect_From.
  apply SliceStable_sorted; unfold by_version.
  - intros a b c. lia.
  - intros a b. lia.
  - intros a b. lia.
Qed.

(** With distinct versions the order of arrival does not matter. *)
Lemma sorted_unique {T} (l1 l2 : list (Delta T)) :
  l1 ≡ₚ l2 -> NoDup (map dVersion l1) ->
  StronglySorted (fun a b => dVersion a <= dVersion b) l1 ->
  StronglySorted (fun a b => dVersion a <= dVersion b) l2 -> l1 = l2.
Proof.
  intros Hp Hnd H1. revert l2 Hp. induction H1 as [|a l1 Hs IH Ha]; intros l2 Hp H2.
  - by apply Permutation_nil_l in Hp.
  - destruct l2 as [|b l2]; [by apply Permutation_nil_r in Hp|].
    apply StronglySorted_inv in H2 as [H2 Hb]. simpl in Hnd. apply NoDup_cons in Hnd as [Hna Hnd].
    assert (b = a) as ->.
    { assert (Hin : b ∈ a :: l1) by (rewrite Hp; by apply list_elem_of_here).
      apply elem_of_cons in Hin as [->|Hin]; [done|].
      assert (Hin' : a ∈ b :: l2) by (rewrite <- Hp; by apply list_elem_of_here).
      apply elem_of_cons in Hin' as [->|Hin']; [done|].
      rewrite Forall_forall in Ha, Hb. pose proof (Ha b Hin). pose proof (Hb a Hin').
      exfalso. apply Hna. assert (E : dVersion a = dVersion b) by lia. rewrite E.
      apply list_elem_of_fmap. eauto. }
    f_equal. apply IH; [done| |done]. by apply (Permutation_cons_inv (a:=a)).
Qed.

Lemma sorted_deltas_unique {T} (l1 l2 : list (Delta T)) :
  l1 ≡ₚ l2 -> NoDup (map dVersion l1) -> sorted_deltas l1 = sorted_deltas l2.
Proof.
  intros Hp Hnd.
  assert (Hm : map dVersion (sorted_deltas l1) ≡ₚ map dVersion l1) by
    (apply Permutation_map, sorted_deltas_perm).
  apply sorted_unique; [by rewrite !sorted_deltas_perm|by rewrite Hm|apply sorted_deltas_sorted..].
Qed.

(** The value of the newest set, if there is one, and the sum of the updates. *)
Definition is_set {T} (d : Delta T) : bool := bool_decide (dOpType d = OpSet).
Definition is_update {T} (d : Delta T) : bool := bool_decide (dOpType d = OpUpdate).
Definition sum_updates (l : list (Delta Z)) : Z :=
  foldr (fun d acc => (if is_update d then dValue d else 0) + acc) 0 l.

(** The wrap-around of a type: a retraction onto its range that respects sums. *)
Class Arith (wrap : Z -> Z) : Prop := {
  wrap_wrap_l a b : wrap (wrap a + b) = wrap (a + b);
  wrap_0 : wrap 0 = 0;
  wrap_congr a : exists k, wrap a = a + k /\ forall b, wrap (b + k) = wrap b
}.

Lemma wrapU_period w z k : 0 <= w -> wrapU w (z + k * 2 ^ w) = wrapU w z.
Proof. intros. unfold wrapU. apply Z.mod_add. pose proof (pow2_pos w). lia. Qed.

Lemma wrapS_period w z k : 0 < w -> wrapS w (z + k * 2 ^ w) = wrapS w z.
Proof.
  intros. unfold wrapS. f_equal. rewrite <- Z.add_assoc, (Z.add_comm (k * _)), Z.add_assoc.
  apply Z.mod_add. pose proof (pow2_pos w). lia.
Qed.

#[export] Instance arith_U w : (0 <= w) -> Arith (wrapU w).
Proof.
  intros Hw. pose proof (pow2_pos w Hw). split.
  - intros. by apply wrapU_add_l.
  - unfold wrapU. by apply Z.mod_0_l; lia.
  - intros a. exists (- (a / 2 ^ w) * 2 ^ w). split; [unfold wrapU; rewrite Z.mod_eq by lia; lia|].
    intros b. by apply wrapU_period.
Qed.

Lemma arith_S w : 0 < w -> Arith (wrapS w).
Proof.
  intros Hw. pose proof (pow2_pos w ltac:(lia)) as Hp.
  assert (Hk : forall a, wrapS w a = a + - ((a + 2 ^ (w - 1)) / 2 ^ w) * 2 ^ w).
  { intros a. unfold wrapS. rewrite Z.mod_eq by lia. lia. }
  split.
  - intros a b. rewrite (Hk a). replace (a + - ((a + 2 ^ (w - 1)) / 2 ^ w) * 2 ^ w + b)
      with (a + b + - ((a + 2 ^ (w - 1)) / 2 ^ w) * 2 ^ w) by lia. by apply wrapS_period.
  - apply wrapS_id; [done|]. unfold in_s. pose proof (pow2_pos (w - 1)). lia.
  - intros a. exists (- ((a + 2 ^ (w - 1)) / 2 ^ w) * 2 ^ w). split; [apply Hk|].
    intros b. by apply wrapS_period.
Qed.

Lemma merge_spec wrap `{Arith wrap} l t sv :
  foldl (AtomicInt.merge_step wrap) (wrap t, sv) l =
  (match last (filter (fun d => is_set d = true) l), sv with
   | None, None => wrap (t + sum_updates l)
   | None, Some _ => wrap t
   | Some _, _ => 0
   end,
   match last (filter (fun d => is_set d = true) l) with
   | Some d => Some (dValue d)
   | None => sv
   end).
Proof.
  revert t sv. induction l as [|d l IH]; intros t sv; cbn [foldl sum_updates foldr].
  - simpl. rewrite Z.add_0_r. by destruct sv.
  - fold (sum_updates l). unfold AtomicInt.merge_step at 2. unfold is_update.
    destruct (dOpType d) eqn:Eo.
    + rewrite filter_cons_True by (unfold is_set; by rewrite Eo).
      rewrite <- wrap_0 at 1. rewrite IH. rewrite last_cons.
      destruct (last (filter _ l)); done || by rewrite wrap_0.
    + rewrite filter_cons_False by (unfold is_set; by rewrite Eo). destruct sv as [v|].
      * rewrite IH. destruct (last (filter _ l)); done.
      * rewrite wrap_wrap_l, IH. rewrite bool_decide_eq_true_2 by done.
        destruct (last (filter _ l)); [done|]. f_equal. f_equal. lia.
    + rewrite filter_cons_False by (unfold is_set; by rewrite Eo). rewrite IH.
      by destruct (last (filter _ l)), sv.
Qed.

(** The value that a batch of deltas stands for: the newest set if any set is
    present, otherwise the current value plus all updates. *)
Definition merged (wrap : Z -> Z) (cur : Z) (l : list (Delta Z)) : Z :=
  match last (filter (fun d => is_set d = true) (sorted_deltas l)) with
  | Some d => dValue d
  | None => wrap (cur + sum_updates l)
  end.

Lemma sum_updates_perm l1 l2 : l1 ≡ₚ l2 -> sum_updates l1 = sum_updates l2.
Proof. intros H. induction H; simpl; lia. Qed.

(** Merging integer deltas: for every integer type (any wrapping
    arithmetic), [ApplyDeltas] returns the value of the newest [OpSet] of the
    batch, or, without one, the current value plus the sum of the updates with
    wrap-around; the result is stored, and the version advances at most once
    however many deltas there are. *)
Theorem ApplyDeltas_int wrap (Hw : Arith wrap) deltas (a : Atomic Z) :
  wrap (value a) = value a ->
  let '(a', r) := AtomicInt.ApplyDeltas wrap deltas a in
  r = merged wrap (value a) deltas /\ value a' = r /\
  (version a' = version a \/ version a' = wrapU 64 (version a + 1)).
Proof.
  intros Ha. unfold AtomicInt.ApplyDeltas, merged.
  replace (0, @None Z) with (wrap 0, @None Z) by (by rewrite wrap_0).
  rewrite merge_spec by done. destruct (last _) as [d|]; [by auto|].
  rewrite Z.add_0_l, (sum_updates_perm _ _ (sorted_deltas_perm deltas)).
  destruct (wrap_congr (wrap:=wrap) (sum_updates deltas)) as (k & Hk & Hper).
  assert (E : wrap (value a + wrap (sum_updates deltas)) = wrap (value a + sum_updates deltas)).
  { rewrite Hk, Z.add_assoc. apply Hper. }
  destruct (Z.eqb_spec (wrap (sum_updates deltas)) 0) as [H0|H0]; simpl.
  - rewrite H0, Z.add_0_r, Ha in E. auto.
  - auto.
Qed.

Definition set_delta (v x : Z) : Delta Z := mkDelta v x 0 "" OpSet.
Definition upd_delta (v x : Z) : Delta Z := mkDelta v x 0 "" OpUpdate.

Lemma ApplyDeltas_int_witness :
  (AtomicInt.Int32_ApplyDeltas [upd_delta 3 1; upd_delta 2 1] (new_atomic (2 ^ 31 - 1))).2 = - 2 ^ 31 + 1.
Proof.
  pose proof (ApplyDeltas_int (wrapS 32) (arith_S 32 ltac:(lia)) [upd_delta 3 1; upd_delta 2 1]
    (new_atomic (2 ^ 31 - 1)) ltac:(reflexivity)) as H.
  unfold AtomicInt.Int32_ApplyDeltas. destruct (AtomicInt.ApplyDeltas _ _ _) as [a' r].
  destruct H as [H _]. simpl. rewrite H. reflexivity.
Defined.

(** The order in which deltas arrive does not matter: two batches with the
    same deltas in any order, whose versions are distinct, have the same effect
    on an integer, a string and a pointer variable. *)
Theorem ApplyDeltas_order_independent wrap (l1 l2 : list (Delta Z)) (s1 s2 : list (Delta string))
    (p1 p2 : list (Delta AtomicPointer.ptr)) a b c f :
  l1 ≡ₚ l2 -> NoDup (map dVersion l1) -> s1 ≡ₚ s2 -> NoDup (map dVersion s1) ->
  p1 ≡ₚ p2 -> NoDup (map dVersion p1) ->
  AtomicInt.ApplyDeltas wrap l1 a = AtomicInt.ApplyDeltas wrap l2 a /\
  AtomicString.ApplyDeltas s1 b = AtomicString.ApplyDeltas s2 b /\
  AtomicPointer.ApplyDeltas f p1 c = AtomicPointer.ApplyDeltas f p2 c.
Proof.
  intros. unfold AtomicInt.ApplyDeltas, AtomicString.ApplyDeltas, AtomicPointer.ApplyDeltas.
  by rewrite (sorted_deltas_unique l1 l2), (sorted_deltas_unique s1 s2), (sorted_deltas_unique p1 p2).
Qed.

Lemma ApplyDeltas_order_independent_witness :
  AtomicInt.Int64_ApplyDeltas [set_delta 2 10; upd_delta 1 5] (new_atomic 0) =
  AtomicInt.Int64_ApplyDeltas [upd_delta 1 5; set_delta 2 10] (new_atomic 0).
Proof.
  apply (ApplyDeltas_order_independent (wrapS 64) _ _ [] [] [] []
    _ (AtomicString.NewAtomicString "") (new_atomic None) 1%positive);
    try reflexivity; try apply NoDup_nil_2; [apply Permutation_swap|].
  apply (bool_decide_unpack _). vm_compute. exact I.
Defined.

(** Replaying the deltas one by one in version order. *)
Definition replay (wrap : Z -> Z) (cur : Z) (l : list (Delta Z)) : Z :=
  foldl (fun v d => match dOpType d with
                    | OpSet => dValue d
                    | OpUpdate => wrap (v + dValue d)
                    | OpDelete => v end) cur (sorted_deltas l).

(** An update newer than the newest set is lost: merging a set of 10 with a
    later update of 5 gives 10, while replaying the two in version order
    gives 15. *)
Theorem ApplyDeltas_drops_later_updates (cur : Z) :
  (AtomicInt.Int64_ApplyDeltas [set_delta 1 10; upd_delta 2 5] (new_atomic cur)).2 = 10 /\
  replay (wrapS 64) cur [set_delta 1 10; upd_delta 2 5] = 15.
Proof. split; reflexivity. Qed.

(** [AtomicValue.ApplyDeltas] applies nothing: the iterator that would set
    the values is never consumed, so for every batch of deltas, sets included,
    the variable and its version stay as they are and the old value is
    returned; consuming the iterator would have stored the last delta set. *)
Theorem AtomicValue_ApplyDeltas_noop {T} (deltas : list (Delta T)) (a : Atomic T) :
  AtomicValue.ApplyDeltas deltas a = (a, value a) /\
  forall d, (Collect (Each (From_ [d]) (fun (d : Delta T) a =>
    if decide (dOpType d = OpSet) then AtomicValue.Set_ (dValue d) a else a)) a).1 =
    (if decide (dOpType d = OpSet) then write (dValue d) a else a).
Proof.
  split.
  - unfold AtomicValue.ApplyDeltas, Sort. by rewrite Collect_From.
  - intros d. unfold Collect, Each, From_. simpl. by case_decide.
Qed.
