(* ===== verification/Blackboard.v ===== *)
(** * The blackboard ([internal/core/npc/blackboard.go], [sensors.go])

    A shared map with namespaced views: a view prefixes every key with its
    namespace and a colon. The map is the shared state; a view is its prefix.
    The built-in sensors read and write it. *)
From S2P Require Import Prelude Iterators.
From Stdlib Require Import ZArith Lia Strings.String Strings.Ascii Floats.SpecFloat.
From stdpp Require Import base list strings gmap sorting.
Open Scope Z_scope.

(** Values held under a key, by dynamic type; [float64] is IEEE binary64. *)
Inductive val : Type :=
  | VNil
  | VBool (b : bool)
  | VInt (z : Z)
  | VInt64 (z : Z)
  | VFloat64 (f : spec_float)
  | VFloat32 (f : spec_float)
  | VString (s : string)
  | VTime (t : Z)
  | VCheck (result : bool)             (* func(context.Context) bool *)
  | VPing (err : option string)        (* func(context.Context) error *)
  | VTable (rows : list (list Z))      (* [][]int *)
  | VCells (cells : gset (Z * Z))      (* map[[2]int]bool, true at these *)
  | VUint64 (z : Z)
  | VVec2 (x y : spec_float)           (* physics.Vec2 *)
  | VVec3 (x y z : spec_float)         (* physics.Vec3 *)
  | VTransform2D (x y : spec_float)    (* physics.Transform2D *)
  | VTransform3D (x y z : spec_float)  (* physics.Transform3D *)
  | VOther (tag : nat).

(** binary64 arithmetic *)
Definition f64_add := SFadd 53 1024.
Definition f64_sub := SFsub 53 1024.
Definition f64_mul := SFmul 53 1024.
Definition f64_div := SFdiv 53 1024.
Definition f64_of_Z (z : Z) : spec_float := binary_normalize 53 1024 z 0 false.

Abbreviation data := (gmap string val).

(** A view: its prefix, empty for the root. *)
Record bbMap : Type := mkBB { prefix : string }.
Definition NewBlackboard : bbMap := mkBB "".

Definition fullKey (b : bbMap) (key : string) : string :=
  if decide (prefix b = "") then key else prefix b +:+ ":" +:+ key.

Definition Get (b : bbMap) (d : data) (key : string) : option val := d !! fullKey b key.
Definition Set_ (b : bbMap) (key : string) (v : val) (d : data) : data := <[fullKey b key := v]> d.
Definition Delete (b : bbMap) (key : string) (d : data) : data := delete (fullKey b key) d.

(** [strings.Contains(ns, ":")] and [strings.ReplaceAll(ns, ":", "_")] *)
Fixpoint has_colon (s : string) : bool :=
  match s with
  | EmptyString => false
  | String c s => Ascii.eqb c ":" || has_colon s
  end.
Fixpoint replace_colons (s : string) : string :=
  match s with
  | EmptyString => EmptyString
  | String c s => String (if Ascii.eqb c ":" then "_"%char else c) (replace_colons s)
  end.

(** The new view's prefix replaces the receiver's. *)
Definition Namespace (b : bbMap) (ns : string) : bbMap :=
  mkBB (if has_colon ns then replace_colons ns else ns).

(** [strings.HasPrefix] followed by [strings.TrimPrefix]. *)
Fixpoint strip_prefix (p k : string) : option string :=
  match p, k with
  | EmptyString, _ => Some k
  | String a p, String b k => if Ascii.eqb a b then strip_prefix p k else None
  | String _ _, EmptyString => None
  end.

Definition Keys (b : bbMap) (d : data) : list string :=
  let keys := SliceStable String.ltb (map_to_list d).*1 in
  if decide (prefix b = "") then keys
  else omap (strip_prefix (prefix b +:+ ":")) keys.

(** ** Reading numbers *)
Definition getFloat (b : bbMap) (d : data) (key : string) : option spec_float :=
  match Get b d key with
  | Some (VFloat64 f) => Some f
  | Some (VFloat32 f) => Some f
  | Some (VInt z) => Some (f64_of_Z z)
  | Some (VInt64 z) => Some (f64_of_Z z)
  | _ => None
  end.

(** ** Distances ([systems/physics/physics.go])

    [math.Hypot], and the interfaces [Vector2] and [Transform]: a [Vec3] has
    the methods of [Vector2] too. *)
Definition f64_sqrt := SFsqrt 53 1024.
Definition Hypot (p q : spec_float) : spec_float :=
  let p := SFabs p in let q := SFabs q in
  match p, q with
  | S754_infinity _, _ | _, S754_infinity _ => S754_infinity false
  | S754_nan, _ | _, S754_nan => S754_nan
  | _, _ =>
      let '(p, q) := if SFltb p q then (q, p) else (p, q) in
      if SFeqb p (S754_zero false) then S754_zero false
      else let q := f64_div q p in f64_mul p (f64_sqrt (f64_add (f64_of_Z 1) (f64_mul q q)))
  end.
Definition Distance2 (x1 y1 x2 y2 : spec_float) : spec_float := Hypot (f64_sub x2 x1) (f64_sub y2 y1).
Definition as_Vector2 (v : val) : option (spec_float * spec_float) :=
  match v with VVec2 x y | VVec3 x y _ => Some (x, y) | _ => None end.
Definition Position2 (v : val) : option (spec_float * spec_float) :=
  match v with VTransform2D x y | VTransform3D x y _ => Some (x, y) | _ => None end.
Definition DistanceT (a b : spec_float * spec_float) : spec_float := Distance2 a.1 a.2 b.1 b.2.
Definition Distance2V (a b : spec_float * spec_float) : spec_float := Hypot (f64_sub b.1 a.1) (f64_sub b.2 a.2).

(** ** Sensors *)
(** The objects named by the keys if both are transforms, or both vectors;
    otherwise the coordinates. *)
Definition DistanceSensor_Update (srcKey dstKey srcX srcY dstX dstY out : string) (b : bbMap) (d : data) : result string data :=
  let objects :=
    if negb (String.eqb srcKey "") && negb (String.eqb dstKey "") then
      match Get b d srcKey, Get b d dstKey with
      | Some as_, Some bs =>
          match Position2 as_, Position2 bs with
          | Some at_, Some bt => Some (DistanceT at_ bt)
          | _, _ =>
              match as_Vector2 as_, as_Vector2 bs with
              | Some av, Some bv => Some (Distance2V av bv)
              | _, _ => None
              end
          end
      | _, _ => None
      end
    else None in
  match objects with
  | Some dist => Ok (Set_ b out (VFloat64 dist) d)
  | None =>
      match getFloat b d srcX, getFloat b d srcY, getFloat b d dstX, getFloat b d dstY with
      | Some x1, Some y1, Some x2, Some y2 => Ok (Set_ b out (VFloat64 (Hypot (f64_sub x2 x1) (f64_sub y2 y1))) d)
      | _, _, _, _ => Err "distance sensor missing coordinates or objects"
      end
  end.
(** The number of goroutines and the bytes allocated are the runtime's. *)
Definition SystemResourceSensor_Update (goroutines alloc : Z) (out : string) (b : bbMap) (d : data) : data :=
  Set_ b (out +:+ ".alloc_bytes") (VUint64 alloc) (Set_ b (out +:+ ".goroutines") (VInt goroutines) d).

Definition InventorySensor_Update (invKey out : string) (threshold : spec_float) (b : bbMap) (d : data)
    : result string data :=
  match getFloat b d invKey with
  | None => Err "inventory sensor: invalid inv value type"
  | Some v => Ok (Set_ b out (VBool (SFleb threshold v)) d)
  end.

(** [timeNowMS] is the fallback when no time is injected. *)
Definition TimerSensor_Update (name out : string) (interval timeNowMS : Z) (b : bbMap) (d : data) : data :=
  let key := name +:+ ".last" in
  let nowMS := match Get b d "__now_ms__" with Some (VInt64 v) => v | _ => timeNowMS end in
  let fire := Set_ b key (VInt64 nowMS) (Set_ b out (VBool true) d) in
  match Get b d key with
  | Some (VInt64 last) =>
      if wrapS 64 (nowMS - wrapS 64 interval) <? last then Set_ b out (VBool false) d else fire
  | _ => fire
  end.

Definition NetworkSensor_Update (out : string) (b : bbMap) (d : data) : data :=
  match Get b d "network_check" with
  | Some (VCheck r) => Set_ b (out +:+ ".ok") (VBool r) d
  | _ =>
      match Get b d "network.ok" with
      | Some (VBool r) => Set_ b (out +:+ ".ok") (VBool r) d
      | _ => Set_ b (out +:+ ".ok") (VBool false) d
      end
  end.

Definition DatabaseSensor_Update (out : string) (b : bbMap) (d : data) : data :=
  match Get b d "db_ping" with
  | Some (VPing err) => Set_ b (out +:+ ".ok") (VBool (bool_decide (err = None))) d
  | _ => Set_ b (out +:+ ".ok") (VBool false) d
  end.

(** ** Distances are symmetric *)
Lemma round_abs s m e l : SFabs (binary_round_aux 53 1024 s m e l) = SFabs (binary_round_aux 53 1024 (negb s) m e l).
Proof.
  unfold binary_round_aux. destruct (shr_fexp 53 1024 m e l) as [mrs e1].
  generalize (round_nearest_even (shr_m mrs) (loc_of_shr_record mrs)). intros r.
  destruct (shr_fexp 53 1024 r e1 loc_Exact) as [mrs2 e2].
  destruct (shr_m mrs2); try done. by destruct (e2 <=? 1024 - 53).
Qed.
Lemma normalize_abs m e s s' : SFabs (binary_normalize 53 1024 m e s) = SFabs (binary_normalize 53 1024 (- m) e s').
Proof.
  destruct m as [|p|p]; [done|..]; unfold binary_normalize, Z.opp, binary_round;
    generalize (fexp 53 1024 (Z.pos (digits2_pos p) + e)); intros f;
    destruct (shl_align p e f) as [mz ez]; apply round_abs.
Qed.
Lemma sub_abs x y : SFabs (f64_sub x y) = SFabs (f64_sub y x).
Proof.
  unfold f64_sub, SFsub. destruct x as [[]|[]| |sx mx ex], y as [[]|[]| |sy my ey]; try done.
  rewrite (Z.min_comm ey ex), (normalize_abs _ _ false false). do 2 f_equal. lia.
Qed.
Lemma Hypot_abs p q p' q' : SFabs p = SFabs p' -> SFabs q = SFabs q' -> Hypot p q = Hypot p' q'.
Proof. unfold Hypot. by intros -> ->. Qed.
Lemma Distance2_sym x1 y1 x2 y2 : Distance2 x1 y1 x2 y2 = Distance2 x2 y2 x1 y1.
Proof. unfold Distance2. apply Hypot_abs; apply sub_abs. Qed.

(** The distance sensor answers the same when source and destination are
    exchanged, and fails exactly when neither the objects nor the coordinates
    are there; it writes nothing but its output. *)
Theorem DistanceSensor_symmetric srcKey dstKey srcX srcY dstX dstY out b d :
  match DistanceSensor_Update srcKey dstKey srcX srcY dstX dstY out b d with
  | Ok d' => DistanceSensor_Update dstKey srcKey dstX dstY srcX srcY out b d = Ok d' /\ exists f, d' = Set_ b out (VFloat64 f) d
  | Err e => exists e', DistanceSensor_Update dstKey srcKey dstX dstY srcX srcY out b d = Err e'
  end.
Proof.
  unfold DistanceSensor_Update. rewrite (andb_comm (negb (String.eqb dstKey ""))).
  assert (forall P Q : option (spec_float * spec_float), match P, Q with Some a, Some c => Some (DistanceT a c) | _, _ => None end =
     match Q, P with Some a, Some c => Some (DistanceT a c) | _, _ => None end) as Esym.
  { intros [p|] [q|]; try done. unfold DistanceT. by rewrite Distance2_sym. }
  set (objs s t := match Get b d s, Get b d t with
      | Some as_, Some bs => match Position2 as_, Position2 bs with
          | Some at_, Some bt => Some (DistanceT at_ bt)
          | _, _ => match as_Vector2 as_, as_Vector2 bs with Some av, Some bv => Some (Distance2V av bv) | _, _ => None end end
      | _, _ => None end).
  assert (objs srcKey dstKey = objs dstKey srcKey) as E.
  { unfold objs. destruct (Get b d srcKey) as [u|], (Get b d dstKey) as [v|]; try done.
    pose proof (Esym (Position2 u) (Position2 v)) as E1. pose proof (Esym (as_Vector2 u) (as_Vector2 v)) as E2.
    change Distance2V with DistanceT. destruct (Position2 u), (Position2 v); done. }
  fold (objs srcKey dstKey). fold (objs dstKey srcKey). rewrite E.
  destruct (if _ && _ then objs dstKey srcKey else None) as [dist|].
  - split; [done|]. by eexists.
  - destruct (getFloat b d srcX), (getFloat b d srcY), (getFloat b d dstX), (getFloat b d dstY); try by eexists.
    split; [|by eexists]. do 3 f_equal. apply Hypot_abs; apply sub_abs.
Qed.

(** ** Namespaces *)
Lemma replace_colons_ok s : has_colon (replace_colons s) = false.
Proof.
  induction s as [|c s IH]; [done|]. cbn [replace_colons has_colon]. rewrite IH, orb_false_r.
  destruct (Ascii.eqb c ":") eqn:E; [done|exact E].
Qed.

(** The prefix of a view made by [Namespace] holds no colon. *)
Lemma Namespace_prefix b ns : has_colon (prefix (Namespace b ns)) = false.
Proof. simpl. destruct (has_colon ns) eqn:E; [apply replace_colons_ok|done]. Qed.

Lemma split_at_colon p q k l :
  has_colon p = false -> has_colon q = false ->
  p +:+ ":" +:+ k = q +:+ ":" +:+ l -> p = q /\ k = l.
Proof.
  revert q. induction p as [|a p IH]; intros [|b q]; cbn [String.append has_colon];
    rewrite ?orb_false_iff; intros Hp Hq E.
  - injection E as E. done.
  - injection E as <- E. destruct Hq as [Hq _]. done.
  - injection E as -> E. destruct Hp as [Hp _]. done.
  - injection E as -> E. destruct Hp as [_ Hp], Hq as [_ Hq].
    destruct (IH q Hp Hq E) as [-> ->]. done.
Qed.

Lemma fullKey_inj b k l : fullKey b k = fullKey b l -> k = l.
Proof.
  unfold fullKey. case_decide; [done|]. intros E.
  assert (H' : forall p, p +:+ ":" +:+ k = p +:+ ":" +:+ l -> k = l); [|by apply (H' (prefix b))].
  induction p as [|c p IH]; simpl; intros E'; [by injection E'|]. injection E' as E'. auto.
Qed.

(** Namespaces keep agents' data apart: two views made by [Namespace] with
    different non-empty (sanitised) names never see each other's keys,
    whatever colons the requested names and the keys contain; within a view,
    keys behave as a map. *)
Theorem namespace_isolation b1 b2 ns1 ns2 k1 k2 v d :
  let n1 := Namespace b1 ns1 in
  let n2 := Namespace b2 ns2 in
  prefix n1 <> "" -> prefix n2 <> "" -> prefix n1 <> prefix n2 ->
  Get n2 (Set_ n1 k1 v d) k2 = Get n2 d k2 /\ Get n2 (Delete n1 k1 d) k2 = Get n2 d k2 /\
  Get n1 (Set_ n1 k1 v d) k1 = Some v /\ Get n1 (Delete n1 k1 d) k1 = None /\
  (k1 <> k2 -> Get n1 (Set_ n1 k1 v d) k2 = Get n1 d k2).
Proof.
  intros n1 n2 H1 H2 Hne. pose proof (Namespace_prefix b1 ns1) as Hc1.
  pose proof (Namespace_prefix b2 ns2) as Hc2. fold n1 in Hc1. fold n2 in Hc2.
  assert (Hk : fullKey n1 k1 <> fullKey n2 k2).
  { unfold fullKey. rewrite !decide_False by done. intros E.
    by destruct (split_at_colon _ _ _ _ Hc1 Hc2 E). }
  unfold Get, Set_, Delete. rewrite lookup_insert_ne, lookup_delete_ne by done.
  rewrite lookup_insert_eq, lookup_delete_eq. do 4 (split; [done|]). intros Hkk.
  rewrite lookup_insert_ne; [done|]. by intros E%fullKey_inj.
Qed.

Lemma namespace_isolation_witness :
  Get (Namespace NewBlackboard "npc_2") (Set_ (Namespace NewBlackboard "npc:1") "hp" (VInt 5) ∅) "hp" = None.
Proof.
  refine (proj1 (namespace_isolation NewBlackboard NewBlackboard "npc:1" "npc_2" "hp" "hp" (VInt 5) ∅ _ _ _));
    vm_compute; discriminate.
Defined.

Lemma strip_prefix_Some p k k' : strip_prefix p k = Some k' <-> k = p +:+ k'.
Proof.
  revert k. induction p as [|a p IH]; intros k; cbn [strip_prefix String.append].
  - split; [by injection 1|by intros ->].
  - destruct k as [|b k]; [split; discriminate|].
    destruct (Ascii.eqb a b) eqn:E.
    + apply Ascii.eqb_eq in E as ->. rewrite IH. split; [by intros ->|]. by injection 1.
    + apply Ascii.eqb_neq in E. split; [done|]. injection 1. congruence.
Qed.

Lemma append_assoc (a b c : string) : (a +:+ b) +:+ c = a +:+ b +:+ c.
Proof. induction a as [|x a IH]; [done|]. exact (f_equal (String x) IH). Qed.

(** [Keys] of a view lists exactly the keys that [Get] finds in it, each
    stripped of the prefix. *)
Theorem Keys_complete b d k : k ∈ Keys b d <-> is_Some (Get b d k).
Proof.
  assert (Hall : forall k, k ∈ SliceStable String.ltb (map_to_list d).*1 <-> is_Some (d !! k)).
  { intros k'. rewrite SliceStable_perm, list_elem_of_fmap. split.
    - intros ([x v] & -> & Hx%elem_of_map_to_list). simpl. eauto.
    - intros [v Hv]. exists (k', v). split; [done|]. by apply elem_of_map_to_list. }
  unfold Keys, Get, fullKey. case_decide; [apply Hall|].
  rewrite list_elem_of_omap. split.
  - intros (x & Hx & Hs%strip_prefix_Some). apply Hall in Hx. rewrite Hs in Hx.
    by rewrite append_assoc in Hx.
  - intros Hk. exists ((prefix b +:+ ":") +:+ k). split; [|by apply strip_prefix_Some].
    apply Hall. by rewrite append_assoc.
Qed.
