(* ===== verification/BehaviorTree.v ===== *)
(** * Behaviour trees ([internal/core/npc/base.go], [actions.go],
    [composites.go], [decorators.go], [tree.go], [memory.go])

    A node ticks against a world: the agent's blackboard data, its decision
    history, the objects its closures share, and the positions reached in the stream of clock readings and in
    the stream of random draws. [Ticker] is the semantics of a node; each
    composite and decorator is a function on tickers, so the theorems about it
    hold whatever its children are. [node] is the syntax of trees and [tick]
    its interpreter; its fuel bounds only the two unbounded loops. *)
From S2P Require Import Prelude Blackboard.
From Stdlib Require Import ZArith Lia Strings.String Floats.SpecFloat.
From stdpp Require Import base list strings gmap.
Open Scope Z_scope.

(** ** Statuses *)
Inductive Status : Type := StatusSuccess | StatusFailure | StatusRunning | StatusOther (code : Z).
#[export] Instance Status_eq_dec : EqDecision Status.
Proof. solve_decision. Defined.

(** ** Memory *)
Record DecisionRecord : Type := mkRecord
  { Node : string; RStatus : Status; Duration : Z; RTimestamp : Z }.

(** [Metadata] is never set by the agent. *)
Definition simpleMemory : Type := list DecisionRecord.
Definition NewMemory : simpleMemory := [].
Definition AppendDecision (rec : DecisionRecord) (m : simpleMemory) : simpleMemory := m ++ [rec].
Definition History (m : simpleMemory) : list DecisionRecord := m.
Definition Reset_ (m : simpleMemory) : simpleMemory := take 0 m.

(** ** Worlds

    [objects]: the variables that closures of actions and conditions capture,
    by reference. *)
Record World : Type := mkWorld
  { bbdata : gmap string val; memory : simpleMemory; reads : nat; draws : nat; objects : gmap nat val }.

Definition with_data (f : gmap string val -> gmap string val) (w : World) : World :=
  mkWorld (f (bbdata w)) (memory w) (reads w) (draws w) (objects w).
Definition with_memory (f : simpleMemory -> simpleMemory) (w : World) : World :=
  mkWorld (bbdata w) (f (memory w)) (reads w) (draws w) (objects w).
Definition next_read (w : World) : World := mkWorld (bbdata w) (memory w) (S (reads w)) (draws w) (objects w).
Definition next_draw (w : World) : World := mkWorld (bbdata w) (memory w) (reads w) (S (draws w)) (objects w).

(** One tick: a status, an error, the new world; [None] when the fuel of an
    unbounded loop ran out. *)
Definition Ticked : Type := (Status * option nerr * World)%type.
Definition Ticker : Type := World -> option Ticked.

(** The zero [time.Time]; instants are nanoseconds from it. *)
Definition zero_time : Z := 0.

Inductive ParallelPolicy : Type :=
  ParallelRequireAllSuccess | ParallelRequireOneSuccess | ParallelOther (code : Z).

(** ** Nodes *)
Inductive node : Type :=
  | ActionFunc (name : string) (Fn : World -> Status * option nerr * World)
  | ConditionFunc (name : string) (Fn : World -> bool * option nerr * World)
  | WaitAction (name : string) (dur : Z)
  | LogAction (name key msg : string)
  | SetValueAction (name key : string) (value : val)
  | CalculateAction (name op leftKey rightKey out : string)
  | Sequence (name : string) (children : list node)
  | Selector (name : string) (children : list node)
  | Parallel (name : string) (policy : ParallelPolicy) (children : list node)
  | Random (name : string) (children : list node)
  | Priority (name : string) (children : list node)
  | Repeat (name : string) (Times : Z) (StopOnFailure : bool) (child : option node)
  | Timer (name : string) (Dur : Z) (child : option node)
  | Probability (name : string) (P : spec_float) (child : option node)
  | Inverter (name : string) (child : option node)
  | Succeeder (name : string) (child : option node)
  | Cooldown (name : string) (Dur : Z) (SuccessOnly : bool) (child : option node)
  | UntilSuccess (name : string) (MaxAttempts : Z) (child : option node)
  | UntilFailure (name : string) (MaxAttempts : Z) (child : option node).

Definition Name (n : node) : string :=
  match n with
  | ActionFunc name _ | ConditionFunc name _ | WaitAction name _ | LogAction name _ _
  | SetValueAction name _ _ | CalculateAction name _ _ _ _ | Sequence name _ | Selector name _
  | Parallel name _ _ | Random name _ | Priority name _ | Repeat name _ _ _ | Timer name _ _
  | Probability name _ _ | Inverter name _ | Succeeder name _ | Cooldown name _ _ _
  | UntilSuccess name _ _ | UntilFailure name _ _ => name
  end.

Section Tick.
(** The context of a tick: the blackboard view, the clock's readings in
    order, the random generators' draws in order. *)
Context (BB : bbMap) (clock : nat -> Z) (rand : nat -> nat) (frand : nat -> spec_float).

Definition Clock (w : World) : Z * World := (clock (reads w), next_read w).
(** [Intn(n)] and [Float64()] *)
Definition Intn (n : nat) (w : World) : nat * World := (Nat.modulo (rand (draws w)) n, next_draw w).
Definition Float64 (w : World) : spec_float * World := (frand (draws w), next_draw w).

Definition bb_get (key : string) (w : World) : option val := Get BB (bbdata w) key.
Definition bb_set (key : string) (v : val) (w : World) : World := with_data (Blackboard.Set_ BB key v) w.
Definition bb_delete (key : string) (w : World) : World := with_data (Blackboard.Delete BB key) w.

(** *** Leaves *)
Definition ActionFunc_Tick (Fn : World -> Status * option nerr * World) : Ticker :=
  fun w => Some (Fn w).

Definition ConditionFunc_Tick (Fn : World -> bool * option nerr * World) : Ticker :=
  fun w =>
    let '(ok, err, w) := Fn w in
    match err with
    | Some e => Some (StatusFailure, Some e, w)
    | None => if ok then Some (StatusSuccess, None, w) else Some (StatusFailure, None, w)
    end.

Definition WaitAction_Tick (name : string) (dur : Z) : Ticker :=
  fun w =>
    let key := name +:+ ".start" in
    let start_wait :=
      let '(now, w) := Clock w in Some (StatusRunning, None, bb_set key (VTime now) w) in
    match bb_get key w with
    | Some (VTime start) =>
        let '(now, w) := Clock w in
        if dur <=? time_Sub now start then Some (StatusSuccess, None, bb_delete key w)
        else Some (StatusRunning, None, w)
    | _ => start_wait
    end.

Definition LogAction_Tick (key msg : string) : Ticker :=
  fun w => Some (StatusSuccess, None, bb_set key (VString msg) w).

Definition SetValueAction_Tick (key : string) (v : val) : Ticker :=
  fun w => Some (StatusSuccess, None, bb_set key v w).

Definition CalculateAction_Tick (op leftKey rightKey out : string) : Ticker :=
  fun w =>
    match getFloat BB (bbdata w) leftKey, getFloat BB (bbdata w) rightKey with
    | Some lv, Some rv =>
        let store r := Some (StatusSuccess, None, bb_set out (VFloat64 r) w) in
        if String.eqb op "+" then store (f64_add lv rv)
        else if String.eqb op "-" then store (f64_sub lv rv)
        else if String.eqb op "*" then store (f64_mul lv rv)
        else if String.eqb op "/" then
          if SFeqb rv (S754_zero false) then Some (StatusFailure, Some (EText "division by zero"), w)
          else store (f64_div lv rv)
        else Some (StatusFailure, Some (EText ("unknown op: " +:+ op)), w)
    | _, _ => Some (StatusFailure, Some (EText "calc: operands missing"), w)
    end.

(** *** Composites *)
Fixpoint Sequence_Tick (children : list Ticker) : Ticker :=
  fun w =>
    match children with
    | [] => Some (StatusSuccess, None, w)
    | ch :: rest =>
        '(st, err, w) ← ch w;
        match err with
        | Some e => Some (StatusFailure, Some e, w)
        | None =>
            match st with
            | StatusFailure => Some (StatusFailure, None, w)
            | StatusRunning => Some (StatusRunning, None, w)
            | _ => Sequence_Tick rest w
            end
        end
    end.

Fixpoint Selector_loop (lastErr : option nerr) (children : list Ticker) : Ticker :=
  fun w =>
    match children with
    | [] => Some (StatusFailure, lastErr, w)
    | ch :: rest =>
        '(st, err, w) ← ch w;
        let lastErr := match err with Some _ => err | None => lastErr end in
        match st with
        | StatusSuccess => Some (StatusSuccess, err, w)
        | StatusRunning => Some (StatusRunning, err, w)
        | _ => Selector_loop lastErr rest w
        end
    end.
Definition Selector_Tick (children : list Ticker) : Ticker := Selector_loop None children.

Fixpoint Parallel_loop (successes : Z) (anyRunning : bool) (allErr : option nerr)
    (children : list Ticker) (w : World) : option (Z * bool * option nerr * World) :=
  match children with
  | [] => Some (successes, anyRunning, allErr, w)
  | ch :: rest =>
      '(st, err, w) ← ch w;
      let allErr := join_err allErr err in
      match st with
      | StatusSuccess => Parallel_loop (successes + 1) anyRunning allErr rest w
      | StatusRunning => Parallel_loop successes true allErr rest w
      | _ => Parallel_loop successes anyRunning allErr rest w
      end
  end.

Definition Parallel_Tick (policy : ParallelPolicy) (children : list Ticker) : Ticker :=
  fun w =>
    if bool_decide (length children = 0%nat) then Some (StatusSuccess, None, w) else
    '(successes, anyRunning, allErr, w) ← Parallel_loop 0 false None children w;
    match policy with
    | ParallelRequireAllSuccess =>
        if successes =? Z.of_nat (length children) then Some (StatusSuccess, allErr, w)
        else if (anyRunning : bool) then Some (StatusRunning, allErr, w)
        else Some (StatusFailure, allErr, w)
    | ParallelRequireOneSuccess =>
        if 0 <? successes then Some (StatusSuccess, allErr, w)
        else if (anyRunning : bool) then Some (StatusRunning, allErr, w)
        else Some (StatusFailure, allErr, w)
    | ParallelOther _ => Some (StatusFailure, Some (EText "unknown parallel policy"), w)
    end.

Definition Random_Tick (children : list Ticker) : Ticker :=
  fun w =>
    match children with
    | [] => Some (StatusSuccess, None, w)
    | first :: _ =>
        let '(idx, w) := Intn (length children) w in
        (nth idx children first) w
    end.

Fixpoint Priority_loop (allErr : option nerr) (children : list Ticker) : Ticker :=
  fun w =>
    match children with
    | [] => Some (StatusFailure, allErr, w)
    | ch :: rest =>
        '(st, err, w) ← ch w;
        let allErr := join_err allErr err in
        match st with
        | StatusSuccess => Some (StatusSuccess, allErr, w)
        | StatusRunning => Some (StatusRunning, allErr, w)
        | _ => Priority_loop allErr rest w
        end
    end.
Definition Priority_Tick (children : list Ticker) : Ticker := Priority_loop None children.

(** *** Decorators *)
Definition nil_child (msg : string) : Ticker := fun w => Some (StatusFailure, Some (EText msg), w).

Fixpoint Repeat_loop (n : nat) (StopOnFailure : bool) (child : Ticker) : Ticker :=
  fun w =>
    match n with
    | O => Some (StatusSuccess, None, w)
    | S n =>
        '(st, err, w) ← child w;
        match err with
        | Some e => Some (StatusFailure, Some e, w)
        | None =>
            if decide (st = StatusRunning) then Some (StatusRunning, None, w)
            else if bool_decide (st = StatusFailure) && StopOnFailure
            then Some (StatusFailure, None, w)
            else Repeat_loop n StopOnFailure child w
        end
    end.

Definition Repeat_Tick (Times : Z) (StopOnFailure : bool) (child : option Ticker) : Ticker :=
  match child with
  | None => nil_child "repeat: child is nil"
  | Some child => Repeat_loop (Z.to_nat Times) StopOnFailure child
  end.

Definition Timer_Tick (name : string) (Dur : Z) (child : option Ticker) : Ticker :=
  match child with
  | None => nil_child "timer: child is nil"
  | Some child => fun w =>
      let key := name +:+ ".start" in
      let v := bb_get key w in
      let '(now, w) := Clock w in
      match v with
      | None => Some (StatusRunning, None, bb_set key (VTime now) w)
      | Some v =>
          let start := match v with VTime s => s | _ => zero_time end in
          if time_Sub now start <? Dur then Some (StatusRunning, None, w)
          else
            '(st, err, w) ← child w;
            Some (st, err, bb_delete key w)
      end
  end.

Definition f64_one : spec_float := f64_of_Z 1.
Definition f64_zero : spec_float := S754_zero false.

Definition Probability_Tick (P : spec_float) (child : option Ticker) : Ticker :=
  match child with
  | None => nil_child "probability: child is nil"
  | Some child => fun w =>
      if SFleb P f64_zero then Some (StatusFailure, None, w)
      else if SFleb f64_one P then child w
      else
        let '(r, w) := Float64 w in
        if SFleb r P then child w else Some (StatusFailure, None, w)
  end.

Definition Inverter_Tick (child : option Ticker) : Ticker :=
  match child with
  | None => nil_child "inverter: child is nil"
  | Some child => fun w =>
      '(st, err, w) ← child w;
      match st with
      | StatusSuccess => Some (StatusFailure, err, w)
      | StatusFailure => Some (StatusSuccess, err, w)
      | _ => Some (st, err, w)
      end
  end.

Definition Succeeder_Tick (child : option Ticker) : Ticker :=
  match child with
  | None => fun w => Some (StatusSuccess, None, w)
  | Some child => fun w =>
      '(st, err, w) ← child w;
      if decide (st = StatusRunning) then Some (StatusRunning, err, w)
      else Some (StatusSuccess, err, w)
  end.

Definition Cooldown_Tick (name : string) (Dur : Z) (SuccessOnly : bool) (child : option Ticker) : Ticker :=
  match child with
  | None => nil_child "cooldown: child is nil"
  | Some child => fun w =>
      let key := name +:+ ".last" in
      let '(now, w) := Clock w in
      let run :=
        '(st, err, w) ← child w;
        if (SuccessOnly : bool) then
          if decide (st = StatusSuccess) then Some (st, err, bb_set key (VTime now) w)
          else Some (st, err, w)
        else
          if decide (st = StatusRunning) then Some (st, err, w)
          else Some (st, err, bb_set key (VTime now) w) in
      match bb_get key w with
      | Some (VTime last) =>
          if time_Sub now last <? Dur then Some (StatusFailure, None, w) else run
      | _ => run
      end
  end.

(** The loop of [UntilSuccess] ([stop] = success) and of [UntilFailure]
    ([stop] = failure); [exhausted] is the status when the attempts are
    used up, [attempts] the number made so far. *)
Fixpoint Until_loop (fuel : nat) (stop exhausted : Status) (MaxAttempts attempts : Z)
    (child : Ticker) : Ticker :=
  fun w =>
    match fuel with
    | O => None
    | S fuel =>
        '(st, err, w) ← child w;
        match err with
        | Some e => Some (StatusFailure, Some e, w)
        | None =>
            if decide (st = stop) then Some (StatusSuccess, None, w)
            else if decide (st = StatusRunning) then Some (StatusRunning, None, w)
            else
              let attempts := attempts + 1 in
              if (0 <? MaxAttempts) && (MaxAttempts <=? attempts)
              then Some (exhausted, None, w)
              else Until_loop fuel stop exhausted MaxAttempts attempts child w
        end
    end.

Definition UntilSuccess_Tick (fuel : nat) (MaxAttempts : Z) (child : option Ticker) : Ticker :=
  match child with
  | None => nil_child "until-success: child is nil"
  | Some child => Until_loop fuel StatusSuccess StatusFailure MaxAttempts 0 child
  end.

Definition UntilFailure_Tick (fuel : nat) (MaxAttempts : Z) (child : option Ticker) : Ticker :=
  match child with
  | None => nil_child "until-failure: child is nil"
  | Some child => Until_loop fuel StatusFailure StatusSuccess MaxAttempts 0 child
  end.

(** *** The interpreter: dynamic dispatch of [Tick] *)
Fixpoint tick (fuel : nat) (n : node) : Ticker :=
  match n with
  | ActionFunc _ Fn => ActionFunc_Tick Fn
  | ConditionFunc _ Fn => ConditionFunc_Tick Fn
  | WaitAction name dur => WaitAction_Tick name dur
  | LogAction _ key msg => LogAction_Tick key msg
  | SetValueAction _ key v => SetValueAction_Tick key v
  | CalculateAction _ op l r out => CalculateAction_Tick op l r out
  | Sequence _ children => Sequence_Tick (List.map (tick fuel) children)
  | Selector _ children => Selector_Tick (List.map (tick fuel) children)
  | Parallel _ policy children => Parallel_Tick policy (List.map (tick fuel) children)
  | Random _ children => Random_Tick (List.map (tick fuel) children)
  | Priority _ children => Priority_Tick (List.map (tick fuel) children)
  | Repeat _ times stop child => Repeat_Tick times stop (option_map (tick fuel) child)
  | Timer name d child => Timer_Tick name d (option_map (tick fuel) child)
  | Probability _ p child => Probability_Tick p (option_map (tick fuel) child)
  | Inverter _ child => Inverter_Tick (option_map (tick fuel) child)
  | Succeeder _ child => Succeeder_Tick (option_map (tick fuel) child)
  | Cooldown name d so child => Cooldown_Tick name d so (option_map (tick fuel) child)
  | UntilSuccess _ mx child => UntilSuccess_Tick fuel mx (option_map (tick fuel) child)
  | UntilFailure _ mx child => UntilFailure_Tick fuel mx (option_map (tick fuel) child)
  end.

(** [Tree]: a root that may be nil. *)
Definition Tree_Tick (fuel : nat) (root : option node) : Ticker :=
  match root with
  | None => fun w => Some (StatusSuccess, None, w)
  | Some n => tick fuel n
  end.
End Tick.

(** ** Induction on trees *)
Definition kids (n : node) : list node :=
  match n with
  | Sequence _ cs | Selector _ cs | Parallel _ _ cs | Random _ cs | Priority _ cs => cs
  | Repeat _ _ _ c | Timer _ _ c | Probability _ _ c | Inverter _ c | Succeeder _ c
  | Cooldown _ _ _ c | UntilSuccess _ _ c | UntilFailure _ _ c => option_list c
  | _ => []
  end.

Definition all_Forall {A} (P : A -> Prop) (f : forall x, P x) : forall l, Forall P l :=
  fix go l :=
    match l with
    | [] => List.Forall_nil P
    | x :: l => @List.Forall_cons A P x l (f x) (go l)
    end.

Definition all_option {A} (P : A -> Prop) (f : forall x, P x) (o : option A) : Forall P (option_list o) :=
  match o with
  | None => List.Forall_nil P
  | Some x => @List.Forall_cons A P x [] (f x) (List.Forall_nil P)
  end.

Lemma node_induction (P : node -> Prop) :
  (forall n, (forall c, c ∈ kids n -> P c) -> P n) -> forall n, P n.
Proof.
  intros H. fix IH 1. intros n. apply H, Forall_forall.
  destruct n; solve [exact (all_Forall P IH children) | exact (all_option P IH child) | exact (List.Forall_nil P)].
Qed.

(** ** Fuel *)

(** A ticker that answers whenever another does, with the same answer. *)
Definition refines (t1 t2 : Ticker) : Prop := forall w r, t1 w = Some r -> t2 w = Some r.
Definition total (t : Ticker) : Prop := forall w, is_Some (t w).

(** Run one child: case on its answer. *)
Ltac run_child :=
  match goal with
  | H : refines ?t1 ?t2, E : mbind _ (?t1 ?w) = Some _ |- _ =>
      let Ec := fresh "Ec" in
      destruct (t1 w) as [[[??]?]|] eqn:Ec; simpl in E; [|discriminate E];
      rewrite (H _ _ Ec); simpl
  | H : refines ?t1 ?t2, E : ?t1 ?w = Some _ |- ?t2 ?w = Some _ => exact (H _ _ E)
  | E : _ = Some _, H : forall _, _ |- _ = Some _ => first [exact (H _ _ _ E) | exact (H _ _ _ _ _ E)]
  | H : total ?t |- is_Some (mbind _ (?t ?w)) =>
      let Ec := fresh "Ec" in
      destruct (H w) as [[[??]?] Ec]; rewrite Ec; simpl
  | H : total ?t |- is_Some (?t ?w) => exact (H w)
  end.
Ltac run_tree := repeat first [run_child | case_match; simplify_eq/= | done | by eauto | progress intros].

Section Fuel.
Context (BB : bbMap) (clock : nat -> Z) (rand : nat -> nat) (frand : nat -> spec_float).

Lemma Sequence_refines cs1 cs2 : Forall2 refines cs1 cs2 -> refines (Sequence_Tick cs1) (Sequence_Tick cs2).
Proof. induction 1 as [|t1 t2 cs1 cs2 H _ IH]; intros w r; simpl; [done|]. intros E. run_tree. Qed.

Lemma Selector_refines cs1 cs2 : Forall2 refines cs1 cs2 ->
  forall e, refines (Selector_loop e cs1) (Selector_loop e cs2).
Proof. induction 1 as [|t1 t2 cs1 cs2 H _ IH]; intros e w r; simpl; [done|]. intros E. run_tree. Qed.

Lemma Priority_refines cs1 cs2 : Forall2 refines cs1 cs2 ->
  forall e, refines (Priority_loop e cs1) (Priority_loop e cs2).
Proof. induction 1 as [|t1 t2 cs1 cs2 H _ IH]; intros e w r; simpl; [done|]. intros E. run_tree. Qed.

Lemma Parallel_loop_refines cs1 cs2 : Forall2 refines cs1 cs2 -> forall s a e w r,
  Parallel_loop s a e cs1 w = Some r -> Parallel_loop s a e cs2 w = Some r.
Proof. induction 1 as [|t1 t2 cs1 cs2 H _ IH]; intros s a e w r; simpl; [done|]. intros E. run_tree. Qed.

Lemma Parallel_refines p cs1 cs2 : Forall2 refines cs1 cs2 -> refines (Parallel_Tick p cs1) (Parallel_Tick p cs2).
Proof.
  intros H w r. unfold Parallel_Tick. rewrite (Forall2_length _ _ _ H). case_bool_decide; [done|].
  destruct (Parallel_loop _ _ _ cs1 w) as [x|] eqn:E; [|done].
  by rewrite (Parallel_loop_refines _ _ H _ _ _ _ _ E).
Qed.

Lemma Random_refines cs1 cs2 : Forall2 refines cs1 cs2 ->
  refines (Random_Tick rand cs1) (Random_Tick rand cs2).
Proof.
  intros H w r. unfold Random_Tick. rewrite (Forall2_length _ _ _ H).
  destruct H as [|t1 t2 cs1 cs2 H Hl]; [done|]. cbn [Intn].
  generalize (Nat.modulo (rand (draws w)) (length (t2 :: cs2))) as i. intros i.
  assert (Hn : forall l1 l2 i, Forall2 refines l1 l2 -> refines (nth i l1 t1) (nth i l2 t2)).
  { intros l1 l2 j Hj. revert j. induction Hj; intros [|j]; simpl; auto. }
  apply Hn. by constructor.
Qed.

Lemma Repeat_refines n b t1 t2 : refines t1 t2 -> refines (Repeat_loop n b t1) (Repeat_loop n b t2).
Proof. intros H. induction n as [|n IH]; intros w r; simpl; [done|]. intros E. run_tree. Qed.

Lemma Until_refines f1 f2 s e m t1 t2 : refines t1 t2 -> (f1 <= f2)%nat ->
  forall a, refines (Until_loop f1 s e m a t1) (Until_loop f2 s e m a t2).
Proof.
  intros H. revert f2. induction f1 as [|f1 IH]; intros f2 Hf a w r; simpl; [done|].
  destruct f2 as [|f2]; [lia|]. simpl. intros E.
  run_child. repeat (case_match; [done|]). eapply IH; [lia|done].
Qed.

Lemma map_refines f1 f2 cs :
  (forall c, c ∈ cs -> refines (tick BB clock rand frand f1 c) (tick BB clock rand frand f2 c)) ->
  Forall2 refines (List.map (tick BB clock rand frand f1) cs) (List.map (tick BB clock rand frand f2) cs).
Proof.
  intros H. induction cs as [|c cs IH]; simpl; constructor.
  - apply H. constructor.
  - apply IH. intros d Hd. apply H. by constructor.
Qed.

(** More fuel never changes an answer. *)
Lemma tick_fuel_mono f1 f2 n : (f1 <= f2)%nat ->
  refines (tick BB clock rand frand f1 n) (tick BB clock rand frand f2 n).
Proof.
  intros Hf. induction n as [n IH] using node_induction.
  destruct n; simpl in IH |- *; try (intros w r E; exact E);
    lazymatch goal with
    | child : option node |- _ =>
        destruct child as [c|]; [|intros w r E; exact E]; simpl;
        pose proof (IH c (list_elem_of_here _ _)) as Hc
    | _ => apply map_refines in IH
    end;
    first [ by apply Sequence_refines | by apply Selector_refines | by apply Priority_refines
          | by apply Parallel_refines | by apply Random_refines | by apply Repeat_refines
          | by apply Until_refines | intros w r E; simpl in *; run_tree ].
Qed.
End Fuel.

(** ** Composites, for any children *)
Section Run_until.
Context (continues : Status -> option nerr -> bool).

(** The children run in order, each in the world the one before left, and all
    let the composite go on; [errs] are the errors they returned. *)
Inductive passes : list Ticker -> World -> list (option nerr) -> World -> Prop :=
  | passes_nil w : passes [] w [] w
  | passes_cons ch rest w st err w1 errs w2 :
      ch w = Some (st, err, w1) -> continues st err = true ->
      passes rest w1 errs w2 -> passes (ch :: rest) w (err :: errs) w2.

(** They do up to a child that does not, whose answer is [st], [err]; those
    after it do not run. *)
Definition stops_at (cs : list Ticker) (w : World) (errs : list (option nerr))
    (st : Status) (err : option nerr) (w' : World) : Prop :=
  exists pre ch post w1, cs = pre ++ ch :: post /\ passes pre w errs w1 /\
    ch w1 = Some (st, err, w') /\ continues st err = false.

Fixpoint run_until (cs : list Ticker) (w : World)
    : option (list (option nerr) * option (Status * option nerr) * World) :=
  match cs with
  | [] => Some ([], None, w)
  | ch :: rest =>
      '(st, err, w) ← ch w;
      if continues st err then
        '(errs, stop, w) ← run_until rest w; Some (err :: errs, stop, w)
      else Some ([], Some (st, err), w)
  end.

Lemma run_until_all cs w errs w' : run_until cs w = Some (errs, None, w') <-> passes cs w errs w'.
Proof.
  split.
  - revert w errs. induction cs as [|ch cs IH]; intros w errs; simpl.
    { intros [= <- <-]. constructor. }
    destruct (ch w) as [[[st e] w1]|] eqn:Ech; [|done]. simpl. case_match eqn:Ec; [|done].
    destruct (run_until cs w1) as [[[errs1 stop] w2]|] eqn:Er; simpl; [|done].
    intros [= <- -> ->]. by econstructor; eauto.
  - induction 1 as [|ch rest w st err w1 errs w2 Hch Hc _ IH]; [done|].
    simpl. rewrite Hch. simpl. by rewrite Hc, IH.
Qed.

Lemma run_until_stop cs w errs st err w' :
  run_until cs w = Some (errs, Some (st, err), w') <-> stops_at cs w errs st err w'.
Proof.
  split.
  - revert w errs. induction cs as [|ch cs IH]; intros w errs; simpl; [done|].
    destruct (ch w) as [[[st1 e] w1]|] eqn:Ech; [|done]. simpl. case_match eqn:Ec.
    + destruct (run_until cs w1) as [[[errs1 stop] w2]|] eqn:Er; simpl; [|done].
      intros [= <- -> ->]. destruct (IH _ _ Er) as (pre & c & post & w3 & -> & Hp & H).
      exists (ch :: pre), c, post, w3. split; [done|]. split; [by econstructor|done].
    + intros [= <- -> -> ->]. exists [], ch, cs, w. split; [done|]. split; [constructor|done].
  - intros (pre & c & post & w1 & -> & Hp & Hc & Hn).
    induction Hp as [|ch rest w st1 err1 w1 errs w2 Hch Hc1 _ IH]; simpl.
    + rewrite Hc. simpl. by rewrite Hn.
    + rewrite Hch. simpl. by rewrite Hc1, IH.
Qed.
End Run_until.

(** Answers after which [Sequence], and [Selector] or [Priority], go on. *)
Definition seq_continues (st : Status) (err : option nerr) : bool :=
  match err, st with
  | None, (StatusSuccess | StatusOther _) => true
  | _, _ => false
  end.
Definition sel_continues (st : Status) (err : option nerr) : bool :=
  match st with StatusSuccess | StatusRunning => false | _ => true end.

Lemma Sequence_run cs w :
  Sequence_Tick cs w =
    '(_, stop, w') ← run_until seq_continues cs w;
    match stop with
    | None => Some (StatusSuccess, None, w')
    | Some (st, err) => Some (match err with Some _ => StatusFailure | None => st end, err, w')
    end.
Proof.
  revert w. induction cs as [|ch cs IH]; intros w; simpl; [done|].
  destruct (ch w) as [[[st [e|]] w1]|]; simpl; [done| |done].
  destruct st; simpl; try done; rewrite IH; by destruct (run_until seq_continues cs w1) as [[[??]?]|].
Qed.

(** The last error among those returned, and all of them joined. *)
Definition last_error (init : option nerr) (errs : list (option nerr)) : option nerr :=
  foldl (fun acc e => match e with Some _ => e | None => acc end) init errs.
Definition joined (init : option nerr) (errs : list (option nerr)) : option nerr := foldl join_err init errs.

Lemma Selector_run cs e0 w :
  Selector_loop e0 cs w =
    '(errs, stop, w') ← run_until sel_continues cs w;
    match stop with
    | None => Some (StatusFailure, last_error e0 errs, w')
    | Some (st, err) => Some (st, err, w')
    end.
Proof.
  revert e0 w. induction cs as [|ch cs IH]; intros e0 w; simpl; [done|].
  destruct (ch w) as [[[st e] w1]|]; simpl; [|done].
  destruct st; simpl; try done; rewrite IH; by destruct (run_until sel_continues cs w1) as [[[??]?]|].
Qed.

Lemma Priority_run cs e0 w :
  Priority_loop e0 cs w =
    '(errs, stop, w') ← run_until sel_continues cs w;
    match stop with
    | None => Some (StatusFailure, joined e0 errs, w')
    | Some (st, err) => Some (st, join_err (joined e0 errs) err, w')
    end.
Proof.
  revert e0 w. induction cs as [|ch cs IH]; intros e0 w; simpl; [done|].
  destruct (ch w) as [[[st e] w1]|]; simpl; [|done].
  destruct st; simpl; try done; rewrite IH; by destruct (run_until sel_continues cs w1) as [[[??]?]|].
Qed.

(** A [Sequence] runs its children in order, each in the world the previous
    one left, up to the first that fails, keeps running or returns an error; it
    answers with that child's status ([Failure] when there is an error), and
    with [Success] exactly when every child lets it go on. Later children do
    not run. *)
Theorem Sequence_correct cs w st err w' :
  Sequence_Tick cs w = Some (st, err, w') <->
  (exists errs, passes seq_continues cs w errs w' /\ st = StatusSuccess /\ err = None) \/
  (exists errs st1, stops_at seq_continues cs w errs st1 err w' /\
     st = match err with Some _ => StatusFailure | None => st1 end).
Proof.
  rewrite Sequence_run. setoid_rewrite <- run_until_all. setoid_rewrite <- run_until_stop.
  destruct (run_until seq_continues cs w) as [[[errs [[st1 e1]|]] w1]|]; simpl; naive_solver.
Qed.

(** [Selector] and [Priority] are the same search: they try the children in
    order up to the first that succeeds or runs, with the same status and the
    same effects; they differ only in errors. [Selector] forgets the errors of
    the children it gave up on once one answers, and keeps only the last when
    all fail; [Priority] joins them all. *)
Theorem Selector_Priority_correct cs w st w' :
  (forall err, Selector_Tick cs w = Some (st, err, w') <->
    (exists errs, passes sel_continues cs w errs w' /\ st = StatusFailure /\ err = last_error None errs) \/
    (exists errs, stops_at sel_continues cs w errs st err w')) /\
  (forall err, Priority_Tick cs w = Some (st, err, w') <->
    (exists errs, passes sel_continues cs w errs w' /\ st = StatusFailure /\ err = joined None errs) \/
    (exists errs e, stops_at sel_continues cs w errs st e w' /\ err = join_err (joined None errs) e)).
Proof.
  setoid_rewrite <- run_until_all. setoid_rewrite <- run_until_stop.
  unfold Selector_Tick, Priority_Tick. rewrite Selector_run, Priority_run.
  destruct (run_until sel_continues cs w) as [[[errs [[st1 e1]|]] w1]|]; simpl; split; naive_solver.
Qed.

(** No answer of the ticker carries an error. *)
Definition error_free (t : Ticker) : Prop := forall w st err w', t w = Some (st, err, w') -> err = None.

Definition invert (t : Ticker) : Ticker := Inverter_Tick (Some t).

(** De Morgan: for children that return no error, an inverted [Sequence] is
    the [Selector] of the inverted children, and an inverted [Selector] the
    [Sequence] of them, effects included. *)
Theorem de_morgan cs (Hcs : Forall error_free cs) w :
  invert (Sequence_Tick cs) w = Selector_Tick (invert <$> cs) w /\
  invert (Selector_Tick cs) w = Sequence_Tick (invert <$> cs) w.
Proof.
  revert w. unfold Selector_Tick, invert in *.
  induction Hcs as [|t cs Ht Hcs IH]; intros w; [done|]. cbn [Sequence_Tick Selector_loop Inverter_Tick fmap list_fmap].
  destruct (t w) as [[[st e] w1]|] eqn:E; cbn; [|done].
  rewrite (Ht _ _ _ _ E). destruct (IH w1) as [IH1 IH2]. cbn in IH1, IH2.
  by destruct st; cbn; rewrite ?IH1, ?IH2.
Qed.

(** ** Parallel *)

(** Every child once, in order, whatever the others answer. *)
Fixpoint run_all (cs : list Ticker) (w : World) : option (list (Status * option nerr) * World) :=
  match cs with
  | [] => Some ([], w)
  | ch :: rest => '(st, err, w) ← ch w; '(outs, w) ← run_all rest w; Some ((st, err) :: outs, w)
  end.

Definition count (st : Status) (outs : list (Status * option nerr)) : nat :=
  length (filter (fun o => o.1 = st) outs).

Definition parallel_status (policy : ParallelPolicy) (outs : list (Status * option nerr)) : Status :=
  let ok := match policy with
    | ParallelRequireAllSuccess => bool_decide (count StatusSuccess outs = length outs)
    | _ => bool_decide (0 < count StatusSuccess outs)%nat
    end in
  if ok then StatusSuccess
  else if bool_decide (0 < count StatusRunning outs)%nat then StatusRunning else StatusFailure.

Lemma count_cons st s e outs :
  count st ((s, e) :: outs) = ((if decide (s = st) then 1 else 0) + count st outs)%nat.
Proof. unfold count. rewrite filter_cons. simpl. by case_decide. Qed.

Lemma Parallel_loop_run cs s a e w :
  Parallel_loop s a e cs w =
    '(outs, w') ← run_all cs w;
    Some (s + Z.of_nat (count StatusSuccess outs),
          a || bool_decide (0 < count StatusRunning outs)%nat, joined e (outs.*2), w').
Proof.
  revert s a e w. unfold joined. induction cs as [|ch cs IH]; intros s a e w; cbn [Parallel_loop run_all].
  { cbn. by rewrite Z.add_0_r, orb_false_r. }
  destruct (ch w) as [[[st e1] w1]|]; cbn; [|done].
  destruct st; rewrite IH; destruct (run_all cs w1) as [[outs w2]|]; cbn [mbind option_bind]; try done;
    rewrite !count_cons, ?decide_True, ?decide_False by done; cbn [fmap list_fmap foldl snd Nat.add]; try done.
  - do 3 f_equal. f_equal. lia.
  - do 3 f_equal. f_equal. by rewrite (bool_decide_true (0 < S _)%nat), orb_true_r by lia.
Qed.

(** C25: A [Parallel] with children runs every one exactly once, in order and
    whatever the others answer, and answers by counting: all (or one)
    successful, otherwise running if a child is, otherwise failed, every error
    reported, joined in order; with an unknown policy it fails for that reason
    alone, after running them. Without children it succeeds under any policy. *)
Theorem Parallel_correct policy cs w :
  Parallel_Tick policy cs w =
    match cs with
    | [] => Some (StatusSuccess, None, w)
    | _ =>
        '(outs, w') ← run_all cs w;
        Some (match policy with
              | ParallelOther _ => (StatusFailure, Some (EText "unknown parallel policy"))
              | _ => (parallel_status policy outs, joined None outs.*2)
              end, w')
    end.
Proof.
  destruct cs as [|ch0 cs0]; [done|]. remember (ch0 :: cs0) as cs eqn:Ecs.
  unfold Parallel_Tick. rewrite bool_decide_false by (by subst).
  rewrite Parallel_loop_run.
  assert (Hlen : forall outs w', run_all cs w = Some (outs, w') -> length outs = length cs).
  { clear Ecs. revert w. induction cs as [|ch cs IH]; intros w outs w'; cbn; [by intros [= <- _]|].
    destruct (ch w) as [[[st e1] w1]|]; cbn; [|done].
    destruct (run_all cs w1) as [[o w2]|] eqn:E; cbn; [|done].
    intros [= <- _]. cbn. by rewrite (IH _ _ _ E). }
  destruct (run_all cs w) as [[outs w']|] eqn:E; cbn; [|done].
  rewrite <- (Hlen _ _ eq_refl). unfold parallel_status.
  assert (Heq : forall a b, (Z.of_nat a =? Z.of_nat b) = bool_decide (a = b)).
  { intros a b. case_bool_decide; [apply Z.eqb_eq|apply Z.eqb_neq]; lia. }
  assert (Hlt : forall a, (0 <? Z.of_nat a) = bool_decide (0 < a)%nat).
  { intros a. case_bool_decide; [apply Z.ltb_lt|apply Z.ltb_ge]; lia. }
  rewrite Z.add_0_l, Heq, Hlt.
  destruct policy as [| |c]; repeat case_bool_decide; done.
Qed.

(** ** Time *)

(** [k] ticks in a row, with the statuses they returned. *)
Fixpoint ticks (k : nat) (t : Ticker) (w : World) : option (list Status * World) :=
  match k with
  | O => Some ([], w)
  | S k => '(st, _, w) ← t w; '(sts, w) ← ticks k t w; Some (st :: sts, w)
  end.

Section Time.
Context (BB : bbMap) (clock : nat -> Z).

Lemma bb_get_set key v w : bb_get BB key (bb_set BB key v w) = Some v.
Proof. apply lookup_insert_eq. Qed.

Lemma bb_get_delete key w : bb_get BB key (bb_delete BB key w) = None.
Proof. apply lookup_delete_eq. Qed.

Lemma bb_get_set_ne key1 key2 v w : fullKey BB key1 <> fullKey BB key2 ->
  bb_get BB key1 (bb_set BB key2 v w) = bb_get BB key1 w.
Proof. intros. by apply lookup_insert_ne. Qed.

Lemma bb_get_delete_ne key1 key2 w : fullKey BB key1 <> fullKey BB key2 ->
  bb_get BB key1 (bb_delete BB key2 w) = bb_get BB key1 w.
Proof. intros. by apply lookup_delete_ne. Qed.

Lemma bb_get_next_read key w : bb_get BB key (next_read w) = bb_get BB key w.
Proof. done. Qed.

Lemma bb_delete_set key v w : bb_get BB key w = None ->
  bb_delete BB key (bb_set BB key v w) = w.
Proof.
  destruct w as [d m r n]. unfold bb_get, bb_delete, bb_set, with_data. intros H. cbn. f_equal.
  by apply delete_insert_id.
Qed.

(** The world [k] clock readings later. *)
Definition after_reads (k : nat) (w : World) : World :=
  mkWorld (bbdata w) (memory w) (reads w + k) (draws w) (objects w).

Lemma ticks_S k t w :
  ticks (S k) t w = '(st, _, w1) ← t w; '(sts, w2) ← ticks k t w1; Some (st :: sts, w2).
Proof. done. Qed.

Lemma Wait_fresh name dur w : (forall s, bb_get BB (name +:+ ".start") w <> Some (VTime s)) ->
  WaitAction_Tick BB clock name dur w =
    Some (StatusRunning, None, bb_set BB (name +:+ ".start") (VTime (clock (reads w))) (next_read w)).
Proof.
  intros H. unfold WaitAction_Tick. cbv zeta.
  destruct (bb_get BB (name +:+ ".start") w) as [[]|]; try done. by destruct (H t).
Qed.

Lemma Wait_started name dur s w : bb_get BB (name +:+ ".start") w = Some (VTime s) ->
  WaitAction_Tick BB clock name dur w =
    if dur <=? time_Sub (clock (reads w)) s
    then Some (StatusSuccess, None, bb_delete BB (name +:+ ".start") (next_read w))
    else Some (StatusRunning, None, next_read w).
Proof. intros H. unfold WaitAction_Tick. cbv zeta. by rewrite H. Qed.

Lemma after_reads_S k w : after_reads (S k) w = after_reads k (next_read w).
Proof. unfold after_reads. cbn. f_equal. lia. Qed.

Lemma ticks_wait name dur s k w :
  bb_get BB (name +:+ ".start") w = Some (VTime s) ->
  (forall i, (i < k)%nat -> time_Sub (clock (reads w + i)%nat) s < dur) ->
  dur <= time_Sub (clock (reads w + k)%nat) s ->
  ticks (S k) (WaitAction_Tick BB clock name dur) w =
    Some (replicate k StatusRunning ++ [StatusSuccess],
          bb_delete BB (name +:+ ".start") (after_reads (S k) w)).
Proof.
  revert w. induction k as [|k IH]; intros w Hs Hlt Hge; rewrite ticks_S, (Wait_started _ _ s) by done.
  - rewrite Nat.add_0_r in Hge. rewrite (proj2 (Z.leb_le _ _) Hge). cbn [mbind option_bind ticks].
    destruct w. unfold after_reads. cbn. by rewrite Nat.add_1_r.
  - pose proof (Hlt 0%nat ltac:(lia)) as H0. rewrite Nat.add_0_r in H0.
    rewrite (proj2 (Z.leb_gt _ _) H0). cbn [mbind option_bind].
    rewrite IH; [by rewrite <- after_reads_S| done | |].
    + intros i Hi. replace (reads (next_read w) + i)%nat with (reads w + S i)%nat by (cbn; lia). apply Hlt. lia.
    + by replace (reads (next_read w) + k)%nat with (reads w + S k)%nat by (cbn; lia).
Qed.
End Time.

(** [WaitAction] waits: from a tick that finds no start time under its key,
    it reports [Running] until the first later tick whose clock reading is
    [dur] after the reading of that first tick, reports [Success] there, and
    leaves the blackboard as it was before, ready to wait again. *)
Theorem Wait_correct BB clock name dur k w :
  bb_get BB (name +:+ ".start") w = None ->
  (forall i, (i < k)%nat -> time_Sub (clock (reads w + S i)%nat) (clock (reads w)) < dur) ->
  dur <= time_Sub (clock (reads w + S k)%nat) (clock (reads w)) ->
  ticks (S (S k)) (WaitAction_Tick BB clock name dur) w =
    Some (replicate (S k) StatusRunning ++ [StatusSuccess], after_reads (S (S k)) w).
Proof.
  intros Hn Hlt Hge.
  rewrite ticks_S, Wait_fresh by (rewrite Hn; done). cbn [mbind option_bind].
  set (w1 := bb_set _ _ _ _). rewrite (ticks_wait BB clock name dur (clock (reads w)) k w1).
  - cbn [mbind option_bind]. change (after_reads (S k) w1) with
      (bb_set BB (name +:+ ".start") (VTime (clock (reads w))) (after_reads (S k) (next_read w))).
    by rewrite bb_delete_set, <- after_reads_S.
  - apply bb_get_set.
  - intros i Hi. replace (reads w1 + i)%nat with (reads w + S i)%nat by (cbn; lia). by apply Hlt.
  - by replace (reads w1 + k)%nat with (reads w + S k)%nat by (cbn; lia).
Qed.

Definition empty_world : World := mkWorld ∅ [] 0 0 ∅.

Lemma Wait_correct_witness :
  ticks 4 (WaitAction_Tick NewBlackboard (fun i => 40 * Z.of_nat i) "Wait" 100) empty_world =
    Some ([StatusRunning; StatusRunning; StatusRunning; StatusSuccess], after_reads 4 empty_world).
Proof.
  apply (Wait_correct NewBlackboard (fun i => 40 * Z.of_nat i) "Wait" 100 2 empty_world).
  - reflexivity.
  - intros [|[|i]] H; [reflexivity|reflexivity|lia].
  - vm_compute. discriminate.
Defined.

Lemma Timer_fresh BB clock name dur child w : bb_get BB (name +:+ ".start") w = None ->
  Timer_Tick BB clock name dur (Some child) w =
    Some (StatusRunning, None, bb_set BB (name +:+ ".start") (VTime (clock (reads w))) (next_read w)).
Proof. intros H. unfold Timer_Tick. cbv beta iota zeta. by rewrite H. Qed.

Lemma Timer_started BB clock name dur child s w : bb_get BB (name +:+ ".start") w = Some (VTime s) ->
  Timer_Tick BB clock name dur (Some child) w =
    if time_Sub (clock (reads w)) s <? dur then Some (StatusRunning, None, next_read w)
    else '(st, err, w1) ← child (next_read w); Some (st, err, bb_delete BB (name +:+ ".start") w1).
Proof. intros H. unfold Timer_Tick. cbv beta iota zeta. by rewrite H. Qed.

Lemma ticks_timer BB clock name dur child s k w :
  bb_get BB (name +:+ ".start") w = Some (VTime s) ->
  (forall i, (i < k)%nat -> time_Sub (clock (reads w + i)%nat) s < dur) ->
  ticks k (Timer_Tick BB clock name dur (Some child)) w =
    Some (replicate k StatusRunning, after_reads k w).
Proof.
  revert w. induction k as [|k IH]; intros w Hs Hlt.
  { destruct w. unfold after_reads. cbn. by rewrite Nat.add_0_r. }
  rewrite ticks_S. pose proof (Hlt 0%nat ltac:(lia)) as H0. rewrite Nat.add_0_r in H0.
  rewrite (Timer_started _ _ _ _ _ s) by done.
  rewrite (proj2 (Z.ltb_lt _ _) H0). cbn [mbind option_bind]. rewrite IH.
  - by rewrite <- after_reads_S.
  - done.
  - intros i Hi. replace (reads (next_read w) + i)%nat with (reads w + S i)%nat by (cbn; lia). apply Hlt. lia.
Qed.

(** [Timer] holds its child back: from a tick that finds no start time, it
    reports [Running] without running the child while less than [Dur] has
    passed since that tick; once it has, it runs the child, returns its answer
    and forgets the start time, whatever the child did. *)
Theorem Timer_correct BB clock name dur child k w :
  let t := Timer_Tick BB clock name dur (Some child) in
  bb_get BB (name +:+ ".start") w = None ->
  (forall i, (i < k)%nat -> time_Sub (clock (reads w + S i)%nat) (clock (reads w)) < dur) ->
  dur <= time_Sub (clock (reads w + S k)%nat) (clock (reads w)) ->
  exists w1, ticks (S k) t w = Some (replicate (S k) StatusRunning, w1) /\
    w1 = bb_set BB (name +:+ ".start") (VTime (clock (reads w))) (after_reads (S k) w) /\
    forall st err w2, child (next_read w1) = Some (st, err, w2) ->
      exists w3, t w1 = Some (st, err, w3) /\ bb_get BB (name +:+ ".start") w3 = None.
Proof.
  intros t Hn Hlt Hge. eexists. split; [|split; [reflexivity|]].
  - rewrite ticks_S. unfold t. rewrite Timer_fresh by done. cbn [mbind option_bind].
    rewrite (ticks_timer _ _ _ _ _ (clock (reads w))); [by rewrite after_reads_S|apply bb_get_set|].
    intros i Hi. cbn. rewrite <- Nat.add_succ_r. by apply Hlt.
  - intros st err w2 Hc. unfold t. rewrite (Timer_started _ _ _ _ _ (clock (reads w))) by apply bb_get_set.
    rewrite (proj2 (Z.ltb_ge _ _)) by done. rewrite Hc. cbn [mbind option_bind].
    eexists. split; [done|]. apply bb_get_delete.
Qed.

Lemma Timer_correct_witness :
  exists w1, ticks 2 (Timer_Tick NewBlackboard (fun i => 60 * Z.of_nat i) "Timer" 100
      (Some (LogAction_Tick NewBlackboard "log" "go"))) empty_world =
    Some ([StatusRunning; StatusRunning], w1).
Proof.
  destruct (Timer_correct NewBlackboard (fun i => 60 * Z.of_nat i) "Timer" 100
    (LogAction_Tick NewBlackboard "log" "go") 1 empty_world) as (w1 & H & _).
  - reflexivity.
  - intros [|i] H; [reflexivity|lia].
  - vm_compute. discriminate.
  - exists w1. exact H.
Defined.

(** [Cooldown] keeps the last run's time: after it ran its child and the
    child succeeded, every later tick answers [Failure] without running the
    child, and changes nothing but the clock position, while less than [Dur]
    has passed since the start of that run and nobody else writes its key;
    after that it runs the child again. *)
Theorem Cooldown_correct BB clock name Dur so child w err w1 w2 :
  let t := Cooldown_Tick BB clock name Dur so (Some child) in
  0 <= Dur ->
  t w = Some (StatusSuccess, err, w1) ->
  bb_get BB (name +:+ ".last") w2 = bb_get BB (name +:+ ".last") w1 ->
  (time_Sub (clock (reads w2)) (clock (reads w)) < Dur -> t w2 = Some (StatusFailure, None, next_read w2)) /\
  (Dur <= time_Sub (clock (reads w2)) (clock (reads w)) ->
   forall st e w3, child (next_read w2) = Some (st, e, w3) -> exists w4, t w2 = Some (st, e, w4)).
Proof.
  intros t Hd Ht Hkey.
  assert (Hlast : bb_get BB (name +:+ ".last") w1 = Some (VTime (clock (reads w)))).
  { revert Ht. unfold t, Cooldown_Tick. cbv beta iota zeta. cbn [Clock].
    destruct (child (next_read w)) as [[[st e] w']|]; cbn [mbind option_bind];
      repeat (case_match; simplify_eq); intros [= <- <- <-] || intros [=]; subst;
      try done; apply bb_get_set. }
  rewrite Hlast in Hkey. unfold t, Cooldown_Tick. cbv beta iota zeta. cbn [Clock].
  rewrite bb_get_next_read, Hkey. split.
  - intros Hlt%Z.ltb_lt. by rewrite Hlt.
  - intros Hge%Z.ltb_ge st e w3 Hc. rewrite Hge, Hc. cbn [mbind option_bind]. repeat case_match; eauto.
Qed.

Lemma Cooldown_correct_witness :
  let t := Cooldown_Tick NewBlackboard (fun i => 60 * Z.of_nat i) "Cooldown" 100 true
             (Some (LogAction_Tick NewBlackboard "log" "go")) in
  exists w1, t empty_world = Some (StatusSuccess, None, w1) /\ t w1 = Some (StatusFailure, None, next_read w1).
Proof.
  eexists. split; [reflexivity|].
  refine (proj1 (Cooldown_correct NewBlackboard (fun i => 60 * Z.of_nat i) "Cooldown" 100 true
    (LogAction_Tick NewBlackboard "log" "go") empty_world None _ _ _ _ _) _).
  - lia.
  - reflexivity.
  - reflexivity.
  - reflexivity.
Defined.

(** ** The unbounded loops *)

(** The child ran [k] times in a row without error, each time with a status
    that is neither the one waited for nor [Running]. *)
Inductive misses (stop : Status) (child : Ticker) : nat -> World -> World -> Prop :=
  | misses_0 w : misses stop child 0 w w
  | misses_S k w st w1 w2 : child w = Some (st, None, w1) -> st <> stop -> st <> StatusRunning ->
      misses stop child k w1 w2 -> misses stop child (S k) w w2.

Lemma Until_misses fuel stop ex mx a child k w w1 :
  misses stop child k w w1 -> mx <= 0 \/ a + Z.of_nat k < mx -> 0 <= a ->
  Until_loop (k + fuel) stop ex mx a child w = Until_loop fuel stop ex mx (a + Z.of_nat k) child w1.
Proof.
  intros H. revert a. induction H as [w|k w st w1 w2 Hc Hs Hr H IH]; intros a Hm Ha.
  { by rewrite Z.add_0_r. }
  cbn [Nat.add Until_loop]. rewrite Hc. cbn [mbind option_bind]. rewrite !decide_False by done.
  rewrite (proj2 (andb_false_iff _ _)) by (rewrite Z.ltb_ge, Z.leb_gt; lia).
  rewrite IH by lia. f_equal. lia.
Qed.

Lemma misses_split stop child k w w1 : misses stop child (S k) w w1 ->
  exists w0 st, misses stop child k w w0 /\ child w0 = Some (st, None, w1) /\ st <> stop /\ st <> StatusRunning.
Proof.
  revert w. induction k as [|k IH]; intros w H; inversion H as [|? ? st wm ? Hc Hs Hr H']; subst.
  - inversion H'; subst. exists w, st. repeat split; try done. constructor.
  - destruct (IH _ H') as (w0 & st' & Hm & Hrest). exists w0, st'. split; [by econstructor|done].
Qed.

(** The loops of [UntilSuccess] and [UntilFailure]: they run the child again
    until it gives the status waited for, which they report as [Success], as
    long as attempts are left; when [MaxAttempts > 0] runs miss, they stop
    after exactly that many; with [MaxAttempts <= 0] and a child that always
    misses they never return, whatever the fuel. *)
Theorem Until_correct stop ex mx child w : stop <> StatusRunning ->
  let t fuel := Until_loop fuel stop ex mx 0 child in
  (forall k w1 w2 fuel, misses stop child k w w1 -> child w1 = Some (stop, None, w2) ->
     (mx <= 0 \/ Z.of_nat k < mx) -> (k < fuel)%nat -> t fuel w = Some (StatusSuccess, None, w2)) /\
  (forall w1 fuel, 0 < mx -> misses stop child (Z.to_nat mx) w w1 -> (Z.to_nat mx <= fuel)%nat ->
     t fuel w = Some (ex, None, w1)) /\
  (mx <= 0 -> (forall k, exists w1, misses stop child k w w1) -> forall fuel, t fuel w = None).
Proof.
  intros Hsr t. split; [|split].
  - intros k w1 w2 fuel Hm Hc Hk Hf. unfold t. replace fuel with (k + S (fuel - S k))%nat by lia.
    rewrite (Until_misses _ _ _ _ _ _ _ _ _ Hm) by lia. cbn [Until_loop]. rewrite Hc.
    cbn [mbind option_bind]. by rewrite decide_True.
  - intros w1 fuel Hp Hm Hf. destruct (Z.to_nat mx) as [|k] eqn:Ek; [lia|].
    destruct (misses_split _ _ _ _ _ Hm) as (w0 & st & Hm0 & Hc & Hs & Hr). unfold t.
    replace fuel with (k + S (fuel - S k))%nat by lia.
    rewrite (Until_misses _ _ _ _ _ _ _ _ _ Hm0) by lia. cbn [Until_loop]. rewrite Hc.
    cbn [mbind option_bind]. rewrite !decide_False by done.
    by rewrite (proj2 (andb_true_iff _ _)) by (rewrite Z.ltb_lt, Z.leb_le; lia).
  - intros Hmx Hall fuel. destruct (Hall fuel) as [w1 Hm]. unfold t.
    rewrite <- (Nat.add_0_r fuel) at 1. by rewrite (Until_misses _ _ _ _ _ _ _ _ _ Hm) by lia.
Qed.

Lemma Until_correct_witness :
  UntilSuccess_Tick 50 0 (Some (Random_Tick (fun _ => 0%nat)
    [ConditionFunc_Tick (fun w => (false, None, w))])) empty_world = None.
Proof.
  set (child := Random_Tick _ _).
  refine (proj2 (proj2 (Until_correct StatusSuccess StatusFailure 0 child empty_world _)) _ _ 50%nat).
  - discriminate.
  - reflexivity.
  - intros k. generalize empty_world. induction k as [|k IH]; intros w.
    + exists w. constructor.
    + destruct (IH (next_draw w)) as [w1 Hw]. exists w1.
      apply (misses_S _ _ _ _ StatusFailure (next_draw w)); [reflexivity|discriminate|discriminate|exact Hw].
Defined.

(** ** Termination *)

(** Every loop of the tree has a bound, within the fuel. *)
Fixpoint bounded (fuel : nat) (n : node) : bool :=
  match n with
  | Sequence _ cs | Selector _ cs | Parallel _ _ cs | Random _ cs | Priority _ cs =>
      forallb (bounded fuel) cs
  | UntilSuccess _ mx c | UntilFailure _ mx c =>
      (0 <? mx) && (mx <=? Z.of_nat fuel) && match c with None => true | Some c => bounded fuel c end
  | Repeat _ _ _ c | Timer _ _ c | Probability _ _ c | Inverter _ c | Succeeder _ c | Cooldown _ _ _ c =>
      match c with None => true | Some c => bounded fuel c end
  | _ => true
  end.

Lemma Until_total fuel stop ex mx a child : total child -> 0 <= a -> 0 < mx - a <= Z.of_nat fuel ->
  total (Until_loop fuel stop ex mx a child).
Proof.
  intros Hc. revert a. induction fuel as [|fuel IH]; intros a Ha Hb w; [lia|].
  cbn [Until_loop]. destruct (Hc w) as [[[st [e|]] w1] ->]; cbn [mbind option_bind]; [done|].
  repeat (case_decide; [done|]).
  case_match eqn:E; [done|]. apply IH; [lia|].
  apply andb_false_iff in E. rewrite Z.ltb_ge, Z.leb_gt in E. lia.
Qed.

Lemma run_until_total cont cs w : Forall total cs -> is_Some (run_until cont cs w).
Proof.
  intros H. revert w. induction H as [|t cs Ht _ IH]; intros w; cbn [run_until]; [done|].
  destruct (Ht w) as [[[st e] w1] ->]. cbn [mbind option_bind]. case_match; [|done].
  by destruct (IH w1) as [[[? ?] ?] ->].
Qed.

Lemma run_all_total cs w : Forall total cs -> is_Some (run_all cs w).
Proof.
  intros H. revert w. induction H as [|t cs Ht _ IH]; intros w; cbn [run_all]; [done|].
  destruct (Ht w) as [[[st e] w1] ->]. cbn [mbind option_bind].
  by destruct (IH w1) as [[? ?] ->].
Qed.

Lemma Sequence_total cs : Forall total cs -> total (Sequence_Tick cs).
Proof.
  intros H w. rewrite Sequence_run. destruct (run_until_total seq_continues cs w H) as [[[? [[??]|]] ?] ->];
    cbn [mbind option_bind]; done.
Qed.
Lemma Selector_total cs : Forall total cs -> total (Selector_Tick cs).
Proof.
  intros H w. unfold Selector_Tick. rewrite Selector_run.
  destruct (run_until_total sel_continues cs w H) as [[[? [[??]|]] ?] ->]; cbn [mbind option_bind]; done.
Qed.
Lemma Priority_total cs : Forall total cs -> total (Priority_Tick cs).
Proof.
  intros H w. unfold Priority_Tick. rewrite Priority_run.
  destruct (run_until_total sel_continues cs w H) as [[[? [[??]|]] ?] ->]; cbn [mbind option_bind]; done.
Qed.
Lemma Parallel_total p cs : Forall total cs -> total (Parallel_Tick p cs).
Proof.
  intros H w. unfold Parallel_Tick. case_bool_decide; [done|]. rewrite Parallel_loop_run.
  destruct (run_all_total cs w H) as [[? ?] ->]. cbn [mbind option_bind]. repeat case_match; done.
Qed.
Lemma Random_total rand cs : Forall total cs -> total (Random_Tick rand cs).
Proof.
  intros H w. unfold Random_Tick. destruct H as [|t cs Ht H]; [done|]. cbn [Intn].
  generalize (Nat.modulo (rand (draws w)) (length (t :: cs))) as i. intros i.
  assert (Ha : Forall total (t :: cs)) by by constructor. rewrite Forall_forall in Ha.
  destruct (nth_in_or_default i (t :: cs) t) as [Hi| ->]; [|done].
  by apply (Ha _ (proj2 (list_elem_of_In _ _) Hi)).
Qed.
Lemma Repeat_total n b t : total t -> total (Repeat_loop n b t).
Proof.
  intros H. induction n as [|n IH]; intros w; cbn [Repeat_loop]; [done|].
  destruct (H w) as [[[st [e|]] w1] ->]; cbn [mbind option_bind]; [done|].
  case_decide; [done|]. case_match; [done|]. apply IH.
Qed.

(** C24: A tick of a tree whose loops are all bounded terminates: with fuel for
    its largest bound the interpreter always answers, on any world, whatever
    the nodes, clock and random draws. *)
Theorem tick_total BB clock rand frand fuel n (Hb : bounded fuel n = true) w :
  is_Some (tick BB clock rand frand fuel n w).
Proof.
  enough (H : total (tick BB clock rand frand fuel n)) by apply H. clear w.
  revert Hb. induction n as [n IH] using node_induction. intros Hb.
  assert (Hl : forall cs, (forall c, c ∈ cs -> c ∈ kids n) -> forallb (bounded fuel) cs = true ->
    Forall total (List.map (tick BB clock rand frand fuel) cs)).
  { intros cs Hk Hcs. rewrite forallb_forall in Hcs. apply List.Forall_map, Forall_forall.
    intros c Hc. apply IH; [auto|]. apply Hcs. by apply list_elem_of_In. }
  destruct n; cbn [bounded] in Hb; cbn [tick];
    lazymatch goal with
    | child : option node |- _ => destruct child as [c|]; [|intros w; eexists; reflexivity]; cbn [option_map];
        repeat (apply andb_true_iff in Hb as [? Hb]);
        pose proof (IH c (list_elem_of_here _ _) Hb) as Hc
    | children : list node |- _ => apply (Hl _ (fun _ H => H)) in Hb
    | _ => idtac
    end;
    first [ by apply Sequence_total | by apply Selector_total | by apply Priority_total
          | by apply Parallel_total | by apply Random_total | by apply Repeat_total
          | apply Until_total; [done|lia|lia] | idtac ].
  all: intros w; cbv [ActionFunc_Tick ConditionFunc_Tick WaitAction_Tick CalculateAction_Tick Timer_Tick
    Probability_Tick Inverter_Tick Succeeder_Tick Cooldown_Tick Clock Float64]; run_tree.
Qed.

(** ** What a tick may change *)
Section Respects.
Context (BB : bbMap) (clock : nat -> Z) (rand : nat -> nat) (frand : nat -> spec_float).
(** A preorder on worlds that the blackboard operations and the oracles respect. *)
Context (R : relation World) `{!PreOrder R}.
Context (R_read : forall w, R w (next_read w)) (R_draw : forall w, R w (next_draw w))
        (R_data : forall f w, R w (with_data f w)).

Definition respects (t : Ticker) : Prop := forall w st err w', t w = Some (st, err, w') -> R w w'.

(** The leaves of a tree respect [R]. *)
Fixpoint leaves (n : node) : Prop :=
  match n with
  | ActionFunc _ Fn => forall w, R w (Fn w).2
  | ConditionFunc _ Fn => forall w, R w (Fn w).2
  | Sequence _ cs | Selector _ cs | Parallel _ _ cs | Random _ cs | Priority _ cs =>
      foldr (fun c P => leaves c /\ P) True cs
  | UntilSuccess _ _ c | UntilFailure _ _ c | Repeat _ _ _ c | Timer _ _ c | Probability _ _ c
  | Inverter _ c | Succeeder _ c | Cooldown _ _ _ c => match c with None => True | Some c => leaves c end
  | _ => True
  end.

Lemma run_until_respects cont cs w errs stop w' : Forall respects cs ->
  run_until cont cs w = Some (errs, stop, w') -> R w w'.
Proof.
  intros H. revert w errs. induction H as [|t cs Ht _ IH]; intros w errs; cbn [run_until].
  { by intros [= _ _ <-]. }
  destruct (t w) as [[[st e] w1]|] eqn:E; cbn [mbind option_bind]; [|done]. apply Ht in E.
  case_match; [|by intros [= _ _ <-]].
  destruct (run_until cont cs w1) as [[[? ?] w2]|] eqn:E2; cbn [mbind option_bind]; [|done].
  intros [= _ -> ->]. etrans; [exact E|]. by eapply IH.
Qed.

Lemma run_all_respects cs w outs w' : Forall respects cs -> run_all cs w = Some (outs, w') -> R w w'.
Proof.
  intros H. revert w outs. induction H as [|t cs Ht _ IH]; intros w outs; cbn [run_all].
  { by intros [= _ <-]. }
  destruct (t w) as [[[st e] w1]|] eqn:E; cbn [mbind option_bind]; [|done]. apply Ht in E.
  destruct (run_all cs w1) as [[? w2]|] eqn:E2; cbn [mbind option_bind]; [|done].
  intros [= _ ->]. etrans; [exact E|]. by eapply IH.
Qed.

Lemma Sequence_respects cs : Forall respects cs -> respects (Sequence_Tick cs).
Proof.
  intros H w st err w'. rewrite Sequence_run.
  destruct (run_until seq_continues cs w) as [[[? [[??]|]] ?]|] eqn:E; cbn [mbind option_bind]; [| |done];
    intros [= _ _ <-]; by eapply run_until_respects.
Qed.
Lemma Selector_respects cs : Forall respects cs -> respects (Selector_Tick cs).
Proof.
  intros H w st err w'. unfold Selector_Tick. rewrite Selector_run.
  destruct (run_until sel_continues cs w) as [[[? [[??]|]] ?]|] eqn:E; cbn [mbind option_bind]; [| |done];
    intros [= _ _ <-]; by eapply run_until_respects.
Qed.
Lemma Priority_respects cs : Forall respects cs -> respects (Priority_Tick cs).
Proof.
  intros H w st err w'. unfold Priority_Tick. rewrite Priority_run.
  destruct (run_until sel_continues cs w) as [[[? [[??]|]] ?]|] eqn:E; cbn [mbind option_bind]; [| |done];
    intros [= _ _ <-]; by eapply run_until_respects.
Qed.
Lemma Parallel_respects p cs : Forall respects cs -> respects (Parallel_Tick p cs).
Proof.
  intros H w st err w'. unfold Parallel_Tick. case_bool_decide; [by intros [= _ _ <-]|].
  rewrite Parallel_loop_run. destruct (run_all cs w) as [[? w1]|] eqn:E; cbn [mbind option_bind]; [|done].
  repeat case_match; intros [= _ _ <-]; by eapply run_all_respects.
Qed.
Lemma Random_respects cs : Forall respects cs -> respects (Random_Tick rand cs).
Proof.
  intros H w st err w'. unfold Random_Tick. destruct cs as [|t cs]; [by intros [= _ _ <-]|]. cbn [Intn].
  generalize (Nat.modulo (rand (draws w)) (length (t :: cs))) as i. intros i Ht.
  rewrite Forall_forall in H. etrans; [apply R_draw|].
  destruct (nth_in_or_default i (t :: cs) t) as [Hi|Hi].
  - by eapply (H _ (proj2 (list_elem_of_In _ _) Hi)).
  - rewrite Hi in Ht. eapply H; [apply list_elem_of_here|exact Ht].
Qed.
Lemma Repeat_respects n b t : respects t -> respects (Repeat_loop n b t).
Proof.
  intros H. induction n as [|n IH]; intros w st err w'; cbn [Repeat_loop]; [by intros [= _ _ <-]|].
  destruct (t w) as [[[s [e|]] w1]|] eqn:E; cbn [mbind option_bind]; [| |done]; apply H in E;
    [by intros [= _ _ <-]|].
  repeat (case_match; [by intros [= _ _ <-]|]). intros Hr. etrans; [exact E|]. by eapply IH.
Qed.
Lemma Until_respects fuel stop ex mx t : respects t -> forall a, respects (Until_loop fuel stop ex mx a t).
Proof.
  intros H. induction fuel as [|fuel IH]; intros a w st err w'; cbn [Until_loop]; [done|].
  destruct (t w) as [[[s [e|]] w1]|] eqn:E; cbn [mbind option_bind]; [| |done]; apply H in E;
    [by intros [= _ _ <-]|].
  repeat (case_match; [by intros [= _ _ <-]|]). intros Hr. etrans; [exact E|]. by eapply IH.
Qed.

(** Follow the world back from the last change. *)
Ltac trace :=
  lazymatch goal with
  | |- R ?a ?a => reflexivity
  | |- R _ (with_data _ _) => etrans; [|apply R_data]; trace
  | |- R _ (next_read _) => etrans; [|apply R_read]; trace
  | |- R _ (next_draw _) => etrans; [|apply R_draw]; trace
  | H : R _ ?w |- R _ ?w => etrans; [|exact H]; clear H; trace
  end.

Lemma tick_respects fuel n : leaves n -> respects (tick BB clock rand frand fuel n).
Proof.
  induction n as [n IH] using node_induction. intros Hn.
  assert (Hl : forall cs, (forall c, c ∈ cs -> c ∈ kids n) -> foldr (fun c P => leaves c /\ P) True cs ->
    Forall respects (List.map (tick BB clock rand frand fuel) cs)).
  { intros cs Hk Hcs. induction cs as [|c cs IHcs]; simpl; constructor.
    - apply IH; [apply Hk; constructor|apply Hcs].
    - apply IHcs; [|apply Hcs]. intros d Hd. apply Hk. by constructor. }
  destruct n; cbn [leaves] in Hn; cbn [tick];
    lazymatch goal with
    | child : option node |- _ =>
        destruct child as [c|]; [|intros w st err w' [= _ _ <-]; done]; cbn [option_map];
        pose proof (IH c (list_elem_of_here _ _) Hn) as Hc
    | children : list node |- _ => apply (Hl _ (fun _ H => H)) in Hn
    | _ => idtac
    end;
    first [ by apply Sequence_respects | by apply Selector_respects | by apply Priority_respects
          | by apply Parallel_respects | by apply Random_respects | by apply Repeat_respects
          | by apply Until_respects | idtac ].
  all: intros w st err w'.
  all: cbv [ActionFunc_Tick ConditionFunc_Tick WaitAction_Tick LogAction_Tick SetValueAction_Tick
    CalculateAction_Tick Timer_Tick Probability_Tick Inverter_Tick Succeeder_Tick Cooldown_Tick
    Clock Float64 mbind option_bind bb_set bb_delete].
  all: repeat (case_match; try discriminate); intros; simplify_eq.
  all: repeat match goal with
    | E : tick _ _ _ _ _ _ _ = Some _ |- _ => apply Hc in E
    | E : ?Fn ?w = (_, ?w') |- R ?w ?w' => let H := fresh in pose proof (Hn w) as H; rewrite E in H; exact H
    end.
  all: trace.
Qed.
End Respects.

(** ** Nodes with the same name *)

Lemma same_name_waits BB clock name d1 d2 rest w :
  exists w', Sequence_Tick (WaitAction_Tick BB clock name d1 :: WaitAction_Tick BB clock name d2 :: rest) w
             = Some (StatusRunning, None, w').
Proof.
  cbn [Sequence_Tick].
  assert (Hcase : (exists s, bb_get BB (name +:+ ".start") w = Some (VTime s)) \/
    forall s, bb_get BB (name +:+ ".start") w <> Some (VTime s)).
  { destruct (bb_get BB (name +:+ ".start") w) as [[]|]; eauto; by right. }
  destruct Hcase as [[s Hs]|Hn].
  - rewrite (Wait_started _ _ _ _ s) by done. case_match; cbn [mbind option_bind]; [|by eexists].
    rewrite Wait_fresh by (rewrite bb_get_delete; done). by eexists.
  - rewrite Wait_fresh by done. by eexists.
Qed.

(** Under names whose keys differ the same [Sequence] does finish: with
    enough time between the ticks, the fourth one succeeds. *)
Theorem distinct_waits_finish BB clock n1 n2 d1 d2 w :
  let k1 := n1 +:+ ".start" in let k2 := n2 +:+ ".start" in
  let at_ i := clock (reads w + i)%nat in
  fullKey BB k1 <> fullKey BB k2 -> bb_get BB k1 w = None -> bb_get BB k2 w = None ->
  d1 <= time_Sub (at_ 1%nat) (at_ 0%nat) -> d1 <= time_Sub (at_ 4%nat) (at_ 3%nat) ->
  d2 <= time_Sub (at_ 5%nat) (at_ 2%nat) ->
  exists w', ticks 4 (Sequence_Tick [WaitAction_Tick BB clock n1 d1; WaitAction_Tick BB clock n2 d2]) w
             = Some ([StatusRunning; StatusRunning; StatusRunning; StatusSuccess], w').
Proof.
  intros k1 k2 at_ Hk H1 H2 Ha Hb Hc. subst at_. cbv beta in Ha, Hb, Hc.
  rewrite Nat.add_0_r in Ha. rewrite (Nat.add_comm _ 1), (Nat.add_comm _ 2), (Nat.add_comm _ 3),
    (Nat.add_comm _ 4), (Nat.add_comm _ 5) in *. cbn [Nat.add] in *.
  pose proof (not_eq_sym Hk) as Hk'.
  set (t := Sequence_Tick _).
  assert (Hfresh : forall v, bb_get BB k1 v = None ->
    t v = Some (StatusRunning, None, bb_set BB k1 (VTime (clock (reads v))) (next_read v))).
  { intros v Hv. unfold t. cbn [Sequence_Tick]. by rewrite Wait_fresh by (fold k1; rewrite Hv; done). }
  rewrite ticks_S, Hfresh by done. cbn [mbind option_bind]. set (w1 := bb_set _ _ _ _).
  assert (E2 : t w1 = Some (StatusRunning, None,
      bb_set BB k2 (VTime (clock (S (S (reads w))))) (next_read (bb_delete BB k1 (next_read w1))))).
  { unfold t. cbn [Sequence_Tick]. rewrite (Wait_started _ _ _ _ (clock (reads w))) by apply bb_get_set.
    rewrite (proj2 (Z.leb_le _ _)) by done. cbn [mbind option_bind]. rewrite Wait_fresh; [done|].
    rewrite bb_get_delete_ne, bb_get_next_read by done. unfold w1. rewrite bb_get_set_ne by done.
    rewrite bb_get_next_read. unfold k2 in H2. rewrite H2. done. }
  rewrite ticks_S, E2. cbn [mbind option_bind]. set (w2 := bb_set _ _ _ _).
  rewrite ticks_S, Hfresh.
  2:{ unfold w2. rewrite bb_get_set_ne, bb_get_next_read by done. apply bb_get_delete. }
  cbn [mbind option_bind]. set (w3 := bb_set _ _ _ _).
  assert (E4 : exists w4, t w3 = Some (StatusSuccess, None, w4)).
  { unfold t. cbn [Sequence_Tick]. rewrite (Wait_started _ _ _ _ (clock (reads w2))) by apply bb_get_set.
    rewrite (proj2 (Z.leb_le _ _)) by done. cbn [mbind option_bind].
    rewrite (Wait_started _ _ _ _ (clock (S (S (reads w))))).
    - rewrite (proj2 (Z.leb_le _ _)) by done. by eexists.
    - rewrite bb_get_delete_ne, bb_get_next_read by done. unfold w3. rewrite bb_get_set_ne by done.
      rewrite bb_get_next_read. apply bb_get_set. }
  destruct E4 as [w4 E4]. exists w4. rewrite ticks_S, E4. done.
Qed.

Lemma distinct_waits_finish_witness :
  exists w', ticks 4 (Sequence_Tick [WaitAction_Tick NewBlackboard (fun i => 60 * Z.of_nat i) "a" 50;
      WaitAction_Tick NewBlackboard (fun i => 60 * Z.of_nat i) "b" 50]) empty_world
    = Some ([StatusRunning; StatusRunning; StatusRunning; StatusSuccess], w').
Proof.
  apply (distinct_waits_finish NewBlackboard (fun i => 60 * Z.of_nat i) "a" "b" 50 50 empty_world);
    first [reflexivity | vm_compute; discriminate].
Defined.

(** ** Witnesses on small trees *)
Definition succeeds : Ticker := fun w => Some (StatusSuccess, None, w).
Definition fails : Ticker := fun w => Some (StatusFailure, None, w).

Lemma Parallel_correct_witness :
  Parallel_Tick ParallelRequireOneSuccess [fails; succeeds; fails] empty_world
    = Some (StatusSuccess, None, empty_world) /\
  Parallel_Tick ParallelRequireOneSuccess [] empty_world = Some (StatusSuccess, None, empty_world).
Proof. split; rewrite Parallel_correct; reflexivity. Defined.

Lemma de_morgan_witness :
  invert (Sequence_Tick [succeeds; fails]) empty_world
    = Selector_Tick (invert <$> [succeeds; fails]) empty_world.
Proof.
  refine (proj1 (de_morgan [succeeds; fails] _ empty_world)).
  repeat constructor; intros w st err w' [= _ <- _]; reflexivity.
Defined.

Definition sample_tree : node :=
  Selector "root"
    [UntilSuccess "retry" 3 (Some (ConditionFunc "no" (fun w => (false, None, w))));
     Parallel "both" ParallelRequireAllSuccess [LogAction "Log" "k" "v"; Cooldown "cd" 5 true (Some (WaitAction "w" 7))]].

Lemma tick_total_witness :
  is_Some (tick NewBlackboard (fun i => Z.of_nat i) (fun _ => 0%nat) (fun _ => f64_zero) 3 sample_tree empty_world).
Proof. apply (tick_total NewBlackboard _ _ _ 3 sample_tree). reflexivity. Defined.
