(* ===== verification/Agent.v ===== *)
(** * Agents: registry, configuration, stepping
    ([internal/core/npc/registry.go], [buildin.go], [loader.go], [agent.go])

    A registry maps type names to factories; [Build] turns a configuration of
    named nodes into one tree, creating each node once; an agent runs its
    sensors, ticks its tree and records the decision. A factory gives a node of
    its own at every call, as all built-in ones do: a registered factory that
    hands out one shared object, whose children a later [SetChild] would
    replace, is not represented. [None] is the recursion without end of a cyclic
    configuration; [Build_correct] gives a bound on the fuel for the others. *)
From S2P Require Import Prelude Blackboard BehaviorTree.
From Stdlib Require Import ZArith Lia Strings.String Floats.SpecFloat.
From stdpp Require Import base list strings gmap.
Open Scope Z_scope.

(** ** Registry *)
Definition params : Type := gmap string val.
Definition factory (A : Type) : Type := params -> result string A.

(** [Update]: sensors read and write the agent's world. *)
Record Sensor : Type := mkSensor { SensorName : string; SUpdate : World -> option string * World }.

Record reg : Type := mkReg
  { acts : gmap string (factory node); conds : gmap string (factory node);
    decos : gmap string (factory node); comps : gmap string (factory node);
    sens : gmap string (factory Sensor) }.

Definition NewRegistry : reg := mkReg ∅ ∅ ∅ ∅ ∅.

Definition RegisterAction (name : string) (f : factory node) (r : reg) : reg :=
  mkReg (<[name := f]> (acts r)) (conds r) (decos r) (comps r) (sens r).
Definition RegisterCondition (name : string) (f : factory node) (r : reg) : reg :=
  mkReg (acts r) (<[name := f]> (conds r)) (decos r) (comps r) (sens r).
Definition RegisterDecorator (name : string) (f : factory node) (r : reg) : reg :=
  mkReg (acts r) (conds r) (<[name := f]> (decos r)) (comps r) (sens r).
Definition RegisterComposite (name : string) (f : factory node) (r : reg) : reg :=
  mkReg (acts r) (conds r) (decos r) (<[name := f]> (comps r)) (sens r).
Definition RegisterSensor (name : string) (f : factory Sensor) (r : reg) : reg :=
  mkReg (acts r) (conds r) (decos r) (comps r) (<[name := f]> (sens r)).

Definition NewAction (r : reg) (name : string) (p : params) : result string node :=
  match acts r !! name with None => Err ("unknown action: " +:+ name) | Some f => f p end.
Definition NewCondition (r : reg) (name : string) (p : params) : result string node :=
  match conds r !! name with None => Err ("unknown condition: " +:+ name) | Some f => f p end.
Definition NewDecorator (r : reg) (name : string) (p : params) : result string node :=
  match decos r !! name with None => Err ("unknown decorator: " +:+ name) | Some f => f p end.
Definition NewComposite (r : reg) (name : string) (p : params) : result string node :=
  match comps r !! name with None => Err ("unknown composite: " +:+ name) | Some f => f p end.
Definition NewSensor (r : reg) (name : string) (p : params) : result string Sensor :=
  match sens r !! name with None => Err ("unknown sensor: " +:+ name) | Some f => f p end.

(** ** Built-in nodes and sensors *)

(** Type assertions [v, _ := params[k].(string)] and [.(bool)]: the zero value
    when the key is absent or of another type. *)
Definition as_string (p : params) (k : string) : string :=
  match p !! k with Some (VString s) => s | _ => "" end.
Definition as_bool (default : bool) (p : params) (k : string) : bool :=
  match p !! k with Some (VBool b) => b | _ => default end.

Section Builtins.
(** [int(f)] of a float out of [int]'s range is implementation-dependent. *)
Context (BB : bbMap) (int_overflow : spec_float -> Z).

Definition f64_to_int (f : spec_float) : Z :=
  let z := match f with
    | S754_finite s m e =>
        let a := if 0 <=? e then Z.shiftl (Zpos m) e else Z.shiftr (Zpos m) (- e) in
        Some (if s then - a else a)
    | S754_zero _ => Some 0
    | _ => None
    end in
  match z with
  | Some z => if (- 2 ^ 63 <=? z) && (z <? 2 ^ 63) then z else int_overflow f
  | None => int_overflow f
  end.

Definition as_int (default : Z) (p : params) (k : string) : Z :=
  match p !! k with
  | Some (VInt z) => z
  | Some (VFloat64 f) => f64_to_int f
  | _ => default
  end.

(** [time.Duration(ms) * time.Millisecond] *)
Definition millis (ms : Z) : Z := wrapS 64 (ms * 1000000).

Definition IsTrue_factory : factory node := fun p =>
  let key := as_string p "key" in
  if String.eqb key "" then Err "IsTrue requires 'key'" else
  Ok (ConditionFunc ("IsTrue(" +:+ key +:+ ")") (fun w =>
    match bb_get BB key w with
    | None => (false, None, w)
    | Some (VBool b) => (b, None, w)
    | Some _ => (false, None, w)
    end)).

Definition SetBool_factory : factory node := fun p =>
  let key := as_string p "key" in
  let v := as_bool false p "value" in
  if String.eqb key "" then Err "SetBool requires 'key'" else
  Ok (ActionFunc ("SetBool(" +:+ key +:+ ")") (fun w => (StatusSuccess, None, bb_set BB key (VBool v) w))).

Definition Noop_factory : factory node := fun _ =>
  Ok (ActionFunc "Noop" (fun w => (StatusSuccess, None, w))).

Definition SetValue_factory : factory node := fun p =>
  let key := as_string p "key" in
  if String.eqb key "" then Err "SetValue requires key" else
  Ok (SetValueAction "SetValue" key (default VNil (p !! "value"))).

Definition Log_factory : factory node := fun p =>
  let key := as_string p "key" in
  let msg := as_string p "msg" in
  if String.eqb key "" then Err "log requires key" else Ok (LogAction "Log" key msg).

Definition Wait_factory : factory node := fun p =>
  Ok (WaitAction "Wait" (millis (as_int 0 p "ms"))).

Definition Repeat_factory : factory node := fun p =>
  Ok (Repeat "Repeat" (as_int 1 p "times") (as_bool false p "stop_on_failure") None).

Definition Timer_factory : factory node := fun p =>
  Ok (Timer "Timer" (millis (as_int 0 p "ms")) None).

Definition Inverter_factory : factory node := fun _ => Ok (Inverter "Inverter" None).
Definition Succeeder_factory : factory node := fun _ => Ok (Succeeder "Succeeder" None).

Definition Cooldown_factory : factory node := fun p =>
  Ok (Cooldown "Cooldown" (millis (as_int 0 p "ms")) (as_bool true p "success_only") None).

Definition Probability_factory : factory node := fun p =>
  let pr := match p !! "p" with
    | Some (VFloat64 f) => f
    | _ => match p !! "prob" with Some (VFloat64 f) => f | _ => f64_one end
    end in
  Ok (Probability "Probability" pr None).

Definition UntilSuccess_factory : factory node := fun p =>
  Ok (UntilSuccess "UntilSuccess" (as_int 0 p "max") None).
Definition UntilFailure_factory : factory node := fun p =>
  Ok (UntilFailure "UntilFailure" (as_int 0 p "max") None).

Definition on_data (f : gmap string val -> gmap string val) (w : World) : option string * World :=
  (None, with_data f w).

Definition InventorySensor_factory : factory Sensor := fun p =>
  let key := as_string p "key" in
  let out := as_string p "out" in
  let thr := match p !! "threshold" with
    | Some (VFloat64 f) => f
    | Some (VInt z) => f64_of_Z z
    | _ => f64_zero
    end in
  if String.eqb key "" || String.eqb out "" then Err "InventorySensor requires key,out" else
  Ok (mkSensor "InventorySensor" (fun w =>
    match InventorySensor_Update key out thr BB (bbdata w) with
    | Ok d => (None, with_data (fun _ => d) w)
    | Err e => (Some e, w)
    end)).

(** [timeNowMS] is the sensor's own reading of the machine's clock. *)
Definition TimerSensor_factory (timeNowMS : World -> Z) : factory Sensor := fun p =>
  let out := as_string p "out" in
  let interval := as_int 1000 p "interval_ms" in
  if String.eqb out "" then Err "TimerSensor requires out" else
  Ok (mkSensor "TimerSensor" (fun w =>
    on_data (TimerSensor_Update "TimerSensor" out interval (timeNowMS w) BB) w)).

Definition NetworkSensor_factory : factory Sensor := fun p =>
  let out := as_string p "out" in
  let out := if String.eqb out "" then "network" else out in
  Ok (mkSensor "NetworkSensor" (on_data (NetworkSensor_Update out BB))).

Definition DatabaseSensor_factory : factory Sensor := fun p =>
  let out := as_string p "out" in
  let out := if String.eqb out "" then "db" else out in
  Ok (mkSensor "DatabaseSensor" (on_data (DatabaseSensor_Update out BB))).

(** The conditions, actions and decorators [RegisterBuiltins] installs. *)
Definition RegisterBuiltins (r : reg) : reg :=
  let r := RegisterCondition "IsTrue" IsTrue_factory r in
  let r := RegisterAction "SetBool" SetBool_factory r in
  let r := RegisterAction "Noop" Noop_factory r in
  let r := RegisterAction "SetValue" SetValue_factory r in
  let r := RegisterAction "Log" Log_factory r in
  let r := RegisterAction "Wait" Wait_factory r in
  let r := RegisterDecorator "Repeat" Repeat_factory r in
  let r := RegisterDecorator "Timer" Timer_factory r in
  let r := RegisterDecorator "Inverter" Inverter_factory r in
  let r := RegisterDecorator "Succeeder" Succeeder_factory r in
  let r := RegisterDecorator "Cooldown" Cooldown_factory r in
  let r := RegisterDecorator "Probability" Probability_factory r in
  let r := RegisterDecorator "UntilSuccess" UntilSuccess_factory r in
  RegisterDecorator "UntilFailure" UntilFailure_factory r.
End Builtins.

(** ** Configurations *)
Record ConfigSensor : Type := mkConfigSensor { CSName : string; CSType : string; CSParams : params }.
Record ConfigNode : Type := mkConfigNode
  { CType : string; Children : list string; Child : string; CAction : string; Cond : string; Params : params }.
Record Config : Type := mkConfig
  { Root : string; Nodes : gmap string ConfigNode; Sensors : list ConfigSensor }.

(** [SetChildren] and [SetChild] *)
Definition SetChildren (n : node) (cs : list node) : node :=
  match n with
  | Sequence name _ => Sequence name cs
  | Selector name _ => Selector name cs
  | Parallel name p _ => Parallel name p cs
  | Random name _ => Random name cs
  | Priority name _ => Priority name cs
  | _ => n
  end.
Definition SetChild (n child : node) : node :=
  match n with
  | Repeat name t s _ => Repeat name t s (Some child)
  | Timer name d _ => Timer name d (Some child)
  | Probability name p _ => Probability name p (Some child)
  | Inverter name _ => Inverter name (Some child)
  | Succeeder name _ => Succeeder name (Some child)
  | Cooldown name d s _ => Cooldown name d s (Some child)
  | UntilSuccess name m _ => UntilSuccess name m (Some child)
  | UntilFailure name m _ => UntilFailure name m (Some child)
  | _ => n
  end.

Inductive node_kind : Type :=
  | KComposite (n : node)     (* with no children yet *)
  | KDecorator
  | KAction
  | KCondition
  | KUnsupported.

Definition one_of (a b s : string) : bool := String.eqb s a || String.eqb s b.

(** The [switch nc.Type]. *)
Definition kind_of (name : string) (nc : ConfigNode) : node_kind :=
  let t := CType nc in
  if one_of "Sequence" "sequence" t then KComposite (Sequence name [])
  else if one_of "Selector" "selector" t then KComposite (Selector name [])
  else if one_of "Parallel" "parallel" t then
    let policy := match Params nc !! "policy" with
      | Some (VString s) => if one_of "one" "any" s then ParallelRequireOneSuccess else ParallelRequireAllSuccess
      | _ => ParallelRequireAllSuccess
      end in
    KComposite (Parallel name policy [])
  else if one_of "Random" "random" t then KComposite (Random name [])
  else if one_of "Priority" "priority" t then KComposite (Priority name [])
  else if one_of "Decorator" "decorator" t then KDecorator
  else if one_of "Action" "action" t then KAction
  else if one_of "Condition" "condition" t then KCondition
  else KUnsupported.

(** The nodes created so far, by name; and the result of building, [None] when
    the fuel, which bounds the depth of the recursion, ran out. *)
Abbreviation created_map := (gmap string node).
Abbreviation built A := (option (result string A * created_map)).

Section Build.
Context (r : reg) (c : Config).

Fixpoint build_children (build : string -> created_map -> built node) (names : list string)
    (created : created_map) : built (list node) :=
  match names with
  | [] => Some (Ok [], created)
  | chname :: names =>
      '(ch, created) ← build chname created;
      match ch with
      | Err e => Some (Err e, created)
      | Ok ch =>
          '(rest, created) ← build_children build names created;
          Some (match rest with Ok rest => Ok (ch :: rest) | Err e => Err e end, created)
      end
  end.

Definition create (name : string) (n : node) (created : created_map) : built node :=
  Some (Ok n, <[name := n]> created).

Fixpoint buildNode (fuel : nat) (name : string) (created : created_map) : built node :=
  match fuel with
  | O => None
  | S fuel =>
      match created !! name with
      | Some n => Some (Ok n, created)
      | None =>
          match Nodes c !! name with
          | None => Some (Err ("unknown node in config: " +:+ name), created)
          | Some nc =>
              match kind_of name nc with
              | KComposite n =>
                  '(children, created) ← build_children (buildNode fuel) (Children nc) created;
                  match children with
                  | Err e => Some (Err e, created)
                  | Ok children => create name (SetChildren n children) created
                  end
              | KDecorator =>
                  match NewDecorator r (as_string (Params nc) "name") (Params nc) with
                  | Err e => Some (Err e, created)
                  | Ok dec =>
                      if String.eqb (Child nc) "" then
                        Some (Err ("decorator " +:+ name +:+ " requires child"), created)
                      else
                        '(ch, created) ← buildNode fuel (Child nc) created;
                        match ch with
                        | Err e => Some (Err e, created)
                        | Ok ch => create name (SetChild dec ch) created
                        end
                  end
              | KAction =>
                  match NewAction r (CAction nc) (Params nc) with
                  | Err e => Some (Err e, created)
                  | Ok a => create name a created
                  end
              | KCondition =>
                  match NewCondition r (Cond nc) (Params nc) with
                  | Err e => Some (Err e, created)
                  | Ok cnd => create name cnd created
                  end
              | KUnsupported => Some (Err ("unsupported node type: " +:+ CType nc), created)
              end
          end
      end
  end.

Fixpoint build_sensors (ss : list ConfigSensor) : result string (list Sensor) :=
  match ss with
  | [] => Ok []
  | s :: ss =>
      match NewSensor r (CSType s) (CSParams s) with
      | Err e => Err ("sensor " +:+ CSName s +:+ ": " +:+ e)
      | Ok sen => match build_sensors ss with Ok l => Ok (sen :: l) | Err e => Err e end
      end
  end.

(** The tree is its root, nil for an empty configuration. *)
Definition Build (fuel : nat) : option (result string (option node * list Sensor)) :=
  if String.eqb (Root c) "" then Some (Ok (None, [])) else
  '(root, _) ← buildNode fuel (Root c) ∅;
  Some (match root with
        | Err e => Err e
        | Ok root =>
            match build_sensors (Sensors c) with
            | Err e => Err e
            | Ok sensors => Ok (Some root, sensors)
            end
        end).
End Build.

(** ** Agents *)
Record agent : Type := mkAgent { bb : bbMap; tree : option node; sensors : list Sensor }.

Section Step.
Context (clock : nat -> Z) (rand : nat -> nat) (frand : nat -> spec_float).

Fixpoint update_sensors (ss : list Sensor) (w : World) : option string * World :=
  match ss with
  | [] => (None, w)
  | s :: ss =>
      match SUpdate s w with
      | (Some e, w) => (Some e, w)
      | (None, w) => update_sensors ss w
      end
  end.

(** Reading the root's name panics when the root is nil. *)
Definition Step (fuel : nat) (a : agent) (w : World) : option (outcome (Status * option nerr * World)) :=
  match update_sensors (sensors a) w with
  | (Some e, w) => Some (Done (StatusFailure, Some (EText e), w))
  | (None, w) =>
      let '(start, w) := Clock clock w in
      '(st, err, w) ← Tree_Tick (bb a) clock rand frand fuel (tree a) w;
      Some (match tree a with
            | None => Panic
            | Some root =>
                let '(now, w) := Clock clock w in
                let dur := time_Sub now start in
                let '(ts, w) := Clock clock w in
                Done (st, err, with_memory (AppendDecision (mkRecord (Name root) st dur ts)) w)
            end)
  end.
End Step.

Definition BuildAgentFromConfig (fuel : nat) (cfg : option Config) (r : reg) : option (result string agent) :=
  match cfg with
  | None => Some (Err "config is nil")
  | Some c =>
      b ← Build r c fuel;
      Some (match b with
            | Err e => Err e
            | Ok (t, ss) => Ok (mkAgent NewBlackboard t ss)
            end)
  end.

(** ** Building a tree *)
Section Build_correct.
Context (r : reg) (c : Config).

(** A decorator with its child; a node of another type ignores it. *)
Inductive child_set (ch : node) : node -> node -> Prop :=
  | C_Repeat name t s o : child_set ch (Repeat name t s o) (Repeat name t s (Some ch))
  | C_Timer name d o : child_set ch (Timer name d o) (Timer name d (Some ch))
  | C_Probability name p o : child_set ch (Probability name p o) (Probability name p (Some ch))
  | C_Inverter name o : child_set ch (Inverter name o) (Inverter name (Some ch))
  | C_Succeeder name o : child_set ch (Succeeder name o) (Succeeder name (Some ch))
  | C_Cooldown name d s o : child_set ch (Cooldown name d s o) (Cooldown name d s (Some ch))
  | C_UntilSuccess name m o : child_set ch (UntilSuccess name m o) (UntilSuccess name m (Some ch))
  | C_UntilFailure name m o : child_set ch (UntilFailure name m o) (UntilFailure name m (Some ch))
  | C_other n : match n with
                | Repeat _ _ _ _ | Timer _ _ _ | Probability _ _ _ | Inverter _ _ | Succeeder _ _ | Cooldown _ _ _ _
                | UntilSuccess _ _ _ | UntilFailure _ _ _ => False
                | _ => True
                end -> child_set ch n n.

(** The policy asked for is that one success is enough. *)
Definition asks_one (p : params) : Prop := p !! "policy" = Some (VString "one") \/ p !! "policy" = Some (VString "any").
(** A registered factory makes the node. *)
Definition makes {A} (table : gmap string (factory A)) (name : string) (p : params) (a : A) : Prop :=
  exists f, table !! name = Some f /\ f p = Ok a.
(** The name of a decorator's factory, empty if it is not a string. *)
Definition decorator_name (p : params) (name : string) : Prop :=
  p !! "name" = Some (VString name) \/ (name = "" /\ forall s, p !! "name" <> Some (VString s)).

(** The tree a configuration describes under a name. *)
Inductive denotes : string -> node -> Prop :=
  | D_sequence name nc cs : Nodes c !! name = Some nc -> CType nc ∈ ["Sequence"; "sequence"] ->
      Forall2 denotes (Children nc) cs -> denotes name (Sequence name cs)
  | D_selector name nc cs : Nodes c !! name = Some nc -> CType nc ∈ ["Selector"; "selector"] ->
      Forall2 denotes (Children nc) cs -> denotes name (Selector name cs)
  | D_parallel_one name nc cs : Nodes c !! name = Some nc -> CType nc ∈ ["Parallel"; "parallel"] -> asks_one (Params nc) ->
      Forall2 denotes (Children nc) cs -> denotes name (Parallel name ParallelRequireOneSuccess cs)
  | D_parallel_all name nc cs : Nodes c !! name = Some nc -> CType nc ∈ ["Parallel"; "parallel"] -> ~ asks_one (Params nc) ->
      Forall2 denotes (Children nc) cs -> denotes name (Parallel name ParallelRequireAllSuccess cs)
  | D_random name nc cs : Nodes c !! name = Some nc -> CType nc ∈ ["Random"; "random"] ->
      Forall2 denotes (Children nc) cs -> denotes name (Random name cs)
  | D_priority name nc cs : Nodes c !! name = Some nc -> CType nc ∈ ["Priority"; "priority"] ->
      Forall2 denotes (Children nc) cs -> denotes name (Priority name cs)
  | D_decorator name nc dname dec ch n : Nodes c !! name = Some nc -> CType nc ∈ ["Decorator"; "decorator"] ->
      decorator_name (Params nc) dname -> makes (decos r) dname (Params nc) dec -> Child nc <> "" ->
      denotes (Child nc) ch -> child_set ch dec n -> denotes name n
  | D_action name nc a : Nodes c !! name = Some nc -> CType nc ∈ ["Action"; "action"] ->
      makes (acts r) (CAction nc) (Params nc) a -> denotes name a
  | D_condition name nc a : Nodes c !! name = Some nc -> CType nc ∈ ["Condition"; "condition"] ->
      makes (conds r) (Cond nc) (Params nc) a -> denotes name a.

(** The same by the code's [switch]. *)
Definition denotes_by (name : string) (nc : ConfigNode) (n : node) : Prop :=
  match kind_of name nc with
  | KComposite n0 => exists cs, Forall2 denotes (Children nc) cs /\ n = SetChildren n0 cs
  | KDecorator => exists dec ch, NewDecorator r (as_string (Params nc) "name") (Params nc) = Ok dec /\
      Child nc <> "" /\ denotes (Child nc) ch /\ n = SetChild dec ch
  | KAction => NewAction r (CAction nc) (Params nc) = Ok n
  | KCondition => NewCondition r (Cond nc) (Params nc) = Ok n
  | KUnsupported => False
  end.

Lemma child_set_iff ch dec n : child_set ch dec n <-> n = SetChild dec ch.
Proof.
  split; [by intros []; try done; destruct n0|]. intros ->. destruct dec; cbn; try constructor; done.
Qed.
Lemma makes_iff {A} (table : gmap string (factory A)) name p a e :
  match table !! name with None => Err e | Some f => f p end = Ok a <-> makes table name p a.
Proof. unfold makes. destruct (table !! name); naive_solver. Qed.
Lemma decorator_name_iff p name : decorator_name p name <-> name = as_string p "name".
Proof. unfold decorator_name, as_string. destruct (p !! "name") as [[]|]; naive_solver. Qed.
Lemma one_of_iff a b s : one_of a b s = true <-> s ∈ [a; b].
Proof.
  unfold one_of. rewrite orb_true_iff, !String.eqb_eq, !list_elem_of_In. cbn. naive_solver.
Qed.
Lemma policy_iff p :
  (asks_one p -> match p !! "policy" with Some (VString s) => if one_of "one" "any" s then ParallelRequireOneSuccess else ParallelRequireAllSuccess | _ => ParallelRequireAllSuccess end = ParallelRequireOneSuccess) /\
  (~ asks_one p -> match p !! "policy" with Some (VString s) => if one_of "one" "any" s then ParallelRequireOneSuccess else ParallelRequireAllSuccess | _ => ParallelRequireAllSuccess end = ParallelRequireAllSuccess).
Proof.
  unfold asks_one. split; [by intros [-> | ->]|]. intros Hn. destruct (p !! "policy") as [[]|]; try done.
  destruct (one_of "one" "any" s) eqn:E; [|done]. exfalso. apply Hn. unfold one_of in E.
  apply orb_true_iff in E as [->%String.eqb_eq| ->%String.eqb_eq]; auto.
Qed.

Lemma denotes_inv name n : denotes name n -> exists nc, Nodes c !! name = Some nc /\ denotes_by name nc n.
Proof.
  unfold denotes_by. intros H.
  destruct H as [name nc cs En Ht Hc|name nc cs En Ht Hc|name nc cs En Ht Hp Hc|name nc cs En Ht Hp Hc|name nc cs En Ht Hc
    |name nc cs En Ht Hc|name nc dname dec ch n En Ht Hd Hm Hne Hch Hs|name nc a En Ht Hm|name nc a En Ht Hm];
    exists nc; (split; [exact En|]); unfold kind_of; rewrite !elem_of_cons, elem_of_nil in Ht;
    destruct Ht as [-> |[-> |[]]]; cbn; try (exists cs; split; [exact Hc|done]);
    try (rewrite (proj1 (policy_iff _) Hp); exists cs; split; [exact Hc|done]);
    try (rewrite (proj2 (policy_iff _) Hp); exists cs; split; [exact Hc|done]);
    try (by apply makes_iff);
    exists dec, ch; apply decorator_name_iff in Hd as ->; apply child_set_iff in Hs as ->; split_and!; try done; by apply makes_iff.
Qed.
Lemma denotes_intro name nc n : Nodes c !! name = Some nc -> denotes_by name nc n -> denotes name n.
Proof.
  intros En. unfold denotes_by, kind_of.
  destruct (one_of "Sequence" _ _) eqn:E1; [intros (cs & Hc & ->); apply one_of_iff in E1; by eapply D_sequence|].
  destruct (one_of "Selector" _ _) eqn:E2; [intros (cs & Hc & ->); apply one_of_iff in E2; by eapply D_selector|].
  destruct (one_of "Parallel" _ _) eqn:E3.
  { intros (cs & Hc & ->). apply one_of_iff in E3. destruct (policy_iff (Params nc)) as [P1 P2].
    assert (asks_one (Params nc) \/ ~ asks_one (Params nc)) as [Ha|Ha].
    { unfold asks_one. destruct (Params nc !! "policy") as [[]|]; try (right; naive_solver).
      destruct (decide (s = "one")), (decide (s = "any")); naive_solver. }
    - rewrite (P1 Ha). by eapply D_parallel_one.
    - rewrite (P2 Ha). by eapply D_parallel_all. }
  destruct (one_of "Random" _ _) eqn:E4; [intros (cs & Hc & ->); apply one_of_iff in E4; by eapply D_random|].
  destruct (one_of "Priority" _ _) eqn:E5; [intros (cs & Hc & ->); apply one_of_iff in E5; by eapply D_priority|].
  destruct (one_of "Decorator" _ _) eqn:E6.
  { intros (dec & ch & Hm & Hne & Hch & ->). apply one_of_iff in E6. eapply D_decorator; try done.
    - by apply decorator_name_iff.
    - by apply makes_iff in Hm.
    - by apply child_set_iff. }
  destruct (one_of "Action" _ _) eqn:E7; [intros Hm; apply one_of_iff in E7; eapply D_action; try done; by apply makes_iff in Hm|].
  destruct (one_of "Condition" _ _) eqn:E8; [intros Hm; apply one_of_iff in E8; eapply D_condition; try done; by apply makes_iff in Hm|].
  done.
Qed.
Definition memo_ok (created : created_map) : Prop := map_Forall denotes created.

Lemma memo_create name n created : memo_ok created -> denotes name n -> memo_ok (<[name := n]> created).
Proof. intros. by apply map_Forall_insert_2. Qed.

(** The nodes a node refers to. *)
Definition refs (name : string) (nc : ConfigNode) : list string :=
  match kind_of name nc with
  | KComposite _ => Children nc
  | KDecorator => [Child nc]
  | _ => []
  end.

Section Ranked.
(** The references are acyclic: a rank decreases along them. *)
Context (rank : string -> nat).
Hypothesis ranked : forall name nc ch, Nodes c !! name = Some nc -> ch ∈ refs name nc -> (rank ch < rank name)%nat.

(** The configuration describes at most one tree under a name. *)
Lemma denotes_fun k : forall name n n', (rank name < k)%nat -> denotes name n -> denotes name n' -> n = n'.
Proof.
  induction k as [|k IH]; intros name n n' Hk H H'; [lia|].
  apply denotes_inv in H as (nc & En & H). apply denotes_inv in H' as (nc' & En' & H'). rewrite En in En'. injection En' as <-.
  pose proof (fun ch => ranked name nc ch En) as Href. unfold refs in Href. unfold denotes_by in H, H'.
  destruct (kind_of name nc) as [n0| | | |]; [| |congruence|congruence|done].
  - destruct H as (cs & Hc & ->), H' as (cs' & Hc' & ->). f_equal. clear -IH Href Hc Hc' Hk.
    revert cs cs' Hc Hc'. induction (Children nc) as [|ch chs IHc]; intros cs cs' Hc Hc'; inversion Hc; inversion Hc'; subst; [done|].
    f_equal; [|apply IHc; [|done|done]; intros x Hx; apply Href; by right].
    eapply IH; [|done|done]. pose proof (Href ch (list_elem_of_here _ _)). lia.
  - destruct H as (dec & ch & Hm & _ & Hc & ->), H' as (dec' & ch' & Hm' & _ & Hc' & ->).
    rewrite Hm in Hm'. injection Hm' as <-. f_equal. eapply IH; [|exact Hc|exact Hc'].
    pose proof (Href (Child nc) (list_elem_of_here _ _)). lia.
Qed.

(** What a build of a name should come to: the tree described, or an error when
    there is none. *)
Definition agrees {A} (described : A -> Prop) (res : result string A) : Prop :=
  match res with Ok n => described n | Err _ => forall n, ~ described n end.

Lemma build_children_agrees build names created :
  (forall name created, name ∈ names -> memo_ok created ->
     exists res created', build name created = Some (res, created') /\ memo_ok created' /\ agrees (denotes name) res) ->
  memo_ok created ->
  exists res created', build_children build names created = Some (res, created') /\ memo_ok created' /\ agrees (Forall2 denotes names) res.
Proof.
  revert created. induction names as [|name names IH]; intros created Hb Hm; cbn [build_children].
  { eexists _, _. split; [reflexivity|]. split; [done|constructor]. }
  destruct (Hb name created (list_elem_of_here _ _) Hm) as (ch & created1 & -> & Hm1 & Hch). cbn [mbind option_bind].
  destruct ch as [ch|e]; cbn in Hch.
  - destruct (IH created1) as (rest & created2 & -> & Hm2 & Hr); [by intros n cr Hn; apply Hb; right|done|]. cbn [mbind option_bind].
    eexists _, _. split; [reflexivity|]. split; [done|]. destruct rest as [rest|e]; cbn in Hr |- *; [by constructor|].
    intros cs Hcs. inversion Hcs; subst. by eapply Hr.
  - eexists _, _. split; [reflexivity|]. split; [done|]. intros cs Hcs. inversion Hcs; subst. by eapply Hch.
Qed.

Lemma buildNode_agrees fuel name created : memo_ok created -> (rank name < fuel)%nat ->
  exists res created', buildNode r c fuel name created = Some (res, created') /\ memo_ok created' /\ agrees (denotes name) res.
Proof.
  revert name created. induction fuel as [|fuel IH]; intros name created Hm Hf; [lia|]. cbn [buildNode].
  destruct (created !! name) as [n|] eqn:Ec.
  { eexists _, _. split; [reflexivity|]. split; [done|]. by apply Hm. }
  destruct (Nodes c !! name) as [nc|] eqn:En.
  2: { eexists _, _. split; [reflexivity|]. split; [done|]. intros n (nc & En' & _)%denotes_inv. congruence. }
  assert (forall n, denotes name n <-> denotes_by name nc n) as Hby.
  { intros n. split; [|by apply denotes_intro]. intros (nc' & En' & Hd)%denotes_inv. congruence. }
  pose proof (fun ch => ranked name nc ch En) as Href. unfold refs in Href. unfold denotes_by in Hby. unfold create.
  destruct (kind_of name nc) as [n0| | | |].
  - destruct (build_children_agrees (buildNode r c fuel) (Children nc) created) as (cs & created1 & -> & Hm1 & Hcs); [|done|].
    { intros ch cr Hch Hcr. apply IH; [done|]. pose proof (Href ch Hch). lia. }
    cbn [mbind option_bind]. destruct cs as [cs|e]; cbn in Hcs; eexists _, _; (split; [reflexivity|]).
    + assert (denotes name (SetChildren n0 cs)) by (apply Hby; eauto). split; [by apply memo_create|done].
    + split; [done|]. intros n (cs & Hc & _)%Hby. by eapply Hcs.
  - destruct (NewDecorator _ _ _) as [dec|e].
    2: { eexists _, _. split; [reflexivity|]. split; [done|]. by intros n (? & ? & ? & _)%Hby. }
    destruct (String.eqb_spec (Child nc) "") as [He|Hne].
    { eexists _, _. split; [reflexivity|]. split; [done|]. by intros n (? & ? & _ & ? & _)%Hby. }
    destruct (IH (Child nc) created Hm) as (ch & created1 & -> & Hm1 & Hch).
    { pose proof (Href (Child nc) (list_elem_of_here _ _)). lia. }
    cbn [mbind option_bind]. destruct ch as [ch|e]; cbn in Hch; eexists _, _; (split; [reflexivity|]).
    + assert (denotes name (SetChild dec ch)) by (apply Hby; eauto 7). split; [by apply memo_create|done].
    + split; [done|]. intros n (dec' & ch & _ & _ & Hc & _)%Hby. by eapply Hch.
  - destruct (NewAction _ _ _) as [a|e]; eexists _, _; (split; [reflexivity|]).
    + assert (denotes name a) by (by apply Hby). split; [by apply memo_create|done].
    + split; [done|]. by intros n ?%Hby.
  - destruct (NewCondition _ _ _) as [a|e]; eexists _, _; (split; [reflexivity|]).
    + assert (denotes name a) by (by apply Hby). split; [by apply memo_create|done].
    + split; [done|]. by intros n ?%Hby.
  - eexists _, _. split; [reflexivity|]. split; [done|]. by intros n ?%Hby.
Qed.
End Ranked.

(** The sensors described, in order. *)
Definition made (ss : list ConfigSensor) (l : list Sensor) : Prop :=
  Forall2 (fun s sen => makes (sens r) (CSType s) (CSParams s) sen) ss l.
Lemma build_sensors_agrees ss : agrees (made ss) (build_sensors r ss) /\ forall l l', made ss l -> made ss l' -> l = l'.
Proof.
  unfold made. induction ss as [|s ss [IH1 IH2]]; cbn [build_sensors].
  { split; [constructor|]. intros l l' Hl Hl'. by inversion Hl; inversion Hl'. }
  assert (forall a, NewSensor r (CSType s) (CSParams s) = Ok a <-> makes (sens r) (CSType s) (CSParams s) a) as Hm
    by (intros a; apply makes_iff).
  split.
  - destruct (NewSensor _ _ _) as [sen|e] eqn:Es.
    + destruct (build_sensors r ss) as [l|e]; cbn in IH1 |- *.
      * constructor; [by apply Hm|done].
      * intros l Hl. inversion Hl; subst. by eapply IH1.
    + intros l Hl. inversion Hl as [|? sen ? ? Hs]; subst. apply Hm in Hs. congruence.
  - intros l l' Hl Hl'. inversion Hl as [|? a ? la Ha]; inversion Hl' as [|? a' ? la' Ha']; subst. f_equal; [|by apply IH2].
    apply Hm in Ha. apply Hm in Ha'. congruence.
Qed.

Lemma buildNode_cycle (S : string -> Prop) fuel name :
  (forall name, S name -> exists nc n ch rest, Nodes c !! name = Some nc /\
     kind_of name nc = KComposite n /\ Children nc = ch :: rest /\ S ch) ->
  S name -> buildNode r c fuel name ∅ = None.
Proof.
  intros HS. revert name. induction fuel as [|fuel IH]; intros name Hn; [done|].
  destruct (HS name Hn) as (nc & n & ch & rest & En & Ek & Ech & Hch).
  cbn [buildNode]. rewrite lookup_empty, En, Ek, Ech. cbn [build_children]. by rewrite (IH ch Hch).
Qed.
End Build_correct.

(** C26: [Build] is correct and total on configurations whose references are
    acyclic (a rank decreases along them), with fuel beyond the root's rank: it
    returns, without a tree for an empty root; otherwise it returns a tree and
    sensors exactly when the configuration describes the tree under the root's
    name and the registry makes every sensor, and then these, and else an error.
    The memo table never changes what a name stands for. *)
Theorem Build_correct r c rank fuel :
  (forall name nc ch, Nodes c !! name = Some nc -> ch ∈ refs name nc -> (rank ch < rank name)%nat) ->
  (rank (Root c) < fuel)%nat ->
  exists res, Build r c fuel = Some res /\
    (Root c = "" -> res = Ok (None, [])) /\
    (Root c <> "" -> forall t ss, res = Ok (t, ss) <->
       exists root, t = Some root /\ denotes r c (Root c) root /\ made r (Sensors c) ss).
Proof.
  intros Hr Hf. unfold Build. destruct (String.eqb_spec (Root c) "") as [He|Hne]; [by eexists|].
  destruct (buildNode_agrees r c rank Hr fuel (Root c) ∅ (map_Forall_empty _) Hf) as (root & created & -> & _ & Hroot).
  destruct (build_sensors_agrees r (Sensors c)) as [Hs Hsf]. cbn [mbind option_bind]. eexists. split; [reflexivity|].
  split; [done|]. intros _ t ss. destruct root as [root|e]; cbn in Hroot.
  2: { split; [done|]. intros (root & _ & Hd & _). by destruct (Hroot root). }
  destruct (build_sensors r (Sensors c)) as [l|e]; cbn in Hs.
  - split; [intros [= <- <-]; eauto|]. intros (root' & -> & Hd & Hm). do 2 f_equal; [|by apply Hsf].
    f_equal. by apply (denotes_fun r c rank Hr (S (rank (Root c))) (Root c)); [apply Nat.lt_succ_diag_r|..].
  - split; [done|]. intros (_ & _ & _ & Hm). by destruct (Hs ss).
Qed.

(** [Build] returns on every configuration whose references are acyclic
    (some rank decreases along them), and never does when the root starts a
    cycle of composites each of which is the first child of the one before: it
    keeps calling itself. *)
Theorem Build_terminates r c :
  (forall rank fuel, (forall name nc ch, Nodes c !! name = Some nc -> ch ∈ refs name nc -> (rank ch < rank name)%nat) ->
     (rank (Root c) < fuel)%nat -> is_Some (Build r c fuel)) /\
  (forall S : string -> Prop, (forall name, S name -> exists nc n ch rest, Nodes c !! name = Some nc /\
     kind_of name nc = KComposite n /\ Children nc = ch :: rest /\ S ch) ->
   S (Root c) -> Root c <> "" -> forall fuel, Build r c fuel = None).
Proof.
  split.
  - intros rank fuel Hr Hf. unfold Build. case_match; [done|].
    destruct (buildNode_agrees r c rank Hr fuel (Root c) ∅ (map_Forall_empty _) Hf) as (n & created & -> & _).
    cbn [mbind option_bind]. eauto.
  - intros S HS Hroot Hne fuel. unfold Build.
    destruct (String.eqb_spec (Root c) ""); [done|]. by rewrite (buildNode_cycle r c S).
Qed.

(** A small configuration: a [Sequence] of two waits. *)
Definition wait_params (ms : Z) : params := {["ms" := VInt ms]}.
Definition wait_node (ms : Z) : ConfigNode := mkConfigNode "Action" [] "" "Wait" "" (wait_params ms).
Definition two_waits : Config :=
  mkConfig "root" (<["root" := mkConfigNode "Sequence" ["first"; "second"] "" "" "" ∅]>
    (<["first" := wait_node 10]> {["second" := wait_node 20]})) [].
Definition builtins : reg := RegisterBuiltins NewBlackboard (fun _ => 0) NewRegistry.
Definition loop_config : Config :=
  mkConfig "root" {["root" := mkConfigNode "Selector" ["root"] "" "" "" ∅]} [].

Definition waits_rank (name : string) : nat := if String.eqb name "root" then 1 else 0.
Lemma Build_correct_witness :
  denotes builtins two_waits "root" (Sequence "root" [WaitAction "Wait" 10000000; WaitAction "Wait" 20000000]) /\
  exists e, Build builtins (mkConfig "gone" (Nodes two_waits) []) 1 = Some (Err e).
Proof.
  assert (forall root name nc ch, Nodes (mkConfig root (Nodes two_waits) []) !! name = Some nc -> ch ∈ refs name nc -> (waits_rank ch < waits_rank name)%nat) as Hr.
  { intros root name nc ch En Hch. cbn [Nodes two_waits] in En.
    apply lookup_insert_Some in En as [[<- <-]|[_ En]].
    - cbn in Hch. apply elem_of_cons in Hch as [->|[->|Hch%elem_of_nil]%elem_of_cons]; [..|done]; apply Nat.lt_0_1.
    - apply lookup_insert_Some in En as [[<- <-]|[_ [<- <-]%lookup_singleton_Some]]; by apply elem_of_nil in Hch. }
  split.
  - destruct (Build_correct builtins two_waits waits_rank 3 (Hr "root") ltac:(apply Nat.leb_le; reflexivity)) as (res & E & _ & H).
    destruct (proj1 (H ltac:(discriminate) (Some (Sequence "root" [WaitAction "Wait" 10000000; WaitAction "Wait" 20000000])) [])) as (root & E' & Hd & _).
    + vm_compute in E. by injection E as <-.
    + injection E' as <-. exact Hd.
  - destruct (Build_correct builtins (mkConfig "gone" (Nodes two_waits) []) waits_rank 1 (Hr "gone") ltac:(apply Nat.leb_le; reflexivity)) as (res & E & _ & H).
    destruct res as [[t ss]|e]; [|by exists e]. vm_compute in E. discriminate.
Defined.

Lemma Build_terminates_witness : Build builtins loop_config 100 = None.
Proof.
  refine (proj2 (Build_terminates builtins loop_config) (fun name => name = "root") _ eq_refl _ 100%nat).
  - intros name ->. exists (mkConfigNode "Selector" ["root"] "" "" "" ∅), (Selector "root" []), "root", [].
    repeat split.
  - discriminate.
Defined.

Definition is_wait (c : Config) (a : string) : Prop :=
  exists nc, Nodes c !! a = Some nc /\ CType nc = "Action" /\ CAction nc = "Wait".

Lemma buildNode_wait r c io a fuel created : (forall p, NewAction r "Wait" p = Wait_factory io p) -> is_wait c a ->
  created !! a = None ->
  exists d, buildNode r c (S fuel) a created = Some (Ok (WaitAction "Wait" d), <[a := WaitAction "Wait" d]> created).
Proof.
  intros Hw (nc & En & Et & Ea) Hc. cbn [buildNode]. rewrite Hc, En. unfold kind_of. rewrite Et.
  rewrite Ea, Hw. by eexists.
Qed.

(** Two built-in waits in a [Sequence] of the configuration never let the
    agent past them: the factory names both nodes "Wait", not after the
    configuration's names, so they share their start key and every tick of the
    tree that [Build] returns answers [Running]. *)
Theorem built_waits_never_finish BB io r c a b fuel :
  (forall p, NewAction r "Wait" p = Wait_factory io p) ->
  Root c <> "" -> is_wait c a -> is_wait c b -> Sensors c = [] ->
  (exists nc, Nodes c !! Root c = Some nc /\ CType nc = "Sequence" /\ Children nc = [a; b]) ->
  exists t, Build r c (S (S fuel)) = Some (Ok (Some t, [])) /\
    forall clock rand frand f w, exists w', tick BB clock rand frand f t w = Some (StatusRunning, None, w').
Proof.
  intros Hw Hne Ha Hb Hs (nc & En & Et & Ec).
  assert (Hbuild : exists d1 d2, Build r c (S (S fuel)) =
    Some (Ok (Some (Sequence (Root c) [WaitAction "Wait" d1; WaitAction "Wait" d2]), []))).
  { unfold Build. destruct (String.eqb_spec (Root c) "") as [|_]; [done|].
    rewrite Hs. set (k := S fuel). cbn [buildNode]. rewrite lookup_empty, En. unfold kind_of. rewrite Et.
    cbn [one_of String.eqb Ascii.eqb Bool.eqb orb]. rewrite Ec. unfold k. cbn [build_children].
    destruct (buildNode_wait r c io a fuel ∅ Hw Ha (lookup_empty a)) as [d1 ->]. cbn [mbind option_bind].
    destruct (decide (a = b)) as [->|Hab].
    - cbn [buildNode]. rewrite lookup_insert_eq. by do 2 eexists.
    - destruct (buildNode_wait r c io b fuel (<[a := WaitAction "Wait" d1]> ∅) Hw Hb) as [d2 ->];
        [by rewrite lookup_insert_ne|]. by do 2 eexists. }
  destruct Hbuild as (d1 & d2 & ->). eexists. split; [reflexivity|]. intros clock rand frand f w.
  apply same_name_waits.
Qed.

Lemma built_waits_never_finish_witness :
  exists t, Build builtins two_waits 2 = Some (Ok (Some t, [])) /\
    forall clock rand frand f w, exists w', tick NewBlackboard clock rand frand f t w = Some (StatusRunning, None, w').
Proof.
  apply (built_waits_never_finish NewBlackboard (fun _ => 0) builtins two_waits "first" "second" 0);
    try discriminate; try reflexivity; eexists; repeat split; reflexivity.
Defined.

(** One step of an agent whose sensors and leaves leave the memory alone:
    an error of a sensor ends the step with [Failure] before the tree runs, and
    nothing is recorded; otherwise the step answers what the tree answers and
    appends exactly one record, with the root's name and the status; and an
    agent built from a configuration without root panics at its first step
    that no sensor stops. *)
Theorem Step_correct clock rand frand fuel a w w0 e
    (Hs : update_sensors (sensors a) w = (e, w0)) (Hm : memory w0 = memory w) :
  match e with
  | Some e => Step clock rand frand fuel a w = Some (Done (StatusFailure, Some (EText e), w0))
  | None =>
      match tree a with
      | None => Step clock rand frand fuel a w = Some Panic
      | Some root =>
          leaves (fun w w' => memory w' = memory w) root ->
          forall st err w1, tick (bb a) clock rand frand fuel root (next_read w0) = Some (st, err, w1) ->
          exists dur ts w2, Step clock rand frand fuel a w = Some (Done (st, err, w2)) /\
            memory w2 = memory w ++ [mkRecord (Name root) st dur ts]
      end
  end.
Proof.
  unfold Step. rewrite Hs. destruct e as [e|]; [done|]. cbn [Clock].
  destruct (tree a) as [root|]; cbn [Tree_Tick mbind option_bind]; [|done].
  intros Hl st err w1 Ht. rewrite Ht. cbn. do 3 eexists. split; [reflexivity|].
  cbn. unfold AppendDecision. f_equal. rewrite <- Hm.
  assert (HR : PreOrder (fun w w' => memory w' = memory w)).
  { split; [done|]. intros x y z Hxy Hyz. by rewrite Hyz. }
  by apply (tick_respects (bb a) clock rand frand (fun w w' => memory w' = memory w)
    (fun _ => eq_refl) (fun _ => eq_refl) (fun _ _ => eq_refl) _ _ Hl) in Ht.
Qed.

Lemma Step_correct_witness :
  let root := Selector "root" [ConditionFunc "c" (fun w => (false, None, w)); LogAction "Log" "k" "hello"] in
  exists dur ts w2, Step (fun i => Z.of_nat i) (fun _ => 0%nat) (fun _ => f64_zero) 0
      (mkAgent NewBlackboard (Some root) []) empty_world = Some (Done (StatusSuccess, None, w2)) /\
    memory w2 = [] ++ [mkRecord "root" StatusSuccess dur ts].
Proof.
  intros root.
  refine (Step_correct (fun i => Z.of_nat i) (fun _ => 0%nat) (fun _ => f64_zero) 0
    (mkAgent NewBlackboard (Some root) []) empty_world empty_world None eq_refl eq_refl _ _ _ _ _);
    [|reflexivity]. simpl. auto.
Defined.
