(* ===== verification/Connections.v ===== *)
(** * QUIC connections ([internal/core/protocol/connection.go],
    [internal/core/protocol/quic/connection.go], [listener.go],
    [internal/core/protocol/transport.go])

    A connection multiplexes streams over a QUIC connection ([*quic.Conn], the
    interface [QuicConn]): a queue of messages to send, drained by a goroutine
    that opens one stream per message, and a queue of messages received.
    Queued messages are references into the message pool. *)
From S2P Require Import Prelude Errors Messages Frames Streams Channels.
From Stdlib Require Import ZArith Lia Strings.String Strings.Byte.
From stdpp Require Import base list strings gmap.
Open Scope Z_scope.

(** ** Transport statistics *)
Module Transport.
Record TransportStats : Type := mkStats
  { ConnectionsAccepted : Z; ConnectionsDialed : Z; ConnectionsActive : Z; ConnectionsFailed : Z;
    StatBytesSent : Z; StatBytesReceived : Z; MessagesProcessed : Z; ErrorsEncountered : Z }.

Record BaseTransport : Type := mkTransport { stats : TransportStats; tclosed : bool }.
Definition NewBaseTransport : BaseTransport := mkTransport (mkStats 0 0 0 0 0 0 0 0) false.

(** [UpdateStats]: unsigned 64-bit addition to the named field. *)
Definition UpdateStats (field : string) (delta : Z) (t : BaseTransport) : BaseTransport :=
  let s := stats t in
  let add v := wrapU 64 (v + delta) in
  let s :=
    if String.eqb field "connections_accepted" then
      mkStats (add (ConnectionsAccepted s)) (ConnectionsDialed s) (ConnectionsActive s) (ConnectionsFailed s)
        (StatBytesSent s) (StatBytesReceived s) (MessagesProcessed s) (ErrorsEncountered s)
    else if String.eqb field "connections_dialed" then
      mkStats (ConnectionsAccepted s) (add (ConnectionsDialed s)) (ConnectionsActive s) (ConnectionsFailed s)
        (StatBytesSent s) (StatBytesReceived s) (MessagesProcessed s) (ErrorsEncountered s)
    else if String.eqb field "connections_active" then
      mkStats (ConnectionsAccepted s) (ConnectionsDialed s) (add (ConnectionsActive s)) (ConnectionsFailed s)
        (StatBytesSent s) (StatBytesReceived s) (MessagesProcessed s) (ErrorsEncountered s)
    else if String.eqb field "connections_failed" then
      mkStats (ConnectionsAccepted s) (ConnectionsDialed s) (ConnectionsActive s) (add (ConnectionsFailed s))
        (StatBytesSent s) (StatBytesReceived s) (MessagesProcessed s) (ErrorsEncountered s)
    else if String.eqb field "bytes_sent" then
      mkStats (ConnectionsAccepted s) (ConnectionsDialed s) (ConnectionsActive s) (ConnectionsFailed s)
        (add (StatBytesSent s)) (StatBytesReceived s) (MessagesProcessed s) (ErrorsEncountered s)
    else if String.eqb field "bytes_received" then
      mkStats (ConnectionsAccepted s) (ConnectionsDialed s) (ConnectionsActive s) (ConnectionsFailed s)
        (StatBytesSent s) (add (StatBytesReceived s)) (MessagesProcessed s) (ErrorsEncountered s)
    else if String.eqb field "messages_processed" then
      mkStats (ConnectionsAccepted s) (ConnectionsDialed s) (ConnectionsActive s) (ConnectionsFailed s)
        (StatBytesSent s) (StatBytesReceived s) (add (MessagesProcessed s)) (ErrorsEncountered s)
    else if String.eqb field "errors_encountered" then
      mkStats (ConnectionsAccepted s) (ConnectionsDialed s) (ConnectionsActive s) (ConnectionsFailed s)
        (StatBytesSent s) (StatBytesReceived s) (MessagesProcessed s) (add (ErrorsEncountered s))
    else s in
  mkTransport s (tclosed t).

Definition Close (t : BaseTransport) : BaseTransport := mkTransport (stats t) true.
Definition IsClosed (t : BaseTransport) : bool := tclosed t.
End Transport.
Import Transport (BaseTransport, UpdateStats).

(** [^uint64(0)] *)
Definition minus_one : Z := 2 ^ 64 - 1.

(** ** The QUIC library *)
Class QuicConn (Conn Raw : Type) : Type := {
  open_stream : Conn -> Conn * result error Raw;
  accept_stream : Conn -> Conn * result error Raw;
  close_with_error : Conn -> Conn * option error
}.

(** A connection on which opening always succeeds, with a fresh stream, and
    accepting does. *)
Class OpenConn (Conn Raw : Type) `{QuicConn Conn Raw, ReliableStream Raw} : Type := {
  open_ok c : exists c' r, open_stream c = (c', Ok r) /\ sent r = [];
  accept_ok c : exists c' r, accept_stream c = (c', Ok r)
}.

Section Connections.
Context {Conn Raw : Type} {RS : RawStream Raw} {QC : QuicConn Conn Raw}.
(** [unsafe.Sizeof(Message{})], a constant of the platform. *)
Context (sizeof_Message : Z).

Record Connection : Type := mkConnection {
  conn : Conn;
  cstate : ConnectionState;
  cclosed : bool;
  done : bool;                          (* the [done] channel is closed *)
  clastActivity : Z;
  cbytesSent : Z;
  cbytesReceived : Z;
  stream_objs : list (Stream Raw);      (* the stream objects, by reference *)
  streams : gmap StreamID nat;
  streamCounter : Z;
  maxStreams : Z;
  messageQueue : GoChan (option Pool.loc);
  sendQueue : GoChan (option Pool.loc)
}.

(** [NewQUICConnection] over [NewBaseConnection]. *)
Definition NewQUICConnection (c : Conn) (now MessageBufferSize MaxStreams : Z) : outcome Connection :=
  mq ← make_chan MessageBufferSize; sq ← make_chan MessageBufferSize;
  Done (mkConnection c ConnectionStateConnected false false now 0 0 [] ∅ 0 MaxStreams mq sq).

(** *** Base operations *)
Definition SetState (st : ConnectionState) (c : Connection) : Connection :=
  mkConnection (conn c) st (cclosed c) (done c) (clastActivity c) (cbytesSent c) (cbytesReceived c)
    (stream_objs c) (streams c) (streamCounter c) (maxStreams c) (messageQueue c) (sendQueue c).
Definition UpdateActivity (now : Z) (c : Connection) : Connection :=
  mkConnection (conn c) (cstate c) (cclosed c) (done c) now (cbytesSent c) (cbytesReceived c)
    (stream_objs c) (streams c) (streamCounter c) (maxStreams c) (messageQueue c) (sendQueue c).
Definition AddBytesSent (now n : Z) (c : Connection) : Connection :=
  UpdateActivity now
    (mkConnection (conn c) (cstate c) (cclosed c) (done c) (clastActivity c)
       (wrapU 64 (cbytesSent c + wrapU 64 n)) (cbytesReceived c)
       (stream_objs c) (streams c) (streamCounter c) (maxStreams c) (messageQueue c) (sendQueue c)).
Definition AddBytesReceived (now n : Z) (c : Connection) : Connection :=
  UpdateActivity now
    (mkConnection (conn c) (cstate c) (cclosed c) (done c) (clastActivity c)
       (cbytesSent c) (wrapU 64 (cbytesReceived c + wrapU 64 n))
       (stream_objs c) (streams c) (streamCounter c) (maxStreams c) (messageQueue c) (sendQueue c)).
Definition set_queues (mq sq : GoChan (option Pool.loc)) (c : Connection) : Connection :=
  mkConnection (conn c) (cstate c) (cclosed c) (done c) (clastActivity c) (cbytesSent c) (cbytesReceived c)
    (stream_objs c) (streams c) (streamCounter c) (maxStreams c) mq sq.
Definition set_conn (k : Conn) (c : Connection) : Connection :=
  mkConnection k (cstate c) (cclosed c) (done c) (clastActivity c) (cbytesSent c) (cbytesReceived c)
    (stream_objs c) (streams c) (streamCounter c) (maxStreams c) (messageQueue c) (sendQueue c).
Definition set_objs (objs : list (Stream Raw)) (c : Connection) : Connection :=
  mkConnection (conn c) (cstate c) (cclosed c) (done c) (clastActivity c) (cbytesSent c) (cbytesReceived c)
    objs (streams c) (streamCounter c) (maxStreams c) (messageQueue c) (sendQueue c).
Definition set_streams (objs : list (Stream Raw)) (m : gmap StreamID nat) (n : Z) (c : Connection) : Connection :=
  mkConnection (conn c) (cstate c) (cclosed c) (done c) (clastActivity c) (cbytesSent c) (cbytesReceived c)
    objs m n (maxStreams c) (messageQueue c) (sendQueue c).

(** [MarkClosed]: the channel is closed at most once. *)
Definition MarkClosed (c : Connection) : Connection :=
  mkConnection (conn c) ConnectionStateDisconnected (cclosed c) true (clastActivity c) (cbytesSent c)
    (cbytesReceived c) (stream_objs c) (streams c) (streamCounter c) (maxStreams c)
    (messageQueue c) (sendQueue c).

(** The guard at the head of the operations. *)
Definition usable (c : Connection) : bool :=
  negb (cclosed c) && bool_decide (cstate c = ConnectionStateConnected).

(** *** Sending and receiving messages *)

(** [SendMessage] takes two steps that other goroutines can come between: the
    reference goes in the queue, then it is retained. *)
Definition enqueue (l : Pool.loc) (c : Connection) : Connection * option error :=
  if negb (usable c) then (c, Some (Sentinel ErrConnectionClosed))
  else match try_send (Some l) (sendQueue c) with
       | Done (sq, true) => (set_queues (messageQueue c) sq c, None)
       | _ => (c, Some (Sentinel ErrMessageQueueFull))
       end.
Definition SendMessage (l : Pool.loc) (p : Pool.MessagePool) (c : Connection)
    : Pool.MessagePool * Connection * option error :=
  match enqueue l c with
  | (c, None) => (Pool.Retain p l, c, None)
  | (c, err) => (p, c, err)
  end.

(** The ready case a [select] took. *)
Inductive selected : Type := SelMessage | SelContext (err : error) | SelDone.

Definition Size (m : Message) : Z := wrapS 64 (sizeof_Message + Z.of_nat (length (Payload m))).

(** Its [select]; [None]: the case was not ready. *)
Definition receive_select (pick : selected) (now : Z) (p : Pool.MessagePool) (c : Connection)
    : option (Connection * result error Pool.loc) :=
  match pick with
  | SelContext err => Some (c, Err err)
  | SelDone => if done c then Some (c, Err (Sentinel ErrConnectionClosed)) else None
  | SelMessage =>
      match try_recv None (messageQueue c) with
      | (_, None) => None
      | (mq, Some None) => Some (set_queues mq (sendQueue c) c, Err (Sentinel ErrConnectionClosed))
      | (mq, Some (Some l)) =>
          let c := UpdateActivity now (set_queues mq (sendQueue c) c) in
          let size := match Pool.heap p !! l with Some m => Size m | None => 0 end in
          Some (AddBytesReceived now size c, Ok l)
      end
  end.
Definition ReceiveMessage (pick : selected) (now : Z) (p : Pool.MessagePool) (c : Connection)
    : option (Connection * result error Pool.loc) :=
  if cclosed c then Some (c, Err (Sentinel ErrConnectionClosed)) else receive_select pick now p c.

(** *** Streams *)

(** The new stream is stored under its identifier, and counted. *)
Definition add_stream (id : StreamID) (now : Z) (r : Raw) (c : Connection) : Connection :=
  set_streams (stream_objs c ++ [NewQUICStream id now default_max r])
    (<[id := length (stream_objs c)]> (streams c)) (wrapU 64 (streamCounter c + 1)) c.

Definition OpenStream (id : StreamID) (now : Z) (c : Connection) : Connection * result error nat :=
  if negb (usable c) then (c, Err (Sentinel ErrConnectionClosed))
  else if (0 <? maxStreams c) && (maxStreams c <=? wrapS 64 (streamCounter c))
  then (c, Err (Sentinel ErrMaxStreamsReached))
  else match open_stream (conn c) with
       | (k, Err e) => (set_conn k c, Err (WrapError now e "failed to open QUIC stream"))
       | (k, Ok r) => (add_stream id now r (set_conn k c), Ok (length (stream_objs c)))
       end.

(** [AcceptStream] past its guard. *)
Definition accept_next (id : StreamID) (now : Z) (c : Connection) : Connection * result error nat :=
  match accept_stream (conn c) with
  | (k, Err e) => (set_conn k c, Err (WrapError now e "failed to accept QUIC stream"))
  | (k, Ok r) => (add_stream id now r (set_conn k c), Ok (length (stream_objs c)))
  end.
Definition AcceptStream (id : StreamID) (now : Z) (c : Connection) : Connection * result error nat :=
  if negb (usable c) then (c, Err (Sentinel ErrConnectionClosed)) else accept_next id now c.

(** An operation of the stream object [ref]. *)
Definition on_stream {A} (ref : nat) (dflt : A) (f : Stream Raw -> Stream Raw * A) (c : Connection)
    : Connection * A :=
  match stream_objs c !! ref with
  | None => (c, dflt)
  | Some s => let '(s, a) := f s in (set_objs (<[ref := s]> (stream_objs c)) c, a)
  end.
Definition close_stream (ref : nat) (c : Connection) : Connection :=
  (on_stream ref None Streams.Close c).1.

Definition GetStream (id : StreamID) (c : Connection) : option nat := streams c !! id.

Definition RemoveStream (id : StreamID) (c : Connection) : Connection :=
  set_streams (stream_objs c) (delete id (streams c)) (wrapU 64 (streamCounter c + minus_one)) c.

(** *** Goroutines *)

(** [sendMessageInternal]: one stream per message, closed when done. *)
Definition sendMessageInternal (id : StreamID) (now : Z) (msg : Message) (c : Connection)
    : Connection * option error :=
  match OpenStream id now c with
  | (c, Err e) => (c, Some e)
  | (c, Ok ref) =>
      match on_stream ref None (Streams.SendMessage now msg) c with
      | (c, Some e) => (close_stream ref c, Some e)
      | (c, None) =>
          let c := AddBytesSent now (Size msg) (UpdateActivity now c) in
          (close_stream ref c, None)
      end
  end.

(** One round of [handleSending] that took a message: the error is dropped. *)
Definition handleSending (id : StreamID) (now : Z) (p : Pool.MessagePool) (c : Connection)
    : option (Pool.MessagePool * Connection) :=
  match try_recv None (sendQueue c) with
  | (_, None) => None
  | (sq, Some m) =>
      let c := set_queues (messageQueue c) sq c in
      match m with
      | None => Some (p, c)
      | Some l =>
          let msg := default Pool.blank (Pool.heap p !! l) in
          Some (Pool.Release p l, (sendMessageInternal id now msg c).1)
      end
  end.

(** The [select] of [handleStreamMessages] on a message received from a stream;
    the boolean says whether the loop goes on. The first two cases may both be
    ready; taking the first on a closed queue panics. The default runs when
    neither is ready. *)
Definition forward (pick : selected) (l : Pool.loc) (p : Pool.MessagePool) (c : Connection)
    : outcome (option (Pool.MessagePool * Connection * bool)) :=
  match pick with
  | SelMessage =>
      '(mq, ok) ← try_send (Some l) (messageQueue c);
      Done (if (ok : bool) then Some (p, set_queues mq (sendQueue c) c, true)
            else if done c then None else Some (Pool.Release p l, c, true))
  | SelDone => Done (if done c then Some (Pool.Release p l, c, false) else None)
  | SelContext _ => Done None
  end.

(** [Ping]: the message comes from the pool and goes back to it; [m0] is the
    pool object the reply is parsed into. *)
Definition ping_payload : list byte := [x70; x69; x6e; x67].
Definition Ping (id : StreamID) (start finish now : Z) (choice : option nat) (fresh : Pool.loc)
    (mid : MessageID) (m0 : Message) (p : Pool.MessagePool) (c : Connection)
    : Pool.MessagePool * Connection * result error Z :=
  if cclosed c then (p, c, Err (Sentinel ErrConnectionClosed))
  else
    let '(p, l) := Pool.Get p choice fresh mid now in
    let msg := WithPayload ping_payload
                 (WithType MessageTypeHeartbeat (default Pool.blank (Pool.heap p !! l))) in
    let p := Pool.mkPool (<[l := msg]> (Pool.heap p)) (Pool.free p) (Pool.gets p) (Pool.puts p) in
    let '(c, r) :=
      match OpenStream id now c with
      | (c, Err e) => (c, Err e)
      | (c, Ok ref) =>
          match on_stream ref None (Streams.SendMessage now msg) c with
          | (c, Some e) => (close_stream ref c, Err e)
          | (c, None) =>
              match on_stream ref (Err EOF_) (Streams.ReceiveMessage now m0) c with
              | (c, Err e) => (close_stream ref c, Err e)
              | (c, Ok _) => (close_stream ref c, Ok (time_Sub finish start))
              end
          end
      end in
    (Pool.Release p l, c, r).

(** [Close]: the streams of the map, the QUIC connection, the state, the
    transport's count; only the first call acts. Its regions between which
    other goroutines can run: *)
Definition close_flag (c : Connection) : Connection :=
  mkConnection (conn c) (cstate c) true (done c) (clastActivity c) (cbytesSent c)
    (cbytesReceived c) (stream_objs c) (streams c) (streamCounter c) (maxStreams c)
    (messageQueue c) (sendQueue c).
Definition close_streams (c : Connection) : Connection :=
  foldl (fun c kv => close_stream kv.2 c) c (map_to_list (streams c)).
Definition Close (c : Connection) (t : BaseTransport) : Connection * BaseTransport * option error :=
  if cclosed c then (c, t, None)
  else
    let c := close_streams (SetState ConnectionStateDisconnecting (close_flag c)) in
    let '(k, err) := close_with_error (conn c) in
    let c := MarkClosed (SetState ConnectionStateDisconnected (set_conn k c)) in
    (c, UpdateStats "connections_active" minus_one t, err).
End Connections.
Arguments Connection : clear implicits.

Section Facts.
Context {Conn Raw : Type} {RS : RawStream Raw} {QC : QuicConn Conn Raw}.
Context (sizeof_Message : Z).
Implicit Types c : Connection Conn Raw.

Lemma usable_spec c : usable c = true <-> cclosed c = false /\ cstate c = ConnectionStateConnected.
Proof.
  unfold usable. rewrite andb_true_iff, negb_true_iff, bool_decide_eq_true. done.
Qed.

(** ** Closing *)
Definition stream_closed (s : Stream Raw) : Prop := Streams.closed s = true.

Lemma close_stream_spec ref c :
  close_stream ref c = set_objs (alter (fun s => (Streams.Close s).1) ref (stream_objs c)) c.
Proof.
  unfold close_stream, on_stream. destruct (stream_objs c !! ref) as [s|] eqn:E.
  - destruct (Streams.Close s) as [s' e] eqn:Es. simpl. f_equal.
    apply list_eq. intros i. destruct (decide (i = ref)) as [->|Hne].
    + rewrite list_lookup_insert_eq by (eapply lookup_lt_Some; exact E).
      rewrite list_lookup_alter_eq, E. cbn [fmap option_fmap option_map]. by rewrite Es.
    + by rewrite list_lookup_insert_ne, list_lookup_alter_ne by done.
  - simpl. destruct c. unfold set_objs. simpl in *. f_equal. apply list_eq. intros i.
    destruct (decide (i = ref)) as [->|Hne].
    + by rewrite list_lookup_alter_eq, E.
    + by rewrite list_lookup_alter_ne by done.
Qed.

Lemma Close_closed (s : Stream Raw) : stream_closed (Streams.Close s).1.
Proof.
  unfold stream_closed, Streams.Close. destruct (Streams.closed s) eqn:E; [done|].
  cbn. by destruct (raw_close (raw s)).
Qed.

(** Closing a list of streams closes each of them, and opens none. *)
Lemma close_streams_spec (kvs : list (StreamID * nat)) c :
  let c' := foldl (fun c kv => close_stream kv.2 c) c kvs in
  (exists objs, c' = set_objs objs c) /\
  forall ref s', stream_objs c' !! ref = Some s' ->
    (ref ∈ kvs.*2 -> stream_closed s') /\
    (exists s, stream_objs c !! ref = Some s /\ (stream_closed s -> stream_closed s')).
Proof.
  revert c. induction kvs as [|[id r] kvs IH]; intros c; simpl.
  - split; [exists (stream_objs c); by destruct c|]. intros ref s' Hs. split; [by intros ?%not_elem_of_nil|eauto].
  - rewrite close_stream_spec. destruct (IH (set_objs (alter (fun s => (Streams.Close s).1) r (stream_objs c)) c))
      as [(objs & ->) H]. split; [by exists objs|].
    intros ref s' Hs. destruct (H ref s' Hs) as (Hin & s & Hls & Hc). simpl in Hls.
    destruct (decide (ref = r)) as [->|Hne].
    + rewrite list_lookup_alter_eq in Hls. destruct (stream_objs c !! r) as [s0|] eqn:E; simplify_eq/=.
      pose proof (Close_closed s0). split; [auto|eauto].
    + rewrite list_lookup_alter_ne in Hls by done. split; [|eauto].
      intros [->|Hin']%elem_of_cons; [done|auto].
Qed.

(** [Close] ends a connection once and for all: every stream of its map is
    closed, the [done] channel is closed, the transport counts one active
    connection less; sending, receiving, opening, accepting and pinging then
    report the connection as closed; and a second [Close] does nothing. *)
Theorem Close_correct c t : cclosed c = false ->
  let '(c', t', _) := Close c t in
  (forall id ref s, streams c' !! id = Some ref -> stream_objs c' !! ref = Some s -> stream_closed s) /\
  done c' = true /\
  Transport.ConnectionsActive (Transport.stats t') = wrapU 64 (Transport.ConnectionsActive (Transport.stats t) - 1) /\
  (forall l p, SendMessage l p c' = (p, c', Some (Sentinel ErrConnectionClosed))) /\
  (forall pick now p, ReceiveMessage sizeof_Message pick now p c' = Some (c', Err (Sentinel ErrConnectionClosed))) /\
  (forall id now, OpenStream id now c' = (c', Err (Sentinel ErrConnectionClosed))) /\
  (forall id now, AcceptStream id now c' = (c', Err (Sentinel ErrConnectionClosed))) /\
  Close c' t' = (c', t', None).
Proof.
  intros Hc. unfold Close at 1. rewrite Hc. cbv zeta.
  set (c1 := SetState ConnectionStateDisconnecting _). unfold close_streams.
  destruct (close_streams_spec (map_to_list (streams c1)) c1) as [(objs & E) Hobj]. rewrite E in *.
  destruct (close_with_error _) as [k err]. set (c2 := MarkClosed _).
  assert (Hclosed : cclosed c2 = true) by done.
  assert (Hus : usable c2 = false) by (unfold usable; by rewrite Hclosed).
  split; [|split; [done|split]].
  - intros id ref s Hid Hs. apply (Hobj ref s Hs). change (streams c1 !! id = Some ref) in Hid.
    apply list_elem_of_fmap. exists (id, ref). split; [done|]. by apply elem_of_map_to_list.
  - cbn. unfold minus_one, wrapU. replace (_ + _) with
      ((Transport.ConnectionsActive (Transport.stats t) - 1) + 1 * 2 ^ 64) by lia. by rewrite Z.mod_add.
  - unfold SendMessage, enqueue, ReceiveMessage, OpenStream, AcceptStream, Close.
    rewrite Hus, Hclosed. done.
Qed.
End Facts.

Section Delivery.
Context {Conn Raw : Type} {RS : RawStream Raw} {QC : QuicConn Conn Raw}.
Context {RelS : ReliableStream Raw} {OC : OpenConn Conn Raw}.
Context (sizeof_Message : Z).
Implicit Types c : Connection Conn Raw.

(** A connection in use whose counter of streams, read as a signed number, is
    [k]; and one on which [n] streams may still be opened. *)
Definition counts (k : Z) c : Prop := usable c = true /\ streamCounter c = wrapU 64 k /\ in_s 64 k.
Definition budget (n : Z) c : Prop :=
  usable c = true /\ 0 < maxStreams c < 2 ^ 63 /\ 0 <= streamCounter c <= maxStreams c /\
  n = maxStreams c - streamCounter c.

Lemma budget_counts n c : budget n c -> counts (maxStreams c - n) c.
Proof.
  intros (Hu & Hmax & Hcnt & ->). replace (_ - _) with (streamCounter c) by lia.
  split; [done|]. split; [|unfold in_s; lia]. rewrite wrapU_id; [done|unfold in_u; lia].
Qed.
Lemma counts_signed k c : counts k c -> wrapS 64 (streamCounter c) = k.
Proof. intros (_ & -> & Hk). by apply wrapS_wrapU. Qed.

(** What sending one message does to the connection when the budget allows it:
    one more stream object, closed, that carried the bytes of the message. *)
Definition sent_on (msg : Message) (s : Stream Raw) : Prop :=
  sent (raw s) = wire msg /\ Streams.closed s = true.

Lemma Close_sent (s : Stream Raw) : Streams.closed s = false ->
  Streams.closed (Streams.Close s).1 = true.
Proof. intros H. unfold Streams.Close. rewrite H. cbn. by destruct (raw_close (raw s)). Qed.

Lemma Close_keeps (s : Stream Raw) : (forall r, sent (raw_close r).1 = sent r) ->
  sent (raw (Streams.Close s).1) = sent (raw s).
Proof.
  intros H. unfold Streams.Close. destruct (Streams.closed s); [done|]. cbn.
  specialize (H (raw s)). by destruct (raw_close (raw s)).
Qed.

Lemma sendInternal_opens id now msg k c : counts k c -> maxStreams c <= 0 \/ k < maxStreams c ->
  (forall r, sent (raw_close r).1 = sent r) ->
  exists c' s, sendMessageInternal sizeof_Message id now msg c = (c', None) /\
    usable c' = true /\ streamCounter c' = wrapU 64 (k + 1) /\ maxStreams c' = maxStreams c /\
    stream_objs c' = stream_objs c ++ [s] /\ sent_on msg s /\
    sendQueue c' = sendQueue c /\ messageQueue c' = messageQueue c.
Proof.
  intros Hk Hmax Hclose. pose proof (counts_signed k c Hk) as Hs. destruct Hk as (Hu & Hcnt & _).
  unfold sendMessageInternal, OpenStream. rewrite Hu, Hs. cbn [negb].
  assert ((0 <? maxStreams c) && (maxStreams c <=? k) = false) as ->.
  { destruct (Z.ltb_spec 0 (maxStreams c)), (Z.leb_spec (maxStreams c) k); done || lia. }
  destruct (open_ok (conn c)) as (k' & r & -> & Hr).
  set (c1 := add_stream id now r (set_conn k' c)).
  assert (Hobj : stream_objs c1 = stream_objs c ++ [NewQUICStream id now default_max r]) by done.
  unfold on_stream. rewrite Hobj, lookup_app_r, Nat.sub_diag by lia. cbn [lookup list_lookup].
  destruct (SendMessage_ok now msg (NewQUICStream id now default_max r) eq_refl) as (s & -> & Hw & Hsc).
  rewrite insert_app_r_alt, Nat.sub_diag by lia. cbn [insert list_insert].
  rewrite close_stream_spec. eexists _, _. split; [reflexivity|]. split; [|split; [|split; [done|split]]].
  - destruct (usable_spec c) as [Hus _]. destruct (Hus Hu) as [H1 H2]. apply usable_spec. done.
  - cbn. by rewrite Hcnt, wrapU_add_l.
  - cbn [stream_objs set_objs AddBytesSent UpdateActivity].
    rewrite alter_app_r_alt, Nat.sub_diag by lia. reflexivity.
  - split; [|done]. split; [|by apply Close_sent].
    rewrite Close_keeps, Hw by done. cbn [raw NewQUICStream]. by rewrite Hr.
Qed.

Lemma sendInternal_refused id now msg k c : counts k c -> 0 < maxStreams c <= k ->
  sendMessageInternal sizeof_Message id now msg c = (c, Some (Sentinel ErrMaxStreamsReached)).
Proof.
  intros Hk Hmax. pose proof (counts_signed k c Hk) as Hs. destruct Hk as (Hu & _).
  unfold sendMessageInternal, OpenStream. rewrite Hu, Hs. cbn [negb].
  by rewrite (proj2 (Z.ltb_lt _ _)), (proj2 (Z.leb_le _ _)) by lia.
Qed.

Lemma sendInternal_budget id now msg n c : budget n c -> 0 < n ->
  (forall r, sent (raw_close r).1 = sent r) ->
  exists c' s, sendMessageInternal sizeof_Message id now msg c = (c', None) /\ budget (n - 1) c' /\
    stream_objs c' = stream_objs c ++ [s] /\ sent_on msg s /\
    sendQueue c' = sendQueue c /\ messageQueue c' = messageQueue c.
Proof.
  intros Hb Hn Hclose. pose proof (budget_counts n c Hb) as Hk. destruct Hb as (_ & Hmax & Hcnt & Eq).
  destruct (sendInternal_opens id now msg _ c Hk ltac:(lia) Hclose) as (c' & s & E & H1 & H2 & H3 & H4).
  exists c', s. split; [exact E|]. split; [|exact H4].
  rewrite wrapU_id in H2 by (unfold in_u; lia). repeat split; try done; lia.
Qed.

(** What is done with the streams of a connection: messages are sent, streams
    of the peer accepted, and streams removed, whether they are there or not. *)
Inductive use : Type := USend (id : StreamID) (msg : Message) | UAccept (id : StreamID) | URemove (id : StreamID).
Definition use_stream (now : Z) (u : use) c : Connection Conn Raw * option error :=
  match u with
  | USend id msg => sendMessageInternal sizeof_Message id now msg c
  | UAccept id => let '(c, r) := AcceptStream id now c in (c, match r with Ok _ => None | Err e => Some e end)
  | URemove id => (RemoveStream id c, None)
  end.
Fixpoint uses (now : Z) (us : list use) c : Connection Conn Raw * list (option error) :=
  match us with
  | [] => (c, [])
  | u :: us => let '(c, e) := use_stream now u c in let '(c, es) := uses now us c in (c, e :: es)
  end.

(** The same by counting: whether a use succeeds, the counter after it, and
    what the stream carries that it opens. *)
Definition allowed (max k : Z) (u : use) : bool := match u with USend _ _ => (max <=? 0) || (k <? max) | _ => true end.
Definition count_after (max k : Z) (u : use) : Z :=
  match u with USend _ _ => if allowed max k u then k + 1 else k | UAccept _ => k + 1 | URemove _ => k - 1 end.
Definition carries (max k : Z) (u : use) : list (option Message) :=
  match u with USend _ msg => if allowed max k u then [Some msg] else [] | UAccept _ => [None] | URemove _ => [] end.
Fixpoint answers (max k : Z) (us : list use) : list (option error) :=
  match us with
  | [] => []
  | u :: us => (if allowed max k u then None else Some (Sentinel ErrMaxStreamsReached)) :: answers max (count_after max k u) us
  end.
Fixpoint carried (max k : Z) (us : list use) : list (option Message) :=
  match us with [] => [] | u :: us => carries max k u ++ carried max (count_after max k u) us end.
Definition final_count (max k : Z) (us : list use) : Z := foldl (count_after max) k us.
Definition is_remove (u : use) : bool := match u with URemove _ => true | _ => false end.
Definition is_message (o : option Message) : bool := match o with Some _ => true | None => false end.

Lemma carried_bound max us : 0 < max -> forall k, cnt is_message (carried max k us) <= Z.max 0 (max - k) + cnt is_remove us.
Proof.
  intros Hmax. induction us as [|u us IH]; intros k; cbn [carried cnt]; [lia|]. rewrite cnt_app.
  specialize (IH (count_after max k u)). destruct u as [id msg|id|id]; cbn in IH |- *; [|lia|lia].
  rewrite (proj2 (Z.leb_gt max 0)) in * by lia. cbn [orb] in *.
  destruct (Z.ltb_spec k max); cbn; lia.
Qed.

Lemma accept_counts id now k c : counts k c ->
  exists c' s, AcceptStream id now c = (c', Ok (length (stream_objs c))) /\ usable c' = true /\
    streamCounter c' = wrapU 64 (k + 1) /\ maxStreams c' = maxStreams c /\ stream_objs c' = stream_objs c ++ [s].
Proof.
  intros (Hu & Hcnt & _). unfold AcceptStream, accept_next. rewrite Hu. cbn [negb].
  destruct (accept_ok (conn c)) as (k' & r & ->). eexists _, _. split; [reflexivity|].
  split; [exact Hu|]. split; [|by split]. cbn. by rewrite Hcnt, wrapU_add_l.
Qed.

Definition carried_by (o : option Message) (s : Stream Raw) : Prop :=
  match o with Some msg => sent_on msg s | None => True end.

Lemma use_stream_spec now u k c : counts k c -> in_s 64 (count_after (maxStreams c) k u) ->
  (forall r, sent (raw_close r).1 = sent r) ->
  exists c' ss, use_stream now u c =
      (c', if allowed (maxStreams c) k u then None else Some (Sentinel ErrMaxStreamsReached)) /\
    counts (count_after (maxStreams c) k u) c' /\ maxStreams c' = maxStreams c /\
    stream_objs c' = stream_objs c ++ ss /\ Forall2 carried_by (carries (maxStreams c) k u) ss.
Proof.
  intros Hk Hr Hclose. destruct u as [id msg|id|id]; cbn [use_stream].
  - cbn in Hr |- *. destruct ((maxStreams c <=? 0) || (k <? maxStreams c)) eqn:E.
    + destruct (sendInternal_opens id now msg k c Hk) as (c' & s & -> & H1 & H2 & H3 & H4 & H5 & _); [|done|].
      { apply orb_prop in E as [?%Z.leb_le|?%Z.ltb_lt]; lia. }
      exists c', [s]. split; [done|]. split; [done|]. split; [done|]. split; [done|]. constructor; [exact H5|constructor].
    + apply orb_false_elim in E as [?%Z.leb_gt ?%Z.ltb_ge].
      rewrite (sendInternal_refused id now msg k c Hk) by lia. exists c, []. by rewrite app_nil_r.
  - destruct (accept_counts id now k c Hk) as (c' & s & -> & H1 & H2 & H3 & H4).
    exists c', [s]. split; [done|]. split; [done|]. split; [done|]. split; [done|]. constructor; [done|constructor].
  - destruct Hk as (Hu & Hcnt & _). eexists _, []. split; [reflexivity|]. split; [|by rewrite app_nil_r].
    split; [exact Hu|]. split; [|exact Hr]. cbn. rewrite Hcnt, wrapU_add_l by done. unfold wrapU, minus_one.
    replace (k + (2 ^ 64 - 1)) with (k - 1 + 1 * 2 ^ 64) by lia. by rewrite Z.mod_add.
Qed.

(** C8: The streams of a connection are a budget that closing does not give
    back. For any sequence of messages sent (each on a stream of its own, closed
    after), streams accepted and streams removed (fewer than 2^63 in all), on a
    transport that always opens and whose streams keep what was written when
    they are closed: sending fails, with [ErrMaxStreamsReached], exactly when
    [MaxStreams] is positive and the streams opened and accepted before, less
    the calls of [RemoveStream], are as many; with [MaxStreams] zero or less it
    never does. A message that was sent was carried whole by its stream. So at
    most [MaxStreams] messages are sent, but for one more per [RemoveStream],
    which nothing in the program calls. *)
Theorem streams_run_out now us k c : counts k c -> Z.abs k + Z.of_nat (length us) < 2 ^ 63 ->
  (forall r, sent (raw_close r).1 = sent r) ->
  exists c' ss, uses now us c = (c', answers (maxStreams c) k us) /\
    streamCounter c' = wrapU 64 (final_count (maxStreams c) k us) /\
    stream_objs c' = stream_objs c ++ ss /\ Forall2 carried_by (carried (maxStreams c) k us) ss /\
    (0 < maxStreams c -> cnt is_message (carried (maxStreams c) k us) <= Z.max 0 (maxStreams c - k) + cnt is_remove us).
Proof.
  intros Hk Hl Hclose. cut (exists c' ss, uses now us c = (c', answers (maxStreams c) k us) /\
    streamCounter c' = wrapU 64 (final_count (maxStreams c) k us) /\
    stream_objs c' = stream_objs c ++ ss /\ Forall2 carried_by (carried (maxStreams c) k us) ss).
  { intros (c' & ss & H1 & H2 & H3 & H4). exists c', ss. split_and!; try done. intros Hmax. by apply carried_bound. }
  revert k c Hk Hl. induction us as [|u us IH]; intros k c Hk Hl; cbn [uses length answers carried] in *.
  { exists c, []. rewrite app_nil_r. split_and!; [done|apply Hk|done|constructor]. }
  assert (Z.abs (count_after (maxStreams c) k u) <= Z.abs k + 1) as Hc by (destruct u; cbn; repeat case_match; lia).
  destruct (use_stream_spec now u k c Hk) as (c1 & s1 & -> & H1 & H2 & H3 & H4); [unfold in_s; lia|done|].
  destruct (IH _ c1 H1) as (c2 & s2 & -> & H5 & H6 & H7); [lia|]. rewrite H2 in *.
  exists c2, (s1 ++ s2). split; [done|]. split; [exact H5|].
  split; [by rewrite H6, H3, app_assoc|]. by apply Forall2_app.
Qed.

(** *** The send queue *)
Fixpoint drain (now : Z) (ids : list StreamID) (p : Pool.MessagePool) c
    : option (Pool.MessagePool * Connection Conn Raw) :=
  match ids with
  | [] => Some (p, c)
  | id :: ids => '(p, c) ← handleSending sizeof_Message id now p c; drain now ids p c
  end.

Lemma Release_other p l l' : l <> l' -> Pool.heap (Pool.Release p l) !! l' = Pool.heap p !! l'.
Proof.
  intros Hne. unfold Pool.Release. destruct (Pool.heap p !! l) as [m|] eqn:E; [|done].
  cbv zeta. case_match; [|by cbn; rewrite lookup_insert_ne].
  unfold Pool.Put. cbn. rewrite lookup_insert_eq. case_match; cbn; by rewrite !lookup_insert_ne.
Qed.

(** The send queue delivers: with stream budget for all of them, the sending
    goroutine takes the queued messages in order and sends each, as queued, on
    a stream of its own, releasing the queue's reference after. *)
Theorem queue_delivers now ids ls msgs n p c :
  budget n c -> Z.of_nat (length ls) <= n -> (forall r, sent (raw_close r).1 = sent r) ->
  chan_buf (sendQueue c) = Some <$> ls -> length ids = length ls ->
  NoDup ls -> Forall2 (fun l m => Pool.heap p !! l = Some m) ls msgs ->
  exists c' ss, drain now ids p c = Some (foldl Pool.Release p ls, c') /\
    chan_buf (sendQueue c') = [] /\ stream_objs c' = stream_objs c ++ ss /\ Forall2 sent_on msgs ss.
Proof.
  intros Hb Hn Hclose. revert ids msgs n p c Hb Hn.
  induction ls as [|l ls IH]; intros ids msgs n p c Hb Hn Hq Hids Hnd Hm.
  { destruct ids; [|done]. inversion Hm. subst. exists c, []. cbn. rewrite app_nil_r.
    split; [done|]. split; [done|]. split; [done|constructor]. }
  destruct ids as [|id ids]; [done|]. inversion Hm as [|? m ? ms Hl Hms]; subst.
  apply NoDup_cons in Hnd as [Hnin Hnd]. cbn [length] in Hn. cbn [drain].
  unfold handleSending, try_recv. rewrite Hq. cbn [fmap list_fmap]. rewrite Hl. 
  set (c1 := set_queues _ _ c).
  assert (Hb1 : budget n c1) by exact Hb.
  destruct (sendInternal_budget id now m n c1 Hb1) as (c2 & s & E & Hb2 & Hobj & Hs & Hq2 & _); [lia|done|].
  change (default Pool.blank (Some m)) with m. rewrite E. cbn [fst mbind option_bind].
  destruct (IH ids ms (n - 1) (Pool.Release p l) c2) as (c3 & ss & E3 & Hq3 & Hobj3 & Hss); try done; try lia.
  - by rewrite Hq2.
  - cbn in Hids. lia.
  - clear -Hms Hnin. induction Hms as [|l' m' ls ms Hl' _ IH]; constructor.
    + rewrite Release_other; [done|]. intros ->. apply Hnin, list_elem_of_here.
    + apply IH. intros Hin. by apply Hnin, list_elem_of_further.
  - exists c3, (s :: ss). rewrite E3. split; [done|]. split; [done|].
    split; [by rewrite Hobj3, Hobj, <- app_assoc|]. by constructor.
Qed.
End Delivery.

(** ** An in-memory connection *)
#[export] Instance pipe_conn : QuicConn unit Pipe := {
  open_stream c := (c, Ok (mkPipe [] []));
  accept_stream c := (c, Ok (mkPipe [] []));
  close_with_error c := (c, None)
}.
#[export] Program Instance pipe_open : OpenConn unit Pipe.
Next Obligation. intros c. by eexists _, _. Qed.
Next Obligation. intros c. by eexists _, _. Qed.

Definition conn_with (counter max : Z) (queued : list (option Pool.loc)) : Connection unit Pipe :=
  mkConnection tt ConnectionStateConnected false false 0 0 0 [] ∅ counter max
    (mkChan [] 10 false) (mkChan queued 10 false).

Lemma Close_correct_witness :
  let '(c', t', _) := Close (conn_with 0 5 []) (UpdateStats "connections_active" 1 Transport.NewBaseTransport) in
  done c' = true /\ Transport.ConnectionsActive (Transport.stats t') = 0.
Proof.
  pose proof (Close_correct 96 (conn_with 0 5 [])
    (UpdateStats "connections_active" 1 Transport.NewBaseTransport) eq_refl) as H.
  split; [reflexivity|]. exact (proj1 (proj2 (proj2 H))).
Defined.

Lemma streams_run_out_witness :
  let blank := Pool.blank in
  exists c', uses 96 0 [USend "a" blank; UAccept "p"; USend "b" blank; URemove "a"; USend "c" blank] (conn_with 0 2 []) =
    (c', [None; None; Some (Sentinel ErrMaxStreamsReached); None; None]).
Proof.
  intros blank.
  destruct (streams_run_out 96 0 [USend "a" blank; UAccept "p"; USend "b" blank; URemove "a"; USend "c" blank] 0 (conn_with 0 2 []))
    as (c' & ss & H & _).
  - repeat split; reflexivity || discriminate.
  - reflexivity.
  - reflexivity.
  - exists c'. exact H.
Defined.

Definition one_message : Pool.MessagePool := (Pool.Get Pool.NewMessagePool None 1%positive "m" 0).1.

Lemma queue_delivers_witness :
  exists c', drain 96 0 ["a"] one_message (conn_with 0 5 [Some 1%positive]) =
    Some (Pool.Release one_message 1%positive, c').
Proof.
  destruct (queue_delivers 96 0 ["a"] [1%positive] [Pool.reset "m" 0 Pool.blank] 5 one_message
    (conn_with 0 5 [Some 1%positive])) as (c' & ss & H & _).
  - repeat split; reflexivity || discriminate.
  - discriminate.
  - reflexivity.
  - reflexivity.
  - reflexivity.
  - apply NoDup_singleton.
  - constructor; [reflexivity|constructor].
  - exists c'. exact H.
Defined.

(** ** The reference of a queued message *)
Section Race.
Context {Conn Raw : Type} {RS : RawStream Raw} {QC : QuicConn Conn Raw}.
Context (sizeof_Message : Z).
Implicit Types c : Connection Conn Raw.

(** [SendMessage] retains a message only after it queued it. Run without
    interruption, sending and then releasing the caller's reference returns
    the message to the pool once. But when the sending goroutine takes the
    message and releases it between the two steps, the message goes back to
    the pool while the caller still uses it, and the caller's own release puts
    it there a second time. *)
Theorem send_retains_too_late mid id now c sq :
  usable c = true -> chan_buf (sendQueue c) = [] -> chan_closed (sendQueue c) = false ->
  0 < chan_cap (sendQueue c) -> sq = mkChan [Some 1%positive] (chan_cap (sendQueue c)) false ->
  let p0 := (Pool.Get Pool.NewMessagePool None 1%positive mid now).1 in
  (exists p1 c1 p2 c2,
     SendMessage 1%positive p0 c = (p1, c1, None) /\
     handleSending sizeof_Message id now p1 c1 = Some (p2, c2) /\
     Pool.free (Pool.Release p2 1%positive) = [1%positive]) /\
  (exists c1 p2 c2,
     enqueue 1%positive c = (c1, None) /\
     handleSending sizeof_Message id now p0 c1 = Some (p2, c2) /\
     Pool.free p2 = [1%positive] /\
     Pool.free (Pool.Release (Pool.Retain p2 1%positive) 1%positive) = [1%positive; 1%positive]).
Proof.
  intros Hu Hb Hc Hcap -> p0.
  assert (He : enqueue 1%positive c =
    (set_queues (messageQueue c) (mkChan [Some 1%positive] (chan_cap (sendQueue c)) false) c, None)).
  { unfold enqueue, try_send. rewrite Hu, Hc, Hb. cbn [negb length].
    by rewrite (proj2 (Z.ltb_lt _ _)) by done. }
  assert (Hh : forall p, handleSending sizeof_Message id now p
    (set_queues (messageQueue c) (mkChan [Some 1%positive] (chan_cap (sendQueue c)) false) c) =
    Some (Pool.Release p 1%positive, (sendMessageInternal sizeof_Message id now
      (default Pool.blank (Pool.heap p !! 1%positive))
      (set_queues (messageQueue c) (mkChan [] (chan_cap (sendQueue c)) false) c)).1)) by done.
  split.
  - unfold SendMessage. rewrite He. do 4 eexists. split; [reflexivity|]. rewrite Hh.
    split; [reflexivity|]. reflexivity.
  - rewrite He. do 3 eexists. split; [reflexivity|]. rewrite Hh. split; [reflexivity|]. split; reflexivity.
Qed.
End Race.

Lemma send_retains_too_late_witness :
  exists c1 p2 c2, enqueue 1%positive (conn_with 0 5 []) = (c1, None) /\
    handleSending 96 "s" 0 one_message c1 = Some (p2, c2) /\
    Pool.free p2 = [1%positive] /\
    Pool.free (Pool.Release (Pool.Retain p2 1%positive) 1%positive) = [1%positive; 1%positive].
Proof.
  refine (proj2 (send_retains_too_late 96 "m" "s" 0 (conn_with 0 5 []) _ _ _ _ _ eq_refl)); reflexivity.
Defined.
