(* ===== verification/Sharded.v ===== *)
(** * Sharded roots ([internal/core/syncv2/vars/sharded.go])

    A variable kept as several shards, chosen by a key: by hash, by a
    consistent-hash ring, by key ranges, or by hash over a number of shards
    that follows the load. [Shards] is what they share; each root adds its way
    to choose the shard. The hash function of the xxhash package is a
    parameter. *)
From S2P Require Import Prelude Iterators.
From Stdlib Require Import ZArith Lia Strings.String Strings.Ascii.
From stdpp Require Import base list strings gmap pretty sorting.
Open Scope Z_scope.

(** ** Shards *)
Record shard (T : Type) : Type := mkShard { svalue : T; sversion : Z }.
Arguments mkShard {T}.
Arguments svalue {T}.
Arguments sversion {T}.

Definition newShard {T} (value : T) : shard T := mkShard value 1.

Record Shards (T : Type) : Type := mkShards { shards : list (shard T); version : Z; dirty : bool }.
Arguments mkShards {T}.
Arguments shards {T}.
Arguments version {T}.
Arguments dirty {T}.

Definition new_shards {T} (n : nat) (v : T) : Shards T := mkShards (replicate n (newShard v)) 1 false.

(** Reading and writing the shard at an index; out of range panics. *)
Definition shard_get {T} (idx : nat) (s : Shards T) : outcome T :=
  match shards s !! idx with
  | Some sh => Done (svalue sh)
  | None => Panic
  end.
Definition shard_set {T} (idx : nat) (v : T) (s : Shards T) : outcome (Shards T) :=
  match shards s !! idx with
  | Some sh => Done (mkShards (<[idx := mkShard v (wrapU 64 (sversion sh + 1))]> (shards s))
                       (wrapU 64 (version s + 1)) true)
  | None => Panic
  end.

(** [ForEachShard]: the action also threads the caller's state. *)
Fixpoint for_each_from {T A} (i : nat) (l : list (shard T)) (action : nat -> T -> A -> A * bool) (a : A) : A :=
  match l with
  | [] => a
  | sh :: l =>
      let '(a, more) := action i (svalue sh) a in
      if (more : bool) then for_each_from (S i) l action a else a
  end.
Definition ForEachShard {T A} (s : Shards T) : (nat -> T -> A -> A * bool) -> A -> A :=
  for_each_from 0 (shards s).
Definition MergeShard {T} (s : Shards T) (merge : list T -> T) : T := merge (svalue <$> shards s).
Definition MarkClean {T} (s : Shards T) : Shards T := mkShards (shards s) (version s) false.

Definition defaultShardKey : string := "default".

(** ** The interface: how a root chooses the shard of a key *)
Class ShardedRoot (R T : Type) : Type := {
  base : R -> Shards T;
  with_base : Shards T -> R -> R;
  shard_index : R -> string -> nat
}.

Section Root.
Context {R T : Type} {SR : ShardedRoot R T}.
Definition GetShard (r : R) (key : string) : outcome T := shard_get (shard_index r key) (base r).
Definition SetShard (r : R) (key : string) (v : T) : outcome R :=
  s ← shard_set (shard_index r key) v (base r); Done (with_base s r).
Definition Get (r : R) : outcome T := GetShard r defaultShardKey.
Definition Set_ (r : R) (v : T) : outcome R := SetShard r defaultShardKey v.
End Root.

(** The laws a root must satisfy for the theorems about reads and writes. *)
Class ShardedLaws (R T : Type) `{ShardedRoot R T} : Type := {
  wf : R -> Prop;
  index_lt r key : wf r -> (shard_index r key < length (shards (base r)))%nat;
  base_with s r : base (with_base s r) = s;
  index_with s r key : length (shards s) = length (shards (base r)) ->
    shard_index (with_base s r) key = shard_index r key;
  wf_with s r : wf r -> length (shards s) = length (shards (base r)) -> wf (with_base s r)
}.

Section Hashing.
(** [xxhash.Sum64String] *)
Context (Sum64 : string -> Z).
Definition xHash (key : string) : Z := Sum64 key.
Definition xHash32 (key : string) : Z := wrapU 32 (Sum64 key).

(** ** Hash sharding *)
Record HashSharded (T : Type) : Type := mkHash { hbase : Shards T; hashFunc : string -> Z }.
Arguments mkHash {T}.
Arguments hbase {T}.
Arguments hashFunc {T}.

Definition NewHashSharded {T} (shardCount : Z) (initialValue : T) : HashSharded T :=
  let shardCount := if shardCount <=? 0 then 16 else shardCount in
  mkHash (new_shards (Z.to_nat shardCount) initialValue) xHash32.

Definition getShardIndex {T} (h : HashSharded T) (shardKey : string) : nat :=
  Z.to_nat (hashFunc h shardKey mod wrapU 32 (Z.of_nat (length (shards (hbase h))))).

#[export] Instance hash_root T : ShardedRoot (HashSharded T) T := {
  base := hbase;
  with_base s h := mkHash s (hashFunc h);
  shard_index := getShardIndex
}.

(** ** Consistent hashing *)
Record ConsistentHashSharded (T : Type) : Type := mkConsistent
  { cbase : Shards T; nodes : list Z; virtualNodes : gmap Z nat }.
Arguments mkConsistent {T}.
Arguments cbase {T}.
Arguments nodes {T}.
Arguments virtualNodes {T}.

(** [addNode] sorts a copy of the nodes, which it drops. *)
Definition addNode (hash : Z) (nodes : list Z) : list Z :=
  let nodes := nodes ++ [hash] in
  let _sorted := SliceStable Z.ltb nodes in
  nodes.

(** [sort.Search(n, f)]: binary search for the first index where [f] holds. *)
Fixpoint search_loop (fuel : nat) (f : nat -> bool) (i j : nat) : nat :=
  match fuel with
  | O => i
  | S fuel =>
      if (i <? j)%nat then
        let h := ((i + j) / 2)%nat in
        if f h then search_loop fuel f i h else search_loop fuel f (S h) j
      else i
  end.
Definition Search (n : nat) (f : nat -> bool) : nat := search_loop n f 0 n.

Definition getNode (nodes : list Z) (keyHash : Z) : Z :=
  match nodes with
  | [] => 0
  | first :: _ =>
      let idx := Search (length nodes) (fun i => keyHash <=? nth i nodes 0) in
      if (idx =? length nodes)%nat then first else nth idx nodes 0
  end.

(** One virtual node; [None]: the hash is taken, and the loop that looks for
    another key tests a flag that never changes. *)
Definition add_virtual (rnd : nat -> Z) (shardIdx v k : nat) (ring : list Z * gmap Z nat)
    : option (list Z * gmap Z nat) :=
  let '(nodes, vnodes) := ring in
  let key := "shard-" +:+ pretty shardIdx +:+ "-virtual-" +:+ pretty v +:+ "-" +:+ pretty (rnd k) in
  let hash := Sum64 key in
  match vnodes !! hash with
  | Some _ => None
  | None => Some (addNode hash nodes, <[hash := shardIdx]> vnodes)
  end.
Fixpoint add_all (rnd : nat -> Z) (todo : list (nat * nat)) (k : nat) (ring : list Z * gmap Z nat)
    : option (list Z * gmap Z nat) :=
  match todo with
  | [] => Some ring
  | (shardIdx, v) :: todo => ring ← add_virtual rnd shardIdx v k ring; add_all rnd todo (S k) ring
  end.

(** [rnd] is the stream of [rand.Intn(100000)]; a negative count is 16. *)
Definition NewConsistentHashSharded {T} (rnd : nat -> Z) (shardCount : Z) (initialValue : T)
    : option (ConsistentHashSharded T) :=
  let n := Z.to_nat (if shardCount <? 0 then 16 else shardCount) in
  let todo := shardIdx ← seq 0 n; (fun v => (shardIdx, v)) <$> seq 0 (n * 2) in
  '(nodes, vnodes) ← add_all rnd todo 0 ([], ∅);
  Some (mkConsistent (new_shards n initialValue) nodes vnodes).

(** A node that is not in the map gives shard 0. *)
Definition getShardForKey {T} (c : ConsistentHashSharded T) (key : string) : nat :=
  default 0%nat (virtualNodes c !! getNode (nodes c) (xHash key)).

#[export] Instance consistent_root T : ShardedRoot (ConsistentHashSharded T) T := {
  base := cbase;
  with_base s c := mkConsistent s (nodes c) (virtualNodes c);
  shard_index := getShardForKey
}.
End Hashing.
Arguments mkHash {T}.
Arguments hbase {T}.
Arguments hashFunc {T}.
Arguments mkConsistent {T}.
Arguments cbase {T}.
Arguments nodes {T}.
Arguments virtualNodes {T}.

(** ** Range sharding *)
Record RangeSharded (T : Type) : Type := mkRange { rbase : Shards T; keyRanges : list string }.
Arguments mkRange {T}.
Arguments rbase {T}.
Arguments keyRanges {T}.

Definition defaultRanges : list string := ["a"; "h"; "o"; "v"].

(** The ranges are copied and the sorted copy is dropped. *)
Definition NewRangeSharded {T} (ranges : list string) (initialValue : T) : RangeSharded T :=
  let ranges := if decide (length ranges = 0%nat) then defaultRanges else ranges in
  let _sorted := SliceStable String.ltb ranges in
  mkRange (new_shards (length ranges) initialValue) ranges.

Fixpoint range_index (i : nat) (keyRanges : list string) (key : string) : option nat :=
  match keyRanges with
  | [] => None
  | rangeKey :: rest => if String.ltb key rangeKey then Some i else range_index (S i) rest key
  end.
Definition getShardIndexForRange {T} (r : RangeSharded T) (key : string) : nat :=
  default (length (keyRanges r) - 1)%nat (range_index 0 (keyRanges r) key).

#[export] Instance range_root T : ShardedRoot (RangeSharded T) T := {
  base := rbase;
  with_base s r := mkRange s (keyRanges r);
  shard_index := getShardIndexForRange
}.

(** ** Adaptive sharding *)
Module Adaptive.
Section Adaptive.
Context {T : Type} (Sum64 : string -> Z).

Record AdaptiveSharded : Type := mkAdaptive {
  abase : Shards T;
  count : Z;                (* int32 *)
  minShards : Z;
  maxShards : Z;
  scaleUpThreshold : Z;
  scaleDownThreshold : Z;
  totalOps : Z;
  sampleOps : Z
}.

Definition NewAdaptiveSharded (initialShardCount : Z) (initialValue : T) : AdaptiveSharded :=
  let n := if initialShardCount <=? 0 then 4 else initialShardCount in
  mkAdaptive (new_shards (Z.to_nat n) initialValue) (wrapS 32 n) (wrapS 32 n) (wrapS 32 (n * 64))
    1000 100 0 0.

Definition set_ops (total sample : Z) (a : AdaptiveSharded) : AdaptiveSharded :=
  mkAdaptive (abase a) (count a) (minShards a) (maxShards a) (scaleUpThreshold a) (scaleDownThreshold a)
    total sample.
Definition set_shards (s : Shards T) (n : Z) (a : AdaptiveSharded) : AdaptiveSharded :=
  mkAdaptive s n (minShards a) (maxShards a) (scaleUpThreshold a) (scaleDownThreshold a)
    (totalOps a) (sampleOps a).

(** [trackOperation]: the boolean says that a resize is started in the background. *)
Definition trackOperation (a : AdaptiveSharded) : AdaptiveSharded * bool :=
  let ops := wrapS 64 (sampleOps a + 1) in
  (set_ops (wrapS 64 (totalOps a + 1)) ops a, Z.rem ops 1000 =? 0).

(** The index, clamped to the shards there are; modulo zero panics. *)
Definition index_of (a : AdaptiveSharded) (shardKey : string) : outcome nat :=
  let n := wrapU 32 (count a) in
  if n =? 0 then Panic
  else
    let idx := Z.to_nat (wrapU 32 (Sum64 shardKey) mod n) in
    let len := length (shards (abase a)) in
    if (len <=? idx)%nat then (if (len =? 0)%nat then Panic else Done (len - 1)%nat) else Done idx.

Definition GetShard (a : AdaptiveSharded) (shardKey : string) : outcome (AdaptiveSharded * bool * T) :=
  let '(a, resize) := trackOperation a in
  idx ← index_of a shardKey; v ← shard_get idx (abase a);
  Done (a, resize, v).

Definition SetShard (a : AdaptiveSharded) (shardKey : string) (v : T) : outcome (AdaptiveSharded * bool) :=
  let '(a, resize) := trackOperation a in
  idx ← index_of a shardKey; s ← shard_set idx v (abase a);
  Done (set_shards s (count a) a, resize).

Definition GetShardCount (a : AdaptiveSharded) : Z := count a.

Definition SetResizeThresholds (up down : Z) (a : AdaptiveSharded) : AdaptiveSharded :=
  mkAdaptive (abase a) (count a) (minShards a) (maxShards a) up down (totalOps a) (sampleOps a).
Definition SetResizeThreshold (threshold : Z) (a : AdaptiveSharded) : AdaptiveSharded :=
  SetResizeThresholds threshold (Z.quot threshold 10) a.
Definition SetShardLimits (mn mx : Z) (a : AdaptiveSharded) : AdaptiveSharded :=
  mkAdaptive (abase a) (count a) mn mx (scaleUpThreshold a) (scaleDownThreshold a) (totalOps a) (sampleOps a).

Definition bump (l : list (shard T)) (a : AdaptiveSharded) (n : Z) : AdaptiveSharded :=
  set_shards (mkShards l (wrapU 64 (version (abase a) + 1)) (dirty (abase a))) (wrapS 32 n) a.

(** [scaleUp]: the new shards start with the first shard's value. [make] of a
    negative length, reading a missing first shard and a destination shorter
    than the copied shards' index range panic. *)
Definition scaleUp (a : AdaptiveSharded) : outcome AdaptiveSharded :=
  let cur := count a in
  let newCount := if maxShards a <? cur * 2 then maxShards a else cur * 2 in
  if newCount =? cur then Done a
  else if newCount <? 0 then Panic
  else
    defaultValue ← shard_get 0 (abase a);
    let kept := take (Z.to_nat newCount) (shards (abase a)) in
    let fresh := replicate (Z.to_nat newCount - Z.to_nat cur) (newShard defaultValue) in
    Done (bump (take (Z.to_nat cur) kept ++ fresh) a newCount).

Definition scaleDown (a : AdaptiveSharded) : outcome AdaptiveSharded :=
  let cur := count a in
  let half := Z.quot cur 2 in
  let newCount := if half <? minShards a then minShards a else half in
  if newCount =? cur then Done a
  else if (newCount <? 0) || (Z.of_nat (length (shards (abase a))) <? newCount) then Panic
  else Done (bump (take (Z.to_nat newCount) (shards (abase a))) a newCount).

(** [maybeResize], when no other resize is under way. *)
Definition maybeResize (a : AdaptiveSharded) : outcome AdaptiveSharded :=
  let currentOps := sampleOps a in
  let a := set_ops (totalOps a) 0 a in
  if count a =? 0 then Panic
  else
    let opsPerShard := Z.quot currentOps (count a) in
    if (scaleUpThreshold a <? opsPerShard) && (count a <? maxShards a) then scaleUp a
    else if (opsPerShard <? scaleDownThreshold a) && (minShards a <? count a) then scaleDown a
    else Done a.

(** The shards match the count, between positive limits. *)
Record adaptive_inv (a : AdaptiveSharded) : Prop := {
  inv_length : Z.of_nat (length (shards (abase a))) = count a;
  inv_min : 1 <= minShards a;
  inv_count : minShards a <= count a <= maxShards a;
  inv_max : maxShards a < 2 ^ 31
}.
End Adaptive.
Arguments AdaptiveSharded : clear implicits.
End Adaptive.

(** ** Reads and writes, for every root that satisfies the laws *)
Section ReadWrite.
Context {R T : Type} `{SL : ShardedLaws R T}.

(** A sharded root is a table from shards to values: on a well-formed root a
    write succeeds and is read back under every key of the same shard, changes
    no other shard, moves the version by one and marks the root dirty; the
    shard of a key never changes. *)
Theorem sharded_read_write (r : R) (key : string) (v : T) : wf r ->
  exists r', SetShard r key v = Done r' /\ wf r' /\
    version (base r') = wrapU 64 (version (base r) + 1) /\ dirty (base r') = true /\
    length (shards (base r')) = length (shards (base r)) /\
    forall key', shard_index r' key' = shard_index r key' /\
      GetShard r' key' =
        if decide (shard_index r key' = shard_index r key) then Done v else GetShard r key'.
Proof.
  intros Hwf. unfold SetShard, shard_set, GetShard, shard_get. pose proof (index_lt r key Hwf) as Hlt.
  destruct (lookup_lt_is_Some_2 _ _ Hlt) as [sh Hsh]. rewrite Hsh. cbn [mbind outcome_bind].
  set (s := mkShards _ _ _). assert (Hlen : length (shards s) = length (shards (base r))) by apply length_insert.
  exists (with_base s r). rewrite base_with. split; [done|]. split; [by apply wf_with|].
  split; [done|]. split; [done|]. split; [done|]. intros key'.
  rewrite index_with by done. split; [done|]. unfold s; cbn [shards]. case_decide as Hd.
  - rewrite Hd, list_lookup_insert_eq by done. done.
  - by rewrite list_lookup_insert_ne.
Qed.
End ReadWrite.

#[export] Program Instance hash_laws T : ShardedLaws (HashSharded T) T := {|
  wf h := (0 < length (shards (hbase h)))%nat /\ Z.of_nat (length (shards (hbase h))) < 2 ^ 32
|}.
Next Obligation.
  intros T h key [H1 H2]. cbn. unfold getShardIndex. rewrite wrapU_id by (unfold in_u; lia).
  pose proof (Z.mod_pos_bound (hashFunc h key) (Z.of_nat (length (shards (hbase h)))) ltac:(lia)). lia.
Qed.
Next Obligation. done. Qed.
Next Obligation. intros T s h key Hl. cbn. unfold getShardIndex. cbn. by rewrite Hl. Qed.
Next Obligation. intros T s h [H1 H2] Hl. cbn in *. by rewrite Hl. Qed.

#[export] Program Instance range_laws T : ShardedLaws (RangeSharded T) T := {|
  wf r := length (shards (rbase r)) = length (keyRanges r) /\ keyRanges r <> []
|}.
Next Obligation.
  intros T r key [H1 H2]. cbn. rewrite H1. unfold getShardIndexForRange.
  assert (Hb : forall l i n, range_index i l key = Some n -> (n < i + length l)%nat).
  { induction l as [|x l IH]; intros i n; cbn [range_index length]; [done|].
    case_match; [intros [= <-]; lia|]. intros Hr. apply IH in Hr. lia. }
  destruct (range_index 0 (keyRanges r) key) as [n|] eqn:E; cbn [default].
  - apply Hb in E. done.
  - destruct (keyRanges r); [done|]. cbn [length]. lia.
Qed.
Next Obligation. done. Qed.
Next Obligation. done. Qed.
Next Obligation. intros T s r [H1 H2] Hl. cbn in *. by rewrite Hl. Qed.

Section Consistent.
Context (Sum64 : string -> Z).
Local Instance consistent_here T : ShardedRoot (ConsistentHashSharded T) T := consistent_root Sum64 T.

#[export] Program Instance consistent_laws T : ShardedLaws (ConsistentHashSharded T) T := {|
  wf c := (0 < length (shards (cbase c)))%nat /\
    map_Forall (fun _ i => (i < length (shards (cbase c)))%nat) (virtualNodes c)
|}.
Next Obligation.
  intros T c key [H1 H2]. cbn. unfold getShardForKey.
  destruct (virtualNodes c !! getNode (nodes c) (xHash Sum64 key)) as [i|] eqn:E; cbn [default]; [|done].
  by apply (H2 _ _ E).
Qed.
Next Obligation. done. Qed.
Next Obligation. done. Qed.
Next Obligation. intros T s c [H1 H2] Hl. cbn in *. by rewrite Hl. Qed.

Lemma add_all_wf n rnd todo k ring ring' :
  Forall (fun p => p.1 < n)%nat todo -> map_Forall (fun _ i => (i < n)%nat) ring.2 ->
  add_all Sum64 rnd todo k ring = Some ring' -> map_Forall (fun _ i => (i < n)%nat) ring'.2.
Proof.
  intros Ht. revert k ring. induction Ht as [|[si v] todo Hs _ IH]; intros k [ns vs] Hm; cbn [add_all].
  { by intros [= <-]. }
  unfold add_virtual. cbv zeta. case_match; cbn [mbind option_bind]; [done|]. apply IH.
  cbn. by apply map_Forall_insert_2.
Qed.

(** The constructors build well-formed roots. *)
Lemma NewConsistentHashSharded_wf {T} rnd n (v : T) c :
  n <> 0 -> NewConsistentHashSharded Sum64 rnd n v = Some c -> wf c.
Proof.
  intros Hn. unfold NewConsistentHashSharded. cbv zeta. set (k := Z.to_nat _).
  destruct (add_all _ _ _ _ _) as [[ns vs]|] eqn:E; cbn [mbind option_bind]; [|done]. intros [= <-].
  cbn. rewrite length_replicate. split.
  - unfold k. destruct (Z.ltb_spec n 0); lia.
  - eapply (add_all_wf k) in E; [exact E| |apply map_Forall_empty].
    apply Forall_forall. intros [si v'] Hin. apply list_elem_of_bind in Hin as (x & Hin & Hx).
    apply list_elem_of_fmap in Hin as (y & [= <- <-] & _). apply elem_of_seq in Hx. cbn. lia.
Qed.
End Consistent.

Lemma NewHashSharded_wf {T} Sum64 n (v : T) : n < 2 ^ 32 -> wf (NewHashSharded Sum64 n v).
Proof.
  intros Hn. cbn. rewrite length_replicate. destruct (Z.leb_spec n 0); lia.
Qed.

Lemma NewRangeSharded_wf {T} ranges (v : T) : wf (NewRangeSharded ranges v).
Proof.
  cbn. rewrite length_replicate. split; [done|]. case_decide; [done|]. by intros ->.
Qed.

(** ** The ring *)

(** The invariant of binary search: [f] fails just before [i] and holds at [j]. *)
Lemma search_loop_spec n f fuel i j : (i <= j <= n)%nat -> (j - i <= fuel)%nat ->
  (i = 0%nat \/ f (i - 1)%nat = false) -> (j = n \/ f j = true) ->
  let k := search_loop fuel f i j in
  (k <= n)%nat /\ (k = 0%nat \/ f (k - 1)%nat = false) /\ (k = n \/ f k = true).
Proof.
  revert i j. induction fuel as [|fuel IH]; intros i j Hij Hf Hi Hj; cbn [search_loop].
  { assert (i = j) as -> by lia. split; [lia|done]. }
  destruct (Nat.ltb_spec i j); [|assert (i = j) as -> by lia; split; [lia|done]].
  assert (Hh : (i <= (i + j) / 2 < j)%nat).
  { split; [apply Nat.div_le_lower_bound; lia|apply Nat.Div0.div_lt_upper_bound; lia]. }
  destruct (f ((i + j) / 2)%nat) eqn:E; apply IH; try lia; try done; try by right.
  right. by replace (S ((i + j) / 2) - 1)%nat with ((i + j) / 2)%nat by lia.
Qed.

Lemma Search_spec n f :
  let k := Search n f in
  (k <= n)%nat /\ (k = 0%nat \/ f (k - 1)%nat = false) /\ (k = n \/ f k = true).
Proof. apply search_loop_spec; [lia|lia|by left|by left]. Qed.

Lemma sorted_nth l i j : StronglySorted Z.le l -> (i <= j < length l)%nat -> nth i l 0 <= nth j l 0.
Proof.
  intros Hs. revert i j. induction Hs as [|x l Hs IH Hx]; intros i j Hij; cbn [length] in Hij; [lia|].
  destruct i as [|i], j as [|j]; cbn [nth]; [lia| |lia|apply IH; lia].
  rewrite Forall_forall in Hx. apply Hx. apply list_elem_of_In, nth_In. lia.
Qed.

(** The node a ring should give to a key: the first at or after it, going round
    to the smallest. *)
Definition successor (nodes : list Z) (key m : Z) : Prop :=
  m ∈ nodes /\
  ((key <= m /\ forall x, x ∈ nodes -> key <= x -> m <= x) \/
   (forall x, x ∈ nodes -> x < key /\ m <= x)).

(** A ring gives every key one of its nodes, and on a sorted ring the right
    one: the key's successor. But [addNode] throws the sorted copy away and
    keeps the nodes in insertion order, so the ring the code builds is not
    sorted and gives a key a node that is not its successor. *)
Theorem getNode_correct ns key : ns <> [] ->
  getNode ns key ∈ ns /\
  (StronglySorted Z.le ns -> successor ns key (getNode ns key)) /\
  (forall hashes, foldl (fun l h => addNode h l) [] hashes = hashes) /\
  ~ successor [30; 20; 10] 15 (getNode (foldl (fun l h => addNode h l) [] [30; 20; 10]) 15).
Proof.
  intros Hne. destruct ns as [|first ns']; [done|]. set (ns := first :: ns') in *.
  destruct (Search_spec (length ns) (fun i => key <=? nth i ns 0)) as (Hk & Hbefore & Hat).
  assert (Hget : getNode ns key =
    if Nat.eqb (Search (length ns) (fun i => key <=? nth i ns 0)) (length ns)
    then nth 0 ns 0 else nth (Search (length ns) (fun i => key <=? nth i ns 0)) ns 0) by done.
  set (k := Search _ _) in *. split; [|split; [|split]].
  - rewrite Hget. case_match eqn:E; apply list_elem_of_In, nth_In; [simpl; lia|apply Nat.eqb_neq in E; lia].
  - intros Hs. rewrite Hget. destruct (Nat.eqb_spec k (length ns)) as [E|E].
    + split; [apply list_elem_of_In, nth_In; simpl; lia|]. right. intros x Hx.
      apply list_elem_of_In, (In_nth _ _ 0) in Hx as (i & Hi & <-).
      destruct Hbefore as [H0|Hb]; [lia|]. apply Z.leb_gt in Hb.
      pose proof (sorted_nth ns i (k - 1) Hs ltac:(lia)). pose proof (sorted_nth ns 0 i Hs ltac:(lia)). lia.
    + split; [apply list_elem_of_In, nth_In; lia|]. left. destruct Hat as [?|Hat]; [lia|].
      apply Z.leb_le in Hat. split; [done|]. intros x Hx Hle.
      apply list_elem_of_In, (In_nth _ _ 0) in Hx as (i & Hi & <-).
      destruct (decide (k <= i)%nat); [by apply sorted_nth|].
      destruct Hbefore as [H0|Hb]; [lia|]. apply Z.leb_gt in Hb.
      pose proof (sorted_nth ns i (k - 1) Hs ltac:(lia)). lia.
  - intros hashes. rewrite <- (app_nil_l hashes) at 2. generalize (@nil Z) as acc.
    induction hashes as [|h hs IH]; intros acc; cbn [foldl]; [by rewrite app_nil_r|].
    rewrite IH. unfold addNode. by rewrite <- app_assoc.
  - intros [_ [[_ H]|H]].
    + specialize (H 20). vm_compute in H. destruct H; [|discriminate|reflexivity]. repeat constructor.
    + destruct (H 30) as [H' _]; [constructor|]. discriminate H'.
Qed.

Lemma getNode_correct_witness : successor [10; 20; 30] 15 (getNode [10; 20; 30] 15).
Proof.
  refine (proj1 (proj2 (getNode_correct [10; 20; 30] 15 _)) _); [discriminate|].
  repeat constructor; discriminate.
Defined.

(** ** Adaptive sharding *)
Module AdaptiveFacts.
Import Adaptive.
Section AdaptiveFacts.
Context {T : Type} (Sum64 : string -> Z).
Implicit Types a : AdaptiveSharded T.

Lemma index_ok a key : adaptive_inv a ->
  index_of Sum64 a key = Done (Z.to_nat (wrapU 32 (Sum64 key) mod count a)) /\
  (Z.to_nat (wrapU 32 (Sum64 key) mod count a) < length (shards (abase a)))%nat.
Proof.
  intros [Hl Hmn Hc Hmx]. unfold index_of. rewrite wrapU_id by (unfold in_u; lia).
  rewrite (proj2 (Z.eqb_neq _ _)) by lia. cbv zeta.
  pose proof (Z.mod_pos_bound (wrapU 32 (Sum64 key)) (count a) ltac:(lia)).
  assert (Hlt : (Z.to_nat (wrapU 32 (Sum64 key) mod count a) < length (shards (abase a)))%nat) by lia.
  rewrite (proj2 (Nat.leb_gt _ _)) by done. done.
Qed.

Lemma scaleUp_ok a : adaptive_inv a -> count a < maxShards a ->
  exists a', scaleUp a = Done a' /\ adaptive_inv a' /\ count a' = Z.min (maxShards a) (count a * 2) /\
    take (length (shards (abase a))) (shards (abase a')) = shards (abase a) /\
    (forall i sh, (length (shards (abase a)) <= i)%nat -> shards (abase a') !! i = Some sh ->
       Done (svalue sh) = shard_get 0 (abase a)).
Proof.
  intros [Hl Hmn Hc Hmx] Hlt. unfold scaleUp.
  set (n := if maxShards a <? count a * 2 then maxShards a else count a * 2).
  assert (Hn : n = Z.min (maxShards a) (count a * 2)) by (unfold n; case_match; lia).
  rewrite (proj2 (Z.eqb_neq _ _)), (proj2 (Z.ltb_ge _ _)) by lia.
  unfold shard_get. destruct (shards (abase a) !! 0%nat) as [sh0|] eqn:E0.
  2:{ apply lookup_ge_None in E0. lia. }
  cbn [mbind outcome_bind]. rewrite (take_ge (shards (abase a))) by lia.
  rewrite take_ge by lia. eexists. split; [reflexivity|].
  assert (Hlen : length (shards (abase a) ++ replicate (Z.to_nat n - Z.to_nat (count a)) (newShard (svalue sh0)))
                 = Z.to_nat n) by (rewrite length_app, length_replicate; lia).
  split; [|split; [|split]].
  - constructor; cbn [abase set_shards bump shards count minShards maxShards]; [|lia| |lia];
      rewrite wrapS_id by (unfold in_s; lia); [rewrite Hlen|]; lia.
  - cbn [count bump set_shards]. by rewrite wrapS_id by (unfold in_s; lia).
  - cbn [abase bump set_shards shards]. by rewrite take_app_length.
  - cbn [abase bump set_shards shards]. intros i sh Hi Hsh. rewrite lookup_app_r in Hsh by done.
    apply lookup_replicate in Hsh as [-> _]. done.
Qed.

Lemma scaleDown_ok a : adaptive_inv a -> minShards a < count a ->
  exists a', scaleDown a = Done a' /\ adaptive_inv a' /\ count a' = Z.max (minShards a) (count a / 2) /\
    shards (abase a') = take (Z.to_nat (count a')) (shards (abase a)).
Proof.
  intros [Hl Hmn Hc Hmx] Hlt. unfold scaleDown. rewrite Z.quot_div_nonneg by lia.
  assert (Hhalf : count a / 2 < count a) by (apply Z.div_lt; lia).
  set (n := if count a / 2 <? minShards a then minShards a else count a / 2).
  assert (Hn : n = Z.max (minShards a) (count a / 2)) by (unfold n; case_match; lia).
  rewrite (proj2 (Z.eqb_neq _ _)), (proj2 (Z.ltb_ge n 0)), (proj2 (Z.ltb_ge _ n)) by lia. cbn [orb].
  eexists. split; [reflexivity|].
  assert (Hw : wrapS 32 n = n) by (apply wrapS_id; unfold in_s; lia).
  split; [|split]; cbn [abase bump set_shards shards count]; rewrite ?Hw; [|done|done].
  constructor; cbn [abase set_shards shards count minShards maxShards bump]; rewrite ?Hw; try lia.
  rewrite length_take. lia.
Qed.

Lemma maybeResize_ok a : adaptive_inv a -> exists a', maybeResize a = Done a' /\ adaptive_inv a'.
Proof.
  intros H. assert (H0 : adaptive_inv (set_ops (totalOps a) 0 a)) by (destruct H; by constructor).
  unfold maybeResize. cbv zeta. rewrite (proj2 (Z.eqb_neq _ _)) by (destruct H; cbn; lia).
  repeat case_match; try (by eexists).
  - apply andb_true_iff in H1 as [_ ?%Z.ltb_lt]. destruct (scaleUp_ok _ H0 H1) as (a' & -> & ? & _). eauto.
  - apply andb_true_iff in H2 as [_ ?%Z.ltb_lt]. destruct (scaleDown_ok _ H0 H2) as (a' & -> & ? & _). eauto.
Qed.

(** Adaptive sharding is safe between positive limits: reads, writes and
    resizes never panic and keep as many shards as counted, within the limits;
    a write is read back until the next resize; and a resize up keeps every
    shard and starts the new ones with the first one's value. *)
Theorem adaptive_correct a key v : adaptive_inv a ->
  (exists a' b, SetShard Sum64 a key v = Done (a', b) /\ adaptive_inv a' /\
     exists a'' b', GetShard Sum64 a' key = Done (a'', b', v) /\ adaptive_inv a'') /\
  (exists a', maybeResize a = Done a' /\ adaptive_inv a') /\
  (count a < maxShards a -> exists a', scaleUp a = Done a' /\
     take (length (shards (abase a))) (shards (abase a')) = shards (abase a) /\
     forall i sh, (length (shards (abase a)) <= i)%nat -> shards (abase a') !! i = Some sh ->
       Done (svalue sh) = shard_get 0 (abase a)).
Proof.
  intros H. split; [|split; [by apply maybeResize_ok|]].
  2:{ intros Hlt. destruct (scaleUp_ok a H Hlt) as (a' & ? & _ & _ & ? & ?). eauto. }
  unfold SetShard. destruct (trackOperation a) as [a1 b] eqn:Et.
  assert (H1 : adaptive_inv a1) by (unfold trackOperation in Et; simplify_eq; destruct H; by constructor).
  destruct (index_ok a1 key H1) as [-> Hlt]. cbn [mbind outcome_bind]. unfold shard_set.
  destruct (lookup_lt_is_Some_2 _ _ Hlt) as [sh Hsh]. rewrite Hsh. cbn [mbind outcome_bind].
  eexists _, _. split; [reflexivity|].
  set (a2 := set_shards _ _ a1).
  assert (H2 : adaptive_inv a2).
  { destruct H1. constructor; cbn [abase set_shards shards a2 count minShards maxShards]; try done.
    by rewrite length_insert. }
  split; [done|]. unfold GetShard. destruct (trackOperation a2) as [a3 b3] eqn:Et3.
  assert (H3 : adaptive_inv a3) by (unfold trackOperation in Et3; simplify_eq; destruct H2; by constructor).
  destruct (index_ok a3 key H3) as [-> _]. cbn [mbind outcome_bind].
  assert (Hb : abase a3 = abase a2 /\ count a3 = count a1) by (unfold trackOperation in Et3; by simplify_eq).
  destruct Hb as [Hb Hcnt]. unfold shard_get. rewrite Hb, Hcnt. cbn [abase set_shards shards a2].
  rewrite list_lookup_insert_eq by done. cbn [mbind outcome_bind svalue]. eauto.
Qed.
(** Operations one after the other, each resize run where it was started. *)
Fixpoint run (ops : list (string * option T)) a : outcome (AdaptiveSharded T) :=
  match ops with
  | [] => Done a
  | (key, op) :: ops =>
      '(a, resize) ← match op with
                     | None => '(a, resize, _) ← GetShard Sum64 a key; Done (a, resize)
                     | Some v => SetShard Sum64 a key v
                     end;
      a ← (if (resize : bool) then maybeResize a else Done a);
      run ops a
  end.

(** With the default thresholds and limits, between resizes. *)
Record defaults (n : Z) a : Prop := {
  def_inv : adaptive_inv a;
  def_count : count a = n /\ minShards a = n;
  def_thresholds : scaleUpThreshold a = 1000 /\ scaleDownThreshold a = 100;
  def_sample : 0 <= sampleOps a < 1000
}.

(** At the end of a window. *)
Definition full_window (n : Z) a : Prop :=
  adaptive_inv a /\ count a = n /\ minShards a = n /\ scaleUpThreshold a = 1000 /\
  scaleDownThreshold a = 100 /\ sampleOps a = 1000.

Lemma no_resize n a : full_window n a ->
  maybeResize a = Done (set_ops (totalOps a) 0 a) /\ defaults n (set_ops (totalOps a) 0 a).
Proof.
  intros (Hi & Hc & Hm & Hu & Hd & Hs). assert (Hn : 1 <= n) by (destruct Hi; lia). split.
  - unfold maybeResize. cbv zeta. cbn [count set_ops scaleUpThreshold scaleDownThreshold minShards maxShards].
    rewrite Hs, Hu, Hm, Hc, (proj2 (Z.eqb_neq n 0)) by lia.
    assert (Hq : Z.quot 1000 n <= 1000).
    { rewrite Z.quot_div_nonneg by lia. apply Z.div_le_upper_bound; lia. }
    by rewrite (proj2 (Z.ltb_ge 1000 _)), Z.ltb_irrefl, andb_false_r by done.
  - constructor; [destruct Hi; by constructor|done|done|cbn; lia].
Qed.

Lemma track_defaults n a : defaults n a ->
  let '(a1, resize) := trackOperation a in
  abase a1 = abase a /\ count a1 = n /\ adaptive_inv a1 /\
  if resize then full_window n a1 else defaults n a1.
Proof.
  intros [Hi [Hc Hm] [Hu Hd] Hs]. unfold trackOperation. cbv zeta.
  rewrite (wrapS_id 64 (sampleOps a + 1)) by (unfold in_s; lia).
  set (a1 := set_ops _ _ a).
  assert (Hi1 : adaptive_inv a1) by (destruct Hi; by constructor).
  split; [done|]. split; [done|]. split; [done|].
  destruct (Z.eqb_spec (Z.rem (sampleOps a + 1) 1000) 0) as [E|E].
  - do 5 (split; [done|]). change (sampleOps a + 1 = 1000).
    destruct (decide (sampleOps a + 1 = 1000)) as [->|]; [done|]. rewrite Z.rem_small in E by lia. lia.
  - constructor; [done|done|done|]. change (0 <= sampleOps a + 1 < 1000).
    destruct (decide (sampleOps a + 1 = 1000)) as [E'|]; [by rewrite E' in E|lia].
Qed.

Lemma inv_set_shards a s : adaptive_inv a -> length (shards s) = length (shards (abase a)) ->
  adaptive_inv (set_shards s (count a) a).
Proof.
  intros [H1 H2 H3 H4] Hl. constructor; cbn [abase set_shards count minShards maxShards]; rewrite ?Hl; done.
Qed.

Lemma defaults_set_shards n a s : defaults n a -> length (shards s) = length (shards (abase a)) ->
  defaults n (set_shards s (count a) a).
Proof.
  intros [[H1 H2 H3 H4] Hc Ht Hs] Hl. constructor; [|done|done|done].
  constructor; cbn [abase set_shards count minShards maxShards]; rewrite ?Hl; done.
Qed.

(** With its default thresholds the adaptive root never adapts: the load is
    sampled every 1000 operations, which is never more than 1000 operations
    per shard, and the count starts at its minimum; so any sequence of reads
    and writes runs without panic and leaves the number of shards as it was. *)
Theorem defaults_never_resize n v ops : 0 < n -> n * 64 < 2 ^ 31 ->
  exists a', run ops (NewAdaptiveSharded n v) = Done a' /\
    count a' = n /\ Z.of_nat (length (shards (abase a'))) = n.
Proof.
  intros Hn Hmx.
  assert (H : defaults n (NewAdaptiveSharded n v)).
  { unfold NewAdaptiveSharded. cbv zeta. rewrite (proj2 (Z.leb_gt n 0)) by done.
    rewrite !wrapS_id by (unfold in_s; lia). constructor; [constructor| | |]; cbn; rewrite ?length_replicate; lia. }
  revert H. generalize (NewAdaptiveSharded n v) as a.
  induction ops as [|[key op] ops IH]; intros a H; cbn [run].
  { exists a. destruct H as [[Hl _ _ _] [Hc _] _ _]. split; [done|]. split; [done|]. by rewrite Hl. }
  pose proof (track_defaults n a H) as Ht. unfold GetShard, SetShard.
  destruct (trackOperation a) as [a1 b]. destruct Ht as (Hb & Hc1 & Hi1 & Hd).
  destruct (index_ok a1 key Hi1) as [-> Hlt]. cbn [mbind outcome_bind].
  destruct (lookup_lt_is_Some_2 _ _ Hlt) as [sh Hsh]. unfold shard_get, shard_set.
  destruct op as [w|]; rewrite Hsh; cbn [mbind outcome_bind].
  - set (s := mkShards _ _ _).
    assert (Hl : length (shards s) = length (shards (abase a1))) by apply length_insert.
    destruct b; cbn [mbind outcome_bind].
    + destruct (no_resize n (set_shards s (count a1) a1)) as [-> Hd']; [|by apply IH].
      destruct Hd as (? & Hd). split; [by apply inv_set_shards|exact Hd].
    + apply IH. by apply defaults_set_shards.
  - destruct b; cbn [mbind outcome_bind]; [|by apply IH].
    destruct (no_resize n a1 Hd) as [-> Hd']. by apply IH.
Qed.

(** A resize up loses the values of the keys it moves: a key whose hash falls
    in the new half reads, after it, the first shard's value and no longer
    the value written to it. *)
Theorem resize_moves_keys a key v a1 b : adaptive_inv a -> count a * 2 <= maxShards a ->
  count a <= wrapU 32 (Sum64 key) mod (count a * 2) ->
  SetShard Sum64 a key v = Done (a1, b) ->
  exists a2 a3 b' v0, scaleUp a1 = Done a2 /\ shard_get 0 (abase a1) = Done v0 /\
    GetShard Sum64 a2 key = Done (a3, b', v0).
Proof.
  intros H Hmax Hidx Hset.
  assert (H1 : adaptive_inv a1 /\ count a1 = count a /\ maxShards a1 = maxShards a).
  { revert Hset. unfold SetShard, trackOperation. cbv zeta. set (a0 := set_ops _ _ a).
    assert (H0 : adaptive_inv a0) by (destruct H; by constructor).
    destruct (index_ok a0 key H0) as [-> Hlt]. cbn [mbind outcome_bind]. unfold shard_set.
    destruct (lookup_lt_is_Some_2 _ _ Hlt) as [sh Hsh]. rewrite Hsh. cbn [mbind outcome_bind].
    intros [= <- <-]. split; [|done]. destruct H0. constructor; cbn [abase set_shards shards count minShards maxShards];
      rewrite ?length_insert; done. }
  destruct H1 as (H1 & Hc & Hm).
  destruct (scaleUp_ok a1 H1) as (a2 & E2 & H2 & Hc2 & _ & Hfresh); [destruct H; lia|].
  rewrite Hc, Hm, Z.min_r in Hc2 by lia. exists a2.
  unfold GetShard. destruct (trackOperation a2) as [a3 b3] eqn:Et.
  assert (H3 : adaptive_inv a3) by (unfold trackOperation in Et; simplify_eq; destruct H2; by constructor).
  assert (Hb : abase a3 = abase a2 /\ count a3 = count a2) by (unfold trackOperation in Et; by simplify_eq).
  destruct Hb as [Hb Hcnt]. destruct (index_ok a3 key H3) as [-> Hlt].
  destruct (lookup_lt_is_Some_2 _ _ Hlt) as [sh Hsh]. cbn [mbind outcome_bind]. unfold shard_get at 2. rewrite Hsh.
  cbn [mbind outcome_bind]. exists a3, b3, (svalue sh). split; [done|]. split; [|done].
  symmetry. rewrite Hb in Hsh. eapply Hfresh; [|exact Hsh]. rewrite Hcnt, Hc2. destruct H1. lia.
Qed.

(** [SetShardLimits] does not check its limits: with a minimum of zero, an
    idle root of one shard scales down to none, and the next access divides by
    zero. *)
Theorem zero_limit_panics v mx key :
  exists a, maybeResize (SetShardLimits 0 mx (NewAdaptiveSharded 1 v)) = Done a /\ GetShard Sum64 a key = Panic.
Proof. eexists. split; reflexivity. Qed.
End AdaptiveFacts.

Definition byte_hash (s : string) : Z := match s with EmptyString => 0 | String c _ => Z.of_nat (nat_of_ascii c) end.

Lemma sample_inv : adaptive_inv (NewAdaptiveSharded 2 7).
Proof. constructor; vm_compute; repeat split; discriminate. Qed.

Lemma adaptive_correct_witness : exists a', maybeResize (NewAdaptiveSharded 2 7) = Done a' /\ adaptive_inv a'.
Proof. exact (proj1 (proj2 (adaptive_correct byte_hash (NewAdaptiveSharded 2 7) "k" 5 sample_inv))). Defined.

Lemma defaults_never_resize_witness :
  exists a', run byte_hash [("a", Some 5); ("b", None)] (NewAdaptiveSharded 2 7) = Done a' /\ count a' = 2.
Proof.
  destruct (defaults_never_resize byte_hash 2 7 [("a", Some 5); ("b", None)]) as (a' & H & Hc & _);
    [lia|lia|]. exists a'. split; [exact H|exact Hc].
Defined.

Lemma resize_moves_keys_witness :
  exists a1 b a2 a3 b' v0, SetShard byte_hash (NewAdaptiveSharded 2 7) "b" 5 = Done (a1, b) /\
    scaleUp a1 = Done a2 /\ shard_get 0 (abase a1) = Done v0 /\ GetShard byte_hash a2 "b" = Done (a3, b', v0).
Proof.
  do 2 eexists. edestruct (resize_moves_keys byte_hash (NewAdaptiveSharded 2 7) "b" 5) as (a2 & a3 & b' & v0 & H);
    [exact sample_inv|vm_compute; discriminate|vm_compute; discriminate|reflexivity|].
  exists a2, a3, b', v0. split; [reflexivity|exact H].
Defined.
End AdaptiveFacts.

Lemma sharded_read_write_witness :
  exists r', SetShard (NewRangeSharded ["m"; "t"] 0) "k" 5 = Done r' /\ dirty (base r') = true.
Proof.
  destruct (sharded_read_write (NewRangeSharded ["m"; "t"] 0) "k" 5) as (r' & H & _ & _ & Hd & _).
  - split; [reflexivity|discriminate].
  - exists r'. split; [exact H|exact Hd].
Defined.
