(* ===== verification/EventBus.v ===== *)
(** * The event bus ([internal/core/events/bus/eventbus.go])

    Topics, subscriptions by event type, filters, delivery and metrics. The
    bus holds handlers and observers by reference; what they do when called is
    a function on the bus and on the callers' own state [U], so a handler may
    subscribe, cancel or publish while an event is being delivered. *)
From S2P Require Import Prelude.
From Stdlib Require Import ZArith Lia Strings.String.
From stdpp Require Import base list strings gmap sets fin_maps fin_sets.
Open Scope Z_scope.

(** [simpleEvent]; the payload is opaque. *)
Record Event : Type := mkEvent
  { EType : string; ESource : string; ETimestamp : Z; EData : any; EPriority : Z; EMetadata : gmap string any }.
Definition NewEvent (now : Z) (typ src : string) (data : any) (priority : Z) (metadata : gmap string any) : Event :=
  mkEvent typ src now data priority metadata.

(** References to handlers and observers, and the subscriptions' identifiers. *)
Abbreviation handler := nat.
Abbreviation observer := nat.
Abbreviation sub_id := string.

Record subscription : Type := mkSub
  { sub_topic : string; eventType : string; shandler : handler; active : bool }.

Record EventBusMetrics : Type := mkMetrics
  { Published : Z; DeliveredHandlers : Z; Errors : Z; DroppedByFilters : Z; SubscribersActive : Z; Topics : Z }.

(** The table goes from topic to event type to the identifiers registered; the
    subscription objects outlive their registration. *)
Record inMemoryBus : Type := mkBus {
  subs : gmap sub_id subscription;
  handlers : gmap string (gmap string (gset sub_id));
  topics : gset string;
  metrics : EventBusMetrics;
  observers : gset observer
}.

Definition New : inMemoryBus := mkBus ∅ ∅ ∅ (mkMetrics 0 0 0 0 0 0) ∅.

Definition set_subs (s : gmap sub_id subscription) (b : inMemoryBus) : inMemoryBus :=
  mkBus s (handlers b) (topics b) (metrics b) (observers b).
Definition set_handlers (h : gmap string (gmap string (gset sub_id))) (b : inMemoryBus) : inMemoryBus :=
  mkBus (subs b) h (topics b) (metrics b) (observers b).
Definition set_metrics (m : EventBusMetrics) (b : inMemoryBus) : inMemoryBus :=
  mkBus (subs b) (handlers b) (topics b) m (observers b).
Definition set_observers (o : gset observer) (b : inMemoryBus) : inMemoryBus :=
  mkBus (subs b) (handlers b) (topics b) (metrics b) o.

(** The identifiers registered under a topic and a type. *)
Definition registered (b : inMemoryBus) (topic etype : string) : gset sub_id :=
  default ∅ (inner ← handlers b !! topic; inner !! etype).

(** ** Topics and subscriptions *)
Definition ensureTopicLocked (topic : string) (b : inMemoryBus) : inMemoryBus :=
  mkBus (subs b)
    (match handlers b !! topic with Some _ => handlers b | None => <[topic := ∅]> (handlers b) end)
    ({[topic]} ∪ topics b) (metrics b) (observers b).

Definition CreateTopic (name : string) (b : inMemoryBus) : inMemoryBus :=
  if decide (name ∈ topics b) then b else ensureTopicLocked name b.

(** [id] is the identifier [uuid.NewString] gives. *)
Definition SubscribeTopic (id : sub_id) (topic etype : string) (h : handler) (b : inMemoryBus) : inMemoryBus :=
  let b := ensureTopicLocked topic b in
  let inner := default ∅ (handlers b !! topic) in
  let ids := default ∅ (inner !! etype) in
  set_subs (<[id := mkSub topic etype h true]> (subs b))
    (set_handlers (<[topic := <[etype := {[id]} ∪ ids]> inner]> (handlers b)) b).
Definition Subscribe (id : sub_id) (etype : string) (h : handler) (b : inMemoryBus) : inMemoryBus :=
  SubscribeTopic id "" etype h b.

(** [Cancel]: the entry goes, the object stays, inactive. *)
Definition Cancel (id : sub_id) (b : inMemoryBus) : inMemoryBus :=
  match subs b !! id with
  | None => b
  | Some s =>
      let hs := match handlers b !! sub_topic s with
        | Some inner =>
            match inner !! eventType s with
            | Some ids => <[sub_topic s := <[eventType s := ids ∖ {[id]}]> inner]> (handlers b)
            | None => handlers b
            end
        | None => handlers b
        end in
      set_subs (<[id := mkSub (sub_topic s) (eventType s) (shandler s) false]> (subs b)) (set_handlers hs b)
  end.
Definition Unsubscribe (id : option sub_id) (b : inMemoryBus) : inMemoryBus :=
  match id with None => b | Some id => Cancel id b end.

Definition AddObserver (o : observer) (b : inMemoryBus) : inMemoryBus := set_observers ({[o]} ∪ observers b) b.
Definition RemoveObserver (o : observer) (b : inMemoryBus) : inMemoryBus := set_observers (observers b ∖ {[o]}) b.
Definition GetMetrics (b : inMemoryBus) : EventBusMetrics := metrics b.

(** Registrations under all topics and types. *)
Definition count_inner (inner : gmap string (gset sub_id)) : Z :=
  map_fold (fun _ ids n => n + Z.of_nat (size ids)) 0 inner.
Definition count_all (hs : gmap string (gmap string (gset sub_id))) : Z :=
  map_fold (fun _ inner n => n + count_inner inner) 0 hs.

Record TopicInfo : Type := mkTopicInfo { TName : string; EventTypes : Z; Subs : Z }.
Definition GetTopics (b : inMemoryBus) : list TopicInfo :=
  (fun name => match handlers b !! name with
               | Some hm => mkTopicInfo name (Z.of_nat (size hm)) (count_inner hm)
               | None => mkTopicInfo name 0 0
               end) <$> elements (topics b).

(** ** Delivery *)
Section Deliver.
Context {U : Type}.
(** What the referenced code does when it is called. *)
Context (run_handler : handler -> Event -> inMemoryBus * U -> inMemoryBus * U * option nerr)
        (on_publish : observer -> string -> string -> Event -> inMemoryBus * U -> inMemoryBus * U)
        (on_delivered : observer -> string -> string -> Z -> option nerr -> Z -> inMemoryBus * U -> inMemoryBus * U).

Fixpoint call_handlers (ids : list sub_id) (event : Event) (all : option nerr) (bu : inMemoryBus * U)
    : inMemoryBus * U * option nerr :=
  match ids with
  | [] => (bu, all)
  | id :: ids =>
      match subs bu.1 !! id with
      | Some s =>
          if active s then
            let '(bu, err) := run_handler (shandler s) event bu in
            call_handlers ids event (join_err all err) bu
          else call_handlers ids event all bu
      | None => call_handlers ids event all bu
      end
  end.

Definition wrap_add (a b : Z) : Z := wrapU 64 (a + b).

(** [deliver]: [sub_order] and [obs_order] are the orders in which Go ranges
    over the two maps, [dur] the measured duration. *)
Definition deliver (sub_order : list sub_id) (obs_order : list observer) (dur : Z)
    (topic : string) (event : Event) (bu : inMemoryBus * U) : inMemoryBus * U * option nerr :=
  let etype := EType event in
  let bu := foldl (fun bu o => on_publish o topic etype event bu) bu obs_order in
  let '(bu, all) := call_handlers sub_order event None bu in
  match obs_order with
  | [] => (bu, all)
  | _ =>
      let n := Z.of_nat (length sub_order) in
      let '(b, u) := foldl (fun bu o => on_delivered o topic etype n all dur bu) bu obs_order in
      let m := metrics b in
      let m := mkMetrics (wrap_add (Published m) 1) (wrap_add (DeliveredHandlers m) n)
                 (match all with Some _ => wrap_add (Errors m) 1 | None => Errors m end)
                 (DroppedByFilters m) (wrapU 64 (count_all (handlers b))) (Z.of_nat (size (topics b))) in
      ((set_metrics m b, u), all)
  end.

(** The orders are permutations of what is registered when delivery starts. *)
Definition valid_orders (topic etype : string) (b : inMemoryBus) (sub_order : list sub_id)
    (obs_order : list observer) : Prop :=
  sub_order ≡ₚ elements (registered b topic etype) /\ obs_order ≡ₚ elements (observers b).

Definition Publish (sub_order : list sub_id) (obs_order : list observer) (dur : Z) (event : Event) :=
  deliver sub_order obs_order dur "" event.
Definition PublishToTopic := deliver.

(** [PublishWithFilters]: a drop is counted when somebody observes. *)
Fixpoint PublishWithFilters (filters : list (Event -> bool)) (sub_order : list sub_id)
    (obs_order : list observer) (dur : Z) (event : Event) (bu : inMemoryBus * U)
    : inMemoryBus * U * option nerr :=
  match filters with
  | [] => Publish sub_order obs_order dur event bu
  | f :: filters =>
      if f event then PublishWithFilters filters sub_order obs_order dur event bu
      else
        let '(b, u) := bu in
        if decide (size (observers b) = 0%nat) then ((b, u), None)
        else
          let m := metrics b in
          ((set_metrics (mkMetrics (Published m) (DeliveredHandlers m) (Errors m)
              (wrap_add (DroppedByFilters m) 1) (SubscribersActive m) (Topics m)) b, u), None)
  end.

(** [PublishBatch]: each event with the orders of its own delivery. *)
Fixpoint PublishBatch (events : list (Event * list sub_id * list observer * Z)) (all : option nerr)
    (bu : inMemoryBus * U) : inMemoryBus * U * option nerr :=
  match events with
  | [] => (bu, all)
  | (e, so, oo, dur) :: events =>
      let '(bu, err) := Publish so oo dur e bu in
      PublishBatch events (join_err all err) bu
  end.
End Deliver.

(** ** Persistence *)
Section State.
(** The gob codec of the topics' names. *)
Context {blob : Type} (encode : list string -> blob) (decode : blob -> option (list string)).
Definition SaveState (b : inMemoryBus) : blob := encode (elements (topics b)).
Definition LoadState (data : blob) (b : inMemoryBus) : option inMemoryBus :=
  names ← decode data;
  Some (foldl (fun b name => ensureTopicLocked name b) b names).
End State.

(** ** Registrations *)

Definition live_sub (b : inMemoryBus) (topic etype : string) (id : sub_id) : Prop :=
  exists s, subs b !! id = Some s /\ sub_topic s = topic /\ eventType s = etype /\ active s = true.

(** The table holds exactly the active subscriptions, each under its own topic
    and type. *)
Definition bus_inv (b : inMemoryBus) : Prop :=
  forall topic etype id, id ∈ registered b topic etype <-> live_sub b topic etype id.

Lemma registered_ensure t b topic etype : registered (ensureTopicLocked t b) topic etype = registered b topic etype.
Proof.
  unfold registered, ensureTopicLocked. cbn. destruct (handlers b !! t) as [m|] eqn:E; [done|].
  destruct (decide (topic = t)) as [->|]; [by rewrite lookup_insert_eq, E; cbn; rewrite lookup_empty|].
  by rewrite lookup_insert_ne.
Qed.

(** Registering and removing change the set of one topic and type. *)
Lemma registered_set b t e ids topic etype :
  registered (set_handlers (<[t := <[e := ids]> (default ∅ (handlers b !! t))]> (handlers b)) b) topic etype =
  if decide (topic = t /\ etype = e) then ids else registered b topic etype.
Proof.
  unfold registered. cbn. destruct (decide (topic = t)) as [->|Ht].
  - rewrite lookup_insert_eq. cbn. destruct (decide (etype = e)) as [->|He].
    + by rewrite lookup_insert_eq, decide_True.
    + rewrite lookup_insert_ne, decide_False by naive_solver. by destruct (handlers b !! t).
  - rewrite lookup_insert_ne, decide_False by naive_solver. done.
Qed.

Lemma Subscribe_registered id t e h b topic etype :
  registered (SubscribeTopic id t e h b) topic etype =
    if decide (topic = t /\ etype = e) then {[id]} ∪ registered b topic etype else registered b topic etype.
Proof.
  unfold SubscribeTopic. cbv zeta. set (b1 := ensureTopicLocked t b).
  change (registered (set_handlers (<[t := <[e := {[id]} ∪ default ∅ (default ∅ (handlers b1 !! t) !! e)]>
    (default ∅ (handlers b1 !! t))]> (handlers b1)) b1) topic etype =
    if decide (topic = t /\ etype = e) then {[id]} ∪ registered b topic etype else registered b topic etype).
  rewrite registered_set. case_decide as Hd; [destruct Hd as [-> ->]|]; [|apply registered_ensure].
  rewrite <- (registered_ensure t b t e). fold b1. unfold registered. by destruct (handlers b1 !! t).
Qed.

Lemma Subscribe_inv id t e h b : subs b !! id = None -> bus_inv b -> bus_inv (SubscribeTopic id t e h b).
Proof.
  intros Hid Hb topic etype id'. rewrite Subscribe_registered. unfold live_sub.
  change (subs (SubscribeTopic id t e h b)) with (<[id := mkSub t e h true]> (subs b)).
  destruct (decide (id' = id)) as [->|Hne].
  - setoid_rewrite lookup_insert_eq. case_decide as Hd.
    + destruct Hd as [-> ->]. split; [intros _; by eexists|set_solver].
    + split; [|naive_solver]. intros (s & Hs & _)%Hb. congruence.
  - setoid_rewrite lookup_insert_ne; [|done]. fold (live_sub b topic etype id'). rewrite <- (Hb topic etype id').
    case_decide; set_solver.
Qed.

Lemma Cancel_registered id b topic etype : bus_inv b ->
  registered (Cancel id b) topic etype = registered b topic etype ∖ {[id]}.
Proof.
  intros Hb. unfold Cancel. destruct (subs b !! id) as [s|] eqn:Es.
  - assert (Hother : ~ (topic = sub_topic s /\ etype = eventType s) -> id ∉ registered b topic etype).
    { intros Hn (s' & Hs' & H1 & H2 & _)%Hb. simplify_eq. tauto. }
    assert (Hset : forall hs, registered (set_subs (<[id:=mkSub (sub_topic s) (eventType s) (shandler s) false]> (subs b))
      (set_handlers hs b)) topic etype = registered (set_handlers hs b) topic etype) by done.
    cbv zeta. rewrite Hset. destruct (handlers b !! sub_topic s) as [inner|] eqn:Ei.
    + destruct (inner !! eventType s) as [ids|] eqn:Ee.
      * pose proof (registered_set b (sub_topic s) (eventType s) (ids ∖ {[id]}) topic etype) as Hr.
        rewrite Ei in Hr. cbn [default from_option] in Hr. change (Datatypes.id inner) with inner in Hr. rewrite Hr.
        case_decide as Hd; [|set_solver]. destruct Hd as [-> ->]. unfold registered. rewrite Ei. cbn. by rewrite Ee.
      * change (registered (set_handlers (handlers b) b) topic etype) with (registered b topic etype).
        destruct (decide (topic = sub_topic s /\ etype = eventType s)) as [[-> ->]|Hd]; [|set_solver].
        unfold registered. rewrite Ei. cbn. rewrite Ee. cbn. set_solver.
    + change (registered (set_handlers (handlers b) b) topic etype) with (registered b topic etype).
      destruct (decide (topic = sub_topic s /\ etype = eventType s)) as [[-> ->]|Hd]; [|set_solver].
      unfold registered. rewrite Ei. cbn. set_solver.
  - assert (id ∉ registered b topic etype); [|set_solver]. intros (s' & Hs' & _)%Hb. congruence.
Qed.

Lemma Cancel_inv id b : bus_inv b -> bus_inv (Cancel id b).
Proof.
  intros Hb topic etype id'. rewrite Cancel_registered by done. unfold live_sub, Cancel.
  destruct (subs b !! id) as [s|] eqn:Es; cbn.
  - destruct (decide (id' = id)) as [->|Hne].
    + setoid_rewrite lookup_insert_eq. split; [set_solver|]. intros (s' & [= <-] & _ & _ & ?). done.
    + setoid_rewrite lookup_insert_ne; [|done]. fold (live_sub b topic etype id'). rewrite <- (Hb topic etype id').
      set_solver.
  - fold (live_sub b topic etype id'). rewrite <- (Hb topic etype id'). split; [set_solver|].
    intros Hin. apply elem_of_difference. split; [done|]. intros ->%elem_of_singleton.
    apply Hb in Hin as (? & ? & _). congruence.
Qed.

(** What the callers of the bus can do. *)
Inductive bus_step : inMemoryBus -> inMemoryBus -> Prop :=
  | step_subscribe id t e h b : subs b !! id = None -> bus_step b (SubscribeTopic id t e h b)
  | step_cancel id b : bus_step b (Cancel id b)
  | step_topic name b : bus_step b (CreateTopic name b)
  | step_observe o b : bus_step b (AddObserver o b)
  | step_unobserve o b : bus_step b (RemoveObserver o b)
  | step_metrics m b : bus_step b (set_metrics m b).

Lemma CreateTopic_registered name b topic etype :
  registered (CreateTopic name b) topic etype = registered b topic etype.
Proof. unfold CreateTopic. case_decide; [done|]. apply registered_ensure. Qed.

Lemma bus_step_inv b b' : bus_step b b' -> bus_inv b -> bus_inv b'.
Proof.
  intros Hs Hb. destruct Hs; try done.
  - by apply Subscribe_inv.
  - by apply Cancel_inv.
  - intros topic etype id. rewrite CreateTopic_registered.
    assert (Hsubs : subs (CreateTopic name b) = subs b) by (unfold CreateTopic; by case_decide).
    unfold live_sub. rewrite Hsubs. apply Hb.
Qed.

Lemma New_inv : bus_inv New.
Proof.
  intros topic etype id. unfold registered, live_sub. cbn. rewrite lookup_empty. cbn. split; [set_solver|].
  intros (s & Hs & _). by rewrite lookup_empty in Hs.
Qed.

(** Whatever is subscribed, cancelled, created and observed in whatever
    order, the bus lists under every topic and type exactly the subscriptions
    made there and not cancelled; subscribing adds one of them, cancelling
    takes one away, and both leave the others alone. *)
Theorem subscriptions_exact b (Hreach : rtc bus_step New b) :
  bus_inv b /\
  (forall id t e h topic etype, subs b !! id = None ->
     registered (SubscribeTopic id t e h b) topic etype =
       if decide (topic = t /\ etype = e) then {[id]} ∪ registered b topic etype else registered b topic etype) /\
  (forall id topic etype, registered (Cancel id b) topic etype = registered b topic etype ∖ {[id]}) /\
  (forall id, Cancel id (Cancel id b) = Cancel id b).
Proof.
  assert (Hb : bus_inv b).
  { cut (bus_inv New); [|apply New_inv]. induction Hreach; eauto using bus_step_inv. }
  split; [done|]. split; [intros; apply Subscribe_registered|].
  split; [intros; by apply Cancel_registered|]. intros id.
  destruct (subs b !! id) as [s|] eqn:Es.
  2:{ assert (E : Cancel id b = b) by (unfold Cancel; by rewrite Es). by rewrite !E. }
  unfold Cancel at 1. assert (E : subs (Cancel id b) !! id = Some (mkSub (sub_topic s) (eventType s) (shandler s) false)).
  { unfold Cancel. rewrite Es. cbn. apply lookup_insert_eq. }
  rewrite E. cbn [sub_topic eventType shandler]. destruct (Cancel id b) as [sb hs ts ms os] eqn:Ec.
  cbn [subs handlers] in *. unfold set_subs, set_handlers. cbn [subs handlers topics metrics observers].
  rewrite insert_id by done. f_equal. destruct (hs !! sub_topic s) as [inner|] eqn:Ei; [|done].
  destruct (inner !! eventType s) as [ids|] eqn:Ee; [|done].
  assert (Hid : id ∉ ids).
  { pose proof (Cancel_registered id b (sub_topic s) (eventType s) Hb) as Hr. rewrite Ec in Hr.
    unfold registered at 1 in Hr. cbn in Hr. rewrite Ei in Hr. cbn in Hr. rewrite Ee in Hr. cbn in Hr. set_solver. }
  replace (ids ∖ {[id]}) with ids by set_solver. rewrite (insert_id inner) by done. by apply insert_id.
Qed.

Definition sample_bus : inMemoryBus :=
  Cancel "b" (SubscribeTopic "c" "t" "hit" 3 (Subscribe "b" "hit" 2 (Subscribe "a" "hit" 1 New))).

Lemma sample_reachable : rtc bus_step New sample_bus.
Proof.
  unfold sample_bus, Subscribe. eapply rtc_r; [|apply step_cancel].
  do 3 (eapply rtc_r; [|apply step_subscribe; vm_compute; reflexivity]). apply rtc_refl.
Qed.

Lemma subscriptions_exact_witness :
  registered (Cancel "a" sample_bus) "" "hit" = registered sample_bus "" "hit" ∖ {["a"]}.
Proof. exact (proj1 (proj2 (proj2 (subscriptions_exact sample_bus sample_reachable))) "a" "" "hit"). Defined.

(** ** Delivery *)
Section Delivery.
Context {U : Type}.
Context (on_publish : observer -> string -> string -> Event -> inMemoryBus * U -> inMemoryBus * U)
        (on_delivered : observer -> string -> string -> Z -> option nerr -> Z -> inMemoryBus * U -> inMemoryBus * U).

(** The handlers of the subscriptions, in order, and the errors they return. *)
Definition handlers_of (b : inMemoryBus) (ids : list sub_id) : list handler :=
  omap (fun id => s ← subs b !! id; if active s then Some (shandler s) else None) ids.

Lemma call_handlers_quiet (act : handler -> Event -> U -> U) (fails : handler -> Event -> option nerr) ids e all b u :
  call_handlers (fun h e bu => ((bu.1, act h e bu.2), fails h e)) ids e all (b, u) =
    ((b, foldl (fun u h => act h e u) u (handlers_of b ids)),
     foldl join_err all ((fun h => fails h e) <$> handlers_of b ids)).
Proof.
  revert all u. induction ids as [|id ids IH]; intros all u; [done|].
  cbn [call_handlers handlers_of omap list_omap fst]. destruct (subs b !! id) as [s|] eqn:Es; cbn [mbind option_bind]; [|apply IH].
  destruct (active s); [|apply IH]. cbn [fmap list_fmap foldl]. apply IH.
Qed.

(** C20: Delivery is exact: when the handlers leave the bus alone and nobody
    observes, publishing an event calls the handler of every active
    subscription to its topic and type exactly once, and no other handler, and
    returns their errors joined in the order of the calls; the bus does not
    change. *)
Theorem delivery_exact (act : handler -> Event -> U -> U) (fails : handler -> Event -> option nerr)
    so dur topic e b u (Hb : bus_inv b) (Ho : valid_orders topic (EType e) b so []) :
  deliver (fun h e bu => ((bu.1, act h e bu.2), fails h e)) on_publish on_delivered so [] dur topic e (b, u) =
    ((b, foldl (fun u h => act h e u) u (handlers_of b so)),
     foldl join_err None ((fun h => fails h e) <$> handlers_of b so)) /\
  NoDup so /\ (forall id, id ∈ so <-> live_sub b topic (EType e) id) /\
  length (handlers_of b so) = length so.
Proof.
  destruct Ho as [Hso _]. split; [|split; [|split]].
  - unfold deliver. cbv zeta. cbn [foldl]. by rewrite call_handlers_quiet.
  - rewrite Hso. apply NoDup_elements.
  - intros id. rewrite Hso, elem_of_elements. apply Hb.
  - assert (Hall : forall id, id ∈ so -> live_sub b topic (EType e) id).
    { intros id. rewrite Hso, elem_of_elements. apply Hb. }
    clear Hso. induction so as [|id so IH]; [done|].
    cbn [handlers_of omap list_omap]. destruct (Hall id (list_elem_of_here _ _)) as (s & -> & _ & _ & Ha).
    cbn [mbind option_bind]. rewrite Ha. cbn [length]. f_equal. apply IH. intros id' Hid. apply Hall. by constructor.
Qed.

(** A subscription cancelled while an event is being delivered, before its
    turn, is not called in that delivery any more: the rest of the delivery is
    as if it had not been there, provided no later handler revives it. *)
Theorem cancelled_not_called (run_handler : handler -> Event -> inMemoryBus * U -> inMemoryBus * U * option nerr)
    id ids e all bu :
  let inactive (b : inMemoryBus) := forall s, subs b !! id = Some s -> active s = false in
  inactive bu.1 -> (forall h bu, inactive bu.1 -> inactive (run_handler h e bu).1.1) ->
  call_handlers run_handler ids e all bu = call_handlers run_handler (filter (fun i => i <> id) ids) e all bu.
Proof.
  intros inactive Hi Hrun. revert all bu Hi. induction ids as [|i ids IH]; intros all bu Hi; [done|].
  destruct (decide (i = id)) as [->|Hne].
  - rewrite filter_cons_False by tauto. cbn [call_handlers].
    destruct (subs bu.1 !! id) as [s|] eqn:Es; [|by apply IH]. rewrite (Hi s Es). by apply IH.
  - rewrite filter_cons_True by done. cbn [call_handlers].
    destruct (subs bu.1 !! i) as [s|] eqn:Es; [|by apply IH]. destruct (active s); [|by apply IH].
    pose proof (Hrun (shandler s) bu Hi) as Hi'. destruct (run_handler (shandler s) e bu) as [bu' err]. by apply IH.
Qed.
End Delivery.

Definition record_call (h : handler) (e : Event) (u : list handler) : list handler := u ++ [h].
Definition hit : Event := mkEvent "hit" "src" 0 AnyNil 0 ∅.

Lemma delivery_exact_witness :
  deliver (fun h e bu => ((bu.1, record_call h e bu.2), None)) (fun _ _ _ _ bu => bu) (fun _ _ _ _ _ _ bu => bu)
    ["a"] [] 0 "" hit (sample_bus, []) = ((sample_bus, [1%nat]), None).
Proof.
  refine (proj1 (delivery_exact (fun _ _ _ _ bu => bu) (fun _ _ _ _ _ _ bu => bu) record_call (fun _ _ => None)
    ["a"] 0 "" hit sample_bus [] _ _)).
  - exact (proj1 (subscriptions_exact sample_bus sample_reachable)).
  - split; reflexivity.
Defined.

(** ** Persistence *)

(** A saved bus is restored with its topics and nothing else: whatever codec
    gives back the names it was given, loading into a new bus what [SaveState]
    wrote yields the same topics, and no subscription. *)
Theorem state_roundtrip {blob} (encode : list string -> blob) (decode : blob -> option (list string)) b
    (Hcodec : forall l, decode (encode l) = Some l) :
  exists b', LoadState decode (SaveState encode b) New = Some b' /\ topics b' = topics b /\
    forall topic etype, registered b' topic etype = ∅.
Proof.
  unfold LoadState, SaveState. rewrite Hcodec. cbn [mbind option_bind]. eexists. split; [reflexivity|].
  assert (H : forall l b0, topics (foldl (fun b name => ensureTopicLocked name b) b0 l) = list_to_set l ∪ topics b0 /\
    forall topic etype, registered (foldl (fun b name => ensureTopicLocked name b) b0 l) topic etype =
      registered b0 topic etype).
  { induction l as [|n l IH]; intros b0; cbn [foldl list_to_set].
    - split; [|done]. apply set_eq. intros x. rewrite elem_of_union. set_solver.
    - destruct (IH (ensureTopicLocked n b0)) as [H1 H2]. split.
      + rewrite H1. apply set_eq. intros x. cbn. rewrite !elem_of_union. tauto.
      + intros topic etype. by rewrite H2, registered_ensure. }
  destruct (H (elements (topics b)) New) as [H1 H2]. split.
  - rewrite H1. cbn. rewrite list_to_set_elements_L. apply union_empty_r_L.
  - intros topic etype. by rewrite H2.
Qed.

Lemma state_roundtrip_witness :
  exists b', LoadState Some (SaveState (fun l => l) sample_bus) New = Some b' /\ topics b' = topics sample_bus.
Proof.
  destruct (state_roundtrip (fun l => l) Some sample_bus (fun l => eq_refl)) as (b' & H & Ht & _).
  exists b'. split; [exact H|exact Ht].
Defined.

Lemma cancelled_not_called_witness :
  let run (h : handler) (e : Event) (bu : inMemoryBus * list handler) :=
    (Cancel "c" bu.1, record_call h e bu.2, @None nerr) in
  call_handlers run ["b"; "a"] hit None (sample_bus, []) =
    call_handlers run (filter (fun i => i <> "b") ["b"; "a"]) hit None (sample_bus, []).
Proof.
  intros run. refine (cancelled_not_called run "b" ["b"; "a"] hit None (sample_bus, []) _ _).
  - intros s H. vm_compute in H. injection H as <-. reflexivity.
  - intros h bu H s. unfold run. cbn [fst]. unfold Cancel.
    destruct (subs bu.1 !! "c") as [s'|]; [|exact (H s)].
    unfold set_subs. cbn [subs]. intros Hs. rewrite lookup_insert_ne in Hs by discriminate. exact (H s Hs).
Defined.
