(* ===== verification/Fields.v ===== *)
(** * Field accessors ([internal/core/fields])

    The versioned accessor [FA] with its bounded history, subscriptions,
    compare-and-swap and retried transactions ([field_accessor.go]); the numeric
    accessor over it; the concurrent execution of its writes; batches and the
    synchronizer of [utils.go]. The slice accessor is in [SliceFields.v].

    Callbacks run in goroutines of their own: an accessor carries the list of
    notifications launched and not yet run. Values have a concrete type, so the
    [atomic.Value] never sees two dynamic types. *)
From S2P Require Import Prelude.
From Stdlib Require Import ZArith Lia Strings.String.
From stdpp Require Import base tactics list strings gmap sets fin_maps relations.
Open Scope Z_scope.

(** What the accessor needs of the type of its values: the zero value, and the
    comparison of two interface values that hold it, which panics for slices. *)
Class GoType (T : Type) : Type := { zero : T; go_eq : T -> T -> outcome bool }.
Class Comparable (T : Type) `{GoType T} : Prop :=
  comparable (a b : T) : exists c, go_eq a b = Done c /\ (c = true <-> a = b).

#[export] Instance int_type : GoType Z := {| zero := 0; go_eq a b := Done (a =? b) |}.
#[export] Instance int_comparable : Comparable Z.
Proof. intros a b. exists (a =? b). split; [done|]. apply Z.eqb_eq. Qed.

Definition maxRetries : nat := 10.

Section Accessor.
Context {T : Type} `{GoType T}.

(** A callback is a tag of its owner, with the filter of [SubscribeIf]. *)
Record subscriber : Type := mkSubscriber { callback : nat; filter_of : option (T -> bool) }.
Record historyEntry : Type := mkEntry { evalue : T; eversion : Z; etime : Z }.

Record FA : Type := mkFA {
  value : option T;
  version : Z;
  subscribers : gmap Z subscriber;
  subsID : Z;
  history : list historyEntry;
  maxHistory : Z;
  goroutines : list (subscriber * T)
}.

Definition addToHistory (now : Z) (v : T) (ver : Z) (a : FA) : FA :=
  let h := history a ++ [mkEntry v ver now] in
  mkFA (value a) (version a) (subscribers a) (subsID a)
    (if Z.of_nat (length h) >? maxHistory a
     then take (Z.to_nat (maxHistory a)) (copy_at h 0 (length h) (drop 1 h)) else h)
    (maxHistory a) (goroutines a).

Definition NewFA (now : Z) (initial : list T) : FA :=
  let initialValue := match initial with v :: _ => v | [] => zero end in
  addToHistory now initialValue 0 (mkFA (Some initialValue) 1 ∅ 0 [] 100 []).

Definition Get (a : FA) : T := match value a with None => zero | Some v => v end.

Definition notifySubscribers (v : T) (a : FA) : FA :=
  mkFA (value a) (version a) (subscribers a) (subsID a) (history a) (maxHistory a)
    (goroutines a ++ map (fun p => (p.2, v)) (map_to_list (subscribers a))).

Definition store (v : T) (a : FA) : FA :=
  mkFA (Some v) (version a) (subscribers a) (subsID a) (history a) (maxHistory a) (goroutines a).
Definition bump (a : FA) : FA :=
  mkFA (value a) (wrapU 64 (version a + 1)) (subscribers a) (subsID a) (history a) (maxHistory a) (goroutines a).

(** What every successful write does: store, new version, history, notification. *)
Definition Set_ (now : Z) (v : T) (a : FA) : FA :=
  let a := bump (store v a) in
  notifySubscribers v (addToHistory now v (version a) a).

(** [atomic.Value.CompareAndSwap] *)
Definition cas_value (expected new : T) (a : FA) : outcome (bool * FA) :=
  match value a with
  | None => Done (false, a)
  | Some v =>
      eq ← go_eq v expected;
      Done (if eq : bool then (true, store new a) else (false, a))
  end.
(** The steps of a write that follow the value's: the version, the history,
    the notification. Others act before each of them, at the points [p],
    [p + 1] and [p + 2] of [env]. *)
Definition publish (env : nat -> FA -> FA) (p : nat) (now : Z) (v : T) (a : FA) : FA :=
  let a := bump (env p a) in
  let ver := version a in
  notifySubscribers v (env (p + 2)%nat (addToHistory now v ver (env (p + 1)%nat a))).
Definition undisturbed (_ : nat) (a : FA) : FA := a.

Definition CompareAndSwap (now : Z) (expected new : T) (a : FA) : outcome (bool * FA) :=
  r ← cas_value expected new a;
  Done (if r.1 : bool then (true, publish undisturbed 0 now new r.2) else (false, r.2)).

Definition Swap (now : Z) (new : T) (a : FA) : T * FA := (Get a, Set_ now new a).

Definition generateUniqueID (source : Z) : Z := wrapU 64 (source + 1).

Definition SubscribeIf (onUpdate : nat) (filter : option (T -> bool)) (a : FA) : Z * FA :=
  let id := generateUniqueID (subsID a) in
  (id, mkFA (value a) (version a) (<[id := mkSubscriber onUpdate filter]> (subscribers a)) id
         (history a) (maxHistory a) (goroutines a)).
Definition Subscribe (onUpdate : nat) (a : FA) : Z * FA := SubscribeIf onUpdate None a.
Definition unsubscribe (id : Z) (a : FA) : FA :=
  mkFA (value a) (version a) (delete id (subscribers a)) (subsID a) (history a) (maxHistory a) (goroutines a).

Definition Version (a : FA) : Z := version a.
Definition ChangedSince (ver : Z) (a : FA) : bool := version a >? ver.

Definition History (limit : Z) (a : FA) : list T :=
  if (limit =? 0) || (Z.of_nat (length (history a)) =? 0) then []
  else let start := if limit <? Z.of_nat (length (history a))
                    then (length (history a) - Z.to_nat limit)%nat else 0%nat in
       map evalue (drop start (history a)).

Definition Delta (fromVersion : Z) (a : FA) : result string (list T) :=
  let r := map evalue (base.filter (fun e => fromVersion < eversion e) (history a)) in
  if bool_decide (r = []) && (fromVersion <? version a)
  then Err "version too old, not available in history"%string else Ok r.

Definition Clone (now : Z) (a : FA) : FA := NewFA now [Get a].

(** ** Transactions

    [update] may have effects on a state [X] of its caller and may panic.
    Other goroutines act between any two atomic steps: [env (5 * i)] is what
    they do to the accessor before the load of attempt [i], [env (5 * i + 1)]
    between the load and the compare-and-swap of the value, the next three
    before the version, the history and the notification of the write, and
    [env (5 * maxRetries)] before the last [Get]. *)
Section Transactions.
Context {X : Type} (clock : nat -> Z) (env : nat -> FA -> FA).
Context (update : T -> X -> outcome T * X).

Fixpoint attempts (n i : nat) (x : X) (a : FA) : option (outcome T) * (X * FA) :=
  match n with
  | O => (None, (x, a))
  | S n' =>
      let a := env (5 * i)%nat a in
      let current := Get a in
      match update current x with
      | (Panic, x') => (Some Panic, (x', a))
      | (Done updated, x') =>
          let a1 := env (5 * i + 1)%nat a in
          match cas_value current updated a1 with
          | Panic => (Some Panic, (x', a1))
          | Done (true, a2) => (Some (Done updated), (x', publish env (5 * i + 2) (clock i) updated a2))
          | Done (false, a2) => attempts n' (S i) x' a2
          end
      end
  end.

Definition Transaction (x : X) (a : FA) : outcome T * (X * FA) :=
  match attempts maxRetries 0 x a with
  | (Some r, s) => (r, s)
  | (None, (x', a')) => let a' := env (5 * maxRetries)%nat a' in (Done (Get a'), (x', a'))
  end.
End Transactions.

(** [Merge] with the values the other accessor has at each attempt. *)
Definition Merge (clock : nat -> Z) (env : nat -> FA -> FA) (other : nat -> T)
    (mergeFn : T -> T -> outcome T) (a : FA) : outcome FA :=
  match attempts clock env (fun current i => (mergeFn current (other i), S i)) 100 0 0%nat a with
  | (Some Panic, _) => Panic
  | (_, (_, a')) => Done a'
  end.

Definition GetWithContext {E} (done : option E) (a : FA) : result E T :=
  match done with Some e => Err e | None => Ok (Get a) end.
Definition SetWithContext {E} (done : option E) (now : Z) (v : T) (a : FA) : option E * FA :=
  match done with Some e => (Some e, a) | None => (None, Set_ now v a) end.

(** ** Batches ([utils.go]) *)
Inductive operation : Type :=
  | BatchSet (v : T)
  | BatchTransaction (f : T -> outcome T).
Definition Batch : Type := list operation.
Definition NewBatch : Batch := [].
Definition add_op (o : operation) (b : Batch) : Batch := b ++ [o].

Definition run_op (now : Z) (o : operation) (a : FA) : outcome FA :=
  match o with
  | BatchSet v => Done (Set_ now v a)
  | BatchTransaction f =>
      match Transaction (fun _ => now) undisturbed (fun c (u : unit) => (f c, u)) tt a with
      | (Panic, _) => Panic
      | (Done _, (_, a')) => Done a'
      end
  end.
Fixpoint Execute (now : Z) (b : Batch) (a : FA) : outcome (Batch * FA) :=
  match b with
  | [] => Done ([], a)
  | o :: b => a' ← run_op now o a; Execute now b a'
  end.
End Accessor.
Arguments FA : clear implicits.
Arguments subscriber : clear implicits.
Arguments historyEntry : clear implicits.
Arguments operation : clear implicits.
Arguments Batch : clear implicits.

(** ** The numeric accessor ([numeric_filed_accessor.go]) at an integer type

    [wrap] is the conversion to the width and sign of the type. *)
Section Numeric.
Context (wrap : Z -> Z) (clock : nat -> Z) (env : nat -> FA Z -> FA Z).

Definition numeric_update (f : Z -> outcome Z) (a : FA Z) : outcome (FA Z) :=
  match Transaction clock env (fun c (u : unit) => (f c, u)) tt a with
  | (Panic, _) => Panic
  | (Done _, (_, a')) => Done a'
  end.
Definition Increment := numeric_update (fun c => Done (wrap (c + 1))).
Definition Decrement := numeric_update (fun c => Done (wrap (c - 1))).
Definition Add (v : Z) := numeric_update (fun c => Done (wrap (c + v))).
Definition Sub (v : Z) := numeric_update (fun c => Done (wrap (c - v))).
Definition Mul (v : Z) := numeric_update (fun c => Done (wrap (c * v))).
Definition Div (v : Z) := numeric_update (fun c => if v =? 0 then Panic else Done (wrap (Z.quot c v))).
End Numeric.

(** ** Abstract specification

    An accessor is the log of all the values it has held. *)
Section Log.
Context {T : Type} `{GoType T}.

(** The version recorded with the value at position [i] of the log: 0 for the
    initial value, then 2, 3, ... *)
Definition stamp (i : nat) : Z := if bool_decide (i = 0%nat) then 0 else wrapU 64 (Z.of_nat i + 1).
Definition stamped (log : list T) : list (T * Z) := imap (fun i v => (v, stamp i)) log.

Record Rep (log : list T) (a : FA T) : Prop := {
  rep_value : value a = last log;
  rep_nonempty : log <> [];
  rep_version : version a = wrapU 64 (Z.of_nat (length log));
  rep_history : map (fun e => (evalue e, eversion e)) (history a) = drop (length log - 100) (stamped log);
  rep_max : maxHistory a = 100
}.

Inductive op : Type :=
  | OSet (v : T)
  | OSwap (v : T)
  | OCompareAndSwap (expected new : T)
  | OTransaction (f : T -> T)
  | OSubscribe (onUpdate : nat) (filter : option (T -> bool))
  | OUnsubscribe (id : Z).
Inductive res : Type := RUnit | RVal (v : T) | RBool (b : bool) | RId (id : Z).

Definition step (now : Z) (o : op) (a : FA T) : outcome (res * FA T) :=
  match o with
  | OSet v => Done (RUnit, Set_ now v a)
  | OSwap v => let '(old, a') := Swap now v a in Done (RVal old, a')
  | OCompareAndSwap e n => r ← CompareAndSwap now e n a; Done (RBool r.1, r.2)
  | OTransaction f =>
      match Transaction (fun _ => now) undisturbed (fun c (u : unit) => (Done (f c), u)) tt a with
      | (Panic, _) => Panic
      | (Done v, (_, a')) => Done (RVal v, a')
      end
  | OSubscribe cb fl => let '(id, a') := SubscribeIf cb fl a in Done (RId id, a')
  | OUnsubscribe id => Done (RUnit, unsubscribe id a)
  end.
Fixpoint run (now : Z) (ops : list op) (a : FA T) : outcome (FA T) :=
  match ops with
  | [] => Done a
  | o :: ops => r ← step now o a; run (now + 1) ops r.2
  end.

Definition top (log : list T) : T := default zero (last log).

(** What an operation appends to the log. *)
Definition appended `{EqDecision T} (o : op) (log : list T) : list T :=
  match o with
  | OSet v | OSwap v => [v]
  | OCompareAndSwap e n => if decide (top log = e) then [n] else []
  | OTransaction f => [f (top log)]
  | OSubscribe _ _ | OUnsubscribe _ => []
  end.
Definition spec_run `{EqDecision T} (ops : list op) (log : list T) : list T :=
  foldl (fun l o => l ++ appended o l) log ops.
End Log.
Arguments op : clear implicits.
Arguments res : clear implicits.

(** ** Facts about the log *)
Section LogFacts.
Context {T : Type} `{GoType T}.

Lemma length_stamped (log : list T) : length (stamped log) = length log.
Proof. apply length_imap. Qed.

Lemma stamped_snoc (log : list T) v : stamped (log ++ [v]) = stamped log ++ [(v, stamp (length log))].
Proof. unfold stamped. rewrite imap_app. simpl. by rewrite Nat.add_0_r. Qed.

(** Trimming keeps the last [maxHistory] entries. *)
Lemma addToHistory_trim now v ver (a : FA T) :
  maxHistory a = 100 -> (length (history a) <= 100)%nat ->
  history (addToHistory now v ver a) =
  drop (length (history a) + 1 - 100) (history a ++ [mkEntry v ver now]).
Proof.
  intros Hm Hl. unfold addToHistory. cbn [history]. rewrite Hm, length_app, Z.gtb_ltb.
  set (h := history a ++ [mkEntry v ver now]). cbn [length].
  destruct (Z.ltb_spec 100 (Z.of_nat (length (history a) + 1))) as [E|E].
  - assert (length (history a) = 100)%nat as E1 by lia. rewrite E1.
    assert (length h = 101)%nat as Eh by (unfold h; rewrite length_app, E1; done).
    unfold copy_at. rewrite length_drop, Eh. change (take 0 h) with (@nil (historyEntry T)).
    rewrite app_nil_l, take_app_le, take_take.
    + rewrite take_ge; [done|]. rewrite length_drop, Eh. done.
    + rewrite length_take, length_drop, Eh. done.
  - replace (length (history a) + 1 - 100)%nat with 0%nat by lia. done.
Qed.

Lemma Rep_history_length (log : list T) a : Rep log a -> (length (history a) <= 100)%nat /\
  length (history a) = Nat.min 100 (length log).
Proof.
  intros R. pose proof (f_equal length (rep_history _ _ R)) as E.
  rewrite length_map, length_drop, length_stamped in E. lia.
Qed.

Lemma Rep_write log now v (a : FA T) : Rep log a -> Rep (log ++ [v]) (Set_ now v a).
Proof.
  intros R. pose proof (Rep_history_length _ _ R) as [Hl1 Hl2].
  pose proof (length_zero_iff_nil log) as Hz. pose proof (rep_nonempty _ _ R).
  constructor.
  - rewrite last_snoc. done.
  - by destruct log.
  - cbn. rewrite (rep_version _ _ R), wrapU_add_l, length_app by lia. f_equal. cbn. lia.
  - change (history (Set_ now v a)) with
      (history (addToHistory now v (version (bump (store v a))) (bump (store v a)))).
    rewrite addToHistory_trim; [|apply R|done]. cbn [history bump store version].
    rewrite <- skipn_map, map_app. cbn [history bump store]. rewrite (rep_history _ _ R).
    rewrite stamped_snoc, length_app. cbn [map length].
    rewrite (rep_version _ _ R), wrapU_add_l by lia.
    replace (wrapU 64 (Z.of_nat (length log) + 1)) with (stamp (length log));
      [|unfold stamp; rewrite bool_decide_false by (destruct log; done); done].
    rewrite !drop_app. rewrite drop_drop, length_drop, length_stamped. f_equal; f_equal; lia.
  - apply R.
Qed.

Lemma Rep_new now init : Rep [match init with v :: _ => v | [] => zero end] (NewFA now init).
Proof. constructor; done. Qed.

Lemma Rep_Get (log : list T) a : Rep log a -> Get a = top log.
Proof.
  intros R. unfold Get, top. rewrite (rep_value _ _ R). by destruct (last log).
Qed.
End LogFacts.

(** ** Compare-and-swap and transactions under interference *)
Section TransactionFacts.
Context {T : Type} `{Comparable T} {X : Type}.

Lemma cas_value_spec `{EqDecision T} e n (a : FA T) : is_Some (value a) ->
  cas_value e n a = Done (if decide (Get a = e) then (true, store n a) else (false, a)).
Proof.
  intros [v Hv]. unfold cas_value, Get. rewrite Hv.
  destruct (comparable v e) as (c & -> & Hc). cbn.
  destruct c, (decide (v = e)) as [E|E]; try done.
  - by destruct E; apply Hc.
  - apply Hc in E. done.
Qed.
Lemma cas_spec `{EqDecision T} now e n (a : FA T) : is_Some (value a) ->
  CompareAndSwap now e n a = Done (if decide (Get a = e) then (true, Set_ now n a) else (false, a)).
Proof. intros Ha. unfold CompareAndSwap. rewrite cas_value_spec by done. by case_decide. Qed.

Context (clock : nat -> Z) (env : nat -> FA T -> FA T) (f : T -> T).
Hypothesis env_stored : forall i a, is_Some (value a) -> is_Some (value (env i a)).

(** The accessor when attempt [i] begins, all before it having failed; at its
    load; and at its compare-and-swap. *)
Fixpoint before (i : nat) (a : FA T) : FA T :=
  match i with O => a | S i => env (5 * i + 1)%nat (env (5 * i)%nat (before i a)) end.
Definition loaded (i : nat) (a : FA T) : FA T := env (5 * i)%nat (before i a).
Definition met (i : nat) (a : FA T) : FA T := env (5 * i + 1)%nat (loaded i a).

Lemma before_stored i a : is_Some (value a) -> is_Some (value (before i a)).
Proof. intros Ha. induction i; simpl; auto. Qed.

(** The value is at the compare-and-swap what it was at the load. *)
Definition steady (i : nat) (a : FA T) : Prop := Get (met i a) = Get (loaded i a).

Lemma attempts_spec `{EqDecision T} n i (x : X) a : is_Some (value a) ->
  (exists k, (i <= k < i + n)%nat /\ (forall j, (i <= j < k)%nat -> ~ steady j a) /\ steady k a /\
     let v := f (Get (met k a)) in
     attempts clock env (fun c x => (Done (f c), x)) n i x (before i a) =
       (Some (Done v), (x, publish env (5 * k + 2) (clock k) v (store v (met k a))))) \/
  ((forall j, (i <= j < i + n)%nat -> ~ steady j a) /\
   attempts clock env (fun c x => (Done (f c), x)) n i x (before i a) = (None, (x, before (i + n) a))).
Proof.
  intros Ha. revert i. induction n as [|n IH]; intros i.
  { right. split; [lia|]. rewrite Nat.add_0_r. done. }
  cbn [attempts]. change (env (5 * i)%nat (before i a)) with (loaded i a).
  change (env (5 * i + 1)%nat (loaded i a)) with (met i a).
  rewrite cas_value_spec by (by apply (before_stored (S i))).
  destruct (decide (Get (met i a) = Get (loaded i a))) as [E|E].
  - left. exists i. split_and!; [lia..|done|]. by rewrite E.
  - change (met i a) with (before (S i) a).
    destruct (IH (S i)) as [(k & Hk & Hbefore & Hs & Heq)|[Hall Heq]].
    + left. exists k. split_and!; [lia..| |done|done].
      intros j Hj. destruct (decide (j = i)) as [->|]; [done|]. apply Hbefore. lia.
    + right. split; [|by replace (i + S n)%nat with (S i + n)%nat by lia].
      intros j Hj. destruct (decide (j = i)) as [->|]; [done|]. apply Hall. lia.
Qed.
End TransactionFacts.

(** C10: A transaction of an accessor that has a value, of a type Go can
    compare, with an update that does not panic and other goroutines acting in
    any way between any two of its atomic steps (before and after each load,
    after a failed compare-and-swap, between the value, the version and the
    history of its write, before the last read), either stores exactly once, the
    update of the value current at that moment, at the first attempt whose load
    and compare-and-swap see the same value, publishes it and returns it; or,
    when the value differs in each of the ten attempts, writes nothing and
    returns the value current at the end, which the caller cannot tell from
    success: the update is lost. *)
Theorem Transaction_linearizable {T} `{Comparable T} `{EqDecision T} {X} clock env (f : T -> T) (x : X) (a : FA T) :
  is_Some (value a) -> (forall i b, is_Some (value b) -> is_Some (value (env i b))) ->
  (exists k, (k < 10)%nat /\ (forall j, (j < k)%nat -> ~ steady env j a) /\ steady env k a /\
     let b := met env k a in
     Transaction clock env (fun c x => (Done (f c), x)) x a =
       (Done (f (Get b)), (x, publish env (5 * k + 2) (clock k) (f (Get b)) (store (f (Get b)) b)))) \/
  ((forall j, (j < 10)%nat -> ~ steady env j a) /\
   let b := env 50%nat (before env 10 a) in
   Transaction clock env (fun c x => (Done (f c), x)) x a = (Done (Get b), (x, b))).
Proof.
  intros Ha Henv. unfold Transaction.
  destruct (attempts_spec clock env f Henv maxRetries 0 x a Ha)
    as [(k & Hk & Hb & Hs & Heq)|[Hall Heq]]; cbn [before] in Heq; rewrite Heq.
  - left. exists k. split_and!; [apply Hk| |done|done]. intros j Hj. apply Hb. lia.
  - right. split; [|done]. intros j Hj. apply Hall. unfold maxRetries. lia.
Qed.

(** A competing writer that adds one between load and compare-and-swap: during
    two attempts, and during every attempt. *)
Lemma Transaction_linearizable_witness :
  (let env := fun p (b : FA Z) => if bool_decide (p = 1 \/ p = 6)%nat then Set_ 0 (Get b + 1) b else b in
   Transaction (fun _ => 0) env (fun c (x : unit) => (Done (c * 10), x)) tt (NewFA 0 [1]) =
   (Done 30, (tt, Set_ 0 30 (met env 2 (NewFA 0 [1]))))) /\
  (let env := fun p (b : FA Z) => if (p mod 5 =? 1)%nat then Set_ 0 (Get b + 1) b else b in
   (Transaction (fun _ => 0) env (fun c (x : unit) => (Done (c * 10), x)) tt (NewFA 0 [1])).1 = Done 11).
Proof.
  assert (S1 : is_Some (value (NewFA 0 [1]))) by (eexists; reflexivity).
  split.
  - intros env.
    destruct (Transaction_linearizable (fun _ => 0) env (fun c => c * 10) tt (NewFA 0 [1]) S1)
      as [(k & Hk & Hb & Hs & Heq)|[Hall _]].
    { intros i b Hb. unfold env. destruct (bool_decide _); [eexists; reflexivity|done]. }
    + destruct k as [|[|[|k]]]; [vm_compute in Hs; discriminate..|vm_compute; reflexivity|].
      destruct (Hb 2%nat); [lia|vm_compute; reflexivity].
    + destruct (Hall 5%nat); [lia|vm_compute; reflexivity].
  - intros env. vm_compute. reflexivity.
Defined.

Lemma Transaction_alone {T} `{Comparable T} `{EqDecision T} {X} now (f : T -> T) (x : X) (a : FA T) :
  is_Some (value a) ->
  Transaction (fun _ => now) undisturbed (fun c x => (Done (f c), x)) x a =
    (Done (f (Get a)), (x, Set_ now (f (Get a)) a)).
Proof.
  intros Ha. unfold Transaction, maxRetries, undisturbed. cbn [attempts].
  rewrite cas_value_spec by done. by rewrite decide_True.
Qed.

(** ** Refinement of the log *)
Section Refinement.
Context {T : Type} `{Comparable T} `{EqDecision T}.

Lemma Rep_stored (log : list T) a : Rep log a -> is_Some (value a).
Proof.
  intros R. rewrite (rep_value _ _ R). destruct log using rev_ind; [|by rewrite last_snoc].
  by destruct (rep_nonempty _ _ R).
Qed.

(** The result of an operation on the log; identifiers depend on the accessor. *)
Definition answers (o : op T) (log : list T) (r : res T) : Prop :=
  match o, r with
  | OSet _, RUnit | OUnsubscribe _, RUnit | OSubscribe _ _, RId _ => True
  | OSwap _, RVal v => v = top log
  | OCompareAndSwap e _, RBool b => b = bool_decide (top log = e)
  | OTransaction f, RVal v => v = f (top log)
  | _, _ => False
  end.

Lemma step_refines now o log a : Rep log a ->
  exists r a', step now o a = Done (r, a') /\ answers o log r /\ Rep (log ++ appended o log) a'.
Proof.
  intros R. pose proof (Rep_Get _ _ R) as HG. pose proof (Rep_stored _ _ R) as HS.
  destruct o as [v|v|e n|f|cb fl|id]; cbn [step appended answers].
  - do 2 eexists. split; [done|]. split; [done|]. by apply Rep_write.
  - do 2 eexists. split; [done|]. split; [done|]. by apply Rep_write.
  - rewrite cas_spec, HG by done.
    destruct (decide (top log = e)) as [E|E].
    + do 2 eexists. split; [done|]. split; [by rewrite bool_decide_true|]. by apply Rep_write.
    + do 2 eexists. split; [done|]. split; [by rewrite bool_decide_false|]. by rewrite app_nil_r.
  - rewrite Transaction_alone by done. rewrite HG.
    do 2 eexists. split; [done|]. split; [done|]. by apply Rep_write.
  - do 2 eexists. split; [done|]. split; [done|]. rewrite app_nil_r. by destruct R.
  - do 2 eexists. split; [done|]. split; [done|]. rewrite app_nil_r. by destruct R.
Qed.

Lemma run_refines ops : forall now log a, Rep log a ->
  exists a', run now ops a = Done a' /\ Rep (spec_run ops log) a'.
Proof.
  induction ops as [|o ops IH]; intros now log a R; [eauto|].
  destruct (step_refines now o log a R) as (r & a' & Hs & _ & R').
  destruct (IH (now + 1) _ _ R') as (b & Hb & Rb). exists b. split; [|done].
  cbn [run]. rewrite Hs. exact Hb.
Qed.

Lemma Rep_values (log : list T) a : Rep log a -> map evalue (history a) = drop (length log - 100) log.
Proof.
  intros R. pose proof (f_equal (map fst) (rep_history _ _ R)) as E.
  rewrite map_map in E. transitivity (map fst (drop (length log - 100) (stamped log))); [exact E|].
  rewrite <- skipn_map. f_equal.
  unfold stamped. apply list_eq. intros i. change (map fst) with (fmap (M := list) (@fst T Z)).
  rewrite list_lookup_fmap, list_lookup_imap. by destruct (log !! i).
Qed.

Lemma History_log (log : list T) a limit : Rep log a -> 0 <= limit ->
  History limit a = drop (length log - Nat.min 100 (Z.to_nat limit)) log.
Proof.
  intros R Hl. pose proof (Rep_history_length _ _ R) as [_ Hh].
  assert (length log <> 0)%nat as Hne by (intros E; apply length_zero_iff_nil in E; by destruct (rep_nonempty _ _ R)).
  unfold History. destruct (Z.eqb_spec limit 0) as [->|Hl0]; cbn [orb].
  { rewrite drop_ge; [done|lia]. }
  destruct (Z.eqb_spec (Z.of_nat (length (history a))) 0); [lia|].
  rewrite <- skipn_map. change (map (fun x => evalue x)) with (map (@evalue T)).
  rewrite (Rep_values _ _ R), drop_drop. f_equal.
  destruct (Z.ltb_spec limit (Z.of_nat (length (history a)))); lia.
Qed.

Lemma stamp_later from i : 0 <= from -> Z.of_nat i + 1 < 2 ^ 64 -> from < stamp i <-> Z.max 1 from <= Z.of_nat i.
Proof.
  intros Hf Hi. unfold stamp. destruct (decide (i = 0%nat)) as [->|Hn].
  - rewrite bool_decide_true by done. lia.
  - rewrite bool_decide_false by done. rewrite wrapU_id by (unfold in_u; lia). lia.
Qed.

Definition stamped_from (k : nat) (l : list T) : list (T * Z) := imap (fun i v => (v, stamp (k + i))) l.

Lemma stamped_from_cons k v l : stamped_from k (v :: l) = (v, stamp k) :: stamped_from (S k) l.
Proof.
  unfold stamped_from. rewrite imap_cons, Nat.add_0_r. f_equal. apply imap_ext.
  intros i x _. cbn. by rewrite Nat.add_succ_r.
Qed.

Lemma filter_stamped from l : forall k, 0 <= from -> Z.of_nat (k + length l) < 2 ^ 64 ->
  map fst (base.filter (fun p : T * Z => from < p.2) (stamped_from k l)) =
  drop (Z.to_nat (Z.max 1 from) - k) l.
Proof.
  induction l as [|v l IH]; intros k Hf Hk; [by rewrite drop_nil|]. cbn [length] in Hk.
  specialize (IH (S k) Hf ltac:(lia)). rewrite stamped_from_cons, filter_cons. cbn [snd].
  pose proof (stamp_later from k Hf ltac:(lia)) as Hs.
  destruct (decide (from < stamp k)) as [E|E].
  - apply Hs in E. cbn [map fst]. rewrite IH.
    assert (Z.to_nat (Z.max 1 from) - k = 0)%nat as -> by lia.
    by assert (Z.to_nat (Z.max 1 from) - S k = 0)%nat as -> by lia.
  - rewrite IH.
    by assert (Z.to_nat (Z.max 1 from) - k = S (Z.to_nat (Z.max 1 from) - S k))%nat as -> by lia.
Qed.

Lemma drop_stamped n (log : list T) :
  drop n (stamped log) = stamped_from n (drop n log).
Proof.
  apply list_eq. intros i. unfold stamped, stamped_from.
  rewrite lookup_drop, !list_lookup_imap, lookup_drop. done.
Qed.

Lemma filter_history from (h : list (historyEntry T)) :
  map evalue (base.filter (fun e => from < eversion e) h) =
  map fst (base.filter (fun p : T * Z => from < p.2) (map (fun e => (evalue e, eversion e)) h)).
Proof.
  induction h as [|e h IH]; [done|]. cbn [map]. rewrite !filter_cons. cbn [snd].
  destruct (decide (from < eversion e)); cbn [map fst]; congruence.
Qed.

Lemma Delta_log (log : list T) a from :
  Rep log a -> Z.of_nat (length log) < 2 ^ 64 -> 0 <= from ->
  Delta from a = Ok (drop (Nat.max (Z.to_nat (Z.max 1 from)) (length log - 100)) log) \/
  (from = 0 /\ length log = 1%nat /\ Delta from a = Err "version too old, not available in history"%string).
Proof.
  intros R Hl Hf. unfold Delta.
  rewrite (filter_history from), (rep_history _ _ R), drop_stamped, filter_stamped;
    [|done|rewrite length_drop; lia].
  rewrite drop_drop. replace (length log - 100 + _)%nat
    with (Nat.max (Z.to_nat (Z.max 1 from)) (length log - 100)) by lia.
  rewrite (rep_version _ _ R), wrapU_id by (unfold in_u; lia).
  set (n := Nat.max _ _). destruct (bool_decide_reflect (drop n log = [])) as [E|E]; cbn [andb]; [|by left].
  rewrite E. apply (f_equal length) in E. rewrite length_drop in E. cbn in E.
  destruct (Z.ltb_spec from (Z.of_nat (length log))); [|by left].
  right. split_and!; [lia..|done].
Qed.
End Refinement.

(** C11: Used by one goroutine, an accessor of a type Go can compare is the log
    of the values written to it, the initial one included: every sequence of
    operations succeeds, every operation answers as on the log, the value is the
    last of the log, the version its length (1 for a new accessor, so 2 after
    the first write and not the 1 that [TestFA_BasicOperations] expects), and
    [History] returns the newest values of the last 100, oldest first. *)
Theorem FA_refines_log {T} `{Comparable T} `{EqDecision T} now (init : T) ops :
  exists a, run now ops (NewFA now [init]) = Done a /\
    let log := spec_run ops [init] in
    Rep log a /\ Get a = top log /\ Version a = wrapU 64 (Z.of_nat (length log)) /\
    (forall limit, 0 <= limit -> History limit a = drop (length log - Nat.min 100 (Z.to_nat limit)) log) /\
    (forall t o, exists r a', step t o a = Done (r, a') /\ answers o log r).
Proof.
  destruct (run_refines ops now [init] _ (Rep_new now [init])) as (a & Hrun & R).
  exists a. split; [done|]. split_and!.
  - done.
  - by apply Rep_Get.
  - apply R.
  - intros limit Hl. by apply History_log.
  - intros t o. destruct (step_refines t o _ a R) as (r & a' & Hs & Hans & _). eauto.
Qed.

Lemma FA_refines_log_witness :
  exists a, run 0 [OSet 5; OTransaction (fun c => c + 1); OCompareAndSwap 5 9; OCompareAndSwap 6 7; OSwap 8]
              (NewFA 0 [1]) = Done a /\
    Get a = 8 /\ Version a = 5 /\ History 3 a = [6; 7; 8].
Proof.
  destruct (FA_refines_log 0 1 [OSet 5; OTransaction (fun c => c + 1); OCompareAndSwap 5 9; OCompareAndSwap 6 7; OSwap 8])
    as (a & Hrun & _ & HG & HV & HH & _).
  exists a. split; [exact Hrun|]. split; [exact HG|]. split; [exact HV|]. rewrite HH; [reflexivity|lia].
Defined.

(** [Delta] returns the values set after the version asked for, in order,
    but silently leaves out those no longer in the history of 100 values: its
    documented error comes only for version 0 of an accessor that was never
    written. *)
Theorem Delta_partial {T} `{Comparable T} `{EqDecision T} now (init : T) ops a from :
  let log := spec_run ops [init] in
  run now ops (NewFA now [init]) = Done a -> Z.of_nat (length log) < 2 ^ 64 -> 0 <= from ->
  (1 <= from \/ 1 < Z.of_nat (length log) ->
     Delta from a = Ok (drop (Nat.max (Z.to_nat (Z.max 1 from)) (length log - 100)) log)) /\
  (is_ok (Delta from a) = false -> from = 0 /\ log = [init]).
Proof.
  intros log Hrun Hl Hf.
  destruct (run_refines ops now [init] _ (Rep_new now [init])) as (a' & Hrun' & R).
  assert (a' = a) as -> by congruence. fold log in R.
  assert (Hpre : exists k, log = init :: k).
  { unfold log, spec_run. clear. set (l := [init]).
    assert (exists k, l = init :: k) as Hk by (exists []; done).
    clearbody l. revert l Hk. induction ops as [|o ops IH]; intros l [k ->]; [eauto|].
    apply IH. exists (k ++ appended o (init :: k)). done. }
  destruct (Delta_log log a from R Hl Hf) as [E|(-> & E1 & E)]; rewrite E; split; try done.
  - intros [?|?]; lia.
  - intros _. split; [done|]. destruct Hpre as [k ->]. destruct k; [done|cbn in E1; lia].
Qed.

(** 150 writes after version 1: 100 values come back, and no error. *)
Lemma Delta_partial_witness :
  let ops := map (fun i => OSet (Z.of_nat i)) (seq 1 150) in
  exists a, run 0 ops (NewFA 0 [0]) = Done a /\
    Delta 1 a = Ok (map Z.of_nat (seq 51 100)).
Proof.
  intros ops. destruct (run 0 ops (NewFA 0 [0])) as [a|] eqn:E; [|vm_compute in E; discriminate].
  exists a. split; [done|].
  destruct (Delta_partial 0 0 ops a 1 E) as [HD _]; [vm_compute; reflexivity|lia|].
  rewrite HD by (left; lia). vm_compute. reflexivity.
Defined.

(** ** Concurrent writes

    [Set] and a successful [CompareAndSwap] are three atomic steps (the value,
    the version, the history under its lock), which goroutines interleave. *)
Module Interleaved.
Section Writers.
Context {T : Type} `{GoType T}.

Inductive pc : Type := Idle | Stored (v : T) | Stamped (v : T) (ver : Z).
Record state : Type := mkState { fa : FA T; threads : list pc }.

Definition stamped_version (p : pc) : list Z := match p with Stamped _ ver => [ver] | _ => [] end.
(** The versions taken and not yet in the history. *)
Definition in_flight (s : state) : list Z := concat (map stamped_version (threads s)).
Definition recorded (a : FA T) : list Z := map eversion (history a).

(** The next step of goroutine [t]; [v] is the value it writes when it starts. *)
Definition atom (s : state) (act : nat * (Z * T)) : state :=
  let '(t, (now, v)) := act in
  match threads s !! t with
  | Some Idle => mkState (store v (fa s)) (<[t := Stored v]> (threads s))
  | Some (Stored v) =>
      let a := bump (fa s) in mkState a (<[t := Stamped v (version a)]> (threads s))
  | Some (Stamped v ver) =>
      mkState (notifySubscribers v (addToHistory now v ver (fa s))) (<[t := Idle]> (threads s))
  | None => s
  end.
Definition exec (acts : list (nat * (Z * T))) (s : state) : state := foldl atom s acts.
Definition start (now : Z) (init : T) (n : nat) : state := mkState (NewFA now [init]) (replicate n Idle).

(** Every version up to the current one belongs to exactly one write: it is in
    the history, on its way there, or was trimmed from a full history. *)
Record Inv (bound : Z) (s : state) : Prop := {
  inv_bound : 1 <= version (fa s) <= bound;
  inv_max : maxHistory (fa s) = 100;
  inv_length : (length (history (fa s)) <= 100)%nat;
  inv_versions : exists dropped,
    dropped ++ recorded (fa s) ++ in_flight s ≡ₚ 0 :: seqZ 2 (version (fa s) - 1) /\
    (dropped <> [] -> length (history (fa s)) = 100%nat)
}.

Lemma in_flight_insert t p q l : l !! t = Some p ->
  concat (map stamped_version (<[t := q]> l)) ++ stamped_version p ≡ₚ
  stamped_version q ++ concat (map stamped_version l).
Proof.
  revert t. induction l as [|r l IH]; intros [|t] Ht; simplify_eq/=.
  - rewrite <- !app_assoc. apply Permutation_app_head, Permutation_app_comm.
  - rewrite <- app_assoc, (IH t Ht), !app_assoc. apply Permutation_app_tail, Permutation_app_comm.
Qed.

Lemma seqZ_snoc n : 0 <= n -> seqZ 2 (n + 1) = seqZ 2 n ++ [2 + n].
Proof. intros. rewrite seqZ_app by lia. done. Qed.

Lemma atom_inv bound s act : bound < 2 ^ 64 - 1 -> Inv bound s -> Inv (bound + 1) (atom s act).
Proof.
  intros Hb [Hv Hm Hl (d & Hd & Hfull)]. destruct act as [t [now v]]. unfold atom.
  assert (Inv (bound + 1) s) as Hsame by (constructor; [lia|done|done|eauto]).
  destruct (threads s !! t) as [[|w|w ver]|] eqn:Et; [..|done].
  - constructor; [cbn; lia|done|done|]. exists d. split; [|done].
    pose proof (in_flight_insert t Idle (Stored v) _ Et) as Hi. cbn in Hi.
    rewrite app_nil_r in Hi. unfold in_flight in *. cbn [threads fa]. rewrite Hi. exact Hd.
  - assert (Hnext : wrapU 64 (version (fa s) + 1) = version (fa s) + 1) by (apply wrapU_id; unfold in_u; lia).
    constructor; [cbn; rewrite Hnext; lia|done|done|]. exists d. split; [|done].
    pose proof (in_flight_insert t (Stored w) (Stamped w (version (fa s) + 1)) _ Et) as Hi.
    cbn [stamped_version] in Hi. rewrite app_nil_r in Hi.
    unfold in_flight in *. cbn [threads fa bump version]. rewrite Hnext, Hi.
    replace (version (fa s) + 1 - 1) with (version (fa s) - 1 + 1) by lia.
    rewrite seqZ_snoc by lia. replace (2 + (version (fa s) - 1)) with (version (fa s) + 1) by lia.
    change (recorded (bump (fa s))) with (recorded (fa s)).
    rewrite (app_comm_cons (seqZ _ _)), <- Hd. rewrite <- !app_assoc.
    do 2 apply Permutation_app_head. apply Permutation_app_comm.
  - pose proof (addToHistory_trim now w ver (fa s) Hm Hl) as Htrim.
    set (a' := notifySubscribers w (addToHistory now w ver (fa s))).
    assert (Hh : history a' = drop (length (history (fa s)) + 1 - 100) (history (fa s) ++ [mkEntry w ver now]))
      by exact Htrim.
    remember (length (history (fa s)) + 1 - 100)%nat as k eqn:Ek.
    constructor; [cbn; lia|done|cbn [fa]; rewrite Hh, length_drop, length_app; cbn; lia|].
    exists (d ++ take k (recorded (fa s))). split.
    + pose proof (in_flight_insert t (Stamped w ver) Idle _ Et) as Hi. cbn [stamped_version] in Hi.
      unfold in_flight in *. cbn [threads fa]. change (version a') with (version (fa s)).
      rewrite <- Hd, <- app_assoc. apply Permutation_app_head.
      change ([] ++ concat (map stamped_version (threads s))) with (concat (map stamped_version (threads s))) in Hi.
      rewrite <- Hi. unfold recorded. rewrite Hh, <- skipn_map, map_app. cbn [map eversion].
      rewrite drop_app_le by (rewrite length_map; lia).
      rewrite <- (take_drop k (map eversion (history (fa s)))) at 3.
      rewrite <- !app_assoc. do 2 apply Permutation_app_head. apply Permutation_app_comm.
    + intros Hne. cbn [fa]. rewrite Hh, length_drop, length_app. cbn [length].
      destruct (decide (d = [])) as [->|Hdne]; [|rewrite (Hfull Hdne) in *; lia].
      assert (k <> 0%nat) as Hk by (intros E; rewrite E in Hne; done). lia.
Qed.

Lemma exec_inv acts : forall bound s, bound + Z.of_nat (length acts) < 2 ^ 64 -> Inv bound s ->
  Inv (bound + Z.of_nat (length acts)) (exec acts s).
Proof.
  induction acts as [|act acts IH]; intros bound s Hb Hs; cbn [length exec foldl] in *.
  - by rewrite Z.add_0_r.
  - replace (bound + Z.of_nat (S (length acts))) with (bound + 1 + Z.of_nat (length acts)) by lia.
    apply IH; [lia|]. apply atom_inv; [lia|done].
Qed.

Lemma start_inv now init n : Inv 1 (start now init n).
Proof.
  constructor; [done|done|apply Nat.leb_le; reflexivity|]. exists []. split; [|done]. cbn.
  unfold in_flight. cbn. induction n as [|n IH]; [done|]. exact IH.
Qed.
End Writers.
Arguments state : clear implicits.
End Interleaved.

(** C37: However concurrent writes interleave (short of 2^63 steps), every
    version from 2 up to the current one is given to exactly one write and
    recorded exactly once: it is in the history, held by a writer about to
    record it, or was trimmed, which only happens to a history of 100 entries.
    The initial value is recorded with 0, and version 1, which a new accessor
    has, belongs to no value. *)
Theorem concurrent_versions {T} `{GoType T} now (init : T) n acts :
  Z.of_nat (length acts) < 2 ^ 63 ->
  let s := Interleaved.exec acts (Interleaved.start now init n) in
  (length (history (Interleaved.fa s)) <= 100)%nat /\
  exists dropped,
    dropped ++ Interleaved.recorded (Interleaved.fa s) ++ Interleaved.in_flight s
      ≡ₚ 0 :: seqZ 2 (version (Interleaved.fa s) - 1) /\
    (dropped <> [] -> length (history (Interleaved.fa s)) = 100%nat) /\
    NoDup (Interleaved.recorded (Interleaved.fa s) ++ Interleaved.in_flight s) /\
    1 ∉ Interleaved.recorded (Interleaved.fa s) ++ Interleaved.in_flight s.
Proof.
  intros Hl s.
  destruct (Interleaved.exec_inv acts 1 (Interleaved.start now init n)) as [_ _ Hlen (d & Hd & Hfull)];
    [lia|apply Interleaved.start_inv|]. fold s in Hd, Hfull. split; [exact Hlen|]. exists d. split_and!; [exact Hd|exact Hfull| |].
  - assert (NoDup (0 :: seqZ 2 (version (Interleaved.fa s) - 1))) as Hnd.
    { constructor; [|apply NoDup_seqZ]. intros Hin. apply elem_of_seqZ in Hin. lia. }
    rewrite <- Hd in Hnd. by apply NoDup_app in Hnd as (_ & _ & ?).
  - intros Hin. assert (1 ∈ 0 :: seqZ 2 (version (Interleaved.fa s) - 1)) as Hin1.
    { rewrite <- Hd. apply elem_of_app. by right. }
    apply elem_of_cons in Hin1 as [?|Hin1]; [done|]. apply elem_of_seqZ in Hin1. lia.
Qed.

Lemma concurrent_versions_witness :
  let s := Interleaved.exec [(0%nat, (0, 5)); (1%nat, (0, 6)); (1%nat, (0, 6)); (0%nat, (0, 5)); (0%nat, (0, 5))]
             (Interleaved.start 0 1 2) in
  Interleaved.in_flight s = [2] /\
  exists dropped, dropped ++ Interleaved.recorded (Interleaved.fa s) ++ [2] ≡ₚ [0; 2; 3].
Proof.
  intros s. split; [vm_compute; reflexivity|].
  destruct (concurrent_versions 0 1 2
    [(0%nat, (0, 5)); (1%nat, (0, 6)); (1%nat, (0, 6)); (0%nat, (0, 5)); (0%nat, (0, 5))] ltac:(cbn; lia))
    as (_ & d & Hd & _).
  exists d. exact Hd.
Defined.

(** Two concurrent writes can leave the accessor, with no write under way,
    holding one value while the newest version and the newest history entry
    belong to the other. *)
Theorem concurrent_sets_diverge {T} `{GoType T} now (init v w : T) :
  let acts := [(0%nat, (now, v)); (1%nat, (now, w)); (1%nat, (now, w)); (0%nat, (now, v));
               (1%nat, (now, w)); (0%nat, (now, v))] in
  let s := Interleaved.exec acts (Interleaved.start now init 2) in
  Interleaved.threads s = [Interleaved.Idle; Interleaved.Idle] /\
  Get (Interleaved.fa s) = w /\ Version (Interleaved.fa s) = 3 /\
  map (fun e => (evalue e, eversion e)) (history (Interleaved.fa s)) = [(init, 0); (w, 2); (v, 3)] /\
  Delta 2 (Interleaved.fa s) = Ok [v].
Proof. split_and!; reflexivity. Qed.

(** ** The synchronizer ([Synchronizer] of [utils.go])

    Every accessor notifies it in a goroutine of its own, and it writes the
    value to the others under its mutex. *)
Module Sync.
Section Synchronizers.
Context {T : Type} `{GoType T}.

Record Synchronizer : Type := mkSynchronizer { accessors : list (FA T); syncing : bool }.

Definition NewSynchronizer (accs : list (FA T)) : Synchronizer :=
  mkSynchronizer (imap (fun i a => (Subscribe i a).2) accs) false.

Definition syncValue (now : Z) (v : T) (sourceIndex : nat) (s : Synchronizer) : Synchronizer :=
  if syncing s then s
  else
    let s := mkSynchronizer (accessors s) true in
    let s := mkSynchronizer
      (imap (fun i a => if (i =? sourceIndex)%nat then a else Set_ now v a) (accessors s)) (syncing s) in
    mkSynchronizer (accessors s) false.

Definition with_goroutines (g : list (subscriber T * T)) (a : FA T) : FA T :=
  mkFA (value a) (version a) (subscribers a) (subsID a) (history a) (maxHistory a) g.

(** Notification [j] of those launched by accessor [k] runs. *)
Definition deliver (now : Z) (k j : nat) (s : Synchronizer) : option Synchronizer :=
  a ← accessors s !! k;
  p ← goroutines a !! j;
  let s' := mkSynchronizer (<[k := with_goroutines (delete j (goroutines a)) a]> (accessors s)) (syncing s) in
  Some (if match filter_of p.1 with None => true | Some f => f p.2 end
        then syncValue now p.2 (callback p.1) s' else s').
Fixpoint deliver_all (ds : list (Z * (nat * nat))) (s : Synchronizer) : option Synchronizer :=
  match ds with
  | [] => Some s
  | (now, (k, j)) :: ds => s' ← deliver now k j s; deliver_all ds s'
  end.

(** The program writes to accessor [k]. *)
Definition write (now : Z) (v : T) (k : nat) (s : Synchronizer) : Synchronizer :=
  mkSynchronizer (alter (Set_ now v) k (accessors s)) (syncing s).

Definition launched (l : list (FA T)) : nat := sum_list_with (fun a => length (goroutines a)) l.
Definition pending (s : Synchronizer) : nat := launched (accessors s).

(** Accessor [k] has one subscriber, the synchronizer's callback for [k]. *)
Definition wired (k : nat) (a : FA T) : Prop :=
  (exists id, map_to_list (subscribers a) = [(id, mkSubscriber k None)]) /\
  Forall (fun p => p.1 = mkSubscriber k None) (goroutines a).

Lemma wired_set now v k a : wired k a ->
  wired k (Set_ now v a) /\ length (goroutines (Set_ now v a)) = S (length (goroutines a)).
Proof.
  intros [[id E] Hg]. unfold wired. cbn [Set_ notifySubscribers addToHistory bump store goroutines subscribers].
  rewrite E. cbn [map snd]. split; [split; [eauto|]|].
  - apply Forall_app. by repeat constructor.
  - rewrite length_app. cbn. lia.
Qed.

Lemma launched_insert l k a b : l !! k = Some a ->
  (launched (<[k := b]> l) + length (goroutines a) = launched l + length (goroutines b))%nat.
Proof.
  revert k. induction l as [|c l IH]; intros [|k] Hk; simplify_eq/=; [lia|].
  pose proof (IH k Hk). lia.
Qed.

Lemma launched_others now v src l : forall i0,
  (forall i a, l !! i = Some a -> wired (i0 + i) a) ->
  (launched (imap (fun i a => if (i0 + i =? src)%nat then a else Set_ now v a) l) +
   (if bool_decide (i0 <= src < i0 + length l)%nat then 1 else 0) = launched l + length l)%nat.
Proof.
  induction l as [|a l IH]; intros i0 Hw; [cbn; case_bool_decide; lia|].
  rewrite imap_cons, Nat.add_0_r. cbn [launched sum_list_with length].
  assert (Hw' : forall i b, l !! i = Some b -> wired (S i0 + i) b)
    by (intros i b Hi; specialize (Hw (S i) b Hi); by rewrite Nat.add_succ_r in Hw).
  specialize (IH (S i0) Hw'). unfold launched in *.
  rewrite (imap_ext _ (fun i a => if (S i0 + i =? src)%nat then a else Set_ now v a))
    by (intros; cbn [compose]; by rewrite Nat.add_succ_r).
  destruct (wired_set now v i0 a) as [_ Hlen]; [specialize (Hw 0%nat a eq_refl); by rewrite Nat.add_0_r in Hw|].
  repeat case_bool_decide; destruct (Nat.eqb_spec i0 src); try lia; rewrite ?Hlen; lia.
Qed.

Record Wired (n : nat) (s : Synchronizer) : Prop := {
  w_length : length (accessors s) = n;
  w_idle : syncing s = false;
  w_wired : forall k a, accessors s !! k = Some a -> wired k a
}.

Lemma deliver_wired n now k j s s' : Wired n s -> deliver now k j s = Some s' ->
  Wired n s' /\ (pending s' + 2 = pending s + n)%nat.
Proof.
  intros [Hn Hi Hw] Hd. unfold deliver in Hd.
  destruct (accessors s !! k) as [a|] eqn:Ea; [|done]. cbn in Hd.
  destruct (goroutines a !! j) as [p|] eqn:Ep; [|done]. cbn in Hd.
  destruct (Hw k a Ea) as [Hsub Hg].
  pose proof (proj1 (Forall_lookup _ _) Hg j p Ep) as Hp. cbn in Hp. rewrite Hp in Hd.
  cbn [filter_of callback] in Hd. injection Hd as <-.
  set (a' := with_goroutines (delete j (goroutines a)) a) in *.
  set (l := <[k := a']> (accessors s)) in *.
  pose proof (lookup_lt_Some _ _ _ Ea) as Hk.
  assert (Hl : length l = n) by (unfold l; by rewrite length_insert).
  assert (Hw' : forall i b, l !! i = Some b -> wired i b).
  { intros i b Hb. unfold l in Hb. destruct (decide (i = k)) as [->|Hne].
    - rewrite list_lookup_insert_eq in Hb by done. injection Hb as <-. split; [done|].
      cbn. by apply Forall_delete.
    - rewrite list_lookup_insert_ne in Hb by done. by apply Hw. }
  unfold syncValue. cbn [syncing accessors]. rewrite Hi. split.
  - constructor; cbn; [by rewrite length_imap|done|]. intros i b Hb.
    rewrite list_lookup_imap in Hb. destruct (l !! i) as [c|] eqn:Ec; [|done]. cbn in Hb.
    injection Hb as <-. destruct (i =? k)%nat; [by apply Hw'|]. by apply wired_set, Hw'.
  - unfold pending. cbn [accessors].
    pose proof (launched_others now p.2 k l 0 Hw') as H1.
    rewrite bool_decide_true in H1 by lia.
    pose proof (launched_insert (accessors s) k a a' Ea) as H2. fold l in H2.
    cbn [a' with_goroutines goroutines] in H2.
    pose proof (lookup_lt_Some _ _ _ Ep). rewrite length_delete in H2 by eauto.
    rewrite Hl in H1. cbn [Nat.add] in H1. lia.
Qed.

Lemma pending_deliverable n now s : Wired n s -> (0 < pending s)%nat ->
  exists k, is_Some (deliver now k 0 s).
Proof.
  intros [_ _ Hw] Hp. unfold pending in Hp.
  assert (exists k a p, accessors s !! k = Some a /\ goroutines a !! 0%nat = Some p) as (k & a & p & Ha & Hg).
  { clear Hw. induction (accessors s) as [|c l IH]; cbn in Hp; [lia|].
    destruct (goroutines c) as [|p g] eqn:E; [|exists 0%nat, c, p; by rewrite E].
    destruct (IH Hp) as (k & a & p & Hk & Hg). by exists (S k), a, p. }
  exists k. unfold deliver. rewrite Ha. cbn. rewrite Hg. cbn. eauto.
Qed.

Lemma new_wired now (inits : list T) :
  Wired (length inits) (NewSynchronizer (map (fun v => NewFA now [v]) inits)) /\
  pending (NewSynchronizer (map (fun v => NewFA now [v]) inits)) = 0%nat.
Proof.
  split.
  - constructor; cbn [accessors syncing NewSynchronizer]; [by rewrite length_imap, length_map|done|].
    intros k a Ha. rewrite list_lookup_imap in Ha. change (map ?f inits) with (f <$> inits) in Ha.
    rewrite list_lookup_fmap in Ha. destruct (inits !! k) as [v|]; [|done]. cbn in Ha.
    injection Ha as <-. split; [|by constructor]. exists 1. cbn [Subscribe SubscribeIf snd subscribers subsID NewFA addToHistory].
    change (generateUniqueID 0) with 1. rewrite insert_empty. apply map_to_list_singleton.
  - unfold pending. cbn [accessors NewSynchronizer].
    assert (Hall : Forall (fun a => goroutines a = []) (imap (fun i a => (Subscribe i a).2) (map (fun v => NewFA now [v]) inits))).
    { apply Forall_lookup. intros i a Ha. rewrite list_lookup_imap in Ha.
      change (map ?f inits) with (f <$> inits) in Ha. rewrite list_lookup_fmap in Ha.
      destruct (inits !! i); [|done]. cbn in Ha. by injection Ha as <-. }
    induction Hall as [|a l E _ IH]; [done|]. unfold launched in *. cbn. by rewrite E, IH.
Qed.
End Synchronizers.
Arguments Synchronizer : clear implicits.
End Sync.

Lemma Sync_deliver_all {T} `{GoType T} n ds : forall (s s' : Sync.Synchronizer T), Sync.Wired n s -> (2 <= n)%nat ->
  Sync.deliver_all ds s = Some s' ->
  Sync.Wired n s' /\ Sync.pending s' = (Sync.pending s + length ds * (n - 2))%nat.
Proof.
  induction ds as [|[now [k j]] ds IH]; intros s s' Hw Hn Hd; cbn [Sync.deliver_all length] in *.
  - injection Hd as <-. split; [done|lia].
  - destruct (Sync.deliver now k j s) as [s1|] eqn:E; [|done]. cbn in Hd.
    destruct (Sync.deliver_wired n now k j s s1 Hw E) as [Hw1 Hp].
    destruct (IH s1 s' Hw1 Hn Hd) as [Hw' ->]. split; [done|].
    rewrite Nat.mul_succ_l. lia.
Qed.

(** The synchronizer's guard against loops never acts: after one write to
    one of [n >= 2] synchronized accessors, whatever the order in which the
    notifications run, after [d] of them [1 + d * (n - 2)] are waiting, so two
    accessors write to each other for ever and more flood the program. *)
Theorem sync_never_quiesces {T} `{GoType T} now (inits : list T) v k ds s :
  (k < length inits)%nat -> (2 <= length inits)%nat ->
  Sync.deliver_all ds (Sync.write now v k (Sync.NewSynchronizer (map (fun v => NewFA now [v]) inits))) = Some s ->
  Sync.syncing s = false /\ Sync.pending s = (1 + length ds * (length inits - 2))%nat /\
  forall now', exists k', is_Some (Sync.deliver now' k' 0 s).
Proof.
  intros Hk Hn Hd. destruct (Sync.new_wired now inits) as [Hw0 Hp0].
  set (s0 := Sync.NewSynchronizer _) in *. clearbody s0.
  destruct (lookup_lt_is_Some_2 (Sync.accessors s0) k) as [a Ha]; [by rewrite (Sync.w_length _ _ Hw0)|].
  assert (Hw1 : Sync.Wired (length inits) (Sync.write now v k s0)).
  { destruct Hw0 as [Hl Hi Hw]. constructor; cbn; [by rewrite length_alter|done|].
    intros i b Hb. destruct (decide (i = k)) as [->|Hne].
    - rewrite list_lookup_alter_eq, Ha in Hb. injection Hb as <-. by apply Sync.wired_set, Hw.
    - rewrite list_lookup_alter_ne in Hb by done. by apply Hw. }
  assert (Hp1 : Sync.pending (Sync.write now v k s0) = 1%nat).
  { pose proof (Sync.launched_insert _ k a (Set_ now v a) Ha) as E.
    destruct (Sync.wired_set now v k a (Sync.w_wired _ _ Hw0 k a Ha)) as [_ E'].
    unfold Sync.pending in *. cbn [Sync.accessors Sync.write].
    replace (alter (Set_ now v) k (Sync.accessors s0)) with (<[k := Set_ now v a]> (Sync.accessors s0)); [lia|].
    apply list_eq. intros i. destruct (decide (i = k)) as [->|].
    - rewrite list_lookup_alter_eq, Ha, list_lookup_insert_eq; [done|by eapply lookup_lt_Some].
    - by rewrite list_lookup_alter_ne, list_lookup_insert_ne. }
  destruct (Sync_deliver_all _ ds _ s Hw1 Hn Hd) as [Hw Hp]. rewrite Hp1 in Hp.
  split; [apply Hw|]. split; [done|]. intros now'. eapply Sync.pending_deliverable; [exact Hw|rewrite Hp; apply Nat.lt_0_succ].
Qed.

Lemma sync_never_quiesces_witness :
  exists s, Sync.deliver_all [(0%Z, (0, 0)); (0%Z, (1, 0)); (0%Z, (0, 0))]%nat
      (Sync.write 0 7 0 (Sync.NewSynchronizer (map (fun v => NewFA 0 [v]) [1; 2]))) = Some s /\
    Sync.pending s = 1%nat.
Proof.
  destruct (Sync.deliver_all [(0%Z, (0, 0)); (0%Z, (1, 0)); (0%Z, (0, 0))]%nat
      (Sync.write 0 7 0 (Sync.NewSynchronizer (map (fun v => NewFA 0 [v]) [1; 2])))) as [s|] eqn:E;
    [|vm_compute in E; discriminate].
  exists s. split; [done|].
  destruct (sync_never_quiesces 0 [1; 2] 7 0 _ s ltac:(cbn; lia) ltac:(cbn; lia) E) as (_ & Hp & _). exact Hp.
Defined.

(** ** Numeric accessors *)
Lemma numeric_alone now (f : Z -> outcome Z) (a : FA Z) : is_Some (value a) ->
  numeric_update (fun _ => now) undisturbed f a =
  match f (Get a) with Done v => Done (Set_ now v a) | Panic => Panic end.
Proof.
  intros Ha. unfold numeric_update, Transaction, maxRetries, undisturbed. cbn [attempts].
  destruct (f (Get a)) as [v|]; [|done]. rewrite cas_value_spec by done. by rewrite decide_True.
Qed.

(** Without interference, adding the numbers of a list leaves their sum
    with the initial value, at the width of the type. *)
Theorem Add_sum w now (init : Z) vs : 0 < w ->
  exists a, foldl (fun r v => a ← r; Add (wrapS w) (fun _ => now) undisturbed v a) (Done (NewFA now [wrapS w init])) vs = Done a /\
    Get a = wrapS w (init + foldr Z.add 0 vs).
Proof.
  intros Hw. cut (forall a i, is_Some (value a) -> Get a = wrapS w i ->
    exists a', foldl (fun r v => a ← r; Add (wrapS w) (fun _ => now) undisturbed v a) (Done a) vs = Done a' /\
      Get a' = wrapS w (i + foldr Z.add 0 vs)).
  { intros Hcut. apply Hcut; [eexists; reflexivity|reflexivity]. }
  induction vs as [|v vs IH]; intros a i Ha HG; cbn [foldl foldr].
  - exists a. by rewrite Z.add_0_r.
  - change (x ← Done a; Add (wrapS w) (fun _ => now) undisturbed v x)
      with (Add (wrapS w) (fun _ => now) undisturbed v a).
    unfold Add at 2. rewrite numeric_alone by done. cbn [Get].
    rewrite Z.add_assoc. apply IH; [eexists; reflexivity|].
    change (Get (Set_ now (wrapS w (Get a + v)) a)) with (wrapS w (Get a + v)).
    rewrite HG. apply wrapS_add_l. done.
Qed.
