(* ===== verification/SliceFields.v ===== *)
(** * The slice accessor ([slice_field_accessor.go] of [internal/core/fields])

    An accessor whose values are slices: headers that share arrays, which live
    in a heap. The mutating methods are transactions of the root accessor whose
    update functions write to the shared array; two slices cannot be compared,
    so the compare-and-swap of the root panics on them. *)
From S2P Require Import Prelude Fields.
From Stdlib Require Import ZArith Lia.
From stdpp Require Import base tactics list gmap.
Open Scope Z_scope.

(** ** Slices of Go *)
Record slice_header : Type := mkSlice { arr : nat; off : nat; len : nat; cap : nat }.
Definition nil_slice : slice_header := mkSlice 0 0 0 0.

#[export] Instance slice_type : GoType slice_header := {| zero := nil_slice; go_eq _ _ := Panic |}.

(** The arrays, by address. *)
Abbreviation heap T := (list (list T)).

Section Slices.
Context {T : Type} (zeroT : T).
(** The capacity [append] chooses from the old one and the length needed. *)
Context (grow : nat -> nat -> nat).

Definition array (h : heap T) (s : slice_header) : list T := default [] (h !! arr s).
Definition read (h : heap T) (s : slice_header) : list T := take (len s) (drop (off s) (array h s)).
Definition alloc (a : list T) (h : heap T) : nat * heap T := (length h, h ++ [a]).

(** Writing [xs] at position [i] of the slice's array. *)
Definition write_at (s : slice_header) (i : nat) (xs : list T) (h : heap T) : heap T :=
  alter (fun a => take (off s + i) a ++ xs ++ drop (off s + i + length xs) a) (arr s) h.

(** [s[i] = v] *)
Definition assign (s : slice_header) (i : Z) (v : T) (h : heap T) : outcome (heap T) :=
  if (0 <=? i) && (i <? Z.of_nat (len s)) then Done (write_at s (Z.to_nat i) [v] h) else Panic.
(** [s[i]] *)
Definition at_index (s : slice_header) (i : Z) (h : heap T) : outcome T :=
  if i <? 0 then Panic else match read h s !! Z.to_nat i with Some v => Done v | None => Panic end.
(** [s[lo:hi]] *)
Definition subslice (s : slice_header) (lo hi : Z) : outcome slice_header :=
  if (0 <=? lo) && (lo <=? hi) && (hi <=? Z.of_nat (cap s))
  then Done (mkSlice (arr s) (off s + Z.to_nat lo) (Z.to_nat (hi - lo)) (cap s - Z.to_nat lo)) else Panic.
(** [append(s, xs...)] *)
Definition append (s : slice_header) (xs : list T) (h : heap T) : slice_header * heap T :=
  let n := (len s + length xs)%nat in
  if (n <=? cap s)%nat then (mkSlice (arr s) (off s) n (cap s), write_at s (len s) xs h)
  else
    let c := Nat.max n (grow (cap s) n) in
    let '(l, h) := alloc (read h s ++ xs ++ replicate (c - n) zeroT) h in (mkSlice l 0 n c, h).
(** [make([]T, n)] *)
Definition make (n : nat) (h : heap T) : slice_header * heap T :=
  let '(l, h) := alloc (replicate n zeroT) h in (mkSlice l 0 n n, h).

(** ** The methods

    They return the heap and the accessor also when they panic. *)
Definition State : Type := heap T * FA slice_header.
Context (clock : nat -> Z) (env : nat -> FA slice_header -> FA slice_header).

(** A transaction of the root accessor, then [return true]. *)
Definition transact (update : slice_header -> heap T -> outcome slice_header * heap T) (st : State) : outcome bool * State :=
  match Transaction clock env update st.1 st.2 with
  | (Panic, st') => (Panic, st')
  | (Done _, st') => (Done true, st')
  end.

Definition Len (st : State) : nat := len (Get st.2).
Definition out_of_range (index : Z) (st : State) : bool :=
  (Z.of_nat (len (Get st.2)) - 1 <? index) || (index <? 0).

Definition Index (index : Z) (st : State) : outcome (T * bool) :=
  if out_of_range index st then Done (zeroT, false)
  else v ← at_index (Get st.2) index st.1; Done (v, true).

Definition Assign (index : Z) (v : T) (st : State) : outcome bool * State :=
  if out_of_range index st then (Done false, st)
  else transact (fun current h =>
    match assign current index v h with Done h' => (Done current, h') | Panic => (Panic, h) end) st.

Definition Append (values : list T) (st : State) : outcome bool * State :=
  transact (fun current h => let '(s, h') := append current values h in (Done s, h')) st.

Definition Remove (index : Z) (st : State) : outcome bool * State :=
  if out_of_range index st then (Done false, st)
  else transact (fun current h =>
    match subslice current 0 index, subslice current (index + 1) (Z.of_nat (len current)) with
    | Done before, Done after => let '(s, h') := append before (read h after) h in (Done s, h')
    | _, _ => (Panic, h)
    end) st.

Definition Insert (index : Z) (v : T) (st : State) : outcome bool * State :=
  transact (fun current h =>
    match subslice current 0 index, subslice current index (Z.of_nat (len current)) with
    | Done before, Done after =>
        let '(l, h) := alloc [v] h in
        let '(tail, h) := append (mkSlice l 0 1 1) (read h after) h in
        let '(s, h) := append before (read h tail) h in (Done s, h)
    | _, _ => (Panic, h)
    end) st.

Definition Clear (st : State) : outcome bool * State :=
  transact (fun _ h => let '(s, h') := make 0 h in (Done s, h')) st.

(** [for i := 0; i < newLen; i++ { newSlice[i] = current[i] }] *)
Fixpoint copy_loop (n : nat) (i : Z) (newSlice current : slice_header) (h : heap T) : outcome unit * heap T :=
  match n with
  | O => (Done tt, h)
  | S n =>
      match at_index current i h with
      | Panic => (Panic, h)
      | Done v =>
          match assign newSlice i v h with
          | Panic => (Panic, h)
          | Done h' => copy_loop n (i + 1) newSlice current h'
          end
      end
  end.

Definition Resize (newLen : Z) (st : State) : outcome bool * State :=
  if newLen <? 0 then (Done false, st)
  else transact (fun current h =>
    let '(newSlice, h) := make (Z.to_nat newLen) h in
    match copy_loop (Z.to_nat newLen) 0 newSlice current h with
    | (Panic, h') => (Panic, h')
    | (Done _, h') => (Done newSlice, h')
    end) st.

(** [CopyTo]: the destination after the copy, and the number returned. *)
Definition CopyTo (dest : list T) (st : State) : list T * nat :=
  (copy_at dest 0 (length dest) (read st.1 (Get st.2)), length dest).

(** [for i, j := 0, len(origin)-1; i < j; i, j = i+1, j-1] *)
Fixpoint reverse_loop (fuel i j : nat) (origin reversed : list T) : list T :=
  match fuel with
  | O => reversed
  | S fuel =>
      if (i <? j)%nat then
        reverse_loop fuel (S i) (j - 1) origin
          (<[j := default zeroT (origin !! i)]> (<[i := default zeroT (origin !! j)]> reversed))
      else reversed
  end.
Definition Reverse (st : State) : list T :=
  let origin := read st.1 (Get st.2) in
  reverse_loop (length origin) 0 (length origin - 1) origin (replicate (length origin) zeroT).

Inductive mutation : Type :=
  | MAssign (index : Z) (v : T)
  | MAppend (values : list T)
  | MRemove (index : Z)
  | MInsert (index : Z) (v : T)
  | MClear
  | MResize (newLen : Z).
Definition mutate (m : mutation) : State -> outcome bool * State :=
  match m with
  | MAssign i v => Assign i v
  | MAppend vs => Append vs
  | MRemove i => Remove i
  | MInsert i v => Insert i v
  | MClear => Clear
  | MResize n => Resize n
  end.
End Slices.

Section SliceFacts.
Context {T : Type} (zeroT : T) (grow : nat -> nat -> nat).
Context (clock : nat -> Z) (env : nat -> FA slice_header -> FA slice_header).

(** A header within its array. *)
Record wf (h : heap T) (s : slice_header) : Prop := {
  wf_arr : (arr s < length h)%nat;
  wf_cap : (off s + cap s <= length (array h s))%nat;
  wf_len : (len s <= cap s)%nat
}.

Lemma length_read h s : wf h s -> length (read h s) = len s.
Proof. intros [_ Hc Hl]. unfold read. rewrite length_take, length_drop. lia. Qed.

(** Writes to another array are not seen, and neither are allocations. *)
Lemma array_write_other s s' i xs (h : heap T) : arr s <> arr s' -> array (write_at s' i xs h) s = array h s.
Proof. intros Hne. unfold array, write_at. by rewrite list_lookup_alter_ne. Qed.

Lemma array_alloc s a (h : heap T) : (arr s < length h)%nat -> array (h ++ [a]) s = array h s.
Proof. intros Hl. unfold array. by rewrite lookup_app_l. Qed.

Lemma read_alloc s a (h : heap T) : (arr s < length h)%nat -> read (h ++ [a]) s = read h s.
Proof. intros Hl. unfold read. by rewrite array_alloc. Qed.

Lemma read_fresh (h : heap T) n c a : read (h ++ [a]) (mkSlice (length h) 0 n c) = take n a.
Proof. unfold read, array. cbn. rewrite lookup_app_r, Nat.sub_diag by done. done. Qed.

(** What is read after a write in place. *)
Lemma read_write s i xs (h : heap T) : wf h s -> (i <= len s)%nat -> (i + length xs <= cap s)%nat ->
  read (write_at s i xs h) s = take (len s) (take i (read h s) ++ xs ++ drop (i + length xs) (read h s)).
Proof.
  intros [Ha Hc Hl] Hi Hx. unfold read, array, write_at in *.
  destruct (lookup_lt_is_Some_2 h (arr s) Ha) as [a Ea]. rewrite list_lookup_alter_eq, Ea in *.
  cbn in Hc |- *. unfold id in *.
  rewrite <- Nat.add_assoc, drop_app_le by (rewrite length_take; lia).
  rewrite <- take_drop_commute, <- (drop_drop a).
  set (b := drop (off s) a).
  assert (length b >= cap s)%nat as Hb by (unfold b; rewrite length_drop; lia).
  rewrite take_take, Nat.min_l, skipn_firstn_comm by lia.
  rewrite !app_assoc, !(take_app _ _ (len s)), length_app, length_take. f_equal.
  rewrite take_take. f_equal. lia.
Qed.

Lemma transact_panics (update : slice_header -> heap T -> outcome slice_header * heap T) h a s :
  value (env 0 a) = Some s -> is_Some (value (env 1 (env 0 a))) ->
  transact clock env update (h, a) =
  match update s h with
  | (Panic, h') => (Panic, (h', env 0 a))
  | (Done _, h') => (Panic, (h', env 1 (env 0 a)))
  end.
Proof.
  intros Hv [v0 Hv0]. unfold transact, Transaction, maxRetries. cbn [attempts fst snd Nat.mul Nat.add].
  unfold Get. rewrite Hv. destruct (update s h) as [[s'|] h']; [|done].
  unfold cas_value. rewrite Hv0. done.
Qed.

(** What becomes of the elements when a method panics: [room] tells whether the
    array has a place after the last element. *)
Definition left_behind (m : @mutation T) (room : bool) (l : list T) : list T :=
  match m with
  | MAssign i v => <[Z.to_nat i := v]> l
  | MRemove i => take (Z.to_nat i) l ++ drop (S (Z.to_nat i)) l ++ drop (length l - 1) l
  | MInsert i v =>
      if (0 <=? i) && (i <=? Z.of_nat (length l)) && room
      then take (length l) (take (Z.to_nat i) l ++ v :: drop (Z.to_nat i) l) else l
  | _ => l
  end.

Lemma copy_loop_frame n : forall i new cur s (h : heap T), arr s <> arr new -> (arr s < length h)%nat ->
  read (copy_loop n i new cur h).2 s = read h s.
Proof.
  induction n as [|n IH]; intros i new cur s h Hne Hl; cbn [copy_loop]; [done|].
  destruct (at_index cur i h) as [v|]; [|done]. unfold assign.
  destruct ((0 <=? i) && (i <? Z.of_nat (len new))); [|done].
  rewrite IH; [|done|unfold write_at; by rewrite length_alter].
  unfold read. by rewrite array_write_other.
Qed.

(** [append] in place to a prefix of [s] writes the array of [s]. *)
Lemma append_prefix h s i (xs : list T) : wf h s -> (i <= len s)%nat ->
  read (append zeroT grow (mkSlice (arr s) (off s + 0) i (cap s)) xs h).2 s =
  (if (i + length xs <=? cap s)%nat
   then take (len s) (take i (read h s) ++ xs ++ drop (i + length xs) (read h s)) else read h s).
Proof.
  intros Hwf Hi. unfold append. cbn [len cap].
  destruct (Nat.leb_spec (i + length xs) (cap s)); cbn [snd].
  - rewrite <- read_write by done. unfold write_at. cbn [arr off]. by rewrite Nat.add_0_r.
  - apply read_alloc, Hwf.
Qed.

Lemma subslice_ok (s : slice_header) i j : 0 <= i <= j -> j <= Z.of_nat (cap s) ->
  subslice s i j = Done (mkSlice (arr s) (off s + Z.to_nat i) (Z.to_nat (j - i)) (cap s - Z.to_nat i)).
Proof.
  intros Hi Hj. unfold subslice.
  by rewrite (proj2 (Z.leb_le 0 i)), (proj2 (Z.leb_le i j)), (proj2 (Z.leb_le j _)) by lia.
Qed.

Lemma read_suffix h s i : wf h s -> (i <= len s)%nat ->
  read h (mkSlice (arr s) (off s + i) (len s - i) (cap s - i)) = drop i (read h s).
Proof.
  intros Hwf Hi. unfold read, array. cbn [arr off len].
  rewrite <- (drop_drop _ i (off s)) || rewrite <- drop_drop. by rewrite skipn_firstn_comm.
Qed.

Section Updates.
Context (h : heap T) (s : slice_header) (Hwf : wf h s).

Lemma update_assign i v : 0 <= i < Z.of_nat (len s) ->
  exists h', assign s i v h = Done h' /\ read h' s = <[Z.to_nat i := v]> (read h s).
Proof.
  intros Hi. unfold assign. rewrite (proj2 (Z.leb_le 0 i)), (proj2 (Z.ltb_lt i _)) by lia. cbn [andb].
  eexists. split; [done|]. pose proof (length_read h s Hwf) as Hl.
  rewrite read_write; [|done|lia|pose proof (wf_len _ _ Hwf); cbn; lia].
  rewrite insert_take_drop by lia. cbn [length app]. rewrite Nat.add_1_r, take_ge; [done|].
  rewrite length_app, length_take. cbn [length]. rewrite length_drop. lia.
Qed.

Lemma update_remove i : 0 <= i < Z.of_nat (len s) ->
  exists b a, subslice s 0 i = Done b /\ subslice s (i + 1) (Z.of_nat (len s)) = Done a /\
    read (append zeroT grow b (read h a) h).2 s =
    take (Z.to_nat i) (read h s) ++ drop (S (Z.to_nat i)) (read h s) ++ drop (length (read h s) - 1) (read h s).
Proof.
  intros Hi. pose proof (wf_len _ _ Hwf). pose proof (length_read h s Hwf) as Hl.
  rewrite !subslice_ok by lia. do 2 eexists. split; [done|]. split; [done|].
  rewrite Z.sub_0_r. change (Z.to_nat 0) with 0%nat. rewrite Nat.sub_0_r.
  replace (Z.to_nat (i + 1)) with (S (Z.to_nat i)) by lia.
  replace (Z.to_nat (Z.of_nat (len s) - (i + 1))) with (len s - S (Z.to_nat i))%nat by lia.
  rewrite read_suffix, append_prefix by (done || lia). rewrite length_drop, Hl.
  rewrite (proj2 (Nat.leb_le _ _)) by lia.
  replace (Z.to_nat i + (len s - S (Z.to_nat i)))%nat with (len s - 1)%nat by lia.
  apply take_ge. rewrite !length_app, length_take, !length_drop. lia.
Qed.

(** The inner append of [Insert] builds [v] and the elements after it in
    arrays of its own. *)
Lemma insert_tail v xs :
  let h1 := h ++ [[v]] in
  let r := append zeroT grow (mkSlice (length h) 0 1 1) xs h1 in
  read r.2 r.1 = v :: xs /\ array r.2 s = array h s /\ (length h < length r.2)%nat.
Proof.
  intros h1 r. subst r. unfold append, alloc. cbn [len cap]. pose proof (wf_arr _ _ Hwf).
  assert (Hlen : length h1 = S (length h)) by (unfold h1; rewrite length_app; cbn; lia).
  destruct (Nat.leb_spec (1 + length xs) 1); cbn [fst snd].
  - destruct xs; [|cbn in *; lia]. split_and!.
    + unfold read, array, write_at. cbn [arr off len].
      rewrite list_lookup_alter_eq. unfold h1. rewrite lookup_app_r, Nat.sub_diag by done. done.
    + rewrite array_write_other by (cbn; lia). unfold h1. by apply array_alloc.
    + unfold write_at. rewrite length_alter. lia.
  - split_and!.
    + rewrite read_fresh. unfold h1. rewrite read_fresh. cbn [take length Nat.add app].
      f_equal. by rewrite take_app_length.
    + rewrite array_alloc by lia. unfold h1. by apply array_alloc.
    + unfold alloc. cbn. rewrite length_app. lia.
Qed.

Lemma update_insert i v : 0 <= i <= Z.of_nat (len s) ->
  exists b a, subslice s 0 i = Done b /\ subslice s i (Z.of_nat (len s)) = Done a /\
    let r := append zeroT grow (mkSlice (length h) 0 1 1) (read (h ++ [[v]]) a) (h ++ [[v]]) in
    read (append zeroT grow b (read r.2 r.1) r.2).2 s =
    (if (len s <? cap s)%nat
     then take (len s) (take (Z.to_nat i) (read h s) ++ v :: drop (Z.to_nat i) (read h s)) else read h s).
Proof.
  intros Hi. pose proof (wf_len _ _ Hwf). pose proof (length_read h s Hwf) as Hl.
  rewrite !subslice_ok by lia. do 2 eexists. split; [done|]. split; [done|].
  rewrite Z.sub_0_r. change (Z.to_nat 0) with 0%nat. rewrite Nat.sub_0_r.
  replace (Z.to_nat (Z.of_nat (len s) - i)) with (len s - Z.to_nat i)%nat by lia.
  rewrite read_alloc, read_suffix by (done || apply Hwf || lia). intros r.
  destruct (insert_tail v (drop (Z.to_nat i) (read h s))) as (Hr & Ha & Hlen). fold r in Hr, Ha, Hlen.
  assert (Hread : read r.2 s = read h s) by (unfold read; by rewrite Ha).
  assert (Hwf' : wf r.2 s) by (destruct Hwf; constructor; [lia|by rewrite Ha|done]).
  rewrite append_prefix by (done || lia). rewrite Hr, Hread. cbn [length]. rewrite length_drop, Hl.
  replace (Z.to_nat i + S (len s - Z.to_nat i))%nat with (S (len s)) by lia.
  change (S (len s) <=? cap s)%nat with (len s <? cap s)%nat.
  rewrite (drop_ge (read h s) (S (len s))), app_nil_r by lia. done.
Qed.

Lemma append_keeps xs : read (append zeroT grow s xs h).2 s = read h s.
Proof.
  pose proof (wf_len _ _ Hwf). pose proof (length_read h s Hwf) as Hl. unfold append.
  destruct (Nat.leb_spec (len s + length xs) (cap s)); cbn [snd]; [|apply read_alloc, Hwf].
  rewrite read_write by (done || lia). rewrite take_app_le, take_take by (rewrite length_take; lia).
  rewrite take_ge; [done|lia].
Qed.
End Updates.
End SliceFacts.

(** Once the accessor holds a slice, no mutating method of the slice accessor
    ever succeeds: each refuses its arguments and changes nothing, or panics
    without a write to the root, whose value, version, history and subscribers
    stay as they were, after its update function has already written to the
    elements every reader sees. *)
Theorem slice_mutations_panic {T} (zeroT : T) grow clock env (m : @mutation T) (h : heap T) a s :
  value a = Some s -> value (env 0%nat a) = Some s -> wf h s -> is_Some (value (env 1%nat (env 0%nat a))) ->
  match mutate zeroT grow clock env m (h, a) with
  | (Done r, st) => r = false /\ st = (h, a)
  | (Panic, (h', a')) =>
      (a' = env 0%nat a \/ a' = env 1%nat (env 0%nat a)) /\
      read h' s = left_behind m (len s <? cap s)%nat (read h s)
  end.
Proof.
  intros Hv0 Hv Hwf Henv. pose proof (length_read h s Hwf) as Hl.
  assert (HG : Get a = s) by (unfold Get; by rewrite Hv0).
  destruct m as [i v|xs|i|i v| |n]; cbn [mutate left_behind].
  - unfold Assign, out_of_range. cbn [snd]. rewrite HG.
    destruct (Z.ltb_spec (Z.of_nat (len s) - 1) i), (Z.ltb_spec i 0); cbn [orb]; try done.
    rewrite (transact_panics clock env _ h a s Hv Henv).
    destruct (update_assign h s Hwf i v ltac:(lia)) as (h' & -> & ->). auto.
  - unfold Append. rewrite (transact_panics clock env _ h a s Hv Henv).
    pose proof (append_keeps zeroT grow h s Hwf xs) as E. destruct (append zeroT grow s xs h). auto.
  - unfold Remove, out_of_range. cbn [snd]. rewrite HG.
    destruct (Z.ltb_spec (Z.of_nat (len s) - 1) i), (Z.ltb_spec i 0); cbn [orb]; try done.
    rewrite (transact_panics clock env _ h a s Hv Henv).
    destruct (update_remove zeroT grow h s Hwf i ltac:(lia)) as (b & af & -> & -> & E).
    destruct (append _ _ b _ h). auto.
  - unfold Insert. rewrite (transact_panics clock env _ h a s Hv Henv), Hl.
    destruct (decide (0 <= i <= Z.of_nat (len s))) as [Hi|Hi].
    + rewrite (proj2 (Z.leb_le 0 i)), (proj2 (Z.leb_le i _)) by lia. cbn [andb].
      destruct (update_insert zeroT grow h s Hwf i v Hi) as (b & af & -> & -> & E). cbn [alloc].
      destruct (append _ _ (mkSlice _ _ _ _) _ _) as [tl h2]. cbn [fst snd] in E.
      destruct (append _ _ b _ h2). auto.
    + assert (((0 <=? i) && (i <=? Z.of_nat (len s))) = false) as ->
        by (destruct (Z.leb_spec 0 i), (Z.leb_spec i (Z.of_nat (len s))); done || lia). cbn [andb].
      assert (subslice s i (Z.of_nat (len s)) = Panic) as ->
        by (unfold subslice; destruct (Z.leb_spec 0 i), (Z.leb_spec i (Z.of_nat (len s))); done || lia).
      destruct (subslice s 0 i); auto.
  - unfold Clear. rewrite (transact_panics clock env _ h a s Hv Henv). cbn.
    split; [auto|]. apply read_alloc, Hwf.
  - unfold Resize. destruct (Z.ltb_spec n 0); [done|].
    rewrite (transact_panics clock env _ h a s Hv Henv). cbn [make alloc].
    set (new := mkSlice _ _ _ _).
    pose proof (copy_loop_frame (Z.to_nat n) 0 new s s (h ++ [replicate (Z.to_nat n) zeroT])) as E.
    rewrite read_alloc in E by apply Hwf.
    destruct (copy_loop _ _ _ _ _) as [[|] h']; (split; [auto|]; apply E;
      [cbn; pose proof (wf_arr _ _ Hwf); lia|rewrite length_app; pose proof (wf_arr _ _ Hwf); lia]).
Qed.

(** Three elements in an array of four: [Insert] panics and loses the last. *)
Lemma slice_mutations_panic_witness :
  let s := mkSlice 0 0 3 4 in let h := [[10; 20; 30; 0]] in
  let r := mutate 0 (fun _ n => n) (fun _ => 0) undisturbed (MInsert 1 15) (h, NewFA 0 [s]) in
  r.1 = Panic /\ r.2.2 = NewFA 0 [s] /\ read r.2.1 s = [10; 15; 20].
Proof.
  intros s h r.
  pose proof (slice_mutations_panic 0 (fun _ n => n) (fun _ => 0) undisturbed (MInsert 1 15) h (NewFA 0 [s]) s) as E.
  destruct (mutate 0 (fun _ n => n) (fun _ => 0) undisturbed (MInsert 1 15) (h, NewFA 0 [s]))
    as [[b|] [h' a']] eqn:Er; [vm_compute in Er; discriminate|].
  subst r. cbn [fst snd].
  destruct E as [Ha ->]; [reflexivity|reflexivity|constructor; cbn; lia|eexists; reflexivity|].
  split; [reflexivity|]. split; [by destruct Ha|reflexivity].
Defined.

Lemma reverse_loop_lookup {T} (zeroT : T) (l : list T) fuel : forall i j r,
  length r = length l -> (i + j + 1 = length l)%nat -> (j <= fuel + i)%nat -> (i <= j + 1)%nat ->
  (forall k, (k < length l)%nat ->
     r !! k = Some (if bool_decide (k < i \/ j < k)%nat then default zeroT (l !! (length l - 1 - k)%nat) else zeroT)) ->
  forall k, (k < length l)%nat ->
    reverse_loop zeroT fuel i j l r !! k =
    Some (if bool_decide (k = length l - 1 - k)%nat then zeroT else default zeroT (l !! (length l - 1 - k)%nat)).
Proof.
  induction fuel as [|fuel IH]; intros i j r Hr Hij Hf Hle Hk k Hkl; cbn [reverse_loop].
  - rewrite Hk by done. do 2 case_bool_decide; try lia; done.
  - destruct (Nat.ltb_spec i j).
    + apply IH; [by rewrite !length_insert|lia|lia|lia| |done].
      intros k' Hk'. destruct (decide (k' = j)) as [->|Hj].
      { rewrite list_lookup_insert_eq by (rewrite length_insert; lia).
        rewrite bool_decide_true by lia. do 3 f_equal. lia. }
      rewrite list_lookup_insert_ne by done. destruct (decide (k' = i)) as [->|Hi].
      { rewrite list_lookup_insert_eq by lia. rewrite bool_decide_true by lia. do 3 f_equal. lia. }
      rewrite list_lookup_insert_ne, Hk by done. do 2 case_bool_decide; try lia; done.
    + rewrite Hk by done. do 2 case_bool_decide; try lia; done.
Qed.

Lemma length_reverse_loop {T} (zeroT : T) l fuel : forall i j r,
  length (reverse_loop zeroT fuel i j l r) = length r.
Proof.
  induction fuel as [|fuel IH]; intros i j r; cbn [reverse_loop]; [done|].
  destruct (i <? j)%nat; [|done]. by rewrite IH, !length_insert.
Qed.

(** [Reverse] returns the elements in reverse order, except that the middle
    element of an odd number of elements is the zero value. *)
Theorem Reverse_middle {T} (zeroT : T) (h : heap T) a :
  let l := read h (Get a) in
  Reverse zeroT (h, a) = (if Nat.odd (length l) then <[(length l / 2)%nat := zeroT]> (reverse l) else reverse l).
Proof.
  intros l. unfold Reverse. cbn [fst snd]. fold l.
  destruct (decide (l = [])) as [->|Hne]; [done|].
  assert (Hpos : (0 < length l)%nat) by (destruct l; [done|cbn; lia]).
  pose proof (Nat.div_mod_eq (length l) 2) as Hdm. rewrite <- Nat.bit0_mod, Nat.bit0_odd in Hdm.
  apply list_eq_same_length with (length l).
  { destruct (Nat.odd _); rewrite ?length_insert; apply length_reverse. }
  { by rewrite length_reverse_loop, length_replicate. }
  intros k x y Hk H1 H2.
  rewrite (reverse_loop_lookup zeroT l) in H1; [|by rewrite length_replicate|lia|lia|lia| |done].
  2: { intros k' Hk'. rewrite lookup_replicate_2 by done. case_bool_decide; [lia|done]. }
  assert (Hrev : reverse l !! k = Some (default zeroT (l !! (length l - 1 - k)%nat))).
  { rewrite reverse_lookup by done. replace (length l - S k)%nat with (length l - 1 - k)%nat by lia.
    destruct (lookup_lt_is_Some_2 l (length l - 1 - k) ltac:(lia)) as [z Hz]. by rewrite Hz. }
  destruct (Nat.odd (length l)); cbn [Nat.b2n] in Hdm.
  - destruct (decide (k = length l / 2)%nat) as [E|E].
    + rewrite <- E, list_lookup_insert_eq in H2 by (by rewrite length_reverse).
      rewrite bool_decide_true in H1 by lia. congruence.
    + rewrite list_lookup_insert_ne in H2 by done. rewrite bool_decide_false in H1 by lia. congruence.
  - rewrite bool_decide_false in H1 by lia. congruence.
Qed.
