(* ===== verification/Server.v ===== *)
(** * The server ([src/internal/server/server.go])

    Sessions, groups and scopes, and the goroutines that work on them: the
    acceptor, one handler per session and the health monitor. A session is
    shared between the client table and its handler, so sessions are kept by
    identifier and the table is a set of identifiers. Each step below is one
    atomic operation on shared state, except that the handling of one message
    is a single step: it only touches its own session and that client's place
    in the tables. *)
From S2P Require Import Prelude Messages Streams Connections.
From Stdlib Require Import ZArith Lia Strings.Byte Strings.String.
From stdpp Require Import base tactics list strings gmap sets fin_maps fin_sets relations.
Open Scope Z_scope.

Inductive server_error : Type :=
  | ErrServerClosed | ErrServerNotRunning | ErrServerAlreadyRunning | ErrMaxClientsReached
  | ErrClientNotFound | ErrGroupNotFound | ErrScopeNotFound | ErrInvalidMessage | ErrInvalidConfig
  | ErrListenerFailed | ErrTransportFailed
  | ErrListen (e : Errors.error).

(** What the server needs of [protocol.Connection]: sending a message of the
    pool, and closing. *)
Class ServerConn (C : Type) : Type := {
  conn_send : Pool.loc -> Pool.MessagePool -> C -> Pool.MessagePool * C * option Errors.error;
  conn_close : C -> C
}.

(** The connections of [Connections.v], with the transport's counters. *)
#[export] Instance quic_server_conn {Conn Raw} `{RS : Streams.RawStream Raw, !QuicConn Conn Raw} :
    ServerConn (@Connection Conn Raw * Transport.BaseTransport) := {|
  conn_send l p c := let '(p, k, err) := Connections.SendMessage l p c.1 in (p, (k, c.2), err);
  conn_close c := (Connections.Close c.1 c.2).1
|}.

Record ControlMessage : Type := mkControl { Action : string; CGroup : string; CScope : string; CData : gmap string any }.

(** Durations in nanoseconds; the log level and the custom options are left out. *)
Record Config : Type := mkConfig {
  ListenAddr : string;
  MaxClients : Z;
  MessageTimeout : Z;
  MaxMessageSize : Z;
  MessageBufferSize : Z;
  MaxGroups : Z;
  MaxGroupMembers : Z;
  MaxScopes : Z;
  MaxScopeDataSize : Z;
  HealthCheckInterval : Z;
  ClientTimeout : Z
}.
Definition second : Z := 1000000000.
Definition DefaultServerConfig : Config := {|
  ListenAddr := "127.0.0.1:8080";
  MaxClients := 10000;
  MessageTimeout := 10 * second;
  MaxMessageSize := 1024 * 1024;
  MessageBufferSize := 1000;
  MaxGroups := 1000;
  MaxGroupMembers := 10000;
  MaxScopes := 500;
  MaxScopeDataSize := 100 * 1024 * 1024;
  HealthCheckInterval := 30 * second;
  ClientTimeout := 5 * 60 * second
|}.
(** The default configuration with another limit of clients. *)
Definition limited_to (n : Z) : Config :=
  mkConfig (ListenAddr DefaultServerConfig) n (MessageTimeout DefaultServerConfig) (MaxMessageSize DefaultServerConfig)
    (MessageBufferSize DefaultServerConfig) (MaxGroups DefaultServerConfig) (MaxGroupMembers DefaultServerConfig)
    (MaxScopes DefaultServerConfig) (MaxScopeDataSize DefaultServerConfig) (HealthCheckInterval DefaultServerConfig)
    (ClientTimeout DefaultServerConfig).

(** ** Groups and scopes *)
Record Members : Type := mkMembers { Clients : gset ClientID; ClientCount : Z }.
Definition no_members : Members := mkMembers ∅ 0.

Record Group : Type := mkGroup { GName : string; GMembers : Members; GCreatedAt : Z }.
Record Scope : Type := mkScope {
  ScName : string; ScMembers : Members; Data : gmap string (list byte); DataSize : Z; ScCreatedAt : Z }.

(** [LoadOrStore] and [LoadAndDelete] with the count. *)
Definition join_member (id : ClientID) (m : Members) : Members :=
  if decide (id ∈ Clients m) then m else mkMembers ({[id]} ∪ Clients m) (wrapS 64 (ClientCount m + 1)).
Definition leave_member (id : ClientID) (m : Members) : Members :=
  if decide (id ∈ Clients m) then mkMembers (Clients m ∖ {[id]}) (wrapS 64 (ClientCount m - 1)) else m.

Definition on_group (f : Members -> Members) (g : Group) : Group := mkGroup (GName g) (f (GMembers g)) (GCreatedAt g).
Definition on_scope (f : Members -> Members) (sc : Scope) : Scope :=
  mkScope (ScName sc) (f (ScMembers sc)) (Data sc) (DataSize sc) (ScCreatedAt sc).

Section Server.
Context {C : Type} {SC : ServerConn C}.
(** [json.Unmarshal] into a [ControlMessage]. *)
Context (Unmarshal : list byte -> option ControlMessage).

Record ClientSession : Type := mkSession {
  Connection : C;
  SGroups : gset string;
  SScopes : gset string;
  ConnectedAt : Z;
  LastSeen : Z;
  Active : bool
}.

(** Where a goroutine of [acceptConnections] is: at the loop's test, in
    [Accept], past the limit's test, past the [Store], or returned. *)
Inductive acceptor : Type :=
  | ATop | AWaiting | AChecked (conn : C) | AStored (id : ClientID) | AExit.
(** Where a goroutine of [handleClient] is: at its loop's test, receiving, or in
    the deferred function before the operation named. *)
Inductive handler : Type := HLoop | HReceive | HDelete | HCount | HGroups | HScopes | HClose.

Record Server : Type := mkServer {
  config : Config;
  running : bool;
  closed : bool;
  stopped : bool;                         (* [stopChan] is closed *)
  sessions : gmap ClientID ClientSession;
  clients : gset ClientID;
  clientCount : Z;
  groups : gmap string Group;
  groupCount : Z;
  scopes : gmap string Scope;
  scopeCount : Z;
  pool : Pool.MessagePool;
  acceptors : list acceptor;
  handlers : gmap ClientID handler
}.

Definition NewServer (cfg : Config) (p : Pool.MessagePool) : Server :=
  mkServer cfg false false false ∅ ∅ 0 ∅ 0 ∅ 0 p [] ∅.

Definition set_life (r c st : bool) (acc : list acceptor) (s : Server) : Server :=
  mkServer (config s) r c st (sessions s) (clients s) (clientCount s) (groups s) (groupCount s)
    (scopes s) (scopeCount s) (pool s) acc (handlers s).
Definition set_acceptors (acc : list acceptor) (s : Server) : Server :=
  set_life (running s) (closed s) (stopped s) acc s.
Definition set_sessions (ss : gmap ClientID ClientSession) (s : Server) : Server :=
  mkServer (config s) (running s) (closed s) (stopped s) ss (clients s) (clientCount s) (groups s)
    (groupCount s) (scopes s) (scopeCount s) (pool s) (acceptors s) (handlers s).
Definition set_clients (cl : gset ClientID) (n : Z) (s : Server) : Server :=
  mkServer (config s) (running s) (closed s) (stopped s) (sessions s) cl n (groups s)
    (groupCount s) (scopes s) (scopeCount s) (pool s) (acceptors s) (handlers s).
Definition set_tables (g : gmap string Group) (sc : gmap string Scope) (s : Server) : Server :=
  mkServer (config s) (running s) (closed s) (stopped s) (sessions s) (clients s) (clientCount s) g
    (groupCount s) sc (scopeCount s) (pool s) (acceptors s) (handlers s).
Definition set_pool (p : Pool.MessagePool) (s : Server) : Server :=
  mkServer (config s) (running s) (closed s) (stopped s) (sessions s) (clients s) (clientCount s) (groups s)
    (groupCount s) (scopes s) (scopeCount s) p (acceptors s) (handlers s).
Definition set_handlers (h : gmap ClientID handler) (s : Server) : Server :=
  mkServer (config s) (running s) (closed s) (stopped s) (sessions s) (clients s) (clientCount s) (groups s)
    (groupCount s) (scopes s) (scopeCount s) (pool s) (acceptors s) h.

Definition on_session (f : ClientSession -> ClientSession) (id : ClientID) (s : Server) : Server :=
  set_sessions (alter f id (sessions s)) s.
Definition set_conn (c : C) (ss : ClientSession) : ClientSession :=
  mkSession c (SGroups ss) (SScopes ss) (ConnectedAt ss) (LastSeen ss) (Active ss).
Definition set_names (g sc : gset string) (ss : ClientSession) : ClientSession :=
  mkSession (Connection ss) g sc (ConnectedAt ss) (LastSeen ss) (Active ss).
Definition set_seen (now : Z) (ss : ClientSession) : ClientSession :=
  mkSession (Connection ss) (SGroups ss) (SScopes ss) (ConnectedAt ss) now (Active ss).
Definition set_active (b : bool) (ss : ClientSession) : ClientSession :=
  mkSession (Connection ss) (SGroups ss) (SScopes ss) (ConnectedAt ss) (LastSeen ss) b.
Definition close_session (ss : ClientSession) : ClientSession := set_conn (conn_close (Connection ss)) ss.

(** ** Life of the server *)

(** [Start], with the result of [transport.Listen]. *)
Definition Start (listen : option Errors.error) (s : Server) : Server * option server_error :=
  if closed s then (s, Some ErrServerClosed)
  else if running s then (s, Some ErrServerAlreadyRunning)
  else match listen with
       | Some e => (set_life false (closed s) (stopped s) (acceptors s) s, Some (ErrListen e))
       | None => (set_life true (closed s) (stopped s) (acceptors s ++ [ATop]) s, None)
       end.

(** [Stop]: closing the channel a second time panics. *)
Definition Stop (s : Server) : outcome (Server * option server_error) :=
  if negb (running s) then Done (s, Some ErrServerNotRunning)
  else if stopped s then Panic
  else
    let s := set_life false (closed s) true (acceptors s) s in
    Done (set_sessions (map_imap (fun id ss => Some (if decide (id ∈ clients s) then close_session ss else ss))
                          (sessions s)) s, None).

Definition Close (s : Server) : outcome (Server * option server_error) :=
  if closed s then Done (s, None)
  else
    let s := set_life (running s) true (stopped s) (acceptors s) s in
    if running s then r ← Stop s; Done (r.1, None) else Done (s, None).

(** ** Accepting connections *)
Definition set_acceptor (k : nat) (a : acceptor) (s : Server) : Server :=
  set_acceptors (<[k := a]> (acceptors s)) s.

(** The loop's test. *)
Definition accept_test (k : nat) (s : Server) : Server :=
  set_acceptor k (if running s then AWaiting else AExit) s.
(** [Accept] returns an error. *)
Definition accept_failed (k : nat) (s : Server) : Server :=
  set_acceptor k (if running s then ATop else AExit) s.
(** [Accept] returns a connection; over the limit it is closed. *)
Definition accept_conn (k : nat) (c : C) (s : Server) : Server :=
  set_acceptor k (if MaxClients (config s) <=? clientCount s then ATop else AChecked c) s.
Definition accept_store (k : nat) (id : ClientID) (now : Z) (c : C) (s : Server) : Server :=
  set_acceptor k (AStored id)
    (set_clients ({[id]} ∪ clients s) (clientCount s)
       (set_sessions (<[id := mkSession c ∅ ∅ now now true]> (sessions s)) s)).
(** The count, and the session's goroutine. *)
Definition accept_count (k : nat) (id : ClientID) (s : Server) : Server :=
  set_acceptor k ATop
    (set_handlers (<[id := HLoop]> (handlers s))
       (set_clients (clients s) (wrapS 64 (clientCount s + 1)) s)).

(** ** Messages *)
Definition handleJoinGroup (now : Z) (id : ClientID) (groupName : string) (s : Server) : Server :=
  if decide (groupName = ""%string) then s
  else
    let group := default (mkGroup groupName no_members now) (groups s !! groupName) in
    on_session (fun ss => set_names ({[groupName]} ∪ SGroups ss) (SScopes ss) ss) id
      (set_tables (<[groupName := on_group (join_member id) group]> (groups s)) (scopes s) s).
Definition handleLeaveGroup (id : ClientID) (groupName : string) (s : Server) : Server :=
  if decide (groupName = ""%string) then s
  else on_session (fun ss => set_names (SGroups ss ∖ {[groupName]}) (SScopes ss) ss) id
         (set_tables (alter (on_group (leave_member id)) groupName (groups s)) (scopes s) s).
Definition handleSubscribeScope (now : Z) (id : ClientID) (scopeName : string) (s : Server) : Server :=
  if decide (scopeName = ""%string) then s
  else
    let scope := default (mkScope scopeName no_members ∅ 0 now) (scopes s !! scopeName) in
    on_session (fun ss => set_names (SGroups ss) ({[scopeName]} ∪ SScopes ss) ss) id
      (set_tables (groups s) (<[scopeName := on_scope (join_member id) scope]> (scopes s)) s).
Definition handleUnsubscribeScope (id : ClientID) (scopeName : string) (s : Server) : Server :=
  if decide (scopeName = ""%string) then s
  else on_session (fun ss => set_names (SGroups ss) (SScopes ss ∖ {[scopeName]}) ss) id
         (set_tables (groups s) (alter (on_scope (leave_member id)) scopeName (scopes s)) s).

Definition handleControlMessage (now : Z) (id : ClientID) (payload : list byte) (s : Server) : Server :=
  match Unmarshal payload with
  | None => s
  | Some m =>
      if decide (Action m = "join_group"%string) then handleJoinGroup now id (CGroup m) s
      else if decide (Action m = "leave_group"%string) then handleLeaveGroup id (CGroup m) s
      else if decide (Action m = "subscribe_scope"%string) then handleSubscribeScope now id (CScope m) s
      else if decide (Action m = "unsubscribe_scope"%string) then handleUnsubscribeScope id (CScope m) s
      else s
  end.

(** Sending on the session's connection; the error is only logged. *)
Definition send_to (id : ClientID) (l : Pool.loc) (s : Server) : Server :=
  match sessions s !! id with
  | None => s
  | Some ss =>
      let '(p, c, _) := conn_send l (pool s) (Connection ss) in
      set_pool p (on_session (set_conn c) id s)
  end.

(** What the pool and the clock give for a reply built with [NewMessageBuilder]. *)
Record fresh_message : Type := mkFresh { choice : option nat; fresh : Pool.loc; mid : MessageID; mnow : Z }.

(** Building a reply and sending it. *)
Definition reply (f : fresh_message) (typ : Z) (text : list byte) (id : ClientID) (s : Server) : Server :=
  let '(p, l) := Pool.Get (pool s) (choice f) (fresh f) (mid f) (mnow f) in
  let msg := WithTarget id (WithPayload text (WithType typ (default Pool.blank (Pool.heap p !! l)))) in
  let p := Pool.mkPool (<[l := msg]> (Pool.heap p)) (Pool.free p) (Pool.gets p) (Pool.puts p) in
  send_to id l (set_pool p s).

Definition echo_prefix : list byte := [x45; x63; x68; x6f; x3a; x20].
Definition pong : list byte := [x70; x6f; x6e; x67].
Definition handleDataMessage (f : fresh_message) (id : ClientID) (payload : list byte) (s : Server) : Server :=
  reply f MessageTypeData (echo_prefix ++ payload) id s.
Definition handleHeartbeatMessage (f : fresh_message) (id : ClientID) (s : Server) : Server :=
  reply f MessageTypeHeartbeat pong id s.

(** The [switch] of [handleMessage]. *)
Definition dispatch (f : fresh_message) (now : Z) (id : ClientID) (msg : Message) (s : Server) : Server :=
  if Type_ msg =? MessageTypeControl then handleControlMessage now id (Payload msg) s
  else if Type_ msg =? MessageTypeData then handleDataMessage f id (Payload msg) s
  else if Type_ msg =? MessageTypeHeartbeat then handleHeartbeatMessage f id s
  else s.
Definition handleMessage (f : fresh_message) (now : Z) (id : ClientID) (l : Pool.loc) (s : Server) : Server :=
  let s := dispatch f now id (default Pool.blank (Pool.heap (pool s) !! l)) s in
  set_pool (Pool.Release (pool s) l) s.

(** ** The handler of a session *)
Definition set_handler (id : ClientID) (h : handler) (s : Server) : Server :=
  set_handlers (<[id := h]> (handlers s)) s.
Definition is_active (id : ClientID) (s : Server) : bool :=
  match sessions s !! id with Some ss => Active ss | None => false end.

(** The loop's test. *)
Definition handler_test (id : ClientID) (s : Server) : Server :=
  set_handler id (if is_active id s then HReceive else HDelete) s.
(** [ReceiveMessage] returns: an error, the timeout of [MessageTimeout]
    included, ends the loop. *)
Definition handler_received (f : fresh_message) (now : Z) (id : ClientID)
    (r : result Errors.error (option Pool.loc)) (s : Server) : Server :=
  match r with
  | Err _ => set_handler id HDelete s
  | Ok None => set_handler id HLoop s
  | Ok (Some l) => set_handler id HLoop (handleMessage f now id l (on_session (set_seen now) id s))
  end.

Definition removeClientFromAllGroups (id : ClientID) (s : Server) : Server :=
  set_tables (on_group (leave_member id) <$> groups s) (scopes s) s.
Definition removeClientFromAllScopes (id : ClientID) (s : Server) : Server :=
  set_tables (groups s) (on_scope (leave_member id) <$> scopes s) s.

(** One operation of the deferred function. *)
Definition handler_leave (id : ClientID) (h : handler) (s : Server) : Server :=
  match h with
  | HLoop | HReceive => s
  | HDelete => set_handler id HCount (set_clients (clients s ∖ {[id]}) (clientCount s) s)
  | HCount => set_handler id HGroups (set_clients (clients s) (wrapS 64 (clientCount s - 1)) s)
  | HGroups => set_handler id HScopes (removeClientFromAllGroups id s)
  | HScopes => set_handler id HClose (removeClientFromAllScopes id s)
  | HClose => set_handlers (delete id (handlers s)) (on_session close_session id s)
  end.

(** ** Health checks, broadcast, statistics *)
Definition timed_out (now : Z) (s : Server) (id : ClientID) : bool :=
  match sessions s !! id with
  | Some ss => Z.quot (ClientTimeout (config s)) second <? wrapS 64 (now - LastSeen ss)
  | None => false
  end.
Definition inactive_clients (now : Z) (s : Server) : list ClientID :=
  filter (fun id => timed_out now s id = true) (elements (clients s)).
(** The second loop of [performHealthChecks]: a client that left meanwhile is
    not in the table any more. *)
Definition disconnect (ids : list ClientID) (s : Server) : Server :=
  foldl (fun s id => if decide (id ∈ clients s) then on_session (set_active false) id s else s) s ids.
Definition performHealthChecks (now : Z) (s : Server) : Server := disconnect (inactive_clients now s) s.

(** The clients a goroutine sends the message to. *)
Definition BroadcastToGroup (groupName : string) (s : Server) : result server_error (list ClientID) :=
  match groups s !! groupName with
  | None => Err ErrGroupNotFound
  | Some g => Ok (filter (fun id => id ∈ clients s) (elements (Clients (GMembers g))))
  end.

(** Its goroutines, in the order they run. *)
Definition broadcast_sends (l : Pool.loc) (ids : list ClientID) (s : Server) : Server :=
  foldl (fun s id => send_to id l s) s ids.

Record Stats : Type := mkStats { StClientCount : Z; StGroupCount : Z; StScopeCount : Z; StRunning : bool }.
Definition GetStats (s : Server) : Stats := mkStats (clientCount s) (groupCount s) (scopeCount s) (running s).

(** ** Steps

    Identifiers are generated fresh. [step_send] is a goroutine of a broadcast;
    [step_disconnect] a round of the health monitor, whatever it collected. *)
Inductive step : Server -> Server -> Prop :=
  | step_start e s : step s (Start e s).1
  | step_stop s s' err : Stop s = Done (s', err) -> step s s'
  | step_close s s' err : Close s = Done (s', err) -> step s s'
  | step_accept_test k s : acceptors s !! k = Some ATop -> step s (accept_test k s)
  | step_accept_failed k s : acceptors s !! k = Some AWaiting -> step s (accept_failed k s)
  | step_accept_conn k c s : acceptors s !! k = Some AWaiting -> step s (accept_conn k c s)
  | step_accept_store k c id now s : acceptors s !! k = Some (AChecked c) -> sessions s !! id = None ->
      step s (accept_store k id now c s)
  | step_accept_count k id s : acceptors s !! k = Some (AStored id) -> step s (accept_count k id s)
  | step_handler_test id s : handlers s !! id = Some HLoop -> step s (handler_test id s)
  | step_handler_received f now id r s : handlers s !! id = Some HReceive ->
      step s (handler_received f now id r s)
  | step_handler_leave id h s : handlers s !! id = Some h -> step s (handler_leave id h s)
  | step_send id l s : step s (send_to id l s)
  | step_disconnect ids s : step s (disconnect ids s)
  | step_pool p s : step s (set_pool p s).

Definition reachable (cfg : Config) (s : Server) : Prop := exists p, rtc step (NewServer cfg p) s.

(** The message at [l] asks to join [name]. *)
Definition asks_to_join (name : string) (l : Pool.loc) (s : Server) : Prop :=
  let msg := default Pool.blank (Pool.heap (pool s) !! l) in
  Type_ msg = MessageTypeControl /\ name <> ""%string /\
  exists m, Unmarshal (Payload msg) = Some m /\ Action m = "join_group"%string /\ CGroup m = name.
(** On the way to [s] the handler of some client got such a message. *)
Definition was_joined (cfg : Config) (name : string) (s : Server) : Prop :=
  exists p s0 f now id l, rtc step (NewServer cfg p) s0 /\ handlers s0 !! id = Some HReceive /\ asks_to_join name l s0 /\
    rtc step (handler_received f now id (Ok (Some l)) s0) s.
End Server.
Arguments ClientSession : clear implicits.
Arguments Server : clear implicits.
Arguments acceptor : clear implicits.

(** ** Tables of members

    Groups and scopes are seen as one map from names to members. *)
Section Tables.
Implicit Types (t : gmap string Members) (id : ClientID) (name : string).

Definition in_table t name id : Prop := exists m, t !! name = Some m /\ id ∈ Clients m.
(** Every count is the number of members. *)
Definition counted t : Prop :=
  forall name m, t !! name = Some m -> ClientCount m = wrapS 64 (Z.of_nat (size (Clients m))).

Definition table_join id name t : gmap string Members :=
  <[name := join_member id (default no_members (t !! name))]> t.
Definition table_leave id name t : gmap string Members := alter (leave_member id) name t.
Definition table_purge id t : gmap string Members := leave_member id <$> t.

Lemma join_Clients id m : Clients (join_member id m) = {[id]} ∪ Clients m.
Proof. unfold join_member. case_decide; [set_solver|done]. Qed.

Lemma leave_Clients id m : Clients (leave_member id m) = Clients m ∖ {[id]}.
Proof. unfold leave_member. case_decide; [done|set_solver]. Qed.

Lemma join_counted id m : ClientCount m = wrapS 64 (Z.of_nat (size (Clients m))) ->
  ClientCount (join_member id m) = wrapS 64 (Z.of_nat (size (Clients (join_member id m)))).
Proof.
  intros E. unfold join_member. case_decide; [done|]. cbn.
  rewrite E, wrapS_add_l, size_union, size_singleton by (done || set_solver). f_equal. lia.
Qed.

Lemma leave_counted id m : ClientCount m = wrapS 64 (Z.of_nat (size (Clients m))) ->
  ClientCount (leave_member id m) = wrapS 64 (Z.of_nat (size (Clients (leave_member id m)))).
Proof.
  intros E. unfold leave_member. case_decide as Hin; [|done]. cbn.
  assert (size (Clients m) = S (size (Clients m ∖ {[id]}))) as Hs.
  { rewrite (union_difference_L {[id]} (Clients m)) at 1 by set_solver.
    rewrite size_union, size_singleton by set_solver. done. }
  rewrite E, Hs. replace (wrapS 64 (Z.of_nat (S (size (Clients m ∖ {[id]})))) - 1)
    with (wrapS 64 (Z.of_nat (S (size (Clients m ∖ {[id]})))) + (-1)) by lia.
  rewrite wrapS_add_l by lia. f_equal. lia.
Qed.

Lemma counted_join id name t : counted t -> counted (table_join id name t).
Proof.
  intros Hc n m. unfold table_join. destruct (decide (n = name)) as [->|Hne].
  - rewrite lookup_insert_eq. intros [= <-]. apply join_counted.
    destruct (t !! name) eqn:E; [by apply (Hc name)|done].
  - rewrite lookup_insert_ne by done. apply Hc.
Qed.

Lemma counted_leave id name t : counted t -> counted (table_leave id name t).
Proof.
  intros Hc n m. unfold table_leave. destruct (decide (n = name)) as [->|Hne].
  - rewrite lookup_alter_eq. destruct (t !! name) eqn:E; [|done]. intros [= <-].
    by apply leave_counted, (Hc name).
  - rewrite lookup_alter_ne by done. apply Hc.
Qed.

Lemma counted_purge id t : counted t -> counted (table_purge id t).
Proof.
  intros Hc n m. unfold table_purge. rewrite lookup_fmap. destruct (t !! n) eqn:E; [|done].
  intros [= <-]. by apply leave_counted, (Hc n).
Qed.

Lemma in_table_join id name t name' id' :
  in_table (table_join id name t) name' id' <-> (id' = id /\ name' = name) \/ in_table t name' id'.
Proof.
  unfold in_table, table_join. destruct (decide (name' = name)) as [->|Hne].
  - rewrite lookup_insert_eq. setoid_rewrite (inj_iff Some). split.
    + intros (m & <- & Hin). rewrite join_Clients in Hin.
      apply elem_of_union in Hin as [Hin|Hin]; [left; set_solver|right].
      destruct (t !! name) as [m|]; [eauto|set_solver].
    + intros [[-> _]|(m & E & Hin)]; eexists; (split; [done|]); rewrite join_Clients; [set_solver|].
      rewrite E. set_solver.
  - rewrite lookup_insert_ne by done. naive_solver.
Qed.

Lemma in_table_leave id name t name' id' :
  in_table (table_leave id name t) name' id' <-> in_table t name' id' /\ ~ (id' = id /\ name' = name).
Proof.
  unfold in_table, table_leave. destruct (decide (name' = name)) as [->|Hne].
  - rewrite lookup_alter_eq. destruct (t !! name) as [m|]; cbn; [|naive_solver].
    setoid_rewrite (inj_iff Some). split.
    + intros (m' & <- & Hin). rewrite leave_Clients in Hin. split; [exists m; set_solver|set_solver].
    + intros [(m' & <- & Hin) Hn]. eexists. split; [done|]. rewrite leave_Clients. set_solver.
  - rewrite lookup_alter_ne by done. naive_solver.
Qed.

Lemma in_table_purge id t name' id' :
  in_table (table_purge id t) name' id' <-> in_table t name' id' /\ id' <> id.
Proof.
  unfold in_table, table_purge. rewrite lookup_fmap. destruct (t !! name') as [m|]; cbn; [|naive_solver].
  setoid_rewrite (inj_iff Some). split.
  - intros (m' & <- & Hin). rewrite leave_Clients in Hin. split; [exists m; set_solver|set_solver].
  - intros [(m' & <- & Hin) Hn]. eexists. split; [done|]. rewrite leave_Clients. set_solver.
Qed.
End Tables.

(** ** Both sides of a membership agree

    [names] is what the sessions say, [h] where their handlers are, [pres]
    until when a handler keeps its client in the table. *)
Section Agreement.
Context (sel : gset string * gset string -> gset string) (pres : handler -> bool).
Implicit Types (t : gmap string Members) (id : ClientID) (name : string)
  (names : gmap ClientID (gset string * gset string)) (h : gmap ClientID handler).

Definition listed names h name id : Prop :=
  exists p hh, names !! id = Some p /\ h !! id = Some hh /\ pres hh = true /\ name ∈ sel p.
Definition agree t names h : Prop := forall name id, in_table t name id <-> listed names h name id.

Lemma listed_other names h names' h' name id :
  names' !! id = names !! id -> h' !! id = h !! id -> listed names' h' name id <-> listed names h name id.
Proof. intros E1 E2. unfold listed. by rewrite E1, E2. Qed.

Lemma listed_at names h name id p hh : names !! id = Some p -> h !! id = Some hh ->
  listed names h name id <-> pres hh = true /\ name ∈ sel p.
Proof. intros E1 E2. unfold listed. rewrite E1, E2. naive_solver. Qed.

Lemma agree_join t names h id name p p' hh : names !! id = Some p -> h !! id = Some hh -> pres hh = true ->
  sel p' = {[name]} ∪ sel p -> agree t names h -> agree (table_join id name t) (<[id := p']> names) h.
Proof.
  intros Hp Hh Hpres Hsel Ha name' id'. rewrite in_table_join, (Ha name' id').
  destruct (decide (id' = id)) as [->|Hne].
  - rewrite (listed_at names h name' id p hh), (listed_at _ h name' id p' hh) by
      (done || apply lookup_insert_eq). rewrite Hsel. set_solver.
  - rewrite (listed_other names h (<[id := p']> names) h) by (done || by rewrite lookup_insert_ne). tauto.
Qed.

Lemma agree_leave t names h id name p p' hh : names !! id = Some p -> h !! id = Some hh ->
  sel p' = sel p ∖ {[name]} -> agree t names h -> agree (table_leave id name t) (<[id := p']> names) h.
Proof.
  intros Hp Hh Hsel Ha name' id'. rewrite in_table_leave, (Ha name' id').
  destruct (decide (id' = id)) as [->|Hne].
  - rewrite (listed_at names h name' id p hh), (listed_at _ h name' id p' hh) by
      (done || apply lookup_insert_eq). rewrite Hsel. set_solver.
  - rewrite (listed_other names h (<[id := p']> names) h) by (done || by rewrite lookup_insert_ne). tauto.
Qed.

Lemma agree_names t names h id p p' : names !! id = Some p -> sel p' = sel p ->
  agree t names h -> agree t (<[id := p']> names) h.
Proof.
  intros Hp Hsel Ha name' id'. rewrite (Ha name' id'). destruct (decide (id' = id)) as [->|Hne].
  - destruct (h !! id) as [hh|] eqn:E.
    + rewrite (listed_at names h name' id p hh), (listed_at _ h name' id p' hh), Hsel by
        (done || apply lookup_insert_eq). done.
    + unfold listed. rewrite E. naive_solver.
  - apply listed_other; [by rewrite lookup_insert_ne|done].
Qed.

Lemma agree_handler t names h id hh hh' : h !! id = Some hh -> pres hh' = pres hh ->
  agree t names h -> agree t names (<[id := hh']> h).
Proof.
  intros Hh Hpres Ha name' id'. rewrite (Ha name' id'). destruct (decide (id' = id)) as [->|Hne].
  - destruct (names !! id) as [p|] eqn:E.
    + rewrite (listed_at names h name' id p hh), (listed_at names _ name' id p hh'), Hpres by
        (done || apply lookup_insert_eq). done.
    + unfold listed. rewrite E. naive_solver.
  - apply listed_other; [done|by rewrite lookup_insert_ne].
Qed.

Lemma agree_purge t names h id hh' : pres hh' = false ->
  agree t names h -> agree (table_purge id t) names (<[id := hh']> h).
Proof.
  intros Hpres Ha name' id'. rewrite in_table_purge, (Ha name' id'). destruct (decide (id' = id)) as [->|Hne].
  - unfold listed. rewrite lookup_insert_eq. split; [tauto|]. intros (? & ? & ? & [= <-] & ? & ?). congruence.
  - rewrite (listed_other names h names (<[id := hh']> h)) by (done || by rewrite lookup_insert_ne). tauto.
Qed.

Lemma agree_finish t names h id hh : h !! id = Some hh -> pres hh = false ->
  agree t names h -> agree t names (delete id h).
Proof.
  intros Hh Hpres Ha name' id'. rewrite (Ha name' id'). destruct (decide (id' = id)) as [->|Hne].
  - unfold listed. rewrite lookup_delete_eq, Hh. split; intros (? & ? & ? & [= <-] & ? & ?); congruence.
  - apply listed_other; [done|by rewrite lookup_delete_ne].
Qed.

Lemma agree_session t names h id p : names !! id = None -> h !! id = None ->
  agree t names h -> agree t (<[id := p]> names) h.
Proof.
  intros Hp Hh Ha name' id'. rewrite (Ha name' id'). destruct (decide (id' = id)) as [->|Hne].
  - unfold listed. rewrite Hh. split; intros (? & ? & ? & [=] & ?).
  - apply listed_other; [by rewrite lookup_insert_ne|done].
Qed.

Lemma agree_start t names h id p hh : names !! id = Some p -> h !! id = None -> sel p = ∅ ->
  agree t names h -> agree t names (<[id := hh]> h).
Proof.
  intros Hp Hh Hsel Ha name' id'. rewrite (Ha name' id'). destruct (decide (id' = id)) as [->|Hne].
  - unfold listed. rewrite lookup_insert_eq, Hh, Hp. split; [intros (? & ? & ? & [=] & ?)|].
    intros (? & ? & [= <-] & ? & ? & ?). set_solver.
  - apply listed_other; [done|by rewrite lookup_insert_ne].
Qed.
End Agreement.

(** ** The server's invariant *)
Section Invariant.
Context {C : Type} {SC : ServerConn C} (Unmarshal : list byte -> option ControlMessage).
Implicit Types (s : Server C) (id : ClientID) (acc : list (acceptor C)) (h : gmap ClientID handler)
  (names : gmap ClientID (gset string * gset string)) (cl : gset ClientID).

Definition is_stored (a : acceptor C) : bool := match a with AStored _ => true | _ => false end.
Definition is_checked (a : acceptor C) : bool := match a with AChecked _ => true | _ => false end.
Definition is_count (h : handler) : bool := match h with HCount => true | _ => false end.
(** Until when a handler's client is in the client table, in groups, in scopes. *)
Definition in_clients (h : handler) : bool := match h with HLoop | HReceive | HDelete => true | _ => false end.
Definition in_groups (h : handler) : bool := match h with HScopes | HClose => false | _ => true end.
Definition in_scopes (h : handler) : bool := match h with HClose => false | _ => true end.

Definition names_of s : gmap ClientID (gset string * gset string) :=
  (fun ss => (SGroups ss, SScopes ss)) <$> sessions s.
Definition group_table s : gmap string Members := GMembers <$> groups s.
Definition scope_table s : gmap string Members := ScMembers <$> scopes s.

(** The client table, its count, and how far the limit can be passed. *)
Record ClientsInv (mx : Z) names cl (n : Z) acc h : Prop := {
  ci_stored k id : acc !! k = Some (AStored id) -> id ∈ cl /\ h !! id = None /\ names !! id = Some (∅, ∅);
  ci_distinct k k' id : acc !! k = Some (AStored id) -> acc !! k' = Some (AStored id) -> k = k';
  ci_handler id hh : h !! id = Some hh -> is_Some (names !! id) /\ (id ∈ cl <-> in_clients hh = true);
  ci_client id : id ∈ cl -> is_Some (names !! id) /\ (is_Some (h !! id) \/ exists k, acc !! k = Some (AStored id));
  ci_count : n = wrapS 64 (Z.of_nat (size cl) - cnt is_stored acc + mcnt is_count h);
  ci_limit : Z.max 0 mx + Z.of_nat (length acc) < 2 ^ 63 ->
    Z.of_nat (size cl) + mcnt is_count h + cnt is_checked acc <=
    Z.max 0 mx + Z.max 0 (Z.of_nat (length acc) - 1)
}.

Record ServerInv s : Prop := {
  si_clients : ClientsInv (MaxClients (config s)) (names_of s) (clients s) (clientCount s) (acceptors s) (handlers s);
  si_groups : agree fst in_groups (group_table s) (names_of s) (handlers s);
  si_scopes : agree snd in_scopes (scope_table s) (names_of s) (handlers s);
  si_group_counts : counted (group_table s);
  si_scope_counts : counted (scope_table s);
  si_stats : groupCount s = 0 /\ scopeCount s = 0
}.

(** *** The client table *)

(** A goroutine of the acceptor moves between states outside the table. *)
Lemma ci_move mx names cl n acc h k a a' : ClientsInv mx names cl n acc h -> acc !! k = Some a ->
  is_stored a = false -> is_checked a = false -> is_stored a' = false -> is_checked a' = false ->
  ClientsInv mx names cl n (<[k := a']> acc) h.
Proof.
  intros [Hs Hd Hh Hc Hn Hl] Hk E1 E2 E3 E4. pose proof (lookup_lt_Some _ _ _ Hk) as Hlt.
  assert (Hold : forall j id, <[k := a']> acc !! j = Some (AStored id) -> acc !! j = Some (AStored id)).
  { intros j id Hj. destruct (decide (j = k)) as [->|Hne].
    - rewrite list_lookup_insert_eq in Hj by done. injection Hj as ->. done.
    - by rewrite list_lookup_insert_ne in Hj. }
  constructor; [eauto|eauto|done| | |].
  - intros id Hid. destruct (Hc id Hid) as [? [?|[j Hj]]]; split; auto. right. exists j.
    rewrite list_lookup_insert_ne; [done|]. intros <-. rewrite Hk in Hj. by injection Hj as ->.
  - rewrite (cnt_insert _ _ _ _ _ Hk), E1, E3, Hn. f_equal. lia.
  - rewrite length_insert, (cnt_insert _ _ _ _ _ Hk), E2, E4. intros Hb. specialize (Hl Hb). lia.
Qed.

(** [Start] adds a goroutine. *)
Lemma ci_start mx names cl n acc h : ClientsInv mx names cl n acc h -> ClientsInv mx names cl n (acc ++ [ATop]) h.
Proof.
  intros [Hs Hd Hh Hc Hn Hl].
  assert (Hold : forall j id, (acc ++ [ATop]) !! j = Some (AStored id) -> acc !! j = Some (AStored id)).
  { intros j id Hj. apply lookup_app_Some in Hj as [?|[_ Hj]]; [done|].
    apply list_lookup_singleton_Some in Hj as [_ [=]]. }
  constructor; [eauto|eauto|done| | |].
  - intros id Hid. destruct (Hc id Hid) as [? [?|[j Hj]]]; split; auto. right. exists j. by apply lookup_app_l_Some.
  - rewrite cnt_app, Hn. f_equal. cbn. lia.
  - rewrite length_app, cnt_app. cbn. intros Hb. specialize (Hl ltac:(lia)). lia.
Qed.

(** The limit's test. *)
Lemma ci_check mx names cl n acc h k c : ClientsInv mx names cl n acc h -> acc !! k = Some AWaiting ->
  n < mx -> ClientsInv mx names cl n (<[k := AChecked c]> acc) h.
Proof.
  intros [Hs Hd Hh Hc Hn Hl] Hk Hlt. pose proof (lookup_lt_Some _ _ _ Hk) as Hklt.
  assert (Hold : forall j id, <[k := AChecked c]> acc !! j = Some (AStored id) -> acc !! j = Some (AStored id)).
  { intros j id Hj. destruct (decide (j = k)) as [->|Hne].
    - by rewrite list_lookup_insert_eq in Hj.
    - by rewrite list_lookup_insert_ne in Hj. }
  constructor; [eauto|eauto|done| | |].
  - intros id Hid. destruct (Hc id Hid) as [? [?|[j Hj]]]; split; auto. right. exists j.
    rewrite list_lookup_insert_ne; [done|]. intros <-. congruence.
  - rewrite (cnt_insert _ _ _ _ _ Hk), Hn. f_equal. cbn. lia.
  - rewrite length_insert, (cnt_insert _ _ _ _ _ Hk). cbn. intros Hb. specialize (Hl Hb).
    assert (Htwo : cnt is_stored acc + cnt is_checked acc <= Z.of_nat (length acc) - 1)
      by (eapply cnt_two; [|exact Hk|done|done]; by intros []).
    pose proof (cnt_nonneg is_stored acc). pose proof (cnt_nonneg is_checked acc).
    pose proof (mcnt_nonneg is_count h).
    rewrite wrapS_id in Hn by (unfold in_s; lia). lia.
Qed.

Lemma clients_size_add cl id : id ∉ cl -> Z.of_nat (size ({[id]} ∪ cl)) = Z.of_nat (size cl) + 1.
Proof. intros. rewrite size_union, size_singleton by set_solver. lia. Qed.

Lemma clients_size_remove cl id : id ∈ cl -> Z.of_nat (size (cl ∖ {[id]})) = Z.of_nat (size cl) - 1.
Proof.
  intros Hin. assert (id ∉ cl ∖ {[id]}) as Hn by set_solver. pose proof (clients_size_add _ _ Hn) as E.
  replace ({[id]} ∪ cl ∖ {[id]}) with cl in E by (apply union_difference_L; set_solver). lia.
Qed.

(** [clients.Store] of a new session. *)
Lemma ci_store mx names cl n acc h k c id : ClientsInv mx names cl n acc h -> acc !! k = Some (AChecked c) ->
  names !! id = None ->
  ClientsInv mx (<[id := (∅, ∅)]> names) ({[id]} ∪ cl) n (<[k := AStored id]> acc) h.
Proof.
  intros [Hs Hd Hh Hc Hn Hl] Hk Hid. pose proof (lookup_lt_Some _ _ _ Hk) as Hklt.
  assert (Hncl : id ∉ cl) by (intros Hin; destruct (Hc id Hin) as [[? ?] _]; congruence).
  assert (Hnh : h !! id = None).
  { destruct (h !! id) eqn:E; [|done]. destruct (Hh id _ E) as [[? ?] _]. congruence. }
  assert (Hold : forall j id', <[k := AStored id]> acc !! j = Some (AStored id') ->
            (j = k /\ id' = id) \/ (acc !! j = Some (AStored id') /\ id' <> id)).
  { intros j id' Hj. destruct (decide (j = k)) as [->|Hne].
    - rewrite list_lookup_insert_eq in Hj by done. injection Hj as ->. by left.
    - rewrite list_lookup_insert_ne in Hj by done. right. split; [done|].
      intros ->. destruct (Hs _ _ Hj) as (_ & _ & ?). congruence. }
  constructor.
  - intros j id' [[-> ->]|[Hj Hne]]%Hold.
    + split_and!; [set_solver|done|apply lookup_insert_eq].
    + destruct (Hs _ _ Hj) as (? & ? & ?). split_and!; [set_solver|done|by rewrite lookup_insert_ne].
  - intros j j' id' [[-> ->]|[Hj Hne]]%Hold [[-> E]|[Hj' Hne']]%Hold; [done|done|done|eauto].
  - intros id' hh Hh'. destruct (Hh id' hh Hh') as [Hnm Hiff]. assert (id' <> id) by congruence.
    rewrite lookup_insert_ne by done. split; [done|]. rewrite <- Hiff. set_solver.
  - intros id' [->%elem_of_singleton|Hin]%elem_of_union.
    + rewrite lookup_insert_eq. split; [eauto|]. right. exists k. by rewrite list_lookup_insert_eq.
    + assert (id' <> id) by set_solver. rewrite lookup_insert_ne by done.
      destruct (Hc id' Hin) as [? [?|[j Hj]]]; split; auto. right. exists j.
      rewrite list_lookup_insert_ne; [done|]. intros <-. congruence.
  - rewrite (cnt_insert _ _ _ _ _ Hk), clients_size_add, Hn by done. f_equal. cbn. lia.
  - rewrite length_insert, (cnt_insert _ _ _ _ _ Hk), clients_size_add by done. cbn. intros Hb. specialize (Hl Hb). lia.
Qed.

(** The count, and the start of the session's goroutine. *)
Lemma ci_counted mx names cl n acc h k id : ClientsInv mx names cl n acc h -> acc !! k = Some (AStored id) ->
  ClientsInv mx names cl (wrapS 64 (n + 1)) (<[k := ATop]> acc) (<[id := HLoop]> h).
Proof.
  intros [Hs Hd Hh Hc Hn Hl] Hk. pose proof (lookup_lt_Some _ _ _ Hk) as Hklt.
  destruct (Hs _ _ Hk) as (Hcl & Hnh & Hnm).
  assert (Hold : forall j id', <[k := ATop]> acc !! j = Some (AStored id') ->
            acc !! j = Some (AStored id') /\ id' <> id).
  { intros j id' Hj. destruct (decide (j = k)) as [->|Hne].
    - by rewrite list_lookup_insert_eq in Hj.
    - rewrite list_lookup_insert_ne in Hj by done. split; [done|]. intros ->. eauto. }
  constructor.
  - intros j id' [Hj Hne]%Hold. destruct (Hs _ _ Hj) as (? & ? & ?).
    split_and!; [done|by rewrite lookup_insert_ne|done].
  - intros j j' id' [Hj _]%Hold [Hj' _]%Hold. eauto.
  - intros id' hh. destruct (decide (id' = id)) as [->|Hne].
    + rewrite lookup_insert_eq. intros [= <-]. rewrite Hnm. split; [eauto|]. by split.
    + rewrite lookup_insert_ne by done. apply Hh.
  - intros id' Hin. destruct (decide (id' = id)) as [->|Hne].
    + rewrite lookup_insert_eq, Hnm. split; eauto.
    + rewrite lookup_insert_ne by done. destruct (Hc id' Hin) as [? [?|[j Hj]]]; split; auto. right. exists j.
      rewrite list_lookup_insert_ne; [done|]. intros <-. congruence.
  - rewrite Hn, wrapS_add_l, (cnt_insert _ _ _ _ _ Hk), mcnt_insert_new by done. f_equal. cbn. lia.
  - rewrite length_insert, (cnt_insert _ _ _ _ _ Hk), mcnt_insert_new by done. cbn. intros Hb. specialize (Hl Hb). lia.
Qed.

(** *** The handlers *)
Lemma ci_phase mx names cl n acc h id hh hh' : ClientsInv mx names cl n acc h -> h !! id = Some hh ->
  in_clients hh' = in_clients hh -> is_count hh = false -> is_count hh' = false ->
  ClientsInv mx names cl n acc (<[id := hh']> h).
Proof.
  intros [Hs Hd Hh Hc Hn Hl] Hid E1 E2 E3. constructor; [|done| | | |].
  - intros k id' Hk. destruct (Hs k id' Hk) as (? & ? & ?). split_and!; [done| |done].
    rewrite lookup_insert_ne; [done|congruence].
  - intros id' hh0. destruct (decide (id' = id)) as [->|Hne].
    + rewrite lookup_insert_eq. intros [= <-]. rewrite E1. by apply Hh.
    + rewrite lookup_insert_ne by done. apply Hh.
  - intros id' Hin. destruct (Hc id' Hin) as [? [?|?]]; split; auto. left. by apply lookup_insert_is_Some'; right.
  - by rewrite (mcnt_insert _ _ _ _ _ Hid), E2, E3, Z.sub_0_r, Z.add_0_r.
  - by rewrite (mcnt_insert _ _ _ _ _ Hid), E2, E3, Z.sub_0_r, Z.add_0_r.
Qed.

Lemma ci_delete mx names cl n acc h id : ClientsInv mx names cl n acc h -> h !! id = Some HDelete ->
  ClientsInv mx names (cl ∖ {[id]}) n acc (<[id := HCount]> h).
Proof.
  intros [Hs Hd Hh Hc Hn Hl] Hid. pose proof (proj2 (proj2 (Hh id _ Hid)) eq_refl) as Hcl.
  constructor; [|done| | | |].
  - intros k id' Hk. destruct (Hs k id' Hk) as (? & ? & ?). assert (id' <> id) by congruence.
    split_and!; [set_solver|by rewrite lookup_insert_ne|done].
  - intros id' hh0. destruct (decide (id' = id)) as [->|Hne].
    + rewrite lookup_insert_eq. intros [= <-]. split; [by eapply Hh|]. cbn. set_solver.
    + rewrite lookup_insert_ne by done. intros E. destruct (Hh id' hh0 E) as [? <-]. set_solver.
  - intros id' Hin. destruct (Hc id' ltac:(set_solver)) as [? [?|?]]; split; auto.
    left. by apply lookup_insert_is_Some'; right.
  - rewrite (mcnt_insert _ _ _ _ _ Hid), clients_size_remove, Hn by done. f_equal. cbn. lia.
  - rewrite (mcnt_insert _ _ _ _ _ Hid), clients_size_remove by done. cbn. intros Hb. specialize (Hl Hb). lia.
Qed.

Lemma ci_uncount mx names cl n acc h id : ClientsInv mx names cl n acc h -> h !! id = Some HCount ->
  ClientsInv mx names cl (wrapS 64 (n - 1)) acc (<[id := HGroups]> h).
Proof.
  intros [Hs Hd Hh Hc Hn Hl] Hid. constructor; [|done| | | |].
  - intros k id' Hk. destruct (Hs k id' Hk) as (? & ? & ?). split_and!; [done| |done].
    rewrite lookup_insert_ne; [done|congruence].
  - intros id' hh0. destruct (decide (id' = id)) as [->|Hne].
    + rewrite lookup_insert_eq. intros [= <-]. apply (Hh id _ Hid).
    + rewrite lookup_insert_ne by done. apply Hh.
  - intros id' Hin. destruct (Hc id' Hin) as [? [?|?]]; split; auto. left. by apply lookup_insert_is_Some'; right.
  - rewrite (mcnt_insert _ _ _ _ _ Hid), Hn. cbn. rewrite <- Z.add_opp_r, wrapS_add_l by lia. f_equal. lia.
  - rewrite (mcnt_insert _ _ _ _ _ Hid). cbn. intros Hb. specialize (Hl Hb). lia.
Qed.

Lemma ci_finish mx names cl n acc h id : ClientsInv mx names cl n acc h -> h !! id = Some HClose ->
  ClientsInv mx names cl n acc (delete id h).
Proof.
  intros [Hs Hd Hh Hc Hn Hl] Hid. constructor; [|done| | | |].
  - intros k id' Hk. destruct (Hs k id' Hk) as (? & ? & ?). split_and!; [done| |done].
    rewrite lookup_delete_ne; [done|congruence].
  - intros id' hh0 [Hne E]%lookup_delete_Some. by apply Hh.
  - intros id' Hin. destruct (decide (id' = id)) as [->|Hne].
    + apply (Hh id _ Hid) in Hin. done.
    + rewrite lookup_delete_ne by done. by apply Hc.
  - by rewrite (mcnt_delete _ _ _ _ Hid), Z.sub_0_r.
  - by rewrite (mcnt_delete _ _ _ _ Hid), Z.sub_0_r.
Qed.

Lemma ci_names mx names cl n acc h id p p' : ClientsInv mx names cl n acc h ->
  names !! id = Some p' -> is_Some (h !! id) -> ClientsInv mx (<[id := p]> names) cl n acc h.
Proof.
  intros [Hs Hd Hh Hc Hn Hl] Hid [hh Hhid]. constructor; [|done| | |done|done].
  - intros k id' Hk. destruct (Hs k id' Hk) as (? & ? & ?). split_and!; [done|done|].
    rewrite lookup_insert_ne; [done|congruence].
  - intros id' hh0 E. destruct (Hh id' hh0 E) as [? ?]. split; [|done]. by apply lookup_insert_is_Some'; right.
  - intros id' Hin. destruct (Hc id' Hin) as [? ?]. split; [|done]. by apply lookup_insert_is_Some'; right.
Qed.

(** *** Steps that leave the tables alone *)
Definition tables_of s :=
  (config s, names_of s, (clients s, clientCount s), (acceptors s, handlers s),
   (group_table s, scope_table s), (groupCount s, scopeCount s)).

Lemma inv_frame s s' : tables_of s' = tables_of s -> ServerInv s -> ServerInv s'.
Proof.
  unfold tables_of. intros E [? ? ? ? ? ?]. injection E as E1 E2 E3 E4 E5 E6 E7 E8 E9 E10.
  constructor; rewrite ?E1, ?E2, ?E3, ?E4, ?E5, ?E6, ?E7, ?E8, ?E9, ?E10; done.
Qed.

Lemma names_alter (f : ClientSession C -> ClientSession C) id s :
  (forall ss, SGroups (f ss) = SGroups ss /\ SScopes (f ss) = SScopes ss) ->
  names_of (on_session f id s) = names_of s.
Proof.
  intros Hf. apply map_eq. intros i. unfold names_of, on_session. cbn.
  rewrite !lookup_fmap. destruct (decide (i = id)) as [->|Hne].
  - rewrite lookup_alter_eq. destruct (sessions s !! id) as [ss|]; [|done]. cbn.
    destruct (Hf ss) as [-> ->]. done.
  - by rewrite lookup_alter_ne.
Qed.

Lemma tables_on_session (f : ClientSession C -> ClientSession C) id s :
  (forall ss, SGroups (f ss) = SGroups ss /\ SScopes (f ss) = SScopes ss) ->
  tables_of (on_session f id s) = tables_of s.
Proof. intros Hf. unfold tables_of. by rewrite names_alter. Qed.

Lemma tables_send id l s : tables_of (send_to id l s) = tables_of s.
Proof.
  unfold send_to. destruct (sessions s !! id) as [ss|]; [|done].
  destruct (conn_send l (pool s) (Connection ss)) as [[p c] err].
  change (tables_of (on_session (set_conn c) id s) = tables_of s). by apply tables_on_session.
Qed.

Lemma tables_reply f typ text id s : tables_of (reply f typ text id s) = tables_of s.
Proof. unfold reply. destruct (Pool.Get _ _ _ _ _) as [p l]. by rewrite tables_send. Qed.

Lemma tables_disconnect ids s : tables_of (disconnect ids s) = tables_of s.
Proof.
  unfold disconnect. revert s. induction ids as [|id ids IH]; intros s; [done|]. cbn [foldl].
  rewrite IH. case_decide; [|done]. by apply tables_on_session.
Qed.

Lemma tables_Stop s s' err : Stop s = Done (s', err) -> tables_of s' = tables_of s.
Proof.
  unfold Stop. destruct (running s); cbn [negb]; [|by intros [= <- <-]].
  destruct (stopped s); [done|]. intros [= <- <-].
  set (ss' := map_imap _ _). assert (Hn : names_of (set_sessions ss' s) = names_of s).
  { apply map_eq. intros i. unfold names_of. cbn. rewrite !lookup_fmap. unfold ss'. rewrite map_lookup_imap.
    cbn. destruct (sessions s !! i) as [ss|]; [|done]. cbn. by case_decide. }
  unfold tables_of. change (names_of (set_sessions ss' _)) with (names_of (set_sessions ss' s)). by rewrite Hn.
Qed.

Lemma tables_Close s s' err : Close s = Done (s', err) -> tables_of s' = tables_of s.
Proof.
  unfold Close. destruct (closed s); [by intros [= <- <-]|].
  set (s1 := set_life _ _ _ _ _). destruct (running s1); [|by intros [= <- <-]].
  destruct (Stop s1) as [[s2 e2]|] eqn:E; [|done]. intros [= <- <-].
  cbn [fst]. by rewrite (tables_Stop _ _ _ E).
Qed.

(** *** Joining and leaving *)
Lemma names_set (f : ClientSession C -> ClientSession C) id s ss : sessions s !! id = Some ss ->
  names_of (on_session f id s) = <[id := (SGroups (f ss), SScopes (f ss))]> (names_of s).
Proof.
  intros Hss. apply map_eq. intros i. unfold names_of, on_session. cbn. destruct (decide (i = id)) as [->|Hne].
  - by rewrite lookup_insert_eq, lookup_fmap, lookup_alter_eq, Hss.
  - by rewrite lookup_insert_ne, !lookup_fmap, lookup_alter_ne.
Qed.

Lemma group_table_join id name now (gs : gmap string Group) :
  GMembers <$> <[name := on_group (join_member id) (default (mkGroup name no_members now) (gs !! name))]> gs =
  table_join id name (GMembers <$> gs).
Proof.
  rewrite fmap_insert. unfold table_join. f_equal. cbn. rewrite lookup_fmap. by destruct (gs !! name).
Qed.

Lemma scope_table_join id name now (ss : gmap string Scope) :
  ScMembers <$> <[name := on_scope (join_member id) (default (mkScope name no_members ∅ 0 now) (ss !! name))]> ss =
  table_join id name (ScMembers <$> ss).
Proof.
  rewrite fmap_insert. unfold table_join. f_equal. cbn. rewrite lookup_fmap. by destruct (ss !! name).
Qed.

Lemma group_table_leave id name (gs : gmap string Group) :
  GMembers <$> alter (on_group (leave_member id)) name gs = table_leave id name (GMembers <$> gs).
Proof.
  apply map_eq. intros i. unfold table_leave. rewrite lookup_fmap. destruct (decide (i = name)) as [->|Hne].
  - rewrite !lookup_alter_eq, lookup_fmap. by destruct (gs !! name).
  - by rewrite !lookup_alter_ne, lookup_fmap by done.
Qed.

Lemma scope_table_leave id name (ss : gmap string Scope) :
  ScMembers <$> alter (on_scope (leave_member id)) name ss = table_leave id name (ScMembers <$> ss).
Proof.
  apply map_eq. intros i. unfold table_leave. rewrite lookup_fmap. destruct (decide (i = name)) as [->|Hne].
  - rewrite !lookup_alter_eq, lookup_fmap. by destruct (ss !! name).
  - by rewrite !lookup_alter_ne, lookup_fmap by done.
Qed.

(** A change of one session's names and of the tables, by a client's own handler. *)
Lemma inv_membership s id ss p hh gs scs :
  ServerInv s -> sessions s !! id = Some ss -> handlers s !! id = Some hh ->
  agree fst in_groups (GMembers <$> gs) (<[id := p]> (names_of s)) (handlers s) -> counted (GMembers <$> gs) ->
  agree snd in_scopes (ScMembers <$> scs) (<[id := p]> (names_of s)) (handlers s) -> counted (ScMembers <$> scs) ->
  ServerInv (on_session (fun ss => set_names p.1 p.2 ss) id (set_tables gs scs s)).
Proof.
  intros [Hc Hg Hs Hgc Hsc Hst] Hss Hh Hg' Hgc' Hs' Hsc'.
  assert (Hn : names_of (on_session (fun ss => set_names p.1 p.2 ss) id (set_tables gs scs s)) =
               <[id := p]> (names_of s)).
  { rewrite (names_set _ id (set_tables gs scs s) ss Hss). by destruct p. }
  constructor; rewrite ?Hn; cbn; try done.
  eapply ci_names; [done| |rewrite Hh; eauto]. unfold names_of. by rewrite lookup_fmap, Hss.
Qed.

(** [handleJoinGroup] and its three siblings. *)
Lemma inv_control now id payload s :
  ServerInv s -> handlers s !! id = Some HReceive -> ServerInv (handleControlMessage Unmarshal now id payload s).
Proof.
  intros Hinv Hh. pose proof Hinv as [Hc Hg Hs Hgc Hsc Hst].
  destruct (ci_handler _ _ _ _ _ _ Hc id _ Hh) as [[p Hp] _].
  unfold names_of in Hp. rewrite lookup_fmap in Hp. destruct (sessions s !! id) as [ss|] eqn:Hss; [|done].
  injection Hp as Hp.
  assert (Hnm : names_of s !! id = Some p) by (unfold names_of; by rewrite lookup_fmap, Hss; cbn; rewrite Hp).
  assert (Hext : forall g sc f, (forall ss', SGroups ss' = p.1 -> SScopes ss' = p.2 -> f ss' = set_names g sc ss') ->
    forall s', sessions s' = sessions s -> on_session f id s' = on_session (fun ss => set_names g sc ss) id s').
  { intros g sc f Hf s' Es'. unfold on_session. f_equal. rewrite Es'. apply map_eq. intros i.
    destruct (decide (i = id)) as [->|Hne]; [|by rewrite !lookup_alter_ne].
    rewrite !lookup_alter_eq, Hss. cbn. f_equal. rewrite <- Hp in *. by apply Hf. }
  unfold handleControlMessage. destruct (Unmarshal payload) as [m|]; [|done].
  repeat case_decide; try done.
  - unfold handleJoinGroup. case_decide; [done|].
    rewrite (Hext ({[CGroup m]} ∪ p.1) p.2) by (done || by intros ss' -> ->).
    apply (inv_membership s id ss (_, _) HReceive); [done|done|done| | | |done].
    + rewrite group_table_join. by apply (agree_join _ _ _ _ _ _ _ p _ HReceive).
    + rewrite group_table_join. by apply counted_join.
    + by apply (agree_names _ _ _ _ _ _ p).
  - unfold handleLeaveGroup. case_decide; [done|].
    rewrite (Hext (p.1 ∖ {[CGroup m]}) p.2) by (done || by intros ss' -> ->).
    apply (inv_membership s id ss (_, _) HReceive); [done|done|done| | | |done].
    + rewrite group_table_leave. by apply (agree_leave _ _ _ _ _ _ _ p _ HReceive).
    + rewrite group_table_leave. by apply counted_leave.
    + by apply (agree_names _ _ _ _ _ _ p).
  - unfold handleSubscribeScope. case_decide; [done|].
    rewrite (Hext p.1 ({[CScope m]} ∪ p.2)) by (done || by intros ss' -> ->).
    apply (inv_membership s id ss (_, _) HReceive); [done|done|done| |done| |].
    + by apply (agree_names _ _ _ _ _ _ p).
    + rewrite scope_table_join. by apply (agree_join _ _ _ _ _ _ _ p _ HReceive).
    + rewrite scope_table_join. by apply counted_join.
  - unfold handleUnsubscribeScope. case_decide; [done|].
    rewrite (Hext p.1 (p.2 ∖ {[CScope m]})) by (done || by intros ss' -> ->).
    apply (inv_membership s id ss (_, _) HReceive); [done|done|done| |done| |].
    + by apply (agree_names _ _ _ _ _ _ p).
    + rewrite scope_table_leave. by apply (agree_leave _ _ _ _ _ _ _ p _ HReceive).
    + rewrite scope_table_leave. by apply counted_leave.
Qed.

Lemma inv_handleMessage (f : fresh_message) now id l s : ServerInv s -> handlers s !! id = Some HReceive ->
  ServerInv (handleMessage Unmarshal f now id l s) /\ handlers (handleMessage Unmarshal f now id l s) = handlers s.
Proof.
  intros Hinv Hh. unfold handleMessage. set (msg := default _ _).
  assert (Hr : forall typ text, ServerInv (reply f typ text id s) /\ handlers (reply f typ text id s) = handlers s).
  { intros typ text. pose proof (tables_reply f typ text id s) as E. split; [by eapply inv_frame|].
    by injection E. }
  assert (Hctl : ServerInv (handleControlMessage Unmarshal now id (Payload msg) s) /\
    handlers (handleControlMessage Unmarshal now id (Payload msg) s) = handlers s).
  { split; [by apply inv_control|]. unfold handleControlMessage. destruct (Unmarshal _); [|done].
    unfold handleJoinGroup, handleLeaveGroup, handleSubscribeScope, handleUnsubscribeScope.
    by repeat case_decide. }
  assert (Hd : ServerInv (dispatch Unmarshal f now id msg s) /\ handlers (dispatch Unmarshal f now id msg s) = handlers s).
  { unfold dispatch. destruct (Type_ msg =? MessageTypeControl); [done|].
    destruct (Type_ msg =? MessageTypeData); [apply Hr|].
    destruct (Type_ msg =? MessageTypeHeartbeat); [apply Hr|done]. }
  destruct Hd as [H1 H2]. split; [|done]. by eapply inv_frame; [|exact H1].
Qed.

Lemma inv_set_handler s id hh hh' : ServerInv s -> handlers s !! id = Some hh ->
  in_clients hh' = in_clients hh -> in_groups hh' = in_groups hh -> in_scopes hh' = in_scopes hh ->
  is_count hh = false -> is_count hh' = false -> ServerInv (set_handler id hh' s).
Proof.
  intros [Hc Hg Hs Hgc Hsc Hst] Hh E1 E2 E3 E4 E5. constructor; cbn; try done.
  - by eapply ci_phase.
  - by eapply agree_handler.
  - by eapply agree_handler.
Qed.

Lemma inv_accept_store k c id now s : ServerInv s -> acceptors s !! k = Some (AChecked c) ->
  sessions s !! id = None -> ServerInv (accept_store k id now c s).
Proof.
  intros [Hc Hg Hs Hgc Hsc Hst] Hk Hid.
  assert (Hn : names_of s !! id = None) by (unfold names_of; by rewrite lookup_fmap, Hid).
  assert (Hh : handlers s !! id = None).
  { destruct (handlers s !! id) eqn:E; [|done].
    destruct (ci_handler _ _ _ _ _ _ Hc id _ E) as [[? ?] _]. congruence. }
  assert (Hnew : names_of (accept_store k id now c s) = <[id := (∅, ∅)]> (names_of s)).
  { unfold names_of, accept_store. cbn. by rewrite fmap_insert. }
  constructor; rewrite ?Hnew; cbn; try done.
  - by eapply ci_store.
  - by apply agree_session.
  - by apply agree_session.
Qed.

Lemma inv_accept_count k id s : ServerInv s -> acceptors s !! k = Some (AStored id) ->
  ServerInv (accept_count k id s).
Proof.
  intros [Hc Hg Hs Hgc Hsc Hst] Hk. destruct (ci_stored _ _ _ _ _ _ Hc k id Hk) as (_ & Hh & Hn).
  constructor; cbn; try done.
  - by apply ci_counted.
  - by eapply agree_start.
  - by eapply agree_start.
Qed.

Lemma group_table_purge id s :
  group_table (removeClientFromAllGroups id s) = table_purge id (group_table s) /\
  scope_table (removeClientFromAllScopes id s) = table_purge id (scope_table s).
Proof.
  unfold group_table, scope_table, table_purge. cbn. by rewrite <- !map_fmap_compose.
Qed.

Lemma inv_handler_leave id hh s : ServerInv s -> handlers s !! id = Some hh -> ServerInv (handler_leave id hh s).
Proof.
  intros Hinv Hh. pose proof Hinv as [Hc Hg Hs Hgc Hsc Hst].
  destruct (group_table_purge id s) as [Eg Es]. destruct hh; cbn [handler_leave]; [done|done| | | | |].
  - constructor; cbn; try done; [by apply ci_delete|by eapply agree_handler|by eapply agree_handler].
  - constructor; cbn; try done; [by apply ci_uncount|by eapply agree_handler|by eapply agree_handler].
  - assert (E : group_table (set_handler id HScopes (removeClientFromAllGroups id s)) = table_purge id (group_table s))
      by exact Eg.
    constructor; rewrite ?E; try done; [by eapply ci_phase|by apply agree_purge|by eapply agree_handler|
      by apply counted_purge].
  - assert (E : scope_table (set_handler id HClose (removeClientFromAllScopes id s)) = table_purge id (scope_table s))
      by exact Es.
    constructor; rewrite ?E; try done; [by eapply ci_phase|by eapply agree_handler|by apply agree_purge|
      by apply counted_purge].
  - assert (Hn : names_of (set_handlers (delete id (handlers s)) (on_session close_session id s)) = names_of s)
      by by apply (names_alter close_session).
    constructor; rewrite ?Hn; try done; [by apply ci_finish|by eapply agree_finish|by eapply agree_finish].
Qed.

Lemma inv_acceptor s k a a' : ServerInv s -> acceptors s !! k = Some a ->
  is_stored a = false -> is_checked a = false -> is_stored a' = false -> is_checked a' = false ->
  ServerInv (set_acceptor k a' s).
Proof. intros [Hc Hg Hs Hgc Hsc Hst] Hk E1 E2 E3 E4. constructor; cbn; try done. by eapply ci_move. Qed.

Lemma server_step_inv s s' : ServerInv s -> step Unmarshal s s' -> ServerInv s'.
Proof.
  intros Hinv Hstep. destruct Hstep as [e s|s s' err E|s s' err E|k s Hk|k s Hk|k c s Hk|k c id now s Hk Hid|
    k id s Hk|id s Hh|f now id r s Hh|id h s Hh|id l s|ids s|p s].
  - unfold Start. destruct (closed s), (running s), e; try done; destruct Hinv; by constructor; try apply ci_start.
  - eapply inv_frame; [by eapply tables_Stop|done].
  - eapply inv_frame; [by eapply tables_Close|done].
  - unfold accept_test. destruct (running s); by eapply inv_acceptor.
  - unfold accept_failed. destruct (running s); by eapply inv_acceptor.
  - unfold accept_conn. destruct (Z.leb_spec (MaxClients (config s)) (clientCount s)); [by eapply inv_acceptor|].
    destruct Hinv as [Hc ? ? ? ? ?]. constructor; cbn; try done. by apply ci_check.
  - by apply inv_accept_store.
  - by apply inv_accept_count.
  - unfold handler_test. destruct (is_active id s); by eapply inv_set_handler.
  - unfold handler_received. destruct r as [[l|]|e]; [|by eapply inv_set_handler..].
    assert (Hs1 : ServerInv (on_session (set_seen now) id s))
      by (eapply inv_frame; [by apply tables_on_session|done]).
    destruct (inv_handleMessage f now id l _ Hs1 Hh) as [H1 H2]. eapply inv_set_handler; [done|by rewrite H2|done..].
  - by apply inv_handler_leave.
  - eapply inv_frame; [apply tables_send|done].
  - eapply inv_frame; [apply tables_disconnect|done].
  - by eapply inv_frame; [|exact Hinv].
Qed.

Lemma NewServer_inv cfg p : ServerInv (NewServer (C := C) cfg p).
Proof.
  assert (Ha : forall sel pres, agree sel pres ∅ ∅ ∅).
  { intros sel pres name id. unfold in_table, listed. rewrite !lookup_empty. naive_solver. }
  constructor; cbn; try done; try (unfold group_table, scope_table, names_of; cbn; rewrite !fmap_empty; apply Ha).
  constructor; cbn; try done. intros _. change (mcnt is_count ∅) with 0. rewrite size_empty. lia.
Qed.

Lemma step_config s s' : step Unmarshal s s' -> config s' = config s.
Proof.
  assert (Htab : forall s1 s2, tables_of s1 = tables_of s2 -> config s1 = config s2)
    by (intros s1 s2 E; by injection E).
  intros Hstep. destruct Hstep as [e s|s s' err E|s s' err E|k s Hk|k s Hk|k c s Hk|k c id now s Hk Hid|
    k id s Hk|id s Hh|f now id r s Hh|id h s Hh|id l s|ids s|p s]; try done.
  - unfold Start. by destruct (closed s), (running s), e.
  - by apply Htab, (tables_Stop _ _ err).
  - by apply Htab, (tables_Close _ _ err).
  - unfold handler_received. destruct r as [[l|]|e]; [|done|done]. cbn. unfold handleMessage, dispatch.
    set (s1 := on_session _ _ _). set (msg := default _ _). cbn.
    destruct (Type_ msg =? MessageTypeControl).
    { unfold handleControlMessage. destruct (Unmarshal _); [|done].
      unfold handleJoinGroup, handleLeaveGroup, handleSubscribeScope, handleUnsubscribeScope.
      by repeat case_decide. }
    destruct (Type_ msg =? MessageTypeData); [apply (Htab _ _ (tables_reply f _ _ id s1))|].
    by destruct (Type_ msg =? MessageTypeHeartbeat); [apply (Htab _ _ (tables_reply f _ _ id s1))|].
  - by destruct h.
  - by apply Htab, tables_send.
  - by apply Htab, tables_disconnect.
Qed.

Lemma server_reachable_inv cfg s : reachable Unmarshal cfg s -> ServerInv s /\ config s = cfg.
Proof.
  intros [p Hr]. revert Hr. generalize (NewServer_inv cfg p) (eq_refl : config (NewServer (C := C) cfg p) = cfg).
  generalize (NewServer (C := C) cfg p). intros s0 Hi Hcfg Hr. induction Hr as [|x y z Hxy _ IH]; [done|].
  apply IH; [by eapply server_step_inv|]. by rewrite (step_config _ _ Hxy).
Qed.

(** ** Where groups come from *)
Definition is_group name s : Prop := is_Some (group_table s !! name).

Lemma is_group_frame name s s' : tables_of s' = tables_of s -> is_group name s' <-> is_group name s.
Proof. intros E. apply (f_equal (fun t => t.1.2.1)) in E. unfold is_group. cbn in E. by rewrite E. Qed.

(** A control message makes a group exactly when it asks to join it. *)
Lemma control_groups now id payload name s :
  is_group name (handleControlMessage Unmarshal now id payload s) <-> is_group name s \/
    (name <> ""%string /\ exists m, Unmarshal payload = Some m /\ Action m = "join_group"%string /\ CGroup m = name).
Proof.
  unfold handleControlMessage. destruct (Unmarshal payload) as [m|]; [|naive_solver].
  destruct (decide (Action m = "join_group"%string)) as [Ej|Hj].
  - unfold handleJoinGroup. destruct (decide (CGroup m = ""%string)); [naive_solver|].
    unfold is_group, on_session, group_table. cbn. rewrite !lookup_fmap, lookup_insert. destruct (decide (CGroup m = name)); naive_solver.
  - assert (forall s', is_group name s' <-> is_group name s -> is_group name s' <-> is_group name s \/ (name <> ""%string /\
      exists m', Some m = Some m' /\ Action m' = "join_group"%string /\ CGroup m' = name)) as K by naive_solver.
    apply K. clear K. repeat case_decide; try done.
    + unfold handleLeaveGroup. case_decide; [done|]. unfold is_group, on_session, group_table. cbn. rewrite !lookup_fmap.
      rewrite lookup_alter. case_decide; [subst|done]. by destruct (groups s !! _).
    + unfold handleSubscribeScope. by case_decide.
    + unfold handleUnsubscribeScope. by case_decide.
Qed.
Lemma received_groups (f : fresh_message) now id l name s :
  is_group name (handler_received Unmarshal f now id (Ok (Some l)) s) <-> is_group name s \/ asks_to_join Unmarshal name l s.
Proof.
  unfold handler_received, handleMessage, dispatch, asks_to_join.
  change (pool (on_session (set_seen now) id s)) with (pool s). set (msg := default _ _).
  assert (forall s', is_group name (set_handler id HLoop (set_pool (Pool.Release (pool s') l) s')) <-> is_group name s') as K by done.
  rewrite K. clear K. set (s1 := on_session _ _ _). assert (is_group name s1 <-> is_group name s) as E1 by done.
  destruct (Z.eqb_spec (Type_ msg) MessageTypeControl) as [E|Hne].
  - rewrite control_groups, E1. naive_solver.
  - transitivity (is_group name s1); [|tauto]. destruct (Type_ msg =? MessageTypeData); [apply is_group_frame, tables_reply|].
    destruct (Type_ msg =? MessageTypeHeartbeat); [apply is_group_frame, tables_reply|done].
Qed.
(** A step keeps the groups; one it makes was asked for. *)
Lemma step_groups name s s' : step Unmarshal s s' -> (is_group name s -> is_group name s') /\
  (is_group name s' -> is_group name s \/ exists f now id l, handlers s !! id = Some HReceive /\ asks_to_join Unmarshal name l s /\
    s' = handler_received Unmarshal f now id (Ok (Some l)) s).
Proof.
  intros Hstep. assert (is_group name s' <-> is_group name s -> (is_group name s -> is_group name s') /\
    (is_group name s' -> is_group name s \/ exists f now id l, handlers s !! id = Some HReceive /\ asks_to_join Unmarshal name l s /\
      s' = handler_received Unmarshal f now id (Ok (Some l)) s)) as K by tauto.
  destruct Hstep as [e s|s s' err E|s s' err E|k s Hk|k s Hk|k c s Hk|k c id now s Hk Hid|
    k id s Hk|id s Hh|f now id r s Hh|id h s Hh|id l s|ids s|p s]; try (by apply K).
  - apply K. unfold Start. by destruct (closed s), (running s), e.
  - by apply K, is_group_frame, (tables_Stop _ _ err).
  - by apply K, is_group_frame, (tables_Close _ _ err).
  - destruct r as [[l|]|e]; [|by apply K|by apply K]. rewrite received_groups. split; [by left|].
    intros [H|H]; [by left|right]. by exists f, now, id, l.
  - apply K. destruct h; try done. cbn. unfold is_group, group_table, removeClientFromAllGroups. cbn.
    rewrite !lookup_fmap. by destruct (groups s !! name).
  - by apply K, is_group_frame, tables_send.
  - by apply K, is_group_frame, tables_disconnect.
Qed.
Lemma steps_groups name s s' : rtc (step Unmarshal) s s' -> is_group name s -> is_group name s'.
Proof. induction 1 as [|x y z H _ IH]; [done|]. intros Hx. by apply IH, (step_groups name x y). Qed.

(** A group exists from the first request to join it on, for good. *)
Lemma groups_were_joined cfg name s : reachable Unmarshal cfg s -> is_group name s <-> was_joined Unmarshal cfg name s.
Proof.
  intros [p Hr]. split.
  - revert Hr. generalize (rtc_refl (step Unmarshal) (NewServer (C := C) cfg p)).
    assert (~ is_group name (NewServer (C := C) cfg p)) as Hn.
    { unfold is_group, group_table. cbn. rewrite fmap_empty, lookup_empty. by intros [? ?]. }
    revert Hn. generalize (NewServer (C := C) cfg p) at 1 3 4. intros s0 Hn H0 Hr.
    induction Hr as [|x y z Hxy Hyz IH]; [done|]. intros Hz.
    destruct (step_groups name x y Hxy) as [_ Hnew]. destruct (decide (is_group name y)) as [Hy|Hy].
    + destruct (Hnew Hy) as [|(f & now & id & l & Hh & Ha & ->)]; [done|]. by exists p, x, f, now, id, l.
    + apply IH; [done| |done]. eapply rtc_r; [exact H0|exact Hxy].
  - intros (p' & s0 & f & now & id & l & _ & _ & Ha & Hr'). eapply steps_groups; [exact Hr'|]. apply received_groups. by right.
Qed.

(** ** What a broadcast sends *)
Lemma sends_other l ids id s : id ∉ ids -> sessions (broadcast_sends l ids s) !! id = sessions s !! id.
Proof.
  revert s. induction ids as [|x ids IH]; intros s Hn; [done|]. apply not_elem_of_cons in Hn as [Hne Hn].
  unfold broadcast_sends in IH |- *. cbn [foldl]. rewrite IH by done. unfold send_to. destruct (sessions s !! x) as [ss|]; [|done].
  destruct (conn_send l (pool s) (Connection ss)) as [[p c] e]. cbn. by rewrite lookup_alter_ne.
Qed.
Lemma sends_once l ids id ss s : NoDup ids -> id ∈ ids -> sessions s !! id = Some ss ->
  exists p, sessions (broadcast_sends l ids s) !! id = Some (set_conn (conn_send l p (Connection ss)).1.2 ss).
Proof.
  revert s. induction ids as [|x ids IH]; intros s Hnd Hin Hss; [by apply elem_of_nil in Hin|].
  apply NoDup_cons in Hnd as [Hx Hnd]. apply elem_of_cons in Hin as [->|Hin].
  - pose proof (sends_other l ids x (send_to x l s) Hx) as E. unfold broadcast_sends in E |- *. cbn [foldl]. rewrite E.
    exists (pool s). unfold send_to. rewrite Hss. destruct (conn_send l (pool s) (Connection ss)) as [[p c] e]. cbn.
    by rewrite lookup_alter_eq, Hss.
  - apply (IH (send_to x l s) Hnd Hin). rewrite <- Hss. apply (sends_other l [x]). by intros ->%list_elem_of_singleton.
Qed.
Lemma tables_sends l ids s : tables_of (broadcast_sends l ids s) = tables_of s.
Proof. revert s. induction ids as [|x ids IH]; intros s; [done|]. unfold broadcast_sends in *. cbn [foldl]. by rewrite IH, tables_send. Qed.
End Invariant.

(** ** Theorems *)

(** C4: The server holds at most [MaxClients] clients, plus one for every
    acceptor goroutine beyond the first (a server stopped and started again
    before the first goroutine saw it has two), and its counter is the number
    of clients but for the connections being registered and removed, whatever
    the interleaving of the acceptors, the handlers, the health monitor and the
    calls of the program. The statistics of groups and scopes stay zero. *)
Theorem server_limit {C} {SC : ServerConn C} Unmarshal cfg (s : Server C) : reachable Unmarshal cfg s ->
  Z.max 0 (MaxClients cfg) + Z.of_nat (length (acceptors s)) < 2 ^ 63 ->
  Z.of_nat (size (clients s)) <= Z.max 0 (MaxClients cfg) + Z.max 0 (Z.of_nat (length (acceptors s)) - 1) /\
  StClientCount (GetStats s) =
    wrapS 64 (Z.of_nat (size (clients s)) - cnt is_stored (acceptors s) + mcnt is_count (handlers s)) /\
  StGroupCount (GetStats s) = 0 /\ StScopeCount (GetStats s) = 0.
Proof.
  intros Hr Hb. destruct (server_reachable_inv Unmarshal cfg s Hr) as [[Hc _ _ _ _ [Hg Hs]] Hcfg].
  rewrite Hcfg in Hc. split; [|split; [apply Hc|done]].
  pose proof (ci_limit _ _ _ _ _ _ Hc Hb). pose proof (cnt_nonneg (@is_checked C) (acceptors s)).
  pose proof (mcnt_nonneg is_count (handlers s)). lia.
Qed.

(** Who is in a group, and who in a scope, by the sessions' lists. *)
Lemma membership_listed {C} {SC : ServerConn C} Unmarshal cfg (s : Server C) name id : reachable Unmarshal cfg s ->
  (in_table (group_table s) name id <->
     (exists ss h, sessions s !! id = Some ss /\ handlers s !! id = Some h /\ in_groups h = true /\ name ∈ SGroups ss)) /\
  (in_table (scope_table s) name id <->
     (exists ss h, sessions s !! id = Some ss /\ handlers s !! id = Some h /\ in_scopes h = true /\ name ∈ SScopes ss)).
Proof.
  intros Hr. destruct (server_reachable_inv Unmarshal cfg s Hr) as [[_ Hg Hs _ _ _] _].
  assert (Hl : forall sel pres, listed sel pres (names_of s) (handlers s) name id <->
    exists ss h, sessions s !! id = Some ss /\ handlers s !! id = Some h /\ pres h = true /\
      name ∈ sel (SGroups ss, SScopes ss)).
  { intros sel pres. unfold listed, names_of. rewrite lookup_fmap. destruct (sessions s !! id); naive_solver. }
  split; [rewrite (Hg name id)|rewrite (Hs name id)]; apply Hl.
Qed.

(** C2: A group's members and the sessions' own lists never disagree: a client
    is in a group exactly when its session lists the group and its handler has
    not yet taken it out of the groups, likewise for scopes, and every count is
    the number of members. So a client whose handler has finished is in the
    client table, a group or a scope no more, and one being served is in
    exactly the groups it joined and did not leave. *)
Theorem membership_agrees {C} {SC : ServerConn C} Unmarshal cfg (s : Server C) name id : reachable Unmarshal cfg s ->
  (in_table (group_table s) name id <->
     (exists ss h, sessions s !! id = Some ss /\ handlers s !! id = Some h /\ in_groups h = true /\ name ∈ SGroups ss)) /\
  (in_table (scope_table s) name id <->
     (exists ss h, sessions s !! id = Some ss /\ handlers s !! id = Some h /\ in_scopes h = true /\ name ∈ SScopes ss)) /\
  (is_Some (sessions s !! id) -> handlers s !! id = None -> (forall k, acceptors s !! k <> Some (AStored id)) ->
     ~ (id ∈ clients s) /\ ~ in_table (group_table s) name id /\ ~ in_table (scope_table s) name id) /\
  (forall m, group_table s !! name = Some m \/ scope_table s !! name = Some m ->
     ClientCount m = wrapS 64 (Z.of_nat (size (Clients m)))).
Proof.
  intros Hr. destruct (membership_listed Unmarshal cfg s name id Hr) as [Hg Hs].
  destruct (server_reachable_inv Unmarshal cfg s Hr) as [[Hc _ _ Hgc Hsc _] _]. split_and!; [done|done| |].
  - intros _ Hh Hacc. rewrite Hg, Hs. split_and!; [|intros (? & ? & ? & ? & _); congruence..].
    intros Hin. destruct (ci_client _ _ _ _ _ _ Hc id Hin) as [_ [[? ?]|[k Hk]]]; [congruence|by apply (Hacc k)].
  - intros m [E|E]; [by apply (Hgc name)|by apply (Hsc name)].
Qed.

(** C27: A broadcast finds the group exactly when some client's handler got a
    message asking to join it, however long ago, and fails otherwise. It goes
    to the members whose session lists the group and whose connection is still
    registered: in whatever order its goroutines run, each of these clients'
    connections has sent the message once, and no other session has changed. *)
Theorem broadcast_exact {C} {SC : ServerConn C} Unmarshal cfg (s : Server C) name : reachable Unmarshal cfg s ->
  match BroadcastToGroup name s with
  | Err e => e = ErrGroupNotFound /\ ~ was_joined Unmarshal cfg name s
  | Ok ids => was_joined Unmarshal cfg name s /\ NoDup ids /\
      (forall id, id ∈ ids <->
        exists ss h, sessions s !! id = Some ss /\ handlers s !! id = Some h /\ in_clients h = true /\ name ∈ SGroups ss) /\
      forall l order id, order ≡ₚ ids ->
        (id ∉ ids -> sessions (broadcast_sends l order s) !! id = sessions s !! id) /\
        (id ∈ ids -> exists ss p, sessions s !! id = Some ss /\
           sessions (broadcast_sends l order s) !! id = Some (set_conn (conn_send l p (Connection ss)).1.2 ss))
  end.
Proof.
  intros Hr. pose proof (groups_were_joined Unmarshal cfg name s Hr) as Hj. unfold is_group, group_table in Hj. rewrite lookup_fmap in Hj.
  pose proof (fun id => proj1 (membership_listed Unmarshal cfg s name id Hr)) as Hl.
  destruct (server_reachable_inv Unmarshal cfg s Hr) as [[Hc _ _ _ _ _] _].
  unfold BroadcastToGroup. unfold in_table, group_table in Hl. rewrite lookup_fmap in Hl.
  destruct (groups s !! name) as [g|] eqn:Eg; cbn in Hl, Hj; [|split; [done|]; rewrite <- Hj; by intros [? ?]].
  set (ids := filter _ _). assert (NoDup ids) as Hnd by apply NoDup_filter, NoDup_elements.
  assert (forall id, id ∈ ids <->
    exists ss h, sessions s !! id = Some ss /\ handlers s !! id = Some h /\ in_clients h = true /\ name ∈ SGroups ss) as Hids.
  { intros id. unfold ids. rewrite list_elem_of_filter, elem_of_elements. split.
    - intros [Hcl Hin]. destruct (proj1 (Hl id)) as (ss & h & Hss & Hh & _ & Hn); [eauto|].
      exists ss, h. split_and!; try done. by apply (ci_handler _ _ _ _ _ _ Hc id h Hh).
    - intros (ss & h & Hss & Hh & Hcl & Hn). split; [by apply (ci_handler _ _ _ _ _ _ Hc id h Hh)|].
      destruct (proj2 (Hl id)) as (m & [= <-] & Hin); [|done]. exists ss, h. split_and!; try done. by destruct h. }
  split_and!; [apply Hj; eauto|done|done|]. intros l order id Ho. split; intros Hin.
  - apply sends_other. by rewrite Ho.
  - destruct (proj1 (Hids id) Hin) as (ss & h & Hss & _). exists ss.
    destruct (sends_once l order id ss s) as [p Hp]; [by rewrite Ho|by rewrite Ho|done|]. by exists p.
Qed.

(** A server cannot be restarted safely: after [Start], [Stop] and [Start],
    both [Stop] and [Close] panic on the channel closed twice. *)
Theorem restart_panics {C} {SC : ServerConn C} cfg p :
  let s1 := (Start None (NewServer (C := C) cfg p)).1 in
  exists s2 s3, Stop s1 = Done (s2, None) /\ Start None s2 = (s3, None) /\ running s3 = true /\
    Stop s3 = Panic /\ Close s3 = Panic.
Proof. do 2 eexists. split_and!; reflexivity. Qed.

(** An error of [ReceiveMessage], and so a client silent for
    [MessageTimeout], ends its session: run to the end, its handler takes the
    client out of the client table and its count, out of every group and scope,
    touches no other client's membership, and closes the connection. *)
Theorem leaving_cleans {C} {SC : ServerConn C} Unmarshal cfg f now id e (s : Server C) :
  reachable Unmarshal cfg s -> handlers s !! id = Some HReceive ->
  let s' := foldl (fun s h => handler_leave id h s) (handler_received Unmarshal f now id (Err e) s)
              [HDelete; HCount; HGroups; HScopes; HClose] in
  reachable Unmarshal cfg s' /\ handlers s' !! id = None /\ clients s' = clients s ∖ {[id]} /\
  clientCount s' = wrapS 64 (clientCount s - 1) /\ sessions s' !! id = close_session <$> sessions s !! id /\
  forall name id', (in_table (group_table s') name id' <-> in_table (group_table s) name id' /\ id' <> id) /\
    (in_table (scope_table s') name id' <-> in_table (scope_table s) name id' /\ id' <> id).
Proof.
  intros [p Hr] Hh s'. split; [|split; [|split; [|split; [|split]]]].
  - exists p. etransitivity; [exact Hr|]. eapply rtc_l; [by apply (step_handler_received _ f now id (Err e))|].
    unfold s'. cbn [foldl handler_received].
    do 5 (eapply rtc_l; [apply (step_handler_leave _ id); cbn; apply lookup_insert_eq|]). apply rtc_refl.
  - cbn. apply lookup_delete_eq.
  - done.
  - done.
  - cbn. by rewrite lookup_alter_eq.
  - intros name id'. rewrite <- !in_table_purge. split.
    + unfold s', group_table, table_purge. cbn. by rewrite <- !map_fmap_compose.
    + unfold s', scope_table, table_purge. cbn. by rewrite <- !map_fmap_compose.
Qed.

(** The replies of the server leak: an echo or heartbeat reply carries the
    text to the client it answers, but once the connection has sent it one
    reference is left that nobody holds, and the message never returns to the
    pool. *)
Theorem replies_leak {Conn Raw} `{RS : Streams.RawStream Raw, QC : !QuicConn Conn Raw} sizeof f sid now typ text id
    (s : Server (@Connections.Connection Conn Raw * Transport.BaseTransport)) ss :
  Pool.pool_inv (pool s) -> Pool.heap (pool s) !! fresh f = None ->
  sessions s !! id = Some ss -> usable (Connection ss).1 = true ->
  Channels.chan_buf (sendQueue (Connection ss).1) = [] -> Channels.chan_closed (sendQueue (Connection ss).1) = false ->
  0 < Channels.chan_cap (sendQueue (Connection ss).1) ->
  exists ss' l m p k, sessions (reply f typ text id s) !! id = Some ss' /\
    handleSending sizeof sid now (pool (reply f typ text id s)) (Connection ss').1 = Some (p, k) /\
    Pool.heap p !! l = Some m /\ Type_ m = typ /\ Payload m = text /\ TargetClientID m = id /\
    refCount m = 1 /\ l ∉ Pool.free p.
Proof.
  intros Hp Hf Hss Hu Hb Hc Hcap. unfold reply.
  destruct (Pool.Get (pool s) (choice f) (fresh f) (mid f) (mnow f)) as [p1 l] eqn:EG.
  assert (Hm : exists m0, Pool.heap p1 !! l = Some m0 /\ refCount m0 = 1).
  { unfold Pool.Get in EG. destruct (_ ≫= _) as [[[i l0] m0]|]; injection EG as <- <-; cbn;
      rewrite lookup_insert_eq; by eexists. }
  destruct Hm as (m0 & Hm0 & Hr0).
  assert (Hl : l ∉ Pool.free p1).
  { apply Pool.live_not_free; [|by exists m0; rewrite Hr0].
    change p1 with (p1, l).1. rewrite <- EG. by apply Pool.Get_inv. }
  rewrite Hm0. set (msg := WithTarget id _).
  unfold send_to. cbn [sessions set_pool pool]. rewrite Hss. cbn [conn_send quic_server_conn].
  unfold Connections.SendMessage, enqueue, Channels.try_send.
  rewrite Hu, Hc, Hb. cbn [negb length]. rewrite (proj2 (Z.ltb_lt _ _)) by done. cbn [fst snd].
  eexists. exists l, (Pool.set_refCount 1 msg). do 2 eexists. split.
  { cbn. rewrite lookup_alter_eq, Hss. reflexivity. }
  split; [reflexivity|]. cbn. unfold Pool.Retain. cbn. rewrite lookup_insert_eq. unfold Pool.Release. cbn.
  rewrite lookup_insert_eq. cbn. rewrite Hr0.
  change (wrapS 32 (wrapS 32 (1 + 1) - 1)) with 1. cbn. rewrite lookup_insert_eq. by split_and!.
Qed.

(** ** Sample runs

    Connections that keep what is sent on them; control messages are the
    commands' first letters. *)
Module Samples.

Definition alice : ClientID := "a"%string.

#[export] Instance list_conn : ServerConn (list Pool.loc) :=
  {| conn_send l p c := (p, c ++ [l], None); conn_close c := c |}.

Definition parse (payload : list byte) : option ControlMessage :=
  match payload with
  | [x6a] => Some (mkControl "join_group" "red" "" ∅)
  | _ => None
  end.
Definition server : Type := Server (list Pool.loc).
Definition control_pool : Pool.MessagePool :=
  Pool.mkPool {[1%positive := WithPayload [x6a] (WithType MessageTypeControl (Pool.reset "m" 0 Pool.blank))]} [] 1 0.
Definition start (cfg : Config) : server := (Start None (NewServer cfg control_pool)).1.
(** The acceptor [k] accepts a connection for [id]. *)
Definition accepted (k : nat) (id : ClientID) (s : server) : server :=
  accept_count k id (accept_store k id 0 [] (accept_conn k [] (accept_test k s))).
Definition no_reply : fresh_message := mkFresh None 2 "r" 0.
Definition joined : server :=
  handler_received parse no_reply 0 "a" (Ok (Some 1%positive)) (handler_test "a" (accepted 0 "a" (start (limited_to 1)))).
Definition served : server := handler_test "a" joined.

Lemma accepted_steps k id (s : server) : acceptors s !! k = Some ATop -> running s = true ->
  sessions s !! id = None -> clientCount s < MaxClients (config s) -> rtc (step parse) s (accepted k id s).
Proof.
  intros Hk Hr Hid Hlt. pose proof (lookup_lt_Some _ _ _ Hk) as Hl. unfold accepted.
  eapply rtc_l; [by apply step_accept_test|].
  eapply rtc_l; [apply (step_accept_conn _ k []); cbn; rewrite Hr; by apply list_lookup_insert_eq|].
  eapply rtc_l.
  { apply (step_accept_store _ k [] id 0); [|done]. unfold accept_conn. cbn.
    rewrite (proj2 (Z.leb_gt _ _)) by done. apply list_lookup_insert_eq. by rewrite length_insert. }
  eapply rtc_l; [apply step_accept_count; cbn; apply list_lookup_insert_eq; by rewrite !length_insert|].
  apply rtc_refl.
Qed.

Lemma served_reachable : reachable parse (limited_to 1) served.
Proof.
  exists control_pool. eapply rtc_l; [apply (step_start _ None)|].
  etransitivity; [by apply (accepted_steps 0 "a")|].
  eapply rtc_l; [apply (step_handler_test _ "a"); vm_compute; reflexivity|].
  eapply rtc_l; [apply (step_handler_received _ no_reply 0 "a" (Ok (Some 1%positive))); vm_compute; reflexivity|].
  eapply rtc_l; [apply (step_handler_test _ "a"); vm_compute; reflexivity|]. apply rtc_refl.
Qed.

(** A second acceptor goroutine after a restart. *)
Definition stop (s : server) : server := match Stop s with Done (s', _) => s' | Panic => s end.
Definition restarted : server := accept_failed 0 ((Start None (stop (accept_test 0 (start (limited_to 1))))).1).
Definition both_checked : server := accept_conn 1 [] (accept_conn 0 [] (accept_test 1 (accept_test 0 restarted))).
Definition crowded : server :=
  accept_count 1 "b" (accept_count 0 "a" (accept_store 1 "b" 0 [] (accept_store 0 "a" 0 [] both_checked))).

Lemma crowded_reachable : reachable parse (limited_to 1) crowded.
Proof.
  exists control_pool. eapply rtc_l; [apply (step_start _ None)|].
  eapply rtc_l; [apply (step_accept_test _ 0); reflexivity|].
  eapply rtc_l; [by apply (step_stop _ _ (stop (accept_test 0 (start (limited_to 1)))) None)|].
  eapply rtc_l; [apply (step_start _ None)|].
  eapply rtc_l; [apply (step_accept_failed _ 0); reflexivity|].
  eapply rtc_l; [apply (step_accept_test _ 0); reflexivity|].
  eapply rtc_l; [apply (step_accept_test _ 1); reflexivity|].
  eapply rtc_l; [apply (step_accept_conn _ 0 []); reflexivity|].
  eapply rtc_l; [apply (step_accept_conn _ 1 []); reflexivity|].
  eapply rtc_l; [apply (step_accept_store _ 0 [] "a" 0); vm_compute; reflexivity|].
  eapply rtc_l; [apply (step_accept_store _ 1 [] "b" 0); vm_compute; reflexivity|].
  eapply rtc_l; [apply (step_accept_count _ 0 "a"); vm_compute; reflexivity|].
  eapply rtc_l; [apply (step_accept_count _ 1 "b"); vm_compute; reflexivity|].
  apply rtc_refl.
Qed.
End Samples.
#[local] Existing Instance Samples.list_conn.

(** With two acceptors the limit of one client is passed, by one. *)
Lemma server_limit_witness :
  size (clients Samples.crowded) = 2%nat /\ Z.of_nat (size (clients Samples.crowded)) <= Z.max 0 1 + Z.max 0 (2 - 1).
Proof.
  split; [vm_compute; reflexivity|].
  exact (proj1 (server_limit Samples.parse (limited_to 1) Samples.crowded Samples.crowded_reachable ltac:(vm_compute; reflexivity))).
Defined.

Lemma membership_agrees_witness : in_table (group_table Samples.served) "red" "a".
Proof.
  apply (proj1 (membership_agrees Samples.parse (limited_to 1) Samples.served "red" "a" Samples.served_reachable)).
  do 2 eexists. split; [vm_compute; reflexivity|]. split; [vm_compute; reflexivity|].
  split; [reflexivity|]. vm_compute. reflexivity.
Defined.

Lemma broadcast_exact_witness :
  exists ids, BroadcastToGroup "red" Samples.served = Ok ids /\ NoDup ids /\ "a" ∈ ids /\
    exists ss, sessions (broadcast_sends 7%positive ids Samples.served) !! "a" = Some ss /\ Connection ss = [7%positive].
Proof.
  pose proof (broadcast_exact Samples.parse (limited_to 1) Samples.served "red" Samples.served_reachable) as H.
  destruct (BroadcastToGroup "red" Samples.served) as [ids|] eqn:E; [|vm_compute in E; discriminate].
  destruct H as (_ & Hnd & Hids & Hs). assert ("a" ∈ ids) as Ha.
  { apply Hids. do 2 eexists. split; [vm_compute; reflexivity|]. split; [vm_compute; reflexivity|].
    split; [reflexivity|]. vm_compute. reflexivity. }
  exists ids. split; [done|]. split; [done|]. split; [done|].
  destruct (proj2 (Hs 7%positive ids "a" (Permutation_refl _)) Ha) as (ss & p & Hss & Hs').
  eexists. split; [exact Hs'|]. cbn. vm_compute in Hss. injection Hss as <-. reflexivity.
Defined.

Lemma leaving_cleans_witness :
  let s' := foldl (fun s h => handler_leave "a" h s)
    (handler_received Samples.parse Samples.no_reply 0 "a" (Err (Errors.Sentinel Errors.ErrConnectionTimeout)) Samples.served)
    [HDelete; HCount; HGroups; HScopes; HClose] in
  handlers Samples.served !! Samples.alice = Some HReceive /\ handlers s' !! Samples.alice = None.
Proof.
  intros s'. split; [vm_compute; reflexivity|].
  apply (leaving_cleans Samples.parse (limited_to 1) Samples.no_reply 0 "a" (Errors.Sentinel Errors.ErrConnectionTimeout) Samples.served Samples.served_reachable
    ltac:(vm_compute; reflexivity)).
Defined.

Definition quic_session : ClientSession (Connections.Connection unit Streams.Pipe * Transport.BaseTransport) :=
  mkSession (conn_with 0 5 [], Transport.NewBaseTransport) ∅ ∅ 0 0 true.
Definition quic_sample : Server (Connections.Connection unit Streams.Pipe * Transport.BaseTransport) :=
  set_sessions {[ Samples.alice := quic_session ]} (NewServer (limited_to 1) Pool.NewMessagePool).

Lemma replies_leak_witness :
  exists ss' l m p k, sessions (reply Samples.no_reply MessageTypeHeartbeat pong "a" quic_sample) !! Samples.alice = Some ss' /\
    handleSending 96 "s" 0 (pool (reply Samples.no_reply MessageTypeHeartbeat pong "a" quic_sample)) (Connection ss').1 = Some (p, k) /\
    Pool.heap p !! l = Some m /\ refCount m = 1 /\ l ∉ Pool.free p.
Proof.
  assert (Hp : Pool.pool_inv (pool quic_sample)).
  { split; [apply NoDup_nil_2|]. intros l Hl. inversion Hl. }
  destruct (replies_leak 96 Samples.no_reply "s" 0 MessageTypeHeartbeat pong "a" quic_sample quic_session Hp)
    as (ss' & l & m & p & k & H1 & H2 & H3 & _ & _ & _ & H4 & H5); [vm_compute; reflexivity..|].
  exists ss', l, m, p, k. split_and!; assumption.
Defined.
