(* ===== verification/SdkClient.v ===== *)
(** * The Go SDK's client ([src/sdk/go/client/client.go])

    The client keeps one connection, remembers the groups and scopes it joined
    and runs three goroutines per connection: a receiver, a health monitor and
    a reconnection handler. Connections are shared objects: [conns] lists every
    connection ever dialed, and [conn] is the index of the one the client uses.

    The first part models the methods that run alone; the second the life of
    the client, one step per atomic operation of a goroutine: the three
    workers, and the program's calls of [Connect], [Disconnect] and [Close]. *)
From S2P Require Import Prelude Messages Streams Connections Server.
From Stdlib Require Import ZArith Lia Strings.Byte Strings.String.
From stdpp Require Import base tactics list strings gmap sets fin_maps fin_sets relations.
Open Scope Z_scope.

Inductive client_error : Type :=
  | ErrClientClosed | ErrNotConnected | ErrAlreadyConnected | ErrConnectionTimeout | ErrReconnectFailed
  | ErrInvalidConfig | ErrHandlerNotFound | ErrMessageTimeout | ErrInvalidMessage | ErrGroupNotFound | ErrScopeNotFound
  | ErrConn (e : Errors.error)        (* an error of the connection or the transport *)
  | ErrJSON                           (* an error of [json.Marshal] *)
  | ErrDeadline.                      (* [context.DeadlineExceeded] *)

(** Durations in nanoseconds; the log level and the custom options are left out. *)
Record Config : Type := mkConfig {
  ServerAddr : string;
  ConnectTimeout : Z;
  ReconnectInterval : Z;
  MaxReconnectAttempts : Z;
  MessageTimeout : Z;
  MaxMessageSize : Z;
  MessageBufferSize : Z;
  HeartbeatInterval : Z;
  HealthCheckTimeout : Z
}.
Definition DefaultClientConfig : Config := {|
  ServerAddr := "127.0.0.1:8080";
  ConnectTimeout := 30 * second;
  ReconnectInterval := 5 * second;
  MaxReconnectAttempts := 10;
  MessageTimeout := 10 * second;
  MaxMessageSize := 1024 * 1024;
  MessageBufferSize := 1000;
  HeartbeatInterval := 30 * second;
  HealthCheckTimeout := 5 * second
|}.

Inductive EventType : Type :=
  | EventTypeConnected | EventTypeDisconnected | EventTypeReconnecting | EventTypeError
  | EventTypeJoinedGroup | EventTypeLeftGroup | EventTypeJoinedScope | EventTypeLeftScope.
#[export] Instance EventType_eq_dec : EqDecision EventType.
Proof. solve_decision. Defined.

(** The [Error] of an event is never set. *)
Record Event : Type := mkEvent { EType : EventType; ETime : Z; EData : gmap string string }.

(** What the client needs of [protocol.Connection] besides what the server
    does: whether [Done] is closed, and the addresses. *)
Class ClientConn (C : Type) `{ServerConn C} : Type := {
  conn_done : C -> bool;
  local_addr : C -> string;
  remote_addr : C -> string
}.

(** ** Goroutines *)

(** Where a call of [Connect] is: before its test of [closed], of [connected],
    the new transport, the dialing, the store to [connected], [startWorkers],
    the event. *)
Inductive connect_pc : Type := CnClosed | CnConnected | CnTransport | CnDial | CnStore (k : nat) | CnWorkers (k : nat) | CnEmit (k : nat).
(** Where a call of [Disconnect] is: before the compare-and-swap, the closing
    of the connection, in [Wait], before the event. *)
Inductive disconnect_pc : Type := DiCas | DiClose | DiWait | DiEmit.
(** Where a call of [Close] is. *)
Inductive close_pc : Type := ClCas | ClTest | ClDisconnect (d : disconnect_pc) | ClTransport | ClDone.

Inductive goroutine : Type :=
  | RecvConnected | RecvClosed | RecvWait                  (* [messageReceiver] *)
  | MonSelect                                              (* [healthMonitor] *)
  | RecTop | RecSelect (k : nat) | RecLost | RecStore | RecEmit
  | RecAttempt (n : Z) (pc : connect_pc)                   (* [reconnectionHandler] *)
  | CallConnect (pc : connect_pc) | CallDisconnect (pc : disconnect_pc) | CallClose (pc : close_pc)
  | Returned.

(** What a step is given by the outside: the result of dialing, of receiving,
    or the ready case of a [select]. *)
Inductive input {C : Type} : Type :=
  | INone
  | IDial (r : result Errors.error C)
  | IRecv (r : result Errors.error (option Pool.loc))
  | ITick | IConnDone | IDone.
Arguments input : clear implicits.

Section Client.
Context {C H : Type} {SC : ServerConn C} {CC : ClientConn C}.
(** [json.Marshal] of a map from strings to strings. *)
Context (Marshal : gmap string string -> list byte).

(** The connection and the flags. [transport] is whether the transport of the
    last [Connect] was closed. *)
Record Link : Type := mkLink {
  conns : list C; conn : option nat; transport : option bool; connected : bool; closed : bool; done : bool }.
(** The goroutines of the client and its callers, those started for handlers,
    and whether one dereferenced a nil connection. *)
Record Threads : Type := mkThreads {
  workers : Z; threads : list goroutine; called : list (H * Pool.loc); notified : list (H * Event); crashed : bool }.
Record Client : Type := mkClient {
  id : ClientID;
  config : Config;
  groups : gset string;
  scopes : gset string;
  metadata : gmap string any;
  messageHandlers : gmap Z (list H);
  eventHandlers : EventType -> list H;
  pool : Pool.MessagePool;
  link : Link;
  go : Threads
}.

Definition NewClient (id : ClientID) (cfg : Config) (p : Pool.MessagePool) : Client :=
  mkClient id cfg ∅ ∅ ∅ ∅ (fun _ => []) p (mkLink [] None None false false false) (mkThreads 0 [] [] [] false).

Definition set_link (l : Link) (c : Client) : Client :=
  mkClient (id c) (config c) (groups c) (scopes c) (metadata c) (messageHandlers c) (eventHandlers c) (pool c) l (go c).
Definition set_go (g : Threads) (c : Client) : Client :=
  mkClient (id c) (config c) (groups c) (scopes c) (metadata c) (messageHandlers c) (eventHandlers c) (pool c) (link c) g.
Definition set_subs (g s : gset string) (c : Client) : Client :=
  mkClient (id c) (config c) g s (metadata c) (messageHandlers c) (eventHandlers c) (pool c) (link c) (go c).
Definition set_pool (p : Pool.MessagePool) (c : Client) : Client :=
  mkClient (id c) (config c) (groups c) (scopes c) (metadata c) (messageHandlers c) (eventHandlers c) p (link c) (go c).
Definition set_handlers (mh : gmap Z (list H)) (eh : EventType -> list H) (c : Client) : Client :=
  mkClient (id c) (config c) (groups c) (scopes c) (metadata c) mh eh (pool c) (link c) (go c).

Definition set_conns (cs : list C) (l : Link) : Link := mkLink cs (conn l) (transport l) (connected l) (closed l) (done l).
Definition set_conn (k : option nat) (l : Link) : Link := mkLink (conns l) k (transport l) (connected l) (closed l) (done l).
Definition set_transport (t : option bool) (l : Link) : Link := mkLink (conns l) (conn l) t (connected l) (closed l) (done l).
Definition set_flags (cn cl dn : bool) (l : Link) : Link := mkLink (conns l) (conn l) (transport l) cn cl dn.

Definition set_threads (w : Z) (ts : list goroutine) (g : Threads) : Threads :=
  mkThreads w ts (called g) (notified g) (crashed g).
Definition crash (c : Client) : Client :=
  set_go (mkThreads (workers (go c)) (threads (go c)) (called (go c)) (notified (go c)) true) c.

(** [conn] is used through the pointer: a nil pointer crashes. *)
Definition with_conn (f : nat -> C -> Client -> Client) (c : Client) : Client :=
  match conn (link c) with
  | None => crash c
  | Some k => match conns (link c) !! k with None => crash c | Some x => f k x c end
  end.

(** ** Handlers and events *)
Definition emitEvent (ev : Event) (c : Client) : Client :=
  let g := go c in
  set_go (mkThreads (workers g) (threads g) (called g)
            (notified g ++ ((fun h => (h, ev)) <$> eventHandlers c (EType ev))) (crashed g)) c.

Definition OnMessage (msgType : Z) (h : H) (c : Client) : Client :=
  set_handlers (<[msgType := default [] (messageHandlers c !! msgType) ++ [h]]> (messageHandlers c)) (eventHandlers c) c.
Definition OnEvent (eventType : EventType) (h : H) (c : Client) : Client :=
  set_handlers (messageHandlers c)
    (fun t => if decide (t = eventType) then eventHandlers c t ++ [h] else eventHandlers c t) c.

(** The handlers run in goroutines of their own. *)
Definition handleMessage (l : Pool.loc) (c : Client) : Client :=
  let hs := default [] (messageHandlers c !! Type_ (default Pool.blank (Pool.heap (pool c) !! l))) in
  let g := go c in
  set_pool (Pool.Release (pool c) l)
    (set_go (mkThreads (workers g) (threads g) (called g ++ ((fun h => (h, l)) <$> hs)) (notified g) (crashed g)) c).

Definition SetMetadata (key : string) (value : any) (c : Client) : Client :=
  mkClient (id c) (config c) (groups c) (scopes c) (<[key := value]> (metadata c)) (messageHandlers c)
    (eventHandlers c) (pool c) (link c) (go c).
Definition GetMetadata (key : string) (c : Client) : option any := metadata c !! key.
Definition ID (c : Client) : ClientID := id c.
Definition IsConnected (c : Client) : bool := connected (link c).
Definition IsClosed (c : Client) : bool := closed (link c).

(** ** Sending *)
Definition SendMessage (l : Pool.loc) (c : Client) : outcome (Client * option client_error) :=
  if negb (connected (link c)) then Done (c, Some ErrNotConnected)
  else if closed (link c) then Done (c, Some ErrClientClosed)
  else
    let p := Pool.mkPool (alter (WithSource (id c)) l (Pool.heap (pool c))) (Pool.free (pool c))
               (Pool.gets (pool c)) (Pool.puts (pool c)) in
    match (k ← conn (link c); x ← conns (link c) !! k; Some (k, x)) with
    | None => Panic
    | Some (k, x) =>
        let '(p, x, err) := conn_send l p x in
        Done (set_pool p (set_link (set_conns (<[k := x]> (conns (link c))) (link c)) c), ErrConn <$> err)
    end.

(** [SendMessageAsync] sends from a goroutine; [timeout] is whether the
    deadline was taken before its error. Neither [closed] nor the source is
    looked at. *)
Definition SendMessageWithTimeout (l : Pool.loc) (timeout : bool) (c : Client) : outcome (Client * option client_error) :=
  if negb (connected (link c)) then Done (c, Some ErrNotConnected)
  else
    match (k ← conn (link c); x ← conns (link c) !! k; Some (k, x)) with
    | None => Panic
    | Some (k, x) =>
        let '(p, x, err) := conn_send l (pool c) x in
        Done (set_pool p (set_link (set_conns (<[k := x]> (conns (link c))) (link c)) c),
              if timeout then Some ErrDeadline else ErrConn <$> err)
    end.

(** A message allocated at the new location [l]. *)
Definition allocate (l : Pool.loc) (m : Message) (c : Client) : Client :=
  set_pool (Pool.mkPool (<[l := m]> (Pool.heap (pool c))) (Pool.free (pool c)) (Pool.gets (pool c)) (Pool.puts (pool c))) c.

Definition SendBytes (l : Pool.loc) (mid : MessageID) (now msgType : Z) (data : list byte) (c : Client)
    : outcome (Client * option client_error) :=
  SendMessage l (allocate l (NewMessageFromBytes mid now msgType data) c).
Definition SendString (l : Pool.loc) (mid : MessageID) (now msgType : Z) (text : string) (c : Client)
    : outcome (Client * option client_error) :=
  SendBytes l mid now msgType (list_byte_of_string text) c.
(** [marshalled] is what [json.Marshal] gives. *)
Definition SendJSON (l : Pool.loc) (mid : MessageID) (now msgType : Z) (marshalled : option (list byte)) (c : Client)
    : outcome (Client * option client_error) :=
  match marshalled with
  | None => Done (c, Some ErrJSON)
  | Some data => SendMessage l (allocate l (NewMessageFromBytes mid now msgType data) c)
  end.

(** ** Groups and scopes *)

(** A control message built with [NewMessageBuilder]. *)
Definition control (f : fresh_message) (action key name : string) (c : Client) : Client * Pool.loc :=
  let '(p, l) := Pool.Get (pool c) (Server.choice f) (Server.fresh f) (Server.mid f) (Server.mnow f) in
  let m := WithPayload (Marshal (<["action"%string := action]> {[key := name]}))
             (WithType MessageTypeControl (default Pool.blank (Pool.heap p !! l))) in
  (set_pool (Pool.mkPool (<[l := m]> (Pool.heap p)) (Pool.free p) (Pool.gets p) (Pool.puts p)) c, l).

(** The four methods: guard, message, and on success what they record and the
    event. *)
Definition JoinGroup (f : fresh_message) (now : Z) (groupName : string) (c : Client) : outcome (Client * option client_error) :=
  if negb (connected (link c)) then Done (c, Some ErrNotConnected)
  else
    let '(c, l) := control f "join_group" "group" groupName c in
    r ← SendMessage l c;
    let '(c, err) := r : Client * option client_error in
    match err with
    | Some e => Done (c, Some e)
    | None =>
        let c := set_subs ({[groupName]} ∪ groups c) (scopes c) c in
        Done (emitEvent (mkEvent EventTypeJoinedGroup now {["group"%string := groupName]}) c, None)
    end.
Definition LeaveGroup (f : fresh_message) (now : Z) (groupName : string) (c : Client) : outcome (Client * option client_error) :=
  if negb (connected (link c)) then Done (c, Some ErrNotConnected)
  else
    let '(c, l) := control f "leave_group" "group" groupName c in
    r ← SendMessage l c;
    let '(c, err) := r : Client * option client_error in
    match err with
    | Some e => Done (c, Some e)
    | None =>
        let c := set_subs (groups c ∖ {[groupName]}) (scopes c) c in
        Done (emitEvent (mkEvent EventTypeLeftGroup now {["group"%string := groupName]}) c, None)
    end.
Definition SubscribeToScope (f : fresh_message) (now : Z) (scopeName : string) (c : Client) : outcome (Client * option client_error) :=
  if negb (connected (link c)) then Done (c, Some ErrNotConnected)
  else
    let '(c, l) := control f "subscribe_scope" "scope" scopeName c in
    r ← SendMessage l c;
    let '(c, err) := r : Client * option client_error in
    match err with
    | Some e => Done (c, Some e)
    | None =>
        let c := set_subs (groups c) ({[scopeName]} ∪ scopes c) c in
        Done (emitEvent (mkEvent EventTypeJoinedScope now {["scope"%string := scopeName]}) c, None)
    end.
Definition UnsubscribeFromScope (f : fresh_message) (now : Z) (scopeName : string) (c : Client) : outcome (Client * option client_error) :=
  if negb (connected (link c)) then Done (c, Some ErrNotConnected)
  else
    let '(c, l) := control f "unsubscribe_scope" "scope" scopeName c in
    r ← SendMessage l c;
    let '(c, err) := r : Client * option client_error in
    match err with
    | Some e => Done (c, Some e)
    | None =>
        let c := set_subs (groups c) (scopes c ∖ {[scopeName]}) c in
        Done (emitEvent (mkEvent EventTypeLeftScope now {["scope"%string := scopeName]}) c, None)
    end.

(** ** The life of the client

    [connect_step], [disconnect_step] and [close_step] are one operation of the
    method; the second component is where the call is next, or its result. An
    operation that waits gives [None]. *)
Definition connected_event (now : Z) (c : Client) (x : C) : Event :=
  mkEvent EventTypeConnected now
    (<["server_addr"%string := ServerAddr (config c)]>
      (<["local_addr"%string := local_addr x]> {["remote_addr"%string := remote_addr x]})).

Definition connect_step (now : Z) (i : input C) (pc : connect_pc) (c : Client)
    : option (Client * (connect_pc + option client_error)) :=
  let l := link c in
  match pc with
  | CnClosed => Some (c, if closed l then inr (Some ErrClientClosed) else inl CnConnected)
  | CnConnected => Some (c, if connected l then inr (Some ErrAlreadyConnected) else inl CnTransport)
  | CnTransport => Some (set_link (set_transport (Some false) l) c, inl CnDial)
  | CnDial =>
      match i with
      | IDial (Err e) => Some (c, inr (Some (ErrConn e)))
      | IDial (Ok x) =>
          let k := length (conns l) in
          Some (set_link (set_conn (Some k) (set_conns (conns l ++ [x]) l)) c, inl (CnStore k))
      | _ => None
      end
  | CnStore k => Some (set_link (set_flags true (closed l) (done l) l) c, inl (CnWorkers k))
  | CnWorkers k =>
      let g := go c in
      Some (set_go (set_threads (workers g + 3) (threads g ++ [RecvConnected; MonSelect; RecTop]) g) c, inl (CnEmit k))
  | CnEmit k =>
      match conns l !! k with
      | Some x => Some (emitEvent (connected_event now c x) c, inr None)
      | None => None
      end
  end.

Definition disconnect_step (now : Z) (d : disconnect_pc) (c : Client)
    : option (Client * (disconnect_pc + option client_error)) :=
  let l := link c in
  match d with
  | DiCas =>
      if connected l then Some (set_link (set_flags false (closed l) (done l) l) c, inl DiClose)
      else Some (c, inr (Some ErrNotConnected))
  | DiClose =>
      Some (match conn l with
            | None => c
            | Some k => set_link (set_conns (alter conn_close k (conns l)) l) c
            end, inl DiWait)
  | DiWait => if workers (go c) =? 0 then Some (c, inl DiEmit) else None
  | DiEmit => Some (emitEvent (mkEvent EventTypeDisconnected now ∅) c, inr None)
  end.

Definition close_step (now : Z) (pc : close_pc) (c : Client) : option (Client * option close_pc) :=
  let l := link c in
  match pc with
  | ClCas => if closed l then Some (c, None) else Some (set_link (set_flags (connected l) true (done l) l) c, Some ClTest)
  | ClTest => Some (c, Some (if connected l then ClDisconnect DiCas else ClTransport))
  | ClDisconnect d =>
      r ← disconnect_step now d c;
      Some (r.1, Some (match r.2 with inl d => ClDisconnect d | inr _ => ClTransport end))
  | ClTransport => Some (set_link (set_transport ((fun _ => true) <$> transport l) l) c, Some ClDone)
  | ClDone => Some (set_link (set_flags (connected l) (closed l) true l) c, None)
  end.

(** A worker returns: [workerGroup.Done]. *)
Definition worker_returns (c : Client) : Client * goroutine :=
  (set_go (set_threads (workers (go c) - 1) (threads (go c)) (go c)) c, Returned).

(** One operation of a goroutine: the client, and where the goroutine is next. *)
Definition thread_step (now : Z) (i : input C) (g : goroutine) (c : Client) : option (Client * goroutine) :=
  let l := link c in
  match g with
  | RecvConnected => Some (if connected l then (c, RecvClosed) else worker_returns c)
  | RecvClosed => Some (if closed l then worker_returns c else (with_conn (fun _ _ c => c) c, RecvWait))
  | RecvWait =>
      match i with
      | IRecv (Ok (Some m)) => Some (handleMessage m c, RecvConnected)
      | IRecv _ => Some (c, RecvConnected)
      | _ => None
      end
  | MonSelect =>
      match i with
      | ITick => Some (if connected l then (with_conn (fun _ _ c => c) c, MonSelect) else (c, MonSelect))
      | IDone => if done l then Some (worker_returns c) else None
      | _ => None
      end
  | RecTop =>
      Some (if closed l then worker_returns c
            else match conn l with None => (crash c, RecTop) | Some k => (c, RecSelect k) end)
  | RecSelect k =>
      match i with
      | IConnDone => x ← conns l !! k; if conn_done x then Some (c, RecLost) else None
      | IDone => if done l then Some (worker_returns c) else None
      | _ => None
      end
  | RecLost => Some (if closed l then worker_returns c else (c, RecStore))
  | RecStore => Some (set_link (set_flags false (closed l) (done l) l) c, RecEmit)
  | RecEmit =>
      Some (emitEvent (mkEvent EventTypeReconnecting now ∅) c,
            if 1 <=? MaxReconnectAttempts (config c) then RecAttempt 1 CnClosed else RecTop)
  | RecAttempt n pc =>
      r ← connect_step now i pc c;
      Some (r.1, match r.2 with
                 | inl pc => RecAttempt n pc
                 | inr None => RecTop
                 | inr (Some _) =>
                     if n + 1 <=? MaxReconnectAttempts (config c) then RecAttempt (n + 1) CnClosed else RecTop
                 end)
  | CallConnect pc =>
      r ← connect_step now i pc c;
      Some (r.1, match r.2 with inl pc => CallConnect pc | inr _ => Returned end)
  | CallDisconnect d =>
      r ← disconnect_step now d c;
      Some (r.1, match r.2 with inl d => CallDisconnect d | inr _ => Returned end)
  | CallClose pc =>
      r ← close_step now pc c;
      Some (r.1, match r.2 with Some pc => CallClose pc | None => Returned end)
  | Returned => None
  end.

(** Goroutine [j] takes a step. *)
Definition run (now : Z) (i : input C) (j : nat) (c : Client) : option Client :=
  g ← threads (go c) !! j;
  r ← thread_step now i g c;
  Some (set_go (set_threads (workers (go r.1)) (<[j := r.2]> (threads (go r.1))) (go r.1)) r.1).
(** The program calls a method in a goroutine of its own. *)
Definition call (g : goroutine) (c : Client) : Client :=
  set_go (set_threads (workers (go c)) (threads (go c) ++ [g]) (go c)) c.
Definition is_call (g : goroutine) : bool :=
  match g with
  | CallConnect CnClosed | CallDisconnect DiCas | CallClose ClCas => true
  | _ => false
  end.

(** A step of a goroutine, a call of the program, a connection that changes by
    itself or is sent on, or a method that touches neither the connections'
    table nor the flags. *)
Inductive step : Client -> Client -> Prop :=
  | step_run now i j c c' : run now i j c = Some c' -> step c c'
  | step_call g c : is_call g = true -> step c (call g c)
  | step_conn k x c : step c (set_link (set_conns (<[k := x]> (conns (link c))) (link c)) c)
  | step_subs g s c : step c (set_subs g s c)
  | step_pool p c : step c (set_pool p c)
  | step_handlers mh eh c : step c (set_handlers mh eh c)
  | step_metadata k v c : step c (SetMetadata k v c)
  | step_emit ev c : step c (emitEvent ev c).

Definition reachable (c : Client) : Prop := exists id cfg p, rtc step (NewClient id cfg p) c.
End Client.
Arguments Client : clear implicits.
Arguments Link : clear implicits.

(** ** The invariant of the client's life *)
Definition is_receiver (g : goroutine) : bool :=
  match g with RecvConnected | RecvClosed | RecvWait => true | _ => false end.
Definition is_monitor (g : goroutine) : bool := match g with MonSelect => true | _ => false end.
Definition is_reconnector (g : goroutine) : bool :=
  match g with RecTop | RecSelect _ | RecLost | RecStore | RecEmit | RecAttempt _ _ => true | _ => false end.
Definition is_worker (g : goroutine) : bool := is_receiver g || is_monitor g || is_reconnector g.
Definition starting_pc (pc : connect_pc) : bool := match pc with CnStore _ | CnWorkers _ => true | _ => false end.
(** A goroutine between the dialing of a connection and the start of its
    workers. *)
Definition is_starting (g : goroutine) : bool :=
  match g with RecAttempt _ pc | CallConnect pc => starting_pc pc | _ => false end.
(** A [Close] that won the compare-and-swap and has not closed [done]. *)
Definition is_closing (g : goroutine) : bool :=
  match g with CallClose (ClTest | ClDisconnect _ | ClTransport | ClDone) => true | _ => false end.

Lemma cnt_workers ts : cnt is_worker ts = cnt is_receiver ts + cnt is_monitor ts + cnt is_reconnector ts.
Proof. induction ts as [|g ts IH]; [done|]. cbn [cnt]. rewrite IH. destruct g; cbn; lia. Qed.

Section Invariant.
Context {C : Type}.
Implicit Types (l : Link C) (ts : list goroutine).

Definition pc_ok l (pc : connect_pc) : Prop :=
  match pc with CnStore k | CnWorkers k | CnEmit k => conn l <> None /\ (k < length (conns l))%nat | _ => True end.
Definition thread_ok l (g : goroutine) : Prop :=
  (is_worker g = true -> conn l <> None) /\
  match g with
  | RecSelect k => (k < length (conns l))%nat
  | RecAttempt _ pc | CallConnect pc => pc_ok l pc
  | _ => True
  end.

Record LifeInv l (w : Z) ts : Prop := {
  li_conn : match conn l with None => conns l = [] /\ connected l = false | Some k => (k < length (conns l))%nat end;
  li_threads : Forall (thread_ok l) ts;
  li_workers : w = cnt is_worker ts;
  li_open : closed l = false -> cnt is_closing ts = 0 /\ done l = false;
  li_closing : cnt is_closing ts + (if done l then 1 else 0) <= 1;
  li_monitors : done l = false -> cnt is_monitor ts + cnt is_starting ts = Z.of_nat (length (conns l));
  li_reconnectors : closed l = false -> cnt is_reconnector ts + cnt is_starting ts = Z.of_nat (length (conns l))
}.

Lemma pc_ok_mono l l' pc : (conn l <> None -> conn l' <> None) -> (length (conns l) <= length (conns l'))%nat ->
  pc_ok l pc -> pc_ok l' pc.
Proof. intros H1 H2. destruct pc; cbn; try done; intros [??]; split; auto; lia. Qed.

Lemma thread_ok_mono l l' g : (conn l <> None -> conn l' <> None) -> (length (conns l) <= length (conns l'))%nat ->
  thread_ok l g -> thread_ok l' g.
Proof.
  intros H1 H2 [Hw Hg]. split; [auto|].
  destruct g; try done; [lia|eapply pc_ok_mono; eauto..].
Qed.

Lemma threads_ok_mono l l' ts : (conn l <> None -> conn l' <> None) -> (length (conns l) <= length (conns l'))%nat ->
  Forall (thread_ok l) ts -> Forall (thread_ok l') ts.
Proof. intros H1 H2 H. eapply Forall_impl; [exact H|]. intros g. by apply thread_ok_mono. Qed.

(** A goroutine that moves within its role changes no count. *)
Definition same_role (g g' : goroutine) : Prop :=
  is_receiver g = is_receiver g' /\ is_monitor g = is_monitor g' /\ is_reconnector g = is_reconnector g' /\
  is_starting g = is_starting g' /\ is_closing g = is_closing g'.

Lemma cnt_same {A} (P : A -> bool) (l : list A) j x y : l !! j = Some x -> P x = P y -> cnt P (<[j := y]> l) = cnt P l.
Proof. intros Hj E. rewrite (cnt_insert P l j x y Hj), E. lia. Qed.

Lemma same_role_worker g g' : same_role g g' -> is_worker g = is_worker g'.
Proof. unfold same_role, is_worker. intros (-> & -> & -> & _). done. Qed.

Lemma inv_move l l' w ts j g g' : LifeInv l w ts -> ts !! j = Some g -> same_role g g' ->
  conn l' = conn l -> length (conns l') = length (conns l) -> (conn l = None -> connected l' = false) ->
  closed l' = closed l -> done l' = done l -> (thread_ok l g -> thread_ok l g') ->
  LifeInv l' w (<[j := g']> ts).
Proof.
  intros [Hc Ht Hw Ho Hcl Hm Hr] Hj Hs Ec En Ecn El Ed Hok.
  pose proof (same_role_worker _ _ Hs). destruct Hs as (?&?&?&?&?).
  pose proof (Forall_lookup_1 _ _ _ _ Ht Hj) as Hg.
  constructor; rewrite ?Ec, ?En, ?El, ?Ed; rewrite ?(cnt_same _ ts j g g') by done; try done.
  - destruct (conn l); [done|]. destruct Hc as [Hc _]. split; [|auto].
    rewrite Hc in En. by destruct (conns l').
  - apply (threads_ok_mono l); [by rewrite Ec|lia|]. apply Forall_insert; auto.
Qed.

Lemma inv_returns l w ts j g : LifeInv l w ts -> ts !! j = Some g -> is_worker g = true ->
  is_starting g = false -> (is_monitor g = true -> done l = true) -> (is_reconnector g = true -> closed l = true) ->
  LifeInv l (w - 1) (<[j := Returned]> ts).
Proof.
  intros [Hc Ht Hw Ho Hcl Hm Hr] Hj Hwk Hst Hmon Hrec.
  assert (is_closing g = false) by (destruct g; done).
  constructor; rewrite ?(cnt_insert _ ts j g Returned Hj); try done.
  - apply Forall_insert; [done|]. by split.
  - rewrite Hwk. cbn. lia.
  - intros E. destruct (Ho E). split; [|done]. cbn. destruct (is_closing g); [done|lia].
  - cbn. destruct (is_closing g); [done|lia].
  - intros E. rewrite Hst. cbn. destruct (is_monitor g) eqn:Em; [by rewrite Hmon in E|]. specialize (Hm E). lia.
  - intros E. rewrite Hst. cbn. destruct (is_reconnector g) eqn:Em; [by rewrite Hrec in E|]. specialize (Hr E). lia.
Qed.

Lemma inv_append l w ts g : LifeInv l w ts -> thread_ok l g -> is_worker g = false -> is_starting g = false ->
  is_closing g = false -> LifeInv l w (ts ++ [g]).
Proof.
  intros [Hc Ht Hw Ho Hcl Hm Hr] Hg Hwk Hst Hc'.
  assert (is_monitor g = false /\ is_reconnector g = false) as [Hmo Hre] by (destruct g; done).
  constructor; rewrite ?cnt_app; cbn [cnt]; rewrite ?Hwk, ?Hst, ?Hc', ?Hmo, ?Hre; try done; try lia.
  - apply Forall_app. split; [done|]. by constructor.
  - intros E. destruct (Ho E). split; [lia|done].
  - intros E. specialize (Hm E). lia.
  - intros E. specialize (Hr E). lia.
Qed.

Lemma inv_conns l w ts cs : LifeInv l w ts -> length cs = length (conns l) -> LifeInv (set_conns cs l) w ts.
Proof.
  intros [Hc Ht Hw Ho Hcl Hm Hr] E.
  constructor; cbn [set_conns conn conns connected closed done]; rewrite ?E; try done.
  - destruct (conn l); [done|]. destruct Hc as [Hc ?]. rewrite Hc in E. by destruct cs.
  - eapply threads_ok_mono; [| |exact Ht]; cbn; [done|lia].
Qed.

(** A connection is dialed. *)
Lemma inv_dial l w ts j g g' x : LifeInv l w ts -> ts !! j = Some g ->
  is_receiver g = is_receiver g' -> is_monitor g = is_monitor g' -> is_reconnector g = is_reconnector g' ->
  is_closing g = is_closing g' -> is_starting g = false -> is_starting g' = true ->
  let l' := set_conn (Some (length (conns l))) (set_conns (conns l ++ [x]) l) in
  thread_ok l' g' -> LifeInv l' w (<[j := g']> ts).
Proof.
  intros [Hc Ht Hw Ho Hcl Hm Hr] Hj E1 E2 E3 E4 S1 S2 l' Hok.
  assert (is_worker g = is_worker g') by (unfold is_worker; by rewrite E1, E2, E3).
  assert (length (conns l') = S (length (conns l))) as El by (unfold l'; cbn; rewrite length_app; cbn; lia).
  constructor; rewrite ?(cnt_same is_worker ts j g g'), ?(cnt_same is_monitor ts j g g'), ?(cnt_same is_closing ts j g g'),
    ?(cnt_same is_reconnector ts j g g'), ?(cnt_insert is_starting ts j g g' Hj), ?S1, ?S2, ?El by done; try done.
  - unfold l' at 1. cbn [set_conn conn]. lia.
  - apply Forall_insert; [|done]. eapply threads_ok_mono; [| |exact Ht]; [done|lia].
  - intros E. specialize (Hm E). lia.
  - intros E. specialize (Hr E). lia.
Qed.

(** The workers of a connection start. *)
Lemma inv_started l w ts j g g' : LifeInv l w ts -> ts !! j = Some g ->
  is_receiver g = is_receiver g' -> is_monitor g = is_monitor g' -> is_reconnector g = is_reconnector g' ->
  is_closing g = is_closing g' -> is_starting g = true -> is_starting g' = false -> conn l <> None -> thread_ok l g' ->
  LifeInv l (w + 3) (<[j := g']> (ts ++ [RecvConnected; MonSelect; RecTop])).
Proof.
  intros [Hc Ht Hw Ho Hcl Hm Hr] Hj E1 E2 E3 E4 S1 S2 Hn Hok.
  assert (is_worker g = is_worker g') by (unfold is_worker; by rewrite E1, E2, E3).
  assert ((ts ++ [RecvConnected; MonSelect; RecTop]) !! j = Some g) as Hj' by by apply lookup_app_l_Some.
  constructor; rewrite ?(cnt_same is_worker _ j g g'), ?(cnt_same is_monitor _ j g g'), ?(cnt_same is_closing _ j g g'),
    ?(cnt_same is_reconnector _ j g g'), ?(cnt_insert is_starting _ j g g' Hj'), ?S1, ?S2, ?cnt_app by done;
    cbn [cnt is_worker is_receiver is_monitor is_reconnector is_closing is_starting orb]; try done.
  - apply Forall_insert; [|done]. apply Forall_app. split; [done|]. repeat constructor; done.
  - lia.
  - intros E. destruct (Ho E). split; [lia|done].
  - lia.
  - intros E. specialize (Hm E). lia.
  - intros E. specialize (Hr E). lia.
Qed.

(** [Close] wins the compare-and-swap. *)
Lemma inv_closing l w ts j : LifeInv l w ts -> ts !! j = Some (CallClose ClCas) -> closed l = false ->
  LifeInv (set_flags (connected l) true (done l) l) w (<[j := CallClose ClTest]> ts).
Proof.
  intros [Hc Ht Hw Ho Hcl Hm Hr] Hj El. destruct (Ho El) as [Ho1 Ho2].
  constructor; cbn [set_flags conn conns connected closed done];
    rewrite ?(cnt_insert _ ts j _ (CallClose ClTest) Hj); cbn [is_worker is_receiver is_monitor is_reconnector is_closing is_starting orb]; try done.
  - apply Forall_insert; [|by split]. eapply threads_ok_mono; [| |exact Ht]; done.
  - lia.
  - rewrite Ho2. lia.
  - intros E. specialize (Hm E). lia.
Qed.

(** [Close] closes [done]. *)
Lemma inv_done l w ts j : LifeInv l w ts -> ts !! j = Some (CallClose ClDone) ->
  LifeInv (set_flags (connected l) (closed l) true l) w (<[j := Returned]> ts).
Proof.
  intros [Hc Ht Hw Ho Hcl Hm Hr] Hj.
  assert (0 < cnt is_closing ts) as Hp.
  { pose proof (cnt_insert is_closing ts j _ Returned Hj) as E. pose proof (cnt_nonneg is_closing (<[j:=Returned]> ts)).
    cbn in E. lia. }
  constructor; cbn [set_flags conn conns connected closed done];
    rewrite ?(cnt_insert _ ts j _ Returned Hj); cbn [is_worker is_receiver is_monitor is_reconnector is_closing is_starting orb]; try done.
  - apply Forall_insert; [|by split]. eapply threads_ok_mono; [| |exact Ht]; done.
  - lia.
  - intros E. destruct (Ho E). lia.
  - destruct (done l); lia.
  - intros E. destruct (Ho E). lia.
Qed.
End Invariant.

(** The next state, by computation; [E] says what the link is. *)
#[local] Ltac here E := cbn; eexists; split; [reflexivity|cbn; split; [first [exact E|reflexivity|by rewrite E|unfold set_conns, set_flags; cbn; congruence]|first [reflexivity|cbn; congruence]]].

Section Life.
Context {C H : Type} {SC : ServerConn C} {CC : ClientConn C}.
Implicit Types c : Client C H.

Definition ClientInv c : Prop :=
  LifeInv (link c) (workers (go c)) (threads (go c)) /\ crashed (go c) = false.

(** The client's connection is there whenever a worker uses it. *)
Lemma with_conn_id c : LifeInv (link c) (workers (go c)) (threads (go c)) -> conn (link c) <> None ->
  with_conn (fun _ _ c => c) c = c.
Proof.
  intros HI Hn. unfold with_conn. pose proof (li_conn _ _ _ HI) as Hc.
  destruct (conn (link c)) as [k|]; [|done]. by destruct (lookup_lt_is_Some_2 _ _ Hc) as [x ->].
Qed.

(** A step that moves within its role. *)
Ltac by_move HI Hj :=
  eapply inv_move;
  [exact HI|exact Hj|by repeat split|reflexivity|cbn; rewrite ?length_alter, ?length_insert; reflexivity
  |try done; let E := fresh in let Hc := fresh in
     intros E; pose proof (li_conn _ _ _ HI) as Hc; rewrite E in Hc; by destruct Hc
  |reflexivity|reflexivity|try done; unfold thread_ok; cbn; intuition (try done)].

Lemma inv_connect now i pc c c' r j g (g' : goroutine) :
  LifeInv (link c) (workers (go c)) (threads (go c)) -> threads (go c) !! j = Some g ->
  (g = CallConnect pc /\ g' = match r with inl pc => CallConnect pc | inr _ => Returned end) \/
  (exists n m, g = RecAttempt n pc /\
     g' = match r with inl pc => RecAttempt n pc | inr None => RecTop | inr (Some _) => m end /\
     (m = RecTop \/ exists n, m = RecAttempt n CnClosed)) ->
  connect_step now i pc c = Some (c', r) ->
  LifeInv (link c') (workers (go c')) (<[j := g']> (threads (go c'))) /\ crashed (go c') = crashed (go c).
Proof.
  intros HI Hj Hg. pose proof (Forall_lookup_1 _ _ _ _ (li_threads _ _ _ HI) Hj) as Hok.
  destruct pc; cbn [connect_step]; intros E.
  - injection E as <- <-. split; [|done].
    destruct Hg as [[-> ->]|(n & m & -> & -> & [->|[n' ->]])]; destruct (closed (link c)); by_move HI Hj.
  - injection E as <- <-. split; [|done].
    destruct Hg as [[-> ->]|(n & m & -> & -> & [->|[n' ->]])]; destruct (connected (link c)); by_move HI Hj.
  - injection E as <- <-. split; [|done]. destruct Hg as [[-> ->]|(n & m & -> & -> & _)]; by_move HI Hj.
  - destruct i as [|[x|e]| | | |]; try discriminate; injection E as <- <-; (split; [|done]).
    + destruct Hg as [[-> ->]|(n & m & -> & -> & _)]; (eapply inv_dial; [exact HI|exact Hj|done..|]);
        (split; [done|]); (split; [done|]); cbn; rewrite length_app; cbn; lia.
    + destruct Hg as [[-> ->]|(n & m & -> & -> & [->|[n' ->]])]; by_move HI Hj.
  - injection E as <- <-. split; [|done]. destruct Hg as [[-> ->]|(n & m & -> & -> & _)]; destruct Hok as [_ [Hn Hk]]; by_move HI Hj.
  - injection E as <- <-. split; [|done]. destruct Hg as [[-> ->]|(n & m & -> & -> & _)]; destruct Hok as [_ [Hn Hk]];
      (eapply inv_started; [exact HI|exact Hj|done..|]); by split.
  - destruct (conns (link c) !! k); [|done]. injection E as <- <-. split; [|done].
    destruct Hg as [[-> ->]|(n & m & -> & -> & _)]; destruct Hok as [_ [Hn Hk]]; by_move HI Hj.
Qed.

Lemma inv_disconnect now d c c' r j g g' :
  LifeInv (link c) (workers (go c)) (threads (go c)) -> threads (go c) !! j = Some g ->
  (g = CallDisconnect d /\ g' = match r with inl d => CallDisconnect d | inr _ => Returned end) \/
  (g = CallClose (ClDisconnect d) /\ g' = CallClose (match r with inl d => ClDisconnect d | inr _ => ClTransport end)) ->
  disconnect_step now d c = Some (c', r) ->
  LifeInv (link c') (workers (go c')) (<[j := g']> (threads (go c'))) /\ crashed (go c') = crashed (go c).
Proof.
  intros HI Hj Hg. destruct d; cbn [disconnect_step]; intros E.
  - destruct (connected (link c)) eqn:Ec; injection E as <- <-; (split; [|done]);
      destruct Hg as [[-> ->]|[-> ->]]; by_move HI Hj.
  - injection E as <- <-. destruct (conn (link c)) as [k|] eqn:Ek; (split; [|done]);
      destruct Hg as [[-> ->]|[-> ->]]; by_move HI Hj.
  - destruct (workers (go c) =? 0); [|done]. injection E as <- <-. split; [|done].
    destruct Hg as [[-> ->]|[-> ->]]; by_move HI Hj.
  - injection E as <- <-. split; [|done]. destruct Hg as [[-> ->]|[-> ->]]; by_move HI Hj.
Qed.

Lemma inv_close now pc c c' r j :
  LifeInv (link c) (workers (go c)) (threads (go c)) -> threads (go c) !! j = Some (CallClose pc) ->
  close_step now pc c = Some (c', r) ->
  LifeInv (link c') (workers (go c'))
    (<[j := match r with Some pc => CallClose pc | None => Returned end]> (threads (go c'))) /\ crashed (go c') = crashed (go c).
Proof.
  intros HI Hj. destruct pc; cbn [close_step]; intros E.
  - destruct (closed (link c)) eqn:Ec; injection E as <- <-; (split; [|done]); [by_move HI Hj|].
    by apply inv_closing.
  - injection E as <- <-. split; [|done]. destruct (connected (link c)); by_move HI Hj.
  - destruct (disconnect_step now d c) as [[c1 r1]|] eqn:E1; [|done]. injection E as <- <-.
    eapply inv_disconnect; [exact HI|exact Hj| |exact E1]. right. split; [done|]. by destruct r1.
  - injection E as <- <-. split; [|done]. by_move HI Hj.
  - injection E as <- <-. split; [|done]. by apply inv_done.
Qed.

Lemma inv_receiver now i g c c' g' j : is_receiver g = true ->
  LifeInv (link c) (workers (go c)) (threads (go c)) -> threads (go c) !! j = Some g ->
  thread_step now i g c = Some (c', g') ->
  LifeInv (link c') (workers (go c')) (<[j := g']> (threads (go c'))) /\ crashed (go c') = crashed (go c).
Proof.
  intros Hr HI Hj. pose proof (Forall_lookup_1 _ _ _ _ (li_threads _ _ _ HI) Hj) as [Hok _].
  destruct g; try done; cbn [thread_step]; intros E.
  - destruct (connected (link c)); injection E as <- <-; (split; [|done]); [by_move HI Hj|by eapply inv_returns].
  - destruct (closed (link c)); injection E as <- <-; [split; [|done]; by eapply inv_returns|].
    rewrite with_conn_id by auto. split; [|done]. by_move HI Hj.
  - destruct i as [| |[[m|]|e]| | |]; try done; injection E as <- <-; (split; [|done]); by_move HI Hj.
Qed.

Lemma inv_monitor now i c c' g' j :
  LifeInv (link c) (workers (go c)) (threads (go c)) -> threads (go c) !! j = Some MonSelect ->
  thread_step now i MonSelect c = Some (c', g') ->
  LifeInv (link c') (workers (go c')) (<[j := g']> (threads (go c'))) /\ crashed (go c') = crashed (go c).
Proof.
  intros HI Hj. pose proof (Forall_lookup_1 _ _ _ _ (li_threads _ _ _ HI) Hj) as [Hok _].
  cbn [thread_step]. intros E. destruct i; try done.
  - destruct (connected (link c)); injection E as <- <-; rewrite ?with_conn_id by auto; (split; [|done]); by_move HI Hj.
  - destruct (done (link c)) eqn:Ed; [|done]. injection E as <- <-. split; [|done]. by eapply inv_returns.
Qed.

Lemma inv_reconnector now i g c c' g' j : is_reconnector g = true ->
  LifeInv (link c) (workers (go c)) (threads (go c)) -> threads (go c) !! j = Some g ->
  thread_step now i g c = Some (c', g') ->
  LifeInv (link c') (workers (go c')) (<[j := g']> (threads (go c'))) /\ crashed (go c') = crashed (go c).
Proof.
  intros Hr HI Hj. pose proof (Forall_lookup_1 _ _ _ _ (li_threads _ _ _ HI) Hj) as [Hok _].
  assert (forall E : done (link c) = true, closed (link c) = true) as Hdc.
  { intros E. destruct (closed (link c)) eqn:Ecl; [done|]. by rewrite (proj2 (li_open _ _ _ HI Ecl)) in E. }
  destruct g; try done; cbn [thread_step]; intros E.
  - destruct (closed (link c)) eqn:Ecl; [injection E as <- <-; split; [|done]; by eapply inv_returns|].
    pose proof (li_conn _ _ _ HI) as Hc. destruct (conn (link c)) as [k|] eqn:Ek; [|by destruct (Hok eq_refl)].
    injection E as <- <-. split; [|done]. by_move HI Hj.
  - destruct i; try done.
    + destruct (conns (link c) !! k) as [x|]; [|done]. cbn in E. destruct (conn_done x); [|done].
      injection E as <- <-. split; [|done]. by_move HI Hj.
    + destruct (done (link c)) eqn:Ed; [|done]. injection E as <- <-. split; [|done]. by eapply inv_returns; [exact HI|exact Hj|..]; auto.
  - destruct (closed (link c)) eqn:Ecl; injection E as <- <-; (split; [|done]); [by eapply inv_returns|by_move HI Hj].
  - injection E as <- <-. split; [|done]. by_move HI Hj.
  - injection E as <- <-. split; [|done]. destruct (1 <=? _); by_move HI Hj.
  - destruct (connect_step now i pc c) as [[c1 r1]|] eqn:E1; [|done]. injection E as <- <-.
    eapply inv_connect; [exact HI|exact Hj| |exact E1]. right. exists n. eexists. split; [done|]. split; [reflexivity|].
    destruct (n + 1 <=? _); eauto.
Qed.

Lemma inv_thread now i g c c' g' j :
  LifeInv (link c) (workers (go c)) (threads (go c)) -> threads (go c) !! j = Some g ->
  thread_step now i g c = Some (c', g') ->
  LifeInv (link c') (workers (go c')) (<[j := g']> (threads (go c'))) /\ crashed (go c') = crashed (go c).
Proof.
  intros HI Hj E. destruct (is_receiver g) eqn:E1; [by eapply inv_receiver|].
  destruct (is_reconnector g) eqn:E2; [by eapply inv_reconnector|].
  destruct g; try done; [by eapply inv_monitor|..]; cbn [thread_step] in E.
  - destruct (connect_step now i pc c) as [[c1 r1]|] eqn:E3; [|done]. injection E as <- <-.
    eapply inv_connect; [exact HI|exact Hj| |exact E3]. by left.
  - destruct (disconnect_step now pc c) as [[c1 r1]|] eqn:E3; [|done]. injection E as <- <-.
    eapply inv_disconnect; [exact HI|exact Hj| |exact E3]. by left.
  - destruct (close_step now pc c) as [[c1 r1]|] eqn:E3; [|done]. injection E as <- <-. by eapply inv_close.
Qed.

Lemma ClientInv_step c c' : step c c' -> ClientInv c -> ClientInv c'.
Proof.
  intros Hs [HI Hcr]. destruct Hs as [now i j c c' E|g c Hg|k x c|gs ss c|p c|mh eh c|k v c|ev c]; try (by split).
  - unfold run in E. destruct (threads (go c) !! j) as [g|] eqn:Hj; [|done]. cbn in E.
    destruct (thread_step now i g c) as [[c1 g1]|] eqn:E1; [|done]. injection E as <-.
    destruct (inv_thread _ _ _ _ _ _ _ HI Hj E1) as [H1 H2]. split; [exact H1|]. cbn. by rewrite H2.
  - split; [|done]. destruct g as [| | | | | | | | | |[]|[]|[]|]; try done; apply inv_append; done.
  - split; [|done]. apply inv_conns; [done|]. by rewrite length_insert.
Qed.

Lemma ClientInv_rtc c c' : rtc step c c' -> ClientInv c -> ClientInv c'.
Proof. induction 1; eauto using ClientInv_step. Qed.

Lemma client_reachable_inv c : reachable c -> ClientInv c.
Proof.
  intros (id & cfg & p & Hr). apply (ClientInv_rtc _ _ Hr). split; [|done]. by constructor.
Qed.

(** ** A [Close] that waits *)
Definition waits (j : nat) c : Prop := threads (go c) !! j = Some (CallClose (ClDisconnect DiWait)).

Lemma waits_closing j c : ClientInv c -> waits j c -> done (link c) = false /\ forall i, threads (go c) !! i <> Some (CallClose ClDone).
Proof.
  intros [HI _] Hw. pose proof (li_closing _ _ _ HI) as Hc. pose proof (cnt_pos is_closing _ _ _ Hw eq_refl). split.
  - destruct (done (link c)); [lia|done].
  - intros i Hi. assert (i <> j) as Hne by (intros ->; unfold waits in Hw; congruence).
    pose proof (cnt_pos2 is_closing _ _ _ _ _ Hi Hw Hne eq_refl eq_refl). destruct (done (link c)); lia.
Qed.

(** A goroutine's step only adds goroutines. *)
Lemma connect_threads now i pc c c' r : connect_step now i pc c = Some (c', r) ->
  exists new, threads (go c') = threads (go c) ++ new.
Proof.
  destruct pc; cbn [connect_step]; intros E; repeat case_match; simplify_eq;
    first [by exists []; rewrite app_nil_r|by eexists].
Qed.

Lemma disconnect_threads now d c c' r : disconnect_step now d c = Some (c', r) -> threads (go c') = threads (go c).
Proof. destruct d; cbn [disconnect_step]; intros E; repeat case_match; by simplify_eq. Qed.

Lemma with_conn_threads c : threads (go (with_conn (fun _ _ c => c) c)) = threads (go c).
Proof. unfold with_conn. by repeat case_match. Qed.

Lemma thread_threads now i g c c' g' : thread_step now i g c = Some (c', g') ->
  exists new, threads (go c') = threads (go c) ++ new.
Proof.
  assert (forall c', threads (go c') = threads (go c) -> exists new, threads (go c') = threads (go c) ++ new) as Hsame.
  { intros c1 ->. exists []. by rewrite app_nil_r. }
  destruct g; cbn [thread_step]; intros E;
    lazymatch type of E with
    | context [connect_step _ _ ?pc _] =>
        destruct (connect_step now i pc c) as [[c1 r1]|] eqn:E1; [|done]; injection E as <- <-;
        by eapply connect_threads
    | context [disconnect_step _ ?d _] =>
        destruct (disconnect_step now d c) as [[c1 r1]|] eqn:E1; [|done]; injection E as <- <-;
        apply Hsame; by eapply disconnect_threads
    | context [close_step _ _ _] => idtac
    | _ => apply Hsame; unfold worker_returns in *; do 2 (repeat case_match; simplify_option_eq); rewrite ?with_conn_threads; done
    end.
  destruct (close_step now pc c) as [[c1 r1]|] eqn:E1; [|done]. injection E as <- <-. apply Hsame.
  destruct pc; cbn [close_step] in E1; repeat case_match; simplify_eq; try done.
  destruct (disconnect_step now d c) as [[c2 r2]|] eqn:E2; [|done]. injection E1 as <- _.
  by eapply disconnect_threads.
Qed.

Lemma run_other now i j m c c' g : run now i j c = Some c' -> j <> m ->
  threads (go c) !! m = Some g -> threads (go c') !! m = Some g.
Proof.
  intros E Hne Hm. unfold run in E. destruct (threads (go c) !! j) as [g1|] eqn:Hj; [|done]. cbn in E.
  destruct (thread_step now i g1 c) as [[c1 g2]|] eqn:E1; [|done]. injection E as <-. cbn.
  rewrite list_lookup_insert_ne by done. destruct (thread_threads _ _ _ _ _ _ E1) as [new ->].
  by apply lookup_app_l_Some.
Qed.

(** While [done] is open no monitor returns. *)
Lemma monitor_stays now i m j c c' : done (link c) = false -> threads (go c) !! m = Some MonSelect ->
  run now i j c = Some c' -> threads (go c') !! m = Some MonSelect.
Proof.
  intros Hd Hm E. destruct (decide (j = m)) as [->|Hne]; [|by eapply run_other].
  unfold run in E. rewrite Hm in E. cbn in E. destruct i; try done.
  - destruct (connected (link c)); injection E as <-; cbn; rewrite ?with_conn_threads;
      apply list_lookup_insert_eq; by eapply lookup_lt_Some.
  - by rewrite Hd in E.
Qed.

(** A step keeps a caller in [Wait] while a monitor is left. *)
Definition in_wait (g : goroutine) : bool :=
  match g with CallDisconnect DiWait | CallClose (ClDisconnect DiWait) => true | _ => false end.

Lemma in_wait_step j m g c c' : ClientInv c -> threads (go c) !! j = Some g -> in_wait g = true ->
  done (link c) = false -> threads (go c) !! m = Some MonSelect -> step c c' ->
  threads (go c') !! j = Some g /\ threads (go c') !! m = Some MonSelect.
Proof.
  intros HI Hw Hg Hd Hm Hs.
  destruct Hs as [now i k c c' E|g1 c Hg1|k x c|gs ss c|p c|mh eh c|k v c|ev c]; try (by split).
  - split; [|by eapply monitor_stays].
    destruct (decide (k = j)) as [->|Hne]; [|by eapply run_other].
    unfold run in E. rewrite Hw in E. cbn in E. destruct HI as [HI _].
    destruct (workers (go c) =? 0) eqn:Ew.
    + apply Z.eqb_eq in Ew. pose proof (cnt_pos is_worker _ _ _ Hm eq_refl). rewrite (li_workers _ _ _ HI) in Ew. lia.
    + destruct g as [| | | | | | | | | | |[]|[| |[]| |]|]; try done; cbn in E; by rewrite Ew in E.
  - split; cbn; by apply lookup_app_l_Some.
Qed.

Lemma waits_step j m c c' : ClientInv c -> waits j c -> threads (go c) !! m = Some MonSelect -> step c c' ->
  waits j c' /\ threads (go c') !! m = Some MonSelect.
Proof. intros HI Hw Hm Hs. destruct (waits_closing j c HI Hw) as [Hd _]. by eapply in_wait_step. Qed.

Lemma disconnect_waits_rtc j m c c' : ClientInv c -> threads (go c) !! j = Some (CallDisconnect DiWait) ->
  threads (go c) !! m = Some MonSelect -> rtc step c c' ->
  threads (go c') !! j = Some (CallDisconnect DiWait) \/ exists c1, rtc step c c1 /\ rtc step c1 c' /\ done (link c1) = true.
Proof.
  intros HI Hw Hm Hr. induction Hr as [c|c c1 c2 Hs Hr IH]; [by left|].
  destruct (done (link c)) eqn:Hd; [right; exists c; split_and!; [done|by eapply rtc_l|done]|].
  destruct (in_wait_step j m _ c c1 HI Hw eq_refl Hd Hm Hs) as [Hw' Hm'].
  destruct (IH (ClientInv_step _ _ Hs HI) Hw' Hm') as [?|(c3 & ? & ? & ?)]; [by left|right].
  exists c3. split_and!; [by eapply rtc_l|done..].
Qed.

Lemma waits_rtc j m c c' : ClientInv c -> waits j c -> threads (go c) !! m = Some MonSelect -> rtc step c c' ->
  waits j c' /\ done (link c') = false.
Proof.
  intros HI Hw Hm Hr. induction Hr as [c|c c1 c2 Hs _ IH]; [split; [done|]; by eapply waits_closing|].
  destruct (waits_step j m c c1 HI Hw Hm Hs). apply IH; [|done..]. by eapply ClientInv_step.
Qed.

(** ** Scheduling one goroutine

    From [c] the client came to [c'] by steps in which goroutine [j] got to [g]
    and the other goroutines did not move. *)
Record advanced (j : nat) c c' (g : goroutine) (l : Link C) : Prop := {
  ad_steps : rtc step c c';
  ad_link : link c' = l;
  ad_config : config c' = config c;
  ad_here : threads (go c') !! j = Some g;
  ad_others : forall m x, m <> j -> threads (go c) !! m = Some x -> threads (go c') !! m = Some x
}.

Lemma advanced_refl j c g : threads (go c) !! j = Some g -> advanced j c c g (link c).
Proof. by constructor. Qed.

Lemma advance now i j c c1 g l g' l' : advanced j c c1 g l ->
  (forall c1, link c1 = l -> config c1 = config c -> exists c2, thread_step now i g c1 = Some (c2, g') /\
     link c2 = l' /\ config c2 = config c1) ->
  exists c2, advanced j c c2 g' l'.
Proof.
  intros [Hs Hl Hc Hj Ho] H1. destruct (H1 c1 Hl Hc) as (c2 & E & E1 & E2).
  assert (run now i j c1 = Some (set_go (set_threads (workers (go c2)) (<[j := g']> (threads (go c2))) (go c2)) c2)) as Hr.
  { unfold run. rewrite Hj. cbn. by rewrite E. }
  destruct (thread_threads _ _ _ _ _ _ E) as [new En].
  eexists. constructor; [eapply rtc_r; [exact Hs|]; by eapply step_run|exact E1|cbn; congruence|..]; cbn.
  - apply list_lookup_insert_eq. rewrite En, length_app. pose proof (lookup_lt_Some _ _ _ Hj). lia.
  - intros m x Hne Hm. rewrite list_lookup_insert_ne by done. rewrite En. apply lookup_app_l_Some. auto.
Qed.

Lemma advanced_trans j j' c c1 c2 g g' l l' : advanced j c c1 g l -> advanced j' c1 c2 g' l' ->
  rtc step c c2 /\ config c2 = config c /\ link c2 = l' /\ threads (go c2) !! j' = Some g' /\
  (j <> j' -> threads (go c2) !! j = Some g).
Proof.
  intros [H1 H2 H3 H4 H5] [K1 K2 K3 K4 K5]. split_and!; [by etransitivity|congruence|done|done|].
  intros Hne. by apply K5.
Qed.

(** The call [g] runs in the last goroutine. *)
Lemma call_last g c : threads (go (call g c)) !! length (threads (go c)) = Some g.
Proof. cbn. rewrite lookup_app_r, Nat.sub_diag by lia. done. Qed.

(** The uninterrupted first steps of [Disconnect]. *)
Lemma disconnect_runs c k x : connected (link c) = true -> conn (link c) = Some k -> conns (link c) !! k = Some x ->
  exists c', advanced (length (threads (go c))) (call (CallDisconnect DiCas) c) c' (CallDisconnect DiWait)
    (mkLink (alter conn_close k (conns (link c))) (Some k) (transport (link c)) false (closed (link c)) (done (link c))).
Proof.
  intros Hc Hk Hx.
  destruct (advance 0 INone _ _ _ _ _ (CallDisconnect DiClose) (set_flags false (closed (link c)) (done (link c)) (link c))
    (advanced_refl _ _ _ (call_last (CallDisconnect DiCas) c))) as [c1 H1].
  { intros c1 El _. cbn in El. cbn [thread_step disconnect_step]. rewrite El, Hc. here El. }
  apply (advance 0 INone _ _ _ _ _ _ _ H1). intros c2 El _. cbn. rewrite El. cbn. rewrite Hk. here El.
Qed.

(** The uninterrupted first steps of [Close] on a connected client. *)
Lemma close_runs c k x : connected (link c) = true -> closed (link c) = false -> conn (link c) = Some k ->
  conns (link c) !! k = Some x ->
  exists c', advanced (length (threads (go c))) (call (CallClose ClCas) c) c' (CallClose (ClDisconnect DiWait))
    (mkLink (alter conn_close k (conns (link c))) (Some k) (transport (link c)) false true (done (link c))).
Proof.
  intros Hc Hcl Hk Hx.
  destruct (advance 0 INone _ _ _ _ _ (CallClose ClTest) (set_flags true true (done (link c)) (link c))
    (advanced_refl _ _ _ (call_last (CallClose ClCas) c))) as [c1 H1].
  { intros c1 El _. cbn in El. cbn [thread_step close_step]. rewrite El, Hcl, Hc. here El. }
  destruct (advance 0 INone _ _ _ _ _ (CallClose (ClDisconnect DiCas)) (set_flags true true (done (link c)) (link c)) H1) as [c2 H2].
  { intros c2 El _. cbn [thread_step close_step]. rewrite El. here El. }
  destruct (advance 0 INone _ _ _ _ _ (CallClose (ClDisconnect DiClose)) (set_flags false true (done (link c)) (link c)) H2) as [c3 H3].
  { intros c3 El _. cbn [thread_step close_step disconnect_step]. rewrite El. here El. }
  apply (advance 0 INone _ _ _ _ _ _ _ H3). intros c4 El _.
  cbn [thread_step close_step disconnect_step]. rewrite El. cbn. rewrite Hk. here El.
Qed.

(** The reconnection handler finds the connection lost and dials [y]. *)
Lemma reconnects c j k x y : threads (go c) !! j = Some (RecSelect k) -> conns (link c) !! k = Some x ->
  conn_done x = true -> closed (link c) = false -> 1 <= MaxReconnectAttempts (config c) ->
  exists c' , advanced j c c' (RecAttempt 1 (CnWorkers (length (conns (link c)))))
    (mkLink (conns (link c) ++ [y]) (Some (length (conns (link c)))) (Some false) true false (done (link c))).
Proof.
  intros Hj Hx Hd Hcl Hmax.
  destruct (advance 0 IConnDone _ _ _ _ _ RecLost (link c) (advanced_refl _ _ _ Hj)) as [c1 H1].
  { intros c1 El _. cbn. rewrite El, Hx. cbn. rewrite Hd. here El. }
  destruct (advance 0 INone _ _ _ _ _ RecStore (link c) H1) as [c2 H2].
  { intros c2 El _. cbn. rewrite El, Hcl. here El. }
  destruct (advance 0 INone _ _ _ _ _ RecEmit (set_flags false false (done (link c)) (link c)) H2) as [c3 H3].
  { intros c3 El _. cbn. rewrite El, Hcl. here El. }
  destruct (advance 0 INone _ _ _ _ _ (RecAttempt 1 CnClosed) (set_flags false false (done (link c)) (link c)) H3) as [c4 H4].
  { intros c4 El Ec. cbn. rewrite Ec, (proj2 (Z.leb_le _ _) Hmax). here El. }
  destruct (advance 0 INone _ _ _ _ _ (RecAttempt 1 CnConnected) (set_flags false false (done (link c)) (link c)) H4) as [c5 H5].
  { intros c5 El Ec. cbn. rewrite El. here El. }
  destruct (advance 0 INone _ _ _ _ _ (RecAttempt 1 CnTransport) (set_flags false false (done (link c)) (link c)) H5) as [c6 H6].
  { intros c6 El Ec. cbn. rewrite El. here El. }
  destruct (advance 0 INone _ _ _ _ _ (RecAttempt 1 CnDial)
    (set_transport (Some false) (set_flags false false (done (link c)) (link c))) H6) as [c7 H7].
  { intros c7 El Ec. cbn. rewrite El. here El. }
  destruct (advance 0 (IDial (Ok y)) _ _ _ _ _ (RecAttempt 1 (CnStore (length (conns (link c)))))
    (mkLink (conns (link c) ++ [y]) (Some (length (conns (link c)))) (Some false) false false (done (link c))) H7) as [c8 H8].
  { intros c8 El Ec. cbn. rewrite El. here El. }
  apply (advance 0 INone _ _ _ _ _ _ _ H8). intros c9 El Ec. cbn. rewrite El. here El.
Qed.

(** Whatever the goroutines and the program do, the client never uses a
    nil connection, the wait group counts the running workers, and every
    connection ever dialed has a health monitor of its own until [Close] has
    closed [done], and a reconnection handler of its own until [Close] is
    called: workers are never retired with the connection they were started
    for. *)
Theorem workers_accumulate c : reachable c ->
  crashed (go c) = false /\
  (connected (link c) = true -> exists k x, conn (link c) = Some k /\ conns (link c) !! k = Some x) /\
  workers (go c) = cnt is_receiver (threads (go c)) + cnt is_monitor (threads (go c)) + cnt is_reconnector (threads (go c)) /\
  (done (link c) = false ->
     cnt is_monitor (threads (go c)) + cnt is_starting (threads (go c)) = Z.of_nat (length (conns (link c)))) /\
  (closed (link c) = false ->
     cnt is_reconnector (threads (go c)) + cnt is_starting (threads (go c)) = Z.of_nat (length (conns (link c)))).
Proof.
  intros Hr. destruct (client_reachable_inv c Hr) as [HI Hcr]. split; [done|]. split.
  - intros Ec. pose proof (li_conn _ _ _ HI) as Hc. destruct (conn (link c)) as [k|]; [|destruct Hc; congruence].
    destruct (lookup_lt_is_Some_2 _ _ Hc) as [x Hx]. by exists k, x.
  - split; [rewrite <- cnt_workers; apply HI|]. split; apply HI.
Qed.

(** C7: [Close] on a connected client never returns: it gets as far as waiting
    for the workers, having set [closed] and closed the connection; the health
    monitor waits for [done], which only this [Close] would close, later. From
    there every execution leaves it waiting. *)
Theorem close_never_returns c m : reachable c -> connected (link c) = true -> closed (link c) = false ->
  threads (go c) !! m = Some MonSelect ->
  exists c', rtc step (call (CallClose ClCas) c) c' /\ closed (link c') = true /\ connected (link c') = false /\
    waits (length (threads (go c))) c' /\
    forall c'', rtc step c' c'' -> waits (length (threads (go c))) c'' /\ done (link c'') = false.
Proof.
  intros Hr Hc Hcl Hm. destruct (workers_accumulate c Hr) as (_ & Hconn & _).
  destruct (Hconn Hc) as (k & x & Hk & Hx).
  destruct (close_runs c k x Hc Hcl Hk Hx) as [c' [Hs Hl _ Hj Ho]]. exists c'.
  split_and!; [done|by rewrite Hl..|done|].
  intros c'' Hr'. apply (waits_rtc _ m _ _) with (2 := Hj) (4 := Hr').
  - apply (ClientInv_rtc _ _ Hs). eapply ClientInv_step; [by apply step_call|by apply client_reachable_inv].
  - apply Ho; [pose proof (lookup_lt_Some _ _ _ Hm); lia|]. cbn. by apply lookup_app_l_Some.
Qed.

(** [Disconnect] does not disconnect: closing the connection makes the
    reconnection handler dial again, and the client is connected by a new
    connection while the call of [Disconnect] still waits; it can return only
    after a [Close] has closed [done]. *)
Theorem disconnect_reconnects c m r k x y : reachable c -> connected (link c) = true -> closed (link c) = false ->
  threads (go c) !! m = Some MonSelect -> threads (go c) !! r = Some (RecSelect k) -> conn (link c) = Some k ->
  conns (link c) !! k = Some x -> conn_done (conn_close x) = true -> 1 <= MaxReconnectAttempts (config c) ->
  let j := length (threads (go c)) in
  exists c', rtc step (call (CallDisconnect DiCas) c) c' /\
    connected (link c') = true /\ conn (link c') = Some (length (conns (link c))) /\
    conns (link c') !! length (conns (link c)) = Some y /\ threads (go c') !! j = Some (CallDisconnect DiWait) /\
    forall c'', rtc step c' c'' -> threads (go c'') !! j = Some (CallDisconnect DiWait) \/
      exists c1, rtc step c' c1 /\ rtc step c1 c'' /\ done (link c1) = true.
Proof.
  intros Hr Hc Hcl Hm Hr' Hk Hx Hd Hmax j. pose proof (lookup_lt_Some _ _ _ Hr') as Hlt. pose proof (lookup_lt_Some _ _ _ Hm) as Hlm.
  destruct (disconnect_runs c k x Hc Hk Hx) as [c1 A1]. fold j in A1.
  assert (r <> j) by (unfold j; lia). assert (m <> j) by (unfold j; lia).
  destruct (reconnects c1 r k (conn_close x) y) as [c2 A2].
  { apply (ad_others _ _ _ _ _ A1); [done|]. cbn. by apply lookup_app_l_Some. }
  { rewrite (ad_link _ _ _ _ _ A1). cbn. by rewrite list_lookup_alter_eq, Hx. }
  { done. }
  { by rewrite (ad_link _ _ _ _ _ A1). }
  { by rewrite (ad_config _ _ _ _ _ A1). }
  destruct (advanced_trans _ _ _ _ _ _ _ _ _ A1 A2) as (Hs & _ & El & _ & Hj).
  rewrite (ad_link _ _ _ _ _ A1) in El. cbn in El. rewrite length_alter in El.
  exists c2. rewrite El. cbn. split_and!; try done.
  - rewrite lookup_app_r, length_alter, Nat.sub_diag by (rewrite length_alter; lia). done.
  - by apply Hj.
  - intros c'' Hs'. apply (disconnect_waits_rtc j m); [|by apply Hj| |done].
    + apply (ClientInv_rtc _ _ Hs). eapply ClientInv_step; [by apply step_call|by apply client_reachable_inv].
    + apply (ad_others _ _ _ _ _ A2); [by intros ->; congruence|]. apply (ad_others _ _ _ _ _ A1); [done|].
      cbn. by apply lookup_app_l_Some.
Qed.
End Life.

(** ** The client and the server agree *)

(** The four requests a client makes. *)
Inductive request : Type := RJoin (g : string) | RLeave (g : string) | RSubscribe (sc : string) | RUnsubscribe (sc : string).
Definition request_name (r : request) : string :=
  match r with RJoin n | RLeave n | RSubscribe n | RUnsubscribe n => n end.
Definition request_action (r : request) : string :=
  match r with
  | RJoin _ => "join_group" | RLeave _ => "leave_group"
  | RSubscribe _ => "subscribe_scope" | RUnsubscribe _ => "unsubscribe_scope"
  end.
Definition request_key (r : request) : string :=
  match r with RJoin _ | RLeave _ => "group" | RSubscribe _ | RUnsubscribe _ => "scope" end.
Definition request_map (r : request) : gmap string string :=
  <["action"%string := request_action r]> {[request_key r := request_name r]}.
(** What the server reads. *)
Definition request_control (r : request) : ControlMessage :=
  match r with
  | RJoin n | RLeave n => mkControl (request_action r) n "" ∅
  | RSubscribe n | RUnsubscribe n => mkControl (request_action r) "" n ∅
  end.
(** What it comes to. *)
Definition request_sets (r : request) (gs : gset string * gset string) : gset string * gset string :=
  match r with
  | RJoin n => ({[n]} ∪ gs.1, gs.2)
  | RLeave n => (gs.1 ∖ {[n]}, gs.2)
  | RSubscribe n => (gs.1, {[n]} ∪ gs.2)
  | RUnsubscribe n => (gs.1, gs.2 ∖ {[n]})
  end.

Section Requests.
Context {C H : Type} {SC : ServerConn C} {CC : ClientConn C}.
Context (Marshal : gmap string string -> list byte).
Implicit Types c : Client C H.

Definition make_request (f : fresh_message) (now : Z) (r : request) (c : Client C H) : outcome (Client C H * option client_error) :=
  match r with
  | RJoin n => JoinGroup Marshal f now n c
  | RLeave n => LeaveGroup Marshal f now n c
  | RSubscribe n => SubscribeToScope Marshal f now n c
  | RUnsubscribe n => UnsubscribeFromScope Marshal f now n c
  end.

(** The message a request gives the connection. *)
Definition handed (f : fresh_message) (r : request) c : Message :=
  let '(c1, l) := control Marshal f (request_action r) (request_key r) (request_name r) c in
  WithSource (id c1) (default Pool.blank (Pool.heap (pool c1) !! l)).
(** The client [c] made the request [r] without an error and became [c']. *)
Definition requested (r : request) c (msg : Message) c' : Prop :=
  exists f now, make_request f now r c = Done (c', None) /\ msg = handed f r c.
(** Requests made in sequence, with the messages. *)
Inductive requests : list request -> Client C H -> list Message -> Client C H -> Prop :=
  | requests_nil c : requests [] c [] c
  | requests_cons r rs c msg c1 msgs c2 : requested r c msg c1 -> requests rs c1 msgs c2 ->
      requests (r :: rs) c (msg :: msgs) c2.

Lemma control_spec f a k n c c1 l : control Marshal f a k n c = (c1, l) ->
  link c1 = link c /\ id c1 = id c /\ groups c1 = groups c /\ scopes c1 = scopes c /\ pool c1 = pool c1 /\
  exists m, Pool.heap (pool c1) !! l = Some m /\ Type_ m = MessageTypeControl /\
    Payload m = Marshal (<["action"%string := a]> {[k := n]}).
Proof.
  unfold control. destruct (Pool.Get _ _ _ _ _) as [p l0]. intros [= <- <-]. split_and!; try done.
  eexists. split; [apply lookup_insert_eq|]. done.
Qed.

(** A message sent without an error. *)
Lemma SendMessage_spec l c c' m : Pool.heap (pool c) !! l = Some m -> SendMessage l c = Done (c', None) ->
  groups c' = groups c /\ scopes c' = scopes c /\ exists p k x p' x', conn (link c) = Some k /\ conns (link c) !! k = Some x /\
    Pool.heap p !! l = Some (WithSource (id c) m) /\ conn_send l p x = (p', x', None) /\
    conns (link c') = <[k := x']> (conns (link c)).
Proof.
  intros Hm. unfold SendMessage. destruct (negb _); [done|]. destruct (closed (link c)); [done|].
  destruct (conn (link c)) as [k|]; [|done]. cbn. destruct (conns (link c) !! k) as [x|] eqn:Ex; [|done]. cbn.
  destruct (conn_send _ _ x) as [[p' x'] [e|]] eqn:Es; [done|]. cbn. intros [= <-]. split; [done|]. split; [done|].
  do 5 eexists. split; [reflexivity|]. split; [exact Ex|]. split; [|by split; [exact Es|]].
  cbn. by rewrite lookup_alter_eq, Hm.
Qed.

Lemma request_spec f now r c c' : make_request f now r c = Done (c', None) ->
  (groups c', scopes c') = request_sets r (groups c, scopes c) /\
  Type_ (handed f r c) = MessageTypeControl /\ Payload (handed f r c) = Marshal (request_map r) /\
  exists l p k x p' x', conn (link c) = Some k /\ conns (link c) !! k = Some x /\
    Pool.heap p !! l = Some (handed f r c) /\ conn_send l p x = (p', x', None) /\
    conns (link c') = <[k := x']> (conns (link c)).
Proof.
  unfold request_map, handed. destruct r as [n|n|n|n]; cbn [make_request request_action request_key request_name];
    unfold JoinGroup, LeaveGroup, SubscribeToScope, UnsubscribeFromScope; destruct (negb _); try done;
    lazymatch goal with |- context [control Marshal f ?a ?k n c] =>
      destruct (control Marshal f a k n c) as [c1 l] eqn:E1 end;
    apply control_spec in E1 as (L1 & L2 & L3 & L4 & _ & m & M1 & M2 & M3);
    (destruct (SendMessage l c1) as [[c2 [e|]]|] eqn:E2; [done| |done]); cbn; intros [= <-];
    destruct (SendMessage_spec l c1 c2 m M1 E2) as (S1 & S2 & p & k & x & p' & x' & S3 & S4 & S5 & S6 & S7);
    rewrite L1 in S3, S4, S7; rewrite M1; (split; [cbn; by rewrite S1, S2, ?L3, ?L4|]);
    (split; [done|]); (split; [done|]); exists l, p, k, x, p', x'; by split_and!.
Qed.
End Requests.

Section Agreement.
Context {Cc Cs H : Type} {SC : ServerConn Cc} {CC : ClientConn Cc} {SS : ServerConn Cs}.
Context (Marshal : gmap string string -> list byte) (Unmarshal : list byte -> option ControlMessage).
(** [encoding/json] on names it can represent, valid UTF-8. *)
Context (utf8 : string -> bool).
Hypothesis json_roundtrip : forall r, utf8 (request_name r) = true ->
  Unmarshal (Marshal (request_map r)) = Some (request_control r).

(** The server's session of the client has these groups and scopes, and its
    tables list the client under exactly these names. *)
Definition session_has (cid : ClientID) (gs : gset string * gset string) (s : Server.Server Cs) : Prop :=
  (exists ss, sessions s !! cid = Some ss /\ SGroups ss = gs.1 /\ SScopes ss = gs.2) /\
  (forall name, in_table (group_table s) name cid <-> name ∈ gs.1) /\
  (forall name, in_table (scope_table s) name cid <-> name ∈ gs.2).

Lemma session_has_request f now cid r gs (s : Server.Server Cs) msg :
  request_name r <> ""%string -> utf8 (request_name r) = true ->
  Type_ msg = MessageTypeControl -> Payload msg = Marshal (request_map r) ->
  session_has cid gs s -> session_has cid (request_sets r gs) (dispatch Unmarshal f now cid msg s).
Proof.
  intros Hne Hu Ht Hp [(ss & Hss & Hg & Hs) [Hgt Hst]]. unfold dispatch. rewrite Ht. cbn [Z.eqb MessageTypeControl].
  unfold handleControlMessage. rewrite Hp, json_roundtrip by done.
  destruct r as [n|n|n|n]; cbn in Hne |- *.
  - rewrite decide_True by done. unfold handleJoinGroup. rewrite decide_False by done. split; [|split].
    + cbn. rewrite lookup_alter_eq, Hss. eexists. split; [reflexivity|]. cbn. by rewrite Hg.
    + intros name. unfold group_table. cbn. rewrite group_table_join, in_table_join. rewrite (Hgt name). set_solver.
    + done.
  - rewrite decide_False, decide_True by done. unfold handleLeaveGroup. rewrite decide_False by done. split; [|split].
    + cbn. rewrite lookup_alter_eq, Hss. eexists. split; [reflexivity|]. cbn. by rewrite Hg.
    + intros name. unfold group_table. cbn. rewrite group_table_leave, in_table_leave. rewrite (Hgt name). set_solver.
    + done.
  - rewrite decide_False, decide_False, decide_True by done. unfold handleSubscribeScope. rewrite decide_False by done. split; [|split].
    + cbn. rewrite lookup_alter_eq, Hss. eexists. split; [reflexivity|]. cbn. by rewrite Hs.
    + done.
    + intros name. unfold scope_table. cbn. rewrite scope_table_join, in_table_join. rewrite (Hst name). set_solver.
  - rewrite decide_False, decide_False, decide_False, decide_True by done. unfold handleUnsubscribeScope. rewrite decide_False by done. split; [|split].
    + cbn. rewrite lookup_alter_eq, Hss. eexists. split; [reflexivity|]. cbn. by rewrite Hs.
    + done.
    + intros name. unfold scope_table. cbn. rewrite scope_table_leave, in_table_leave. rewrite (Hst name). set_solver.
Qed.

(** The names the server looks at: it ignores requests for the empty one. *)
Definition named (gs : gset string * gset string) : gset string * gset string := (gs.1 ∖ {[""%string]}, gs.2 ∖ {[""%string]}).

Lemma named_request r gs : request_name r <> ""%string -> named (request_sets r gs) = request_sets r (named gs).
Proof. intros Hne. unfold named. destruct r; cbn in *; f_equal; set_solver. Qed.
Lemma unnamed_request r gs : request_name r = ""%string -> named (request_sets r gs) = named gs.
Proof. intros He. unfold named. destruct r; cbn in *; subst; f_equal; set_solver. Qed.

Lemma dispatch_unnamed f now cid r (s : Server.Server Cs) msg :
  request_name r = ""%string -> utf8 (request_name r) = true ->
  Type_ msg = MessageTypeControl -> Payload msg = Marshal (request_map r) ->
  dispatch Unmarshal f now cid msg s = s.
Proof.
  intros He Hu Ht Hp. unfold dispatch. rewrite Ht. cbn [Z.eqb MessageTypeControl].
  unfold handleControlMessage. rewrite Hp, json_roundtrip by done. destruct r; cbn in He |- *; by rewrite He.
Qed.

End Agreement.

(** Handlers run after their message is gone: they are started in
    goroutines, and [handleMessage] releases the message at once. A received
    message whose only reference this was is back in the pool while its
    handlers hold it, and the next [Get] may hand it out, reset. *)
Theorem handlers_see_recycled {C H} (c : Client C H) l m h i fr id now :
  Pool.heap (pool c) !! l = Some m -> refCount m = 1 -> pooled m = true ->
  h ∈ default [] (messageHandlers c !! Type_ m) ->
  let c' := handleMessage l c in
  (h, l) ∈ called (go c') /\ l ∈ Pool.free (pool c') /\
  (Pool.free (pool c') !! i = Some l ->
   (Pool.Get (pool c') (Some i) fr id now).2 = l /\
   exists m', Pool.heap (Pool.Get (pool c') (Some i) fr id now).1 !! l = Some m' /\
     Messages.ID m' = id /\ Payload m' = [] /\ Type_ m' = MessageTypeData).
Proof.
  intros Hm Hr Hp Hh c'. assert (Hpool : pool c' = Pool.Release (pool c) l) by done.
  assert (exists m', Pool.heap (pool c') !! l = Some m') as [m' Hm'].
  { rewrite Hpool. unfold Pool.Release. rewrite Hm, Hr, Hp. cbn. unfold Pool.Put. cbn. rewrite lookup_insert_eq. cbn.
    rewrite Hp. cbn. eexists. apply lookup_insert_eq. }
  split_and!.
  - cbn. rewrite Hm. apply elem_of_app. right. apply list_elem_of_fmap. by exists h.
  - rewrite Hpool. unfold Pool.Release. rewrite Hm, Hr, Hp. cbn. unfold Pool.Put. cbn. rewrite lookup_insert_eq. cbn.
    rewrite Hp. cbn. apply elem_of_app. right. by apply list_elem_of_singleton.
  - clearbody c'. intros Hi. unfold Pool.Get. cbn. rewrite Hi. cbn. rewrite Hm'. cbn. split; [done|].
    rewrite lookup_insert_eq. by eexists.
Qed.

Section Attempts.
Context {C H : Type} {SC : ServerConn C} {CC : ClientConn C}.
Implicit Types c : Client C H.

Lemma attempts_fail c0 j (e : Errors.error) l : closed l = false -> connected l = false -> forall n c1,
  advanced j c0 c1 (RecAttempt n CnClosed) l -> n <= MaxReconnectAttempts (config c0) ->
  exists c2, advanced j c0 c2 RecTop (set_transport (Some false) l).
Proof.
  intros Hcl Hc n c1 H0 Hn. remember (Z.to_nat (MaxReconnectAttempts (config c0) - n)) as left eqn:El.
  revert l n c1 Hcl Hc H0 Hn El. induction left as [|left IH]; intros l n c1 Hcl Hc H0 Hn El.
  all: destruct (advance 0 INone _ _ _ _ _ (RecAttempt n CnConnected) l H0) as [c2 A2];
    [intros c2 E _; cbn; rewrite E, Hcl; here E|].
  all: destruct (advance 0 INone _ _ _ _ _ (RecAttempt n CnTransport) l A2) as [c3 A3];
    [intros c3 E _; cbn; rewrite E, Hc; here E|].
  all: destruct (advance 0 INone _ _ _ _ _ (RecAttempt n CnDial) (set_transport (Some false) l) A3) as [c4 A4];
    [intros c4 E _; cbn; rewrite E; here E|].
  - apply (advance 0 (IDial (Err e)) _ _ _ _ _ _ _ A4). intros c5 E Ec. cbn.
    rewrite Ec, (proj2 (Z.leb_gt _ _)) by lia. here E.
  - destruct (advance 0 (IDial (Err e)) _ _ _ _ _ (RecAttempt (n + 1) CnClosed) (set_transport (Some false) l) A4) as [c5 A5].
    { intros c5 E Ec. cbn. rewrite Ec, (proj2 (Z.leb_le _ _)) by lia. here E. }
    destruct (IH (set_transport (Some false) l) (n + 1) c5) as [c6 A6]; try done; try lia.
    exists c6. exact A6.
Qed.

(** [MaxReconnectAttempts] bounds nothing: when every attempt has failed the
    handler finds the same connection lost again and starts over. *)
Lemma reconnection_never_ends c j k x (e : Errors.error) : threads (go c) !! j = Some (RecSelect k) -> conn (link c) = Some k ->
  conns (link c) !! k = Some x -> conn_done x = true -> closed (link c) = false -> connected (link c) = false ->
  1 <= MaxReconnectAttempts (config c) ->
  exists c', advanced j c c' (RecSelect k) (set_transport (Some false) (link c)).
Proof.
  intros Hj Hk Hx Hd Hcl Hc Hmax.
  destruct (advance 0 IConnDone _ _ _ _ _ RecLost (link c) (advanced_refl _ _ _ Hj)) as [c1 A1].
  { intros c1 El _. cbn. rewrite El, Hx. cbn. rewrite Hd. here El. }
  destruct (advance 0 INone _ _ _ _ _ RecStore (link c) A1) as [c2 A2].
  { intros c2 El _. cbn. rewrite El, Hcl. here El. }
  destruct (advance 0 INone _ _ _ _ _ RecEmit (set_flags false false (done (link c)) (link c)) A2) as [c3 A3].
  { intros c3 El _. cbn. rewrite El, Hcl. here El. }
  destruct (advance 0 INone _ _ _ _ _ (RecAttempt 1 CnClosed) (set_flags false false (done (link c)) (link c)) A3) as [c4 A4].
  { intros c4 El Ec. cbn. rewrite Ec, (proj2 (Z.leb_le _ _) Hmax). here El. }
  destruct (attempts_fail c j e (set_flags false false (done (link c)) (link c)) eq_refl eq_refl 1 c4 A4 Hmax) as [c5 A5].
  apply (advance 0 INone _ _ _ _ _ _ _ A5). intros c6 El Ec. cbn. rewrite El. cbn. rewrite Hk.
  eexists. split; [reflexivity|]. split; [|done]. rewrite El. unfold set_transport, set_flags. cbn.
  destruct (link c). cbn in *. congruence.
Qed.
End Attempts.

(** ** Sample runs

    A connection that only knows whether it is closed. *)
Module Samples.

#[export] Instance bool_conn : ServerConn bool := {| conn_send l p c := (p, c, None); conn_close _ := true |}.
#[export] Instance bool_client_conn : ClientConn bool := {| conn_done c := c; local_addr _ := "l"%string; remote_addr _ := "r"%string |}.

Inductive act : Type := ARun (i : input bool) (j : nat) | ACall (g : goroutine) | ALose (k : nat).
Definition exec1 (a : act) (c : Client bool nat) : option (Client bool nat) :=
  match a with
  | ARun i j => run 0 i j c
  | ACall g => if is_call g then Some (call g c) else None
  | ALose k => Some (set_link (set_conns (<[k := true]> (conns (link c))) (link c)) c)
  end.
Fixpoint exec (l : list act) (c : Client bool nat) : option (Client bool nat) :=
  match l with [] => Some c | a :: l => exec1 a c ≫= exec l end.

Lemma exec_steps l c c' : exec l c = Some c' -> rtc step c c'.
Proof.
  revert c. induction l as [|a l IH]; intros c; cbn [exec]; [intros [= ->]; apply rtc_refl|].
  destruct (exec1 a c) as [c1|] eqn:E; [|done]. cbn. intros H. apply (rtc_l _ _ c1); [|by apply IH].
  destruct a as [i j|g|k]; cbn in E; [by eapply step_run| |].
  - destruct (is_call g) eqn:Eg; [|done]. injection E as <-. by apply step_call.
  - injection E as <-. apply step_conn.
Qed.

Definition new : Client bool nat := NewClient "a" DefaultClientConfig Pool.NewMessagePool.
Definition none (n j : nat) : list act := replicate n (ARun INone j).
(** Goroutine 0 connects; goroutines 1, 2, 3 are the workers. *)
Definition connecting : list act :=
  [ACall (CallConnect CnClosed)] ++ none 3 0 ++ [ARun (IDial (Ok false)) 0] ++ none 3 0 ++ none 1 3.
(** A reconnection handler that found the connection lost, up to its next [select]. *)
Definition reconnecting (j : nat) : list act := none 6 j ++ [ARun (IDial (Ok false)) j] ++ none 4 j.
Definition served : Client bool nat := default new (exec connecting new).
Definition leaking : list act :=
  connecting ++ [ALose 0; ARun IConnDone 3] ++ reconnecting 3 ++ none 1 6 ++
  [ALose 1; ARun IConnDone 3; ARun IConnDone 6] ++ reconnecting 3 ++ reconnecting 6.

(** Requests encoded by the first letters of action and key; the names that
    can be are all strings. *)
Definition tag (a : string) : list byte :=
  if decide (a = "join_group"%string) then [x6a] else if decide (a = "leave_group"%string) then [x6c]
  else if decide (a = "subscribe_scope"%string) then [x73] else [x75].
Definition marshal (m : gmap string string) : list byte :=
  tag (default ""%string (m !! "action"%string)) ++
  list_byte_of_string (default (default ""%string (m !! "scope"%string)) (m !! "group"%string)).
Definition unmarshal (b : list byte) : option ControlMessage :=
  match b with
  | x6a :: n => Some (mkControl "join_group" (string_of_list_byte n) "" ∅)
  | x6c :: n => Some (mkControl "leave_group" (string_of_list_byte n) "" ∅)
  | x73 :: n => Some (mkControl "subscribe_scope" "" (string_of_list_byte n) ∅)
  | x75 :: n => Some (mkControl "unsubscribe_scope" "" (string_of_list_byte n) ∅)
  | _ => None
  end.

Lemma sample_roundtrip r : true = true -> unmarshal (marshal (request_map r)) = Some (request_control r).
Proof.
  intros _. destruct r as [n|n|n|n];
    [change (marshal _) with (x6a :: list_byte_of_string n)|change (marshal _) with (x6c :: list_byte_of_string n)
    |change (marshal _) with (x73 :: list_byte_of_string n)|change (marshal _) with (x75 :: list_byte_of_string n)];
    cbn [unmarshal]; by rewrite string_of_list_byte_of_string.
Qed.

Definition f0 : fresh_message := mkFresh None 1 "m" 0.
Definition requesting (r : request) (c : Client bool nat) : Client bool nat :=
  match make_request marshal f0 0 r c with Done (c, _) => c | Panic => c end.
(** The server's session of the client. *)
Definition session_server : Server.Server bool :=
  set_sessions {[("a"%string : ClientID) := mkSession false ∅ ∅ 0 0 true]} (NewServer DefaultServerConfig Pool.NewMessagePool).
(** A client with a handler for a message of the pool. *)
Definition listening : Client bool nat :=
  OnMessage MessageTypeData 7%nat
    (NewClient "a" DefaultClientConfig (Pool.Get Pool.NewMessagePool None 1 "m" 0).1).

Lemma client_served : reachable served.
Proof. exists "a"%string, DefaultClientConfig, Pool.NewMessagePool. apply (exec_steps connecting). vm_compute. reflexivity. Qed.
End Samples.
#[local] Existing Instance Samples.bool_conn.
#[local] Existing Instance Samples.bool_client_conn.

(** Connections leak: after two losses two handlers wake for the same
    connection, each dials, and the connection of the first stays open with
    nothing referring to it. *)
Lemma connections_leak : exists c : Client bool nat, reachable c /\ connected (link c) = true /\
  conn (link c) = Some 3%nat /\ conns (link c) = [true; true; false; false].
Proof.
  destruct (Samples.exec Samples.leaking Samples.new) as [c|] eqn:E; [|vm_compute in E; discriminate].
  exists c. split.
  - exists "a"%string, DefaultClientConfig, Pool.NewMessagePool. by apply (Samples.exec_steps Samples.leaking).
  - vm_compute in E. injection E as <-. by vm_compute.
Qed.

Lemma workers_accumulate_witness : reachable Samples.served /\
  cnt is_monitor (threads (go Samples.served)) + cnt is_starting (threads (go Samples.served)) = 1.
Proof. split; [exact Samples.client_served|]. exact (proj1 (proj2 (proj2 (proj2 (workers_accumulate _ Samples.client_served)))) eq_refl). Defined.

Lemma close_never_returns_witness :
  exists c', rtc step (call (CallClose ClCas) Samples.served) c' /\ waits 4 c' /\
    forall c'', rtc step c' c'' -> waits 4 c''.
Proof.
  destruct (close_never_returns Samples.served 2 Samples.client_served ltac:(vm_compute; reflexivity)
    ltac:(vm_compute; reflexivity) ltac:(vm_compute; reflexivity)) as (c' & A & _ & _ & B & D).
  exists c'. split; [exact A|]. split; [exact B|]. intros c'' Hc. exact (proj1 (D c'' Hc)).
Defined.

Lemma disconnect_reconnects_witness :
  exists c', rtc step (call (CallDisconnect DiCas) Samples.served) c' /\ connected (link c') = true /\
    threads (go c') !! 4%nat = Some (CallDisconnect DiWait).
Proof.
  destruct (disconnect_reconnects Samples.served 2 3 0 false false Samples.client_served ltac:(vm_compute; reflexivity)
    ltac:(vm_compute; reflexivity) ltac:(vm_compute; reflexivity) ltac:(vm_compute; reflexivity)
    ltac:(vm_compute; reflexivity) ltac:(vm_compute; reflexivity) ltac:(vm_compute; reflexivity) ltac:(vm_compute; discriminate))
    as (c' & A & B & _ & _ & D & _).
  exists c'. split; [exact A|]. split; [exact B|exact D].
Defined.


Lemma handlers_see_recycled_witness :
  (7%nat, 1%positive) ∈ called (go (handleMessage 1 Samples.listening)) /\
  1%positive ∈ Pool.free (pool (handleMessage 1 Samples.listening)).
Proof.
  destruct (handlers_see_recycled Samples.listening 1
    (default Pool.blank (Pool.heap (pool Samples.listening) !! 1%positive)) 7%nat 0 2 "n" 0) as (A & B & _);
    [vm_compute; reflexivity..|vm_compute; left|]. split; [exact A|exact B].
Defined.
