(* ===== verification/Clients.v ===== *)
(** * Clients of the protocol ([protocol/client.go])

    [BaseClient]: the server side's view of one client, with limits on the
    groups and scopes it joins. The methods first, each run alone; then Module
    [Interleaved], where the calls of [JoinGroup], [JoinScope] and [Disconnect]
    made by several goroutines are taken apart into their atomic operations. *)
From S2P Require Import Prelude Errors Messages Channels Server.
From Stdlib Require Import ZArith Lia Strings.Byte Strings.String.
From stdpp Require Import base tactics list strings gmap sets fin_maps fin_sets relations.
Open Scope Z_scope.

Record ClientConfig : Type := mkConfig {
  MaxGroups : Z;
  MaxScopes : Z;
  MaxStreams : Z;
  HeartbeatInterval : Z;
  InactivityTimeout : Z;
  MessageQueueSize : Z;
  EnableCompression : bool;
  CompressionLevel : Z
}.
Definition DefaultClientConfig : ClientConfig := {|
  MaxGroups := 100;
  MaxScopes := 50;
  MaxStreams := 10;
  HeartbeatInterval := 30 * second;
  InactivityTimeout := 5 * 60 * second;
  MessageQueueSize := 1000;
  EnableCompression := true;
  CompressionLevel := 1
|}.

(** What the client asks of its connection besides sending and closing. *)
Class PeerConn (C S : Type) `{ServerConn C} : Type := {
  connection_id : C -> string;
  open_stream : C -> C * result error S;
  ping : C -> C * result error Z
}.

Section Client.
Context {C S : Type} {SC : ServerConn C} {PC : PeerConn C S}.

Record BaseClient : Type := mkClient {
  id : ClientID;
  connection : C;
  connectedAt : Z;
  lastSeen : Z;                                 (* in seconds *)
  groups : gset GroupID;
  scopes : gset ScopeID;
  metadata : gmap string any;
  messageQueue : GoChan (option Pool.loc);
  done : bool;                                  (* [done] is closed *)
  config : ClientConfig;
  active : bool
}.

(** [now] is read twice; the goroutine started is [processMessages]. A negative
    size of the queue panics. *)
Definition NewBaseClient (id : ClientID) (conn : C) (config : ClientConfig) (now1 now2 : Z) : outcome BaseClient :=
  q ← make_chan (MessageQueueSize config);
  Done (mkClient id conn now1 (now2 / second) ∅ ∅ ∅ q false config true).

Definition set_conn (k : C) (c : BaseClient) : BaseClient :=
  mkClient (id c) k (connectedAt c) (lastSeen c) (groups c) (scopes c) (metadata c) (messageQueue c) (done c) (config c) (active c).
Definition set_member (g : gset GroupID) (s : gset ScopeID) (c : BaseClient) : BaseClient :=
  mkClient (id c) (connection c) (connectedAt c) (lastSeen c) g s (metadata c) (messageQueue c) (done c) (config c) (active c).
Definition set_life (dn ac : bool) (c : BaseClient) : BaseClient :=
  mkClient (id c) (connection c) (connectedAt c) (lastSeen c) (groups c) (scopes c) (metadata c) (messageQueue c) dn (config c) ac.
Definition set_queue (q : GoChan (option Pool.loc)) (c : BaseClient) : BaseClient :=
  mkClient (id c) (connection c) (connectedAt c) (lastSeen c) (groups c) (scopes c) (metadata c) q (done c) (config c) (active c).

Definition ID (c : BaseClient) : ClientID := id c.
Definition ConnectionID (c : BaseClient) : string := connection_id (connection c).
Definition IsActive (c : BaseClient) : bool := active c.
Definition Metadata (c : BaseClient) : gmap string any := metadata c.
Definition SetMetadata (key : string) (value : any) (c : BaseClient) : BaseClient :=
  mkClient (id c) (connection c) (connectedAt c) (lastSeen c) (groups c) (scopes c) (<[key := value]> (metadata c))
    (messageQueue c) (done c) (config c) (active c).

(** [Range] visits the keys in some order; [elements] is one. *)
Definition Groups (c : BaseClient) : list GroupID := elements (groups c).
Definition Scopes (c : BaseClient) : list ScopeID := elements (scopes c).
Record ClientInfo : Type := mkInfo {
  ci_ID : ClientID; ci_ConnectionID : string; ci_Groups : list GroupID; ci_Scopes : list ScopeID;
  ci_ConnectedAt : Z; ci_LastSeen : Z; ci_Metadata : gmap string any }.
Definition Info (c : BaseClient) : ClientInfo :=
  mkInfo (id c) (connection_id (connection c)) (Groups c) (Scopes c) (connectedAt c) (lastSeen c) (metadata c).

(** [SendMessage]: the message's target is overwritten in place. *)
Definition SendMessage (l : Pool.loc) (p : Pool.MessagePool) (c : BaseClient) : Pool.MessagePool * BaseClient * option error :=
  if negb (active c) then (p, c, Some (Sentinel ErrClientInactive))
  else
    let p := Pool.mkPool (alter (WithTarget (id c)) l (Pool.heap p)) (Pool.free p) (Pool.gets p) (Pool.puts p) in
    let '(p, k, err) := conn_send l p (connection c) in
    (p, set_conn k c, err).
(** [SendMessageAsync]: what its goroutine does, and the error on the channel. *)
Definition SendMessageAsync (l : Pool.loc) (p : Pool.MessagePool) (c : BaseClient) : Pool.MessagePool * BaseClient * option error :=
  SendMessage l p c.

Definition JoinGroup (groupID : GroupID) (c : BaseClient) : BaseClient * option error :=
  if negb (active c) then (c, Some (Sentinel ErrClientInactive))
  else if MaxGroups (config c) <=? Z.of_nat (size (groups c)) then (c, Some (Sentinel ErrMaxGroupsExceeded))
  else (set_member ({[groupID]} ∪ groups c) (scopes c) c, None).
Definition LeaveGroup (groupID : GroupID) (c : BaseClient) : BaseClient * option error :=
  (set_member (groups c ∖ {[groupID]}) (scopes c) c, None).
Definition IsInGroup (groupID : GroupID) (c : BaseClient) : bool := bool_decide (groupID ∈ groups c).
Definition JoinScope (scopeID : ScopeID) (c : BaseClient) : BaseClient * option error :=
  if negb (active c) then (c, Some (Sentinel ErrClientInactive))
  else if MaxScopes (config c) <=? Z.of_nat (size (scopes c)) then (c, Some (Sentinel ErrMaxScopesExceeded))
  else (set_member (groups c) ({[scopeID]} ∪ scopes c) c, None).
Definition LeaveScope (scopeID : ScopeID) (c : BaseClient) : BaseClient * option error :=
  (set_member (groups c) (scopes c ∖ {[scopeID]}) c, None).
Definition IsInScope (scopeID : ScopeID) (c : BaseClient) : bool := bool_decide (scopeID ∈ scopes c).

Definition OpenStream (c : BaseClient) : BaseClient * result error S :=
  if negb (active c) then (c, Err (Sentinel ErrClientInactive))
  else let '(k, r) := open_stream (connection c) in
       (set_conn k c, r).
Definition Ping (c : BaseClient) : BaseClient * result error Z :=
  if negb (active c) then (c, Err (Sentinel ErrClientInactive))
  else let '(k, r) := ping (connection c) in
       (set_conn k c, r).
Definition LastSeen (c : BaseClient) : Z := lastSeen c.
Definition UpdateLastSeen (now : Z) (c : BaseClient) : BaseClient :=
  mkClient (id c) (connection c) (connectedAt c) (now / second) (groups c) (scopes c) (metadata c)
    (messageQueue c) (done c) (config c) (active c).

(** [Disconnect], run alone: [done] is closed unless it is. *)
Definition Disconnect (c : BaseClient) : BaseClient :=
  set_conn (conn_close (connection c)) (set_life true false c).
Definition Done_ (c : BaseClient) : bool := done c.

(** A round of [processMessages] that finds a message: it is sent without the
    target being set, and released. *)
Definition processMessages (p : Pool.MessagePool) (c : BaseClient) : option (Pool.MessagePool * BaseClient) :=
  match chan_buf (messageQueue c) with
  | [] => None
  | m :: rest =>
      let c := set_queue (mkChan rest (chan_cap (messageQueue c)) (chan_closed (messageQueue c))) c in
      Some (match m with
            | None => (p, c)
            | Some l =>
                let '(p, k, _) := conn_send l p (connection c) in
                (Pool.Release p l, set_conn k c)
            end)
  end.
End Client.
Arguments BaseClient : clear implicits.

Section Facts.
Context {C St : Type} {SC : ServerConn C} {PC : PeerConn C St}.
Implicit Types c : BaseClient C.

(** Operations of the client. *)
Inductive op : Type :=
  | OJoinGroup (g : GroupID) | OLeaveGroup (g : GroupID) | OJoinScope (s : ScopeID) | OLeaveScope (s : ScopeID)
  | OSetMetadata (k : string) (v : any) | OUpdateLastSeen (now : Z) | ODisconnect.
Definition apply_op (o : op) c : BaseClient C :=
  match o with
  | OJoinGroup g => (JoinGroup g c).1
  | OLeaveGroup g => (LeaveGroup g c).1
  | OJoinScope s => (JoinScope s c).1
  | OLeaveScope s => (LeaveScope s c).1
  | OSetMetadata k v => SetMetadata k v c
  | OUpdateLastSeen now => UpdateLastSeen now c
  | ODisconnect => Disconnect c
  end.

(** [op] as a specification: what the operations so far come to. *)
Definition spec_op (cfg : ClientConfig) (o : op) (st : gset GroupID * gset ScopeID * bool) : gset GroupID * gset ScopeID * bool :=
  let '(gs, ss, act) := st in
  match o with
  | OJoinGroup g => (if act && (Z.of_nat (size gs) <? MaxGroups cfg) then {[g]} ∪ gs else gs, ss, act)
  | OLeaveGroup g => (gs ∖ {[g]}, ss, act)
  | OJoinScope s => (gs, if act && (Z.of_nat (size ss) <? MaxScopes cfg) then {[s]} ∪ ss else ss, act)
  | OLeaveScope s => (gs, ss ∖ {[s]}, act)
  | OSetMetadata _ _ | OUpdateLastSeen _ => st
  | ODisconnect => (gs, ss, false)
  end.

Definition view c : gset GroupID * gset ScopeID * bool := (groups c, scopes c, active c).

Lemma apply_view o c : view (apply_op o c) = spec_op (config c) o (view c) /\ config (apply_op o c) = config c.
Proof.
  destruct o; try done; cbn -[Z.leb Z.ltb]; unfold JoinGroup, JoinScope; destruct (active c) eqn:Ea; cbn -[Z.leb Z.ltb];
    rewrite ?Z.leb_antisym; try (unfold view; by rewrite Ea);
    destruct (_ <? _); cbn; unfold view; cbn; by rewrite ?Ea.
Qed.

Lemma apply_ops_view ops c : view (foldl (fun c o => apply_op o c) c ops) = foldl (fun st o => spec_op (config c) o st) (view c) ops /\
  config (foldl (fun c o => apply_op o c) c ops) = config c.
Proof.
  revert c. induction ops as [|o ops IH]; intros c; [done|]. cbn [foldl].
  destruct (apply_view o c) as [E1 E2]. destruct (IH (apply_op o c)) as [H1 H2]. rewrite E2, E1 in H1. by rewrite E2 in H2.
Qed.

(** Sizes of the specification. *)
Lemma spec_bounded cfg o gs ss act gs' ss' act' : spec_op cfg o (gs, ss, act) = (gs', ss', act') ->
  Z.of_nat (size gs) <= Z.max 0 (MaxGroups cfg) -> Z.of_nat (size ss) <= Z.max 0 (MaxScopes cfg) ->
  Z.of_nat (size gs') <= Z.max 0 (MaxGroups cfg) /\ Z.of_nat (size ss') <= Z.max 0 (MaxScopes cfg).
Proof.
  assert (forall (x : string) (s : gset string), (size ({[x]} ∪ s) <= S (size s))%nat) as Hadd.
  { intros x s. rewrite size_union_alt, size_singleton.
    pose proof (subseteq_size (s ∖ {[x]}) s ltac:(set_solver)). lia. }
  assert (forall (x : string) (s : gset string), (size (s ∖ {[x]}) <= size s)%nat) as Hdel.
  { intros x s. apply subseteq_size. set_solver. }
  intros E Hg Hs. destruct o; cbn in E; simplify_eq; try done.
  - destruct (act' && _) eqn:Ea; [|done]. apply andb_true_iff in Ea as [_ Ea]. apply Z.ltb_lt in Ea.
    pose proof (Hadd g gs). lia.
  - pose proof (Hdel g gs). lia.
  - destruct (act' && _) eqn:Ea; [|done]. apply andb_true_iff in Ea as [_ Ea]. apply Z.ltb_lt in Ea.
    pose proof (Hadd s ss). lia.
  - pose proof (Hdel s ss). lia.
Qed.

(** C15: A client refines its specification: two sets that grow only while the
    client is active and below its limits, and a flag. Under any sequence of
    operations the groups and scopes stay within [MaxGroups] and [MaxScopes],
    and after [Disconnect] they only shrink; a client already in a group is
    refused it again at the limit. *)
Theorem client_refines_sets ops (id : ClientID) conn cfg now1 now2 c :
  NewBaseClient id conn cfg now1 now2 = Done c ->
  let c' := foldl (fun c o => apply_op o c) c ops in
  view c' = foldl (fun st o => spec_op cfg o st) (∅, ∅, true) ops /\
  Z.of_nat (size (groups c')) <= Z.max 0 (MaxGroups cfg) /\ Z.of_nat (size (scopes c')) <= Z.max 0 (MaxScopes cfg) /\
  (active c' = false -> forall o, groups (apply_op o c') ⊆ groups c' /\ scopes (apply_op o c') ⊆ scopes c') /\
  forall g, active c' = true -> Z.of_nat (size (groups c')) = MaxGroups cfg ->
    JoinGroup g c' = (c', Some (Sentinel ErrMaxGroupsExceeded)).
Proof.
  intros E c'. unfold NewBaseClient in E. destruct (make_chan _) as [q|]; [|done]. cbn in E.
  set (c0 := mkClient _ _ _ _ _ _ _ _ _ _ _) in E. injection E as <-. destruct (apply_ops_view ops c0) as [Hv Hc]. fold c' in Hv, Hc.
  split; [exact Hv|]. assert (Hcfg : config c' = cfg) by done.
  assert (Z.of_nat (size (groups c')) <= Z.max 0 (MaxGroups cfg) /\ Z.of_nat (size (scopes c')) <= Z.max 0 (MaxScopes cfg)) as [Hg Hs].
  { assert (forall st, Z.of_nat (size st.1.1) <= Z.max 0 (MaxGroups cfg) -> Z.of_nat (size st.1.2) <= Z.max 0 (MaxScopes cfg) ->
      let st' := foldl (fun st o => spec_op cfg o st) st ops in
      Z.of_nat (size st'.1.1) <= Z.max 0 (MaxGroups cfg) /\ Z.of_nat (size st'.1.2) <= Z.max 0 (MaxScopes cfg)) as Hall.
    { clear. induction ops as [|o ops IH]; intros st H1 H2; [done|]. cbn [foldl]. apply IH;
        destruct st as [[gs ss] act]; destruct (spec_op cfg o (gs, ss, act)) as [[gs' ss'] act'] eqn:E; by eapply spec_bounded. }
    specialize (Hall (view c0) ltac:(cbn; rewrite size_empty; lia) ltac:(cbn; rewrite size_empty; lia)).
    change cfg with (config c0) in Hall. cbv zeta in Hall. rewrite <- Hv in Hall. exact Hall. }
  split; [done|]. split; [done|]. split.
  - intros Ha o. destruct (apply_view o c') as [E _]. unfold view in E. rewrite Ha in E.
    pose proof (f_equal (fun p => p.1.1) E) as E1. pose proof (f_equal (fun p => p.1.2) E) as E2.
    cbn [fst snd] in E1, E2. rewrite E1, E2. destruct o; cbn; set_solver.
  - intros g Ha Hsz. unfold JoinGroup. rewrite Ha, Hcfg, Hsz. cbn. by rewrite Z.leb_refl.
Qed.
End Facts.

(** ** Concurrent calls

    [n] goroutines call the client's methods. The count of [Range] is one step;
    the other steps are the atomic operations of the code. *)
Module Interleaved.

Inductive pc : Type :=
  | Idle
  | JgActive (g : GroupID) | JgCount (g : GroupID) | JgStore (g : GroupID)
  | JsActive (s : ScopeID) | JsCount (s : ScopeID) | JsStore (s : ScopeID)
  | DActive | DSelect | DClose | DConn.

Section Calls.
Context {C : Type} {SC : ServerConn C}.

(** The client, the callers, and whether one closed [done] twice. *)
Record State : Type := mkState { client : BaseClient C; callers : list pc; panicked : bool }.

(** One operation of a call that is under way. *)
Definition advance (p : pc) (c : BaseClient C) : pc * BaseClient C :=
  match p with
  | Idle => (Idle, c)
  | JgActive g => (if active c then JgCount g else Idle, c)
  | JgCount g => (if MaxGroups (config c) <=? Z.of_nat (size (groups c)) then Idle else JgStore g, c)
  | JgStore g => (Idle, set_member ({[g]} ∪ groups c) (scopes c) c)
  | JsActive s => (if active c then JsCount s else Idle, c)
  | JsCount s => (if MaxScopes (config c) <=? Z.of_nat (size (scopes c)) then Idle else JsStore s, c)
  | JsStore s => (Idle, set_member (groups c) ({[s]} ∪ scopes c) c)
  | DActive => (DSelect, set_life (done c) false c)
  | DSelect => (if done c then DConn else DClose, c)
  | DClose => (DConn, set_life true (active c) c)
  | DConn => (Idle, set_conn (conn_close (connection c)) c)
  end.
(** [close] of a closed channel. *)
Definition panics (p : pc) (c : BaseClient C) : bool := match p with DClose => done c | _ => false end.

Definition entry (p : pc) : bool :=
  match p with JgActive _ | JsActive _ | DActive => true | _ => false end.

Inductive step : State -> State -> Prop :=
  | step_call st i p : callers st !! i = Some Idle -> entry p = true ->
      step st (mkState (client st) (<[i := p]> (callers st)) (panicked st))
  | step_run st i p : callers st !! i = Some p ->
      step st (mkState (advance p (client st)).2 (<[i := (advance p (client st)).1]> (callers st))
                 (panicked st || panics p (client st)))
  | step_leave_group st g : step st (mkState (LeaveGroup g (client st)).1 (callers st) (panicked st))
  | step_leave_scope st s : step st (mkState (LeaveScope s (client st)).1 (callers st) (panicked st)).

Definition start (c : BaseClient C) (n : nat) : State := mkState c (replicate n Idle) false.

Definition storing_group (p : pc) : bool := match p with JgStore _ => true | _ => false end.
Definition storing_scope (p : pc) : bool := match p with JsStore _ => true | _ => false end.
Definition closing (p : pc) : bool := match p with DClose => true | _ => false end.

(** Each limit, with room for the stores that passed their test; one caller
    alone closes [done] once. *)
Record Bounded (mg ms : Z) (n : nat) (st : State) : Prop := {
  bo_callers : length (callers st) = n;
  bo_limits : MaxGroups (config (client st)) = mg /\ MaxScopes (config (client st)) = ms;
  bo_groups : Z.of_nat (size (groups (client st))) + cnt storing_group (callers st) <= Z.max 0 mg + Z.max 0 (Z.of_nat n - 1);
  bo_scopes : Z.of_nat (size (scopes (client st))) + cnt storing_scope (callers st) <= Z.max 0 ms + Z.max 0 (Z.of_nat n - 1);
  bo_alone : (n <= 1)%nat -> panicked st = false /\ forall i, callers st !! i = Some DClose -> done (client st) = false
}.

Lemma member_size_add (x : string) (s : gset string) : (size ({[x]} ∪ s) <= S (size s))%nat.
Proof. rewrite size_union_alt, size_singleton. pose proof (subseteq_size (s ∖ {[x]}) s ltac:(set_solver)). lia. Qed.

Lemma size_del (x : string) (s : gset string) : (size (s ∖ {[x]}) <= size s)%nat.
Proof. apply subseteq_size. set_solver. Qed.

(** A caller alone is the only one. *)
Lemma alone_insert (l : list pc) i p q j : (length l <= 1)%nat -> l !! i = Some p -> <[i := q]> l !! j = Some DClose -> q = DClose.
Proof.
  intros Hl Hi Hj. pose proof (lookup_lt_Some _ _ _ Hi). pose proof (lookup_lt_Some _ _ _ Hj) as Hlt.
  rewrite length_insert in Hlt. assert (j = i) as -> by lia. rewrite list_lookup_insert_eq in Hj by lia. congruence.
Qed.

(** The tests of one operation. *)
Ltac cases_of st :=
  lazymatch goal with
  | |- context [if active ?c then _ else _] => destruct (active c)
  | |- context [if done ?c then _ else _] => destruct (done c)
  | |- context [if ?a <=? ?b then _ else _] => destruct (a <=? b) eqn:?
  | _ => idtac
  end; cbn -[size Z.leb] in *.

Lemma Bounded_run mg ms n st i p : Bounded mg ms n st -> callers st !! i = Some p ->
  Bounded mg ms n (mkState (advance p (client st)).2 (<[i := (advance p (client st)).1]> (callers st))
                 (panicked st || panics p (client st))).
Proof.
  intros [Hn [Hmg Hms] Hg Hs Ha] Hi.
  pose proof (cnt_le_length storing_group (<[i := JgStore ""%string]> (callers st))) as Lg.
  pose proof (cnt_le_length storing_scope (<[i := JsStore ""%string]> (callers st))) as Ls.
  rewrite (cnt_insert _ _ _ _ _ Hi), length_insert in Lg. rewrite (cnt_insert _ _ _ _ _ Hi), length_insert in Ls.
  constructor; cbn [client callers panicked].
  - by rewrite length_insert.
  - by destruct p.
  - rewrite (cnt_insert _ _ _ _ _ Hi). destruct p; cbn -[size Z.leb] in *; cases_of st; try lia.
    pose proof (member_size_add g (groups (client st))). lia.
  - rewrite (cnt_insert _ _ _ _ _ Hi). destruct p; cbn -[size Z.leb] in *; cases_of st; try lia.
    pose proof (member_size_add s (scopes (client st))). lia.
  - intros H1. destruct (Ha H1) as [Hp Hd]. rewrite Hp. split.
    + destruct p; cbn; try done. by apply (Hd i).
    + intros j Hj. apply (alone_insert _ _ p) in Hj; [|lia|done].
      destruct p; cbn in Hj; try done; repeat case_match; try done.
Qed.

Lemma Bounded_step mg ms n st st' : step st st' -> Bounded mg ms n st -> Bounded mg ms n st'.
Proof.
  intros Hs HB. destruct Hs as [st i p Hi Hp|st i p Hi|st g|st s]; [|by apply Bounded_run|..];
    destruct HB as [Hn [Hmg Hms] Hg Hsc Ha]; constructor; cbn [client callers panicked]; try done.
  - by rewrite length_insert.
  - rewrite (cnt_insert _ _ _ _ _ Hi). by destruct p; cbn in *; try done; lia.
  - rewrite (cnt_insert _ _ _ _ _ Hi). by destruct p; cbn in *; try done; lia.
  - intros H1. destruct (Ha H1) as [Hpa Hd]. split; [done|]. intros j Hj.
    apply (alone_insert _ _ Idle) in Hj; [|lia|done]. by subst p.
  - cbn -[size]. pose proof (size_del g (groups (client st))). lia.
  - cbn -[size]. pose proof (size_del s (scopes (client st))). lia.
Qed.

Lemma Bounded_start (c : BaseClient C) n : groups c = ∅ -> scopes c = ∅ ->
  Bounded (MaxGroups (config c)) (MaxScopes (config c)) n (start c n).
Proof.
  intros Hg Hs. assert (forall P : pc -> bool, P Idle = false -> cnt P (replicate n Idle) = 0) as H0.
  { intros P HP. induction n as [|n IH]; [done|]. cbn. rewrite HP, IH. done. }
  constructor; cbn -[size]; rewrite ?H0, ?Hg, ?Hs, ?size_empty by done; try lia; [by rewrite length_replicate|].
  intros _. split; [done|]. intros i Hi. apply lookup_replicate in Hi as [? _]. discriminate.
Qed.

(** With [n] goroutines calling a client the limits hold up to [n - 1]
    more groups and scopes, since each test and its store are two steps. A
    single caller never closes [done] twice; two callers of [Disconnect] can,
    which panics. *)
Theorem concurrent_client (c : BaseClient C) n st : groups c = ∅ -> scopes c = ∅ -> done c = false -> rtc step (start c n) st ->
  Z.of_nat (size (groups (client st))) <= Z.max 0 (MaxGroups (config c)) + Z.max 0 (Z.of_nat n - 1) /\
  Z.of_nat (size (scopes (client st))) <= Z.max 0 (MaxScopes (config c)) + Z.max 0 (Z.of_nat n - 1) /\
  ((n <= 1)%nat -> panicked st = false) /\
  ((2 <= n)%nat -> exists st', rtc step (start c n) st' /\ panicked st' = true).
Proof.
  intros Hg Hs Hd Hr.
  assert (Bounded (MaxGroups (config c)) (MaxScopes (config c)) n st) as HB.
  { pose proof (Bounded_start c n Hg Hs) as H0. induction Hr as [|st st1 st2 H1 _ IH]; [done|]. apply IH. by eapply Bounded_step. }
  pose proof (cnt_nonneg storing_group (callers st)). pose proof (cnt_nonneg storing_scope (callers st)).
  split; [pose proof (bo_groups _ _ _ _ HB); lia|]. split; [pose proof (bo_scopes _ _ _ _ HB); lia|].
  split; [intros H1; by apply (bo_alone _ _ _ _ HB)|].
  intros H2. destruct n as [|[|n]]; [lia..|]. unfold start. cbn [replicate].
  eexists. split.
  - eapply rtc_l; [by apply (step_call _ 0 DActive)|]. eapply rtc_l; [by apply (step_run _ 0)|].
    eapply rtc_l; [by apply (step_run _ 0)|]. cbn. rewrite Hd.
    eapply rtc_l; [by apply (step_call _ 1 DActive)|]. eapply rtc_l; [by apply (step_run _ 1)|].
    eapply rtc_l; [by apply (step_run _ 1)|]. cbn.
    eapply rtc_l; [by apply (step_run _ 0)|]. eapply rtc_l; [by apply (step_run _ 1)|]. apply rtc_refl.
  - reflexivity.
Qed.
End Calls.
End Interleaved.

(** ** Sample runs *)
Module Samples.
#[export] Instance unit_conn : ServerConn unit := {| conn_send l p c := (p, c, None); conn_close c := c |}.
#[export] Instance unit_peer : PeerConn unit unit :=
  {| connection_id _ := "k"%string; open_stream c := (c, Ok tt); ping c := (c, Ok 0) |}.
Definition small : ClientConfig := mkConfig 1 1 1 0 0 1 false 0.
Definition client : BaseClient unit := mkClient "a" tt 0 0 ∅ ∅ ∅ (mkChan [] 1 false) false small true.
End Samples.
#[local] Existing Instance Samples.unit_conn.
#[local] Existing Instance Samples.unit_peer.

Lemma client_refines_sets_witness :
  view (foldl (fun c o => apply_op o c) Samples.client [OJoinGroup "g"; OJoinGroup "h"; ODisconnect]) = ({["g"%string]}, ∅, false).
Proof.
  rewrite (proj1 (client_refines_sets [OJoinGroup "g"; OJoinGroup "h"; ODisconnect] "a" tt Samples.small 0 0 Samples.client eq_refl)).
  vm_compute. reflexivity.
Defined.

Lemma concurrent_client_witness : exists st', rtc Interleaved.step (Interleaved.start Samples.client 2) st' /\ Interleaved.panicked st' = true.
Proof.
  apply (Interleaved.concurrent_client Samples.client 2 (Interleaved.start Samples.client 2)); [reflexivity..|apply rtc_refl|lia].
Defined.
