(* ===== verification/Registry.v ===== *)
(** * Transport registry and protocol ([protocol/transport.go], [protocol/protocol.go])

    The registry of transports by type, the dialers it creates, and the base
    protocol on top of it. A transport is anything with the operations of the
    interface [Transport]; the order in which Go ranges over a map is an
    argument wherever it can be seen. *)
From S2P Require Import Prelude Errors Server.
From Stdlib Require Import ZArith Lia Strings.String.
From stdpp Require Import base tactics list strings gmap fin_maps.
Open Scope Z_scope.

(** ** Configuration and health *)
Record GlobalConfig : Type := mkGlobal {
  MaxConnections : Z; ConnectionTimeout : Z; KeepAlive : Z; IdleTimeout : Z; WriteTimeout : Z; ReadTimeout : Z;
  MaxMessageSize : Z; MessageBufferSize : Z; MaxStreams : Z; StreamBufferSize : Z;
  MaxGroups : Z; MaxGroupMembers : Z; MaxScopes : Z; MaxScopeDataSize : Z; MaxScopeKeys : Z;
  WorkerPoolSize : Z; EnableCompression : bool; CompressionLevel : Z; EnableTLS : bool;
  EnableMetrics : bool; MetricsInterval : Z; HealthCheckInterval : Z; MaxMemoryUsage : Z; MaxBandwidth : Z
}.
Definition DefaultGlobalConfig : GlobalConfig := {|
  MaxConnections := 10000; ConnectionTimeout := 30 * second; KeepAlive := 30 * second; IdleTimeout := 5 * 60 * second;
  WriteTimeout := 10 * second; ReadTimeout := 10 * second;
  MaxMessageSize := 1024 * 1024; MessageBufferSize := 1000; MaxStreams := 100; StreamBufferSize := 64 * 1024;
  MaxGroups := 1000; MaxGroupMembers := 10000; MaxScopes := 500; MaxScopeDataSize := 100 * 1024 * 1024; MaxScopeKeys := 10000;
  WorkerPoolSize := 100; EnableCompression := true; CompressionLevel := 1; EnableTLS := true;
  EnableMetrics := true; MetricsInterval := 10 * second; HealthCheckInterval := 30 * second;
  MaxMemoryUsage := 1024 * 1024 * 1024; MaxBandwidth := 100 * 1024 * 1024
|}.

Definition HealthStatusHealthy : Z := 0.
Definition HealthStatusDegraded : Z := 1.
Definition HealthStatusUnhealthy : Z := 2.
Definition HealthStatus_String (h : Z) : string :=
  if h =? HealthStatusHealthy then "healthy"
  else if h =? HealthStatusDegraded then "degraded"
  else if h =? HealthStatusUnhealthy then "unhealthy"
  else "unknown".
Inductive proto_error : Type := ErrProtocolClosed | ErrRegistryClosed | ErrTransportNotSupported | ErrTransport (e : error).
Record HealthCheck : Type := mkHealth { Status : Z; Timestamp : Z; HError : option proto_error }.

(** The interface [Transport], as far as the registry uses it. *)
Class Transport (T L K : Type) : Type := {
  t_type : T -> string;
  t_close : T -> T * option error;
  t_health : T -> T * HealthCheck;
  t_listen : string -> option GlobalConfig -> T -> T * result error L;
  t_dial : string -> option GlobalConfig -> T -> T * result error K
}.
(** A transport keeps its type. *)
Class TransportLaws (T L K : Type) `{Transport T L K} : Prop := {
  type_close t : t_type (t_close t).1 = t_type t;
  type_health t : t_type (t_health t).1 = t_type t;
  type_listen a g t : t_type (t_listen a g t).1 = t_type t;
  type_dial a g t : t_type (t_dial a g t).1 = t_type t
}.

Section Registry.
Context {T L K : Type} {TR : Transport T L K}.

Record BaseTransportRegistry : Type := mkRegistry { transports : gmap string T; closed : bool }.
Definition NewBaseTransportRegistry : BaseTransportRegistry := mkRegistry ∅ false.

Definition RegisterTransport (t : T) (r : BaseTransportRegistry) : BaseTransportRegistry * option proto_error :=
  if closed r then (r, Some ErrRegistryClosed)
  else (mkRegistry (<[t_type t := t]> (transports r)) (closed r), None).
(** The transport taken out is closed; second component: that transport. *)
Definition UnregisterTransport (ty : string) (r : BaseTransportRegistry) : BaseTransportRegistry * option T :=
  match transports r !! ty with
  | None => (r, None)
  | Some t => (mkRegistry (delete ty (transports r)) (closed r), Some (t_close t).1)
  end.
Definition GetTransport (ty : string) (r : BaseTransportRegistry) : option T := transports r !! ty.
(** In some order. *)
Definition ListTransports (r : BaseTransportRegistry) : list T := (map_to_list (transports r)).*2.
Definition SupportedTypes (r : BaseTransportRegistry) : list string := (map_to_list (transports r)).*1.

Definition CreateListener (ty addr : string) (cfg : option GlobalConfig) (r : BaseTransportRegistry)
    : BaseTransportRegistry * result proto_error L :=
  match transports r !! ty with
  | None => (r, Err ErrTransportNotSupported)
  | Some t =>
      let '(t, res) := t_listen addr cfg t in
      (mkRegistry (<[ty := t]> (transports r)) (closed r), match res with Ok l => Ok l | Err e => Err (ErrTransport e) end)
  end.
(** A dialer refers to the transport of the registry by its type. *)
Record transportDialer : Type := mkDialer { d_type : string; d_config : option GlobalConfig }.
Definition CreateDialer (ty : string) (cfg : option GlobalConfig) (r : BaseTransportRegistry) : result proto_error transportDialer :=
  match transports r !! ty with
  | None => Err ErrTransportNotSupported
  | Some t => Ok (mkDialer (t_type t) cfg)
  end.

(** One transport after another, in the order [order] of the map's types. *)
Fixpoint check_all (order : list string) (r : BaseTransportRegistry) : BaseTransportRegistry * list (string * HealthCheck) :=
  match order with
  | [] => (r, [])
  | ty :: order =>
      match transports r !! ty with
      | None => check_all order r
      | Some t =>
          let '(t, h) := t_health t in
          let '(r, hs) := check_all order (mkRegistry (<[ty := t]> (transports r)) (closed r)) in
          (r, (ty, h) :: hs)
      end
  end.
Definition HealthCheck_ (order : list string) (r : BaseTransportRegistry) : BaseTransportRegistry * gmap string HealthCheck :=
  let '(r, hs) := check_all order r in (r, list_to_map hs).

(** [Close]: the first call closes every transport; they stay registered. *)
Definition Close (r : BaseTransportRegistry) : BaseTransportRegistry :=
  if closed r then r else mkRegistry ((fun t => (t_close t).1) <$> transports r) true.

(** ** The protocol *)
Record Stats : Type := mkStats {
  TransportsRegistered : Z; TransportsActive : Z; ServersCreated : Z; ServersActive : Z; ClientsCreated : Z;
  ClientsActive : Z; MessagesProcessed : Z; MessagePoolHits : Z; MessagePoolMisses : Z; ErrorsTotal : Z; Uptime : Z }.
Definition no_stats : Stats := mkStats 0 0 0 0 0 0 0 0 0 0 0.

(** Nothing adds a server to [servers]; the field is left out. *)
Record BaseProtocol : Type := mkProtocol {
  name : string; version : string; registry : BaseTransportRegistry; stats : Stats; startTime : Z; pclosed : bool }.
Definition NewBaseProtocol (name version : string) (now : Z) : BaseProtocol :=
  mkProtocol name version NewBaseTransportRegistry no_stats now false.

Definition set_registry (r : BaseTransportRegistry) (p : BaseProtocol) : BaseProtocol :=
  mkProtocol (name p) (version p) r (stats p) (startTime p) (pclosed p).
Definition set_stats (s : Stats) (p : BaseProtocol) : BaseProtocol :=
  mkProtocol (name p) (version p) (registry p) s (startTime p) (pclosed p).

(** [UpdateStats]: 64-bit unsigned counters; an unknown field changes nothing. *)
Definition UpdateStats (field : string) (delta : Z) (p : BaseProtocol) : BaseProtocol :=
  let s := stats p in
  let add z := wrapU 64 (z + delta) in
  let '(mkStats tr ta sc sa cc ca mp mh mm er up) := s in
  set_stats
    (if decide (field = "transports_registered"%string) then mkStats (add tr) ta sc sa cc ca mp mh mm er up
     else if decide (field = "transports_active"%string) then mkStats tr (add ta) sc sa cc ca mp mh mm er up
     else if decide (field = "servers_created"%string) then mkStats tr ta (add sc) sa cc ca mp mh mm er up
     else if decide (field = "servers_active"%string) then mkStats tr ta sc (add sa) cc ca mp mh mm er up
     else if decide (field = "clients_created"%string) then mkStats tr ta sc sa (add cc) ca mp mh mm er up
     else if decide (field = "clients_active"%string) then mkStats tr ta sc sa cc (add ca) mp mh mm er up
     else if decide (field = "messages_processed"%string) then mkStats tr ta sc sa cc ca (add mp) mh mm er up
     else if decide (field = "message_pool_hits"%string) then mkStats tr ta sc sa cc ca mp (add mh) mm er up
     else if decide (field = "message_pool_misses"%string) then mkStats tr ta sc sa cc ca mp mh (add mm) er up
     else if decide (field = "errors_total"%string) then mkStats tr ta sc sa cc ca mp mh mm (add er) up
     else s) p.

Definition protocol_RegisterTransport (t : T) (p : BaseProtocol) : BaseProtocol * option proto_error :=
  if pclosed p then (p, Some ErrProtocolClosed)
  else
    let p := UpdateStats "transports_registered" 1 p in
    let '(r, err) := RegisterTransport t (registry p) in
    (set_registry r p, err).
Definition protocol_GetTransport (ty : string) (p : BaseProtocol) : option T := GetTransport ty (registry p).
Definition protocol_Stats (now : Z) (p : BaseProtocol) : Stats :=
  let '(mkStats tr _ sc _ cc ca mp mh mm er _) := stats p in
  mkStats tr (Z.of_nat (length (ListTransports (registry p)))) sc 0 cc ca mp mh mm er (time_Sub now (startTime p)).

(** The first transport, in the order of the results' map, that is not healthy. *)
Fixpoint first_sick (order : list string) (hs : gmap string HealthCheck) : option HealthCheck :=
  match order with
  | [] => None
  | ty :: order =>
      match hs !! ty with
      | None => first_sick order hs
      | Some h => if Status h =? HealthStatusHealthy then first_sick order hs else Some h
      end
  end.
Definition protocol_HealthCheck (order order' : list string) (now : Z) (p : BaseProtocol) : BaseProtocol * HealthCheck :=
  if pclosed p then (p, mkHealth HealthStatusUnhealthy now (Some ErrProtocolClosed))
  else
    let '(r, hs) := HealthCheck_ order (registry p) in
    (set_registry r p,
     match first_sick order' hs with
     | Some h => mkHealth HealthStatusDegraded now (HError h)
     | None => mkHealth HealthStatusHealthy now None
     end).
Definition protocol_Close (p : BaseProtocol) : BaseProtocol :=
  mkProtocol (name p) (version p) (Close (registry p)) (stats p) (startTime p) true.
Definition protocol_IsClosed (p : BaseProtocol) : bool := pclosed p.
End Registry.
Arguments BaseTransportRegistry : clear implicits.
Arguments BaseProtocol : clear implicits.

Section Facts.
Context {T L K : Type} {TR : Transport T L K}.
Implicit Types r : BaseTransportRegistry T.

Lemma check_all_spec order r : NoDup order ->
  (check_all order r).1 = mkRegistry (map_imap (fun ty t => Some (if decide (ty ∈ order) then (t_health t).1 else t)) (transports r)) (closed r) /\
  forall ty, (list_to_map (check_all order r).2 : gmap string HealthCheck) !! ty =
    if decide (ty ∈ order) then (fun t => (t_health t).2) <$> transports r !! ty else None.
Proof.
  revert r. induction order as [|ty order IH]; intros r Hnd.
  - split; [|done]. destruct r as [m b]. cbn. f_equal. apply map_eq. intros i. rewrite map_lookup_imap. by destruct (m !! i).
  - apply NoDup_cons in Hnd as [Hni Hnd]. cbn [check_all].
    destruct (transports r !! ty) as [t|] eqn:Et.
    + destruct (t_health t) as [t' h] eqn:Eh. set (r1 := mkRegistry _ _). destruct (IH r1 Hnd) as [I1 I2].
      destruct (check_all order r1) as [r2 hs]. cbn in I1, I2 |- *. subst r2. split.
      * f_equal. apply map_eq. intros i. rewrite !map_lookup_imap. destruct (decide (i = ty)) as [->|Hne].
        { rewrite lookup_insert_eq, Et. cbn. rewrite decide_False by done. rewrite decide_True by set_solver. by rewrite Eh. }
        rewrite lookup_insert_ne by done. destruct (transports r !! i) as [u|]; [|done]. cbn. f_equal.
        destruct (decide (i ∈ order)); [rewrite decide_True by set_solver|rewrite decide_False by set_solver]; done.
      * intros i. destruct (decide (i = ty)) as [->|Hne].
        { rewrite lookup_insert_eq, decide_True, Et by set_solver. cbn. by rewrite Eh. }
        rewrite lookup_insert_ne, I2 by done. rewrite lookup_insert_ne by done.
        destruct (decide (i ∈ order)); [rewrite decide_True by set_solver|rewrite decide_False by set_solver]; done.
    + destruct (IH r Hnd) as [I1 I2]. rewrite I1. split.
      * f_equal. apply map_eq. intros i. rewrite !map_lookup_imap. destruct (transports r !! i) as [u|] eqn:Ei; [|done]. cbn. f_equal.
        destruct (decide (i ∈ order)); [rewrite decide_True by set_solver|rewrite decide_False by set_solver]; done.
      * intros i. rewrite I2. destruct (decide (i = ty)) as [->|Hne].
        { by rewrite (decide_False (P := ty ∈ order)), decide_True, Et by set_solver. }
        destruct (decide (i ∈ order)); [rewrite decide_True by set_solver|rewrite decide_False by set_solver]; done.
Qed.

(** What the program asks of a registry. *)
Inductive registry_op : Type :=
  | RRegister (t : T) | RUnregister (ty : string) | RListen (ty addr : string) (cfg : option GlobalConfig)
  | RCheck (order : list string) | RClose.
Definition apply_op (o : registry_op) r : BaseTransportRegistry T :=
  match o with
  | RRegister t => (RegisterTransport t r).1
  | RUnregister ty => (UnregisterTransport ty r).1
  | RListen ty a g => (CreateListener ty a g r).1
  | RCheck order => (HealthCheck_ order r).1
  | RClose => Close r
  end.
Definition after (ops : list registry_op) : BaseTransportRegistry T := foldl (fun r o => apply_op o r) NewBaseTransportRegistry ops.

(** The types registered, as a specification. *)
Definition spec_op (o : registry_op) (st : gset string * bool) : gset string * bool :=
  match o with
  | RRegister t => if st.2 then st else ({[t_type t]} ∪ st.1, st.2)
  | RUnregister ty => (st.1 ∖ {[ty]}, st.2)
  | RListen _ _ _ | RCheck _ => st
  | RClose => (st.1, true)
  end.
Definition keyed r : Prop := forall ty t, transports r !! ty = Some t -> t_type t = ty.
Definition shape r : gset string * bool := (dom (transports r), closed r).

Context `{!TransportLaws T L K}.

Lemma check_keyed order r : keyed r -> keyed (check_all order r).1 /\ shape (check_all order r).1 = shape r.
Proof.
  revert r. induction order as [|ty order IH]; intros r Hk; [done|]. cbn [check_all].
  destruct (transports r !! ty) as [t|] eqn:Et; [|by apply IH].
  destruct (t_health t) as [t' h] eqn:Eh. set (r1 := mkRegistry _ _).
  destruct (IH r1) as [I1 I2].
  - intros i u. cbn. destruct (decide (i = ty)) as [->|Hne]; [|rewrite lookup_insert_ne by done; apply Hk].
    rewrite lookup_insert_eq. intros [= <-]. pose proof (type_health t) as E. rewrite Eh in E. cbn in E. rewrite E. by apply Hk.
  - destruct (check_all order r1) as [r2 hs]. cbn in I1, I2 |- *. split; [done|]. rewrite I2. unfold shape, r1. cbn.
    rewrite dom_insert_lookup_L by (by eexists). done.
Qed.

Lemma apply_keyed o r : keyed r -> keyed (apply_op o r) /\ shape (apply_op o r) = spec_op o (shape r).
Proof.
  intros Hk. destruct o as [t|ty|ty a g|order|]; cbn [apply_op spec_op].
  - unfold RegisterTransport, shape. cbn. destruct (closed r) eqn:Ec; [split; [done|cbn; by rewrite Ec]|]. cbn. split; [|by rewrite dom_insert_L].
    intros i u. cbn. destruct (decide (i = t_type t)) as [->|Hne]; [|rewrite lookup_insert_ne by done; apply Hk].
    rewrite lookup_insert_eq. by intros [= <-].
  - unfold UnregisterTransport, shape. destruct (transports r !! ty) as [t|] eqn:Et; cbn.
    + split; [|by rewrite dom_delete_L]. intros i u. cbn. rewrite lookup_delete_Some. intros [_ E]. by apply Hk.
    + split; [done|]. f_equal. apply not_elem_of_dom_2 in Et. set_solver.
  - unfold CreateListener. destruct (transports r !! ty) as [t|] eqn:Et; [|done].
    destruct (t_listen a g t) as [t' res] eqn:El. cbn. split.
    + intros i u. cbn. destruct (decide (i = ty)) as [->|Hne]; [|rewrite lookup_insert_ne by done; apply Hk].
      rewrite lookup_insert_eq. intros [= <-]. pose proof (type_listen a g t) as E. rewrite El in E. cbn in E. rewrite E. by apply Hk.
    + unfold shape. cbn. rewrite dom_insert_lookup_L by (by eexists). done.
  - unfold HealthCheck_. destruct (check_keyed order r Hk) as [H1 H2]. by destruct (check_all order r) as [r' hs].
  - unfold Close, shape. destruct (closed r) eqn:Ec; [split; [done|cbn; by rewrite Ec]|]. cbn. split; [|by rewrite dom_fmap_L].
    intros i u. cbn. rewrite lookup_fmap. destruct (transports r !! i) as [t|] eqn:Et; [|done]. intros [= <-].
    rewrite type_close. by apply Hk.
Qed.

Lemma after_app ops o : after (ops ++ [o]) = apply_op o (after ops).
Proof. unfold after. by rewrite foldl_app. Qed.

(** The registry refines a set of types with a flag: whatever sequence of
    operations, the transports are filed under their own type, under exactly
    the types registered while open and not unregistered since; registering
    is the only operation [Close] stops, closing twice is closing once, and a
    dialer is made for exactly the types present. *)
Theorem registry_refines_set ops :
  shape (after ops) = foldl (fun st o => spec_op o st) (∅, false) ops /\ keyed (after ops) /\
  Close (Close (after ops)) = Close (after ops) /\
  (forall t, closed (after ops) = false -> GetTransport (t_type t) (after (ops ++ [RRegister t])) = Some t) /\
  forall ty cfg, CreateDialer ty cfg (after ops) =
    if decide (ty ∈ dom (transports (after ops))) then Ok (mkDialer ty cfg) else Err ErrTransportNotSupported.
Proof.
  assert (shape (after ops) = foldl (fun st o => spec_op o st) (∅, false) ops /\ keyed (after ops)) as [H1 H2].
  { induction ops as [|o ops IH] using rev_ind; [by split|]. rewrite after_app, foldl_app. cbn [foldl].
    destruct IH as [I1 I2]. destruct (apply_keyed o _ I2) as [A1 A2]. split; [|done]. rewrite A2, I1. done. }
  split; [done|]. split; [done|]. split.
  - unfold Close. destruct (closed (after ops)) eqn:E; [by rewrite E|done].
  - split.
    + intros t Hc. rewrite after_app. cbn. unfold RegisterTransport. rewrite Hc. apply lookup_insert_eq.
    + intros ty cfg. unfold CreateDialer. destruct (transports (after ops) !! ty) as [t|] eqn:Et.
      * rewrite decide_True by (apply elem_of_dom; by eexists). by rewrite (H2 _ _ Et).
      * rewrite decide_False by (by apply not_elem_of_dom). done.
Qed.
End Facts.

Section Health.
Context {T L K : Type} {TR : Transport T L K}.
Implicit Types p : BaseProtocol T.

Lemma first_sick_spec order hs : 
  match first_sick order hs with
  | Some h => exists ty, ty ∈ order /\ hs !! ty = Some h /\ Status h <> HealthStatusHealthy
  | None => forall ty h, ty ∈ order -> hs !! ty = Some h -> Status h = HealthStatusHealthy
  end.
Proof.
  induction order as [|ty order IH]; [by intros ? ? ?%not_elem_of_nil|]. cbn [first_sick].
  destruct (hs !! ty) as [h|] eqn:E.
  - destruct (Z.eqb_spec (Status h) HealthStatusHealthy) as [Eh|Eh]; [|exists ty; split_and!; [left|done..]].
    destruct (first_sick order hs) as [h'|].
    + destruct IH as (ty' & ? & ? & ?). exists ty'. split_and!; [by right|done..].
    + intros ty' h' [->|Hin]%elem_of_cons E'; [congruence|by eapply IH].
  - destruct (first_sick order hs) as [h'|].
    + destruct IH as (ty' & ? & ? & ?). exists ty'. split_and!; [by right|done..].
    + intros ty' h' [->|Hin]%elem_of_cons E'; [congruence|by eapply IH].
Qed.

(** The protocol's health: unhealthy exactly when it is closed; while open
    every registered transport is checked once, and the protocol is healthy
    when all of them are and else degraded, with the error of one that is not,
    in whatever order the maps are ranged over. *)
Theorem protocol_health_correct order order' now p :
  NoDup order -> (forall ty, ty ∈ order <-> ty ∈ dom (transports (registry p))) ->
  (forall ty, ty ∈ order' <-> ty ∈ order) ->
  let '(p', h) := protocol_HealthCheck order order' now p in
  (Status h = HealthStatusUnhealthy <-> pclosed p = true) /\
  (pclosed p = false ->
     transports (registry p') = (fun t => (t_health t).1) <$> transports (registry p) /\
     (Status h = HealthStatusHealthy <->
        forall ty t, transports (registry p) !! ty = Some t -> Status (t_health t).2 = HealthStatusHealthy) /\
     (Status h = HealthStatusDegraded -> exists ty t, transports (registry p) !! ty = Some t /\
        Status (t_health t).2 <> HealthStatusHealthy /\ HError h = HError (t_health t).2)).
Proof.
  intros Hnd Ho Ho'. unfold protocol_HealthCheck. destruct (pclosed p) eqn:Ec; [by split|].
  destruct (check_all_spec order (registry p) Hnd) as [C1 C2]. unfold HealthCheck_.
  destruct (check_all order (registry p)) as [r hs]. cbn in C1, C2. subst r.
  assert (Hall : forall ty, (list_to_map hs : gmap string HealthCheck) !! ty = (fun t => (t_health t).2) <$> transports (registry p) !! ty).
  { intros ty. rewrite C2. destruct (decide (ty ∈ order)) as [Hin|Hni]; [done|].
    destruct (transports (registry p) !! ty) eqn:E; [|done]. destruct Hni. apply Ho, elem_of_dom. by eexists. }
  pose proof (first_sick_spec order' (list_to_map hs)) as Hs.
  assert (Hm : map_imap (fun ty t => Some (if decide (ty ∈ order) then (t_health t).1 else t)) (transports (registry p)) =
    (fun t => (t_health t).1) <$> transports (registry p)).
  { apply map_eq. intros i. rewrite map_lookup_imap, lookup_fmap. destruct (transports (registry p) !! i) eqn:E; [|done]. cbn.
    rewrite decide_True; [done|]. apply Ho, elem_of_dom. by eexists. }
  destruct (first_sick order' (list_to_map hs)) as [h|]; cbn; (split; [done|]); intros _; (split; [exact Hm|]).
  - destruct Hs as (ty & Hin & Hh & Hst). rewrite Hall in Hh. destruct (transports (registry p) !! ty) as [t|] eqn:Et; [|done].
    injection Hh as <-. split; [|intros _; by exists ty, t]. split; [done|]. intros H. destruct Hst. by eapply H.
  - split; [|done]. split; [|done]. intros _ ty t Et. eapply Hs; [apply Ho', Ho, elem_of_dom; by eexists|]. by rewrite Hall, Et.
Qed.
End Health.

(** ** Sample transports: a type, and whether it is well. *)
Module Samples.
#[export] Instance sample_transport : Transport (string * bool) unit unit := {|
  t_type t := t.1; t_close t := ((t.1, false), None);
  t_health t := (t, mkHealth (if t.2 then HealthStatusHealthy else HealthStatusUnhealthy) 0 None);
  t_listen _ _ t := (t, Ok tt); t_dial _ _ t := (t, Ok tt) |}.
#[export] Instance sample_laws : TransportLaws (string * bool) unit unit.
Proof. by split. Qed.
Definition protocol : BaseProtocol (string * bool) :=
  (protocol_RegisterTransport ("quic"%string, false) (protocol_RegisterTransport ("tcp"%string, true) (NewBaseProtocol "z" "1" 0)).1).1.
End Samples.
#[local] Existing Instance Samples.sample_transport.
#[local] Existing Instance Samples.sample_laws.

Lemma registry_refines_set_witness :
  shape (after [RRegister ("quic"%string, true); RRegister ("tcp"%string, true); RUnregister "quic"; RClose]) = ({["tcp"%string]}, true).
Proof.
  rewrite (proj1 (registry_refines_set [RRegister ("quic"%string, true); RRegister ("tcp"%string, true); RUnregister "quic"; RClose])).
  vm_compute. reflexivity.
Defined.

Lemma protocol_health_correct_witness :
  Status (protocol_HealthCheck ["tcp"; "quic"]%string ["quic"; "tcp"]%string 5 Samples.protocol).2 = HealthStatusDegraded /\
  ~ forall ty t, transports (registry Samples.protocol) !! ty = Some t -> Status (t_health t).2 = HealthStatusHealthy.
Proof.
  pose proof (protocol_health_correct ["tcp"; "quic"]%string ["quic"; "tcp"]%string 5 Samples.protocol
    ltac:(apply (bool_decide_unpack _); vm_compute; exact I)) as Hc.
  destruct (protocol_HealthCheck ["tcp"; "quic"]%string ["quic"; "tcp"]%string 5 Samples.protocol) as [p h] eqn:E.
  assert (Eh : h = mkHealth HealthStatusDegraded 5 None) by (vm_compute in E; by injection E as _ <-). subst h.
  split; [reflexivity|]. intros Hall.
  destruct Hc as [_ Hc].
  - intros ty. assert (Hd : dom (transports (registry Samples.protocol)) = {["quic"%string; "tcp"%string]}) by (vm_compute; reflexivity).
    rewrite Hd, elem_of_union, !elem_of_singleton, elem_of_cons, list_elem_of_singleton. tauto.
  - intros ty. rewrite !elem_of_cons. tauto.
  - destruct (Hc eq_refl) as (_ & [_ Hh] & _). specialize (Hh Hall). discriminate Hh.
Defined.
