(* ===== verification/SyncVars.v ===== *)
(** * Synchronized variables, first generation ([sync/vars], [sync/resolver])

    [Mutex] and [Atomic] hold dynamically typed values, [AtomicInt] 64-bit
    integers; all three share the permission mask, the version, the dirty flag
    and the ring of deltas, which is the record [Core]. [Complex] and [Sharded]
    are the typed variables without history. A callback started in a goroutine
    is recorded with its arguments; conflict functions are pure. *)
From S2P Require Import Prelude.
From Stdlib Require Import ZArith Lia Strings.Byte Strings.String.
From stdpp Require Import base tactics list strings gmap sorting.
Open Scope Z_scope.

(** ** Values

    A value of the interface type is [None] for nil. [deep_equal] is the
    comparison of two values of one dynamic type ([==] of numbers, strings and
    booleans, else [reflect.DeepEqual]). *)
Class GoValue (V Ty : Type) : Type := {
  type_of : V -> Ty;
  ty_eq_dec :: EqDecision Ty;
  deep_equal : V -> V -> bool
}.

(** ** Strategies and permissions *)
Definition StrategyBasic := 0.
Definition StrategyAtomic := 1.
Definition StrategyMutex := 2.
Definition StrategyChannels := 3.
Definition StrategySharded := 4.
Definition StrategyLockFree := 5.
Definition StrategyPersisted := 6.
Definition StrategyReplicated := 7.
Definition StrategyWriteOptimized := 8.
Definition StrategyReadOptimized := 9.
Definition StrategyMemoryOptimized := 10.

Definition PermissionRead := 1.
Definition PermissionWrite := 2.
Definition PermissionDelete := 4.
Definition PermissionMigrate := 8.
Definition PermissionAdmin := 16.
Definition checkPermissions (action mask : Z) : bool := negb (Z.land action mask =? 0).

Inductive var_error : Type := ErrPermissionDenied | ErrHistoryEmpty | ErrNoDeltas | ErrTypeMismatch.

Section Vars.
Context {V Ty : Type} {GV : GoValue V Ty}.
Abbreviation value := (option V).

Definition fastEqual (a b : value) : bool :=
  match a, b with
  | None, None => true
  | Some x, Some y => if decide (type_of x = type_of y) then deep_equal x y else false
  | _, _ => false
  end.

Record Delta : Type := mkDelta {
  Version : Z; Path : string; PreviousValue : value; DValue : value; Timestamp : Z; DClientID : string }.
Definition no_delta : Delta := mkDelta 0 "" None None 0 "".

(** A resolver and a conflict callback are functions of the two values. *)
Record VariableConfig : Type := mkConfig {
  Name : string; MaxHistory : Z; Permissions : Z; ConflictResolver : option (value -> value -> value);
  StorageStrategy : Z; EnableMetrics : bool; EnableHistory : bool; TTL : Z; Tags : gmap string string }.

(** ** The shared part *)
Record Core : Type := mkCore {
  version : Z;
  dirty : bool;
  permissionMask : Z;
  history : option (list Delta);          (* [None] is the nil slice *)
  historyIndex : nat;
  maxHistory : Z;
  enabledHistory : bool;
  storageStrategy : Z;
  enabledMetrics : bool;
  ttl : Z;
  tags : gmap string string
}.

Definition new_core (cfg : VariableConfig) : Core :=
  mkCore 1 false (Permissions cfg)
    (if EnableHistory cfg then Some (replicate (Z.to_nat (MaxHistory cfg)) no_delta) else None) 0
    (MaxHistory cfg) (EnableHistory cfg) (StorageStrategy cfg) (EnableMetrics cfg) (TTL cfg) (Tags cfg).

Definition set_history (h : option (list Delta)) (i : nat) (c : Core) : Core :=
  mkCore (version c) (dirty c) (permissionMask c) h i (maxHistory c) (enabledHistory c) (storageStrategy c)
    (enabledMetrics c) (ttl c) (tags c).
Definition set_version (n : Z) (d : bool) (c : Core) : Core :=
  mkCore n d (permissionMask c) (history c) (historyIndex c) (maxHistory c) (enabledHistory c) (storageStrategy c)
    (enabledMetrics c) (ttl c) (tags c).
Definition SetPermissions (mask : Z) (c : Core) : Core :=
  mkCore (version c) (dirty c) mask (history c) (historyIndex c) (maxHistory c) (enabledHistory c) (storageStrategy c)
    (enabledMetrics c) (ttl c) (tags c).
Definition GetPermissions (c : Core) : Z := permissionMask c.
Definition IsDirty (c : Core) : bool := dirty c.
Definition MarkClean (c : Core) : Core := set_version (version c) false c.
Definition GetVersion (c : Core) : Z := version c.
Definition GetStorageStrategy (c : Core) : Z := storageStrategy c.
Definition CanMigrateTo (strategy : Z) (c : Core) : bool := negb (strategy =? storageStrategy c).

Definition updateHistory (d : Delta) (c : Core) : Core :=
  match history c with
  | None | Some [] => c
  | Some h => set_history (Some (<[historyIndex c := d]> h)) ((historyIndex c + 1) mod length h) c
  end.

(** A change: the new version, the flag and, if asked for, the history. *)
Definition record_change (old new : value) (c : Core) : Core :=
  let n := wrapU 64 (version c + 1) in
  let c := set_version n true c in
  if 0 <? maxHistory c then updateHistory (mkDelta n "" old new 0 "") c else c.

Definition is_since (since : Z) (d : Delta) : Prop := since < Version d /\ Version d <> 0.
#[export] Instance is_since_dec since d : Decision (is_since since d).
Proof. unfold is_since. apply _. Defined.

Definition GetDelta (sinceVersion : Z) (c : Core) : result var_error (list Delta) :=
  match history c with
  | None => Err ErrHistoryEmpty
  | Some h => Ok (if version c <=? sinceVersion then [] else filter (is_since sinceVersion) h)
  end.

Record HistoryEntry : Type := mkEntry { he_Version : Z; he_Timestamp : Z; he_Value : value; he_ClientID : string }.
Definition to_entry (d : Delta) : HistoryEntry := mkEntry (Version d) (Timestamp d) (DValue d) (DClientID d).
Definition GetHistory (c : Core) : option (list HistoryEntry) :=
  match history c with
  | None => None
  | Some h => Some (map to_entry (filter (fun d : Delta => Version d <> 0) h))
  end.

(** The loop of [ApplyDelta]: an index out of range panics. *)
Fixpoint push_all (ds : list Delta) (c : Core) : outcome Core :=
  match ds with
  | [] => Done c
  | d :: ds =>
      match history c with
      | None => Panic
      | Some h =>
          if decide (historyIndex c < length h)%nat
          then push_all ds (set_history (Some (<[historyIndex c := d]> h)) ((historyIndex c + 1) mod length h) c)
          else Panic
      end
  end.
Definition older (a b : Delta) : Prop := Version a <= Version b.
#[export] Instance older_dec a b : Decision (older a b).
Proof. unfold older. apply _. Defined.
(** [sort.Slice] by version; it may order equal versions either way. *)
Definition sort_deltas (ds : list Delta) : list Delta := merge_sort older ds.
Definition push_history (ds : list Delta) (c : Core) : outcome Core :=
  if 0 <? maxHistory c then push_all ds c else Done c.

(** What a [Set] of an equal value comes to: [None] is to change nothing. *)
Definition resolve (resolver onConflict : option (value -> value -> value)) (old new : value) : option value :=
  if fastEqual old new then
    match resolver, onConflict with
    | Some r, _ => Some (r old new)
    | None, Some f => Some (f old new)
    | None, None => None
    end
  else Some new.

(** ** [Mutex] and [Atomic]

    The callbacks: [onChange] names the function, [notified] lists its calls. *)
Record Var : Type := mkVar {
  v_value : value;
  core : Core;
  onChange : option nat;
  onConflict : option (value -> value -> value);
  conflictResolver : option (value -> value -> value);
  notified : list (nat * value * value)
}.
Definition NewMutexVariable (cfg : VariableConfig) : Var :=
  mkVar None (new_core cfg) None None (ConflictResolver cfg) [].
Definition NewAtomicVariable (cfg : VariableConfig) : Var :=
  mkVar None (new_core cfg) None None (ConflictResolver cfg) [].

Definition set_value (x : value) (v : Var) : Var := mkVar x (core v) (onChange v) (onConflict v) (conflictResolver v) (notified v).
Definition set_core (c : Core) (v : Var) : Var := mkVar (v_value v) c (onChange v) (onConflict v) (conflictResolver v) (notified v).
Definition notify (old new : value) (v : Var) : Var :=
  match onChange v with
  | None => v
  | Some h => mkVar (v_value v) (core v) (onChange v) (onConflict v) (conflictResolver v) (notified v ++ [(h, old, new)])
  end.
Definition SetConflictResolver (r : value -> value -> value) (v : Var) : Var :=
  mkVar (v_value v) (core v) (onChange v) (onConflict v) (Some r) (notified v).
Definition OnChange (h : nat) (v : Var) : Var :=
  mkVar (v_value v) (core v) (Some h) (onConflict v) (conflictResolver v) (notified v).
Definition OnConflict (f : value -> value -> value) (v : Var) : Var :=
  mkVar (v_value v) (core v) (onChange v) (Some f) (conflictResolver v) (notified v).
Definition Get (v : Var) : value := v_value v.
Definition GetType (v : Var) : option Ty := type_of <$> v_value v.

(** The rest of [Set] once the value to store is known. *)
Definition change (old new : value) (v : Var) : Var :=
  notify old new (set_core (record_change old new (core v)) (set_value new v)).
Definition Mutex_Set (newValue : value) (v : Var) : Var * option var_error :=
  if negb (checkPermissions PermissionWrite (permissionMask (core v))) then (v, Some ErrPermissionDenied)
  else match resolve (conflictResolver v) (onConflict v) (v_value v) newValue with
       | None => (v, None)
       | Some new => (change (v_value v) new v, None)
       end.

(** [atomic.Value.Store] panics on nil and on a value of another type. *)
Definition storable (old new : value) : bool :=
  match old, new with
  | _, None => false
  | None, Some _ => true
  | Some x, Some y => bool_decide (type_of x = type_of y)
  end.
Definition Atomic_Set (newValue : value) (v : Var) : outcome (Var * option var_error) :=
  if negb (checkPermissions PermissionWrite (permissionMask (core v))) then Done (v, Some ErrPermissionDenied)
  else match resolve (conflictResolver v) (onConflict v) (v_value v) newValue with
       | None => Done (v, None)
       | Some new => if storable (v_value v) new then Done (change (v_value v) new v, None) else Panic
       end.

(** [Mutex.ApplyDelta]: the value follows the newest delta, the version does
    not. *)
Definition Mutex_ApplyDelta (deltas : list Delta) (v : Var) : outcome (Var * option var_error) :=
  match deltas with
  | [] => Done (v, Some ErrNoDeltas)
  | _ =>
      let ds := sort_deltas deltas in
      c ← push_history ds (core v);
      let v := set_core c v in
      match last ds with
      | Some d => Done (if version c <? Version d then set_value (DValue d) v else v, None)
      | None => Panic
      end
  end.
(** [Atomic.ApplyDelta] only fills the history. *)
Definition Atomic_ApplyDelta (deltas : list Delta) (v : Var) : outcome (Var * option var_error) :=
  match deltas with
  | [] => Done (v, Some ErrNoDeltas)
  | _ => c ← push_history (sort_deltas deltas) (core v); Done (set_core c v, None)
  end.

(** The readers of [Atomic] are those of the shared part. *)
Definition Atomic_GetDelta (sinceVersion : Z) (v : Var) : result var_error (list Delta) := GetDelta sinceVersion (core v).
Definition Atomic_GetHistory (v : Var) : option (list HistoryEntry) := GetHistory (core v).

(** Counters of [VariableMetrics] the analysis uses. *)
Record Metrics : Type := mkMetrics {
  ReadCount : Z; WriteCount : Z; ErrorCount : Z; AvgReadLatency : Z; AvgWriteLatency : Z; P99ReadLatency : Z;
  MaxConcurrentReaders : Z; MaxConcurrentWriters : Z; ContentionEvents : Z; MemoryUsage : Z;
  MigrationHistory : list (Z * Z * Z * bool)       (* from, to, time, success *) }.
Definition no_metrics : Metrics := mkMetrics 0 0 0 0 0 0 0 0 0 0 [].
Definition Mutex_GetMetrics (v : Var) : Metrics :=
  mkMetrics (version (core v)) (version (core v)) 0 0 0 0 0 0 0 0 [].
Definition Atomic_GetMetrics (v : Var) : Metrics := no_metrics.

(** ** [AtomicInt]

    Deltas carry the integers as interface values. *)
Section Ints.
Context (of_int : Z -> V) (to_int : V -> option Z).

Record AtomicInt : Type := mkInt {
  i_value : Z;
  i_core : Core;
  i_onChange : option nat;
  i_onConflict : option (Z -> Z -> Z);
  i_resolver : option (value -> value -> value);     (* inside a [TypedResolver] *)
  i_notified : list (nat * Z * Z)
}.
(** [NewInt] stores 1 and drops the configuration's resolver. *)
Definition NewInt (cfg : VariableConfig) : AtomicInt := mkInt 1 (new_core cfg) None None None [].

Definition Int_SetConflictResolver (r : value -> value -> value) (v : AtomicInt) : AtomicInt :=
  mkInt (i_value v) (i_core v) (i_onChange v) (i_onConflict v) (Some r) (i_notified v).
Definition Int_OnChange (h : nat) (v : AtomicInt) : AtomicInt :=
  mkInt (i_value v) (i_core v) (Some h) (i_onConflict v) (i_resolver v) (i_notified v).
Definition Int_OnConflict (f : Z -> Z -> Z) (v : AtomicInt) : AtomicInt :=
  mkInt (i_value v) (i_core v) (i_onChange v) (Some f) (i_resolver v) (i_notified v).
Definition Int_Get (v : AtomicInt) : Z := i_value v.

(** [TypedResolver.Resolve]: the type assertion on the result can panic. *)
Definition TypedResolver_Resolve (r : value -> value -> value) (local remote : Z) : outcome Z :=
  match r (Some (of_int local)) (Some (of_int remote)) with
  | Some x => match to_int x with Some z => Done z | None => Panic end
  | None => Panic
  end.

Definition Int_change (old new : Z) (v : AtomicInt) : AtomicInt :=
  mkInt new (record_change (Some (of_int old)) (Some (of_int new)) (i_core v)) (i_onChange v) (i_onConflict v) (i_resolver v)
    (match i_onChange v with None => i_notified v | Some h => i_notified v ++ [(h, old, new)] end).
Definition Int_Set (newValue : Z) (v : AtomicInt) : outcome (AtomicInt * option var_error) :=
  if negb (checkPermissions PermissionWrite (permissionMask (i_core v))) then Done (v, Some ErrPermissionDenied)
  else if i_value v =? newValue then
    match i_resolver v, i_onConflict v with
    | Some r, _ => new ← TypedResolver_Resolve r (i_value v) newValue; Done (Int_change (i_value v) new v, None)
    | None, Some f => Done (Int_change (i_value v) (f (i_value v) newValue) v, None)
    | None, None => Done (v, None)
    end
  else Done (Int_change (i_value v) newValue v, None).
Definition Int_ApplyDelta (deltas : list Delta) (v : AtomicInt) : outcome (AtomicInt * option var_error) :=
  match deltas with
  | [] => Done (v, Some ErrNoDeltas)
  | _ =>
      c ← push_history (sort_deltas deltas) (i_core v);
      Done (mkInt (i_value v) c (i_onChange v) (i_onConflict v) (i_resolver v) (i_notified v), None)
  end.
Definition Int_GetDelta (sinceVersion : Z) (v : AtomicInt) : result var_error (list Delta) := GetDelta sinceVersion (i_core v).
Definition Int_GetHistory (v : AtomicInt) : option (list HistoryEntry) := GetHistory (i_core v).
End Ints.

(** ** Typed views

    [as_T] is the type assertion to [T]. *)
Section Typed.
Context {T : Type} (as_T : V -> option T) (zero : T).

(** [AtomicTyped.Get]. *)
Definition AtomicTyped_Get (v : Var) : T * option var_error :=
  match v_value v ≫= as_T with
  | Some x => (x, None)
  | None => (zero, Some ErrTypeMismatch)
  end.
(** [MutexTyped.Get], for a type [T] that is not an interface: the default
    value is the zero value of the dynamic type of the value found, and is then
    asserted to be a [T]. *)
Definition getDefaultValue (zero_of : Ty -> V) (x : value) : outcome T :=
  match x with
  | None => Panic                                   (* [reflect.Zero] of the nil type *)
  | Some x => match as_T (zero_of (type_of x)) with Some t => Done t | None => Panic end
  end.
Definition MutexTyped_Get (zero_of : Ty -> V) (v : Var) : outcome (T * option var_error) :=
  match v_value v ≫= as_T with
  | Some x => Done (x, None)
  | None => d ← getDefaultValue zero_of (v_value v); Done (d, Some ErrTypeMismatch)
  end.
(** A function registered with [OnConflict] through the typed views. *)
Definition MutexTyped_OnConflict (of_T : T -> V) (f : T -> T -> T) (local remote : value) : outcome value :=
  match local ≫= as_T, remote ≫= as_T with
  | Some l, Some r => Done (Some (of_T (f l r)))
  | _, _ => Panic
  end.
Definition AtomicTyped_OnConflict (of_T : T -> V) (f : T -> T -> T) (local remote : value) : value :=
  match local ≫= as_T, remote ≫= as_T with
  | Some l, Some r => Some (of_T (f l r))
  | _, _ => local
  end.
End Typed.

(** ** [Resolver] *)
Definition Resolver_Resolve (local remote : value) : value := local.
End Vars.
Arguments Delta : clear implicits.
Arguments Core : clear implicits.
Arguments Var : clear implicits.
Arguments VariableConfig : clear implicits.
Arguments HistoryEntry : clear implicits.
Arguments AtomicInt : clear implicits.

(** ** [Complex] and [Sharded]

    The collector is told the name, the kind and the latency of an access. *)
Inductive access : Type := ARead (name : string) (latency : Z) | AWrite (name : string) (latency : Z).

Module Complex.
Section Complex.
Context {T : Type}.
Record Complex : Type := mkComplex {
  value : T; version : Z; dirty : bool; name : string; collector : option (list access) }.
Definition NewComplexVariable (name : string) (initialValue : T) (collector : option (list access)) : Complex :=
  mkComplex initialValue 1 false name collector.
Definition record (a : access) (col : option (list access)) : option (list access) :=
  match col with None => None | Some l => Some (l ++ [a]) end.
Definition Get (latency : Z) (v : Complex) : Complex * T :=
  (mkComplex (value v) (version v) (dirty v) (name v) (record (ARead (name v) latency) (collector v)), value v).
Definition Set_ (latency : Z) (newValue : T) (v : Complex) : Complex :=
  mkComplex newValue (wrapU 64 (version v + 1)) true (name v) (record (AWrite (name v) latency) (collector v)).
Definition IsDirty (v : Complex) : bool := dirty v.
Definition MarkClean (v : Complex) : Complex := mkComplex (value v) (version v) false (name v) (collector v).
Definition GetVersion (v : Complex) : Z := version v.
(** Unimplemented: no deltas, no effect. *)
Definition GetDelta (sinceVersion : Z) (v : Complex) : list T := [].
Definition ApplyDelta {D} (delta : list D) (v : Complex) : Complex := v.
Definition GetPermissions (v : Complex) : Z := PermissionWrite.
Definition GetStorageStrategy (v : Complex) : Z := StrategyPersisted.
Definition CanMigrateTo (strategy : Z) (v : Complex) : bool := strategy =? StrategyPersisted.
End Complex.
End Complex.

Module ShardedVar.

(** [int] arithmetic on 64 bits; the right shifts are arithmetic. *)
Definition smear (n : Z) : Z :=
  let n := Z.lor n (Z.shiftr n 1) in
  let n := Z.lor n (Z.shiftr n 2) in
  let n := Z.lor n (Z.shiftr n 4) in
  let n := Z.lor n (Z.shiftr n 8) in
  Z.lor n (Z.shiftr n 16).
Definition nextPowerOf2 (n : Z) : Z := wrapS 64 (smear (wrapS 64 (n - 1)) + 1).

Definition offset64 : Z := 14695981039346656037.
Definition prime64 : Z := 1099511628211.
Definition fnvHash (data : list byte) : Z :=
  foldl (fun hash b => wrapU 64 (Z.lxor hash (byte_to_Z b) * prime64)) offset64 data.
Definition crc32Checksum (data : list byte) : Z :=
  foldl (fun checksum b => Z.lxor (wrapU 32 (Z.shiftl checksum 8)) (byte_to_Z b)) 0 data.

Section Sharded.
Context {T : Type}.
Record shard : Type := mkShard { value : T; version : Z; dirty : bool }.
Record Sharded : Type := mkSharded { shards : list shard; shardMask : Z; name : string; collector : option (list access) }.

(** The number of shards asked for, rounded up; a negative one panics. *)
Definition shard_count (n : Z) : Z := if Z.land n (wrapS 64 (n - 1)) =? 0 then n else nextPowerOf2 n.
Definition NewShardedVariable (initialValue : T) (n : Z) (name : string) (collector : option (list access)) : outcome Sharded :=
  let n := shard_count n in
  if n <? 0 then Panic
  else Done (mkSharded (replicate (Z.to_nat n) (mkShard initialValue 1 false)) (wrapU 64 (n - 1)) name collector).

Definition shard_index (key : list byte) (v : Sharded) : nat := Z.to_nat (Z.land (fnvHash key) (shardMask v)).
Definition record (a : access) (v : Sharded) : Sharded :=
  mkSharded (shards v) (shardMask v) (name v) (match collector v with None => None | Some l => Some (l ++ [a]) end).
Definition get_at (i : nat) (latency : Z) (v : Sharded) : outcome (Sharded * T) :=
  match shards v !! i with
  | None => Panic
  | Some sd => Done (record (ARead (name v) latency) v, value sd)
  end.
Definition set_at (i : nat) (latency : Z) (newValue : T) (v : Sharded) : outcome Sharded :=
  match shards v !! i with
  | None => Panic
  | Some sd =>
      Done (record (AWrite (name v) latency)
        (mkSharded (<[i := mkShard newValue (wrapU 64 (version sd + 1)) true]> (shards v)) (shardMask v) (name v) (collector v)))
  end.
Definition Get (latency : Z) (v : Sharded) : outcome (Sharded * T) := get_at 0 latency v.
Definition GetWithKey (key : list byte) (latency : Z) (v : Sharded) : outcome (Sharded * T) := get_at (shard_index key v) latency v.
Definition Set_ (latency : Z) (newValue : T) (v : Sharded) : outcome Sharded := set_at 0 latency newValue v.
Definition SetWithKey (key : list byte) (latency : Z) (newValue : T) (v : Sharded) : outcome Sharded :=
  set_at (shard_index key v) latency newValue v.

(** Of the first shard only. *)
Definition IsDirty (v : Sharded) : outcome bool :=
  match shards v with [] => Panic | sd :: _ => Done (dirty sd) end.
Definition MarkClean (v : Sharded) : outcome Sharded :=
  match shards v with
  | [] => Panic
  | sd :: rest => Done (mkSharded (mkShard (value sd) (version sd) false :: rest) (shardMask v) (name v) (collector v))
  end.
Definition GetVersion (v : Sharded) : outcome Z :=
  match shards v with [] => Panic | sd :: _ => Done (version sd) end.
(** The methods left unimplemented panic. *)
Definition unimplemented {A} : outcome A := Panic.
End Sharded.
Arguments Sharded : clear implicits.
Arguments shard : clear implicits.
End ShardedVar.

(** ** Powers of two *)
Section Smear.
Implicit Types (n i k : Z).

(** The bits of [m] are those of [n] spread over the [w] places below. *)
Definition spread n w (m : Z) : Prop :=
  forall i, 0 <= i -> (Z.testbit m i = true <-> exists j, 0 <= j < w /\ Z.testbit n (i + j) = true).

Lemma spread_step n w m : 0 < w -> spread n w m -> spread n (2 * w) (Z.lor m (Z.shiftr m w)).
Proof.
  intros Hw Hm i Hi. rewrite Z.lor_spec, Z.shiftr_spec, orb_true_iff by lia. rewrite (Hm i) by lia. rewrite (Hm (i + w)) by lia.
  split.
  - intros [(j & ? & H)|(j & ? & H)]; [exists j|exists (w + j)]; (split; [lia|]); [done|]. by rewrite Z.add_assoc.
  - intros (j & ? & H). destruct (decide (j < w)); [left; exists j; split; [lia|done]|right].
    exists (j - w). split; [lia|]. by replace (i + w + (j - w)) with (i + j) by lia.
Qed.

Lemma smear_spread n : spread n 32 (ShardedVar.smear n).
Proof.
  unfold ShardedVar.smear. apply (spread_step n 16); [lia|]. apply (spread_step n 8); [lia|]. apply (spread_step n 4); [lia|].
  apply (spread_step n 2); [lia|]. apply (spread_step n 1); [lia|].
  intros i Hi. split.
  - intros H. exists 0. split; [lia|]. by rewrite Z.add_0_r.
  - intros (j & ? & H). by replace (i + j) with i in H by lia.
Qed.

(** Smearing fills all bits below the highest. *)
Lemma smear_ones n : 0 < n < 2 ^ 32 -> ShardedVar.smear n = Z.ones (Z.log2 n + 1).
Proof.
  intros Hn. pose proof (Z.log2_spec n ltac:(lia)) as Hlog. pose proof (Z.log2_nonneg n).
  assert (Z.log2 n < 32) as Hl by (apply Z.log2_lt_pow2; lia).
  apply Z.bits_inj'. intros i Hi. rewrite Z.testbit_ones_nonneg by lia.
  apply eq_true_iff_eq. rewrite (smear_spread n i Hi), Z.ltb_lt. split.
  - intros (j & Hj & H1). destruct (decide (i + j <= Z.log2 n)); [lia|]. rewrite Z.bits_above_log2 in H1; [done|lia..].
  - intros Hlt. exists (Z.log2 n - i). split; [lia|]. replace (i + (Z.log2 n - i)) with (Z.log2 n) by lia.
    apply Z.bit_log2. lia.
Qed.

Lemma nextPowerOf2_spec n : 1 <= n <= 2 ^ 32 ->
  exists k, 0 <= k <= 32 /\ ShardedVar.nextPowerOf2 n = 2 ^ k /\ n <= 2 ^ k < 2 * n.
Proof.
  intros Hn. unfold ShardedVar.nextPowerOf2. rewrite (wrapS_id 64 (n - 1)) by (lia || (split; lia)).
  destruct (decide (n = 1)) as [->|Hne]; [exists 0; split; [lia|split; [reflexivity|lia]]|].
  rewrite smear_ones by lia. pose proof (Z.log2_spec (n - 1) ltac:(lia)) as Hlog. pose proof (Z.log2_nonneg (n - 1)).
  assert (Z.log2 (n - 1) < 32) as Hl by (apply Z.log2_lt_pow2; lia).
  rewrite Z.ones_equiv. replace (Z.pred (2 ^ (Z.log2 (n - 1) + 1)) + 1) with (2 ^ (Z.log2 (n - 1) + 1)) by lia.
  assert (2 ^ (Z.log2 (n - 1) + 1) <= 2 ^ 32) by (apply Z.pow_le_mono_r; lia).
  exists (Z.log2 (n - 1) + 1). split; [lia|]. split; [apply wrapS_id; [lia|split; lia]|].
  rewrite <- Z.add_1_r in Hlog. rewrite Z.pow_add_r in * by lia. lia.
Qed.

(** [n & (n - 1)] is 0 exactly at the powers of two. *)
Lemma land_pred n : 1 <= n <= 2 ^ 32 -> Z.land n (wrapS 64 (n - 1)) = 0 <-> exists k, 0 <= k <= 32 /\ n = 2 ^ k.
Proof.
  intros Hn. rewrite (wrapS_id 64 (n - 1)) by (lia || (split; lia)). pose proof (Z.log2_spec n ltac:(lia)) as Hlog.
  pose proof (Z.log2_nonneg n). split.
  - intros E. pose proof (pow2_pos (Z.log2 n) ltac:(lia)). exists (Z.log2 n). split; [split; [lia|]|].
    { destruct Hn as [_ Hn]. apply Z.log2_le_mono in Hn. by rewrite Z.log2_pow2 in Hn by lia. }
    destruct (decide (n = 2 ^ Z.log2 n)) as [|Hne]; [done|]. exfalso.
    assert (Z.log2 (n - 1) = Z.log2 n) as El by (apply Z.log2_unique; lia).
    assert (Z.testbit (Z.land n (n - 1)) (Z.log2 n) = true) as Hb.
    { rewrite Z.land_spec, Z.bit_log2 by lia. rewrite <- El. rewrite Z.bit_log2 by lia. done. }
    rewrite E, Z.bits_0 in Hb. done.
  - intros (k & Hk & ->). replace (2 ^ k - 1) with (Z.ones k) by (rewrite Z.ones_equiv; lia).
    rewrite Z.land_ones by lia. apply Z_mod_same_full.
Qed.
End Smear.

Section ShardedFacts.
Context {T : Type}.
Implicit Types v : ShardedVar.Sharded T.

Lemma shard_count_spec n : 1 <= n <= 2 ^ 32 ->
  exists k, 0 <= k <= 32 /\ ShardedVar.shard_count n = 2 ^ k /\ n <= 2 ^ k < 2 * n.
Proof.
  intros Hn. unfold ShardedVar.shard_count. destruct (Z.eqb_spec (Z.land n (wrapS 64 (n - 1))) 0) as [E|E].
  - apply land_pred in E as (k & Hk & ->); [|done]. exists k. split; [done|]. split; [done|]. lia.
  - by apply nextPowerOf2_spec.
Qed.

(** A sharded variable made for [n] shards, up to 2^32, has the least power
    of two of them that is at least [n]; then no key is out of range, and a
    value set under a key is read back under exactly the keys of the same
    shard. With no shards every access panics; and whether the variable is
    dirty is the state of its first shard only. *)
Theorem sharded_variable_correct (x : T) n nm col key key' lat lat' y : 1 <= n <= 2 ^ 32 ->
  exists v v' v'' k, ShardedVar.NewShardedVariable x n nm col = Done v /\
    Z.of_nat (length (ShardedVar.shards v)) = 2 ^ k /\ n <= 2 ^ k < 2 * n /\
    (ShardedVar.shard_index key v < length (ShardedVar.shards v))%nat /\
    ShardedVar.SetWithKey key lat y v = Done v' /\
    ShardedVar.GetWithKey key' lat' v' =
      Done (v'', if decide (ShardedVar.shard_index key' v = ShardedVar.shard_index key v) then y else x) /\
    ShardedVar.IsDirty v' = Done (bool_decide (ShardedVar.shard_index key v = 0%nat)) /\
    exists v0, ShardedVar.NewShardedVariable x 0 nm col = Done v0 /\ ShardedVar.GetWithKey key lat v0 = Panic /\ ShardedVar.IsDirty v0 = Panic.
Proof.
  intros Hn. destruct (shard_count_spec n Hn) as (k & Hk & E & Hb).
  unfold ShardedVar.NewShardedVariable. rewrite E. pose proof (pow2_pos k ltac:(lia)).
  rewrite (proj2 (Z.ltb_ge _ _)) by lia.
  assert (2 ^ k <= 2 ^ 32) by (apply Z.pow_le_mono_r; lia).
  rewrite (wrapU_id 64) by (split; lia). set (v := ShardedVar.mkSharded _ _ _ _).
  assert (forall q, ShardedVar.shard_index q v < Z.to_nat (2 ^ k))%nat as Hidx.
  { intros q. unfold ShardedVar.shard_index. cbn [ShardedVar.shardMask v].
    replace (2 ^ k - 1) with (Z.ones k) by (rewrite Z.ones_equiv; lia). rewrite Z.land_ones by lia.
    pose proof (Z.mod_pos_bound (ShardedVar.fnvHash q) (2 ^ k)). lia. }
  assert (forall q, ShardedVar.shards v !! ShardedVar.shard_index q v = Some (ShardedVar.mkShard x 1 false)) as Hget.
  { intros q. cbn [ShardedVar.shards v]. apply lookup_replicate. split; [done|apply Hidx]. }
  exists v. unfold ShardedVar.SetWithKey, ShardedVar.set_at. rewrite Hget. eexists. eexists. exists k.
  split; [done|]. split; [cbn; rewrite length_replicate; lia|]. split; [done|].
  split; [cbn [ShardedVar.shards v]; rewrite length_replicate; apply Hidx|]. split; [reflexivity|]. split.
  - unfold ShardedVar.GetWithKey, ShardedVar.get_at. cbn [ShardedVar.shards ShardedVar.record].
    change (ShardedVar.shard_index key' _) with (ShardedVar.shard_index key' v).
    destruct (decide (ShardedVar.shard_index key' v = ShardedVar.shard_index key v)) as [->|Hne].
    + rewrite list_lookup_insert_eq by (cbn [ShardedVar.shards v]; rewrite length_replicate; apply Hidx). reflexivity.
    + rewrite list_lookup_insert_ne, Hget by done. reflexivity.
  - split; [|eexists; by split_and!]. unfold ShardedVar.IsDirty. cbn [ShardedVar.shards ShardedVar.record].
    destruct (<[_ := _]> (ShardedVar.shards v)) as [|sd rest] eqn:El.
    + apply (f_equal length) in El. rewrite length_insert in El. cbn in El. rewrite length_replicate in El. lia.
    + f_equal. assert (Hh : (<[ShardedVar.shard_index key v := ShardedVar.mkShard y (wrapU 64 (1 + 1)) true]> (ShardedVar.shards v)) !! 0%nat = Some sd)
        by (cbn in El |- *; by rewrite El).
      destruct (decide (ShardedVar.shard_index key v = 0%nat)) as [E0|E0].
      * rewrite E0 in Hh |- *. rewrite list_lookup_insert_eq in Hh by (cbn; rewrite length_replicate; lia). by injection Hh as <-.
      * rewrite list_lookup_insert_ne in Hh by done. rewrite bool_decide_eq_false_2 by done.
        cbn in Hh. apply lookup_replicate in Hh as [-> _]. done.
Qed.
End ShardedFacts.

(** ** The ring of deltas *)
Section Ring.
Context {V Ty : Type} {GV : GoValue V Ty}.
Implicit Types (c : Core V) (v : Var V) (L : list (Delta V)).

(** The last [n] entries of a log that starts with [n] empty ones. *)
Definition recent (n : nat) L : list (Delta V) := drop (length L) (replicate n no_delta ++ L).

Lemma recent_length n L : length (recent n L) = n.
Proof. unfold recent. rewrite length_drop, length_app, length_replicate. lia. Qed.

Lemma recent_snoc n L d : recent n (L ++ [d]) = drop 1 (recent n L ++ [d]).
Proof.
  unfold recent. rewrite length_app, app_assoc. cbn [length]. destruct n as [|n].
  - cbn [replicate app]. rewrite (drop_ge (L ++ [d])) by (rewrite length_app; cbn; lia).
    rewrite (drop_ge L) by lia. done.
  - rewrite (drop_app_le (_ ++ L)) by (rewrite length_app, length_replicate; lia).
    rewrite <- drop_drop. rewrite (drop_app_le _ [d]); [done|]. rewrite length_drop, length_app, length_replicate. lia.
Qed.

(** The ring holds the last entries of the log, rotated: the oldest is at the
    index. *)
Definition ring (n : nat) L c : Prop :=
  exists A B, history c = Some (B ++ A) /\ A ++ B = recent n L /\ historyIndex c = length B /\ A <> [].

Lemma recent_nil n : recent n ([] : list (Delta V)) = replicate n no_delta.
Proof. unfold recent. cbn [length]. by rewrite drop_0, app_nil_r. Qed.

Lemma ring_new cfg : EnableHistory cfg = true -> 0 < MaxHistory cfg ->
  ring (Z.to_nat (MaxHistory cfg)) [] (new_core cfg).
Proof.
  intros He Hm. exists (replicate (Z.to_nat (MaxHistory cfg)) no_delta), []. unfold new_core. rewrite He. cbn [history historyIndex].
  rewrite app_nil_r, recent_nil. split_and!; try done. destruct (Z.to_nat (MaxHistory cfg)) eqn:E; [lia|done].
Qed.

(** Writing at the index and advancing. *)
Lemma ring_push n L c h d : ring n L c -> history c = Some h ->
  (historyIndex c < length h)%nat /\ ring n (L ++ [d]) (set_history (Some (<[historyIndex c := d]> h)) ((historyIndex c + 1) mod length h) c).
Proof.
  intros (A & B & Eh & Er & Ei & Hne) E. rewrite Eh in E. injection E as <-. destruct A as [|a A]; [done|].
  rewrite Ei, length_app. split; [cbn; lia|]. unfold ring. cbn [set_history history historyIndex].
  rewrite insert_app_r_alt, Nat.sub_diag by lia. cbn [insert list_insert].
  rewrite recent_snoc, <- Er. cbn [length app drop]. destruct A as [|a' A].
  - exists (B ++ [d]), []. rewrite Nat.Div0.mod_same. rewrite app_nil_r. cbn.
    split_and!; try done. by destruct B.
  - exists (a' :: A), (B ++ [d]). rewrite Nat.mod_small by (cbn; lia). rewrite length_app. cbn [length].
    split_and!; [by rewrite <- app_assoc|by rewrite app_assoc|done..].
Qed.

Lemma ring_history n L c : ring n L c -> exists h, history c = Some h /\ h <> [] /\ h ≡ₚ recent n L.
Proof.
  intros (A & B & Eh & Er & _ & Hne). exists (B ++ A). split; [done|]. split; [by destruct B, A|].
  rewrite <- Er. apply Permutation_app_comm.
Qed.

Lemma ring_update n L c d : ring n L c -> ring n (L ++ [d]) (updateHistory d c).
Proof.
  intros HR. destruct (ring_history n L c HR) as (h & Eh & Hne & _). unfold updateHistory. rewrite Eh.
  destruct h as [|x h]; [done|]. by apply ring_push.
Qed.

Lemma ring_push_all n ds : forall L c, ring n L c -> exists c', push_all ds c = Done c' /\ ring n (L ++ ds) c' /\
  version c' = version c /\ maxHistory c' = maxHistory c /\ permissionMask c' = permissionMask c.
Proof.
  induction ds as [|d ds IH]; intros L c HR; cbn [push_all].
  - exists c. by rewrite app_nil_r.
  - destruct (ring_history n L c HR) as (h & Eh & Hne & _). rewrite Eh.
    destruct (ring_push n L c h d HR Eh) as [Hlt HR']. rewrite decide_True by done.
    destruct (IH _ _ HR') as (c' & E1 & E2 & E3). exists c'. split; [done|]. split; [|done].
    by rewrite <- app_assoc in E2.
Qed.

(** Reading the ring: the deltas of the log's end that are newer. *)
Lemma ring_GetDelta n L c since : ring n L c -> since < version c ->
  exists ds, GetDelta since c = Ok ds /\ ds ≡ₚ filter (is_since since) (recent n L).
Proof.
  intros HR Hs. destruct (ring_history n L c HR) as (h & Eh & _ & Hp). unfold GetDelta. rewrite Eh.
  rewrite (proj2 (Z.leb_gt _ _)) by done. eexists. split; [reflexivity|]. by rewrite Hp.
Qed.

Lemma filter_recent n L (P : Delta V -> Prop) `{!forall d, Decision (P d)} : ~ P no_delta ->
  filter P (recent n L) = filter P (drop (length L - n) L).
Proof.
  intros HP. unfold recent. destruct (decide (length L <= n)%nat) as [Hle|Hgt].
  - replace (length L - n)%nat with 0%nat by lia. rewrite drop_0, drop_app_le by (rewrite length_replicate; lia).
    rewrite filter_app, drop_replicate. rewrite (filter_none P (replicate _ _)); [done|].
    by intros d [-> _]%elem_of_replicate.
  - rewrite drop_app_ge by (rewrite length_replicate; lia). rewrite length_replicate. done.
Qed.
End Ring.

(** ** A variable as its log of changes *)
Section Log.
Context {V Ty : Type} {GV : GoValue V Ty}.
Implicit Types (c : Core V) (v : Var V) (L : list (Delta V)) (x : option V).

(** The value after a log. *)
Definition log_value L : option V := match last L with Some d => DValue d | None => None end.
(** What [Set] adds to it. *)
Definition log_set (cfg : VariableConfig V) L x : list (Delta V) :=
  if negb (checkPermissions PermissionWrite (Permissions cfg)) then L
  else match resolve (ConflictResolver cfg) None (log_value L) x with
       | None => L
       | Some y => L ++ [mkDelta (2 + Z.of_nat (length L)) "" (log_value L) y 0 ""]
       end.
Definition log_of cfg (xs : list (option V)) : list (Delta V) := foldl (log_set cfg) [] xs.

(** The variable stands for the log [L]. *)
Record Logged (cfg : VariableConfig V) L v : Prop := {
  lg_value : v_value v = log_value L;
  lg_version : version (core v) = 1 + Z.of_nat (length L);
  lg_permissions : permissionMask (core v) = Permissions cfg;
  lg_max : maxHistory (core v) = MaxHistory cfg;
  lg_dirty : dirty (core v) = true <-> L <> [];
  lg_ring : EnableHistory cfg = true -> 0 < MaxHistory cfg -> ring (Z.to_nat (MaxHistory cfg)) L (core v);
  lg_resolver : conflictResolver v = ConflictResolver cfg /\ onConflict v = None /\ onChange v = None
}.
(** Versions of a log count from 2. *)
Definition numbered L : Prop := forall i d, L !! i = Some d -> Version d = 2 + Z.of_nat i.

Lemma Logged_new cfg : Logged cfg [] (NewMutexVariable cfg).
Proof. constructor; try done. apply ring_new. Qed.

Lemma updateHistory_fields (d : Delta V) c : version (updateHistory d c) = version c /\ dirty (updateHistory d c) = dirty c /\
  permissionMask (updateHistory d c) = permissionMask c /\ maxHistory (updateHistory d c) = maxHistory c.
Proof. unfold updateHistory. by destruct (history c) as [[|? ?]|]. Qed.

Lemma record_change_fields old new c : version (record_change old new c) = wrapU 64 (version c + 1) /\
  dirty (record_change old new c) = true /\ permissionMask (record_change old new c) = permissionMask c /\
  maxHistory (record_change old new c) = maxHistory c.
Proof.
  unfold record_change. cbn [maxHistory set_version]. destruct (0 <? maxHistory c); [|done].
  match goal with |- context [updateHistory ?d ?c1] => destruct (updateHistory_fields d c1) as (-> & -> & -> & ->) end. done.
Qed.

Lemma Logged_change cfg L v y : Logged cfg L v -> Z.of_nat (length L) < 2 ^ 64 - 2 ->
  Logged cfg (L ++ [mkDelta (2 + Z.of_nat (length L)) "" (v_value v) y 0 ""]) (change (v_value v) y v).
Proof.
  intros [Hv Hn Hp Hm Hd Hr (Hc & Hoc & Hcb)] Hlen.
  assert (wrapU 64 (version (core v) + 1) = 2 + Z.of_nat (length L)) as En.
  { rewrite Hn. replace (1 + Z.of_nat (length L) + 1) with (2 + Z.of_nat (length L)) by lia. apply wrapU_id. split; lia. }
  destruct (record_change_fields (v_value v) y (core v)) as (U1 & U2 & U3 & U4).
  unfold change, notify. cbn [onChange set_core set_value]. rewrite Hcb.
  constructor; cbn [core v_value set_core set_value conflictResolver onConflict onChange]; rewrite ?U1, ?U2, ?U3, ?U4; try done.
  - unfold log_value. by rewrite last_snoc.
  - rewrite En, length_app. cbn. lia.
  - split; [by destruct L|done].
  - intros He Hmx. unfold record_change. rewrite En. cbn [maxHistory set_version]. rewrite Hm, (proj2 (Z.ltb_lt _ _)) by done.
    apply ring_update. by apply Hr.
Qed.

Lemma log_set_length cfg L x : (length L <= length (log_set cfg L x) <= S (length L))%nat.
Proof. unfold log_set. destruct (negb _); [lia|]. destruct (resolve _ _ _ _); [rewrite length_app; cbn; lia|lia]. Qed.

Lemma log_of_length cfg xs : (length (log_of cfg xs) <= length xs)%nat.
Proof.
  unfold log_of. induction xs as [|x xs IH] using rev_ind; [done|]. rewrite foldl_app, length_app. cbn [foldl length].
  pose proof (log_set_length cfg (foldl (log_set cfg) [] xs) x). lia.
Qed.

Lemma log_of_numbered cfg xs : numbered (log_of cfg xs).
Proof.
  unfold log_of. induction xs as [|x xs IH] using rev_ind; [intros i d Hi; done|]. rewrite foldl_app. cbn [foldl].
  set (L := foldl _ _ _) in *. unfold log_set. destruct (negb _); [done|]. destruct (resolve _ _ _ _) as [y|]; [|done].
  intros i d Hi. apply lookup_app_Some in Hi as [Hi|[Hge Hi]]; [by apply IH|].
  destruct (i - length L)%nat as [|k] eqn:Ei; [|by destruct k]. injection Hi as <-. cbn. lia.
Qed.

Lemma Mutex_Set_Logged cfg L v x : Logged cfg L v -> Z.of_nat (length L) < 2 ^ 64 - 2 ->
  Logged cfg (log_set cfg L x) (Mutex_Set x v).1.
Proof.
  intros HL Hlen. unfold Mutex_Set, log_set. rewrite (lg_permissions _ _ _ HL). destruct (negb _); [done|].
  destruct (lg_resolver _ _ _ HL) as (-> & -> & _). rewrite <- (lg_value _ _ _ HL).
  destruct (resolve _ _ _ x) as [y|]; [|done]. by apply Logged_change.
Qed.

Lemma Mutex_run_Logged cfg xs : Z.of_nat (length xs) < 2 ^ 64 - 2 ->
  Logged cfg (log_of cfg xs) (foldl (fun v x => (Mutex_Set x v).1) (NewMutexVariable cfg) xs).
Proof.
  induction xs as [|x xs IH] using rev_ind; intros Hlen; [apply Logged_new|].
  rewrite length_app in Hlen. cbn [length] in Hlen. unfold log_of. rewrite !foldl_app. cbn [foldl].
  apply Mutex_Set_Logged; [apply IH; lia|]. pose proof (log_of_length cfg xs) as Hl. unfold log_of in Hl. lia.
Qed.

Lemma numbered_positive L d : numbered L -> d ∈ L -> 2 <= Version d.
Proof. intros HN [i Hi]%list_elem_of_lookup. rewrite (HN i d Hi). lia. Qed.

(** ** The abstract variable

    [Set]s append to a log of changes. *)

(** Nil is nil, and values of one type that compare equal are the same. *)
Definition same_value (a b : option V) : Prop :=
  match a, b with
  | None, None => True
  | Some x, Some y => type_of x = type_of y /\ deep_equal x y = true
  | _, _ => False
  end.
(** The entry for a change to [y]; versions count from 2. *)
Definition entry L (y : option V) : Delta V := mkDelta (2 + Z.of_nat (length L)) "" (log_value L) y 0 "".

(** [Set x] on a variable with log [L] answers [e], and the log is then [L']. *)
Inductive set_rel (cfg : VariableConfig V) L x : option var_error -> list (Delta V) -> Prop :=
  | set_denied : Z.testbit (Permissions cfg) 1 = false -> set_rel cfg L x (Some ErrPermissionDenied) L
  | set_new : Z.testbit (Permissions cfg) 1 = true -> ~ same_value (log_value L) x ->
      set_rel cfg L x None (L ++ [entry L x])
  | set_same : Z.testbit (Permissions cfg) 1 = true -> same_value (log_value L) x -> ConflictResolver cfg = None ->
      set_rel cfg L x None L
  | set_resolved r : Z.testbit (Permissions cfg) 1 = true -> same_value (log_value L) x -> ConflictResolver cfg = Some r ->
      set_rel cfg L x None (L ++ [entry L (r (log_value L) x)]).
Inductive sets_rel (cfg : VariableConfig V) : list (Delta V) -> list (option V) -> list (option var_error) -> list (Delta V) -> Prop :=
  | sets_nil L : sets_rel cfg L [] [] L
  | sets_cons L x xs e L1 es L2 : set_rel cfg L x e L1 -> sets_rel cfg L1 xs es L2 -> sets_rel cfg L (x :: xs) (e :: es) L2.

(** [Set]s in sequence, with their answers. *)
Fixpoint Mutex_sets (xs : list (option V)) v : Var V * list (option var_error) :=
  match xs with
  | [] => (v, [])
  | x :: xs => let '(v, e) := Mutex_Set x v in let '(v, es) := Mutex_sets xs v in (v, e :: es)
  end.

Lemma fastEqual_same (a b : option V) : fastEqual a b = true <-> same_value a b.
Proof. destruct a, b; cbn; try done. case_decide; naive_solver. Qed.
Lemma checkPermissions_bit mask : checkPermissions PermissionWrite mask = Z.testbit mask 1.
Proof.
  unfold checkPermissions, PermissionWrite. rewrite Z.land_comm. change 2 with (2 ^ 1). destruct (Z.testbit mask 1) eqn:E.
  - apply negb_true_iff, Z.eqb_neq. intros H. pose proof (f_equal (fun z => Z.testbit z 1) H) as Hb.
    cbv beta in Hb. rewrite Z.land_spec, E in Hb. done.
  - apply negb_false_iff, Z.eqb_eq. apply Z.bits_inj'. intros n Hn. rewrite Z.land_spec, Z.pow2_bits_eqb, Z.bits_0 by lia.
    destruct (Z.eqb_spec 1 n) as [<-|]; [by rewrite E|by rewrite andb_false_r].
Qed.

Lemma Mutex_Set_rel cfg L v x : Logged cfg L v -> set_rel cfg L x (Mutex_Set x v).2 (log_set cfg L x).
Proof.
  intros HL. unfold Mutex_Set, log_set. rewrite (lg_permissions _ _ _ HL), checkPermissions_bit.
  destruct (Z.testbit (Permissions cfg) 1) eqn:Ep; cbn [negb]; [|by apply set_denied].
  destruct (lg_resolver _ _ _ HL) as (-> & -> & _). rewrite <- (lg_value _ _ _ HL). unfold resolve.
  destruct (fastEqual (v_value v) x) eqn:Ef.
  - apply fastEqual_same in Ef. rewrite (lg_value _ _ _ HL) in *.
    destruct (ConflictResolver cfg) as [r|] eqn:Er; [by apply set_resolved|by apply set_same].
  - assert (~ same_value (log_value L) x) as Hn by (rewrite <- (lg_value _ _ _ HL), <- fastEqual_same, Ef; done).
    rewrite (lg_value _ _ _ HL). by apply set_new.
Qed.

Lemma Mutex_sets_rel cfg xs : forall L v, Logged cfg L v -> Z.of_nat (length L + length xs) < 2 ^ 64 - 2 ->
  exists L' es, Mutex_sets xs v = (foldl (fun v x => (Mutex_Set x v).1) v xs, es) /\ sets_rel cfg L xs es L' /\
    L' = foldl (log_set cfg) L xs.
Proof.
  induction xs as [|x xs IH]; intros L v HL Hlen; cbn [Mutex_sets foldl length] in *; [by eexists _, _; repeat constructor|].
  pose proof (Mutex_Set_rel cfg L v x HL) as Hs. pose proof (Mutex_Set_Logged cfg L v x HL ltac:(lia)) as HL1.
  pose proof (log_set_length cfg L x). destruct (Mutex_Set x v) as [v1 e]. cbn [fst snd] in *.
  destruct (IH _ v1 HL1 ltac:(lia)) as (L' & es & -> & Hr & ->). eexists _, _. split; [reflexivity|]. split; [|done].
  by eapply sets_cons.
Qed.

(** C12: A mutex variable refines a log of changes. A [Set] is refused exactly
    when the mask has no write permission (so with the zero mask, with which
    [mutex_test.go] expects it to succeed); otherwise it appends the new value,
    unless the value is the same as the current one: then what the resolver
    makes of it is appended, or nothing without one. After any sequence of
    fewer than 2^64 - 2 [Set]s, answered so, the value is the last of the log, the version one more
    than its length, the dirty flag says whether it has entries, and with
    history [GetHistory] gives the last [MaxHistory] of them and [GetDelta] those
    after the version asked for, in some order (the ring's). *)
Theorem mutex_refines_log cfg xs since : Z.of_nat (length xs) < 2 ^ 64 - 2 -> 0 <= since ->
  exists v es L, Mutex_sets xs (NewMutexVariable cfg) = (v, es) /\ sets_rel cfg [] xs es L /\
  Get v = log_value L /\ GetVersion (core v) = 1 + Z.of_nat (length L) /\ numbered L /\
  (IsDirty (core v) = true <-> L <> []) /\
  (EnableHistory cfg = true -> 0 < MaxHistory cfg ->
     let kept := drop (length L - Z.to_nat (MaxHistory cfg)) L in
     (exists ds, GetDelta since (core v) = Ok ds /\ ds ≡ₚ filter (is_since since) kept) /\
     (exists hs, GetHistory (core v) = Some hs /\ hs ≡ₚ map to_entry kept)).
Proof.
  intros Hlen Hs. destruct (Mutex_sets_rel cfg xs [] _ (Logged_new cfg)) as (L & es & E & Hr & EL); [cbn; lia|].
  pose proof (Mutex_run_Logged cfg xs Hlen) as HL. change (log_of cfg xs) with (foldl (log_set cfg) [] xs) in HL. rewrite <- EL in HL.
  set (v := foldl _ _ _) in *. exists v, es, L.
  assert (HN : numbered L) by (rewrite EL; apply log_of_numbered).
  split; [done|]. split; [done|]. split; [apply HL|]. split; [apply HL|]. split; [done|]. split; [apply HL|].
  intros He Hm kept. pose proof (lg_ring _ _ _ HL He Hm) as HR. pose proof (lg_version _ _ _ HL) as Hver.
  assert (Hpos : forall d, d ∈ kept -> 2 <= Version d).
  { intros d Hd. apply (numbered_positive L d HN). unfold kept in Hd. apply list_elem_of_lookup in Hd as [i Hi].
    rewrite lookup_drop in Hi. by eapply list_elem_of_lookup_2. }
  destruct (ring_history _ _ _ HR) as (h & Eh & _ & Hp). split.
  - destruct (decide (since < version (core v))) as [Hlt|Hge].
    + destruct (ring_GetDelta _ _ _ since HR Hlt) as (ds & Ed & Hpd). exists ds. split; [done|]. rewrite Hpd.
      rewrite filter_recent; [done|]. unfold is_since. cbn. lia.
    + exists []. unfold GetDelta. rewrite Eh.
      rewrite (proj2 (Z.leb_le _ _)) by lia. split; [done|].
      rewrite filter_none; [done|]. intros d [i Hi]%list_elem_of_lookup [Hsd _]. unfold kept in Hi. rewrite lookup_drop in Hi.
      pose proof (HN _ _ Hi). pose proof (lookup_lt_Some _ _ _ Hi). lia.
  - eexists. unfold GetHistory. rewrite Eh. split; [reflexivity|]. apply Permutation_map. rewrite Hp.
    rewrite filter_recent by (cbn; lia). fold kept. rewrite filter_every; [done|].
    intros d Hd. specialize (Hpos d Hd). lia.
Qed.
End Log.

(** ** Exchanging deltas *)
Section Exchange.
Context {V Ty : Type} {GV : GoValue V Ty}.
Implicit Types (c : Core V) (v : Var V) (L ds : list (Delta V)) (x : option V).

Definition Mutex_run (xs : list (option V)) v : Var V := foldl (fun v x => (Mutex_Set x v).1) v xs.
Fixpoint Atomic_run (xs : list (option V)) v : outcome (Var V) :=
  match xs with
  | [] => Done v
  | x :: xs => match Atomic_Set x v with Done (v, _) => Atomic_run xs v | Panic => Panic end
  end.

(** A value of type [t]. *)
Definition typed (t : Ty) x : Prop := match x with Some y => type_of y = t | None => False end.

Lemma change_fields old new v : v_value (change old new v) = new /\ conflictResolver (change old new v) = conflictResolver v /\
  onConflict (change old new v) = onConflict v /\ permissionMask (core (change old new v)) = permissionMask (core v).
Proof.
  unfold change, notify. cbn [onChange set_core set_value].
  destruct (onChange v); cbn; (split_and!; [done..|]); by destruct (record_change_fields old new (core v)) as (_ & _ & -> & _).
Qed.

Lemma atomic_set_typed (t : Ty) x v : typed t x -> (v_value v = None \/ typed t (v_value v)) -> onConflict v = None ->
  (forall r a b, conflictResolver v = Some r -> typed t a -> typed t b -> typed t (r a b)) ->
  Atomic_Set x v = Done (Mutex_Set x v) /\
  (v_value (Mutex_Set x v).1 = None \/ typed t (v_value (Mutex_Set x v).1)) /\
  onConflict (Mutex_Set x v).1 = None /\ conflictResolver (Mutex_Set x v).1 = conflictResolver v.
Proof.
  intros Hx Hv Hoc Hr. unfold Atomic_Set, Mutex_Set. destruct (negb _); [done|].
  destruct (resolve (conflictResolver v) (onConflict v) (v_value v) x) as [y|] eqn:Ey; [|done].
  assert (typed t y) as Hy.
  { unfold resolve in Ey. rewrite Hoc in Ey. destruct (fastEqual (v_value v) x) eqn:Ef; [|by injection Ey as <-].
    destruct (conflictResolver v) as [r|] eqn:Er; [|done]. injection Ey as <-. apply (Hr r); [done| |done].
    destruct Hv as [E|]; [|done]. rewrite E in Ef. by destruct x. }
  assert (storable (v_value v) y = true) as ->.
  { unfold storable. destruct y as [y|]; [|done]. destruct Hv as [->|Hv]; [done|]. destruct (v_value v); [|done].
    cbn in Hv, Hy. by rewrite Hv, Hy, bool_decide_eq_true_2. }
  destruct (change_fields (v_value v) y v) as (F1 & F2 & F3 & _). cbn [fst]. rewrite F1, F2, F3. split; [done|].
  split; [by right|done].
Qed.

(** C35: [Atomic] runs like [Mutex] for values of one type: whatever the
    sequence of [Set]s of values of the type, with a resolver that stays in it,
    neither panics and they end in the same state. A nil value, or one of
    another type, which [Mutex] takes, makes [Atomic] panic. *)
Theorem atomic_is_mutex cfg (t : Ty) xs y :
  (forall r a b, ConflictResolver cfg = Some r -> typed t a -> typed t b -> typed t (r a b)) ->
  Forall (typed t) xs -> ~ typed t y ->
  let v := Mutex_run xs (NewMutexVariable cfg) in
  Atomic_run xs (NewAtomicVariable cfg) = Done v /\
  (v_value v <> None -> checkPermissions PermissionWrite (Permissions cfg) = true ->
     Atomic_Set y v = Panic /\ exists v', Mutex_Set y v = (v', None) /\ v_value v' = y).
Proof.
  intros Hr Hxs Hy v.
  assert (forall u, onConflict u = None -> conflictResolver u = ConflictResolver cfg -> (v_value u = None \/ typed t (v_value u)) ->
    Atomic_run xs u = Done (Mutex_run xs u) /\ (v_value (Mutex_run xs u) = None \/ typed t (v_value (Mutex_run xs u))) /\
    permissionMask (core (Mutex_run xs u)) = permissionMask (core u)) as Hall.
  { clear v. induction xs as [|x xs IH]; intros u H1 H2 H3; [done|]. inversion Hxs as [|? ? Hx Hxs']; subst.
    destruct (atomic_set_typed t x u Hx H3 H1) as (E1 & E2 & E3 & E4); [by rewrite H2|].
    cbn [Atomic_run Mutex_run foldl]. rewrite E1. destruct (Mutex_Set x u) as [u1 e1] eqn:Em. cbn [fst] in *.
    destruct (IH Hxs' u1) as (I1 & I2 & I3); [done|congruence|done|]. split; [done|]. split; [done|].
    fold (Mutex_run xs u1). rewrite I3. unfold Mutex_Set in Em. destruct (negb _); [by injection Em as <- _|].
    destruct (resolve _ _ _ _) as [z|]; injection Em as <- _; [|done]. apply change_fields. }
  destruct (Hall (NewMutexVariable cfg) eq_refl eq_refl (or_introl eq_refl)) as (A1 & A2 & A3). split; [exact A1|].
  intros Hne Hp. destruct A2 as [A2|A2]; [done|]. fold v in A2. fold v in A3.
  assert (fastEqual (v_value v) y = false) as Hf.
  { destruct (v_value v) as [a|]; [|done]. destruct y as [b|]; [|done]. cbn. rewrite decide_False; [done|].
    intros E. apply Hy. cbn in *. congruence. }
  unfold Atomic_Set, Mutex_Set, resolve. rewrite A3. cbn [core NewMutexVariable new_core permissionMask]. rewrite Hp, Hf. cbn [negb]. split.
  - assert (storable (v_value v) y = false) as ->; [|done].
    destruct (v_value v) as [a|]; [|done]. destruct y as [b|]; [|done]. cbn. apply bool_decide_eq_false_2.
    intros E. apply Hy. cbn in *. congruence.
  - eexists. split; [reflexivity|]. apply change_fields.
Qed.

#[export] Instance older_trans : Transitive (@older V).
Proof. intros a b e. unfold older. lia. Qed.
#[export] Instance older_total : Total (@older V).
Proof. intros a b. unfold older. lia. Qed.

(** The newest delta comes last. *)
Lemma sort_last ds d : last (sort_deltas ds) = Some d -> d ∈ ds /\ forall d', d' ∈ ds -> Version d' <= Version d.
Proof.
  intros Hl. assert (Hp : sort_deltas ds ≡ₚ ds) by apply merge_sort_Permutation.
  apply last_Some in Hl as [l El]. split; [rewrite <- Hp, El; set_solver|].
  intros d' Hd'. rewrite <- Hp, El in Hd'. apply elem_of_app in Hd' as [Hin|Hin%list_elem_of_singleton]; [|subst; lia].
  pose proof (StronglySorted_merge_sort older ds) as HS. unfold sort_deltas in El. rewrite El in HS.
  apply (StronglySorted_app_1_elem_of older l [d] d' d HS); [done|set_solver].
Qed.

(** [ApplyDelta] on a variable asked for [MaxHistory] entries but without
    history: an index out of range. *)
Lemma apply_delta_panics ds v : history (core v) = None -> 0 < maxHistory (core v) -> ds <> [] ->
  Mutex_ApplyDelta ds v = Panic /\ Atomic_ApplyDelta ds v = Panic.
Proof.
  intros Hh Hm Hne. unfold Mutex_ApplyDelta, Atomic_ApplyDelta, push_history. destruct ds as [|d ds]; [done|].
  rewrite (proj2 (Z.ltb_lt _ _)) by done. assert (Hp : sort_deltas (d :: ds) ≡ₚ d :: ds) by apply merge_sort_Permutation.
  destruct (sort_deltas (d :: ds)) as [|e es]; [by apply Permutation_nil_l in Hp|]. cbn [push_all]. by rewrite Hh.
Qed.

(** The newest of the deltas asked for is the last change. *)
Lemma GetDelta_newest cfg L v since : Logged cfg L v -> numbered L -> EnableHistory cfg = true -> 0 < MaxHistory cfg ->
  1 <= since < version (core v) ->
  exists ds d0, GetDelta since (core v) = Ok ds /\ ds <> [] /\ last (sort_deltas ds) = Some d0 /\
    DValue d0 = v_value v /\ Version d0 = version (core v).
Proof.
  intros HL HN He Hm Hs. pose proof (lg_version _ _ _ HL) as Hv. pose proof (lg_ring _ _ _ HL He Hm) as HR.
  destruct (ring_GetDelta _ _ _ since HR ltac:(lia)) as (ds & E & Hp).
  rewrite filter_recent in Hp by (unfold is_since; cbn; lia).
  assert (exists d0, last L = Some d0 /\ Version d0 = version (core v)) as (d0 & Hd0 & Vd0).
  { destruct (last L) as [d0|] eqn:El; [|apply last_None in El; rewrite El in Hv; cbn in Hv; lia]. exists d0. split; [done|].
    rewrite last_lookup in El. pose proof (HN _ _ El). pose proof (lookup_lt_Some _ _ _ El). lia. }
  pose proof Hd0 as Hlk. rewrite last_lookup in Hlk. pose proof (lookup_lt_Some _ _ _ Hlk).
  assert (d0 ∈ ds) as Hin.
  { rewrite Hp. apply list_elem_of_filter. split; [split; lia|]. apply list_elem_of_lookup.
    exists (pred (length L) - (length L - Z.to_nat (MaxHistory cfg)))%nat. rewrite lookup_drop, <- Hlk. f_equal. lia. }
  exists ds, d0. split; [done|]. split; [by intros ->; apply not_elem_of_nil in Hin|]. split; [|split; [|done]].
  - assert (Hps : sort_deltas ds ≡ₚ ds) by apply merge_sort_Permutation.
    destruct (last (sort_deltas ds)) as [d|] eqn:El; [|apply last_None in El; rewrite <- Hps, El in Hin; by apply not_elem_of_nil in Hin].
    destruct (sort_last ds d El) as [H1 H2]. f_equal. specialize (H2 d0 Hin). rewrite Hp in H1.
    apply list_elem_of_filter in H1 as [_ [i Hi]%list_elem_of_lookup]. rewrite lookup_drop in Hi.
    pose proof (HN _ _ Hi). pose proof (lookup_lt_Some _ _ _ Hi).
    replace (length L - Z.to_nat (MaxHistory cfg) + i)%nat with (pred (length L)) in Hi by lia. congruence.
  - rewrite (lg_value _ _ _ HL). unfold log_value. by rewrite Hd0.
Qed.

End Exchange.

(** [MutexTyped.Get] never returns its error: when the value is not of type [T]
    the default value is not either, and the assertion panics. *)
Lemma MutexTyped_Get_never_errors {V Ty T} `{GoValue V Ty} (as_T : V -> option T) (t : Ty) (zero_of : Ty -> V) (v : Var V) :
  (forall x, is_Some (as_T x) <-> type_of x = t) -> (forall ty, type_of (zero_of ty) = ty) ->
  MutexTyped_Get as_T zero_of v = match v_value v ≫= as_T with Some x => Done (x, None) | None => Panic end.
Proof.
  intros Ht Hz. unfold MutexTyped_Get, getDefaultValue. destruct (v_value v) as [x|]; [|done]. cbn.
  destruct (as_T x) as [y|] eqn:E; [done|]. destruct (as_T (zero_of (type_of x))) as [y|] eqn:E'; [|done].
  assert (type_of (zero_of (type_of x)) = t) as Hx by (apply Ht; by eexists). rewrite Hz in Hx.
  apply Ht in Hx as [? Hx]. congruence.
Qed.

(** ** Sample values: numbers and strings *)
Module Samples.
#[export] Instance any_value : GoValue any nat := {|
  type_of a := match a with AnyNil => 0 | AnyBool _ => 1 | AnyInt _ => 2 | AnyString _ => 3 | AnyBytes _ => 4 end%nat;
  deep_equal a b := bool_decide (a = b)
|}.
Definition cfg : VariableConfig any := mkConfig "v" 2 3 None StrategyMutex false true 0 ∅.
Definition ints (l : list Z) : list (option any) := (fun z => Some (AnyInt z)) <$> l.
Definition source : Var any := Mutex_run (ints [1; 2; 2; 3; 4]) (NewMutexVariable cfg).
End Samples.
#[local] Existing Instance Samples.any_value.

Lemma sharded_variable_correct_witness :
  exists v v' k, ShardedVar.NewShardedVariable 7 3 "s" None = Done v /\ Z.of_nat (length (ShardedVar.shards v)) = 2 ^ k /\ 3 <= 2 ^ k < 6 /\
    ShardedVar.SetWithKey [x61] 0 9 v = Done v'.
Proof.
  destruct (sharded_variable_correct 7 3 "s" None [x61] [x62] 0 0 9 ltac:(lia)) as (v & v' & v'' & k & H1 & H2 & H3 & _ & H4 & _).
  exists v, v', k. split_and!; [exact H1|exact H2|lia|lia|exact H4].
Defined.

Lemma mutex_refines_log_witness : exists v es hs,
  Mutex_sets (Samples.ints [1; 2; 2; 3; 4]) (NewMutexVariable Samples.cfg) = (v, es) /\
  es = replicate 5 None /\ Get v = Some (AnyInt 4) /\ GetVersion (core v) = 5 /\
  GetHistory (core v) = Some hs /\ map he_Version hs ≡ₚ [4; 5].
Proof.
  destruct (mutex_refines_log Samples.cfg (Samples.ints [1; 2; 2; 3; 4]) 3 ltac:(vm_compute; reflexivity) ltac:(lia))
    as (v & es & L & E & Hr & H1 & H2 & HN & _ & H3).
  destruct (H3 eq_refl ltac:(vm_compute; reflexivity)) as [_ (hs & Hh & Hp)].
  exists v, es, hs. split; [exact E|]. vm_compute in E. injection E as <- <-.
  split; [reflexivity|]. split; [reflexivity|]. split; [reflexivity|]. split; [exact Hh|].
  vm_compute in Hh. injection Hh as <-. vm_compute. reflexivity.
Defined.

Lemma atomic_is_mutex_witness :
  Atomic_run (Samples.ints [1; 2]) (NewAtomicVariable Samples.cfg) = Done (Mutex_run (Samples.ints [1; 2]) (NewMutexVariable Samples.cfg)) /\
  Atomic_Set None (Mutex_run (Samples.ints [1; 2]) (NewMutexVariable Samples.cfg)) = Panic.
Proof.
  destruct (atomic_is_mutex Samples.cfg 2%nat (Samples.ints [1; 2]) None) as [H1 H2].
  - intros r a b E. vm_compute in E. discriminate E.
  - repeat constructor.
  - intros E. exact E.
  - split; [exact H1|]. apply (H2 ltac:(vm_compute; discriminate) ltac:(reflexivity)).
Defined.

