(* ===== verification/VarMetrics.v ===== *)
(** * Metrics of the synchronized variables ([sync/metrics], [sync/analyzer])

    The variables behind one interface, the decorator that counts and times
    their accesses, the analyzer that recommends a storage strategy from the
    counts, and the asynchronous collector. 64-bit floating point is the
    standard library's [spec_float] at 53 bits, rounded to nearest even. *)
From S2P Require Import Prelude Channels SyncVars.
From Stdlib Require Import ZArith Lia Strings.Byte Strings.String Floats.SpecFloat.
From stdpp Require Import base tactics list strings gmap relations.
Open Scope Z_scope.

(** ** Floating point *)
Definition f64 : Type := spec_float.
Definition f64_of_Z (z : Z) : f64 := binary_normalize 53 1024 z 0 false.
Definition f64_div : f64 -> f64 -> f64 := SFdiv 53 1024.
Definition f64_mul : f64 -> f64 -> f64 := SFmul 53 1024.
Definition f64_add : f64 -> f64 -> f64 := SFadd 53 1024.
Definition f64_lt (a b : f64) : bool := SFltb a b.
(** A literal [n / d] is the nearest float, and so is the rounded quotient. *)
Definition f64_lit (n d : Z) : f64 := f64_div (f64_of_Z n) (f64_of_Z d).
(** Conversion to an integer: truncation, for values in range. *)
Definition f64_trunc (a : f64) : Z :=
  match a with
  | S754_finite s m e =>
      let z := if 0 <=? e then Z.pos m * 2 ^ e else Z.pos m / 2 ^ (- e) in if s then - z else z
  | _ => 0
  end.

(** ** The variables behind the interface *)
Section Variables.
Context {V Ty : Type} {GV : GoValue V Ty}.

Inductive SyncVariable : Type :=
  | VarMutex (v : Var V)
  | VarAtomic (v : Var V)
  | VarWrapped (v : SyncVariable) (metrics : Metrics).
Definition NewMetricsWrapper (v : SyncVariable) : SyncVariable := VarWrapped v no_metrics.

Fixpoint base_var (x : SyncVariable) : Var V := match x with VarMutex v | VarAtomic v => v | VarWrapped x _ => base_var x end.
Definition GetStorageStrategy_ (x : SyncVariable) : Z := GetStorageStrategy (core (base_var x)).
Definition CanMigrateTo_ (s : Z) (x : SyncVariable) : bool := CanMigrateTo s (core (base_var x)).
Definition GetPermissions_ (x : SyncVariable) : Z := GetPermissions (core (base_var x)).
Definition GetHistory_ (x : SyncVariable) : option (list (HistoryEntry V)) := GetHistory (core (base_var x)).
Definition GetVersion_ (x : SyncVariable) : Z := GetVersion (core (base_var x)).
Definition GetMetrics (x : SyncVariable) : Metrics :=
  match x with
  | VarMutex v => Mutex_GetMetrics v
  | VarAtomic v => Atomic_GetMetrics v
  | VarWrapped _ m => m
  end.

(** The running average of [time.Duration]s: 64-bit, the division truncates.
    [count] has just been incremented; that it wrapped to 0 is left out. *)
Definition running_average (avg count latency : Z) : Z :=
  wrapS 64 (Z.quot (wrapS 64 (wrapS 64 (avg * wrapS 64 (count - 1)) + latency)) (wrapS 64 count)).
Definition count_read (latency : Z) (m : Metrics) : Metrics :=
  let n := wrapU 64 (ReadCount m + 1) in
  mkMetrics n (WriteCount m) (ErrorCount m) (running_average (AvgReadLatency m) n latency) (AvgWriteLatency m) (P99ReadLatency m)
    (MaxConcurrentReaders m) (MaxConcurrentWriters m) (ContentionEvents m) (MemoryUsage m) (MigrationHistory m).
Definition count_write (latency : Z) (failed : bool) (m : Metrics) : Metrics :=
  let n := wrapU 64 (WriteCount m + 1) in
  mkMetrics (ReadCount m) n (if failed then wrapU 64 (ErrorCount m + 1) else ErrorCount m) (AvgReadLatency m)
    (running_average (AvgWriteLatency m) n latency) (P99ReadLatency m)
    (MaxConcurrentReaders m) (MaxConcurrentWriters m) (ContentionEvents m) (MemoryUsage m) (MigrationHistory m).

(** The methods take the latencies the wrappers measure, outermost first.
    [Get] has no errors. *)
Fixpoint Get_ (lats : list Z) (x : SyncVariable) : SyncVariable * option V :=
  match x with
  | VarMutex v | VarAtomic v => (x, Get v)
  | VarWrapped x m =>
      let '(x, a) := Get_ (tail lats) x in (VarWrapped x (count_read (hd 0 lats) m), a)
  end.
Fixpoint Set_ (lats : list Z) (value : option V) (x : SyncVariable) : outcome (SyncVariable * option var_error) :=
  match x with
  | VarMutex v => let '(v, err) := Mutex_Set value v in Done (VarMutex v, err)
  | VarAtomic v => r ← Atomic_Set value v; Done (VarAtomic r.1, r.2)
  | VarWrapped x m =>
      r ← Set_ (tail lats) value x;
      Done (VarWrapped r.1 (count_write (hd 0 lats) (match r.2 with Some _ => true | None => false end) m), r.2)
  end.
Fixpoint ApplyDelta_ (ds : list (Delta V)) (x : SyncVariable) : outcome (SyncVariable * option var_error) :=
  match x with
  | VarMutex v => r ← Mutex_ApplyDelta ds v; Done (VarMutex r.1, r.2)
  | VarAtomic v => r ← Atomic_ApplyDelta ds v; Done (VarAtomic r.1, r.2)
  | VarWrapped x m => r ← ApplyDelta_ ds x; Done (VarWrapped r.1 m, r.2)
  end.
Definition GetDelta_ (since : Z) (x : SyncVariable) : result var_error (list (Delta V)) := GetDelta since (core (base_var x)).

(** ** The analyzer *)
Definition PatternRandom := 0.
Definition PatternBurst := 1.
Definition PatternSteady := 2.
Definition PatternReadHeavy := 3.
Definition PatternWriteHeavy := 4.
Definition PatternMixed := 5.
Definition PatternRareAccess := 6.

Record AnalysisThresholds : Type := mkThresholds {
  HighContentionRatio : f64; ReadHeavyRatio : f64; WriteHeavyRatio : f64; HighLatencyThreshold : Z;
  MemoryPressureThreshold : Z; MigrationCooldown : Z }.
Definition millisecond : Z := 1000000.
Definition DefaultThresholds : AnalysisThresholds :=
  mkThresholds (f64_lit 1 10) (f64_of_Z 10) (f64_lit 1 10) millisecond (100 * 1024 * 1024) (5 * 60 * 1000 * millisecond).

Definition DetectAccessPattern (t : AnalysisThresholds) (m : Metrics) : Z :=
  if (ReadCount m =? 0) && (WriteCount m =? 0) then PatternRareAccess
  else
    let readWriteRatio := f64_div (f64_of_Z (ReadCount m)) (f64_of_Z (wrapU 64 (WriteCount m + 1))) in
    if f64_lt (ReadHeavyRatio t) readWriteRatio then PatternReadHeavy
    else if f64_lt readWriteRatio (WriteHeavyRatio t) then PatternWriteHeavy
    else if f64_trunc (f64_mul (f64_of_Z (wrapU 64 (ReadCount m + WriteCount m))) (HighContentionRatio t)) <? ContentionEvents m
         then PatternBurst
    else PatternMixed.
Definition PredictOptimalStrategy (t : AnalysisThresholds) (m : Metrics) : Z :=
  let pattern := DetectAccessPattern t m in
  if pattern =? PatternReadHeavy then if 10 <? MaxConcurrentReaders m then StrategyReadOptimized else StrategyAtomic
  else if pattern =? PatternWriteHeavy then if 5 <? MaxConcurrentWriters m then StrategyWriteOptimized else StrategyMutex
  else if pattern =? PatternBurst then StrategySharded
  else if pattern =? PatternRareAccess then StrategyMemoryOptimized
  else if MemoryPressureThreshold t <? MemoryUsage m then StrategyMemoryOptimized else StrategyAtomic.
(** In hundredths: the code's values are literals that are only compared with
    literals. *)
Definition calculateConfidence (m : Metrics) (pattern : Z) : Z :=
  let totalOps := wrapU 64 (ReadCount m + WriteCount m) in
  if totalOps <? 1000 then 30
  else if (pattern =? PatternReadHeavy) || (pattern =? PatternWriteHeavy) then 90
  else if pattern =? PatternBurst then if totalOps / 10 <? ContentionEvents m then 95 else 80
  else if pattern =? PatternRareAccess then 60
  else 80.

Record OptimizationSuggestion : Type := mkSuggestion { SType : string; SPriority : Z; SStrategy : Z }.
Definition generateRecommendations (current : Z) (m : Metrics) (optimal : Z) : list OptimizationSuggestion :=
  (if optimal =? current then [] else [mkSuggestion "migrate" 8 optimal]) ++
  (if 50 * 1024 * 1024 <? MemoryUsage m then [mkSuggestion "tune" 6 StrategyBasic] else []) ++
  (if millisecond <? P99ReadLatency m then [mkSuggestion "tune" 7 StrategyReadOptimized] else []).

Record AnalysisResult : Type := mkResult { AStrategy : Z; AConfidence : Z; ARecommendations : list OptimizationSuggestion }.
Definition AnalyzeVariable (t : AnalysisThresholds) (x : SyncVariable) : AnalysisResult :=
  let m := GetMetrics x in
  mkResult (PredictOptimalStrategy t m) (calculateConfidence m (DetectAccessPattern t m))
    (generateRecommendations (GetStorageStrategy_ x) m (PredictOptimalStrategy t m)).
Definition GetOptimizationSuggestions (t : AnalysisThresholds) (x : SyncVariable) : list OptimizationSuggestion :=
  let m := GetMetrics x in generateRecommendations (GetStorageStrategy_ x) m (PredictOptimalStrategy t m).
Definition isInMigrationCooldown (t : AnalysisThresholds) (now : Z) (x : SyncVariable) : bool :=
  match last (MigrationHistory (GetMetrics x)) with
  | None => false
  | Some (_, _, at_, _) => time_Sub now at_ <? MigrationCooldown t
  end.
Definition isMigrationBeneficial (r : AnalysisResult) : bool :=
  (80 <? AConfidence r) && match ARecommendations r with [] => false | _ => true end.
Definition ShouldMigrate (t : AnalysisThresholds) (now : Z) (x : SyncVariable) : bool * Z :=
  let r := AnalyzeVariable t x in
  let current := GetStorageStrategy_ x in
  if AStrategy r =? current then (false, current)
  else if AConfidence r <? 70 then (false, current)
  else if isInMigrationCooldown t now x then (false, current)
  else if negb (isMigrationBeneficial r) then (false, current)
  else (true, AStrategy r).
End Variables.
Arguments SyncVariable : clear implicits.

(** ** The decorator *)
Section Wrapper.
Context {V Ty : Type} {GV : GoValue V Ty}.
Implicit Types x : SyncVariable V.

Inductive vop : Type := VGet (lats : list Z) | VSet (lats : list Z) (value : option V).
(** What a call returns: the value read, or the error of a write. *)
Inductive answer : Type := ARead (value : option V) | AWrite (err : option var_error).
Definition run_op (o : vop) x : outcome (SyncVariable V * answer) :=
  match o with
  | VGet lats => let '(x, v) := Get_ lats x in Done (x, ARead v)
  | VSet lats value => r ← Set_ lats value x; Done (r.1, AWrite r.2)
  end.
(** The final variable and the answers. *)
Fixpoint run_ops (ops : list vop) x : outcome (SyncVariable V * list answer) :=
  match ops with
  | [] => Done (x, [])
  | o :: ops =>
      r ← run_op o x;
      r' ← run_ops ops r.1;
      Done (r'.1, r.2 :: r'.2)
  end.
Definition is_failure (a : answer) : bool := match a with AWrite (Some _) => true | _ => false end.
(** The same operations as the variable inside a wrapper sees them. *)
Definition inner (o : vop) : vop :=
  match o with VGet lats => VGet (tail lats) | VSet lats value => VSet (tail lats) value end.
Definition is_get (o : vop) : bool := match o with VGet _ => true | _ => false end.
Definition latency (o : vop) : Z := match o with VGet lats | VSet lats _ => hd 0 lats end.

(** What is known of a wrapper's metrics after [r] reads, [w] writes and [e]
    errors with latencies between [lo] and [hi]. *)
Record Measured (lo hi r w e : Z) (m : Metrics) : Prop := {
  me_reads : ReadCount m = r;
  me_writes : WriteCount m = w;
  me_errors : ErrorCount m = e;
  me_read_avg : r = 0 /\ AvgReadLatency m = 0 \/ lo <= AvgReadLatency m <= hi;
  me_write_avg : w = 0 /\ AvgWriteLatency m = 0 \/ lo <= AvgWriteLatency m <= hi;
  me_rest : MaxConcurrentReaders m = 0 /\ MaxConcurrentWriters m = 0 /\ ContentionEvents m = 0 /\ MemoryUsage m = 0 /\
    P99ReadLatency m = 0 /\ MigrationHistory m = []
}.

Lemma running_average_bounds lo hi n avg lat : 0 <= lo -> 0 <= n -> hi * (n + 1) < 2 ^ 63 -> n + 1 < 2 ^ 63 ->
  (n = 0 /\ avg = 0 \/ lo <= avg <= hi) -> lo <= lat <= hi -> lo <= running_average avg (n + 1) lat <= hi.
Proof.
  intros Hlo Hn Hhi Hb Havg Hlat. unfold running_average. replace (n + 1 - 1) with n by lia.
  rewrite (wrapS_id 64 n), (wrapS_id 64 (n + 1)) by (lia || (split; lia)).
  assert (lo * n <= avg * n <= hi * n) by (destruct Havg as [[-> ->]|]; nia).
  rewrite (wrapS_id 64 (avg * n)) by (lia || (split; nia)). rewrite (wrapS_id 64 (avg * n + lat)) by (lia || (split; nia)).
  rewrite Z.quot_div_nonneg by nia.
  assert (lo <= (avg * n + lat) / (n + 1) <= hi) as Hq.
  { split; [apply Z.div_le_lower_bound; nia|]. apply Z.div_le_upper_bound; nia. }
  rewrite wrapS_id; [done|lia|split; nia].
Qed.

Lemma Measured_read lo hi r w e m lat : 0 <= lo -> 0 <= r -> hi * (r + 1) < 2 ^ 63 -> r + 1 < 2 ^ 63 -> lo <= lat <= hi ->
  Measured lo hi r w e m -> Measured lo hi (r + 1) w e (count_read lat m).
Proof.
  intros Hlo Hr Hh Hb Hl [H1 H2 H3 H4 H5 H6]. assert (wrapU 64 (r + 1) = r + 1) as E by (apply wrapU_id; split; lia).
  constructor; cbn; rewrite ?H1, ?E; try done. right. by apply running_average_bounds.
Qed.

Lemma Measured_write lo hi r w e m lat (failed : bool) : 0 <= lo -> 0 <= w -> 0 <= e <= w -> hi * (w + 1) < 2 ^ 63 -> w + 1 < 2 ^ 63 ->
  lo <= lat <= hi -> Measured lo hi r w e m -> Measured lo hi r (w + 1) (e + if failed then 1 else 0) (count_write lat failed m).
Proof.
  intros Hlo Hr He Hh Hb Hl [H1 H2 H3 H4 H5 H6]. assert (wrapU 64 (w + 1) = w + 1) as E by (apply wrapU_id; split; lia).
  constructor; cbn; rewrite ?H2, ?E; try done.
  - destruct failed; rewrite H3; [apply wrapU_id; split; lia|lia].
  - right. by apply running_average_bounds.
Qed.

Lemma wrapped_ops lo hi ops : forall x m r w e n, 0 <= lo -> 0 <= r -> 0 <= w -> 0 <= e <= w ->
  Forall (fun o => lo <= latency o <= hi) ops -> hi * n < 2 ^ 63 -> n < 2 ^ 63 -> r + w + Z.of_nat (length ops) <= n ->
  Measured lo hi r w e m ->
  match run_ops (map inner ops) x with
  | Panic => run_ops ops (VarWrapped x m) = Panic
  | Done (x', ans) => exists m', run_ops ops (VarWrapped x m) = Done (VarWrapped x' m', ans) /\
      Measured lo hi (r + cnt is_get ops) (w + cnt (fun o => negb (is_get o)) ops) (e + cnt is_failure ans) m'
  end.
Proof.
  induction ops as [|o ops IH]; intros x m r w e n Hlo Hr Hw He Hl Hh Hn Hlen Hm.
  - cbn. exists m. split; [done|]. cbn. by rewrite !Z.add_0_r.
  - inversion Hl as [|? ? Ho Hl']; subst. cbn [length] in Hlen. assert (0 <= hi) by lia. destruct o as [lats|lats value].
    + cbn [map inner run_ops run_op mbind outcome_bind fst snd Get_].
      destruct (Get_ (tail lats) x) as [x1 a]. cbn [mbind outcome_bind fst snd].
      assert (Measured lo hi (r + 1) w e (count_read (hd 0 lats) m)) as Hm1 by (apply Measured_read; try done; nia).
      specialize (IH x1 _ (r + 1) w e n Hlo ltac:(lia) Hw He Hl' Hh Hn ltac:(lia) Hm1).
      destruct (run_ops (map inner ops) x1) as [[x' ans]|]; cbn [mbind outcome_bind]; [|by rewrite IH].
      destruct IH as (m' & -> & IH). exists m'. split; [done|]. cbn [cnt is_get is_failure negb fst snd].
      replace (r + (1 + cnt is_get ops)) with (r + 1 + cnt is_get ops) by lia. exact IH.
    + cbn [map inner run_ops run_op Set_]. destruct (Set_ (tail lats) value x) as [[x1 err]|]; [|done].
      cbn [mbind outcome_bind fst snd]. set (failed := match err with Some _ => true | None => false end).
      assert (Measured lo hi r (w + 1) (e + if failed then 1 else 0) (count_write (hd 0 lats) failed m)) as Hm1
        by (apply Measured_write; try done; nia).
      assert (0 <= (if failed then 1 else 0) <= 1) by (destruct failed; lia).
      specialize (IH x1 _ r (w + 1) (e + if failed then 1 else 0) n Hlo Hr ltac:(lia) ltac:(lia) Hl' Hh Hn ltac:(lia) Hm1).
      destruct (run_ops (map inner ops) x1) as [[x' ans]|]; cbn [mbind outcome_bind]; [|by rewrite IH].
      destruct IH as (m' & -> & IH). exists m'. split; [done|]. cbn [cnt is_get is_failure negb fst snd].
      replace (w + (1 + cnt (fun o => negb (is_get o)) ops)) with (w + 1 + cnt (fun o => negb (is_get o)) ops) by lia.
      replace (e + (_ + cnt is_failure ans)) with (e + (if failed then 1 else 0) + cnt is_failure ans)
        by (unfold failed; destruct err; lia). exact IH.
Qed.

(** C33: The metrics decorator is transparent and exact: the variable inside ends
    as it does alone, and every read returns the same value, every write the
    same error, or panics as it does; the counts are the numbers of reads,
    writes and failed writes, and each running average lies between the least
    and the greatest latency, as long as the greatest times the number of
    accesses, and that number, fit 63 bits. *)
Theorem wrapper_exact lo hi ops x : 0 <= lo -> Forall (fun o => lo <= latency o <= hi) ops ->
  hi * Z.of_nat (length ops) < 2 ^ 63 -> Z.of_nat (length ops) < 2 ^ 63 ->
  match run_ops (map inner ops) x with
  | Panic => run_ops ops (NewMetricsWrapper x) = Panic
  | Done (x', ans) => exists m, run_ops ops (NewMetricsWrapper x) = Done (VarWrapped x' m, ans) /\
      ReadCount m = cnt is_get ops /\ WriteCount m = cnt (fun o => negb (is_get o)) ops /\ ErrorCount m = cnt is_failure ans /\
      (0 < ReadCount m -> lo <= AvgReadLatency m <= hi) /\ (0 < WriteCount m -> lo <= AvgWriteLatency m <= hi)
  end.
Proof.
  intros Hlo Hl Hh Hn. assert (Measured lo hi 0 0 0 no_metrics) as H0 by (constructor; auto; by split_and!).
  pose proof (wrapped_ops lo hi ops x no_metrics 0 0 0 _ Hlo ltac:(lia) ltac:(lia) ltac:(lia) Hl Hh Hn ltac:(lia) H0) as Hw.
  unfold NewMetricsWrapper. destruct (run_ops (map inner ops) x) as [[x' ans]|]; [|done].
  destruct Hw as (m & E & [M1 M2 M3 M4 M5 _]). exists m. rewrite Z.add_0_l in M1, M2, M3, M4, M5. split_and!; try done.
  - intros Hp. destruct M4 as [[M4 _]|]; [lia|done].
  - intros Hp. destruct M5 as [[M5 _]|]; [lia|done].
Qed.

Lemma cnt_kinds ops : cnt is_get ops + cnt (fun o => negb (is_get o)) ops = Z.of_nat (length ops).
Proof. induction ops as [|o ops IH]; [done|]. cbn [cnt length]. destruct (is_get o); cbn; lia. Qed.

(** A verdict to migrate rests on a thousand accesses and a clear pattern. *)
Lemma verdict t now m x s : ContentionEvents m = 0 -> MaxConcurrentReaders m = 0 -> MaxConcurrentWriters m = 0 ->
  ShouldMigrate t now (VarWrapped x m) = (true, s) ->
  1000 <= wrapU 64 (ReadCount m + WriteCount m) /\ s <> GetStorageStrategy_ x /\
  (DetectAccessPattern t m = PatternReadHeavy /\ s = StrategyAtomic \/ DetectAccessPattern t m = PatternWriteHeavy /\ s = StrategyMutex).
Proof.
  intros H1 H2 H3. unfold ShouldMigrate. change (GetStorageStrategy_ (VarWrapped x m)) with (GetStorageStrategy_ x).
  case_match eqn:Hs; [done|]. case_match eqn:Hc; [done|]. case_match; [done|].
  destruct (isMigrationBeneficial _) eqn:Hb; [|done]. cbn [negb]. intros [= <-]. apply Z.eqb_neq in Hs.
  unfold isMigrationBeneficial in Hb. apply andb_prop in Hb as [Hb _]. apply Z.ltb_lt in Hb.
  cbn [AnalyzeVariable AConfidence AStrategy GetMetrics] in *. unfold calculateConfidence in Hb.
  destruct (Z.ltb_spec (wrapU 64 (ReadCount m + WriteCount m)) 1000) as [?|Hn]; [lia|].
  split; [done|]. split; [done|]. unfold PredictOptimalStrategy in *. rewrite H1 in Hb. rewrite H2, H3 in *.
  destruct (Z.eqb_spec (DetectAccessPattern t m) PatternReadHeavy) as [->|]; [by left|].
  destruct (Z.eqb_spec (DetectAccessPattern t m) PatternWriteHeavy) as [->|]; [by right|].
  exfalso. cbn [orb] in Hb. assert (0 <= wrapU 64 (ReadCount m + WriteCount m) / 10) by (apply Z.div_pos; lia).
  repeat case_match; lia.
Qed.

(** The analyzer is cautious: a variable that was created by the factory with
    metrics and then only read and written is recommended for migration only
    after a thousand accesses, only for a read-heavy or write-heavy mix, to the
    atomic or the mutex strategy respectively, and never to the strategy it
    has. *)
Theorem migration_needs_evidence t now lo hi ops x x' m errs s : 0 <= lo -> Forall (fun o => lo <= latency o <= hi) ops ->
  hi * Z.of_nat (length ops) < 2 ^ 63 -> Z.of_nat (length ops) < 2 ^ 63 ->
  run_ops ops (NewMetricsWrapper x) = Done (VarWrapped x' m, errs) ->
  ShouldMigrate t now (VarWrapped x' m) = (true, s) ->
  1000 <= Z.of_nat (length ops) /\ s <> GetStorageStrategy_ x' /\
  (DetectAccessPattern t m = PatternReadHeavy /\ s = StrategyAtomic \/ DetectAccessPattern t m = PatternWriteHeavy /\ s = StrategyMutex).
Proof.
  intros Hlo Hl Hh Hn E Hs. assert (Measured lo hi 0 0 0 no_metrics) as H0 by (constructor; auto; by split_and!).
  pose proof (wrapped_ops lo hi ops x no_metrics 0 0 0 _ Hlo ltac:(lia) ltac:(lia) ltac:(lia) Hl Hh Hn ltac:(lia) H0) as Hw.
  fold (NewMetricsWrapper x) in Hw. rewrite E in Hw.
  destruct (run_ops (map inner ops) x) as [[x1 errs1]|]; [|done]. destruct Hw as (m1 & [= <- <- <-] & [M1 M2 _ _ _ M3]).
  destruct M3 as (M3 & M4 & M5 & _). destruct (verdict t now m x' s M5 M3 M4 Hs) as (H1 & H2 & H3).
  split; [|by split]. rewrite M1, M2, Z.add_0_l, Z.add_0_l, cnt_kinds in H1. rewrite wrapU_id in H1; [done|split; lia].
Qed.
End Wrapper.

(** ** Witnesses *)
#[local] Existing Instance SyncVars.Samples.any_value.
Module Samples.
Definition cfg : VariableConfig any := mkConfig "x" 10 3 None StrategyMutex true false 0 ∅.
Definition fresh : SyncVariable any := VarMutex (NewMutexVariable cfg).
(** 1200 reads and a write of 100 to 300 ns each. *)
Definition work : list (@vop any) := VSet [300] (Some (AnyInt 7)) :: concat (replicate 600 [VGet [100]; VGet [200]]).
Definition worked : SyncVariable any := VarMutex (Mutex_Set (Some (AnyInt 7)) (NewMutexVariable cfg)).1.
Definition measured : Metrics := foldl (fun m _ => count_read 200 (count_read 100 m)) (count_write 300 false no_metrics) (seq 0 600).
End Samples.

Lemma work_timed : Forall (fun o => 100 <= latency o <= 300) Samples.work.
Proof. apply (bool_decide_unpack _). vm_compute. exact I. Qed.

(** What the sample's calls return. *)
Definition work_answers : list (@answer any) := AWrite None :: replicate 1200 (ARead (Some (AnyInt 7))).

Lemma wrapper_exact_witness : exists m, run_ops Samples.work (NewMetricsWrapper Samples.fresh) =
  Done (VarWrapped (VarMutex (Mutex_Set (Some (AnyInt 7)) (NewMutexVariable Samples.cfg)).1) m, work_answers) /\
  ReadCount m = 1200 /\ 100 <= AvgReadLatency m <= 300.
Proof.
  pose proof (wrapper_exact 100 300 Samples.work Samples.fresh ltac:(lia) work_timed ltac:(vm_compute; reflexivity) ltac:(vm_compute; reflexivity)) as H.
  assert (run_ops (map inner Samples.work) Samples.fresh =
    Done (VarMutex (Mutex_Set (Some (AnyInt 7)) (NewMutexVariable Samples.cfg)).1, work_answers)) as E by (vm_compute; reflexivity).
  rewrite E in H. destruct H as (m & H1 & H2 & _ & _ & H3 & _). exists m. split; [exact H1|]. rewrite H2. split; [vm_compute; reflexivity|].
  apply H3. rewrite H2. vm_compute. reflexivity.
Defined.

Lemma migration_needs_evidence_witness : 1000 <= Z.of_nat (length Samples.work) /\
  StrategyAtomic <> GetStorageStrategy_ Samples.worked.
Proof.
  assert (run_ops Samples.work (NewMetricsWrapper Samples.fresh) = Done (VarWrapped Samples.worked Samples.measured, work_answers)) as E
    by (vm_compute; reflexivity).
  assert (ShouldMigrate DefaultThresholds 0 (VarWrapped Samples.worked Samples.measured) = (true, StrategyAtomic)) as Hs
    by (vm_compute; reflexivity).
  destruct (migration_needs_evidence DefaultThresholds 0 100 300 Samples.work Samples.fresh Samples.worked Samples.measured work_answers StrategyAtomic
    ltac:(lia) work_timed ltac:(vm_compute; reflexivity) ltac:(vm_compute; reflexivity) E Hs) as (H1 & H2 & _).
  split; [exact H1|exact H2].
Defined.
