(* ===== verification/Collector.v ===== *)
(** * The asynchronous metrics collector ([sync/metrics/collector.go])

    Accesses are reported through a buffered channel that drops what it has no
    room for; a goroutine gathers them in batches and updates the metrics of
    each variable. Buffers of at least one event are modelled: an unbuffered
    channel would hand events over only while the goroutine waits. *)
From S2P Require Import Prelude VarMetrics.
From Stdlib Require Import ZArith Lia Strings.String.
From stdpp Require Import base tactics list strings gmap.
Open Scope Z_scope.

Definition MetricRead := 0.
Definition MetricWrite := 1.
Definition MetricConflict := 2.
Definition MetricError := 3.

(** The error of an event is not used by the collector. *)
Record MetricEvent : Type := mkEvent { VarName : string; EType : Z; Latency : Z; ETimestamp : Z }.
(** What a receive from a closed, drained channel yields. *)
Definition zero_event : MetricEvent := mkEvent "" MetricRead 0 0.

(** The fields of [VariableMetrics] the collector fills. *)
Record Collected : Type := mkCollected {
  Reads : Z; Writes : Z; ConflictCount : Z; Errors : Z; AvgRead : Z; AvgWrite : Z; LastModified : Z; LastAccessed : Z }.
Definition nothing_collected : Collected := mkCollected 0 0 0 0 0 0 0 0.

(** The exponential moving average: [float64] products and sum, then truncated. *)
Definition updateLatency (current newLatency : Z) : Z :=
  f64_trunc (f64_add (f64_mul (f64_of_Z current) (f64_lit 9 10)) (f64_mul (f64_of_Z newLatency) (f64_lit 1 10))).

Definition count_event (e : MetricEvent) (m : Collected) : Collected :=
  if EType e =? MetricRead then
    mkCollected (wrapU 64 (Reads m + 1)) (Writes m) (ConflictCount m) (Errors m) (updateLatency (AvgRead m) (Latency e)) (AvgWrite m)
      (LastModified m) (ETimestamp e)
  else if EType e =? MetricWrite then
    mkCollected (Reads m) (wrapU 64 (Writes m + 1)) (ConflictCount m) (Errors m) (AvgRead m) (updateLatency (AvgWrite m) (Latency e))
      (ETimestamp e) (ETimestamp e)
  else if EType e =? MetricConflict then
    mkCollected (Reads m) (Writes m) (wrapU 64 (ConflictCount m + 1)) (Errors m) (AvgRead m) (AvgWrite m) (LastModified m) (ETimestamp e)
  else if EType e =? MetricError then
    mkCollected (Reads m) (Writes m) (ConflictCount m) (wrapU 64 (Errors m + 1)) (AvgRead m) (AvgWrite m) (LastModified m) (ETimestamp e)
  else mkCollected (Reads m) (Writes m) (ConflictCount m) (Errors m) (AvgRead m) (AvgWrite m) (LastModified m) (ETimestamp e).
Definition updateMetrics (ms : gmap string Collected) (e : MetricEvent) : gmap string Collected :=
  <[VarName e := count_event e (default nothing_collected (ms !! VarName e))]> ms.
Definition processBatch (batch : list MetricEvent) (ms : gmap string Collected) : gmap string Collected := foldl updateMetrics ms batch.

(** The channel with its capacity, the context, and the goroutine with its
    batch. *)
Record AsyncMetricsCollector : Type := mkCollector {
  events : list MetricEvent; capacity : nat; closed : bool;
  metrics : gmap string Collected;
  cancelled : bool;
  running : bool; batch : list MetricEvent; batchSize : nat }.
Definition NewAsyncMetricsCollector (bufferSize : nat) : AsyncMetricsCollector :=
  mkCollector [] bufferSize false ∅ false true [] 100.

(** The sends of the [Record] methods: whether the event was accepted. *)
Definition send_event (e : MetricEvent) (c : AsyncMetricsCollector) : outcome (AsyncMetricsCollector * bool) :=
  if closed c then Panic
  else if decide (length (events c) < capacity c)%nat then
    Done (mkCollector (events c ++ [e]) (capacity c) (closed c) (metrics c) (cancelled c) (running c) (batch c) (batchSize c), true)
  else Done (c, false).
Definition RecordRead (varName : string) (latency now : Z) := send_event (mkEvent varName MetricRead latency now).
Definition RecordWrite (varName : string) (latency now : Z) := send_event (mkEvent varName MetricWrite latency now).
Definition RecordConflict (varName : string) (now : Z) := send_event (mkEvent varName MetricConflict 0 now).
Definition RecordError (varName : string) (now : Z) := send_event (mkEvent varName MetricError 0 now).
Definition GetMetrics (varName : string) (c : AsyncMetricsCollector) : Collected := default nothing_collected (metrics c !! varName).

(** [Close] in its two steps; the first is also what the parent context does. *)
Definition cancel (c : AsyncMetricsCollector) : AsyncMetricsCollector :=
  mkCollector (events c) (capacity c) (closed c) (metrics c) true (running c) (batch c) (batchSize c).
Definition close_events (c : AsyncMetricsCollector) : outcome AsyncMetricsCollector :=
  if closed c then Panic
  else Done (mkCollector (events c) (capacity c) true (metrics c) (cancelled c) (running c) (batch c) (batchSize c)).
Definition Close (c : AsyncMetricsCollector) : outcome AsyncMetricsCollector := close_events (cancel c).

(** The rounds of [processEvents], one per case of its select; [None] when
    the case is not ready. *)
Definition with_batch (evs bt : list MetricEvent) (ms : gmap string Collected) (c : AsyncMetricsCollector) : AsyncMetricsCollector :=
  mkCollector evs (capacity c) (closed c) ms (cancelled c) (running c) bt (batchSize c).
Definition flush (evs bt : list MetricEvent) (c : AsyncMetricsCollector) : AsyncMetricsCollector :=
  with_batch evs [] (processBatch bt (metrics c)) c.
Definition round_event (c : AsyncMetricsCollector) : option AsyncMetricsCollector :=
  if negb (running c) then None
  else
    let received := match events c with
                    | e :: es => Some (e, es)
                    | [] => if closed c then Some (zero_event, []) else None
                    end in
    match received with
    | None => None
    | Some (e, es) =>
        let bt := batch c ++ [e] in
        Some (if decide (batchSize c <= length bt)%nat then flush es bt c else with_batch es bt (metrics c) c)
    end.
Definition round_tick (c : AsyncMetricsCollector) : option AsyncMetricsCollector :=
  if negb (running c) then None
  else Some (if decide (0 < length (batch c))%nat then flush (events c) (batch c) c else c).
Definition round_done (c : AsyncMetricsCollector) : option AsyncMetricsCollector :=
  if running c && cancelled c
  then Some (mkCollector (events c) (capacity c) (closed c) (metrics c) (cancelled c) false (batch c) (batchSize c))
  else None.

Inductive caction : Type := CRecord (e : MetricEvent) | CCancel | CClose | CEvent | CTick | CDone.
(** A step: the collector and the event it accepted, if any. *)
Definition move (a : caction) (c : AsyncMetricsCollector) : option (outcome (AsyncMetricsCollector * list MetricEvent)) :=
  match a with
  | CRecord e =>
      Some (match send_event e c with Done (c, accepted) => Done (c, if accepted then [e] else []) | Panic => Panic end)
  | CCancel => Some (Done (cancel c, []))
  | CClose => if cancelled c then Some (match close_events c with Done c => Done (c, []) | Panic => Panic end) else None
  | CEvent => match round_event c with Some c => Some (Done (c, [])) | None => None end
  | CTick => match round_tick c with Some c => Some (Done (c, [])) | None => None end
  | CDone => match round_done c with Some c => Some (Done (c, [])) | None => None end
  end.

(** What can be reached, with the events accepted on the way. *)
Inductive reached (bufferSize : nat) : AsyncMetricsCollector -> list MetricEvent -> Prop :=
  | reached_new : reached bufferSize (NewAsyncMetricsCollector bufferSize) []
  | reached_move a c c' acc new : reached bufferSize c acc -> move a c = Some (Done (c', new)) -> reached bufferSize c' (acc ++ new).

Definition is_of (name : string) (ty : Z) (e : MetricEvent) : bool := bool_decide (VarName e = name) && (EType e =? ty).

(** ** What is counted *)
Record Counts (done : list MetricEvent) (name : string) (m : Collected) : Prop := {
  co_reads : Reads m = wrapU 64 (cnt (is_of name MetricRead) done);
  co_writes : Writes m = wrapU 64 (cnt (is_of name MetricWrite) done);
  co_conflicts : ConflictCount m = wrapU 64 (cnt (is_of name MetricConflict) done);
  co_errors : Errors m = wrapU 64 (cnt (is_of name MetricError) done)
}.
Definition counted (done : list MetricEvent) (ms : gmap string Collected) : Prop :=
  forall name, Counts done name (default nothing_collected (ms !! name)).

Lemma cnt_snoc {A} (P : A -> bool) l x : cnt P (l ++ [x]) = cnt P l + (if P x then 1 else 0).
Proof. rewrite cnt_app. cbn. lia. Qed.

Lemma cnt_is_of name ty done e : cnt (is_of name ty) (done ++ [e]) =
  cnt (is_of name ty) done + (if decide (VarName e = name /\ EType e = ty) then 1 else 0).
Proof.
  rewrite cnt_snoc. f_equal. unfold is_of. destruct (Z.eqb_spec (EType e) ty) as [->|Ht]; destruct (decide _) as [[Hd Hd']|Hd];
    rewrite ?andb_true_r, ?andb_false_r; try done.
  - by rewrite bool_decide_true.
  - rewrite bool_decide_false; [done|]. intros Hv. by apply Hd.
Qed.

Lemma Counts_event done e m : Counts done (VarName e) m -> Counts (done ++ [e]) (VarName e) (count_event e m).
Proof.
  intros [H1 H2 H3 H4]. unfold count_event.
  assert (forall ty, EType e = ty -> cnt (is_of (VarName e) ty) (done ++ [e]) = cnt (is_of (VarName e) ty) done + 1) as Hy
    by (intros ty E; rewrite cnt_is_of, decide_True; done).
  assert (forall ty, EType e <> ty -> cnt (is_of (VarName e) ty) (done ++ [e]) = cnt (is_of (VarName e) ty) done) as Hn
    by (intros ty E; rewrite cnt_is_of, decide_False; [lia|tauto]).
  destruct (Z.eqb_spec (EType e) MetricRead) as [E1|E1]; [|destruct (Z.eqb_spec (EType e) MetricWrite) as [E2|E2];
    [|destruct (Z.eqb_spec (EType e) MetricConflict) as [E3|E3]; [|destruct (Z.eqb_spec (EType e) MetricError) as [E4|E4]]]];
    constructor; cbn [Reads Writes ConflictCount Errors];
    ((rewrite Hy by done) || rewrite Hn by (done || congruence || (rewrite ?E1, ?E2, ?E3, ?E4; done)));
    by rewrite ?H1, ?H2, ?H3, ?H4, ?wrapU_add_l by lia.
Qed.

Lemma counted_event done ms e : counted done ms -> counted (done ++ [e]) (updateMetrics ms e).
Proof.
  intros H name. unfold updateMetrics. destruct (decide (name = VarName e)) as [->|Hn].
  - rewrite lookup_insert_eq. cbn. apply Counts_event, H.
  - rewrite lookup_insert_ne by done. destruct (H name) as [H1 H2 H3 H4].
    constructor; rewrite cnt_is_of, decide_False by (intros [? _]; congruence); by rewrite Z.add_0_r.
Qed.

Lemma counted_batch bt : forall done ms, counted done ms -> counted (done ++ bt) (processBatch bt ms).
Proof.
  unfold processBatch. induction bt as [|e bt IH]; intros done ms H; cbn; [by rewrite app_nil_r|].
  replace (done ++ e :: bt) with ((done ++ [e]) ++ bt) by (by rewrite <- app_assoc). by apply IH, counted_event.
Qed.

(** The account of every event: counted, in the batch or in the queue. *)
Record Account (bufferSize : nat) (c : AsyncMetricsCollector) (acc done : list MetricEvent) (k : nat) : Prop := {
  ac_events : done ++ batch c ++ events c = acc ++ replicate k zero_event;
  ac_open : closed c = false -> k = 0%nat;
  ac_closed : closed c = true -> cancelled c = true;
  ac_running : running c = false -> cancelled c = true;
  ac_counted : counted done (metrics c);
  ac_batch : (length (batch c) < batchSize c)%nat;
  ac_size : batchSize c = 100%nat;
  ac_capacity : capacity c = bufferSize;
  ac_queue : (length (events c) <= bufferSize)%nat
}.

Lemma Account_flush n c acc done k e es bt : Account n c acc done k ->
  done ++ bt ++ es = acc ++ replicate e zero_event -> (closed c = false -> e = 0%nat) -> (length es <= n)%nat ->
  Account n (flush es bt c) acc (done ++ bt) e.
Proof.
  intros [] He Ho Hq. constructor; cbn; try done; [by rewrite <- app_assoc|by apply counted_batch|].
  rewrite ac_size0. lia.
Qed.

Lemma Account_with n c acc done k e es bt : Account n c acc done k ->
  done ++ bt ++ es = acc ++ replicate e zero_event -> (closed c = false -> e = 0%nat) -> (length es <= n)%nat ->
  (length bt < batchSize c)%nat -> Account n (with_batch es bt (metrics c) c) acc done e.
Proof. intros [] He Ho Hq Hb. by constructor. Qed.

Lemma Account_event n c c' acc done k : Account n c acc done k -> round_event c = Some c' ->
  exists done' k', Account n c' acc done' k'.
Proof.
  intros H. unfold round_event. destruct (negb (running c)); [done|]. pose proof (ac_events _ _ _ _ _ H) as He.
  pose proof (ac_queue _ _ _ _ _ H) as Hq.
  assert (forall e es k', done ++ (batch c ++ [e]) ++ es = acc ++ replicate k' zero_event -> (closed c = false -> k' = 0%nat) ->
    (length es <= n)%nat -> exists done' k'', Account n (if decide (batchSize c <= length (batch c ++ [e]))%nat
      then flush es (batch c ++ [e]) c else with_batch es (batch c ++ [e]) (metrics c) c) acc done' k'') as Hgo.
  { intros e es k' E Ho Hl. destruct (decide _) as [Hd|Hd].
    - exists (done ++ batch c ++ [e]), k'. by eapply Account_flush.
    - exists done, k'. eapply Account_with; try done. lia. }
  destruct (events c) as [|e es] eqn:Ee.
  - destruct (closed c) eqn:Ec; [|done]. intros [= <-]. apply (Hgo _ _ (S k)); [|done|cbn; lia].
    rewrite app_nil_r in He. rewrite app_nil_r, app_assoc, He, <- app_assoc. f_equal.
    replace (S k) with (k + 1)%nat by lia. by rewrite replicate_add.
  - intros [= <-]. apply (Hgo _ _ k); [|by apply H|cbn in Hq; lia]. by rewrite <- app_assoc.
Qed.

Lemma Account_move n a c c' acc new done k : Account n c acc done k -> move a c = Some (Done (c', new)) ->
  exists done' k', Account n c' (acc ++ new) done' k'.
Proof.
  intros H. pose proof H as [He Ho Hc Hr Hcnt Hb Hs Hcap Hq].
  destruct a as [e| | | | |]; cbn [move].
  - unfold send_event. destruct (closed c) eqn:Ec; [done|]. rewrite (Ho eq_refl) in He. cbn in He. rewrite app_nil_r in He.
    destruct (decide _) as [Hl|Hl]; intros [= <- <-]; exists done, 0%nat.
    + constructor; cbn; try done; [|rewrite length_app; cbn; lia]. by rewrite app_nil_r, <- He, <- !app_assoc.
    + rewrite app_nil_r. constructor; try done; try (by rewrite Ec). cbn. by rewrite app_nil_r.
  - intros [= <- <-]. rewrite app_nil_r. exists done, k. by constructor.
  - destruct (cancelled c) eqn:Ex; [|done]. unfold close_events. destruct (closed c) eqn:Ec; [done|].
    intros [= <- <-]. rewrite app_nil_r. exists done, k. by constructor.
  - destruct (round_event c) as [c1|] eqn:E; [|done]. intros [= <- <-]. rewrite app_nil_r. by eapply Account_event.
  - unfold round_tick. destruct (negb (running c)); [done|]. destruct (decide _) as [Hd|Hd]; intros [= <- <-]; rewrite app_nil_r.
    + exists (done ++ batch c), k. by eapply Account_flush.
    + by exists done, k.
  - unfold round_done. destruct (running c && cancelled c) eqn:Ex; [|done]. apply andb_prop in Ex as [_ Ex].
    intros [= <- <-]. rewrite app_nil_r. exists done, k. by constructor.
Qed.

Lemma reached_Account n c acc : reached n c acc -> exists done k, Account n c acc done k.
Proof.
  induction 1 as [|a c c' acc new Hr IH Hm].
  - exists [], 0%nat. constructor; cbn; try done; lia.
  - destruct IH as (done & k & IH). by eapply Account_move.
Qed.

(** C34: The collector neither invents nor reorders nor forgets while it is
    open: the events it accepted are exactly the ones counted, then the
    unfinished batch, then the queue; the batch stays below its size and the
    queue within its buffer. After [Close] it may in addition count zero
    events, as reads of the unnamed variable. *)
Theorem collector_conserves n c acc : (0 < n)%nat -> reached n c acc ->
  exists done k, done ++ batch c ++ events c = acc ++ replicate k zero_event /\ (closed c = false -> k = 0%nat) /\
    (length (batch c) < 100)%nat /\ (length (events c) <= n)%nat /\
    forall name, Counts done name (GetMetrics name c).
Proof.
  intros _ Hr. destruct (reached_Account _ _ _ Hr) as (done & k & []). exists done, k. rewrite <- ac_size0. split_and!; try done.
Qed.

(** Shutting down loses what is not yet counted: the goroutine can always
    stop once the context is cancelled, and then no step changes the metrics
    any more, whatever the batch and the queue still hold. *)
Theorem shutdown_loses c : cancelled c = true -> running c = true ->
  exists c', move CDone c = Some (Done (c', [])) /\ batch c' = batch c /\ events c' = events c /\
    forall a c'' new, move a c' = Some (Done (c'', new)) -> metrics c'' = metrics c /\ running c'' = false.
Proof.
  intros Hc Hr. eexists. cbn [move]. unfold round_done. rewrite Hc, Hr. cbn [andb]. split; [done|]. split; [done|]. split; [done|].
  intros a c'' new. destruct a as [e| | | | |]; cbn [move round_event round_tick round_done send_event close_events running closed events
    capacity cancelled metrics batch batchSize negb andb]; try discriminate.
  - unfold send_event. cbn. destruct (closed c); [done|]. destruct (decide _); by intros [= <- <-].
  - by intros [= <- <-].
  - unfold close_events. cbn. destruct (closed c); [done|]. by intros [= <- <-].
Qed.

(** ** Witnesses *)
Module Samples.
Definition e1 := mkEvent "hp" MetricRead 100 1.
Definition e2 := mkEvent "hp" MetricWrite 100 2.
Definition after (l : list caction) : option (outcome (AsyncMetricsCollector * list MetricEvent)) :=
  foldl (fun r a => match r with
    | Some (Done (c, acc)) => match move a c with Some (Done (c, new)) => Some (Done (c, acc ++ new)) | r => r end
    | r => r end) (Some (Done (NewAsyncMetricsCollector 2, []))) l.
End Samples.

Lemma after_reached l : forall n c acc r, reached n c acc ->
  foldl (fun r a => match r with
    | Some (Done (c, acc)) => match move a c with Some (Done (c, new)) => Some (Done (c, acc ++ new)) | r => r end
    | r => r end) (Some (Done (c, acc))) l = Some (Done r) -> reached n r.1 r.2.
Proof.
  induction l as [|a l IH]; intros n c acc r Hr; cbn [foldl].
  - by intros [= <-].
  - destruct (move a c) as [[[c' new]|]|] eqn:E.
    + apply IH. by eapply reached_move.
    + intros E'. exfalso. revert E'. clear. by induction l.
    + intros E'. exfalso. revert E'. clear. by induction l.
Qed.

Lemma collector_conserves_witness : exists c done k,
  Samples.after [CRecord Samples.e1; CRecord Samples.e2; CEvent; CTick] = Some (Done (c, [Samples.e1; Samples.e2])) /\
  done ++ batch c ++ events c = [Samples.e1; Samples.e2] ++ replicate k zero_event /\ Reads (GetMetrics "hp" c) = 1.
Proof.
  destruct (Samples.after [CRecord Samples.e1; CRecord Samples.e2; CEvent; CTick]) as [[[c acc]|]|] eqn:E;
    [|exfalso; vm_compute in E; discriminate E..].
  assert (reached 2 c acc) as Hr by exact (after_reached _ 2 _ [] (c, acc) (reached_new 2) E).
  assert (acc = [Samples.e1; Samples.e2] /\ Reads (GetMetrics "hp" c) = 1) as [-> Hc]
    by (vm_compute in E; injection E as <- <-; split; vm_compute; reflexivity).
  destruct (collector_conserves 2 c _ ltac:(lia) Hr) as (done & k & H1 & _). exists c, done, k. split; [reflexivity|]. split; [exact H1|exact Hc].
Defined.

Lemma shutdown_loses_witness : exists c c',
  Samples.after [CRecord Samples.e1; CRecord Samples.e2; CEvent; CCancel] = Some (Done (c, [Samples.e1; Samples.e2])) /\
  move CDone c = Some (Done (c', [])) /\ batch c' = [Samples.e1] /\ events c' = [Samples.e2].
Proof.
  destruct (Samples.after [CRecord Samples.e1; CRecord Samples.e2; CEvent; CCancel]) as [[[c acc]|]|] eqn:E;
    [|exfalso; vm_compute in E; discriminate E..].
  assert (reached 2 c acc) as Hr by exact (after_reached _ 2 _ [] (c, acc) (reached_new 2) E).
  assert (acc = [Samples.e1; Samples.e2] /\ cancelled c = true /\ running c = true /\ batch c = [Samples.e1] /\ events c = [Samples.e2])
    as (-> & Hc & Hrun & Hb & He) by (vm_compute in E; injection E as <- <-; repeat split; vm_compute; reflexivity).
  destruct (shutdown_loses c Hc Hrun) as (c' & H1 & H2 & H3 & _). exists c, c'.
  split; [reflexivity|]. split; [exact H1|]. split; [by rewrite H2|by rewrite H3].
Defined.
