(* ===== verification/VarManager.v ===== *)
(** * Factory, migrator and manager of the synchronized variables

    ([sync/factory], [sync/migrator], [sync/manager].) The factory builds a
    variable from options and a strategy; the migrator copies a variable to
    another strategy; the manager keeps named variables and, in Module
    [AutoOptimization], runs the optimization goroutine beside its methods. *)
From S2P Require Import Prelude Channels SyncVars VarMetrics.
From Stdlib Require Import ZArith Lia Strings.Ascii Strings.String.
From stdpp Require Import base tactics list strings gmap relations.
Open Scope Z_scope.

(** The kinds of [reflect] the factory tells apart. *)
Inductive Kind : Type := KInt | KInt32 | KInt64 | KString | KSlice | KMap | KOther.

Inductive man_error : Type :=
  | ErrUnknownStrategy (strategy : Z)
  | ErrVar (e : var_error)
  | ErrCannotMigrate (from to_ : Z)
  | ErrAlreadyExists (name : string)
  | ErrNotFound (name : string)
  | ErrMigrateFailed (name : string) (e : man_error)
  | ErrConstructor (id : nat).                      (* of a registered constructor *)

Section Factory.
Context {V Ty : Type} {GV : GoValue V Ty} (kind : Ty -> Kind).
Implicit Types x : SyncVariable V.

(** ** The factory *)
Abbreviation StrategyConstructor := (VariableConfig V -> result man_error (SyncVariable V)).
Abbreviation VariableOption := (VariableConfig V -> VariableConfig V).
Definition WithMaxHistory (n : Z) : VariableOption := fun c =>
  mkConfig (Name c) n (Permissions c) (ConflictResolver c) (StorageStrategy c) (EnableMetrics c) (EnableHistory c) (TTL c) (Tags c).
Definition WithPermissions (mask : Z) : VariableOption := fun c =>
  mkConfig (Name c) (MaxHistory c) mask (ConflictResolver c) (StorageStrategy c) (EnableMetrics c) (EnableHistory c) (TTL c) (Tags c).
Definition WithStrategy (s : Z) : VariableOption := fun c =>
  mkConfig (Name c) (MaxHistory c) (Permissions c) (ConflictResolver c) s (EnableMetrics c) (EnableHistory c) (TTL c) (Tags c).
Definition WithMetrics (enabled : bool) : VariableOption := fun c =>
  mkConfig (Name c) (MaxHistory c) (Permissions c) (ConflictResolver c) (StorageStrategy c) enabled (EnableHistory c) (TTL c) (Tags c).
Definition WithTTL (t : Z) : VariableOption := fun c =>
  mkConfig (Name c) (MaxHistory c) (Permissions c) (ConflictResolver c) (StorageStrategy c) (EnableMetrics c) (EnableHistory c) t (Tags c).
Definition WithTags (ts : gmap string string) : VariableOption := fun c =>
  mkConfig (Name c) (MaxHistory c) (Permissions c) (ConflictResolver c) (StorageStrategy c) (EnableMetrics c) (EnableHistory c) (TTL c) ts.

Record DefaultVariableFactory : Type := mkFactory { strategies : gmap Z StrategyConstructor }.
Definition createAtomicVariable : StrategyConstructor := fun cfg => Ok (VarAtomic (NewAtomicVariable cfg)).
Definition createMutexVariable : StrategyConstructor := fun cfg => Ok (VarMutex (NewMutexVariable cfg)).
(** The other three build atomic variables. *)
Definition createShardedVariable : StrategyConstructor := fun cfg => Ok (VarAtomic (NewAtomicVariable cfg)).
Definition createReadOptimizedVariable : StrategyConstructor := fun cfg => Ok (VarAtomic (NewAtomicVariable cfg)).
Definition createWriteOptimizedVariable : StrategyConstructor := fun cfg => Ok (VarAtomic (NewAtomicVariable cfg)).
Definition RegisterStrategy (strategy : Z) (constructor : StrategyConstructor) (f : DefaultVariableFactory) : DefaultVariableFactory :=
  mkFactory (<[strategy := constructor]> (strategies f)).
Definition NewVariableFactory : DefaultVariableFactory :=
  RegisterStrategy StrategyWriteOptimized createWriteOptimizedVariable
    (RegisterStrategy StrategyReadOptimized createReadOptimizedVariable
      (RegisterStrategy StrategySharded createShardedVariable
        (RegisterStrategy StrategyMutex createMutexVariable
          (RegisterStrategy StrategyAtomic createAtomicVariable (mkFactory ∅))))).
(** [string] of an 8-bit integer is the UTF-8 encoding of that code point; the
    order of the map is [order]. *)
Definition rune_string (n : Z) : string :=
  let char z := String (ascii_of_N (Z.to_N z)) in
  if n <? 128 then char n "" else char (192 + n / 64) (char (128 + n mod 64) "").
Definition ListStrategies (order : list Z) (f : DefaultVariableFactory) : list string := map rune_string order.

Definition buildConfig (options : list VariableOption) : VariableConfig V :=
  foldl (fun c o => o c) (mkConfig "" 10 (Z.lor PermissionRead PermissionWrite) None StrategyBasic false false 0 ∅) options.

(** A nil value has no type: [Kind] of a nil type panics. *)
Definition selectOptimalStrategy (value : option V) (pattern : Z) : outcome Z :=
  match value with
  | None => Panic
  | Some v => Done
      match kind (type_of v) with
      | KInt | KInt32 | KInt64 => if pattern =? PatternWriteHeavy then StrategyWriteOptimized else StrategyAtomic
      | KString => if pattern =? PatternReadHeavy then StrategyReadOptimized else StrategyMutex
      | KSlice | KMap => if (pattern =? PatternReadHeavy) || (pattern =? PatternWriteHeavy) then StrategySharded else StrategyMutex
      | KOther => StrategyMutex
      end
  end.
(** [zero] is the zero value of the type. *)
Definition GetRecommendedStrategy (zero : option V) (pattern : Z) : outcome Z := selectOptimalStrategy zero pattern.

(** A constructor's variable that is itself a wrapper measures [0] here. *)
Definition CreateWithStrategy (strategy : Z) (initialValue : option V) (options : list VariableOption) (f : DefaultVariableFactory) :
    outcome (result man_error (SyncVariable V)) :=
  let config := WithStrategy strategy (buildConfig options) in
  match strategies f !! strategy with
  | None => Done (Err (ErrUnknownStrategy strategy))
  | Some constructor =>
      match constructor config with
      | Err e => Done (Err e)
      | Ok variable =>
          r ← VarMetrics.Set_ [] initialValue variable;
          Done (match r.2 with
                | Some e => Err (ErrVar e)
                | None => Ok (if EnableMetrics config then NewMetricsWrapper r.1 else r.1)
                end)
      end
  end.
Definition Create (initialValue : option V) (options : list VariableOption) (f : DefaultVariableFactory) :
    outcome (result man_error (SyncVariable V)) :=
  let config := buildConfig options in
  strategy ← (if StorageStrategy config =? StrategyBasic then selectOptimalStrategy initialValue PatternMixed
              else Done (StorageStrategy config));
  CreateWithStrategy strategy initialValue options f.
Definition CreateOptimized (initialValue : option V) (expectedPattern : Z) (options : list VariableOption) (f : DefaultVariableFactory) :
    outcome (result man_error (SyncVariable V)) :=
  strategy ← selectOptimalStrategy initialValue expectedPattern;
  CreateWithStrategy strategy initialValue options f.

(** ** The migrator *)
Definition migrated_config (targetStrategy : Z) (x : SyncVariable V) : VariableConfig V :=
  let n := Z.of_nat (length (default [] (GetHistory_ x))) in
  mkConfig "" (wrapU 8 n) (GetPermissions_ x) None targetStrategy false (0 <? n) 0 ∅.
(** [lats] are the latencies a wrapper measures for the read; the variable
    itself is returned with them counted. *)
Definition Migrate (f : DefaultVariableFactory) (lats : list Z) (x : SyncVariable V) (targetStrategy : Z) :
    SyncVariable V * outcome (result man_error (SyncVariable V)) :=
  if negb (CanMigrateTo_ targetStrategy x) then (x, Done (Err (ErrCannotMigrate (GetStorageStrategy_ x) targetStrategy)))
  else
    let '(x', value) := Get_ lats x in
    (x', CreateWithStrategy targetStrategy value [fun _ => migrated_config targetStrategy x] f).
Definition HotMigrate (f : DefaultVariableFactory) (lats : list Z) (x : SyncVariable V) (targetStrategy : Z) :
    SyncVariable V * outcome (result man_error (SyncVariable V)) := Migrate f lats x targetStrategy.

Record MigrationPlan : Type := mkPlan { Source : Z; Target : Z; EstimatedTime : Z; RiskLevel : string }.
Definition PlanMigration (x : SyncVariable V) (targetStrategy : Z) : MigrationPlan :=
  mkPlan (GetStorageStrategy_ x) targetStrategy (1000 * millisecond) "low".
Record MigrationCost : Type := mkCost { TimeEstimate : Z; MemoryOverhead : Z; CPUOverhead : f64; RiskAssessment : string }.
Definition EstimateMigrationCost (plan : MigrationPlan) : MigrationCost := mkCost (EstimatedTime plan) 1024 (f64_lit 1 10) "low".
End Factory.
Arguments DefaultVariableFactory : clear implicits.

(** ** The manager

    Variables are shared objects: [variables] maps names to references into
    [heap], and whoever looked a variable up keeps its reference. The analyzer
    and the migrator are the functions of their interfaces the manager calls. *)
Section Manager.
Context {V Ty : Type} {GV : GoValue V Ty} (kind : Ty -> Kind).

Record DefaultVariableManager : Type := mkManager {
  variables : gmap string nat;
  heap : list (SyncVariable V);
  factory : DefaultVariableFactory V;
  analyzer : Z -> SyncVariable V -> bool * Z;            (* now *)
  migrator : list Z -> SyncVariable V -> Z -> SyncVariable V * outcome (result man_error (SyncVariable V));
  autoOptimize : bool
}.
Definition NewVariableManager : DefaultVariableManager :=
  mkManager ∅ [] NewVariableFactory (ShouldMigrate DefaultThresholds) (Migrate NewVariableFactory) false.

Definition set_variables (vs : gmap string nat) (h : list (SyncVariable V)) (m : DefaultVariableManager) : DefaultVariableManager :=
  mkManager vs h (factory m) (analyzer m) (migrator m) (autoOptimize m).
Definition set_auto (b : bool) (m : DefaultVariableManager) : DefaultVariableManager :=
  mkManager (variables m) (heap m) (factory m) (analyzer m) (migrator m) b.
(** A new object under a name. *)
Definition put (name : string) (x : SyncVariable V) (m : DefaultVariableManager) : DefaultVariableManager :=
  set_variables (<[name := length (heap m)]> (variables m)) (heap m ++ [x]) m.

Definition Manager_Create (name : string) (initialValue : option V) (options : list (VariableConfig V -> VariableConfig V))
    (m : DefaultVariableManager) : outcome (DefaultVariableManager * result man_error nat) :=
  match variables m !! name with
  | Some _ => Done (m, Err (ErrAlreadyExists name))
  | None =>
      r ← Create kind initialValue options (factory m);
      Done (match r with Err e => (m, Err e) | Ok x => (put name x m, Ok (length (heap m))) end)
  end.
Definition Manager_Get (name : string) (m : DefaultVariableManager) : option nat := variables m !! name.
Definition GetVariable (name : string) (m : DefaultVariableManager) : option nat := Manager_Get name m.
Definition Delete_ (name : string) (m : DefaultVariableManager) : DefaultVariableManager * option man_error :=
  match variables m !! name with
  | None => (m, Some (ErrNotFound name))
  | Some _ => (set_variables (delete name (variables m)) (heap m) m, None)
  end.
(** In the order the map is walked; [map_to_list] is one such order. *)
Definition List_ (m : DefaultVariableManager) : list string := (map_to_list (variables m)).*1.

Record VariableSpec : Type := mkSpec {
  sp_Name : string; InitialValue : option V; Options : list (VariableConfig V -> VariableConfig V) }.
Fixpoint find_existing (specs : list VariableSpec) (vs : gmap string nat) : option string :=
  match specs with
  | [] => None
  | s :: specs => match vs !! sp_Name s with Some _ => Some (sp_Name s) | None => find_existing specs vs end
  end.
(** The rollback stops at the first specification with the failing name. *)
Fixpoint rollback (specs : list VariableSpec) (failing : string) (vs : gmap string nat) : gmap string nat :=
  match specs with
  | [] => vs
  | s :: specs => if decide (sp_Name s = failing) then vs else rollback specs failing (delete (sp_Name s) vs)
  end.
Fixpoint create_all (all todo : list VariableSpec) (m : DefaultVariableManager) :
    outcome (DefaultVariableManager * option man_error) :=
  match todo with
  | [] => Done (m, None)
  | s :: todo =>
      r ← Create kind (InitialValue s) (Options s) (factory m);
      match r with
      | Err e => Done (set_variables (rollback all (sp_Name s) (variables m)) (heap m) m, Some e)
      | Ok x => create_all all todo (put (sp_Name s) x m)
      end
  end.
Definition CreateBatch (specs : list VariableSpec) (m : DefaultVariableManager) : outcome (DefaultVariableManager * option man_error) :=
  match find_existing specs (variables m) with
  | Some name => Done (m, Some (ErrAlreadyExists name))
  | None => create_all specs specs m
  end.

(** One variable of a batch, and of an optimization pass. *)
Definition migrate_at (lats : list Z) (ref : nat) (strategy : Z) (m : DefaultVariableManager) :
    outcome (DefaultVariableManager * result man_error (SyncVariable V)) :=
  match heap m !! ref with
  | None => Panic
  | Some x =>
      let '(x', r) := migrator m lats x strategy in
      r ← r; Done (set_variables (variables m) (<[ref := x']> (heap m)) m, r)
  end.
Fixpoint MigrateBatch (lats : string -> list Z) (names : list string) (strategy : Z) (m : DefaultVariableManager) :
    outcome (DefaultVariableManager * option man_error) :=
  match names with
  | [] => Done (m, None)
  | name :: names =>
      match variables m !! name with
      | None => Done (m, Some (ErrNotFound name))
      | Some ref =>
          r ← migrate_at (lats name) ref strategy m;
          match r.2 with
          | Err e => Done (r.1, Some (ErrMigrateFailed name e))
          | Ok x => MigrateBatch lats names strategy (put name x r.1)
          end
      end
  end.

Definition SetAnalyzer (a : Z -> SyncVariable V -> bool * Z) (m : DefaultVariableManager) : DefaultVariableManager :=
  mkManager (variables m) (heap m) (factory m) a (migrator m) (autoOptimize m).
Definition SetMigrator (mg : list Z -> SyncVariable V -> Z -> SyncVariable V * outcome (result man_error (SyncVariable V)))
    (m : DefaultVariableManager) : DefaultVariableManager :=
  mkManager (variables m) (heap m) (factory m) (analyzer m) mg (autoOptimize m).
(** What [Close] does once the optimization has stopped. *)
Definition clear (m : DefaultVariableManager) : DefaultVariableManager := set_variables ∅ (heap m) m.
Definition GarbageCollect (m : DefaultVariableManager) : DefaultVariableManager := m.

(** [GetGlobalMetrics]. The distribution is a nil map: counting in it panics. *)
Record GlobalMetrics : Type := mkGlobal { TotalVariables : Z; GMemoryUsage : Z; TotalOperations : Z; AverageLatency : Z }.
Definition add_metrics (g : GlobalMetrics) (mt : Metrics) : outcome GlobalMetrics :=
  let latency := wrapS 64 (AvgReadLatency mt + AvgWriteLatency mt) in
  if latency =? 0 then Panic
  else match MigrationHistory mt with
       | _ :: _ => Panic
       | [] => Done (mkGlobal (TotalVariables g) (wrapS 64 (GMemoryUsage g + MemoryUsage mt))
                 (wrapU 64 (TotalOperations g + wrapU 64 (ReadCount mt + WriteCount mt)))
                 (wrapS 64 (Z.quot (AverageLatency g) latency)))
       end.
Fixpoint sum_metrics (ms : list Metrics) (g : GlobalMetrics) : outcome GlobalMetrics :=
  match ms with
  | [] => Done g
  | mt :: ms => g ← add_metrics g mt; sum_metrics ms g
  end.
(** The managed variables; the map may be walked in any [order] of them. *)
Definition managed (m : DefaultVariableManager) : list (SyncVariable V) := omap (fun r => heap m !! r) (map_to_list (variables m)).*2.
Definition GetGlobalMetrics (order : list (SyncVariable V)) (m : DefaultVariableManager) : outcome GlobalMetrics :=
  sum_metrics (map GetMetrics order) (mkGlobal (Z.of_nat (size (variables m))) 0 0 0).
End Manager.
Arguments DefaultVariableManager V : clear implicits.
Arguments VariableSpec V : clear implicits.

(** ** The optimization goroutine

    Every method holds the manager's lock for its whole body and is one step,
    except [DisableAutoOptimization], which holds it while it waits for the
    goroutine ([stopping]). The goroutine takes the lock for its snapshot and
    for each swap. *)
Module AutoOptimization.
Section AutoOptimization.
Context {V Ty : Type} {GV : GoValue V Ty} (kind : Ty -> Kind).

Inductive phase : Type :=
  | Stopped
  | Select
  | Ticked                                          (* before the snapshot *)
  | Working (rest : list (string * nat))
  | Swapping (name : string) (new : nat) (rest : list (string * nat)).
Record Sys : Type := mkSys { mgr : DefaultVariableManager V; loop : phase; stopping : bool; cancelled : bool }.
Definition with_mgr (m : DefaultVariableManager V) (s : Sys) : Sys := mkSys m (loop s) (stopping s) (cancelled s).
Definition with_loop (p : phase) (s : Sys) : Sys := mkSys (mgr s) p (stopping s) (cancelled s).

Definition EnableAutoOptimization (s : Sys) : Sys :=
  if autoOptimize (mgr s) then s else mkSys (set_auto true (mgr s)) Select (stopping s) false.
(** [DisableAutoOptimization] up to its wait. *)
Definition DisableAutoOptimization (s : Sys) : Sys :=
  if negb (autoOptimize (mgr s)) then s else mkSys (set_auto false (mgr s)) (loop s) true true.

(** The methods that are one step on the manager. *)
Inductive method (m : DefaultVariableManager V) : DefaultVariableManager V -> Prop :=
  | method_Create name v options m' r : Manager_Create kind name v options m = Done (m', r) -> method m m'
  | method_Delete name : method m (Delete_ name m).1
  | method_CreateBatch specs m' r : CreateBatch kind specs m = Done (m', r) -> method m m'
  | method_MigrateBatch lats names strategy m' r : MigrateBatch lats names strategy m = Done (m', r) -> method m m'
  | method_SetAnalyzer a : method m (SetAnalyzer a m)
  | method_SetMigrator mg : method m (SetMigrator mg m)
  | method_Close : method m (clear m).

(** [performAutoOptimization] for one variable, until the swap. *)
Definition examine (now : Z) (lats : list Z) (name : string) (ref : nat) (rest : list (string * nat)) (s : Sys) : outcome Sys :=
  match heap (mgr s) !! ref with
  | None => Panic
  | Some x =>
      let '(should, target) := analyzer (mgr s) now x in
      if negb should then Done (with_loop (Working rest) s)
      else
        r ← migrate_at lats ref target (mgr s);
        Done match r.2 with
             | Err _ => with_loop (Working rest) (with_mgr r.1 s)
             | Ok y =>
                 let m := set_variables (variables r.1) (heap r.1 ++ [y]) r.1 in
                 with_loop (Swapping name (length (heap r.1)) rest) (with_mgr m s)
             end
  end.

Inductive step (s : Sys) : Sys -> Prop :=
  | step_enable : stopping s = false -> step s (EnableAutoOptimization s)
  | step_disable : stopping s = false -> step s (DisableAutoOptimization s)
  | step_disabled : stopping s = true -> loop s = Stopped -> step s (mkSys (mgr s) (loop s) false (cancelled s))
  | step_parent : step s (mkSys (mgr s) (loop s) (stopping s) true)
  | step_method m' : stopping s = false -> method (mgr s) m' -> step s (with_mgr m' s)
  | step_write ref x lats value r : heap (mgr s) !! ref = Some x -> VarMetrics.Set_ lats value x = Done r ->
      step s (with_mgr (set_variables (variables (mgr s)) (<[ref := r.1]> (heap (mgr s))) (mgr s)) s)
  | step_done : loop s = Select -> cancelled s = true -> step s (with_loop Stopped s)
  | step_tick : loop s = Select -> step s (with_loop Ticked s)
  | step_snapshot order : loop s = Ticked -> stopping s = false -> order ≡ₚ map_to_list (variables (mgr s)) ->
      step s (with_loop (Working order) s)
  | step_examine now lats name ref rest s' : loop s = Working ((name, ref) :: rest) ->
      examine now lats name ref rest s = Done s' -> step s s'
  | step_swap name new rest : loop s = Swapping name new rest -> stopping s = false ->
      step s (with_loop (Working rest) (with_mgr (set_variables (<[name := new]> (variables (mgr s))) (heap (mgr s)) (mgr s)) s))
  | step_pass_over : loop s = Working [] -> step s (with_loop Select s).
End AutoOptimization.
Arguments Sys : clear implicits.
End AutoOptimization.

(** ** Migration keeps the value *)
Section MigrateSpec.
Context {V Ty : Type} {GV : GoValue V Ty}.
Implicit Types x : SyncVariable V.

(** The strategies [NewVariableFactory] registers. *)
Definition known (s : Z) : bool :=
  bool_decide (s ∈ [StrategyAtomic; StrategyMutex; StrategySharded; StrategyReadOptimized; StrategyWriteOptimized]).
Definition fresh_variable (s : Z) (cfg : VariableConfig V) : SyncVariable V :=
  if s =? StrategyMutex then VarMutex (NewMutexVariable cfg) else VarAtomic (NewAtomicVariable cfg).

Lemma known_constructor s : strategies (@NewVariableFactory V) !! s =
  if known s then Some (fun cfg => Ok (fresh_variable s cfg)) else None.
Proof.
  unfold known, NewVariableFactory, RegisterStrategy, fresh_variable. cbn [strategies].
  destruct (bool_decide_reflect (s ∈ [StrategyAtomic; StrategyMutex; StrategySharded; StrategyReadOptimized; StrategyWriteOptimized])) as [Hs|Hs].
  - rewrite !elem_of_cons in Hs. by destruct Hs as [->|[->|[->|[->|[->|Hs%not_elem_of_nil]]]]].
  - rewrite !not_elem_of_cons in Hs. destruct Hs as (? & ? & ? & ? & ? & _).
    by rewrite !lookup_insert_ne by congruence.
Qed.

Lemma Get__value lats x : (Get_ lats x).2 = v_value (base_var x).
Proof.
  revert lats. induction x as [v|v|x IH m]; intros lats; [done|done|]. cbn. specialize (IH (tail lats)).
  by destruct (Get_ (tail lats) x).
Qed.

Lemma Get__base lats x : base_var (Get_ lats x).1 = base_var x.
Proof.
  revert lats. induction x as [v|v|x IH m]; intros lats; [done|done|]. cbn. specialize (IH (tail lats)).
  by destruct (Get_ (tail lats) x).
Qed.

(** The first [Set] of a fresh variable. *)
Definition initial (value : option V) (cfg : VariableConfig V) : Var V := (Mutex_Set value (NewMutexVariable cfg)).1.

Lemma length_filter_insert {A} (P : A -> Prop) `{forall a, Decision (P a)} (l : list A) i y :
  (length (filter P (<[i := y]> l)) <= S (length (filter P l)))%nat.
Proof.
  revert i. induction l as [|z l IH]; intros i; [rewrite list_insert_ge by (cbn; lia); cbn; lia|]. destruct i as [|i].
  - change (<[0%nat := y]> (z :: l)) with (y :: l). rewrite !filter_cons. repeat case_decide; cbn; lia.
  - change (<[S i := y]> (z :: l)) with (z :: <[i := y]> l). specialize (IH i). rewrite !filter_cons. case_decide; cbn; lia.
Qed.

Lemma new_history cfg : length (default [] (GetHistory (@new_core V cfg))) = 0%nat.
Proof.
  unfold GetHistory, new_core. cbn [history]. destruct (EnableHistory cfg); [|done]. cbn [from_option id].
  rewrite length_map. induction (Z.to_nat _) as [|n IH]; [done|]. cbn [replicate]. by rewrite filter_cons_False by (cbn; lia).
Qed.

Lemma record_change_history old new (c : Core V) :
  (length (default [] (GetHistory (record_change old new c))) <= S (length (default [] (GetHistory c))))%nat /\
  storageStrategy (record_change old new c) = storageStrategy c.
Proof.
  unfold record_change. cbn [maxHistory set_version]. destruct (0 <? maxHistory c).
  2: { unfold GetHistory. cbn [history set_version]. split; [lia|done]. }
  unfold updateHistory, GetHistory. cbn [history set_version]. destruct (history c) as [[|d l]|] eqn:E;
    [split; [cbn; rewrite ?E; cbn; lia|done]| |split; [cbn; rewrite ?E; cbn; lia|done]].
  cbn [history set_history from_option id storageStrategy set_version]. split; [|done]. rewrite !length_map.
  apply length_filter_insert.
Qed.

Lemma initial_value value cfg : checkPermissions PermissionWrite (Permissions cfg) = true -> ConflictResolver cfg = None ->
  v_value (initial value cfg) = value /\
  permissionMask (core (initial value cfg)) = Permissions cfg /\ storageStrategy (core (initial value cfg)) = StorageStrategy cfg /\
  conflictResolver (initial value cfg) = None /\ onChange (initial value cfg) = None /\
  (length (default [] (GetHistory (core (initial value cfg)))) <= 1)%nat.
Proof.
  intros Hp Hr. unfold initial, Mutex_Set. cbn [core NewMutexVariable permissionMask new_core]. rewrite Hp. cbn [negb].
  unfold resolve. cbn [conflictResolver onConflict v_value NewMutexVariable]. rewrite Hr. pose proof (new_history cfg) as H0.
  destruct value as [y|]; cbn [fastEqual fst].
  - destruct (change_fields None (Some y) (NewMutexVariable cfg)) as (H1 & H2 & _ & H4).
    destruct (record_change_history None (Some y) (new_core cfg)) as [H5 H6].
    split_and!; [done|done|exact H6|by rewrite H2|done|]. unfold change, notify. cbn [onChange set_core set_value NewMutexVariable core].
    lia.
  - split_and!; try done. cbn [core NewMutexVariable]. lia.
Qed.

Lemma create_fresh s value cfg : known s = true -> StorageStrategy cfg = s -> EnableMetrics cfg = false -> ConflictResolver cfg = None ->
  CreateWithStrategy s value [fun _ => cfg] NewVariableFactory =
  if checkPermissions PermissionWrite (Permissions cfg)
  then Done (Ok (if s =? StrategyMutex then VarMutex (initial value cfg) else VarAtomic (initial value cfg)))
  else Done (Err (ErrVar ErrPermissionDenied)).
Proof.
  intros Hk Hs Hm Hr. unfold CreateWithStrategy. rewrite known_constructor, Hk.
  assert (WithStrategy s (buildConfig [fun _ => cfg]) = cfg) as -> by (destruct cfg; cbn in *; by subst).
  rewrite Hm. unfold fresh_variable, initial. destruct (s =? StrategyMutex); cbn [VarMetrics.Set_].
  - unfold Mutex_Set. cbn [core NewMutexVariable new_core permissionMask]. destruct (checkPermissions _ _); cbn [negb]; [|done].
    by destruct (resolve _ _ _ _).
  - unfold Atomic_Set, Mutex_Set. cbn [core NewMutexVariable NewAtomicVariable new_core permissionMask].
    destruct (checkPermissions _ _); cbn [negb]; [|done]. unfold resolve. cbn [conflictResolver onConflict v_value NewMutexVariable NewAtomicVariable]. rewrite Hr.
    by destruct value.
Qed.

Lemma Migrate_result lats x target : (Migrate NewVariableFactory lats x target).2 =
  (if target =? GetStorageStrategy_ x then Done (Err (ErrCannotMigrate (GetStorageStrategy_ x) target))
   else if negb (known target) then Done (Err (ErrUnknownStrategy target))
   else if negb (checkPermissions PermissionWrite (GetPermissions_ x)) then Done (Err (ErrVar ErrPermissionDenied))
   else let v := initial (v_value (base_var x)) (migrated_config target x) in
        Done (Ok (if target =? StrategyMutex then VarMutex v else VarAtomic v))).
Proof.
  unfold Migrate, CanMigrateTo_, CanMigrateTo. change (storageStrategy (core (base_var x))) with (GetStorageStrategy_ x).
  rewrite negb_involutive. destruct (target =? GetStorageStrategy_ x); [done|].
  pose proof (Get__value lats x) as H. destruct (Get_ lats x) as [x' value]. cbn in H |- *. subst value.
  destruct (known target) eqn:Hk; cbn [negb].
  - rewrite create_fresh by done. cbn [Permissions migrated_config]. by destruct (checkPermissions _ _).
  - unfold CreateWithStrategy. by rewrite known_constructor, Hk.
Qed.

Lemma migrated_initial x target : checkPermissions PermissionWrite (GetPermissions_ x) = true ->
  let v := initial (v_value (base_var x)) (migrated_config target x) in
  v_value v = v_value (base_var x) /\ GetPermissions (core v) = GetPermissions_ x /\ GetStorageStrategy (core v) = target /\
  conflictResolver v = None /\ onChange v = None /\ (length (default [] (GetHistory (core v))) <= 1)%nat.
Proof.
  intros Hp. destruct (initial_value (v_value (base_var x)) (migrated_config target x) Hp eq_refl) as (H1 & H2 & H3 & H4 & H5 & H6).
  by split_and!.
Qed.

Lemma Migrate_value lats x target y : (Migrate NewVariableFactory lats x target).2 = Done (Ok y) ->
  v_value (base_var y) = v_value (base_var x).
Proof.
  rewrite Migrate_result. destruct (target =? _); [done|]. destruct (negb (known _)); [done|].
  destruct (checkPermissions _ _) eqn:Hp; cbn [negb]; [|done]. destruct (migrated_initial x target Hp) as (H & _).
  intros [= <-]. by destruct (target =? StrategyMutex).
Qed.

(** C31: Migration: a migration to the present or an unregistered strategy and
    one of a read-only variable are refused; any other yields a fresh variable
    with the value, the permissions and the target strategy of the old one, and
    without its history beyond the present value, its resolver, its callbacks
    or its metrics. The old variable is only read. *)
Theorem Migrate_correct lats x target :
  let r := Migrate NewVariableFactory lats x target in
  base_var r.1 = base_var x /\
  r.2 =
    (if target =? GetStorageStrategy_ x then Done (Err (ErrCannotMigrate (GetStorageStrategy_ x) target))
    else if negb (known target) then Done (Err (ErrUnknownStrategy target))
    else if negb (checkPermissions PermissionWrite (GetPermissions_ x)) then Done (Err (ErrVar ErrPermissionDenied))
    else let v := initial (v_value (base_var x)) (migrated_config target x) in
         Done (Ok (if target =? StrategyMutex then VarMutex v else VarAtomic v))) /\
  (checkPermissions PermissionWrite (GetPermissions_ x) = true ->
   let v := initial (v_value (base_var x)) (migrated_config target x) in
   v_value v = v_value (base_var x) /\ GetPermissions (core v) = GetPermissions_ x /\ GetStorageStrategy (core v) = target /\
   conflictResolver v = None /\ onChange v = None /\ (length (default [] (GetHistory (core v))) <= 1)%nat).
Proof.
  cbn zeta. split_and!; [|apply Migrate_result|apply migrated_initial].
  unfold Migrate. destruct (negb _); [done|]. pose proof (Get__base lats x) as H. by destruct (Get_ lats x).
Qed.
End MigrateSpec.

(** ** Batches *)
Section Batch.
Context {V Ty : Type} {GV : GoValue V Ty} (kind : Ty -> Kind).
Implicit Types (m : DefaultVariableManager V) (specs : list (VariableSpec V)).

Lemma find_existing_None specs vs : find_existing specs vs = None -> forall s, s ∈ specs -> vs !! sp_Name s = None.
Proof.
  induction specs as [|s specs IH]; intros E s' Hs; [by apply not_elem_of_nil in Hs|]. cbn in E.
  destruct (vs !! sp_Name s) eqn:Es; [done|]. apply elem_of_cons in Hs as [->|Hs]; [done|by apply IH].
Qed.

(** The rollback of names that all precede the failing one. *)
Lemma rollback_lookup (made : list (VariableSpec V)) s todo vs k : sp_Name s ∉ map sp_Name made ->
  rollback (made ++ s :: todo) (sp_Name s) vs !! k = if decide (k ∈ map sp_Name made) then None else vs !! k.
Proof.
  revert vs. induction made as [|s0 made IH]; intros vs Hn; cbn.
  - rewrite decide_True by done. by rewrite decide_False by (apply not_elem_of_nil).
  - apply not_elem_of_cons in Hn as [Hn Hn']. rewrite decide_False by done. rewrite IH by done.
    destruct (decide (k ∈ map sp_Name made)) as [Hk|Hk].
    + by rewrite decide_True by (apply elem_of_cons; by right).
    + destruct (decide (k = sp_Name s0)) as [->|Hk'].
      * rewrite lookup_delete_eq. by rewrite decide_True by apply list_elem_of_here.
      * rewrite lookup_delete_ne by done. rewrite decide_False; [done|]. by apply not_elem_of_cons.
Qed.

(** A specification whose variable exists and is what the factory makes. *)
Definition placed (f : DefaultVariableFactory V) m (s : VariableSpec V) : Prop :=
  exists ref x, variables m !! sp_Name s = Some ref /\ heap m !! ref = Some x /\ Create kind (InitialValue s) (Options s) f = Done (Ok x).

Lemma create_all_spec m0 specs todo : forall made m m' r, specs = made ++ todo -> NoDup (map sp_Name specs) ->
  (forall s, s ∈ specs -> variables m0 !! sp_Name s = None) ->
  (forall k, k ∉ map sp_Name made -> variables m !! k = variables m0 !! k) ->
  factory m = factory m0 -> heap m0 `prefix_of` heap m -> Forall (placed (factory m0) m) made ->
  create_all kind specs todo m = Done (m', r) ->
  heap m0 `prefix_of` heap m' /\
  match r with
  | Some _ => forall k, variables m' !! k = variables m0 !! k
  | None => Forall (placed (factory m0) m') specs /\ forall k, k ∉ map sp_Name specs -> variables m' !! k = variables m0 !! k
  end.
Proof.
  induction todo as [|s todo IH]; intros made m m' r -> Hnd Hfresh Hother Hf Hh Hp; cbn [create_all].
  - intros [= <- <-]. rewrite app_nil_r. by split_and!.
  - rewrite Hf. destruct (Create kind (InitialValue s) (Options s) (factory m0)) as [[x|e]|] eqn:Ec; cbn [mbind outcome_bind]; [..|done].
    + assert (sp_Name s ∉ map sp_Name made) as Hs.
      { rewrite map_app in Hnd. apply NoDup_app in Hnd as (_ & Hnd & _). intros Hs. apply (Hnd _ Hs). apply list_elem_of_here. }
      intros E. apply (IH (made ++ [s]) (put (sp_Name s) x m)); try done; [by rewrite <- app_assoc|..].
      * intros k Hk. rewrite map_app in Hk. apply not_elem_of_app in Hk as [Hk Hk']. cbn in Hk'. cbn.
        apply not_elem_of_cons in Hk' as [Hk' _]. rewrite lookup_insert_ne by done. by apply Hother.
      * cbn. etransitivity; [exact Hh|]. by apply prefix_app_r.
      * apply Forall_app. split.
        -- apply (Forall_impl _ _ _ Hp). intros s' (ref & y & H1 & H2 & H3).
           exists ref, y. cbn. split_and!; try done; [|by apply lookup_app_l_Some].
           destruct (decide (sp_Name s' = sp_Name s)) as [En|En]; [|by rewrite lookup_insert_ne].
           exfalso. assert (variables m !! sp_Name s = None) as Hx; [|congruence].
           rewrite Hother by done. apply Hfresh. apply elem_of_app. right. apply list_elem_of_here.
        -- apply Forall_singleton. exists (length (heap m)), x. cbn. rewrite lookup_insert_eq. split_and!; try done.
           by rewrite lookup_app_r, Nat.sub_diag by lia.
    + intros [= <- <-]. cbn. split; [done|]. intros k. rewrite rollback_lookup.
      * destruct (decide (k ∈ map sp_Name made)) as [Hk|Hk]; [|by apply Hother]. apply list_elem_of_fmap in Hk as (s' & -> & Hs').
        symmetry. apply Hfresh. apply elem_of_app. by left.
      * rewrite map_app in Hnd. apply NoDup_app in Hnd as (_ & Hnd & _). intros Hs. apply (Hnd _ Hs). apply list_elem_of_here.
Qed.

(** C32: A batch creation is all or nothing when its names are distinct: on an
    error the named variables are those from before; on success every
    specification names a fresh variable of the factory's and no other name
    has changed. No variable that existed is touched either way. *)
Theorem CreateBatch_atomic m specs m' r : NoDup (map sp_Name specs) -> CreateBatch kind specs m = Done (m', r) ->
  heap m `prefix_of` heap m' /\
  match r with
  | Some _ => variables m' = variables m
  | None => Forall (placed (factory m) m') specs /\ forall k, k ∉ map sp_Name specs -> variables m' !! k = variables m !! k
  end.
Proof.
  intros Hnd. unfold CreateBatch. destruct (find_existing specs (variables m)) as [n|] eqn:E; [by intros [= <- <-]|].
  intros Ec. pose proof (find_existing_None _ _ E) as Hfresh.
  destruct (create_all_spec m specs specs [] m m' r eq_refl Hnd Hfresh) as [H1 H2]; try done.
  split; [done|]. destruct r; [|done]. by apply map_eq.
Qed.

(** ** Global metrics *)
#[local] Instance existsb_Permutation {A} (P : A -> bool) : Proper (Permutation ==> eq) (existsb P).
Proof.
  intros l k Hp. induction Hp as [|x l k _ IH|x y l|l1 l2 l3 _ IH1 _ IH2]; cbn; [done|by rewrite IH| |by rewrite IH1].
  by destruct (P x), (P y).
Qed.

Lemma sum_metrics_panics (ms : list Metrics) : forall g, AverageLatency g = 0 ->
  if existsb (fun mt => (wrapS 64 (AvgReadLatency mt + AvgWriteLatency mt) =? 0) || negb (bool_decide (MigrationHistory mt = []))) ms
  then sum_metrics ms g = Panic
  else exists g', sum_metrics ms g = Done g' /\ AverageLatency g' = 0 /\ TotalVariables g' = TotalVariables g.
Proof.
  induction ms as [|mt ms IH]; intros g Hg; cbn [existsb sum_metrics]; [by exists g|]. unfold add_metrics.
  destruct (wrapS 64 (AvgReadLatency mt + AvgWriteLatency mt) =? 0) eqn:E; [done|]. cbn [orb].
  destruct (MigrationHistory mt) as [|h l] eqn:Eh; [|by rewrite bool_decide_false].
  rewrite bool_decide_true by done. cbn [negb orb mbind outcome_bind]. rewrite Hg.
  specialize (IH (mkGlobal (TotalVariables g) (wrapS 64 (GMemoryUsage g + MemoryUsage mt))
    (wrapU 64 (TotalOperations g + wrapU 64 (ReadCount mt + WriteCount mt))) 0) eq_refl). apply IH.
Qed.

(** The summary of all metrics panics exactly when a managed variable has no
    measured latency — as every variable without metrics and every one not yet
    accessed — or has a migration on record; otherwise the average latency it
    reports is zero. *)
Theorem GetGlobalMetrics_panics m order : order ≡ₚ managed m ->
  if existsb (fun x => let mt := GetMetrics x in
       (wrapS 64 (AvgReadLatency mt + AvgWriteLatency mt) =? 0) || negb (bool_decide (MigrationHistory mt = []))) (managed m)
  then GetGlobalMetrics order m = Panic
  else exists g, GetGlobalMetrics order m = Done g /\ AverageLatency g = 0 /\ TotalVariables g = Z.of_nat (size (variables m)).
Proof.
  intros Ho. unfold GetGlobalMetrics.
  pose proof (sum_metrics_panics (map GetMetrics order) (mkGlobal (Z.of_nat (size (variables m))) 0 0 0) eq_refl) as H.
  set (bad := fun mt => (wrapS 64 (AvgReadLatency mt + AvgWriteLatency mt) =? 0) || negb (bool_decide (MigrationHistory mt = []))) in *.
  cbn zeta. change (existsb (fun x => (wrapS 64 _ =? 0) || _) (managed m)) with (existsb (fun x => bad (GetMetrics x)) (managed m)).
  assert (existsb bad (map GetMetrics order) = existsb (fun x => bad (GetMetrics x)) (managed m)) as E; [|by rewrite <- E].
  rewrite <- Ho. clear. induction order as [|x order IH]; [done|]. cbn. by rewrite IH.
Qed.
End Batch.

(** ** The goroutine and its races *)
Section Races.
Import AutoOptimization.
Context {V Ty : Type} {GV : GoValue V Ty} (kind : Ty -> Kind).
Implicit Types s : Sys V.

(** The goroutine needs the lock its canceller holds. *)
Definition deadlocked (p : phase) s : Prop :=
  stopping s = true /\ loop s = p /\ match p with Ticked | Swapping _ _ _ => True | _ => False end.

Lemma deadlocked_step p s s' : deadlocked p s -> step kind s s' -> deadlocked p s' /\ variables (mgr s') = variables (mgr s).
Proof.
  intros (Hs & Hl & Hp) Hstep. subst p.
  destruct Hstep; try congruence; try (match goal with E : loop s = _ |- _ => by rewrite E in Hp end); by split; [split_and!|].
Qed.

Lemma deadlocked_forever p s s' : deadlocked p s -> rtc (step kind) s s' -> deadlocked p s' /\ variables (mgr s') = variables (mgr s).
Proof.
  intros Hd Hr. induction Hr as [s|s s1 s2 H1 _ IH]; [done|].
  destruct (deadlocked_step _ _ _ Hd H1) as [Hd1 E]. destruct (IH Hd1) as [Hd2 E2]. split; [done|congruence].
Qed.

(** Disabling the optimization can deadlock: when the ticker fires before
    the call takes the lock, or a migrated variable waits to be swapped in, the
    call waits for a goroutine that waits for the lock, no method of the
    manager runs again and the call never returns. When the goroutine is at
    its select the call can return. *)
Theorem disable_may_deadlock s : autoOptimize (mgr s) = true -> stopping s = false ->
  match loop s with
  | Select =>
      (exists s1 s2, step kind s s1 /\ step kind s1 s2 /\ stopping s2 = true /\
        forall s3, rtc (step kind) s2 s3 -> stopping s3 = true /\ loop s3 = Ticked /\ variables (mgr s3) = variables (mgr s)) /\
      (exists s', rtc (step kind) s s' /\ autoOptimize (mgr s') = false /\ stopping s' = false /\ loop s' = Stopped)
  | Ticked | Swapping _ _ _ =>
      forall s3, rtc (step kind) (DisableAutoOptimization s) s3 -> stopping s3 = true /\ variables (mgr s3) = variables (mgr s)
  | _ => True
  end.
Proof.
  intros Ha Hs. destruct (loop s) eqn:El; try done.
  - split.
    + exists (with_loop Ticked s), (DisableAutoOptimization (with_loop Ticked s)). unfold DisableAutoOptimization. cbn. rewrite Ha. cbn.
      split; [by apply step_tick|]. split.
      { pose proof (step_disable kind (with_loop Ticked s) Hs) as H. unfold DisableAutoOptimization in H. cbn in H. by rewrite Ha in H. }
      split; [done|]. intros s3 Hr. apply (deadlocked_forever Ticked) in Hr as [(H1 & H2 & _) H3]; [done|by split_and!].
    + exists (mkSys (set_auto false (mgr s)) Stopped false true). split; [|done].
      eapply rtc_l; [by apply step_disable|]. unfold DisableAutoOptimization. rewrite Ha, El. cbn.
      eapply rtc_l; [by apply step_done|]. cbn. eapply rtc_l; [by apply step_disabled|]. apply rtc_refl.
  - intros s3 Hr. unfold DisableAutoOptimization in Hr. rewrite Ha in Hr. cbn in Hr.
    apply (deadlocked_forever Ticked) in Hr as [(H1 & H2 & _) H3]; [done|by split_and!].
  - intros s3 Hr. unfold DisableAutoOptimization in Hr. rewrite Ha in Hr. cbn in Hr.
    apply (deadlocked_forever (Swapping name new rest)) in Hr as [(H1 & H2 & _) H3]; [done|by split_and!].
Qed.

(** Examining a variable the analyzer wants elsewhere, with the manager's own
    migrator: the copy is made and waits to be swapped in. *)
Lemma examine_migrates now lats name ref rest s x t y : migrator (mgr s) = Migrate NewVariableFactory ->
  heap (mgr s) !! ref = Some x -> analyzer (mgr s) now x = (true, t) -> (Migrate NewVariableFactory lats x t).2 = Done (Ok y) ->
  let x1 := (Migrate NewVariableFactory lats x t).1 in
  let h := <[ref := x1]> (heap (mgr s)) in
  examine now lats name ref rest s =
    Done (mkSys (set_variables (variables (mgr s)) (h ++ [y]) (mgr s)) (Swapping name (length h) rest) (stopping s) (cancelled s)).
Proof.
  intros Hm Hx Ha Hy. cbn zeta. unfold examine. rewrite Hx, Ha. cbn [negb]. unfold migrate_at. rewrite Hx, Hm.
  destruct (Migrate NewVariableFactory lats x t) as [x1 r]. cbn [snd fst] in *. subst r. cbn. done.
Qed.

(** The optimization races with the users of a variable: between the copy
    and the swap a write through the variable is lost — the name then leads to
    the copy with the old value — and a deleted name comes back. *)
Theorem migration_races s now lats name ref rest x t y x2 lats' value : migrator (mgr s) = Migrate NewVariableFactory ->
  loop s = Working ((name, ref) :: rest) -> stopping s = false ->
  variables (mgr s) !! name = Some ref -> heap (mgr s) !! ref = Some x -> analyzer (mgr s) now x = (true, t) ->
  (Migrate NewVariableFactory lats x t).2 = Done (Ok y) ->
  VarMetrics.Set_ lats' value (Migrate NewVariableFactory lats x t).1 = Done (x2, None) ->
  exists s1, step kind s s1 /\
    (exists s2 s3 new, step kind s1 s2 /\ heap (mgr s2) !! ref = Some x2 /\ step kind s2 s3 /\
      variables (mgr s3) !! name = Some new /\ new <> ref /\ heap (mgr s3) !! new = Some y /\
      v_value (base_var y) = v_value (base_var x)) /\
    (exists s2 s3 new, step kind s1 s2 /\ mgr s2 = (Delete_ name (mgr s1)).1 /\ variables (mgr s2) !! name = None /\ step kind s2 s3 /\
      variables (mgr s3) !! name = Some new).
Proof.
  intros Hm Hl Hs Hv Hx Ha Hy Hw. pose proof (examine_migrates now lats name ref rest s x t y Hm Hx Ha Hy) as He. cbn zeta in He.
  set (h := <[ref := (Migrate NewVariableFactory lats x t).1]> (heap (mgr s))) in He.
  assert (ref < length h)%nat as Hlt by (unfold h; rewrite length_insert; by eapply lookup_lt_Some).
  assert (h !! ref = Some (Migrate NewVariableFactory lats x t).1) as Hr
    by (apply list_lookup_insert_eq; by eapply lookup_lt_Some).
  eexists. split; [eapply step_examine; [exact Hl|exact He]|]. split.
  - eexists _, _, (length h). split; [|split; [|split]].
    + eapply (step_write kind _ ref); [cbn; rewrite lookup_app_l by done; exact Hr|exact Hw].
    + cbn. by rewrite list_lookup_insert_eq by (rewrite length_app; cbn; lia).
    + by apply (step_swap kind _ name (length h) rest).
    + cbn. rewrite lookup_insert_eq. split_and!; [done|lia| |by eapply Migrate_value].
      rewrite list_lookup_insert_ne by lia. by rewrite lookup_app_r, Nat.sub_diag by lia.
  - eexists _, _, (length h). split; [|split; [|split; [|split]]].
    + apply (step_method kind); [exact Hs|apply method_Delete].
    + done.
    + cbn. unfold Delete_. cbn. rewrite Hv. apply lookup_delete_eq.
    + by apply (step_swap kind _ name (length h) rest).
    + cbn. apply lookup_insert_eq.
Qed.
End Races.

(** ** Witnesses *)
#[local] Existing Instance SyncVars.Samples.any_value.
Module Samples.
Import AutoOptimization.
Definition kind_of (ty : nat) : Kind := match ty with 2 => KInt | 3 => KString | _ => KOther end%nat.
Definition x : SyncVariable any := VarMutex (Mutex_Set (Some (AnyInt 7)) (NewMutexVariable (mkConfig "x" 10 3 None StrategyMutex false true 0 ∅))).1.
Definition specs : list (VariableSpec any) :=
  [mkSpec "hp" (Some (AnyInt 1)) [WithMetrics true]; mkSpec "name" (Some (AnyString "a")) []; mkSpec "ro" (Some (AnyInt 1)) [WithPermissions 1]].
(** A manager with one variable whose metrics call for the atomic strategy. *)
Definition hot : SyncVariable any := VarWrapped x (mkMetrics 2000 0 0 100 0 0 0 0 0 0 []).
Definition busy : DefaultVariableManager any :=
  mkManager {["hp" := 0%nat]} [hot] NewVariableFactory (ShouldMigrate DefaultThresholds) (Migrate NewVariableFactory) true.
Definition sys (p : phase) : Sys any := mkSys busy p false false.
End Samples.

Lemma Migrate_correct_witness : GetStorageStrategy_ Samples.x = StrategyMutex /\
  (Migrate NewVariableFactory [] Samples.x StrategyAtomic).2 =
    Done (Ok (VarAtomic (initial (Some (AnyInt 7)) (migrated_config StrategyAtomic Samples.x)))) /\
  v_value (initial (Some (AnyInt 7)) (migrated_config StrategyAtomic Samples.x)) = Some (AnyInt 7).
Proof.
  destruct (Migrate_correct [] Samples.x StrategyAtomic) as (_ & H1 & H2). split; [reflexivity|]. split.
  - etransitivity; [exact H1|]. reflexivity.
  - apply (H2 ltac:(reflexivity)).
Defined.

Lemma CreateBatch_atomic_witness : exists m' e, CreateBatch Samples.kind_of Samples.specs Samples.busy = Done (m', Some e) /\
  variables m' = variables Samples.busy.
Proof.
  assert (match CreateBatch Samples.kind_of Samples.specs Samples.busy with Done (_, Some _) => True | _ => False end) as Hf
    by (vm_compute; exact I).
  destruct (CreateBatch Samples.kind_of Samples.specs Samples.busy) as [[m' [e|]]|] eqn:E; [clear Hf|destruct Hf..].
  exists m', e. split; [reflexivity|].
  exact (proj2 (CreateBatch_atomic Samples.kind_of Samples.busy Samples.specs m' (Some e) ltac:(apply (bool_decide_unpack _); vm_compute; exact I) E)).
Defined.

Lemma GetGlobalMetrics_panics_witness : exists g, GetGlobalMetrics [Samples.hot] Samples.busy = Done g /\ AverageLatency g = 0.
Proof.
  pose proof (GetGlobalMetrics_panics Samples.busy [Samples.hot] ltac:(vm_compute; reflexivity)) as H.
  match type of H with if ?b then _ else _ => assert (b = false) as E by (vm_compute; reflexivity) end.
  rewrite E in H. destruct H as (g & H1 & H2 & _). exists g. split; [exact H1|exact H2].
Defined.

Lemma disable_may_deadlock_witness : exists s, rtc (AutoOptimization.step Samples.kind_of) (Samples.sys AutoOptimization.Select) s /\
  AutoOptimization.stopping s = true /\ AutoOptimization.loop s = AutoOptimization.Ticked.
Proof.
  destruct (disable_may_deadlock Samples.kind_of (Samples.sys AutoOptimization.Select) ltac:(reflexivity) ltac:(reflexivity))
    as [(s1 & s2 & H1 & H2 & _ & H3) _].
  exists s2. split; [eapply rtc_l; [exact H1|]; eapply rtc_l; [exact H2|]; apply rtc_refl|].
  destruct (H3 s2 (rtc_refl _ _)) as (H4 & H5 & _). split; [exact H4|exact H5].
Defined.

Lemma migration_races_witness : exists s1,
  AutoOptimization.step Samples.kind_of (Samples.sys (AutoOptimization.Working [("hp"%string, 0%nat)])) s1 /\
  exists s2 s3 new, AutoOptimization.step Samples.kind_of s1 s2 /\ AutoOptimization.step Samples.kind_of s2 s3 /\
    variables (AutoOptimization.mgr s3) !! "hp"%string = Some new /\ new <> 0%nat.
Proof.
  destruct (migration_races Samples.kind_of (Samples.sys (AutoOptimization.Working [("hp"%string, 0%nat)])) 0 [] "hp" 0%nat [] Samples.hot
    StrategyAtomic (VarAtomic (initial (Some (AnyInt 7)) (migrated_config StrategyAtomic Samples.hot)))
    (match VarMetrics.Set_ [] (Some (AnyInt 8)) (Migrate NewVariableFactory [] Samples.hot StrategyAtomic).1 with Done r => r.1 | Panic => Samples.hot end)
    [] (Some (AnyInt 8)) ltac:(reflexivity) ltac:(reflexivity) ltac:(reflexivity) ltac:(reflexivity) ltac:(reflexivity)
    ltac:(vm_compute; reflexivity) ltac:(vm_compute; reflexivity) ltac:(vm_compute; reflexivity))
    as (s1 & H1 & (s2 & s3 & new & H2 & _ & H3 & H4 & H5 & _) & _).
  exists s1. split; [exact H1|]. exists s2, s3, new. split; [exact H2|]. split; [exact H3|]. split; [exact H4|exact H5].
Defined.

(** With a repeated name the rollback stops early: a failed batch leaves its
    first two variables behind. *)
Lemma rollback_duplicates : match CreateBatch Samples.kind_of
    [mkSpec "hp" (Some (AnyInt 1)) []; mkSpec "mp" (Some (AnyInt 2)) []; mkSpec "hp" (Some (AnyInt 3)) [WithPermissions 1]]
    (NewVariableManager (V := any)) with
  | Done (m', Some _) => List_ m' ≡ₚ ["hp"; "mp"]%string
  | _ => False
  end.
Proof. apply (bool_decide_unpack (_ ≡ₚ _)). vm_compute. exact I. Qed.
