(* ===== verification/Concurrent.v ===== *)
(** * Concurrent helpers ([src/pkg/concurrent], [src/pkg/generic])

    Every helper starts a goroutine per element, at most a number of them at a
    time where a channel serves as semaphore, and waits for all of them. That
    skeleton is the step relation [pstep], over the atomic steps [tstep] of one
    goroutine; the helpers are its instances. The input is what the iterator
    yields ([Iterators.Collect]; [Pull] yields the same elements). *)
From S2P Require Import Prelude.
From Stdlib Require Import ZArith Lia Strings.String.
From stdpp Require Import base tactics list relations numbers strings.
Open Scope Z_scope.

(** ** Goroutines under a semaphore *)
Section Pool.
Context {A L G : Type}.
Variable init : A -> L.                                  (* a goroutine's start *)
Variable tstep : nat -> L -> G -> option (L * G).        (* its atomic steps *)
Variable input : list A.
Variable limit : option Z.                               (* the capacity of [sem] *)

(** A goroutine runs its body, gives back the semaphore, then calls [Done]. *)
Inductive task : Type := Running (l : L) | Released | Finished.
Record pool : Type := mkPool { tasks : list task; sem : Z; shared : G; returned : bool }.
Definition start (g : G) : pool := mkPool [] 0 g false.
Definition set_task (i : nat) (t : task) (p : pool) : pool := mkPool (<[i := t]> (tasks p)) (sem p) (shared p) (returned p).

(** A send to a channel of capacity 0 waits for a receiver; only goroutines
    already started receive. *)
Definition admits (s : Z) : Prop := match limit with None => True | Some n => s < n end.

Inductive pstep (p : pool) : pool -> Prop :=
  | ps_spawn v : returned p = false -> input !! length (tasks p) = Some v -> admits (sem p) ->
      pstep p (mkPool (tasks p ++ [Running (init v)]) (sem p + 1) (shared p) false)
  | ps_run i l l' g : tasks p !! i = Some (Running l) -> tstep i l (shared p) = Some (l', g) ->
      pstep p (mkPool (<[i := Running l']> (tasks p)) (sem p) g (returned p))
  | ps_release i l : tasks p !! i = Some (Running l) -> tstep i l (shared p) = None ->
      pstep p (mkPool (<[i := Released]> (tasks p)) (sem p - 1) (shared p) (returned p))
  | ps_done i : tasks p !! i = Some Released -> pstep p (set_task i Finished p)
  | ps_return : returned p = false -> length (tasks p) = length input -> Forall (fun t => t = Finished) (tasks p) ->
      pstep p (mkPool (tasks p) (sem p) (shared p) true).

(** *** The semaphore *)
Definition is_running (t : task) : bool := match t with Running _ => true | _ => false end.
Definition active (p : pool) : Z := cnt is_running (tasks p).

Record PoolInv (p : pool) : Prop := {
  po_sem : sem p = active p;
  po_limit : match limit with None => True | Some n => active p <= Z.max 0 n end;
  po_spawned : (length (tasks p) <= length input)%nat;
  po_returned : returned p = true -> length (tasks p) = length input /\ Forall (fun t => t = Finished) (tasks p)
}.

Lemma pool_start_inv g : PoolInv (start g).
Proof. constructor; cbn; try done; [destruct limit; [lia|done]|lia]. Qed.

Lemma no_finished_running i (l : list task) t : Forall (fun t => t = Finished) l -> l !! i = Some t -> t = Finished.
Proof. intros H E. by apply (Forall_lookup_1 _ _ _ _ H E). Qed.

Lemma pstep_inv p p' : PoolInv p -> pstep p p' -> PoolInv p'.
Proof.
  intros [H1 H2 H3 H4] Hs. unfold active in *. destruct Hs as [v Hr Hv Ha|i l l' g Hi Ht|i l Hi Ht|i Hi|Hr Hl Hf];
    constructor; cbn [tasks sem shared returned set_task]; unfold active; cbn [tasks set_task];
    rewrite ?length_insert, ?cnt_app; try (rewrite (cnt_insert _ _ _ _ _ Hi)); cbn [cnt is_running];
    try (intros Hr'; destruct (H4 Hr') as [? Hf]; by pose proof (no_finished_running _ _ _ Hf Hi)); try done; try lia.
  - unfold admits in Ha. destruct limit; [lia|done].
  - apply lookup_lt_Some in Hv. rewrite length_app. cbn. lia.
  - destruct limit; lia.
  - destruct limit; lia.
  - destruct limit; lia.
Qed.

Lemma pool_inv_rtc p p' : PoolInv p -> rtc pstep p p' -> PoolInv p'.
Proof. intros H Hr. induction Hr as [|p p1 p2 Hs _ IH]; [done|]. apply IH. by eapply pstep_inv. Qed.

(** *** Progress: with room for one goroutine only a returned pool is stuck *)
Lemma pool_progress p : PoolInv p -> match limit with None => True | Some n => 0 < n end -> returned p = false -> exists p', pstep p p'.
Proof.
  intros [H1 H2 H3 _] Hl Hr.
  destruct (decide (Exists (fun t => is_running t = true) (tasks p))) as [He|He].
  { apply Exists_exists in He as (t & Ht & Hx). apply list_elem_of_lookup in Ht as [i Hi]. destruct t as [l| |]; try done.
    destruct (tstep i l (shared p)) as [[l' g]|] eqn:E; [by eexists; eapply ps_run|by eexists; eapply ps_release]. }
  destruct (decide (Exists (fun t => (match t with Released => true | _ => false end) = true) (tasks p))) as [Hd|Hd].
  { apply Exists_exists in Hd as (t & Ht & Hx). apply list_elem_of_lookup in Ht as [i Hi]. destruct t; try done.
    by eexists; eapply ps_done. }
  assert (Forall (fun t => t = Finished) (tasks p)) as Hf.
  { apply Forall_forall. intros t Ht. destruct t; [exfalso; apply He|exfalso; apply Hd|done]; apply Exists_exists; eexists; (split; [eassumption|done]). }
  assert (active p = 0) as Ha.
  { unfold active. clear -Hf. induction Hf as [|t l -> _ IH]; [done|]. cbn. by rewrite IH. }
  destruct (decide (length (tasks p) = length input)) as [E|E]; [by eexists; eapply ps_return|].
  destruct (lookup_lt_is_Some_2 input (length (tasks p))) as [v Hv]; [lia|].
  eexists. eapply (ps_spawn p v Hr Hv). unfold admits. rewrite H1, Ha. by destruct limit.
Qed.

(** Without room nothing ever starts. *)
Lemma no_room g p : limit = Some 0 -> input <> [] -> rtc pstep (start g) p -> p = start g.
Proof.
  intros Hl Hne Hr. remember (start g) as p0 eqn:E0. revert E0. induction Hr as [|p0 p1 p2 Hs _ _]; [done|]. intros ->.
  exfalso. destruct Hs as [v _ _ Ha|i l l' g' Hi|i l Hi|i Hi|_ Hl' _]; cbn in *; try done.
  - unfold admits in Ha. rewrite Hl in Ha. lia.
  - by destruct input.
Qed.

(** *** Termination: a measure every step lowers *)
Variable size : L -> nat.
Hypothesis tstep_size : forall i l g l' g', tstep i l g = Some (l', g') -> (size l' < size l)%nat.

Definition weight (t : task) : nat := match t with Running l => size l + 2 | Released => 1 | Finished => 0 end.
Definition to_spawn (p : pool) : list A := drop (length (tasks p)) input.
Definition remaining (p : pool) : nat :=
  sum_list_with (fun v => size (init v) + 3)%nat (to_spawn p) + sum_list_with weight (tasks p) + (if returned p then 0 else 1).

Lemma sum_insert (l : list task) i t t' : l !! i = Some t ->
  (sum_list_with weight (<[i := t']> l) + weight t = sum_list_with weight l + weight t')%nat.
Proof.
  revert i. induction l as [|x l IH]; intros [|i] E; try done.
  - injection E as ->. change (<[0%nat := t']> (t :: l)) with (t' :: l). cbn. lia.
  - change (<[S i := t']> (x :: l)) with (x :: <[i := t']> l). specialize (IH i E). cbn. lia.
Qed.

Lemma remaining_step p p' : pstep p p' -> (remaining p' < remaining p)%nat.
Proof.
  intros Hs. unfold remaining, to_spawn. destruct Hs as [v Hr Hv Ha|i l l' g Hi Ht|i l Hi Ht|i Hi|Hr Hl Hf]; cbn [tasks returned set_task].
  - rewrite Hr. rewrite length_app. cbn [length]. rewrite (drop_S _ _ _ Hv). rewrite sum_list_with_app. cbn.
    replace (length (tasks p) + 1)%nat with (S (length (tasks p))) by lia. lia.
  - rewrite length_insert. pose proof (sum_insert _ _ _ (Running l') Hi) as E. cbn in E. apply tstep_size in Ht. lia.
  - rewrite length_insert. pose proof (sum_insert _ _ _ Released Hi) as E. cbn in E. lia.
  - rewrite length_insert. pose proof (sum_insert _ _ _ Finished Hi) as E. cbn in E. lia.
  - rewrite Hr. lia.
Qed.

Lemma sn_measure {X} (R : X -> X -> Prop) (f : X -> nat) : (forall x y, R x y -> (f y < f x)%nat) -> forall x, sn R x.
Proof.
  intros H x. remember (f x) as n eqn:E. revert x E. induction (lt_wf n) as [n _ IH]. intros x ->. constructor.
  intros y Hy. by apply (IH (f y) (H x y Hy)).
Qed.

(** What every helper shares: under any schedule at most [limit] bodies run at
    a time, every run ends, and it ends with the helper returning. *)
Lemma pool_runs g p : match limit with None => True | Some n => 0 < n end -> rtc pstep (start g) p ->
  match limit with None => True | Some n => active p <= n end /\ sn pstep p /\ (nf pstep p -> returned p = true).
Proof.
  intros Hl Hr. pose proof (pool_inv_rtc _ _ (pool_start_inv g) Hr) as Hi. split_and!.
  - pose proof (po_limit _ Hi) as H. destruct limit; [lia|done].
  - apply (sn_measure _ remaining remaining_step).
  - intros Hnf. destruct (returned p) eqn:E; [done|]. exfalso. apply Hnf. destruct (pool_progress p Hi Hl E) as [p' Hp]. by exists p'.
Qed.
End Pool.
Arguments task : clear implicits.
Arguments pool : clear implicits.

(** ** [ParallelMap] and [ParallelFilter]: a slot of the result each

    [make(chan struct{}, n)] panics when [n] is negative. *)
Definition make_sem {X} (n : Z) (x : X) : outcome X := if n <? 0 then Panic else Done x.

Section Slots.
Context {T R : Type} (f : T -> R).
Definition map_step (i : nat) (l : option T) (out : list R) : option (option T * list R) :=
  match l with Some v => Some (None, <[i := f v]> out) | None => None end.
Definition ParallelMap (workers : Z) (zero : R) (input : list T) : outcome (pool (option T) (list R)) :=
  make_sem workers (start (replicate (length input) zero)).

(** What is known while it runs. *)
Record SlotInv (input : list T) (p : pool (option T) (list R)) : Prop := {
  sl_length : length (shared p) = length input;
  sl_slot : forall i v, input !! i = Some v ->
    match tasks p !! i with
    | None => True
    | Some (Running (Some w)) => w = v
    | Some _ => shared p !! i = Some (f v)
    end
}.

Lemma SlotInv_step input limit p p' : SlotInv input p -> pstep Some map_step input limit p p' -> SlotInv input p'.
Proof.
  intros [H1 H2] Hs. destruct Hs as [v Hr Hv Ha|i l l' g Hi Ht|i l Hi Ht|i Hi|Hr Hl Hf]; constructor; cbn; try done.
  - intros j w Hj. specialize (H2 j w Hj). destruct (decide (j < length (tasks p))%nat) as [Hl|Hl].
    + by rewrite lookup_app_l.
    + destruct (decide (j = length (tasks p))) as [->|Hn]; [|by rewrite lookup_ge_None_2 by (rewrite length_app; cbn; lia)].
      rewrite lookup_app_r, Nat.sub_diag by lia. cbn. congruence.
  - destruct l as [w|]; [|done]. injection Ht as <- <-. by rewrite length_insert.
  - destruct l as [w|]; [|done]. injection Ht as <- <-. intros j v Hj. pose proof (H2 j v Hj) as Hjv.
    destruct (decide (j = i)) as [->|Hn].
    + rewrite Hi in Hjv. subst w. rewrite list_lookup_insert_eq by by eapply lookup_lt_Some.
      apply list_lookup_insert_eq. rewrite H1. by eapply lookup_lt_Some.
    + rewrite !list_lookup_insert_ne by done. exact Hjv.
  - destruct l as [w|]; [done|]. intros j v Hj. pose proof (H2 j v Hj) as Hjv. destruct (decide (j = i)) as [->|Hn].
    + rewrite Hi in Hjv. by rewrite list_lookup_insert_eq by by eapply lookup_lt_Some.
    + rewrite list_lookup_insert_ne by done. exact Hjv.
  - intros j v Hj. pose proof (H2 j v Hj) as Hjv. destruct (decide (j = i)) as [->|Hn].
    + rewrite Hi in Hjv. by rewrite list_lookup_insert_eq by by eapply lookup_lt_Some.
    + rewrite list_lookup_insert_ne by done. exact Hjv.
Qed.

Lemma SlotInv_rtc input limit zero p : rtc (pstep Some map_step input limit) (start (replicate (length input) zero)) p -> SlotInv input p.
Proof.
  intros Hr. assert (SlotInv input (start (L := option T) (replicate (length input) zero))) as H0
    by (constructor; [apply length_replicate|done]).
  revert H0. induction Hr as [|p1 p2 p3 Hs _ IH]; [done|]. intros H. apply IH. by eapply SlotInv_step.
Qed.

Lemma slots_returned input limit zero p : rtc (pstep Some map_step input limit) (start (replicate (length input) zero)) p ->
  returned p = true -> shared p = map f input.
Proof.
  intros Hr He. destruct (SlotInv_rtc _ _ _ _ Hr) as [H1 H2].
  destruct (po_returned _ _ _ (pool_inv_rtc _ _ _ _ _ _ (pool_start_inv input limit _) Hr) He) as [Hl Hf].
  apply list_eq. intros i. change (map f input) with (f <$> input). rewrite list_lookup_fmap.
  destruct (input !! i) as [v|] eqn:Ei; cbn.
  - specialize (H2 i v Ei). destruct (tasks p !! i) as [t|] eqn:Et.
    + by rewrite (no_finished_running _ _ _ Hf Et) in H2.
    + apply lookup_lt_Some in Ei. apply lookup_ge_None in Et. lia.
  - apply lookup_ge_None in Ei. apply lookup_ge_None. lia.
Qed.

Lemma map_step_size i l g l' g' : map_step i l g = Some (l', g') ->
  ((match l' with Some _ => 1 | None => 0 end) < (match l with Some _ => 1 | None => 0 end))%nat.
Proof. destruct l; [|done]. intros [= <- _]. lia. Qed.
End Slots.

(** [ParallelFilter] computes a verdict per slot, then keeps in order. *)
Definition keep {T} (input : list T) (res : list bool) : list T :=
  foldl (fun out (vk : T * bool) => if vk.2 then out ++ [vk.1] else out) [] (zip input res).
Definition ParallelFilter {T} (concurrency : Z) (input : list T) : outcome (pool (option T) (list bool)) :=
  ParallelMap concurrency false input.

Lemma keep_filter {T} (f : T -> bool) (input : list T) : keep input (map f input) = List.filter f input.
Proof.
  unfold keep. assert (forall acc, foldl (fun out (vk : T * bool) => if vk.2 then out ++ [vk.1] else out) acc (zip input (map f input)) =
    acc ++ List.filter f input) as H; [|by rewrite H].
  induction input as [|v input IH]; intros acc; cbn; [by rewrite app_nil_r|]. rewrite IH.
  destruct (f v); [by rewrite <- app_assoc|done].
Qed.

(** A slot for each element, filled under any schedule. *)
Definition fills {T R} (f : T -> R) (workers : Z) (input : list T) (p0 : pool (option T) (list R)) : Prop :=
  let steps := pstep Some (map_step f) input (Some workers) in
  (workers = 0 -> input <> [] -> forall p, rtc steps p0 p -> p = p0 /\ returned p = false) /\
  (0 < workers -> forall p, rtc steps p0 p ->
     active p <= workers /\ sn steps p /\ (nf steps p -> returned p = true) /\ (returned p = true -> shared p = map f input)).

Lemma ParallelMap_fills {T R} (f : T -> R) (zero : R) (workers : Z) (input : list T) :
  match ParallelMap workers zero input with Panic => workers < 0 | Done p0 => 0 <= workers /\ fills f workers input p0 end.
Proof.
  unfold ParallelMap, make_sem. destruct (Z.ltb_spec workers 0); [done|]. cbn zeta. split; [done|]. split.
  - intros -> Hne p Hr. by rewrite (no_room _ _ _ _ _ _ eq_refl Hne Hr).
  - intros Hw p Hr. destruct (pool_runs Some (map_step f) input (Some workers) _ (map_step_size f) _ p Hw Hr) as (H1 & H2 & H3).
    split_and!; try done. by eapply slots_returned.
Qed.

(** C17: [ParallelMap] and [ParallelFilter] are the sequential map and filter:
    under every schedule at most [workers] calls run at a time, every run is
    finite and ends with all slots filled in the order of the input; the map
    returns the slots, and the filter's last loop then keeps exactly the
    elements that pass, in order. With no workers and something to do neither
    ever starts a call or returns; a negative number panics. *)
Theorem parallel_map_correct {T R} (f : T -> R) (g : T -> bool) (zero : R) (workers : Z) (input : list T) :
  match ParallelMap workers zero input with
  | Panic => workers < 0
  | Done p0 => 0 <= workers /\
      let steps := pstep Some (map_step f) input (Some workers) in
      (workers = 0 -> input <> [] -> forall p, rtc steps p0 p -> p = p0 /\ returned p = false) /\
      (0 < workers -> forall p, rtc steps p0 p ->
         active p <= workers /\ sn steps p /\ (nf steps p -> returned p = true) /\ (returned p = true -> shared p = map f input))
  end /\
  match ParallelFilter workers input with
  | Panic => workers < 0
  | Done p0 => 0 <= workers /\
      let steps := pstep Some (map_step g) input (Some workers) in
      (workers = 0 -> input <> [] -> forall p, rtc steps p0 p -> p = p0 /\ returned p = false) /\
      (0 < workers -> forall p, rtc steps p0 p ->
         active p <= workers /\ sn steps p /\ (nf steps p -> returned p = true) /\
         (returned p = true -> keep input (shared p) = List.filter g input))
  end.
Proof.
  split.
  - pose proof (ParallelMap_fills f zero workers input) as H. destruct (ParallelMap workers zero input); [exact H|done].
  - unfold ParallelFilter. pose proof (ParallelMap_fills g false workers input) as H.
    destruct (ParallelMap workers false input); [|done]. destruct H as [Hz [H0 H1]]. split; [exact Hz|]. split; [exact H0|].
    intros Hw p Hr. destruct (H1 Hw p Hr) as (A & B & C & D). split_and!; try done.
    intros E. rewrite (D E). apply keep_filter.
Qed.

(** ** The helpers that only call *)
Section Calls.
Context {T U : Type} (action : T -> U -> U).
Definition call_step (i : nat) (l : option T) (u : U) : option (option T * U) :=
  match l with Some v => Some (None, action v u) | None => None end.
Definition run_calls (order : list T) (u : U) : U := foldl (fun u v => action v u) u order.
Definition pending (t : task (option T)) : option T := match t with Running (Some v) => Some v | _ => None end.

Definition CallInv (input : list T) (u0 : U) (p : pool (option T) U) : Prop := exists order,
  order ++ omap pending (tasks p) ≡ₚ take (length (tasks p)) input /\ shared p = run_calls order u0.

Lemma omap_insert (l : list (task (option T))) i t t' : l !! i = Some t ->
  match pending t with Some v => [v] | None => [] end ++ omap pending (<[i := t']> l) ≡ₚ
  match pending t' with Some v => [v] | None => [] end ++ omap pending l.
Proof.
  revert i. induction l as [|x l IH]; intros [|i] E; try done.
  - injection E as ->. change (<[0%nat := t']> (t :: l)) with (t' :: l). cbn.
    destruct (pending t), (pending t'); cbn; try done. apply Permutation_swap.
  - change (<[S i := t']> (x :: l)) with (x :: <[i := t']> l). specialize (IH i E). cbn. destruct (pending x) as [y|]; [|exact IH].
    rewrite <- !Permutation_middle. by constructor.
Qed.

Lemma CallInv_step input limit u0 p p' : CallInv input u0 p -> pstep Some call_step input limit p p' -> CallInv input u0 p'.
Proof.
  intros (order & H1 & H2) Hs. destruct Hs as [v Hr Hv Ha|i l l' g Hi Ht|i l Hi Ht|i Hi|Hr Hl Hf]; unfold CallInv; cbn.
  - exists order. split; [|done]. rewrite omap_app, length_app. cbn [length]. rewrite Nat.add_1_r.
    rewrite (take_S_r _ _ _ Hv), <- H1. cbn. by rewrite app_assoc.
  - destruct l as [w|]; [|done]. injection Ht as <- <-. exists (order ++ [w]). rewrite length_insert. split.
    + pose proof (omap_insert _ _ _ (Running None) Hi) as E. cbn in E. rewrite <- H1, <- app_assoc. cbn. by rewrite E.
    + rewrite H2. unfold run_calls. by rewrite foldl_app.
  - destruct l as [w|]; [done|]. exists order. rewrite length_insert. split; [|done].
    pose proof (omap_insert _ _ _ Released Hi) as E. cbn in E. by rewrite E.
  - exists order. rewrite length_insert. split; [|done]. pose proof (omap_insert _ _ _ Finished Hi) as E. cbn in E. by rewrite E.
  - by exists order.
Qed.

Lemma calls_returned input limit u0 p : rtc (pstep Some call_step input limit) (start u0) p -> returned p = true ->
  exists order, order ≡ₚ input /\ shared p = run_calls order u0.
Proof.
  intros Hr He. destruct (po_returned _ _ _ (pool_inv_rtc _ _ _ _ _ _ (pool_start_inv input limit _) Hr) He) as [Hl Hf].
  assert (CallInv input u0 p) as (order & H1 & H2).
  { assert (CallInv input u0 (start (L := option T) u0)) as H0 by (exists []; by split).
    clear He Hl Hf. revert H0. induction Hr as [|p1 p2 p3 Hs _ IH]; [done|]. intros H. apply IH. by eapply CallInv_step. }
  exists order. split; [|done]. rewrite Hl, firstn_all in H1. rewrite <- H1.
  assert (omap pending (tasks p) = []) as ->; [|by rewrite app_nil_r].
  clear -Hf. induction Hf as [|t l -> _ IH]; [done|]. exact IH.
Qed.

Lemma call_step_size i l g l' g' : call_step i l g = Some (l', g') ->
  ((match l' with Some _ => 1 | None => 0 end) < (match l with Some _ => 1 | None => 0 end))%nat.
Proof. destruct l; [|done]. intros [= <- _]. lia. Qed.

(** [ParallelMust] starts them all; [Throttle] has a semaphore. *)
Definition ParallelMust (u : U) : pool (option T) U := start u.
Definition Throttle (concurrency : Z) (u : U) : outcome (pool (option T) U) := make_sem concurrency (start u).
End Calls.

(** The errors of [ParallelMute]'s actions are ignored. *)
Definition ParallelMute {T U E} (action : T -> U -> U * option E) : T -> U -> U := fun v u => (action v u).1.
(** [FanOut]: every handler on every element. *)
Definition fan_out {T U} (handlers : list (T -> U -> U)) (input : list T) : list ((T -> U -> U) * T) :=
  flat_map (fun v => map (fun h => (h, v)) handlers) input.
Definition FanOut {T U} (hv : (T -> U -> U) * T) (u : U) : U := hv.1 hv.2 u.

(** Every element is handled exactly once: [ParallelMust] (and with it
    [ParallelMute], [FanOut], [Batch] and [Race]) and [Throttle] return under
    every schedule, after running the action once for each element in some
    order; [Throttle] never runs more than [concurrency] at a time. *)
Theorem calls_once {T U} (action : T -> U -> U) (input : list T) (limit : option Z) (u0 : U) p :
  match limit with None => True | Some n => 0 < n end ->
  let steps := pstep Some (call_step action) input limit in
  rtc steps (ParallelMust u0) p ->
  match limit with None => True | Some n => active p <= n end /\ sn steps p /\ (nf steps p -> returned p = true) /\
  (returned p = true -> exists order, order ≡ₚ input /\ shared p = run_calls action order u0).
Proof.
  intros Hl steps Hr. destruct (pool_runs Some (call_step action) input limit _ (call_step_size action) _ p Hl Hr) as (H1 & H2 & H3).
  split_and!; try done. by eapply calls_returned.
Qed.

(** ** [Race], [Concurrent] and [Batch]: calls with a result *)
Section Race.
Context {T R : Type} (resultFn : T -> option R).
(** [once.Do]: the first success is kept. *)
Definition race_action (v : T) (result : option R) : option R :=
  match result, resultFn v with
  | None, Some r => Some r
  | _, _ => result
  end.

Lemma run_race order : run_calls race_action order None = None /\ (forall v, v ∈ order -> resultFn v = None) \/
  exists v r, v ∈ order /\ resultFn v = Some r /\ run_calls race_action order None = Some r.
Proof.
  induction order as [|w order IH] using rev_ind; [by left; split; [|intros v Hv; apply not_elem_of_nil in Hv]|].
  unfold run_calls in *. rewrite foldl_app. cbn. destruct IH as [[IH Hn]|(v & r & Hv & Hr & IH)]; rewrite IH; cbn.
  - destruct (resultFn w) as [r|] eqn:E.
    + right. exists w, r. split_and!; try done. apply elem_of_app. right. by apply list_elem_of_singleton.
    + left. split; [done|]. intros v [Hv|Hv%list_elem_of_singleton]%elem_of_app; [by apply Hn|by subst].
  - right. exists v, r. split_and!; try done. apply elem_of_app. by left.
Qed.

(** [Race] finds a result exactly when some element has one, and then it is
    the result of one of them. *)
Theorem race_correct (input : list T) p :
  rtc (pstep Some (call_step race_action) input None) (ParallelMust None) p -> returned p = true ->
  match shared p with
  | Some r => exists v, v ∈ input /\ resultFn v = Some r
  | None => forall v, v ∈ input -> resultFn v = None
  end.
Proof.
  intros Hr He. destruct (calls_returned _ _ _ _ _ Hr He) as (order & Ho & ->).
  destruct (run_race order) as [[-> H]|(v & r & Hv & Hr' & ->)].
  - intros v Hv. apply H. by rewrite Ho.
  - exists v. by rewrite <- Ho.
Qed.
End Race.

(** [Concurrent]: an error group, which returns the first error that is not
    nil, in the order the calls return. *)
Section Group.
Context {T U E : Type} (action : T -> U -> U * option E).
Definition group_action (v : T) (s : U * option E) : U * option E :=
  let '(u, err) := action v s.1 in (u, match s.2 with Some e => Some e | None => err end).
Definition Concurrent (u : U) : pool (option T) (U * option E) := start (u, None).
End Group.

(** The slices [in[idx:end]] of [Batch], with fuel for its loop. *)
Fixpoint chunks {T} (fuel : nat) (batchSize idx : Z) (input : list T) : option (outcome (list (list T))) :=
  if negb (idx <? Z.of_nat (length input)) then Some (Done [])
  else match fuel with
       | O => None
       | S fuel =>
           let stop := if Z.of_nat (length input) <? idx + batchSize then Z.of_nat (length input) else idx + batchSize in
           if stop <? idx then Some Panic
           else
             match chunks fuel batchSize (idx + batchSize) input with
             | Some (Done cs) => Some (Done (take (Z.to_nat (stop - idx)) (drop (Z.to_nat idx) input) :: cs))
             | r => r
             end
       end.

Lemma chunks_from {T} (batchSize : Z) (input : list T) fuel : forall idx, 0 < batchSize -> 0 <= idx ->
  Z.of_nat (length input) - idx <= Z.of_nat fuel ->
  exists cs, chunks fuel batchSize idx input = Some (Done cs) /\ concat cs = drop (Z.to_nat idx) input /\
    Forall (fun c => (0 < Z.of_nat (length c) <= batchSize)) cs /\
    forall i c, cs !! i = Some c -> (S i < length cs)%nat -> Z.of_nat (length c) = batchSize.
Proof.
  induction fuel as [|fuel IH]; intros idx Hb Hi Hf; cbn [chunks]; destruct (Z.ltb_spec idx (Z.of_nat (length input))) as [Hl|Hl];
    cbn [negb]; try lia; try (exists []; rewrite drop_ge by lia; by repeat split).
  set (stop := if Z.of_nat (length input) <? idx + batchSize then Z.of_nat (length input) else idx + batchSize).
  assert (idx < stop <= Z.of_nat (length input) /\ stop <= idx + batchSize /\ (stop < Z.of_nat (length input) -> stop = idx + batchSize) /\
    (stop = idx + batchSize \/ stop = Z.of_nat (length input))) as (H1 & H2 & H3 & H4)
    by (unfold stop; destruct (Z.ltb_spec (Z.of_nat (length input)) (idx + batchSize)); lia).
  rewrite (proj2 (Z.ltb_ge stop idx)) by lia. destruct (IH (idx + batchSize) Hb ltac:(lia) ltac:(lia)) as (cs & -> & Hc & Hs & He).
  eexists. split; [done|]. assert (length (take (Z.to_nat (stop - idx)) (drop (Z.to_nat idx) input)) = Z.to_nat (stop - idx)) as Hlen
    by (rewrite length_take, length_drop; lia).
  split_and!.
  - cbn. rewrite Hc. assert (drop (Z.to_nat (idx + batchSize)) input = drop (Z.to_nat (stop - idx)) (drop (Z.to_nat idx) input)) as ->;
      [|apply take_drop]. rewrite drop_drop. destruct H4 as [H4|H4]; rewrite H4; [f_equal; lia|]. rewrite !drop_ge by lia. done.
  - constructor; [|exact Hs]. rewrite Hlen. lia.
  - intros [|i] c E Hn; [|by apply (He i c E); cbn in Hn; lia]. injection E as <-. rewrite Hlen.
    assert (cs <> []) as Hne by (intros ->; cbn in Hn; lia).
    assert (idx + batchSize < Z.of_nat (length input)); [|lia].
    destruct (Z.lt_ge_cases (idx + batchSize) (Z.of_nat (length input))) as [?|Hge]; [done|]. exfalso.
    rewrite drop_ge in Hc by lia. destruct cs as [|c cs]; [done|]. apply Forall_inv in Hs. destruct c; cbn in *; [lia|done].
Qed.

(** [Batch] cuts the input into consecutive chunks, all of the batch size
    but the last; with a batch size of 0 it starts goroutines without end, and
    a negative one panics. *)
Theorem Batch_chunks {T} (batchSize : Z) (input : list T) :
  (0 < batchSize -> exists cs, chunks (length input) batchSize 0 input = Some (Done cs) /\ concat cs = input /\
    Forall (fun c => 0 < Z.of_nat (length c) <= batchSize) cs /\
    forall i c, cs !! i = Some c -> (S i < length cs)%nat -> Z.of_nat (length c) = batchSize) /\
  (batchSize = 0 -> input <> [] -> forall fuel, chunks fuel batchSize 0 input = None) /\
  (batchSize < 0 -> input <> [] -> forall fuel, chunks (S fuel) batchSize 0 input = Some Panic).
Proof.
  split; [|split].
  - intros Hb. apply (chunks_from batchSize input (length input) 0 Hb); lia.
  - intros -> Hne fuel. assert (0 < Z.of_nat (length input)) as Hp by (destruct input; cbn; [done|lia]).
    induction fuel as [|fuel IH]; cbn [chunks]; rewrite (proj2 (Z.ltb_lt _ _) Hp); [done|]. cbn [negb Z.add].
    change (0 + 0) with 0. rewrite (proj2 (Z.ltb_ge (Z.of_nat (length input)) 0)) by lia. cbn. by rewrite IH.
  - intros Hb Hne fuel. assert (0 < Z.of_nat (length input)) as Hp by (destruct input; cbn; [done|lia]).
    cbn [chunks]. rewrite (proj2 (Z.ltb_lt _ _) Hp). cbn [negb]. rewrite (proj2 (Z.ltb_ge _ (0 + batchSize))) by lia.
    by rewrite (proj2 (Z.ltb_lt _ _)) by lia.
Qed.

(** ** [Merge]: a goroutine per channel forwards what it receives

    [chs] holds what each channel delivers until it is closed; what the
    receiver of the output got is recorded with the channel it came from. *)
Section Merge.
Context {T : Type}.
Definition merge_step (i : nat) (ch : list T) (out : list (nat * T)) : option (list T * list (nat * T)) :=
  match ch with [] => None | v :: ch => Some (ch, out ++ [(i, v)]) end.
Definition Merge : pool (list T) (list (nat * T)) := start [].
Definition of_channel (i : nat) (out : list (nat * T)) : list T := (filter (fun kv => kv.1 = i) out).*2.

Definition MergeInv (chs : list (list T)) (p : pool (list T) (list (nat * T))) : Prop := forall i ch, chs !! i = Some ch ->
  match tasks p !! i with
  | None => of_channel i (shared p) = []
  | Some (Running rest) => of_channel i (shared p) ++ rest = ch
  | Some _ => of_channel i (shared p) = ch
  end.

Lemma of_channel_snoc i j v out : of_channel i (out ++ [(j, v)]) = of_channel i out ++ (if decide (j = i) then [v] else []).
Proof. unfold of_channel. rewrite list.filter_app, fmap_app. f_equal. rewrite filter_cons. cbn. by case_decide. Qed.

Lemma MergeInv_step chs limit p p' : MergeInv chs p -> pstep (fun ch => ch) merge_step chs limit p p' -> MergeInv chs p'.
Proof.
  intros H Hs. destruct Hs as [v Hr Hv Ha|i l l' g Hi Ht|i l Hi Ht|i Hi|Hr Hl Hf]; intros j ch Hj; cbn [tasks shared set_task]; pose proof (H j ch Hj) as Hjc; try done.
  - destruct (decide (j < length (tasks p))%nat) as [Hl|Hl]; [by rewrite lookup_app_l|].
    rewrite lookup_ge_None_2 in Hjc by lia. destruct (decide (j = length (tasks p))) as [->|Hn].
    + rewrite lookup_app_r, Nat.sub_diag by lia. rewrite Hjc. cbn. congruence.
    + by rewrite lookup_ge_None_2 by (rewrite length_app; cbn; lia).
  - destruct l as [|v l]; [done|]. injection Ht as <- <-. rewrite of_channel_snoc. destruct (decide (j = i)) as [->|Hn].
    + rewrite Hi in Hjc. rewrite list_lookup_insert_eq by by eapply lookup_lt_Some. rewrite decide_True by done. by rewrite <- app_assoc.
    + rewrite list_lookup_insert_ne by done. rewrite decide_False by congruence. by rewrite app_nil_r.
  - destruct l as [|v l]; [|done]. destruct (decide (j = i)) as [->|Hn].
    + rewrite Hi in Hjc. rewrite list_lookup_insert_eq by by eapply lookup_lt_Some. by rewrite app_nil_r in Hjc.
    + by rewrite list_lookup_insert_ne.
  - destruct (decide (j = i)) as [->|Hn].
    + rewrite Hi in Hjc. by rewrite list_lookup_insert_eq by by eapply lookup_lt_Some.
    + by rewrite list_lookup_insert_ne.
Qed.

Lemma merge_step_size i l g l' g' : merge_step i l g = Some (l', g') -> (length l' < length l)%nat.
Proof. destruct l; [done|]. intros [= <- _]. cbn. lia. Qed.

(** [Merge] forwards everything, once and in order: while its receiver goes
    on, every run ends with the output closed, and then the receiver has got
    from every channel exactly its values in their order. *)
Theorem merge_correct (chs : list (list T)) p : rtc (pstep (fun ch => ch) merge_step chs None) Merge p ->
  sn (pstep (fun ch => ch) merge_step chs None) p /\
  (nf (pstep (fun ch => ch) merge_step chs None) p -> returned p = true) /\
  (returned p = true -> forall i ch, chs !! i = Some ch -> of_channel i (shared p) = ch).
Proof.
  intros Hr. destruct (pool_runs _ merge_step chs None _ merge_step_size _ p I Hr) as (_ & H1 & H2). split_and!; try done.
  intros He. destruct (po_returned _ _ _ (pool_inv_rtc _ _ _ _ _ _ (pool_start_inv chs None _) Hr) He) as [Hl Hf].
  assert (MergeInv chs p) as Hm.
  { assert (MergeInv chs Merge) as H0 by (intros i ch _; done). clear He Hl Hf H1 H2. revert H0.
    induction Hr as [|p1 p2 p3 Hs _ IH]; [done|]. intros H. apply IH. by eapply MergeInv_step. }
  intros i ch Hi. specialize (Hm i ch Hi). destruct (tasks p !! i) as [t|] eqn:Et.
  - by rewrite (no_finished_running _ _ _ Hf Et) in Hm.
  - apply lookup_lt_Some in Hi. apply lookup_ge_None in Et. lia.
Qed.
End Merge.

(** ** [Pipeline]

    [X] is the interface type the functions pass on; [as_R] is the assertion to
    the result type. The flag [stopped] is a plain variable all goroutines
    read and write. *)
Inductive PipelineErrorMode : Type := StopAllOnError | StopElementOnError | IgnoreErrors.

Section Pipeline.
Context {T X R E : Type} (of_T : T -> X) (as_R : X -> option R) (zero : R).
Context (mode : PipelineErrorMode) (pipeFns : list (X -> bool -> result E X)).
Abbreviation fns_ := (list (X -> bool -> result E X)).

Record pipe_shared : Type := mkShared { out : list R; errList : list (option E); stopped : bool }.
(** Before the test of [stopped]; before the call; before [stopAll.Do]; before
    the last test; returned. *)
Inductive pipe_local : Type :=
  | PLoop (cur : X) (valid : bool) (fns : fns_)
  | PCall (cur : X) (valid : bool) (fn : X -> bool -> result E X) (fns : fns_)
  | PStop
  | PEnd (cur : X) (valid : bool)
  | PExit.
Definition pipe_start (v : T) : pipe_local := PLoop (of_T v) true pipeFns.
Definition pipe_step (i : nat) (l : pipe_local) (g : pipe_shared) : option (pipe_local * pipe_shared) :=
  match l with
  | PLoop cur valid [] => Some (PEnd cur valid, g)
  | PLoop cur valid (fn :: fns) => Some (if stopped g then PExit else PCall cur valid fn fns, g)
  | PCall cur valid fn fns =>
      match fn cur valid with
      | Err e =>
          let g := mkShared (out g) (<[i := Some e]> (errList g)) (stopped g) in
          Some (match mode with
                | StopAllOnError => PStop
                | StopElementOnError => PExit
                | IgnoreErrors => PLoop cur false fns
                end, g)
      | Ok res => Some (PLoop res valid fns, g)
      end
  | PStop => Some (PExit, mkShared (out g) (errList g) true)
  | PEnd cur valid =>
      Some (PExit, if negb (stopped g) && valid then
                     match as_R cur with Some r => mkShared (<[i := r]> (out g)) (errList g) (stopped g) | None => g end
                   else g)
  | PExit => None
  end.
Definition Pipeline (concurrency : Z) (input : list T) : outcome (pool pipe_local pipe_shared) :=
  make_sem concurrency (start (mkShared (replicate (length input) zero) (replicate (length input) None) false)).

(** One element alone: the value at the end, whether it is valid, the error. *)
Fixpoint eval (fns : fns_) (cur : X) (valid : bool) (err : option E) : option X * bool * option E :=
  match fns with
  | [] => (Some cur, valid, err)
  | fn :: fns =>
      match fn cur valid with
      | Err e => match mode with IgnoreErrors => eval fns cur false (Some e) | _ => (None, false, Some e) end
      | Ok res => eval fns res valid err
      end
  end.
Definition eval_element (v : T) : option X * bool * option E := eval pipeFns (of_T v) true None.
Definition value_of (ev : option X * bool * option E) : R :=
  match ev with (Some cur, true, _) => default zero (as_R cur) | _ => zero end.
Definition result_of (v : T) : R := value_of (eval_element v).
Definition error_of (v : T) : option E := (eval_element v).2.

(** What is known of an element's slots [o], [err] in a local state. *)
Definition element_ok (v : T) (st : bool) (l : pipe_local) (o : R) (err : option E) : Prop :=
  match l with
  | PLoop cur valid fns => eval_element v = eval fns cur valid err /\ o = zero /\ (mode = StopAllOnError -> err = None)
  | PCall cur valid fn fns => eval_element v = eval (fn :: fns) cur valid err /\ o = zero /\ (mode = StopAllOnError -> err = None)
  | PEnd cur valid => eval_element v = (Some cur, valid, err) /\ o = zero /\ (mode = StopAllOnError -> err = None)
  | PStop => eval_element v = (None, false, err) /\ o = zero /\ mode = StopAllOnError /\ err <> None
  | PExit => o = result_of v /\ err = error_of v \/ st = true /\ o = zero /\ err = None
  end.

Record PipeInv (input : list T) (p : pool pipe_local pipe_shared) : Prop := {
  pi_out : length (out (shared p)) = length input;
  pi_err : length (errList (shared p)) = length input;
  pi_stopped : stopped (shared p) = true -> mode = StopAllOnError /\ exists i e, errList (shared p) !! i = Some (Some e);
  pi_element : forall i v o err, input !! i = Some v -> out (shared p) !! i = Some o -> errList (shared p) !! i = Some err ->
    match tasks p !! i with
    | None => o = zero /\ err = None
    | Some (Running l) => element_ok v (stopped (shared p)) l o err
    | Some _ => element_ok v (stopped (shared p)) PExit o err
    end
}.

Lemma element_stops v l o err : element_ok v false l o err -> element_ok v true l o err.
Proof. destruct l; cbn; try done. intros [?|(? & _)]; [by left|done]. Qed.

(** One atomic step of a goroutine, seen by its own element. *)
Lemma pipe_step_element i v l l' g g' o err : pipe_step i l g = Some (l', g') ->
  out g !! i = Some o -> errList g !! i = Some err -> (stopped g = true -> mode = StopAllOnError) ->
  element_ok v (stopped g) l o err ->
  exists o' err', out g' = <[i := o']> (out g) /\ errList g' = <[i := err']> (errList g) /\ element_ok v (stopped g') l' o' err' /\
    (is_Some err -> is_Some err') /\ (stopped g' = stopped g \/ stopped g' = true /\ mode = StopAllOnError /\ is_Some err').
Proof.
  intros Hs Ho He Hm Hok. assert (out g = <[i := o]> (out g)) as Eo by by rewrite list_insert_id.
  assert (errList g = <[i := err]> (errList g)) as Ee by by rewrite list_insert_id.
  destruct l as [cur valid [|fn fns]|cur valid fn fns| |cur valid|]; cbn in Hs; [..|done].
  - injection Hs as <- <-. exists o, err. by split_and!; [| |exact Hok| |left].
  - injection Hs as <- <-. exists o, err. split_and!; [done|done| |done|by left]. destruct (stopped g) eqn:Es; [|exact Hok].
    right. destruct Hok as (_ & H2 & H3). split_and!; [done|done|]. by apply H3, Hm.
  - destruct Hok as (H1 & H2 & H3). cbn [eval] in H1. destruct (fn cur valid) as [res|e]; injection Hs as <- <-.
    + exists o, err. by split_and!; [| | | |left].
    + exists o, (Some e). cbn. split_and!; [done|done| |done|by left]. destruct mode eqn:Em; cbn.
      * by split_and!; [| |rewrite ?Em|].
      * left. unfold result_of, error_of. rewrite H1. by split.
      * split_and!; [done|done|]. by rewrite Em.
  - injection Hs as <- <-. destruct Hok as (H1 & H2 & H3 & H4). exists o, err. cbn. split_and!; [done|done| |done|].
    + left. unfold result_of, error_of. rewrite H1. by split.
    + right. split_and!; try done. by destruct err; [eexists|].
  - injection Hs as <- <-. destruct Hok as (H1 & H2 & H3). unfold element_ok, result_of, error_of. rewrite H1. cbn [value_of snd].
    destruct (stopped g) eqn:Es; cbn [negb andb].
    { exists o, err. rewrite ?Es. split_and!; [done|done| |done|by left]. right. split_and!; [done|done|]. by apply H3, Hm. }
    destruct valid.
    + destruct (as_R cur) as [r|] eqn:Ea; cbn [out errList stopped].
      * exists r, err. rewrite ?Es. by split_and!; [| |left| |left].
      * exists o, err. rewrite ?Es. split_and!; [done|done| |done|by left]. by left.
    + exists o, err. rewrite ?Es. split_and!; [done|done| |done|by left]. by left.
Qed.

(** A step changes the task of one element and nothing else. *)
Lemma PipeInv_move input p i t t' g sm rt : PipeInv input p -> tasks p !! i = Some t ->
  (forall v o err, input !! i = Some v -> out (shared p) !! i = Some o -> errList (shared p) !! i = Some err ->
     match t with Running l => element_ok v (stopped (shared p)) l o err | _ => element_ok v (stopped (shared p)) PExit o err end ->
     exists o' err', out g = <[i := o']> (out (shared p)) /\ errList g = <[i := err']> (errList (shared p)) /\
       match t' with Running l => element_ok v (stopped g) l o' err' | _ => element_ok v (stopped g) PExit o' err' end /\
       (is_Some err -> is_Some err') /\
       (stopped g = stopped (shared p) \/ stopped g = true /\ mode = StopAllOnError /\ is_Some err')) ->
  (i < length input)%nat ->
  PipeInv input (mkPool (<[i := t']> (tasks p)) sm g rt).
Proof.
  intros [H1 H2 H3 H4] Ht Hmove Hlt. destruct (lookup_lt_is_Some_2 input i Hlt) as [v Hv].
  destruct (lookup_lt_is_Some_2 (out (shared p)) i) as [o Ho]; [lia|].
  destruct (lookup_lt_is_Some_2 (errList (shared p)) i) as [err He]; [lia|].
  pose proof (H4 i v o err Hv Ho He) as Hok. rewrite Ht in Hok.
  destruct (Hmove v o err Hv Ho He) as (o' & err' & Eo & Ee & Hok' & Hkeep & Hstop); [by destruct t|].
  constructor; cbn [shared tasks].
  - by rewrite Eo, length_insert.
  - by rewrite Ee, length_insert.
  - rewrite Ee. intros Hs. destruct Hstop as [Hstop|(_ & Hm & [e ->])].
    + rewrite Hstop in Hs. destruct (H3 Hs) as (Hm & j & e & Hj). split; [done|]. destruct (decide (j = i)) as [->|Hn].
      * rewrite He in Hj. injection Hj as ->. destruct Hkeep as [e' ->]; [by eexists|]. exists i, e'. apply list_lookup_insert_eq. lia.
      * exists j, e. by rewrite list_lookup_insert_ne.
    + split; [done|]. exists i, e. apply list_lookup_insert_eq. lia.
  - intros j w o1 err1 Hj Ho1 He1. rewrite Eo in Ho1. rewrite Ee in He1. destruct (decide (j = i)) as [->|Hn].
    + rewrite list_lookup_insert_eq in Ho1 by lia. rewrite list_lookup_insert_eq in He1 by lia. injection Ho1 as <-. injection He1 as <-.
      rewrite list_lookup_insert_eq by by eapply lookup_lt_Some. rewrite Hv in Hj. injection Hj as <-. by destruct t'.
    + rewrite list_lookup_insert_ne in Ho1 by done. rewrite list_lookup_insert_ne in He1 by done. rewrite list_lookup_insert_ne by done.
      specialize (H4 j w o1 err1 Hj Ho1 He1).
      assert (stopped g = stopped (shared p) \/ stopped g = true) as [->| ->] by tauto; [exact H4|].
      destruct (tasks p !! j) as [[l| |]|]; try exact H4; destruct (stopped (shared p)); try exact H4; by apply element_stops.
Qed.

Lemma spawned_in_range limit (input : list T) (p : pool pipe_local pipe_shared) i t : PoolInv input limit p -> tasks p !! i = Some t ->
  (i < length input)%nat.
Proof. intros H Ht. apply lookup_lt_Some in Ht. pose proof (po_spawned _ _ _ H). lia. Qed.

Lemma PipeInv_step limit input p p' : PoolInv input limit p -> PipeInv input p -> pstep pipe_start pipe_step input limit p p' -> PipeInv input p'.
Proof.
  intros Hp H Hs. destruct Hs as [v Hr Hv Ha|i l l' g Hi Ht|i l Hi Ht|i Hi|Hr Hl Hf].
  - destruct H as [H1 H2 H3 H4]. constructor; cbn [shared tasks]; try done. intros j w o err Hj Ho He. specialize (H4 j w o err Hj Ho He).
    destruct (decide (j < length (tasks p))%nat) as [Hl|Hl]; [by rewrite lookup_app_l|].
    rewrite lookup_ge_None_2 in H4 by lia. destruct H4 as [-> ->]. destruct (decide (j = length (tasks p))) as [->|Hn].
    + rewrite lookup_app_r, Nat.sub_diag by lia. cbn. rewrite Hv in Hj. injection Hj as <-. by split_and!.
    + by rewrite lookup_ge_None_2 by (rewrite length_app; cbn; lia).
  - apply (PipeInv_move input p i (Running l)); [done|done| |by eapply spawned_in_range].
    intros v o err _ Ho He Hok. apply (pipe_step_element i v l l' (shared p) g o err Ht Ho He); [|exact Hok]. intros Hst. by apply (pi_stopped _ _ H).
  - apply (PipeInv_move input p i (Running l)); [done|done| |by eapply spawned_in_range].
    intros v o err _ Ho He Hok. exists o, err. rewrite !list_insert_id by done. split_and!; try done; [|by left].
    destruct l as [cur valid [|fn fns]|cur valid fn fns| |cur valid|]; cbn in Ht; try done. by destruct (fn cur valid).
  - apply (PipeInv_move input p i Released); [done|done| |by eapply spawned_in_range].
    intros v o err _ Ho He Hok. exists o, err. rewrite !list_insert_id by done. split_and!; try done. by left.
  - destruct H as [H1 H2 H3 H4]. by constructor.
Qed.

Lemma PipeInv_rtc limit input p :
  rtc (pstep pipe_start pipe_step input limit) (start (mkShared (replicate (length input) zero) (replicate (length input) None) false)) p ->
  PipeInv input p.
Proof.
  set (g := mkShared (replicate (length input) zero) (replicate (length input) None) false). intros Hr.
  assert (PoolInv input limit (start (L := pipe_local) g)) as Hp by apply pool_start_inv.
  assert (PipeInv input (start g)) as H0.
  { constructor; cbn [shared start g out errList stopped tasks]; rewrite ?length_replicate; try done. intros i v o err Hi Ho He.
    rewrite lookup_nil. apply lookup_replicate_1 in Ho as [-> _]. by apply lookup_replicate_1 in He as [-> _]. }
  revert Hp H0. clearbody g. induction Hr as [|p1 p2 p3 Hs _ IH]; [done|]. intros Hp H.
  apply IH; [by eapply pstep_inv|by eapply PipeInv_step].
Qed.

Definition pipe_size (l : pipe_local) : nat :=
  match l with
  | PLoop _ _ fns => 2 * length fns + 3
  | PCall _ _ _ fns => 2 * length fns + 4
  | PStop | PEnd _ _ => 2
  | PExit => 0
  end.
Lemma pipe_step_size i l g l' g' : pipe_step i l g = Some (l', g') -> (pipe_size l' < pipe_size l)%nat.
Proof.
  destruct l as [cur valid [|fn fns]|cur valid fn fns| |cur valid|]; cbn.
  - intros [= <- _]. cbn. lia.
  - destruct (stopped g); intros [= <- _]; cbn; lia.
  - destruct (fn cur valid); [intros [= <- _]; cbn; lia|]. destruct mode; intros [= <- _]; cbn; lia.
  - intros [= <- _]. cbn. lia.
  - intros [= <- _]. cbn. lia.
  - done.
Qed.

(** The slots of a returned pipeline. *)
Lemma pipeline_slots limit input p i v : PoolInv input limit p -> PipeInv input p -> returned p = true -> input !! i = Some v ->
  exists o err, out (shared p) !! i = Some o /\ errList (shared p) !! i = Some err /\
    (o = result_of v /\ err = error_of v \/ stopped (shared p) = true /\ o = zero /\ err = None).
Proof.
  intros Hp [H1 H2 H3 H4] He Hi. destruct (po_returned _ _ _ Hp He) as [Hl Hf]. pose proof (lookup_lt_Some _ _ _ Hi) as Hlt.
  destruct (lookup_lt_is_Some_2 (out (shared p)) i) as [o Ho]; [lia|].
  destruct (lookup_lt_is_Some_2 (errList (shared p)) i) as [err Herr]; [lia|].
  destruct (lookup_lt_is_Some_2 (tasks p) i) as [t Ht]; [lia|]. exists o, err. split_and!; try done.
  specialize (H4 i v o err Hi Ho Herr). rewrite Ht in H4. by rewrite (no_finished_running _ _ _ Hf Ht) in H4.
Qed.

(** C18: [Pipeline] with a positive [concurrency]: under every schedule at most
    that many elements are in work, every run is finite and returns. If no
    element is stopped — always, unless the mode is to stop all — the results
    and errors are those of each element alone. If all were stopped, some error
    is an element's own and every other element has its own result and error or
    the zero result and none. Stopping happens only if some element alone fails. *)
Theorem pipeline_correct (concurrency : Z) (input : list T) :
  match Pipeline concurrency input with
  | Panic => concurrency < 0
  | Done p0 => let steps := pstep pipe_start pipe_step input (Some concurrency) in
      0 < concurrency -> forall p, rtc steps p0 p ->
      active p <= concurrency /\ sn steps p /\ (nf steps p -> returned p = true) /\
      (returned p = true ->
         if stopped (shared p)
         then mode = StopAllOnError /\
           (exists i v e, input !! i = Some v /\ errList (shared p) !! i = Some (Some e) /\ error_of v = Some e) /\
           forall i v, input !! i = Some v -> exists o err, out (shared p) !! i = Some o /\ errList (shared p) !! i = Some err /\
             (o = result_of v /\ err = error_of v \/ o = zero /\ err = None)
         else out (shared p) = map result_of input /\ errList (shared p) = map error_of input)
  end.
Proof.
  unfold Pipeline, make_sem. destruct (Z.ltb_spec concurrency 0); [done|]. cbn zeta. intros Hc p Hr.
  destruct (pool_runs pipe_start pipe_step input (Some concurrency) _ pipe_step_size _ p Hc Hr) as (R1 & R2 & R3).
  split; [done|]. split; [done|]. split; [done|]. intros He.
  pose proof (pool_inv_rtc _ _ _ _ _ _ (pool_start_inv input (Some concurrency) _) Hr) as Hp. pose proof (PipeInv_rtc _ _ _ Hr) as Hi.
  pose proof (fun i v => pipeline_slots _ input p i v Hp Hi He) as Hs. destruct Hi as [H1 H2 H3 _].
  destruct (stopped (shared p)) eqn:Est.
  - destruct (H3 eq_refl) as (Hm & i & e & Hie). split; [done|]. split.
    + destruct (lookup_lt_is_Some_2 input i) as [v Hv]; [apply lookup_lt_Some in Hie; lia|].
      destruct (Hs i v Hv) as (o & err & _ & Ee & [[_ ->]|(_ & _ & ->)]); [|congruence].
      exists i, v, e. split_and!; try done. congruence.
    + intros j v Hj. destruct (Hs j v Hj) as (o & err & Ho & Ee & Hcase). exists o, err. split_and!; try done. tauto.
  - split; apply list_eq; intros i.
    + change (map result_of input) with (result_of <$> input). rewrite list_lookup_fmap. destruct (input !! i) as [v|] eqn:Ei; cbn.
      * destruct (Hs i v Ei) as (o & err & Ho & _ & [[-> _]|(? & _)]); done.
      * apply lookup_ge_None in Ei. apply lookup_ge_None. lia.
    + change (map error_of input) with (error_of <$> input). rewrite list_lookup_fmap. destruct (input !! i) as [v|] eqn:Ei; cbn.
      * destruct (Hs i v Ei) as (o & err & _ & Ee & [[_ ->]|(? & _)]); done.
      * apply lookup_ge_None in Ei. apply lookup_ge_None. lia.
Qed.

(** [PipelineMapped] joins results and errors lazily, drops the join and
    returns the list it had allocated, which is empty. *)
Definition PipelineMapped (p : pool pipe_local pipe_shared) : list (R * option E) := [].

(** An element that meets an error and is processed to its end all the same
    has no result when errors are ignored. *)
Lemma ignored_errors_lose_results v e : mode = IgnoreErrors -> error_of v = Some e -> result_of v = zero.
Proof.
  intros Hm. unfold error_of, result_of, eval_element.
  assert (forall fns cur valid err, (err <> None -> valid = false) -> (eval fns cur valid err).2 <> None ->
    value_of (eval fns cur valid err) = zero) as H.
  { induction fns as [|fn fns IH]; intros cur valid err Hv He; cbn in *.
    - by rewrite (Hv He).
    - rewrite Hm in *. destruct (fn cur valid) as [r|e']; by apply IH. }
  intros He. apply H; [done|]. by rewrite He.
Qed.
End Pipeline.

(** ** [generic.Pool]

    [sync.Pool] may hand out any value it holds, or none, and may drop what it
    holds at any time: [pick] says which position it takes. *)
Section GenericPool.
Context {T : Type}.
Record Pool : Type := mkGenericPool { held : list T; New : nat -> T; generated : nat }.
Definition NewPool (generate : nat -> T) : Pool := mkGenericPool [] generate 0.
Definition Put (value : T) (p : Pool) : Pool := mkGenericPool (value :: held p) (New p) (generated p).
Definition Get (pick : option nat) (p : Pool) : T * Pool :=
  match pick with
  | Some i =>
      match held p !! i with
      | Some v => (v, mkGenericPool (take i (held p) ++ drop (S i) (held p)) (New p) (generated p))
      | None => (New p (generated p), mkGenericPool (held p) (New p) (S (generated p)))
      end
  | None => (New p (generated p), mkGenericPool (held p) (New p) (S (generated p)))
  end.
Definition NewHotPool (generate : nat -> T) (hotSize : nat) : Pool :=
  Nat.iter hotSize (fun p => Put (New p (generated p)) (mkGenericPool (held p) (New p) (S (generated p)))) (NewPool generate).
End GenericPool.
Arguments Pool : clear implicits.

(** ** Witnesses *)
Module Samples.
(** One goroutine from start to end. *)
Definition after {L G} (l : L) (g : G) : list (pool L G) :=
  [mkPool [Running l] 1 g false; mkPool [Released] 0 g false; mkPool [Finished] 0 g false; mkPool [Finished] 0 g true].
End Samples.

Lemma one_element {A L G} (init : A -> L) tstep (v : A) limit (g g' : G) (l : L) :
  match limit with None => True | Some n => 0 < n end ->
  rtc (pstep init tstep [v] limit) (mkPool [Running (init v)] 1 g false) (mkPool [Running l] 1 g' false) -> tstep 0%nat l g' = None ->
  rtc (pstep init tstep [v] limit) (start g) (mkPool [Finished] 0 g' true).
Proof.
  intros Hl Hr Ht. eapply rtc_l.
  { apply (ps_spawn _ _ _ _ (start g) v); [done|done|]. unfold admits. by destruct limit. }
  etransitivity; [exact Hr|].
  eapply rtc_l; [by apply (ps_release _ _ _ _ (mkPool [Running l] 1 g' false) 0%nat l)|].
  eapply rtc_l; [by apply (ps_done _ _ _ _ (mkPool [Released] 0 g' false) 0%nat)|].
  eapply rtc_l; [apply (ps_return _ _ _ _ (mkPool [Finished] 0 g' false)); [done|done|by constructor]|]. apply rtc_refl.
Qed.

Lemma parallel_map_correct_witness :
  (exists p, rtc (pstep Some (map_step Z.succ) [41] (Some 2)) (start [0]) p /\ returned p = true /\ shared p = [42]) /\
  (exists p, rtc (pstep Some (map_step Z.odd) [41] (Some 2)) (start [false]) p /\ returned p = true /\ keep [41] (shared p) = [41]).
Proof.
  assert (rtc (pstep Some (map_step Z.succ) [41] (Some 2)) (start [0]) (mkPool [Finished] 0 [42] true)) as Hr.
  { apply (one_element _ _ _ _ _ _ None); [reflexivity| |reflexivity]. apply rtc_once.
    apply (ps_run _ _ _ _ (mkPool [Running (Some 41)] 1 [0] false) 0%nat (Some 41)); reflexivity. }
  assert (rtc (pstep Some (map_step Z.odd) [41] (Some 2)) (start [false]) (mkPool [Finished] 0 [true] true)) as Hf.
  { apply (one_element _ _ _ _ _ _ None); [reflexivity| |reflexivity]. apply rtc_once.
    apply (ps_run _ _ _ _ (mkPool [Running (Some 41)] 1 [false] false) 0%nat (Some 41)); reflexivity. }
  destruct (parallel_map_correct Z.succ Z.odd 0 2 [41]) as [[_ [_ H]] [_ [_ G]]].
  destruct (H eq_refl _ Hr) as (_ & _ & _ & H4). destruct (G eq_refl _ Hf) as (_ & _ & _ & G4). split.
  - eexists. split; [exact Hr|]. split; [reflexivity|exact (H4 eq_refl)].
  - eexists. split; [exact Hf|]. split; [reflexivity|exact (G4 eq_refl)].
Defined.

Lemma calls_once_witness : exists p,
  rtc (pstep Some (call_step (fun v u => v :: u)) [7] (Some 1)) (start []) p /\ exists order, order ≡ₚ [7] /\ shared p = run_calls cons order [].
Proof.
  assert (rtc (pstep Some (call_step (fun v u => v :: u)) [7] (Some 1)) (start []) (mkPool [Finished] 0 [7] true)) as Hr.
  { apply (one_element _ _ _ _ _ _ None); [reflexivity| |reflexivity]. apply rtc_once.
    apply (ps_run _ _ _ _ (mkPool [Running (Some 7)] 1 [] false) 0%nat (Some 7)); reflexivity. }
  eexists. split; [exact Hr|].
  destruct (calls_once (fun v u => v :: u) [7] (Some 1) [] _ ltac:(reflexivity) Hr) as (_ & _ & _ & H4). exact (H4 eq_refl).
Defined.

Lemma race_correct_witness : exists p : pool (option Z) (option Z), returned p = true /\ exists r v, shared p = Some r /\ v ∈ [7] /\ Some (v + 1) = Some r.
Proof.
  assert (rtc (pstep Some (call_step (race_action (fun v => Some (v + 1)))) [7] None) (start None) (mkPool [Finished] 0 (Some 8) true)) as Hr.
  { apply (one_element _ _ _ _ _ _ None); [exact I| |reflexivity]. apply rtc_once.
    apply (ps_run _ _ _ _ (mkPool [Running (Some 7)] 1 None false) 0%nat (Some 7)); reflexivity. }
  destruct (race_correct (fun v => Some (v + 1)) [7] _ Hr eq_refl) as (v & H1 & H2).
  exists (mkPool [Finished] 0 (Some 8) true). split; [reflexivity|]. exists 8, v. split; [reflexivity|]. split; [exact H1|exact H2].
Defined.

Lemma Batch_chunks_witness : exists cs, chunks 5 2 0 [1; 2; 3; 4; 5] = Some (Done cs) /\ concat cs = [1; 2; 3; 4; 5] /\ cs !! 1%nat = Some [3; 4].
Proof.
  destruct (proj1 (Batch_chunks 2 [1; 2; 3; 4; 5]) ltac:(lia)) as (cs & H1 & H2 & _). exists cs. split; [exact H1|]. split; [exact H2|].
  assert (chunks 5 2 0 [1; 2; 3; 4; 5] = Some (Done [[1; 2]; [3; 4]; [5]])) as E by (vm_compute; reflexivity).
  change (length [1; 2; 3; 4; 5]) with 5%nat in H1. rewrite E in H1. injection H1 as <-. reflexivity.
Defined.

Lemma merge_correct_witness : exists p : pool (list Z) (list (nat * Z)), returned p = true /\ of_channel 0 (shared p) = [1; 2].
Proof.
  assert (rtc (pstep (fun ch => ch) merge_step [[1; 2]] None) Merge (mkPool [Finished] 0 [(0%nat, 1); (0%nat, 2)] true)) as Hr.
  { apply (one_element (fun ch : list Z => ch) merge_step [1; 2] None [] _ []); [exact I| |reflexivity].
    eapply rtc_l; [apply (ps_run _ _ _ _ (mkPool [Running [1; 2]] 1 [] false) 0%nat [1; 2]); reflexivity|]. apply rtc_once.
    apply (ps_run _ _ _ _ (mkPool [Running [2]] 1 [(0%nat, 1)] false) 0%nat [2]); reflexivity. }
  eexists. split; [|exact (proj2 (proj2 (merge_correct [[1; 2]] _ Hr)) eq_refl 0%nat [1; 2] eq_refl)]. reflexivity.
Defined.

Lemma pipeline_correct_witness : exists p : pool (@pipe_local Z string) (@pipe_shared Z string), returned p = true /\ errList (shared p) = [Some "odd"%string] /\ out (shared p) = [0].
Proof.
  set (fn := fun (x : Z) (_ : bool) => if Z.even x then Ok (x / 2) else Err "odd"%string).
  set (g := mkShared [0] [None : option string] false). set (g1 := mkShared [0] [Some "odd"%string] false).
  assert (rtc (pstep (pipe_start id [fn]) (pipe_step Some IgnoreErrors) [3] (Some 1)) (start g) (mkPool [Finished] 0 g1 true)) as Hr.
  { apply (one_element _ _ _ _ _ _ PExit); [reflexivity| |reflexivity].
    eapply rtc_l; [apply (ps_run _ _ _ _ (mkPool [Running (PLoop 3 true [fn])] 1 g false) 0%nat (PLoop 3 true [fn])); reflexivity|].
    eapply rtc_l; [apply (ps_run _ _ _ _ (mkPool [Running (PCall 3 true fn [])] 1 g false) 0%nat (PCall 3 true fn [])); reflexivity|].
    eapply rtc_l; [apply (ps_run _ _ _ _ (mkPool [Running (PLoop 3 false [])] 1 g1 false) 0%nat (PLoop 3 false [])); reflexivity|].
    apply rtc_once. apply (ps_run _ _ _ _ (mkPool [Running (PEnd 3 false)] 1 g1 false) 0%nat (PEnd 3 false)); reflexivity. }
  exists (mkPool [Finished] 0 g1 true). split; [reflexivity|].
  pose proof (pipeline_correct id Some 0 IgnoreErrors [fn] 1 [3]) as H. destruct (H eq_refl _ Hr) as (_ & _ & _ & H4).
  destruct (H4 eq_refl) as [H1 H2].
  split; [exact H2|exact H1].
Defined.
