(* ===== verification/Wrappers.v ===== *)
(** * Wrappers of the variable roots ([syncv2/wrappers])

    [AtomicWrapper], [ShardedWrapper] and [ChannelWrapper] add subscribers,
    permissions, metrics and deltas to a root; their common text is written
    once over class [WrappedRoot], of which the atomic, sharded and channel
    roots are instances. [VariableWrapper] gives any of them the interface of
    the users, over class [Core]. Callbacks are named by numbers, [None] is a
    nil callback; goroutines started for them are recorded. *)
From S2P Require Import Prelude Concurrent Atomics Channels Sharded.
From Stdlib Require Import ZArith Lia Strings.Byte Strings.String.
From stdpp Require Import base tactics list gmap strings sets.
Open Scope Z_scope.

(** ** What the wrappers need of a root *)
Class WrappedRoot (S V : Type) : Type := {
  w_get : S -> outcome V;
  w_set : V -> S -> outcome S;
  w_version : S -> Z;
  w_dirty : S -> bool;
  w_clean : S -> S;
  w_apply : list (Delta V) -> S -> outcome S              (* the loop or call of [ApplyDelta] *)
}.
(** And what makes replication work: a delta that sets is seen by [Get]. *)
Class AppliesSets (S V : Type) {W : WrappedRoot S V} : Type := {
  apply_ok : V -> S -> Prop;
  apply_set d s : dOpType d = OpSet -> apply_ok (dValue d) s -> exists s', w_apply [d] s = Done s' /\ w_get s' = Done (dValue d)
}.

(** [ApplyDelta] of the sharded and channel wrappers: sets and updates are
    written or sent, one by one; a send that finds no room is not noticed. *)
Fixpoint write_deltas {S V} (write : V -> S -> outcome S) (deltas : list (Delta V)) (s : S) : outcome S :=
  match deltas with
  | [] => Done s
  | d :: deltas =>
      s ← (match dOpType d with OpSet | OpUpdate => write (dValue d) s | OpDelete => Done s end);
      write_deltas write deltas s
  end.

#[export] Instance int_wrapped : WrappedRoot (Atomic Z) Z := {
  w_get a := Done (AtomicInt.Get a); w_set v a := Done (AtomicInt.Set_ v a); w_version := Version; w_dirty := Atomics.IsDirty;
  w_clean := Atomics.MarkClean; w_apply ds a := Done (AtomicInt.Int64_ApplyDeltas ds a).1 }.
Definition sharded_wrapped {R T} {SR : ShardedRoot R T} : WrappedRoot R T := {|
  w_get := Sharded.Get; w_set v r := Sharded.Set_ r v; w_version r := Sharded.version (base r); w_dirty r := Sharded.dirty (base r);
  w_clean r := with_base (Sharded.MarkClean (base r)) r; w_apply := write_deltas (fun v r => Sharded.Set_ r v) |}.
Definition buffered_wrapped {T} : WrappedRoot (Buffered.BufferedChannel T) T := {|
  w_get c := Done (Buffered.Get c); w_set := Buffered.Set_; w_version := Buffered.Version; w_dirty := Buffered.IsDirty;
  w_clean := Buffered.MarkClean;
  w_apply := write_deltas (fun v c => match Buffered.Send v c with Done (c, _) => Done c | Panic => Panic end) |}.

(** ** The wrappers *)
Record VariableMetrics : Type := mkVarMetrics { Reads : Z; Writes : Z; MErrors : Z; DeltasSent : Z; DeltasReceived : Z }.
Definition read_counted (m : VariableMetrics) : VariableMetrics :=
  mkVarMetrics (wrapU 64 (Reads m + 1)) (Writes m) (MErrors m) (DeltasSent m) (DeltasReceived m).
Definition write_counted (m : VariableMetrics) : VariableMetrics :=
  mkVarMetrics (Reads m) (wrapU 64 (Writes m + 1)) (MErrors m) (DeltasSent m) (DeltasReceived m).
Definition error_counted (m : VariableMetrics) : VariableMetrics :=
  mkVarMetrics (Reads m) (Writes m) (wrapU 64 (MErrors m + 1)) (DeltasSent m) (DeltasReceived m).
Definition sent_counted (m : VariableMetrics) : VariableMetrics :=
  mkVarMetrics (Reads m) (Writes m) (MErrors m) (wrapU 64 (DeltasSent m + 1)) (DeltasReceived m).
Definition received_counted (m : VariableMetrics) : VariableMetrics :=
  mkVarMetrics (Reads m) (Writes m) (MErrors m) (DeltasSent m) (wrapU 64 (DeltasReceived m + 1)).

Record Permissions : Type := mkPermissions { PRead : gset string; PWrite : gset string }.
Record Marshaller (V : Type) : Type := mkMarshaller {
  marshal : V -> result string (list byte); unmarshal : list byte -> result string V }.
Arguments marshal {V}.
Arguments unmarshal {V}.

(** A goroutine: one callback with its arguments, or a pass over the
    subscribers found when it runs. *)
Inductive goroutine (V : Type) : Type := GoCallback (h : nat) (old new : V) | GoNotify (old new : V).
Arguments GoCallback {V}.
Arguments GoNotify {V}.

Section Wrapper.
Context {S V : Type} {W : WrappedRoot S V}.
Record Wrapper : Type := mkWrapper {
  root : S;
  subscribers : list (option nat);
  permissions : Permissions;
  metrics : VariableMetrics;
  resolver : option (V -> V -> V);
  marshaler : option (Marshaller V);
  launched : list (goroutine V)
}.
(** The constructors leave the marshaler nil, and nothing sets it. *)
Definition NewWrapper (r : S) : Wrapper := mkWrapper r [] (mkPermissions ∅ ∅) (mkVarMetrics 0 0 0 0 0) None None [].
Definition set_root (r : S) (w : Wrapper) : Wrapper :=
  mkWrapper r (subscribers w) (permissions w) (metrics w) (resolver w) (marshaler w) (launched w).
Definition set_metrics (m : VariableMetrics) (w : Wrapper) : Wrapper :=
  mkWrapper (root w) (subscribers w) (permissions w) m (resolver w) (marshaler w) (launched w).
Definition launch (gs : list (goroutine V)) (w : Wrapper) : Wrapper :=
  mkWrapper (root w) (subscribers w) (permissions w) (metrics w) (resolver w) (marshaler w) (launched w ++ gs).

Definition Wrapper_Get (w : Wrapper) : outcome (Wrapper * V) :=
  v ← w_get (root w); Done (set_metrics (read_counted (metrics w)) w, v).
(** A write by a function on the root: the old value, the write, the count. *)
Definition write_root (get : S -> outcome V) (set : S -> outcome S) (w : Wrapper) : outcome (Wrapper * V) :=
  old ← get (root w);
  r ← set (root w);
  Done (set_metrics (write_counted (metrics w)) (set_root r w), old).
(** [concurrent.Batch] over the subscribers, a goroutine per callback. *)
Definition batch_callbacks (old new : V) (subs : list (option nat)) : list (goroutine V) :=
  match chunks (length subs) 3 0 subs with
  | Some (Done cs) => concat (map (fun batch => omap (fun cb => match cb with Some h => Some (GoCallback h old new) | None => None end) batch) cs)
  | _ => []
  end.
(** [Set] of [AtomicWrapper] and [ShardedWrapper], and of [ChannelWrapper]. *)
Definition Wrapper_Set (v : V) (w : Wrapper) : outcome Wrapper :=
  r ← write_root w_get (w_set v) w;
  Done (launch (batch_callbacks r.2 v (subscribers w)) r.1).
Definition Channel_Set (v : V) (w : Wrapper) : outcome Wrapper :=
  r ← write_root w_get (w_set v) w;
  Done (launch [GoNotify r.2 v] r.1).
(** The goroutine of [Channel_Set] and [SetShard] when it runs. *)
Definition notified (g : goroutine V) (w : Wrapper) : list (nat * V * V) :=
  match g with
  | GoCallback h old new => [(h, old, new)]
  | GoNotify old new => omap (fun cb => match cb with Some h => Some (h, old, new) | None => None end) (subscribers w)
  end.

Definition Wrapper_Version (w : Wrapper) : Z := w_version (root w).
Definition Wrapper_IsDirty (w : Wrapper) : bool := w_dirty (root w).
Definition Wrapper_MarkClean (w : Wrapper) : Wrapper := set_root (w_clean (root w)) w.

(** The zero delta has the zero value and, [OpSet] being 0, sets. *)
Definition zero_delta (zero : V) : Delta V := mkDelta 0 zero 0 "" OpSet.
Definition Wrapper_Delta (zero : V) (now since : Z) (w : Wrapper) : outcome (Wrapper * Delta V) :=
  if since <? Wrapper_Version w then
    r ← Wrapper_Get (set_metrics (sent_counted (metrics w)) w);
    Done (r.1, mkDelta (Wrapper_Version w) r.2 now "" OpSet)
  else Done (w, zero_delta zero).
Definition Wrapper_ApplyDelta (deltas : list (Delta V)) (w : Wrapper) : outcome Wrapper :=
  r ← w_apply deltas (root w);
  Done (set_metrics (received_counted (metrics w)) (set_root r w)).

Definition SetResolver (r : option (V -> V -> V)) (w : Wrapper) : Wrapper :=
  mkWrapper (root w) (subscribers w) (permissions w) (metrics w) r (marshaler w) (launched w).
Definition OnConflict (f : V -> V -> V) (w : Wrapper) : Wrapper := SetResolver (Some f) w.
Definition OnChange (cb : option nat) (w : Wrapper) : Wrapper :=
  mkWrapper (root w) (subscribers w ++ [cb]) (permissions w) (metrics w) (resolver w) (marshaler w) (launched w).
Definition Marshal (w : Wrapper) : outcome (Wrapper * result string (list byte)) :=
  r ← Wrapper_Get w;
  match marshaler w with None => Panic | Some m => Done (r.1, marshal m r.2) end.
Definition Unmarshal (data : list byte) (w : Wrapper) : outcome (Wrapper * option string) :=
  match marshaler w with
  | None => Panic
  | Some m =>
      match unmarshal m data with
      | Ok v => w ← Wrapper_Set v w; Done (w, None)
      | Err e => Done (set_metrics (error_counted (metrics w)) w, Some e)
      end
  end.
Definition Wrapper_Metrics (w : Wrapper) : VariableMetrics := metrics w.

Definition allowed (set : gset string) (clientID : string) : bool := bool_decide (set = ∅) || bool_decide (clientID ∈ set).
Definition CheckRead (clientID : string) (w : Wrapper) : bool := allowed (PRead (permissions w)) clientID.
Definition CheckWrite (clientID : string) (w : Wrapper) : bool := allowed (PWrite (permissions w)) clientID.
Definition SetPermissions (p : Permissions) (w : Wrapper) : Wrapper :=
  mkWrapper (root w) (subscribers w) p (metrics w) (resolver w) (marshaler w) (launched w).
(** [Close] of the atomic and sharded wrappers; the channel's also closes it. *)
Definition Wrapper_Close (w : Wrapper) : Wrapper :=
  mkWrapper (root w) [] (permissions w) (metrics w) None (marshaler w) (launched w).
End Wrapper.
Arguments Wrapper : clear implicits.

(** *** The methods of one kind *)
Section ShardedMethods.
Context {R T : Type} {SR : ShardedRoot R T}.
Definition Wrapper_GetShard (key : string) (w : Wrapper R T) : outcome (Wrapper R T * T) :=
  v ← Sharded.GetShard (root w) key; Done (set_metrics (read_counted (metrics w)) w, v).
Definition Wrapper_SetShard (key : string) (v : T) (w : Wrapper R T) : outcome (Wrapper R T) :=
  r ← write_root (fun r => Sharded.GetShard r key) (fun r => Sharded.SetShard r key v) w;
  Done (launch [GoNotify r.2 v] r.1).
Definition Wrapper_MergeShard (merge : list T -> T) (w : Wrapper R T) : Wrapper R T * T :=
  (set_metrics (read_counted (metrics w)) w, Sharded.MergeShard (base (root w)) merge).
End ShardedMethods.

Section ChannelMethods.
Context {T : Type} {IT : Inhabited T}.
Abbreviation chan_wrapper := (Wrapper (Buffered.BufferedChannel T) T).
Definition Wrapper_Send (v : T) (w : chan_wrapper) : outcome (chan_wrapper * bool) :=
  match Buffered.Send v (root w) with
  | Done (c, sent) => Done (set_metrics (write_counted (metrics w)) (set_root c w), sent)
  | Panic => Panic
  end.
Definition Wrapper_Receive (w : chan_wrapper) : chan_wrapper * option T :=
  let '(c, v) := Buffered.Receive (root w) in (set_metrics (read_counted (metrics w)) (set_root c w), v).
Definition Channel_Close (w : chan_wrapper) : outcome chan_wrapper :=
  c ← Buffered.Close (root w); Done (Wrapper_Close (set_root c w)).
End ChannelMethods.

(** ** [VariableWrapper] *)
Class Core (S V : Type) : Type := {
  core_get : S -> outcome (S * V);
  core_set : V -> S -> outcome S;
  core_version : S -> Z;
  core_close : S -> outcome S;
  core_cas : option (V -> V -> S -> S * bool)               (* [CompareAndSwap], where there is one *)
}.
(** No wrapper has a [CompareAndSwap]. *)
#[export] Instance wrapper_core {S V} `{WrappedRoot S V} : Core (Wrapper S V) V := {
  core_get := Wrapper_Get; core_set := Wrapper_Set; core_version := Wrapper_Version; core_close w := Done (Wrapper_Close w);
  core_cas := None }.

Section Variable_.
Context {S V : Type} {C : Core S V}.
(** The callbacks run in the caller; [called] lists their calls. *)
Record VariableWrapper : Type := mkVariable { core : S; subs : list (option nat); called : list (nat * V * V) }.
Definition NewVariableWrapper (c : S) : VariableWrapper := mkVariable c [] [].
Definition call_subs (old new : V) (v : VariableWrapper) : VariableWrapper :=
  mkVariable (core v) (subs v)
    (called v ++ omap (fun cb => match cb with Some h => Some (h, old, new) | None => None end) (subs v)).
Definition Variable_Get (v : VariableWrapper) : outcome (VariableWrapper * V) :=
  r ← core_get (core v); Done (mkVariable r.1 (subs v) (called v), r.2).
Definition Variable_Set (value : V) (v : VariableWrapper) : outcome VariableWrapper :=
  r ← core_get (core v);
  c ← core_set value r.1;
  Done (call_subs r.2 value (mkVariable c (subs v) (called v))).
(** The loop of [Update]; [None] is out of fuel. *)
Fixpoint Update (fuel : nat) (callback : V -> V) (v : VariableWrapper) : option (outcome (VariableWrapper * V)) :=
  match fuel with
  | O => None
  | Datatypes.S fuel =>
      match core_get (core v) with
      | Panic => Some Panic
      | Done (c, current) =>
          let newValue := callback current in
          let v := mkVariable c (subs v) (called v) in
          match core_cas with
          | Some cas =>
              let '(c, swapped) := cas current newValue (core v) in
              let v := mkVariable c (subs v) (called v) in
              if swapped : bool then Some (Done (call_subs current newValue v, newValue)) else Update fuel callback v
          | None => Some (v ← Variable_Set newValue v; Done (v, newValue))
          end
      end
  end.
(** [Subscribe] returns the index its unsubscribe function keeps. *)
Definition Subscribe (cb : option nat) (v : VariableWrapper) : VariableWrapper * nat :=
  (mkVariable (core v) (subs v ++ [cb]) (called v), length (subs v)).
Definition unsubscribe (index : nat) (v : VariableWrapper) : VariableWrapper :=
  if decide (index < length (subs v))%nat
  then mkVariable (core v) (filter (fun cb => is_Some cb) (<[index := None]> (subs v))) (called v)
  else v.
Definition GetVersion (v : VariableWrapper) : Z := core_version (core v).
Definition Close (v : VariableWrapper) : outcome VariableWrapper :=
  c ← core_close (core v); Done (mkVariable c [] (called v)).
End Variable_.
Arguments VariableWrapper : clear implicits.

(** ** Writes and their notifications *)
Section Facts.
Context {S V : Type} {W : WrappedRoot S V}.

Lemma omap_concat {A B} (f : A -> option B) (l : list (list A)) : concat (map (omap f) l) = omap f (concat l).
Proof. induction l as [|x l IH]; [done|]. cbn. by rewrite omap_app, IH. Qed.

Lemma batch_callbacks_all (old new : V) cbs :
  batch_callbacks old new cbs = omap (fun cb => match cb with Some h => Some (GoCallback h old new) | None => None end) cbs.
Proof.
  unfold batch_callbacks. destruct (chunks_from 3 cbs (length cbs) 0 ltac:(lia) ltac:(lia) ltac:(lia)) as (cs & -> & Hc & _).
  rewrite omap_concat, Hc. done.
Qed.

(** A [Set] through an atomic or sharded wrapper reaches every subscriber
    once: the root is written, one write is counted, and exactly one goroutine
    is started per callback that is not nil, with the value from before and the
    new one, whatever the batches of three; permissions are not asked. *)
Theorem Set_notifies (v old : V) (w : Wrapper S V) r : w_get (root w) = Done old -> w_set v (root w) = Done r ->
  exists w', Wrapper_Set v w = Done w' /\ root w' = r /\ Writes (metrics w') = wrapU 64 (Writes (metrics w) + 1) /\
    subscribers w' = subscribers w /\
    launched w' = launched w ++ omap (fun cb => match cb with Some h => Some (GoCallback h old v) | None => None end) (subscribers w) /\
    (forall p, Wrapper_Set v (SetPermissions p w) = Done (SetPermissions p w')).
Proof.
  intros Hg Hs. unfold Wrapper_Set, write_root. rewrite Hg. cbn. rewrite Hs. cbn. rewrite batch_callbacks_all.
  eexists. split; [reflexivity|]. cbn. split_and!; try done. intros p. rewrite ?Hg; cbn; rewrite ?Hs; cbn. by rewrite ?batch_callbacks_all.
Qed.

(** ** Deltas *)
(** Replication by deltas: over a root on which setting deltas take effect,
    a replica that applies the delta it is given ends with the sender's value
    if the sender has something newer — and with the zero value if not, since
    the empty delta is a set of it. *)
Theorem delta_applied {AS : AppliesSets S V} zero now since v (w1 w2 : Wrapper S V) :
  w_get (root w1) = Done v -> apply_ok v (root w2) -> apply_ok zero (root w2) ->
  exists w1' d w2', Wrapper_Delta zero now since w1 = Done (w1', d) /\ Wrapper_ApplyDelta [d] w2 = Done w2' /\
    root w1' = root w1 /\ w_get (root w2') = Done (if since <? w_version (root w1) then v else zero).
Proof.
  intros Hg Hv Hz. unfold Wrapper_Delta, Wrapper_Version, Wrapper_Get. destruct (since <? w_version (root w1)).
  - cbn [set_metrics root]. rewrite Hg. cbn [mbind outcome_bind fst snd].
    destruct (apply_set (mkDelta (w_version (root w1)) v now "" OpSet) (root w2) eq_refl Hv) as (s' & Ha & Hs).
    eexists _, _, _. split; [reflexivity|]. unfold Wrapper_ApplyDelta. rewrite Ha. by split_and!.
  - destruct (apply_set (zero_delta zero) (root w2) eq_refl Hz) as (s' & Ha & Hs).
    eexists _, _, _. split; [reflexivity|]. unfold Wrapper_ApplyDelta. rewrite Ha. by split_and!.
Qed.
End Facts.

(** The roots on which it holds. *)
#[export] Program Instance int_applies : AppliesSets (Atomic Z) Z := {| apply_ok v s := True |}.
Next Obligation.
  intros [ver v t c op] s Hop _. cbn in Hop. subst op. eexists. split; [reflexivity|]. cbn [w_get int_wrapped dValue].
  unfold AtomicInt.Int64_ApplyDeltas, AtomicInt.ApplyDeltas.
  assert (sorted_deltas [mkDelta ver v t c OpSet] = [mkDelta ver v t c OpSet]) as ->
    by (apply Permutation_length_1_inv; symmetry; apply sorted_deltas_perm).
  done.
Qed.

#[export] Program Instance sharded_applies {R T} {SR : ShardedRoot R T} {SL : ShardedLaws R T} : @AppliesSets R T sharded_wrapped :=
  {| apply_ok v r := wf r |}.
Next Obligation.
  intros R T SR SL [ver v t c op] r Hop Hwf. cbn in Hop. subst op. cbn [w_apply w_get sharded_wrapped write_deltas dOpType dValue].
  unfold Sharded.Set_, Sharded.SetShard, Sharded.Get, Sharded.GetShard, shard_set.
  pose proof (index_lt r defaultShardKey Hwf) as Hl. destruct (lookup_lt_is_Some_2 _ _ Hl) as [sh Hsh]. rewrite Hsh.
  eexists. split; [reflexivity|]. unfold shard_get. rewrite base_with. cbn [shards].
  rewrite index_with by (cbn; by rewrite length_insert). by rewrite list_lookup_insert_eq.
Qed.

(** It fails on [AtomicValue], whose [ApplyDeltas] has no effect. *)
Definition value_wrapped {T} {eqT : EqDecision T} : WrappedRoot (Atomic T) T := {|
  w_get a := Done (AtomicValue.Get a); w_set v a := Done (AtomicValue.Set_ v a); w_version := Version; w_dirty := Atomics.IsDirty;
  w_clean := Atomics.MarkClean; w_apply ds a := Done (AtomicValue.ApplyDeltas ds a).1 |}.

(** ** Subscriptions of [VariableWrapper] *)
Section Subscriptions.
Context {S V : Type} {C : Core S V}.
Definition names (hs : list nat) : list (option nat) := map Some hs.

Lemma filter_names (hs : list nat) : filter (fun cb : option nat => is_Some cb) (names hs) = names hs.
Proof. unfold names. induction hs as [|h hs IH]; [done|]. cbn [map]. rewrite filter_cons_True by by eexists. by rewrite IH. Qed.

Lemma unsubscribe_at (l1 l2 : list nat) h (v : VariableWrapper S V) : subs v = names (l1 ++ h :: l2) ->
  subs (unsubscribe (length l1) v) = names (l1 ++ l2).
Proof.
  intros E. unfold unsubscribe. rewrite E. unfold names in *. rewrite length_map, length_app. cbn.
  rewrite decide_True by lia. cbn. rewrite map_app. rewrite insert_app_r_alt by (rewrite length_map; lia).
  rewrite length_map, Nat.sub_diag. cbn [map]. change (<[0%nat:=None]> (Some h :: map Some l2)) with (None :: map Some l2 : list (option nat)).
  rewrite list.filter_app, filter_cons_False by by intros [? ?]. rewrite !filter_names. unfold names. by rewrite map_app.
Qed.

Lemma unsubscribe_past index (v : VariableWrapper S V) : (length (subs v) <= index)%nat -> unsubscribe index v = v.
Proof. intros H. unfold unsubscribe. by rewrite decide_False by lia. Qed.

(** Unsubscribing: a subscription that is the latest, or whose predecessors
    are all still there, is removed exactly. After an earlier one has been
    removed the index is stale: unsubscribing [b] removes the subscriber that
    follows it, and nothing if it was the last. *)
Theorem unsubscribe_stale (l1 l2 l3 : list nat) a b (v : VariableWrapper S V) : subs v = names (l1 ++ a :: l2 ++ b :: l3) ->
  subs (unsubscribe (length l1) v) = names (l1 ++ l2 ++ b :: l3) /\
  subs (unsubscribe (length (l1 ++ a :: l2)) v) = names (l1 ++ a :: l2 ++ l3) /\
  subs (unsubscribe (length (l1 ++ a :: l2)) (unsubscribe (length l1) v)) =
    names (l1 ++ l2 ++ b :: tail l3).
Proof.
  intros E. assert (subs (unsubscribe (length l1) v) = names (l1 ++ l2 ++ b :: l3)) as E1 by by eapply unsubscribe_at.
  split_and!; [done| |].
  - rewrite (unsubscribe_at (l1 ++ a :: l2) l3 b); [|by rewrite E, <- app_assoc]. by rewrite <- app_assoc.
  - destruct l3 as [|c l3]; cbn [tail].
    + rewrite unsubscribe_past; [done|]. rewrite E1. unfold names. rewrite length_map, !length_app. cbn. lia.
    + replace (length (l1 ++ a :: l2)) with (length (l1 ++ l2 ++ [b])) by (rewrite !length_app; cbn; lia).
      rewrite (unsubscribe_at (l1 ++ l2 ++ [b]) l3 c); [by rewrite <- !app_assoc|]. by rewrite E1, <- !app_assoc.
Qed.

End Subscriptions.

(** Without [CompareAndSwap], [Update] reads and writes in two steps. *)
Definition update_begin {S V} `{Core S V} (v : VariableWrapper S V) : outcome (VariableWrapper S V * V) := Variable_Get v.
Lemma Update_two_steps {S V} {C : Core S V} fuel f (v : VariableWrapper S V) : core_cas = None ->
  Update (Datatypes.S fuel) f v = Some (r ← update_begin v; v ← Variable_Set (f r.2) r.1; Done (v, f r.2)).
Proof. intros E. cbn [Update]. unfold update_begin, Variable_Get. destruct (core_get (core v)) as [[c x]|]; [|done]. by rewrite E. Qed.

(** Of two updates that both read first, the one that writes first is lost. *)
Lemma lost_update (f g : Z -> Z) (w : Wrapper (Atomic Z) Z) : let v := NewVariableWrapper w in
  exists v1 v2 v3 v4, update_begin v = Done (v1, AtomicInt.Get (root w)) /\ update_begin v1 = Done (v2, AtomicInt.Get (root w)) /\
    Variable_Set (f (AtomicInt.Get (root w))) v2 = Done v3 /\ Variable_Set (g (AtomicInt.Get (root w))) v3 = Done v4 /\
    AtomicInt.Get (root (core v4)) = g (AtomicInt.Get (root w)).
Proof. eexists _, _, _, _. repeat (split; [reflexivity|]). reflexivity. Qed.

(** ** Witnesses *)
Module Samples.
Definition w : Wrapper (Atomic Z) Z := OnChange (Some 2%nat) (OnChange None (OnChange (Some 1%nat) (NewWrapper (AtomicInt.NewAtomicInt64 5)))).
Definition v : VariableWrapper (Wrapper (Atomic Z) Z) Z :=
  (Subscribe (Some 3%nat) (Subscribe (Some 2%nat) (Subscribe (Some 1%nat) (NewVariableWrapper w)).1).1).1.
End Samples.

Lemma Set_notifies_witness : exists w', Wrapper_Set 8 Samples.w = Done w' /\ launched w' = [GoCallback 1 5 8; GoCallback 2 5 8].
Proof.
  destruct (Set_notifies (W := int_wrapped) 8 5 Samples.w (AtomicInt.Set_ 8 (AtomicInt.NewAtomicInt64 5)) eq_refl eq_refl) as (w' & H1 & _ & _ & _ & H2 & _).
  exists w'. split; [exact H1|exact H2].
Defined.

Lemma delta_applied_witness : exists w1' d w2', Wrapper_Delta 0 9 1 Samples.w = Done (w1', d) /\
  Wrapper_ApplyDelta [d] Samples.w = Done w2' /\ w_get (root w2') = Done 0.
Proof.
  destruct (delta_applied (W := int_wrapped) (AS := int_applies) 0 9 1 5 Samples.w Samples.w eq_refl I I) as (w1' & d & w2' & H1 & H2 & _ & H3).
  exists w1', d, w2'. split; [exact H1|]. split; [exact H2|exact H3].
Defined.

Lemma unsubscribe_stale_witness : subs (unsubscribe 1 (unsubscribe 0 Samples.v)) = [Some 2%nat].
Proof. exact (proj2 (proj2 (unsubscribe_stale [] [] [3%nat] 1 2 Samples.v eq_refl))). Defined.

(** A replica of an [AtomicValue] never changes. *)
Lemma value_not_replicated (x y : Z) t : w_apply (WrappedRoot := value_wrapped) [mkDelta 7 y t "" OpSet] (new_atomic x) = Done (new_atomic x).
Proof. reflexivity. Qed.
