(* ===== verification/FieldUtils.v ===== *)
(** * Combinators of field accessors ([fields/utils.go])

    The aggregator, debouncer, throttler, validator and transformer subscribe
    to source accessors and write to a target, over the accessors of Fields.
    A notification is a goroutine the source has launched; [deliver] runs one,
    in any order. Source and target are different accessors. *)
From S2P Require Import Prelude Fields.
From Stdlib Require Import ZArith Lia Sorted.
From stdpp Require Import base tactics list gmap relations.
Open Scope Z_scope.

Section Utils.
Context {T : Type} `{GoType T}.

(** Takes notification [j] off the goroutines of an accessor; the value is
    passed on if the callback is [tag]'s. *)
Definition take_notification (tag j : nat) (a : FA T) : option (FA T * option T) :=
  match goroutines a !! j with
  | None => None
  | Some (s, v) =>
      Some (Sync.with_goroutines (delete j (goroutines a)) a,
            if decide (callback s = tag) then match filter_of s with
              | None => Some v
              | Some f => if f v then Some v else None
              end else None)
  end.

(** ** [Aggregator] *)
Record Aggregator : Type := mkAggregator {
  sources : list (FA T);
  target : FA T;
  aggregateFn : list T -> T;
  subscriptions : list (nat * Z);                 (* the unsubscribe functions: source and id *)
  tag : nat
}.
Definition NewAggregator (tag : nat) (target : FA T) (aggregateFn : list T -> T) : Aggregator :=
  mkAggregator [] target aggregateFn [] tag.
(** [updateTarget] in its two steps: the values, and the write. *)
Definition aggregate (g : Aggregator) : T := aggregateFn g (map Get (sources g)).
Definition set_target (t : FA T) (g : Aggregator) : Aggregator := mkAggregator (sources g) t (aggregateFn g) (subscriptions g) (tag g).
Definition set_sources (ss : list (FA T)) (g : Aggregator) : Aggregator := mkAggregator ss (target g) (aggregateFn g) (subscriptions g) (tag g).
Definition updateTarget (now : Z) (g : Aggregator) : Aggregator :=
  match sources g with
  | [] => g
  | _ => set_target (Fields.Set_ now (aggregate g) (target g)) g
  end.
Definition AddSource (now : Z) (source : FA T) (g : Aggregator) : Aggregator :=
  let '(id, source) := Subscribe (tag g) source in
  updateTarget now (mkAggregator (sources g ++ [source]) (target g) (aggregateFn g) (subscriptions g ++ [(length (sources g), id)]) (tag g)).
(** The sources are dropped; they are returned without the subscriptions. *)
Definition Aggregator_Close (g : Aggregator) : Aggregator * list (FA T) :=
  (mkAggregator [] (target g) (aggregateFn g) [] (tag g),
   foldl (fun ss p => alter (unsubscribe p.2) p.1 ss) (sources g) (subscriptions g)).

(** The program writes to a source; a notification runs to its end. *)
Definition write_source (now : Z) (i : nat) (v : T) (g : Aggregator) : Aggregator :=
  set_sources (alter (Fields.Set_ now v) i (sources g)) g.
Definition deliver (now : Z) (i j : nat) (g : Aggregator) : option Aggregator :=
  match sources g !! i with
  | None => None
  | Some a =>
      match take_notification (tag g) j a with
      | None => None
      | Some (a, v) =>
          let g := set_sources (<[i := a]> (sources g)) g in
          Some (match v with Some _ => updateTarget now g | None => g end)
      end
  end.
Inductive agg_step (g : Aggregator) : Aggregator -> Prop :=
  | as_write now i v : agg_step g (write_source now i v g)
  | as_add now a : agg_step g (AddSource now a g)
  | as_deliver now i j g' : deliver now i j g = Some g' -> agg_step g g'.

(** Notifications for the aggregator that have not run. *)
Definition outstanding (g : Aggregator) : Prop :=
  exists a s v, a ∈ sources g /\ (s, v) ∈ goroutines a /\ callback s = tag g /\ filter_of s = None.

(** ** [Throttler]: [None] is the zero time, longer ago than any interval *)
Record Throttler : Type := mkThrottler { th_target : FA T; interval : Z; lastUpdate : option Z; th_unsub : option Z }.
Definition NewThrottler (tag : nat) (source target : FA T) (interval : Z) : FA T * Throttler :=
  let '(id, source) := Subscribe tag source in (source, mkThrottler target interval None (Some id)).
Definition throttle (now : Z) (v : T) (t : Throttler) : Throttler :=
  if match lastUpdate t with None => true | Some l => interval t <=? now - l end
  then mkThrottler (Fields.Set_ now v (th_target t)) (interval t) (Some now) (th_unsub t)
  else t.
Definition Throttler_Close (source : FA T) (t : Throttler) : FA T * Throttler :=
  (match th_unsub t with Some id => unsubscribe id source | None => source end, mkThrottler (th_target t) (interval t) (lastUpdate t) None).

(** ** [Debouncer]: the timer with its deadline and value *)
Record Debouncer : Type := mkDebouncer { de_target : FA T; delay : Z; timer : option (Z * T); de_unsub : option Z }.
Definition NewDebouncer (tag : nat) (source target : FA T) (delay : Z) : FA T * Debouncer :=
  let '(id, source) := Subscribe tag source in (source, mkDebouncer target delay None (Some id)).
Definition debounce (now : Z) (v : T) (d : Debouncer) : Debouncer :=
  mkDebouncer (de_target d) (delay d) (Some (now + delay d, v)) (de_unsub d).
(** The timer's function, when its deadline has come. *)
Definition fire (now : Z) (d : Debouncer) : Debouncer :=
  match timer d with
  | Some (deadline, v) =>
      if deadline <=? now then mkDebouncer (Fields.Set_ deadline v (de_target d)) (delay d) None (de_unsub d) else d
  | None => d
  end.
Definition Debouncer_Close (source : FA T) (d : Debouncer) : FA T * Debouncer :=
  (match de_unsub d with Some id => unsubscribe id source | None => source end, mkDebouncer (de_target d) (delay d) None None).
(** Changes in time order; a timer whose deadline has come fires first. *)
Definition drive (changes : list (Z * T)) (d : Debouncer) : Debouncer :=
  foldl (fun d c => debounce c.1 c.2 (fire c.1 d)) d changes.
End Utils.
Arguments Aggregator T : clear implicits.
Arguments Throttler T : clear implicits.
Arguments Debouncer T : clear implicits.

(** ** [Validator] and [Transformer] *)
Section Others.
Context {T U E : Type} `{GoType T} `{GoType U}.
Record Validator : Type := mkValidator { validateFn : T -> option E; onError : bool; va_unsub : option Z; reported : list E }.
Definition NewValidator (tag : nat) (fa : FA T) (validateFn : T -> option E) (onError : bool) : FA T * Validator :=
  let '(id, fa) := Subscribe tag fa in (fa, mkValidator validateFn onError (Some id) []).
(** The callback; [reported] lists the calls of [onError]. *)
Definition validate (newValue : T) (v : Validator) : Validator :=
  match validateFn v newValue with
  | Some err => if onError v then mkValidator (validateFn v) (onError v) (va_unsub v) (reported v ++ [err]) else v
  | None => v
  end.
Definition Validator_Close (fa : FA T) (v : Validator) : FA T * Validator :=
  (match va_unsub v with Some id => unsubscribe id fa | None => fa end, mkValidator (validateFn v) (onError v) None (reported v)).

Record Transformer : Type := mkTransformer { tr_source : FA T; tr_target : FA U; transformFn : T -> U; tr_unsub : option Z }.
Definition NewTransformer (now : Z) (tag : nat) (source : FA T) (target : FA U) (transformFn : T -> U) : Transformer :=
  let target := Fields.Set_ now (transformFn (Get source)) target in
  let '(id, source) := Subscribe tag source in
  mkTransformer source target transformFn (Some id).
Definition transform (now : Z) (newValue : T) (t : Transformer) : Transformer :=
  mkTransformer (tr_source t) (Fields.Set_ now (transformFn t newValue) (tr_target t)) (transformFn t) (tr_unsub t).
(** Notification [j] of the source runs. *)
Definition tr_deliver (now : Z) (tag j : nat) (t : Transformer) : option Transformer :=
  match take_notification tag j (tr_source t) with
  | None => None
  | Some (a, v) =>
      let t := mkTransformer a (tr_target t) (transformFn t) (tr_unsub t) in
      Some (match v with Some v => transform now v t | None => t end)
  end.
Definition Transformer_Close (t : Transformer) : Transformer :=
  mkTransformer (match tr_unsub t with Some id => unsubscribe id (tr_source t) | None => tr_source t end)
    (tr_target t) (transformFn t) None.

(** ** [TimeoutWrapper]

    [expired] is the error of the context when the timeout comes first. The
    goroutine of [Transaction] goes on after it; its panic is the program's. *)
Definition TimeoutWrapper_Get (expired : option E) (a : FA T) : result E T := GetWithContext expired a.
Definition TimeoutWrapper_Set (expired : option E) (now : Z) (v : T) (a : FA T) : option E * FA T := SetWithContext expired now v a.
Definition TimeoutWrapper_Transaction {X} (expired : option E) (clock : nat -> Z) (env : nat -> FA T -> FA T)
    (update : T -> X -> outcome T * X) (x : X) (a : FA T) : outcome (result E T) * (X * FA T) :=
  match Transaction clock env update x a with
  | (Panic, s) => (Panic, s)
  | (Done r, s) => (Done (match expired with None => Ok r | Some e => Err e end), s)
  end.
End Others.
Arguments Transformer T U : clear implicits.
Arguments Validator T E : clear implicits.

(** ** Facts *)
Section Facts.
Context {T : Type} `{GoType T}.

Lemma Get_Set now v (a : FA T) : Get (Fields.Set_ now v a) = v.
Proof. done. Qed.

(** The value notification [p] passes to callback [tag]. *)
Definition passed (tag : nat) (p : subscriber T * T) : option T :=
  if decide (callback p.1 = tag) then match filter_of p.1 with
    | None => Some p.2
    | Some f => if f p.2 then Some p.2 else None
  end else None.
(** The callback [tag] hears every write. *)
Definition hears (tag : nat) (a : FA T) : Prop :=
  exists id s, subscribers a !! id = Some s /\ callback s = tag /\ filter_of s = None.

Lemma Subscribe_hears tag (a : FA T) : hears tag (Subscribe tag a).2.
Proof. eexists _, _. cbn. rewrite lookup_insert_eq. done. Qed.
Lemma Set_hears tag now v (a : FA T) : hears tag a -> hears tag (Fields.Set_ now v a).
Proof. done. Qed.

Lemma take_notification_spec tag j (a : FA T) a' v : take_notification tag j a = Some (a', v) ->
  exists p, goroutines a !! j = Some p /\ v = passed tag p /\ a' = Sync.with_goroutines (delete j (goroutines a)) a.
Proof.
  unfold take_notification. destruct (goroutines a !! j) as [[s w]|]; [|done].
  intros [= <- <-]. by exists (s, w).
Qed.

(** A write launches a notification for a callback that hears. *)
Lemma Set_launches tag now v (a : FA T) : hears tag a ->
  exists s, (s, v) ∈ goroutines (Fields.Set_ now v a) /\ callback s = tag /\ filter_of s = None.
Proof.
  intros (id & s & Hs & Ht & Hf). exists s. split; [|done].
  cbn. apply elem_of_app. right. apply list_elem_of_fmap. exists (id, s). split; [done|].
  by apply elem_of_map_to_list.
Qed.

Lemma elem_of_delete_ne {A} (l : list A) j x y : l !! j = Some x -> y ∈ l -> y <> x -> y ∈ delete j l.
Proof.
  intros Hj Hy Hne. rewrite delete_take_drop. rewrite <- (take_drop_middle l j x Hj) in Hy.
  set_solver.
Qed.
End Facts.

(** ** The aggregator settles *)
Definition sum_Z (l : list Z) : Z := foldr Z.add 0 l.

Section Aggregators.
Context {T : Type} `{GoType T}.

Definition settled (g : Aggregator T) : Prop := sources g = [] \/ Get (target g) = aggregate g.
Record Agg (g : Aggregator T) : Prop := {
  agg_hears : Forall (hears (tag g)) (sources g);
  agg_settles : outstanding g \/ settled g
}.

Lemma updateTarget_settled now (g : Aggregator T) : settled (updateTarget now g).
Proof. unfold settled, updateTarget. destruct (sources g) eqn:E; [by left|right]. unfold aggregate. cbn. by rewrite E. Qed.
Lemma updateTarget_keeps now (g : Aggregator T) :
  sources (updateTarget now g) = sources g /\ tag (updateTarget now g) = tag g.
Proof. unfold updateTarget. by destruct (sources g) eqn:E; cbn; rewrite ?E. Qed.

(** A notification run to its end: the values of the sources are what they were. *)
Lemma deliver_spec now i j (g g' : Aggregator T) : deliver now i j g = Some g' ->
  exists a p, sources g !! i = Some a /\ goroutines a !! j = Some p /\ tag g' = tag g /\
    sources g' = <[i := Sync.with_goroutines (delete j (goroutines a)) a]> (sources g) /\
    aggregateFn g' = aggregateFn g /\
    match passed (tag g) p with Some _ => settled g' | None => target g' = target g end.
Proof.
  unfold deliver. destruct (sources g !! i) as [a|] eqn:Ha; [|done].
  destruct (take_notification _ j a) as [[a' v]|] eqn:Hk; [|done]. intros [= <-].
  destruct (take_notification_spec _ _ _ _ _ Hk) as (p & Hp & -> & ->).
  exists a, p. do 2 (split; [done|]). destruct (passed (tag g) p); [|done].
  destruct (updateTarget_keeps now (set_sources (<[i:=Sync.with_goroutines (delete j (goroutines a)) a]> (sources g)) g)) as [-> ->].
  do 2 (split; [done|]). split; [|apply updateTarget_settled].
  unfold updateTarget. by destruct (sources (set_sources _ g)).
Qed.

Lemma deliver_values now i j (g g' : Aggregator T) : deliver now i j g = Some g' ->
  map Get (sources g') = map Get (sources g).
Proof.
  intros (a & p & Ha & _ & _ & -> & _)%deliver_spec.
  change (Get <$> <[i := Sync.with_goroutines (delete j (goroutines a)) a]> (sources g) = Get <$> sources g).
  rewrite list_fmap_insert. apply list_insert_id. by rewrite list_lookup_fmap, Ha.
Qed.

Lemma Agg_new tg (t : FA T) f : Agg (NewAggregator tg t f).
Proof. split; [by constructor|]. right. by left. Qed.

Lemma Agg_step (g g' : Aggregator T) : Agg g -> agg_step g g' -> Agg g'.
Proof.
  intros [Hh Hs]. destruct 1 as [now i v|now a|now i j g' Hd].
  - split.
    + cbn. apply Forall_alter; [done|]. intros a _. apply Set_hears.
    + destruct (sources g !! i) as [a|] eqn:Ha.
      * left. rewrite Forall_forall in Hh.
        destruct (Set_launches (tag g) now v a) as (s & ?); [apply Hh; by apply list_elem_of_lookup_2 in Ha|].
        exists (Fields.Set_ now v a), s, v. split; [|done].
        apply list_elem_of_lookup. exists i. cbn. by rewrite list_lookup_alter_eq, Ha.
      * replace (write_source now i v g) with g; [done|]. destruct g. unfold write_source, set_sources.
        cbn in *. f_equal. apply list_eq. intros k. destruct (decide (i = k)) as [->|].
        -- by rewrite list_lookup_alter_eq, Ha.
        -- by rewrite list_lookup_alter_ne.
  - unfold AddSource. destruct (Subscribe (tag g) a) as [id a'] eqn:Ea.
    set (g1 := mkAggregator _ _ _ _ _). split; [|right; apply updateTarget_settled].
    destruct (updateTarget_keeps now g1) as [-> ->]. subst g1. cbn.
    apply Forall_app. split; [done|]. constructor; [|constructor].
    pose proof (Subscribe_hears (tag g) a) as Hl. by rewrite Ea in Hl.
  - pose proof (deliver_values _ _ _ _ _ Hd) as Hv.
    apply deliver_spec in Hd as (a & p & Ha & Hp & Ht & Hss & Hf & Hm). split.
    + rewrite Ht, Hss. apply Forall_insert; [done|]. rewrite Forall_forall in Hh.
      apply (Hh a). by apply list_elem_of_lookup_2 in Ha.
    + destruct (passed (tag g) p) as [w|] eqn:Hpass; [by right|]. destruct Hs as [Ho|Hs].
      * left. destruct Ho as (b & s & v & Hb & Hin & Hc & Hfl).
        assert (passed (tag g) (s, v) = Some v) as Hpv.
        { unfold passed. cbn. rewrite decide_True, Hfl by done. done. }
        apply list_elem_of_lookup_1 in Hb as [k Hk]. destruct (decide (k = i)) as [->|Hne].
        -- assert (b = a) as -> by congruence.
           exists (Sync.with_goroutines (delete j (goroutines a)) a), s, v. rewrite Ht. repeat split; try done.
           ++ rewrite Hss. apply list_elem_of_lookup. exists i.
              apply list_lookup_insert_eq. by eapply lookup_lt_Some.
           ++ cbn. eapply elem_of_delete_ne; [done|done|]. intros <-. congruence.
        -- exists b, s, v. rewrite Ht. repeat split; try done. rewrite Hss.
           apply list_elem_of_lookup. exists k. by rewrite list_lookup_insert_ne by done.
      * right. unfold settled, aggregate. rewrite Hf, Hv, Hm.
        destruct Hs as [Hs|Hs]; [left; by rewrite Hss, Hs|by right].
Qed.

Lemma Agg_reachable (g g' : Aggregator T) : Agg g -> rtc agg_step g g' -> Agg g'.
Proof. intros A. induction 1; eauto using Agg_step. Qed.

(** Notifications not yet run, of any callback. *)
Definition unrun (g : Aggregator T) : nat := sum_list (map (fun a => length (goroutines a)) (sources g)).
Definition drains (now : Z) (g g' : Aggregator T) : Prop := exists i j, deliver now i j g = Some g'.

Lemma unrun_head (g : Aggregator T) : unrun g <> 0%nat -> exists i a p l,
  sources g !! i = Some a /\ goroutines a = p :: l.
Proof.
  unfold unrun. induction (sources g) as [|a ss IH]; cbn; [done|]. intros Hn.
  destruct (goroutines a) as [|p l] eqn:E.
  - destruct (IH Hn) as (i & b & q & l & ? & ?). by exists (S i), b, q, l.
  - by exists 0%nat, a, p, l.
Qed.

Lemma deliver_first now (g : Aggregator T) : unrun g <> 0%nat ->
  exists i g', deliver now i 0 g = Some g' /\ (unrun g' < unrun g)%nat.
Proof.
  intros Hn; destruct (unrun_head _ Hn) as (i & a & p & l & Ha & Hp).
  destruct (deliver now i 0 g) as [g'|] eqn:Hd.
  - exists i, g'. split; [done|]. apply deliver_spec in Hd as (a' & p' & ? & ? & _ & Hss & _). simplify_eq.
    unfold unrun. rewrite Hss. rewrite <- (take_drop_middle (sources g) i a Ha) at 2.
    rewrite insert_take_drop by (by eapply lookup_lt_Some).
    rewrite !map_app. rewrite !sum_list_with_app. cbn. rewrite Hp. cbn. lia.
  - exfalso. unfold deliver, take_notification in Hd. rewrite Ha, Hp in Hd. by destruct p.
Qed.

Lemma deliver_keeps_fn now i j (g g' : Aggregator T) : deliver now i j g = Some g' -> aggregateFn g' = aggregateFn g.
Proof. by intros (? & ? & _ & _ & _ & _ & ? & _)%deliver_spec. Qed.
Lemma steps_keep_fn (g g' : Aggregator T) : rtc agg_step g g' -> aggregateFn g' = aggregateFn g.
Proof.
  induction 1 as [|g g1 g2 [now i v|now a|now i j g1' Hd] _ IH]; [done|rewrite IH..]; [done| |by eapply deliver_keeps_fn].
  unfold AddSource, Subscribe, SubscribeIf, updateTarget. cbn. by destruct (sources g ++ _).
Qed.

(** Running the launched notifications, in some order, ends. *)
Lemma drained now (g : Aggregator T) : Agg g -> exists g', rtc (drains now) g g' /\ unrun g' = 0%nat /\ Agg g' /\
  map Get (sources g') = map Get (sources g) /\ aggregateFn g' = aggregateFn g.
Proof.
  remember (unrun g) as n eqn:Hn. revert g Hn.
  induction (lt_wf n) as [n _ IH]. intros g -> A. destruct (decide (unrun g = 0%nat)) as [E|E].
  - exists g. by repeat split; try apply A.
  - destruct (deliver_first now g E) as (i & g1 & Hd & Hlt).
    destruct (IH _ Hlt g1 eq_refl) as (g' & Hr & Hz & A' & Hv & Hf).
    { eapply Agg_step; [done|by econstructor]. }
    exists g'. split; [eapply rtc_l; [|done]; by exists i, 0%nat|]. do 2 (split; [done|]).
    rewrite Hv, Hf. split; [by eapply deliver_values|by eapply deliver_keeps_fn].
Qed.

Lemma unrun_outstanding (g : Aggregator T) : unrun g = 0%nat -> ~ outstanding g.
Proof.
  unfold unrun. intros Hz (a & s & v & Ha & Hin & _). revert Hz Ha.
  induction (sources g) as [|b ss IH]; cbn; [by intros _ ?%elem_of_nil|].
  intros Hz [->|Ha]%elem_of_cons; [|apply IH; [lia|done]].
  destruct (goroutines b); [by apply elem_of_nil in Hin|cbn in Hz; lia].
Qed.

Lemma settled_value (g : Aggregator T) : Agg g -> ~ outstanding g -> sources g <> [] -> Get (target g) = aggregate g.
Proof. intros [_ [?|[?|?]]]; done. Qed.

(** An aggregator whose notifications run to their end one at a time settles:
    whatever was written to its sources and whatever was added, when no
    notification is outstanding the target is the aggregate of the values the
    sources have, and running the notifications that are outstanding gets
    there without another write to a source. *)
Theorem aggregator_settles tg (t : FA T) (f : list T -> T) g now :
  rtc agg_step (NewAggregator tg t f) g -> sources g <> [] ->
  (~ outstanding g -> Get (target g) = f (map Get (sources g))) /\
  exists g', rtc (drains now) g g' /\ ~ outstanding g' /\ map Get (sources g') = map Get (sources g) /\
    Get (target g') = f (map Get (sources g)).
Proof.
  intros R Hne. pose proof (Agg_reachable _ _ (Agg_new tg t f) R) as A.
  pose proof (steps_keep_fn _ _ R) as Hf. cbn in Hf. split.
  - intros Ho. rewrite (settled_value g A Ho Hne). unfold aggregate. by rewrite Hf.
  - destruct (drained now g A) as (g' & Hr & Hz & A' & Hv & Hf'). pose proof (unrun_outstanding _ Hz) as Ho.
    exists g'. repeat split; [done..|]. rewrite settled_value; [|done..|].
    + unfold aggregate. by rewrite Hv, Hf', Hf.
    + intros Hs. apply Hne. rewrite Hs in Hv. by destruct (sources g).
Qed.
End Aggregators.

(** Two sources of 0 and 5: one is written twice, the notifications run. *)
Definition sum_sources : Aggregator Z :=
  write_source 4 0 9 (write_source 3 0 7 (AddSource 2 (NewFA 0 [5]) (AddSource 1 (NewFA 0 [0]) (NewAggregator 1 (NewFA 0 []) sum_Z)))).
Lemma aggregator_settles_witness :
  Get (target sum_sources) = 5 /\
  exists g', rtc (drains 9) sum_sources g' /\ ~ outstanding g' /\ map Get (sources g') = [9; 5] /\ Get (target g') = 14.
Proof.
  split; [reflexivity|].
  apply (aggregator_settles 1%nat (NewFA 0 []) sum_Z sum_sources 9); [|by vm_compute].
  eapply rtc_l; [apply (as_add _ 1 (NewFA 0 [0]))|]. eapply rtc_l; [apply (as_add _ 2 (NewFA 0 [5]))|].
  eapply rtc_l; [apply (as_write _ 3 0 7)|]. eapply rtc_l; [apply (as_write _ 4 0 9)|]. apply rtc_refl.
Defined.

(** ** Updates at the same time

    [updateTarget] reads the sources and writes the target in two steps, each
    in the goroutine [k] of a notification; [threads] holds what was read. *)
Module Racing.
Section Racing.
Context {T : Type} `{GoType T}.
Record state : Type := mkState { agg : Aggregator T; threads : gmap nat T }.
Inductive act : Type := AWrite (i : nat) (v : T) | ARead (k i j : nat) | ASet (k : nat).
Definition atom (now : Z) (s : state) (e : act) : option state :=
  match e with
  | AWrite i v => Some (mkState (write_source now i v (agg s)) (threads s))
  | ARead k i j =>
      match threads s !! k, sources (agg s) !! i with
      | None, Some a =>
          match take_notification (tag (agg s)) j a with
          | Some (a, Some _) =>
              let g := set_sources (<[i := a]> (sources (agg s))) (agg s) in
              Some (mkState g (<[k := aggregate g]> (threads s)))
          | _ => None
          end
      | _, _ => None
      end
  | ASet k =>
      match threads s !! k with
      | Some v => Some (mkState (set_target (Fields.Set_ now v (target (agg s))) (agg s)) (delete k (threads s)))
      | None => None
      end
  end.
Fixpoint exec (now : Z) (es : list act) (s : state) : option state :=
  match es with
  | [] => Some s
  | e :: es => match atom now s e with Some s => exec (now + 1) es s | None => None end
  end.
End Racing.
Arguments state T : clear implicits.
Arguments act T : clear implicits.

Definition one_source : Aggregator Z := AddSource 1 (NewFA 0 [0]) (NewAggregator 1 (NewFA 0 []) sum_Z).
Definition overtaken : list (act Z) := [AWrite 0 1; ARead 1 0 0; AWrite 0 2; ARead 2 0 0; ASet 2; ASet 1].

(** The goroutine of the first write may set the target last: nothing is
    outstanding, and the target keeps an aggregate of values the source no
    longer has. *)
Theorem aggregate_overtaken : match exec 2 overtaken (mkState one_source ∅) with
  | Some s => map_to_list (threads s) = [] /\ unrun (agg s) = 0%nat /\ Get (target (agg s)) = 1 /\ aggregate (agg s) = 2
  | None => False
  end.
Proof. vm_compute. by repeat split. Qed.
End Racing.

(** ** The throttler *)
Section Throttlers.
Context {T : Type} `{GoType T}.
Definition throttle_all (cs : list (Z * T)) (t : Throttler T) : Throttler T := foldl (fun t c => throttle c.1 c.2 t) t cs.
Definition in_order (cs : list (Z * T)) : Prop := StronglySorted (fun c d => c.1 <= d.1) cs.

(** What the throttler did with changes [cs]: [acc] reached the target. *)
Record Throttled (d : Z) (cs acc : list (Z * T)) : Prop := {
  thr_sub : acc `sublist_of` cs;
  thr_apart : StronglySorted (fun a b => a.1 + d <= b.1) acc;
  thr_dropped : Forall (fun c => c ∈ acc \/ exists a, a ∈ acc /\ a.1 <= c.1 < a.1 + d) cs
}.

Lemma throttle_all_spec (cs : list (Z * T)) : forall log t, 0 <= interval t -> in_order cs -> Rep log (th_target t) ->
  (forall l, lastUpdate t = Some l -> Forall (fun c => l <= c.1) cs) ->
  exists acc, Rep (log ++ map snd acc) (th_target (throttle_all cs t)) /\ acc `sublist_of` cs /\
    StronglySorted (fun a b => a.1 + interval t <= b.1) acc /\
    (forall l, lastUpdate t = Some l -> Forall (fun a => l + interval t <= a.1) acc) /\
    Forall (fun c => c ∈ acc \/ (exists a, a ∈ acc /\ a.1 <= c.1 < a.1 + interval t) \/
                     exists l, lastUpdate t = Some l /\ l <= c.1 < l + interval t) cs.
Proof.
  induction cs as [|[now v] cs IH]; intros log t Hd Ho R Hl.
  { exists []. cbn. rewrite app_nil_r. split_and!; (done || constructor). }
  change (throttle_all ((now, v) :: cs) t) with (throttle_all cs (throttle now v t)).
  apply StronglySorted_inv in Ho as [Ho Hle].
  unfold throttle. destruct (match lastUpdate t with None => true | Some l => interval t <=? now - l end) eqn:E; cbn [fst snd].
  - set (t' := mkThrottler _ _ _ _).
    destruct (IH (log ++ [v]) t') as (acc & Ra & Hs & Ha & Hb & Hc); [done|done|by apply Rep_write| |].
    { intros l [= <-]. exact Hle. }
    specialize (Hb now eq_refl). exists ((now, v) :: acc). cbn [map snd].
    split; [by rewrite <- app_assoc in Ra|]. split; [by constructor|]. split; [by constructor|]. split.
    + intros l Hlast. rewrite Hlast in E. apply Z.leb_le in E.
      constructor; [cbn; lia|]. eapply Forall_impl; [exact Hb|]. intros; cbn in *; lia.
    + constructor; [left; by left|]. eapply Forall_impl; [exact Hc|].
      intros c [?|[(a & ? & ?)|(l & [= <-] & ?)]]; [left; by right|right; left; exists a; split; [by right|done]|].
      right; left. exists (now, v). split; [by left|done].
  - destruct (lastUpdate t) as [l|] eqn:El; [|done]. apply Z.leb_gt in E.
    specialize (Hl l eq_refl). inv Hl.
    destruct (IH log t) as (acc & Ra & Hs & Ha & Hb & Hc); [done|done|done|by intros ? [= <-]%(eq_trans (eq_sym El))|].
    exists acc. rewrite El in *. split_and!; [done|by constructor|done..|].
    constructor; [|done]. right; right. exists l. cbn in *. split; [done|lia].
Qed.

(** A throttler writes a part of the changes it hears, in their order, to the
    target, no two of them less than the interval apart; the first change is
    written, and a change is dropped only within an interval after a written
    one. *)
Theorem throttle_spaced tag d (source tgt : FA T) log cs :
  0 <= d -> in_order cs -> Rep log tgt ->
  exists acc, Rep (log ++ map snd acc) (th_target (throttle_all cs (NewThrottler tag source tgt d).2)) /\
    Throttled d cs acc /\ head acc = head cs.
Proof.
  intros Hd Ho R. destruct cs as [|[now v] cs].
  { exists []. cbn. rewrite app_nil_r. split; [done|]. split; [|done]. split; constructor. }
  apply StronglySorted_inv in Ho as [Ho Hle].
  set (t := mkThrottler (Fields.Set_ now v tgt) d (Some now) (Some (Subscribe tag source).1)).
  change (throttle_all _ _) with (throttle_all cs t).
  destruct (throttle_all_spec cs (log ++ [v]) t) as (acc & Ra & Hs & Ha & Hb & Hc); [done|done|by apply Rep_write| |].
  { intros l [= <-]. exact Hle. }
  exists ((now, v) :: acc). cbn [map snd]. split; [by rewrite <- app_assoc in Ra|]. split; [|done]. split.
  - by constructor.
  - constructor; [done|]. eapply Forall_impl; [exact (Hb now eq_refl)|done].
  - constructor; [left; by left|]. eapply Forall_impl; [exact Hc|].
    intros c [?|[(a & ? & ?)|(l & [= <-] & ?)]]; [left; by right|right; exists a; split; [by right|done]|].
    right. exists (now, v). split; [by left|done].
Qed.
End Throttlers.

Lemma throttle_spaced_witness :
  exists acc, Rep ([0] ++ map snd acc) (th_target (throttle_all [(1, 7); (3, 8); (12, 9); (13, 6)] (NewThrottler 1 (NewFA 0 [0]) (NewFA 0 [0]) 10).2)) /\
    Throttled 10 [(1, 7); (3, 8); (12, 9); (13, 6)] acc /\ head acc = Some (1, 7).
Proof.
  apply (throttle_spaced 1%nat 10 (NewFA 0 [0]) (NewFA 0 [0]) [0] [(1, 7); (3, 8); (12, 9); (13, 6)]).
  - lia.
  - repeat (constructor; [|repeat constructor; cbn; lia]). constructor.
  - exact (Rep_new 0 [0]).
Defined.

(** Nothing writes a dropped change later: the target may keep a value the
    source has left. *)
Example throttle_drops_last : Get (th_target (throttle_all [(1, 7); (3, 8)] (NewThrottler 1 (NewFA 0 [0]) (NewFA 0 [0]) 10).2)) = 7.
Proof. reflexivity. Qed.

(** ** The debouncer *)
Section Debouncers.
Context {T : Type} `{GoType T}.

(** The changes not followed by another within the delay: the last of each burst. *)
Fixpoint burst_ends (d : Z) (cs : list (Z * T)) : list T :=
  match cs with
  | [] => []
  | c :: cs' =>
      match cs' with
      | c' :: _ => if c.1 + d <=? c'.1 then c.2 :: burst_ends d cs' else burst_ends d cs'
      | [] => [c.2]
      end
  end.

Lemma fire_pending now c (tgt : FA T) d u : fire now (mkDebouncer tgt d (Some (c.1 + d, c.2)) u) =
  if c.1 + d <=? now then mkDebouncer (Fields.Set_ (c.1 + d) c.2 tgt) d None u else mkDebouncer tgt d (Some (c.1 + d, c.2)) u.
Proof. done. Qed.

Lemma drive_pending cs : forall log (tgt : FA T) d u c end_, Rep log tgt ->
  last (c :: cs) = Some end_ ->
  Rep (log ++ burst_ends d (c :: cs))
    (de_target (fire (end_.1 + d) (drive cs (mkDebouncer tgt d (Some (c.1 + d, c.2)) u)))).
Proof.
  induction cs as [|c' cs IH]; intros log tgt d u c end_ R Hl.
  - injection Hl as <-. cbn [drive foldl]. rewrite fire_pending, Z.leb_refl. by apply Rep_write.
  - change (drive (c' :: cs) ?D) with (drive cs (debounce c'.1 c'.2 (fire c'.1 D))).
    rewrite fire_pending. change (burst_ends d (c :: c' :: cs)) with
      (if c.1 + d <=? c'.1 then c.2 :: burst_ends d (c' :: cs) else burst_ends d (c' :: cs)).
    destruct (c.1 + d <=? c'.1); unfold debounce; cbn [de_target delay de_unsub].
    + rewrite (cons_middle c.2 log). rewrite app_assoc. apply IH; [by apply Rep_write|done].
    + by apply IH.
Qed.

(** The timer runs for the last change. *)
Lemma drive_timer cs : forall (tgt : FA T) d u c end_, last (c :: cs) = Some end_ ->
  exists tgt', drive cs (mkDebouncer tgt d (Some (c.1 + d, c.2)) u) = mkDebouncer tgt' d (Some (end_.1 + d, end_.2)) u.
Proof.
  induction cs as [|c' cs IH]; intros tgt d u c end_ Hl; [injection Hl as <-; by eexists|].
  change (drive (c' :: cs) ?D) with (drive cs (debounce c'.1 c'.2 (fire c'.1 D))).
  rewrite fire_pending. destruct (_ <=? _); by apply IH.
Qed.

(** A debouncer writes to its target the last change of every burst and no
    other, each once, when the delay has passed without another change; the
    last change is always written. *)
Theorem debounce_bursts tag d (source tgt : FA T) log c cs end_ :
  Rep log tgt -> last (c :: cs) = Some end_ ->
  let d' := fire (end_.1 + d) (drive (c :: cs) (NewDebouncer tag source tgt d).2) in
  Rep (log ++ burst_ends d (c :: cs)) (de_target d') /\ Get (de_target d') = end_.2 /\ timer d' = None.
Proof.
  intros R Hl d'. split; [by apply drive_pending|].
  destruct (drive_timer cs tgt d (Some (Subscribe tag source).1) c end_ Hl) as [tgt' E].
  subst d'. change (drive (c :: cs) _) with (drive cs (mkDebouncer tgt d (Some (c.1 + d, c.2)) (Some (Subscribe tag source).1))).
  by rewrite E, fire_pending, Z.leb_refl.
Qed.
End Debouncers.

Lemma debounce_bursts_witness :
  let d' := fire 25 (drive [(1, 7); (3, 8); (13, 9); (15, 6)] (NewDebouncer 1 (NewFA 0 [0]) (NewFA 0 [0]) 10).2) in
  Rep [0; 8; 6] (de_target d') /\ Get (de_target d') = 6 /\ timer d' = None.
Proof.
  apply (debounce_bursts 1%nat 10 (NewFA 0 [0]) (NewFA 0 [0]) [0] (1, 7) [(3, 8); (13, 9); (15, 6)] (15, 6)).
  - exact (Rep_new 0 [0]).
  - reflexivity.
Defined.

(** ** The transformer *)
Section Transformers.
Context {T U : Type} `{GoType T} `{GoType U}.

(** The values callback [tg] has not yet been given. *)
Definition awaited (tg : nat) (a : FA T) : list T := omap (passed tg) (goroutines a).
Inductive tr_op : Type := TWrite (v : T) | TRun.
(** Notifications run in the order they were launched. *)
Definition tr_step (now : Z) (tg : nat) (t : Transformer T U) (o : tr_op) : Transformer T U :=
  match o with
  | TWrite v => mkTransformer (Fields.Set_ now v (tr_source t)) (tr_target t) (transformFn t) (tr_unsub t)
  | TRun => default t (tr_deliver now tg 0 t)
  end.
Definition tr_run (tg : nat) (os : list (Z * tr_op)) (t : Transformer T U) : Transformer T U :=
  foldl (fun t o => tr_step o.1 tg t o.2) t os.

Record Follows (tg : nat) (f : T -> U) (t : Transformer T U) : Prop := {
  fol_hears : hears tg (tr_source t);
  fol_fn : transformFn t = f;
  fol_value : match last (awaited tg (tr_source t)) with
              | Some v => v = Get (tr_source t)
              | None => Get (tr_target t) = f (Get (tr_source t))
              end
}.

Lemma passed_value tg (s : subscriber T) v w : passed tg (s, v) = Some w -> w = v.
Proof. unfold passed. cbn. destruct (decide _); [|done]. destruct (filter_of s) as [p|]; [destruct (p v); [|done]|]; by intros [= ->]. Qed.

Lemma awaited_Set tg now v (a : FA T) : hears tg a -> last (awaited tg (Fields.Set_ now v a)) = Some v.
Proof.
  intros (id & s & Hs & Ht & Hf). unfold awaited. cbn. rewrite omap_app.
  set (l := omap _ (map _ _)).
  assert (Forall (eq v) l) as Hl.
  { apply Forall_forall. intros w Hw. subst l. apply list_elem_of_omap in Hw as ([s' v'] & Hin & Hp).
    apply passed_value in Hp as ->. apply list_elem_of_fmap in Hin as (q & [= -> ->] & _). done. }
  assert (v ∈ l) as Hv.
  { subst l. apply list_elem_of_omap. exists (s, v). split.
    - apply list_elem_of_fmap. exists (id, s). split; [done|]. by apply elem_of_map_to_list.
    - unfold passed. cbn. by rewrite decide_True, Hf. }
  destruct (last l) as [w|] eqn:Hw.
  - rewrite last_app, Hw. f_equal. apply last_Some_elem_of in Hw. rewrite Forall_forall in Hl. symmetry. by apply Hl.
  - apply last_None in Hw. rewrite Hw in Hv. by apply elem_of_nil in Hv.
Qed.

Lemma Follows_step tg f now (t : Transformer T U) o : Follows tg f t -> Follows tg f (tr_step now tg t o).
Proof.
  intros [Hh Hf Hv]. destruct o as [v|]; cbn [tr_step].
  - split; [done|done|]. cbn [tr_source]. by rewrite awaited_Set.
  - unfold tr_deliver. destruct (take_notification tg 0 (tr_source t)) as [[a w]|] eqn:Hk; [|by split].
    apply take_notification_spec in Hk as (p & Hp & -> & ->).
    unfold awaited in Hv. destruct (goroutines (tr_source t)) as [|q l]; [done|]. injection Hp as ->.
    destruct p as [s v]. change (omap (passed tg) ((s, v) :: l)) with
      (match passed tg (s, v) with Some w => w :: omap (passed tg) l | None => omap (passed tg) l end) in Hv.
    destruct (passed tg (s, v)) as [w|]; split; try done; unfold awaited; cbn.
    destruct (omap (passed tg) l) as [|u l'] using rev_ind; [cbn in *; by rewrite Hv, Hf|].
    rewrite app_comm_cons, last_snoc in Hv. by rewrite last_snoc.
Qed.

Lemma Follows_run tg f os : forall t : Transformer T U, Follows tg f t -> Follows tg f (tr_run tg os t).
Proof. induction os as [|o os IH]; intros t F; [done|]. apply IH. by apply Follows_step. Qed.

(** A transformer whose notifications run in the order of the writes follows
    its source: when none is outstanding, the target is the image of the value
    the source has. *)
Theorem transformer_follows tg now (source : FA T) (tgt : FA U) f os :
  awaited tg source = [] ->
  let t := tr_run tg os (NewTransformer now tg source tgt f) in
  awaited tg (tr_source t) = [] -> Get (tr_target t) = f (Get (tr_source t)).
Proof.
  intros Ha t Ht. assert (Follows tg f t) as [_ _ Hv].
  { apply Follows_run. split; [apply (Subscribe_hears tg source)|done|]. cbn [NewTransformer Subscribe SubscribeIf tr_source tr_target].
    unfold awaited in *. cbn [goroutines]. by rewrite Ha. }
  by rewrite Ht in Hv.
Qed.
End Transformers.

Lemma transformer_follows_witness :
  let t := tr_run 1 [(1, TWrite 7); (2, TWrite 8); (3, TRun); (4, TRun)] (NewTransformer 0 1 (NewFA 0 [0]) (NewFA 0 [0]) (Z.mul 2)) in
  awaited 1 (tr_source t) = [] /\ Get (tr_target t) = 16.
Proof.
  split; [reflexivity|].
  apply (transformer_follows 1%nat 0 (NewFA 0 [0]) (NewFA 0 [0]) (Z.mul 2) [(1, TWrite 7); (2, TWrite 8); (3, TRun); (4, TRun)]); reflexivity.
Defined.

(** The goroutines may run in another order: the target keeps the image of an
    older value. *)
Example transformer_overtaken :
  match tr_deliver 3 1 1 (tr_run 1 [(1, TWrite 7); (2, TWrite 8)] (NewTransformer 0 1 (NewFA 0 [0]) (NewFA 0 [0]) (Z.mul 2))) with
  | Some t => let t := tr_step 4 1 t TRun in
      awaited 1 (tr_source t) = [] /\ Get (tr_source t) = 8 /\ Get (tr_target t) = 14
  | None => False
  end.
Proof. vm_compute. by repeat split. Qed.

(** ** The validator reports the errors of the values it is given, in order,
    and does not keep any of them out of the accessor. *)
Theorem validator_reports {T E} `{GoType T} tag (a : FA T) (check : T -> option E) vs :
  reported (foldl (fun v x => validate x v) (NewValidator tag a check true).2 vs) = omap check vs.
Proof.
  assert (forall v, validateFn v = check -> onError v = true ->
    reported (foldl (fun v x => validate x v) v vs) = reported v ++ omap check vs) as G.
  { induction vs as [|x vs IH]; intros v Hf Ho; cbn; [by rewrite app_nil_r|].
    unfold validate at 2. rewrite Hf, Ho. destruct (check x) as [e|]; rewrite IH by done; [|done].
    cbn. by rewrite <- app_assoc. }
  by rewrite G.
Qed.

(** ** A transaction that timed out is made all the same: its error does not
    say that the accessor has the value it had. *)
Theorem timeout_still_commits {T E} `{Comparable T} `{EqDecision T} {X} (e : E) now (f : T -> T) (x : X) (a : FA T) :
  is_Some (value a) ->
  TimeoutWrapper_Transaction (Some e) (fun _ => now) undisturbed (fun v x => (Done (f v), x)) x a =
  (Done (Err e), (x, Fields.Set_ now (f (Get a)) a)).
Proof. intros Ha. unfold TimeoutWrapper_Transaction. by rewrite Transaction_alone. Qed.

Lemma timeout_still_commits_witness :
  is_Some (value (NewFA 0 [5])) /\
  TimeoutWrapper_Transaction (Some tt) (fun _ => 1) undisturbed (fun v x => (Done (v + 1), x)) tt (NewFA 0 [5]) =
  (Done (Err tt), (tt, Fields.Set_ 1 6 (NewFA 0 [5]))).
Proof. split; [by eexists|]. apply (timeout_still_commits tt 1 (fun v => v + 1) tt (NewFA 0 [5])). by eexists. Defined.
