(* ===== verification/ConnectionWorkers.v ===== *)
(** * The goroutines of a QUIC connection ([protocol/quic/connection.go])

    A connection starts an accept loop, a sending loop and a health monitor;
    the accept loop starts a handler for each stream, and callers close the
    connection and receive from it. Here their steps interleave: a step is the
    code between two points where another goroutine may be seen, built from the
    operations of Connections. A round of the sending loop and a ping are one
    step each. *)
From S2P Require Import Prelude Errors Messages Frames Streams Channels Connections.
From Stdlib Require Import ZArith Lia Strings.String Strings.Byte.
From stdpp Require Import base tactics list strings gmap sorting.
Import Transport (BaseTransport, UpdateStats).
Open Scope Z_scope.

(** A goroutine, by what it does next. *)
Inductive thread : Type :=
  (* [handleMessages] *)
  | AccSelect | AccGuard | AccWait | AccFailed | AccReturn | AccEnd
  (* [handleStreamMessages] of a stream object *)
  | HCall (ref : nat) | HRead (ref : nat) | HForward (ref : nat) (l : Pool.loc) | HClose (ref : nat) | HEnd
  (* [handleSending] *)
  | SSelect | SEnd
  (* [monitorConnection] *)
  | MSelect | MFailed | MEnd
  (* [Close], called by the monitor or by others *)
  | CSwap | CStreams | CMark | CEnd
  (* [ReceiveMessage] *)
  | RGuard | RSelect | REnd.

(** What a goroutine meets at a step that has several outcomes. *)
Inductive event : Type :=
  | EGo
  | ESelect (pick : selected) (now : Z)
  | EAccept (id : StreamID) (now : Z)
  | EMessage (choice : option nat) (fresh : Pool.loc) (mid : MessageID) (now : Z) (m : Message)
  | EError
  | ESend (id : StreamID) (now : Z)
  | ETick (id : StreamID) (start finish now : Z) (choice : option nat) (fresh : Pool.loc) (mid : MessageID) (m0 : Message).

Section Workers.
Context {Conn Raw : Type} {RS : RawStream Raw} {QC : QuicConn Conn Raw}.
Context (sizeof_Message : Z).

(** The connection, its transport's statistics, the message pool, the
    goroutines; and for the record the messages taken off the streams, queued,
    delivered to a receiver, and given up undelivered, these with the pool
    before and after. *)
Record world : Type := mkWorld {
  con : Connection Conn Raw; tr : BaseTransport; mem : Pool.MessagePool; threads : list thread;
  taken : list Pool.loc; forwarded : list Pool.loc; delivered : list Pool.loc;
  released : list (Pool.loc * (Pool.MessagePool * Pool.MessagePool)) }.

Definition start (c : Connection Conn Raw) (t : BaseTransport) (p : Pool.MessagePool) : world :=
  mkWorld c t p [AccSelect; SSelect; MSelect] [] [] [] [].

Definition become (t : nat) (th : thread) (w : world) : world :=
  mkWorld (con w) (tr w) (mem w) (<[t := th]> (threads w)) (taken w) (forwarded w) (delivered w) (released w).
Definition with_con (c : Connection Conn Raw) (w : world) : world :=
  mkWorld c (tr w) (mem w) (threads w) (taken w) (forwarded w) (delivered w) (released w).
Definition with_mem (p : Pool.MessagePool) (w : world) : world :=
  mkWorld (con w) (tr w) p (threads w) (taken w) (forwarded w) (delivered w) (released w).
Definition spawn (th : thread) (w : world) : world :=
  mkWorld (con w) (tr w) (mem w) (threads w ++ [th]) (taken w) (forwarded w) (delivered w) (released w).

Definition has_room {T} (ch : GoChan T) : bool := Z.of_nat (length (chan_buf ch)) <? chan_cap ch.

(** [handleMessages]. *)
Definition accept_loop (t : nat) (th : thread) (e : event) (w : world) : option (outcome world) :=
  let c := con w in
  match th, e with
  | AccSelect, ESelect SelDone _ => if done c then Some (Done (become t AccReturn w)) else None
  | AccSelect, EGo => if done c then None else Some (Done (become t AccGuard w))
  | AccGuard, EGo => Some (Done (become t (if usable c then AccWait else AccFailed) w))
  | AccWait, EAccept id now =>
      Some (Done (match accept_next id now c with
                  | (c, Ok ref) => spawn (HCall ref) (become t AccSelect (with_con c w))
                  | (c, Err _) => become t AccFailed (with_con c w)
                  end))
  | AccWait, EError => Some (Done (become t AccFailed w))   (* the context's timeout *)
  | AccFailed, EGo => Some (Done (become t (if cclosed c then AccReturn else AccSelect) w))
  | AccReturn, EGo =>
      Some (mq ← close_chan (messageQueue c); Done (become t AccEnd (with_con (set_queues mq (sendQueue c) c) w)))
  | _, _ => None
  end.

(** [handleStreamMessages]: a read returns a message, in a pool object, or an
    error; the call of [ReceiveMessage] first looks at the stream's flag. *)
Definition handle_stream (t : nat) (th : thread) (e : event) (w : world) : option (outcome world) :=
  let c := con w in
  match th, e with
  | HCall ref, EGo =>
      Some (Done (become t (match stream_objs c !! ref with
                            | Some s => if Streams.closed s then HClose ref else HRead ref
                            | None => HClose ref
                            end) w))
  | HRead ref, EMessage choice fresh mid now m =>
      let '(p, l) := Pool.Get (mem w) choice fresh mid now in
      let p := Pool.mkPool (<[l := m]> (Pool.heap p)) (Pool.free p) (Pool.gets p) (Pool.puts p) in
      Some (Done (mkWorld c (tr w) p (<[t := HForward ref l]> (threads w)) (taken w ++ [l]) (forwarded w) (delivered w) (released w)))
  | HRead ref, EError => Some (Done (become t (HClose ref) w))
  | HForward ref l, ESelect pick _ =>
      match forward pick l (mem w) c with
      | Panic => Some Panic
      | Done None => None
      | Done (Some (p, c', more)) =>
          let sent := match pick with SelMessage => has_room (messageQueue c) | _ => false end in
          Some (Done (mkWorld c' (tr w) p (<[t := if (more : bool) then HCall ref else HClose ref]> (threads w)) (taken w)
            (forwarded w ++ if sent then [l] else []) (delivered w) (released w ++ if sent then [] else [(l, (mem w, p))])))
      end
  | HClose ref, EGo => Some (Done (become t HEnd (with_con (close_stream ref c) w)))
  | _, _ => None
  end.

(** [handleSending] and [monitorConnection]. *)
Definition send_loop (t : nat) (th : thread) (e : event) (w : world) : option (outcome world) :=
  match th, e with
  | SSelect, ESend id now => '(p, c) ← handleSending sizeof_Message id now (mem w) (con w); Some (Done (with_mem p (with_con c w)))
  | SSelect, ESelect SelDone _ => if done (con w) then Some (Done (become t SEnd w)) else None
  | _, _ => None
  end.
Definition monitor_loop (t : nat) (th : thread) (e : event) (w : world) : option (outcome world) :=
  match th, e with
  | MSelect, ETick id start finish now choice fresh mid m0 =>
      let '(p, c, r) := Ping id start finish now choice fresh mid m0 (mem w) (con w) in
      Some (Done (become t (match r with Ok _ => MSelect | Err _ => MFailed end) (with_mem p (with_con c w))))
  | MSelect, ESelect SelDone _ => if done (con w) then Some (Done (become t MEnd w)) else None
  | MFailed, EGo => Some (Done (become t CSwap (with_con (SetState ConnectionStateError (con w)) w)))
  | _, _ => None
  end.

(** [Close], in three steps. *)
Definition close_call (t : nat) (th : thread) (e : event) (w : world) : option (outcome world) :=
  let c := con w in
  match th, e with
  | CSwap, EGo => Some (Done (if cclosed c then become t CEnd w else become t CStreams (with_con (close_flag c) w)))
  | CStreams, EGo =>
      let c := close_streams (SetState ConnectionStateDisconnecting c) in
      Some (Done (become t CMark (with_con (set_conn (close_with_error (conn c)).1 c) w)))
  | CMark, EGo =>
      Some (Done (mkWorld (MarkClosed (SetState ConnectionStateDisconnected c))
        (UpdateStats "connections_active" minus_one (tr w)) (mem w) (<[t := CEnd]> (threads w))
        (taken w) (forwarded w) (delivered w) (released w)))
  | _, _ => None
  end.

(** [ReceiveMessage], its guard and its [select]. *)
Definition receive_call (t : nat) (th : thread) (e : event) (w : world) : option (outcome world) :=
  match th, e with
  | RGuard, EGo => Some (Done (become t (if cclosed (con w) then REnd else RSelect) w))
  | RSelect, ESelect pick now =>
      '(c, r) ← receive_select sizeof_Message pick now (mem w) (con w);
      Some (Done (mkWorld c (tr w) (mem w) (<[t := REnd]> (threads w)) (taken w) (forwarded w)
        (delivered w ++ match r with Ok l => [l] | Err _ => [] end) (released w)))
  | _, _ => None
  end.

Definition advance (t : nat) (th : thread) (e : event) (w : world) : option (outcome world) :=
  match th with
  | AccSelect | AccGuard | AccWait | AccFailed | AccReturn | AccEnd => accept_loop t th e w
  | HCall _ | HRead _ | HForward _ _ | HClose _ | HEnd => handle_stream t th e w
  | SSelect | SEnd => send_loop t th e w
  | MSelect | MFailed | MEnd => monitor_loop t th e w
  | CSwap | CStreams | CMark | CEnd => close_call t th e w
  | RGuard | RSelect | REnd => receive_call t th e w
  end.

Inductive act : Type := Run (t : nat) (e : event) | CallClose | CallReceive | CallSend (l : Pool.loc).
Definition step (a : act) (w : world) : option (outcome world) :=
  match a with
  | Run t e => th ← threads w !! t; advance t th e w
  | CallClose => Some (Done (spawn CSwap w))
  | CallReceive => Some (Done (spawn RGuard w))
  | CallSend l => let '(p, c, _) := SendMessage l (mem w) (con w) in Some (Done (with_mem p (with_con c w)))
  end.
(** A step that cannot be taken is skipped. *)
Fixpoint run (acts : list act) (w : world) : outcome world :=
  match acts with
  | [] => Done w
  | a :: acts => match step a w with None => run acts w | Some Panic => Panic | Some (Done w) => run acts w end
  end.
End Workers.
Arguments world : clear implicits.

Section Facts.
Context {Conn Raw : Type} {RS : RawStream Raw} {QC : QuicConn Conn Raw}.
Context (sizeof_Message : Z).
Implicit Types (c : Connection Conn Raw) (w : world Conn Raw).

(** What the operations on streams leave alone. *)
Definition same_core c c' : Prop :=
  messageQueue c' = messageQueue c /\ cclosed c' = cclosed c /\ done c' = done c.
#[local] Instance same_core_preorder : PreOrder same_core.
Proof. split; [intros c|intros c1 c2 c3 (? & ? & ?) (? & ? & ?)]; split_and!; congruence. Qed.

Lemma on_stream_core {A} ref (d : A) f c : same_core c (on_stream ref d f c).1.
Proof. unfold on_stream. destruct (stream_objs c !! ref); [|done]. by destruct (f s). Qed.
Lemma close_stream_core ref c : same_core c (close_stream ref c).
Proof. apply on_stream_core. Qed.
Lemma OpenStream_core id now c : same_core c (OpenStream id now c).1.
Proof. unfold OpenStream. repeat case_match; done. Qed.
Lemma accept_next_core id now c : same_core c (accept_next id now c).1.
Proof. unfold accept_next. by destruct (accept_stream _) as [? []]. Qed.
Lemma close_streams_core c : same_core c (close_streams c).
Proof.
  unfold close_streams. generalize (map_to_list (streams c)). intros kvs. revert c.
  induction kvs as [|kv kvs IH]; intros c; [done|]. cbn [foldl]. etrans; [apply close_stream_core|apply IH].
Qed.

Lemma sendMessageInternal_core id now m c : same_core c (sendMessageInternal sizeof_Message id now m c).1.
Proof.
  unfold sendMessageInternal. pose proof (OpenStream_core id now c) as H1. destruct (OpenStream id now c) as [c1 [ref|e]]; [|done].
  pose proof (on_stream_core ref None (Streams.SendMessage now m) c1) as H2.
  destruct (on_stream _ _ _ _) as [c2 [e|]]; cbn in *; (etrans; [exact H1|etrans; [exact H2|]]); [apply close_stream_core|].
  etrans; [|apply close_stream_core]. done.
Qed.
Lemma handleSending_core id now p c p' c' : handleSending sizeof_Message id now p c = Some (p', c') -> same_core c c'.
Proof.
  unfold handleSending. destruct (try_recv None (sendQueue c)) as [sq [[l|]|]]; [|by intros [= <- <-]|done].
  intros [= <- <-]. etrans; [|apply sendMessageInternal_core]. done.
Qed.
Lemma Ping_core id st fin now ch fr mid m0 p c : same_core c (Ping id st fin now ch fr mid m0 p c).1.2.
Proof.
  unfold Ping. destruct (cclosed c) eqn:Ec; [done|]. destruct (Pool.Get p ch fr mid now) as [p1 l].
  pose proof (OpenStream_core id now c) as H1. destruct (OpenStream id now c) as [c1 [ref|e]]; [|done].
  match goal with |- context [on_stream ref None ?f c1] => pose proof (on_stream_core ref None f c1) as H2; destruct (on_stream ref None f c1) as [c2 [e|]] end.
  { cbn. etrans; [exact H1|etrans; [exact H2|apply close_stream_core]]. }
  pose proof (on_stream_core ref (Err EOF_) (Streams.ReceiveMessage now m0) c2) as H3.
  destruct (on_stream ref (Err EOF_) _ c2) as [c3 [x|e]]; cbn in *;
    (etrans; [exact H1|etrans; [exact H2|etrans; [exact H3|apply close_stream_core]]]).
Qed.
Lemma SendMessage_core l p c : same_core c (SendMessage l p c).1.2.
Proof. unfold SendMessage, enqueue. destruct (usable c); [|done]. cbn. by destruct (try_send _ _) as [[? []]|]. Qed.

(** ** The invariant *)
Definition acceptor (th : thread) : bool :=
  match th with AccSelect | AccGuard | AccWait | AccFailed | AccReturn | AccEnd => true | _ => false end.
Definition in_hand (th : thread) : option Pool.loc := match th with HForward _ l => Some l | _ => None end.
(** The goroutines whose position says that the connection is closed. *)
Definition knows_closed (th : thread) : bool :=
  match th with AccReturn | AccEnd | CStreams | CMark => true | _ => false end.

(** The accept loop is the first goroutine and the only one of its kind, and
    the queue is closed when it has ended. *)
Record Control (ths : list thread) (qclosed closed isdone : bool) : Prop := {
  ctl_acceptor : exists a rest, ths = a :: rest /\ acceptor a = true /\ Forall (fun th => acceptor th = false) rest /\
    (qclosed = true <-> a = AccEnd);
  ctl_done : isdone = true -> closed = true;
  ctl_knows : Forall (fun th => knows_closed th = true -> closed = true) ths
}.
Record Inv (n : Z) (w : world Conn Raw) : Prop := {
  inv_cap : chan_cap (messageQueue (con w)) = n;
  inv_len : Z.of_nat (length (chan_buf (messageQueue (con w)))) <= n;
  inv_queue : exists rest, chan_buf (messageQueue (con w)) = Some <$> rest /\ forwarded w = delivered w ++ rest;
  inv_taken : taken w ≡ₚ forwarded w ++ (released w).*1 ++ omap in_hand (threads w);
  inv_released : Forall (fun r => r.2.2 = Pool.Release r.2.1 r.1) (released w);
  inv_control : Control (threads w) (chan_closed (messageQueue (con w))) (cclosed (con w)) (done (con w))
}.

Lemma Control_insert t th0 th ths q q' cl cl' d d' : Control ths q cl d -> ths !! t = Some th0 ->
  acceptor th = acceptor th0 -> (if acceptor th then q' = true <-> th = AccEnd else q' = q) ->
  (cl = true -> cl' = true) -> (d' = true -> cl' = true) -> (knows_closed th = true -> cl' = true) ->
  Control (<[t := th]> ths) q' cl' d'.
Proof.
  intros [(a & rest & -> & Ha & Hr & Hq) Hd Hk] Ht Hacc Hq' Hc Hd' Hth. split; [|done|].
  - destruct t as [|t]; cbn in Ht |- *.
    + injection Ht as ->. exists th, rest. rewrite Hacc, Ha in Hq'. split_and!; [done|congruence|done|apply Hq'].
    + assert (acceptor th = false) as Hf by (rewrite Hacc; by apply (Forall_lookup_1 _ _ _ _ Hr Ht)). rewrite Hf in Hq'. subst q'.
      exists a, (<[t:=th]> rest). split_and!; [done|done|by apply Forall_insert|apply Hq].
  - apply Forall_insert; [|done]. eapply Forall_impl; [exact Hk|]. cbn. auto.
Qed.
Lemma Control_snoc th ths q cl d : Control ths q cl d -> acceptor th = false -> knows_closed th = false -> Control (ths ++ [th]) q cl d.
Proof.
  intros [(a & rest & -> & Ha & Hr & Hq) Hd Hk] Hacc Hth. split; [|done|].
  - exists a, (rest ++ [th]). split_and!; [done|done| |apply Hq]. apply Forall_app. by split; [|constructor].
  - apply Forall_app. split; [done|]. constructor; [congruence|done].
Qed.

Lemma omap_insert_hand (t : nat) (th0 th : thread) (l : list thread) : l !! t = Some th0 ->
  option_list (in_hand th0) ++ omap in_hand (<[t := th]> l) ≡ₚ option_list (in_hand th) ++ omap in_hand l.
Proof.
  revert t. induction l as [|x l IH]; intros [|t] H; [done|done| |].
  - injection H as ->. cbn. destruct (in_hand th0), (in_hand th); cbn; try done. constructor.
  - cbn. specialize (IH t H). destruct (in_hand x); [|done]. by rewrite <- Permutation_middle, IH, <- Permutation_middle.
Qed.

(** A step that changes its own goroutine and the connection but not the queue. *)
Lemma Inv_update n t th0 th c' b p w : Inv n w -> threads w !! t = Some th0 ->
  acceptor th = acceptor th0 -> in_hand th = in_hand th0 -> (th = AccEnd <-> th0 = AccEnd) ->
  messageQueue c' = messageQueue (con w) -> (cclosed (con w) = true -> cclosed c' = true) ->
  (done c' = true -> cclosed c' = true) -> (knows_closed th = true -> cclosed c' = true) ->
  Inv n (mkWorld c' b p (<[t := th]> (threads w)) (taken w) (forwarded w) (delivered w) (released w)).
Proof.
  intros [H1 H2 H3 H4 H6 H5] Ht Hacc Hh He Hq Hc Hd Hk. split; cbn; rewrite ?Hq; try done.
  - rewrite H4. do 2 f_equiv. pose proof (omap_insert_hand t th0 th (threads w) Ht) as P. rewrite Hh in P.
    by apply Permutation_app_inv_l in P.
  - eapply Control_insert; [exact H5|exact Ht|done| |done..]. destruct (acceptor th) eqn:Ea; [|done].
    destruct H5 as [(a & rest & E & Ha & Hr & Hqa) _ _]. rewrite He. rewrite E in Ht. destruct t as [|t]; cbn in Ht; [by injection Ht as ->|].
    pose proof (Forall_lookup_1 _ _ _ _ Hr Ht) as Hf. cbn in Hf. congruence.
Qed.
Lemma Inv_core n t th0 th c' p w : Inv n w -> threads w !! t = Some th0 ->
  acceptor th = acceptor th0 -> in_hand th = in_hand th0 -> (th = AccEnd <-> th0 = AccEnd) ->
  same_core (con w) c' -> (knows_closed th = true -> cclosed (con w) = true) ->
  Inv n (mkWorld c' (tr w) p (<[t := th]> (threads w)) (taken w) (forwarded w) (delivered w) (released w)).
Proof.
  intros I Ht Ha Hh He (Hq & Hc & Hd) Hk. eapply Inv_update; try done; rewrite ?Hc, ?Hd; try done. apply (ctl_done _ _ _ _ (inv_control _ _ I)).
Qed.
Lemma Inv_same n c' p w : Inv n w -> same_core (con w) c' -> Inv n (with_mem p (with_con c' w)).
Proof. intros [H1 H2 H3 H4 H6 H5] (Hq & Hc & Hd). split; cbn; rewrite ?Hq, ?Hc, ?Hd; done. Qed.
Lemma Inv_spawn n th w : Inv n w -> acceptor th = false -> knows_closed th = false -> in_hand th = None -> Inv n (spawn th w).
Proof.
  intros [H1 H2 H3 H4 H6 H5] Ha Hk Hh. split; cbn; try done; [|by apply Control_snoc].
  rewrite omap_app. cbn. rewrite Hh. by rewrite app_nil_r.
Qed.

(** The goroutine found by [Ht] moves on, the connection's flags as they were. *)
#[local] Ltac moved Ht := eapply Control_insert; [eassumption|exact Ht|..]; try done; by eapply ctl_done.

(** A step keeps the invariant, and panics only on a connection that is closed. *)
Definition fine (n : Z) w (o : option (outcome (world Conn Raw))) : Prop :=
  match o with None => True | Some Panic => cclosed (con w) = true | Some (Done w') => Inv n w' end.

Lemma knows_lookup n t th w : Inv n w -> threads w !! t = Some th -> knows_closed th = true -> cclosed (con w) = true.
Proof. intros I Ht. exact (Forall_lookup_1 _ _ _ _ (ctl_knows _ _ _ _ (inv_control _ _ I)) Ht). Qed.
Lemma done_closed n w : Inv n w -> done (con w) = true -> cclosed (con w) = true.
Proof. intros I. exact (ctl_done _ _ _ _ (inv_control _ _ I)). Qed.
Lemma Inv_become n t th0 th w : Inv n w -> threads w !! t = Some th0 -> acceptor th = acceptor th0 ->
  in_hand th = in_hand th0 -> (th = AccEnd <-> th0 = AccEnd) -> (knows_closed th = true -> cclosed (con w) = true) ->
  Inv n (become t th w).
Proof. intros. by eapply (Inv_core n t th0 th (con w) (mem w) w). Qed.

Lemma accept_loop_ok n t th e w : Inv n w -> threads w !! t = Some th -> fine n w (accept_loop t th e w).
Proof.
  intros I Ht. pose proof (done_closed _ _ I) as Hd. destruct th; try done; destruct e; try done; cbn [accept_loop].
  - destruct (done (con w)); [done|]. by eapply Inv_become.
  - destruct pick; try done. destruct (done (con w)); [|done]. by eapply Inv_become.
  - eapply Inv_become; try done; by destruct (usable _).
  - cbn. pose proof (accept_next_core id now (con w)) as Hc. destruct (accept_next id now (con w)) as [c [ref|err]].
    + apply Inv_spawn; [|done..]. cbn in Hc; by eapply (Inv_core n t AccWait AccSelect c (mem w) w).
    + cbn in Hc; by eapply (Inv_core n t AccWait AccFailed c (mem w) w).
  - by eapply Inv_become.
  - eapply Inv_become; try done; by destruct (cclosed _).
  - pose proof (knows_lookup _ _ _ _ I Ht eq_refl) as Hk. unfold close_chan. destruct (chan_closed (messageQueue (con w))) eqn:Eq; cbn; [done|].
    destruct I as [H1 H2 H3 H4 H6 H5]. split; cbn; try done.
    + rewrite H4. do 2 f_equiv. by pose proof (omap_insert_hand t AccReturn AccEnd (threads w) Ht).
    + moved Ht.
Qed.

Lemma handle_stream_ok n t th e w : Inv n w -> threads w !! t = Some th -> fine n w (handle_stream t th e w).
Proof.
  intros I Ht. destruct th; try done; destruct e; try done; cbn [handle_stream].
  - eapply Inv_become; try done; by repeat case_match.
  - destruct (Pool.Get _ _ _ _ _) as [p l]. cbn. destruct I as [H1 H2 H3 H4 H6 H5]. split; cbn; try done.
    + rewrite H4, <- !app_assoc. do 2 f_equiv. rewrite Permutation_app_comm. symmetry.
      exact (omap_insert_hand t (HRead ref) (HForward ref l) (threads w) Ht).
    + moved Ht.
  - by eapply Inv_become.
  - pose proof (omap_insert_hand t (HForward ref l) (HCall ref) (threads w) Ht) as P1.
    pose proof (omap_insert_hand t (HForward ref l) (HClose ref) (threads w) Ht) as P2. cbn [in_hand option_list app] in P1, P2.
    destruct pick; cbn [forward]; try done.
    + unfold try_send, has_room. destruct (chan_closed (messageQueue (con w))) eqn:Eq; cbn.
      { destruct (inv_control _ _ I) as [(a & rest & E & _ & _ & Hq) _ Hk]. apply (knows_lookup n 0%nat AccEnd w I); [|done].
        rewrite E. by rewrite (proj1 Hq Eq). }
      destruct I as [H1 H2 (rest & H3 & H3') H4 H6 H5]. destruct (Z.ltb_spec (Z.of_nat (length (chan_buf (messageQueue (con w))))) (chan_cap (messageQueue (con w)))); cbn.
      * split; cbn; try done.
        -- rewrite length_app. cbn. lia.
        -- exists (rest ++ [l]). rewrite H3, fmap_app. split; [done|]. by rewrite H3', <- app_assoc.
        -- rewrite app_nil_r, H4, <- P1, <- !app_assoc. f_equiv. cbn. by rewrite <- Permutation_middle.
        -- by rewrite app_nil_r.
        -- rewrite <- Eq at 1. moved Ht.
      * destruct (done (con w)) eqn:Ed; cbn; [done|]. rewrite app_nil_r. split; cbn; try done; [by exists rest| | |].
        -- rewrite H4, <- P1, fmap_app, <- !app_assoc. done.
        -- apply Forall_app. split; [done|]. by constructor.
        -- rewrite Ed. moved Ht.
    + destruct (done (con w)) eqn:Ed; cbn; [|done]. destruct I as [H1 H2 H3 H4 H6 H5]. rewrite app_nil_r. split; cbn; try done.
      * rewrite H4, <- P2, fmap_app, <- !app_assoc. done.
      * apply Forall_app. split; [done|]. by constructor.
      * moved Ht.
  - eapply (Inv_core n t (HClose ref) HEnd (close_stream ref (con w)) (mem w) w); try done. apply close_stream_core.
Qed.

Lemma loops_ok n t th e w : Inv n w -> threads w !! t = Some th ->
  fine n w (send_loop sizeof_Message t th e w) /\ fine n w (monitor_loop t th e w) /\ fine n w (close_call t th e w) /\
  fine n w (receive_call sizeof_Message t th e w).
Proof.
  intros I Ht. pose proof (done_closed _ _ I) as Hd. split_and!; destruct th; try done; destruct e; try done; cbn [send_loop monitor_loop close_call receive_call].
  - destruct pick; try done. destruct (done (con w)); [|done]. by eapply Inv_become.
  - destruct (handleSending _ _ _ _ _) as [[p c]|] eqn:E; [|done]. apply handleSending_core in E. by apply Inv_same.
  - destruct pick; try done. destruct (done (con w)); [|done]. by eapply Inv_become.
  - match goal with |- context [Ping ?i ?s ?f ?n ?ch ?fr ?mi ?m ?p ?c] =>
      pose proof (Ping_core i s f n ch fr mi m p c) as Hc; destruct (Ping i s f n ch fr mi m p c) as [[p' c'] r] end. cbn in *. eapply (Inv_core n t MSelect _ c' p' w); try done; by destruct r.
  - by eapply (Inv_core n t MFailed CSwap (SetState ConnectionStateError (con w)) (mem w) w).
  - cbn. destruct (cclosed (con w)) eqn:Ec; [by eapply Inv_become|].
    by eapply (Inv_update n t CSwap CStreams (close_flag (con w)) (tr w) (mem w) w).
  - cbn. pose proof (knows_lookup _ _ _ _ I Ht eq_refl) as Hk.
    destruct (close_streams_core (SetState ConnectionStateDisconnecting (con w))) as (? & E2 & ?).
    eapply (Inv_core n t CStreams CMark _ (mem w) w); done.
  - cbn. pose proof (knows_lookup _ _ _ _ I Ht eq_refl) as Hk.
    by eapply (Inv_update n t CMark CEnd (MarkClosed (SetState ConnectionStateDisconnected (con w))) _ (mem w) w).
  - eapply Inv_become; try done; by destruct (cclosed _).
  - destruct pick; cbn [receive_select].
    + unfold try_recv. pose proof I as [H1 H2 (rest & H3 & H3') H4 H6 H5]. rewrite H3. destruct rest as [|l rest]; cbn.
      * rewrite H3 in H2. destruct (chan_closed _) eqn:Eq; cbn; [|done]. rewrite app_nil_r.
        eapply (Inv_update n t RSelect REnd _ (tr w) (mem w) w); done.
      * split; cbn; try done.
        -- rewrite H3 in H2. cbn in H2. lia.
        -- exists rest. split; [done|]. by rewrite H3', <- app_assoc.
        -- rewrite H4. do 2 f_equiv. by pose proof (omap_insert_hand t RSelect REnd (threads w) Ht).
        -- moved Ht.
    + cbn. rewrite app_nil_r. by eapply (Inv_update n t RSelect REnd (con w) (tr w) (mem w) w).
    + case_match; [|done]. cbn. rewrite app_nil_r. eapply (Inv_update n t RSelect REnd (con w) (tr w) (mem w) w); auto; done.
Qed.

Lemma worker_step_ok n a w : Inv n w -> fine n w (step sizeof_Message a w).
Proof.
  intros I. destruct a as [t e| | |l]; cbn [step].
  - destruct (threads w !! t) as [th|] eqn:Ht; [|done]. cbn. destruct (loops_ok n t th e w I Ht) as (? & ? & ? & ?).
    destruct th; by first [apply accept_loop_ok|apply handle_stream_ok|assumption].
  - by apply Inv_spawn.
  - by apply Inv_spawn.
  - pose proof (SendMessage_core l (mem w) (con w)) as Hc. destruct (SendMessage l (mem w) (con w)) as [[p c] r]. by apply Inv_same.
Qed.
Lemma worker_run_ok n acts : forall w w', Inv n w -> run sizeof_Message acts w = Done w' -> Inv n w'.
Proof.
  induction acts as [|a acts IH]; intros w w' I; cbn [run]; [by intros [= <-]|].
  pose proof (worker_step_ok n a w I) as F. destruct (step sizeof_Message a w) as [[w1|]|]; [by apply IH|done|by apply IH].
Qed.
Lemma Inv_world_start k now n m c t p : NewQUICConnection k now n m = Done c -> Inv n (start c t p : world Conn Raw).
Proof.
  unfold NewQUICConnection, make_chan. destruct (Z.ltb_spec n 0); [done|]. intros [= <-]. split; cbn; try done.
  - by exists [].
  - split; cbn; try done; [|by repeat constructor]. exists AccSelect, [SSelect; MSelect]. split_and!; try done. by repeat constructor.
Qed.
End Facts.

Section Theorems.
Context {Conn Raw : Type} {RS : RawStream Raw} {QC : QuicConn Conn Raw}.
Context (sizeof_Message : Z).

(** C9: Whatever the goroutines of a connection, its callers and the network do,
    in whatever order: the messages put in the queue are delivered in that
    order, each once, those not delivered yet being the queue, which is never
    longer than the configured size; every message taken off a stream is queued,
    was given up for a full or closed connection by releasing it to the pool, or
    is in the hand of one handler; the queue is closed only on a closed
    connection; and while the connection is not closed no step panics. *)
Theorem messages_accounted k now n m c (t : BaseTransport) p acts (w : world Conn Raw) :
  NewQUICConnection k now n m = Done c -> run sizeof_Message acts (start c t p) = Done w ->
  let queue := messageQueue (con w) in
  (exists rest, chan_buf queue = Some <$> rest /\ forwarded w = delivered w ++ rest) /\
  Z.of_nat (length (chan_buf queue)) <= n /\
  taken w ≡ₚ forwarded w ++ (released w).*1 ++ omap in_hand (threads w) /\
  Forall (fun r => r.2.2 = Pool.Release r.2.1 r.1) (released w) /\
  (chan_closed queue = true -> cclosed (con w) = true) /\
  (cclosed (con w) = false -> forall a, step sizeof_Message a w <> Some Panic).
Proof.
  intros Hc Hrun. pose proof (worker_run_ok _ n acts _ w (Inv_world_start k now n m c t p Hc) Hrun) as I.
  split_and!; [apply I|apply I|apply I|apply I| |].
  - destruct (inv_control _ _ I) as [(a & rest & E & _ & _ & Hq) _ _]. intros Hcl. apply (knows_lookup n 0%nat AccEnd w I); [|done].
    rewrite E. by rewrite (proj1 Hq Hcl).
  - intros Ho a Hp. pose proof (worker_step_ok sizeof_Message n a w I) as F. rewrite Hp in F. cbn in F. congruence.
Qed.

(** ** The end of the accept loop *)

(** How many steps of its own it has left on a closed connection. *)
Definition acc_left (th : thread) : nat :=
  match th with AccWait => 6 | AccSelect => 4 | AccGuard => 3 | AccFailed => 2 | AccReturn => 1 | _ => 0 end.

(** The events the accept loop may meet, one of which is always possible. *)
Definition next_event (c : Connection Conn Raw) (th : thread) : event :=
  match th with
  | AccSelect => if done c then ESelect SelDone 0 else EGo
  | AccWait => EError
  | _ => EGo
  end.

Lemma accept_loop_runs n t th (w : world Conn Raw) : Inv n w -> threads w !! t = Some th -> acceptor th = true -> th <> AccEnd ->
  exists w' th', step sizeof_Message (Run t (next_event (con w) th)) w = Some (Done w') /\ threads w' = <[t := th']> (threads w) /\
    acceptor th' = true /\ (cclosed (con w) = true -> cclosed (con w') = true /\ (acc_left th' < acc_left th)%nat).
Proof.
  intros I Ht Ha Hn. cbn [step]. rewrite Ht. cbn [mbind option_bind].
  destruct th; try done; cbn [next_event advance].
  - destruct (done (con w)) eqn:Ed; cbn; rewrite Ed; eexists _, _; split_and!; try done; cbn; intros; split; try done; lia.
  - cbn. eexists _, _. split_and!; [done|done|by destruct (usable _)|]. intros Hcl. split; [done|].
    unfold usable. rewrite Hcl. cbn. lia.
  - cbn. eexists _, _. split_and!; [done..|]. cbn. intros. split; [done|lia].
  - cbn. eexists _, _. split_and!; [done|done|by destruct (cclosed _)|]. intros Hcl. rewrite Hcl. cbn. split; [done|lia].
  - cbn. unfold close_chan. destruct (chan_closed (messageQueue (con w))) eqn:Eq; cbn.
    { destruct (inv_control _ _ I) as [(a & rest & E & Ha' & Hr & Hq) _ _]. rewrite E in Ht. destruct t as [|t]; cbn in Ht.
      - injection Ht as ->. by pose proof (proj1 Hq Eq).
      - by pose proof (Forall_lookup_1 _ _ _ _ Hr Ht). }
    eexists _, _. split_and!; [done..|]. cbn. intros. split; [done|lia].
Qed.

Lemma accept_loop_closed t th e (w w' : world Conn Raw) : cclosed (con w) = true -> accept_loop t th e w = Some (Done w') ->
  exists th', (threads w' = <[t := th']> (threads w) \/ exists ref, threads w' = <[t := th']> (threads w) ++ [HCall ref]) /\ (acc_left th' < acc_left th)%nat.
Proof.
  intros Hcl. destruct th; try done; destruct e; try done; cbn [accept_loop].
  - destruct (done (con w)); [done|]. intros [= <-]. exists AccGuard. split; [by left|]. cbn. lia.
  - destruct pick; try done. destruct (done (con w)); [|done]. intros [= <-]. exists AccReturn. split; [by left|]. cbn. lia.
  - unfold usable. rewrite Hcl. intros [= <-]. exists AccFailed. split; [by left|]. cbn. lia.
  - destruct (accept_next id now (con w)) as [c [ref|err]]; intros [= <-]; [exists AccSelect|exists AccFailed]; cbn; (split; [|lia]); eauto.
  - intros [= <-]. exists AccFailed. split; [by left|]. cbn. lia.
  - rewrite Hcl. intros [= <-]. exists AccReturn. split; [by left|]. cbn. lia.
  - destruct (close_chan _); [|done]. intros [= <-]. exists AccEnd. split; [by left|]. cbn. lia.
Qed.

Lemma run_app acts1 acts2 (w : world Conn Raw) :
  run sizeof_Message (acts1 ++ acts2) w = (w' ← run sizeof_Message acts1 w; run sizeof_Message acts2 w').
Proof. revert w. induction acts1 as [|a acts1 IH]; intros w; cbn [run app]; [done|]. by destruct (step sizeof_Message a w) as [[w1|]|]; rewrite ?IH. Qed.

Lemma acceptor_ends n fuel th rest (w : world Conn Raw) : (acc_left th <= fuel)%nat -> Inv n w -> cclosed (con w) = true ->
  threads w = th :: rest -> acceptor th = true ->
  exists acts w', run sizeof_Message acts w = Done w' /\ threads w' = AccEnd :: rest /\ Inv n w'.
Proof.
  revert th w. induction fuel as [|fuel IH]; intros th w Hf I Hcl E Ha.
  - exists [], w. split; [done|]. rewrite E. split; [|done]. f_equal. by destruct th; cbn in Hf; try lia.
  - assert (th = AccEnd \/ th <> AccEnd) as [->|Hn] by (destruct th; auto; right; done).
    { exists [], w. by rewrite E. }
    destruct (accept_loop_runs n 0 th w I) as (w1 & th1 & Hs & E1 & Ha1 & Hc1); [by rewrite E|done|done|].
    destruct (Hc1 Hcl) as [Hcl1 Hl]. rewrite E in E1. cbn in E1.
    assert (Inv n w1) as I1. { pose proof (worker_step_ok sizeof_Message n (Run 0 (next_event (con w) th)) w I) as F. by rewrite Hs in F. }
    destruct (IH th1 w1) as (acts & w' & Hr & E' & I'); [lia|done..|].
    exists (Run 0 (next_event (con w) th) :: acts), w'. cbn [run]. by rewrite Hs.
Qed.

(** C29: Once a connection is closed its accept loop ends: it is never stuck, and
    each of its steps, whatever the network does, leaves it fewer steps, at most
    six; its last step closes the queue. *)
Theorem accept_loop_stops k now n m c (t : BaseTransport) p acts (w : world Conn Raw) :
  NewQUICConnection k now n m = Done c -> run sizeof_Message acts (start c t p) = Done w -> cclosed (con w) = true ->
  exists th rest, threads w = th :: rest /\ (acc_left th <= 6)%nat /\
    (chan_closed (messageQueue (con w)) = true <-> th = AccEnd) /\
    (th <> AccEnd -> exists e w', step sizeof_Message (Run 0 e) w = Some (Done w')) /\
    forall e w', step sizeof_Message (Run 0 e) w = Some (Done w') ->
      exists th', threads w' !! 0%nat = Some th' /\ (acc_left th' < acc_left th)%nat.
Proof.
  intros Hc Hrun Hcl. pose proof (worker_run_ok _ n acts _ w (Inv_world_start k now n m c t p Hc) Hrun) as I.
  destruct (inv_control _ _ I) as [(th & rest & E & Ha & _ & Hq) _ _]. exists th, rest. split_and!; [done| |done| |].
  - destruct th; cbn; lia.
  - intros Hn. destruct (accept_loop_runs n 0 th w I) as (w1 & th1 & Hs & _); [by rewrite E|done|done|]. eauto.
  - intros e w' Hs. cbn [step] in Hs. rewrite E in Hs. cbn [lookup list_lookup mbind option_bind] in Hs.
    assert (accept_loop 0 th e w = Some (Done w')) as Hs' by (destruct th; done).
    destruct (accept_loop_closed 0 th e w w' Hcl Hs') as (th' & Hth & Hl). exists th'. split; [|done].
    rewrite E in Hth. by destruct Hth as [->|[ref ->]].
Qed.

(** Closing races with forwarding: whenever a handler holds a message it took
    off its stream, closing the connection and letting the accept loop end, which
    closes the queue, before the handler goes on makes the handler's send panic.
    The [done] channel is no protection: it is closed after the accept loop can
    have seen the closed flag, and the handler's [select] may take either case. *)
Theorem close_races_with_forward k now n m c (t : BaseTransport) p acts (w : world Conn Raw) h ref l :
  NewQUICConnection k now n m = Done c -> run sizeof_Message acts (start c t p) = Done w -> cclosed (con w) = false ->
  threads w !! h = Some (HForward ref l) ->
  exists acts', run sizeof_Message (acts ++ CallClose :: acts') (start c t p) = Panic.
Proof.
  intros Hc Hrun Hcl Hh. pose proof (worker_run_ok _ n acts _ w (Inv_world_start k now n m c t p Hc) Hrun) as I.
  destruct (inv_control _ _ I) as [(th & rest & E & Ha & _ & _) _ _].
  set (x := length (threads w)). set (w1 := become x CStreams (with_con (close_flag (con w)) (spawn CSwap w))).
  assert (step sizeof_Message (Run x EGo) (spawn CSwap w) = Some (Done w1)) as Hs1.
  { cbn [step]. cbn [threads spawn]. unfold x. rewrite lookup_app_r, Nat.sub_diag by done. cbn. by rewrite Hcl. }
  assert (Inv n w1) as I1.
  { pose proof (worker_step_ok sizeof_Message n (Run x EGo) (spawn CSwap w)) as F. rewrite Hs1 in F. apply F. by apply Inv_spawn. }
  assert (threads w1 = th :: rest ++ [CStreams]) as E1.
  { unfold w1, become, x. cbn [threads with_con spawn]. rewrite insert_app_r_alt, Nat.sub_diag by lia. by rewrite E. }
  destruct (acceptor_ends n _ th (rest ++ [CStreams]) w1 (le_n _) I1 eq_refl E1 Ha) as (acts' & w2 & Hr2 & E2 & I2).
  exists (Run x EGo :: acts' ++ [Run h (ESelect SelMessage 0)]).
  rewrite run_app, Hrun. cbn [mbind outcome_bind]. cbn [run]. change (step sizeof_Message CallClose w) with (Some (Done (spawn CSwap w))).
  cbv iota. rewrite Hs1, run_app, Hr2. cbn [mbind outcome_bind run step].
  assert (threads w2 !! h = Some (HForward ref l)) as Hh2.
  { rewrite E2. rewrite E in Hh. destruct h as [|h]; cbn in *; [by injection Hh as ->|]. by apply lookup_app_l_Some. }
  rewrite Hh2. cbn [mbind option_bind advance handle_stream forward]. unfold try_send.
  destruct (inv_control _ _ I2) as [(a & rest2 & E2' & _ & _ & Hq) _ _]. rewrite E2 in E2'. injection E2' as <- _.
  by rewrite (proj2 Hq eq_refl).
Qed.

Lemma OpenStream_exhausted id now (c : Connection Conn Raw) : budget 0 c -> OpenStream id now c = (c, Err (Sentinel ErrMaxStreamsReached)).
Proof.
  intros (Hu & Hm & Hs & H0). unfold OpenStream. rewrite Hu. cbn [negb].
  rewrite wrapS_id by (unfold in_s; lia). by rewrite (proj2 (Z.ltb_lt 0 _)), (proj2 (Z.leb_le _ _)) by lia.
Qed.

(** The health check opens a stream too: a connection that has used up its
    streams, by sending or by earlier health checks, fails its next check, and
    the monitor closes it, though nothing is wrong with the network. *)
Theorem exhausted_connection_closes t id st fin now choice fresh mid m0 (w : world Conn Raw) :
  budget 0 (con w) -> threads w !! t = Some MSelect ->
  exists w', run sizeof_Message (Run t (ETick id st fin now choice fresh mid m0) :: replicate 4 (Run t EGo)) w = Done w' /\
    cclosed (con w') = true /\ done (con w') = true /\ threads w' = <[t := CEnd]> (threads w) /\
    tr w' = UpdateStats "connections_active" minus_one (tr w).
Proof.
  intros Hb Ht. assert (cclosed (con w) = false) as Hcl by apply usable_spec, Hb.
  pose proof (lookup_lt_Some _ _ _ Ht) as Hlt. cbn [replicate run step]. rewrite Ht. cbn [mbind option_bind advance monitor_loop].
  unfold Ping. rewrite Hcl. destruct (Pool.Get (mem w) choice fresh mid now) as [p l]. rewrite OpenStream_exhausted by done. cbv beta iota zeta.
  repeat (cbn [threads become with_con with_mem]; rewrite list_lookup_insert_eq by (rewrite ?length_insert; done);
    cbn [mbind option_bind advance monitor_loop close_call con become with_con with_mem SetState cclosed]; rewrite ?Hcl).
  eexists. split; [reflexivity|]. cbn. rewrite !list_insert_insert_eq. split_and!; try done.
  by destruct (close_streams_core (SetState ConnectionStateDisconnecting (close_flag (SetState ConnectionStateError (con w))))) as (_ & -> & _).
Qed.
End Theorems.

(** ** Instances *)
Definition one_connection : Connection unit Pipe := conn_with 0 5 [].
(** A stream is accepted and its handler takes a message; then it queues it,
    takes another, and a caller receives the first. *)
Definition takes_one : list act :=
  [Run 0 EGo; Run 0 EGo; Run 0 (EAccept "s" 0); Run 3 EGo; Run 3 (EMessage None 1%positive "m" 0 Pool.blank)].
Definition takes_two : list act := takes_one ++
  [Run 3 (ESelect SelMessage 0); Run 3 EGo; Run 3 (EMessage None 2%positive "n" 0 Pool.blank); CallReceive; Run 4 EGo; Run 4 (ESelect SelMessage 0)].

Lemma messages_accounted_witness : exists w : world unit Pipe,
  run 96 takes_two (start one_connection Transport.NewBaseTransport Pool.NewMessagePool) = Done w /\
  delivered w = [1%positive] /\ taken w ≡ₚ [1%positive; 2%positive] /\ forall a, step 96 a w <> Some Panic.
Proof.
  destruct (run 96 takes_two (start one_connection Transport.NewBaseTransport Pool.NewMessagePool)) as [w|] eqn:E; [|by vm_compute in E].
  exists w. split; [done|]. destruct (messages_accounted 96 tt 0 10 5 one_connection _ _ takes_two w eq_refl E) as (_ & _ & Hp & _ & _ & Hs).
  assert (delivered w = [1%positive] /\ forwarded w = [1%positive] /\ released w = [] /\ omap in_hand (threads w) = [2%positive] /\ cclosed (con w) = false)
    as (-> & E1 & E2 & E3 & E4) by (vm_compute in E; injection E as <-; vm_compute; done).
  rewrite E1, E2, E3 in Hp. split; [done|]. split; [exact Hp|]. exact (Hs E4).
Defined.

Lemma accept_loop_stops_witness : exists w : world unit Pipe,
  run 96 [CallClose; Run 3 EGo] (start one_connection Transport.NewBaseTransport Pool.NewMessagePool) = Done w /\
  exists e w', step 96 (Run 0 e) w = Some (Done w').
Proof.
  destruct (run 96 [CallClose; Run 3 EGo] (start one_connection Transport.NewBaseTransport Pool.NewMessagePool)) as [w|] eqn:E; [|by vm_compute in E].
  exists w. split; [done|].
  destruct (accept_loop_stops 96 tt 0 10 5 one_connection _ _ [CallClose; Run 3 EGo] w eq_refl E) as (th & rest & Hth & _ & _ & Hs & _).
  { vm_compute in E. by injection E as <-. }
  apply Hs. vm_compute in E. injection E as <-. vm_compute in Hth. by injection Hth as <- <-.
Defined.

Lemma close_races_with_forward_witness : exists acts' : list act,
  run 96 (takes_one ++ CallClose :: acts') (start one_connection Transport.NewBaseTransport Pool.NewMessagePool) = Panic.
Proof.
  destruct (run 96 takes_one (start one_connection Transport.NewBaseTransport Pool.NewMessagePool)) as [w|] eqn:E; [|by vm_compute in E].
  apply (close_races_with_forward 96 tt 0 10 5 one_connection _ _ takes_one w 3 0 1%positive eq_refl E);
    vm_compute in E; injection E as <-; reflexivity.
Defined.

Lemma exhausted_connection_closes_witness : exists w' : world unit Pipe,
  run 96 (Run 2 (ETick "p" 0 0 0 None 1%positive "m" Pool.blank) :: replicate 4 (Run 2 EGo))
    (start (conn_with 5 5 []) Transport.NewBaseTransport Pool.NewMessagePool) = Done w' /\ done (con w') = true.
Proof.
  destruct (exhausted_connection_closes 96 2 "p" 0 0 0 None 1%positive "m" Pool.blank
    (start (conn_with 5 5 []) Transport.NewBaseTransport Pool.NewMessagePool)) as (w' & E & _ & Hd & _).
  - repeat split; reflexivity || discriminate.
  - reflexivity.
  - exists w'. split; [exact E|exact Hd].
Defined.
