(* ===== verification/QuicTransport.v ===== *)
(** * The QUIC transport ([protocol/quic/transport.go], [listener.go], [quic.go])

    Dialing, listening and accepting on top of quic-go and the sockets of the
    system, both behind class [QuicNet]; the configuration passed to quic-go;
    and the transport with its listeners and connections, whose counters the
    connections of [Connections] share. *)
From S2P Require Import Prelude Errors Messages Streams Channels Connections Server Registry.
From Stdlib Require Import ZArith Lia Strings.String Strings.Ascii.
From stdpp Require Import base tactics list strings gmap relations.
Import Connections.Transport (BaseTransport, UpdateStats).
Open Scope Z_scope.

(** ** [net.SplitHostPort] *)
Definition index_of (c : ascii) (s : list ascii) : option nat := fst <$> list_find (eq c) s.
Definition last_index_of (c : ascii) (s : list ascii) : option nat :=
  (fun i => (length s - 1 - i)%nat) <$> index_of c (rev s).
Definition occurs (c : ascii) (s : list ascii) : bool := bool_decide (c ∈ s).

Definition SplitHostPort (hostport : list ascii) : option (list ascii * list ascii) :=
  match last_index_of ":" hostport with
  | None => None
  | Some i =>
      let port := drop (i + 1) hostport in
      if bool_decide (head hostport = Some "["%char) then
        match index_of "]" hostport with
        | None => None
        | Some e =>
            if negb (bool_decide (e + 1 = i)%nat) then None
            else if occurs "[" (drop 1 hostport) || occurs "]" (drop (e + 1) hostport) then None
            else Some (drop 1 (take e hostport), port)
        end
      else
        let host := take i hostport in
        if occurs ":" host || occurs "[" hostport || occurs "]" hostport then None
        else Some (host, port)
  end.

(** ** Configuration *)
Record TLSConfig : Type := mkTLS { InsecureSkipVerify : bool; ServerName : string; NextProtos : list string; MinVersion : Z }.
Definition set_ServerName (s : string) (c : TLSConfig) : TLSConfig :=
  mkTLS (InsecureSkipVerify c) s (NextProtos c) (MinVersion c).
Definition VersionTLS13 : Z := 772.
Definition generateTLSConfig : TLSConfig := mkTLS true "" ["zeusync-quic"%string] VersionTLS13.

(** The fields of [quic.Config] that are set. *)
Record quic_Config : Type := mkQuic {
  q_MaxIncomingStreams : Z; q_MaxIncomingUniStreams : Z; q_MaxStreamReceiveWindow : Z; q_MaxConnectionReceiveWindow : Z;
  q_MaxIdleTimeout : Z; q_KeepAlivePeriod : Z; q_HandshakeIdleTimeout : Z;
  q_InitialStreamReceiveWindow : Z; q_InitialConnectionReceiveWindow : Z; q_EnableDatagrams : bool; q_DisablePathMTUDiscovery : bool
}.
Definition quic_Config_zero : quic_Config := mkQuic 0 0 0 0 0 0 0 0 0 false false.

Record Config : Type := mkConfig {
  MaxIncomingStreams : Z; MaxIncomingUniStreams : Z; MaxStreamReceiveWindow : Z; MaxConnectionReceiveWindow : Z;
  MaxIdleTimeout : Z; KeepAlivePeriod : Z; HandshakeIdleTimeout : Z;
  TLSConfig_ : option TLSConfig;
  InitialStreamReceiveWindow : Z; InitialConnectionReceiveWindow : Z; MaxDatagramFrameSize : Z; EnableDatagrams : bool;
  DisablePathMTUDiscovery : bool; QUICConfig : option quic_Config
}.
Definition DefaultQUICConfig : Config := {|
  MaxIncomingStreams := 100; MaxIncomingUniStreams := 100; MaxStreamReceiveWindow := 1024 * 1024;
  MaxConnectionReceiveWindow := 15 * 1024 * 1024; MaxIdleTimeout := 30 * second; KeepAlivePeriod := 15 * second;
  HandshakeIdleTimeout := 10 * second; InitialStreamReceiveWindow := 512 * 1024; InitialConnectionReceiveWindow := 1024 * 1024;
  MaxDatagramFrameSize := 1200; EnableDatagrams := true; DisablePathMTUDiscovery := false;
  TLSConfig_ := Some generateTLSConfig; QUICConfig := Some quic_Config_zero
|}.
Definition set_TLSConfig (tls : option TLSConfig) (c : Config) : Config := {|
  MaxIncomingStreams := MaxIncomingStreams c; MaxIncomingUniStreams := MaxIncomingUniStreams c;
  MaxStreamReceiveWindow := MaxStreamReceiveWindow c; MaxConnectionReceiveWindow := MaxConnectionReceiveWindow c;
  MaxIdleTimeout := MaxIdleTimeout c; KeepAlivePeriod := KeepAlivePeriod c; HandshakeIdleTimeout := HandshakeIdleTimeout c;
  InitialStreamReceiveWindow := InitialStreamReceiveWindow c; InitialConnectionReceiveWindow := InitialConnectionReceiveWindow c;
  MaxDatagramFrameSize := MaxDatagramFrameSize c; EnableDatagrams := EnableDatagrams c;
  DisablePathMTUDiscovery := DisablePathMTUDiscovery c; TLSConfig_ := tls; QUICConfig := QUICConfig c
|}.

(** ** quic-go and the sockets of the system, on a state [N] of the network *)
Class QuicNet (N Addr Sock QL Conn : Type) : Type := {
  resolve_udp : string -> N -> N * result error Addr;
  listen_udp : Addr -> N -> N * result error Sock;
  close_udp : Sock -> N -> N;
  quic_Listen : Sock -> option TLSConfig -> quic_Config -> N -> N * result error QL;
  quic_DialAddr : string -> TLSConfig -> quic_Config -> N -> N * result error Conn;
  quic_Accept : QL -> N -> N * result error Conn;
  quic_Close : QL -> N -> N * option error
}.

(** ** The transport *)
Record Transport : Type := mkTransport { base : BaseTransport; t_config : GlobalConfig; config : option Config }.
Definition set_base (b : BaseTransport) (t : Transport) : Transport := mkTransport b (t_config t) (config t).
Definition update_stats (field : string) (delta : Z) (t : Transport) : Transport := set_base (UpdateStats field delta (base t)) t.

Definition NewQUICTransport (cfg : option Config) (globalConfig : option GlobalConfig) : Transport :=
  mkTransport Transport.NewBaseTransport (default DefaultGlobalConfig globalConfig) (Some (default DefaultQUICConfig cfg)).
Definition NewQUICTransportWithTLS (tls : option TLSConfig) : Transport :=
  NewQUICTransport (Some (set_TLSConfig tls DefaultQUICConfig)) (Some DefaultGlobalConfig).

(** [buildQUICConfig]: its error is always nil; the transport's configuration
    is a pointer. *)
Definition buildQUICConfig (cfg : option GlobalConfig) (t : Transport) : outcome quic_Config :=
  let g := default DefaultGlobalConfig cfg in
  match config t with
  | None => Panic
  | Some c =>
      let streams own := if MaxStreams g >? 0 then MaxStreams g else own in
      Done {|
        q_MaxIncomingStreams := streams (MaxIncomingStreams c); q_MaxIncomingUniStreams := streams (MaxIncomingUniStreams c);
        q_MaxStreamReceiveWindow := MaxStreamReceiveWindow c; q_MaxConnectionReceiveWindow := MaxConnectionReceiveWindow c;
        q_MaxIdleTimeout := if IdleTimeout g >? 0 then IdleTimeout g else MaxIdleTimeout c;
        q_KeepAlivePeriod := if KeepAlive g >? 0 then KeepAlive g else KeepAlivePeriod c;
        q_HandshakeIdleTimeout := HandshakeIdleTimeout c;
        q_InitialStreamReceiveWindow := InitialStreamReceiveWindow c;
        q_InitialConnectionReceiveWindow := InitialConnectionReceiveWindow c;
        q_EnableDatagrams := EnableDatagrams c; q_DisablePathMTUDiscovery := DisablePathMTUDiscovery c |}
  end.

Definition client_tls (addr : string) (tls : TLSConfig) : TLSConfig :=
  if negb (InsecureSkipVerify tls) && String.eqb (ServerName tls) "" then
    match SplitHostPort (list_ascii_of_string addr) with
    | None => set_ServerName addr tls
    | Some (host, _) => set_ServerName (string_of_list_ascii host) tls
    end
  else tls.

Definition HealthCheck_ (now : Z) (t : Transport) : outcome HealthCheck :=
  if Transport.IsClosed (base t) then Done (mkHealth HealthStatusUnhealthy now (Some (ErrTransport (Sentinel ErrTransportClosed))))
  else _ ← buildQUICConfig (Some (t_config t)) t; Done (mkHealth HealthStatusHealthy now None).
Definition CloseTransport (t : Transport) : Transport := set_base (Transport.Close (base t)) t.
Definition GetQUICConfig (t : Transport) : option Config := config t.
Definition UpdateQUICConfig (c : option Config) (t : Transport) : Transport := mkTransport (base t) (t_config t) c.

Section Net.
Context {N Addr Sock QL Conn Raw : Type} `{QuicNet N Addr Sock QL Conn} {RS : RawStream Raw} {QC : QuicConn Conn Raw}.

Record Listener : Type := mkListener { listener : QL; l_config : option GlobalConfig; l_closed : bool }.
Definition NewQUICListener (l : QL) (cfg : option GlobalConfig) : Listener := mkListener l cfg false.

(** [NewQUICConnection] reads the queue size through the configuration's pointer. *)
Definition new_connection (k : Conn) (now : Z) (cfg : option GlobalConfig) : outcome (Connections.Connection Conn Raw) :=
  match cfg with
  | None => Panic
  | Some g => NewQUICConnection k now (MessageBufferSize g) (MaxStreams g)
  end.

Definition ListenWithConfig (now : Z) (addr : string) (cfg : option GlobalConfig) (t : Transport) (n : N)
    : outcome (Transport * N * result error Listener) :=
  if Transport.IsClosed (base t) then Done (t, n, Err (Sentinel ErrTransportClosed))
  else
    match resolve_udp addr n with
    | (n, Err e) => Done (update_stats "errors_encountered" 1 t, n, Err (WrapError now e "failed to resolve UDP address"))
    | (n, Ok udpAddr) =>
        match listen_udp udpAddr n with
        | (n, Err e) => Done (update_stats "errors_encountered" 1 t, n, Err (WrapError now e "failed to listen on UDP"))
        | (n, Ok udpConn) =>
            quicConfig ← buildQUICConfig cfg t;
            match quic_Listen udpConn (config t ≫= TLSConfig_) quicConfig n with
            | (n, Err e) =>
                Done (update_stats "errors_encountered" 1 t, close_udp udpConn n, Err (WrapError now e "failed to create QUIC listener"))
            | (n, Ok l) => Done (t, n, Ok (NewQUICListener l cfg))
            end
        end
    end.
Definition Listen (now : Z) (addr : string) (t : Transport) := ListenWithConfig now addr (Some (t_config t)) t.

Definition DialWithConfig (now : Z) (addr : string) (cfg : option GlobalConfig) (t : Transport) (n : N)
    : outcome (Transport * N * result error (Connections.Connection Conn Raw)) :=
  if Transport.IsClosed (base t) then Done (t, n, Err (Sentinel ErrTransportClosed))
  else
    quicConfig ← buildQUICConfig cfg t;
    match config t ≫= TLSConfig_ with
    | None => Panic
    | Some tls =>
        match quic_DialAddr addr (client_tls addr tls) quicConfig n with
        | (n, Err e) =>
            Done (update_stats "connections_failed" 1 (update_stats "errors_encountered" 1 t), n,
                  Err (WrapError now e "failed to dial QUIC connection"))
        | (n, Ok k) =>
            let t := update_stats "connections_active" 1 (update_stats "connections_dialed" 1 t) in
            c ← new_connection k now cfg; Done (t, n, Ok c)
        end
    end.
Definition Dial (now : Z) (addr : string) (t : Transport) := DialWithConfig now addr (Some (t_config t)) t.

Definition Accept (now : Z) (l : Listener) (t : Transport) (n : N)
    : outcome (Transport * N * result error (Connections.Connection Conn Raw)) :=
  if l_closed l then Done (t, n, Err (Sentinel ErrConnectionClosed))
  else
    match quic_Accept (listener l) n with
    | (n, Err e) =>
        Done (update_stats "connections_failed" 1 (update_stats "errors_encountered" 1 t), n,
              Err (WrapError now e "failed to accept QUIC connection"))
    | (n, Ok k) =>
        let t := update_stats "connections_active" 1 (update_stats "connections_accepted" 1 t) in
        c ← new_connection k now (l_config l); Done (t, n, Ok c)
    end.
Definition CloseListener (l : Listener) (n : N) : Listener * N * option error :=
  if l_closed l then (l, n, None)
  else let '(n, e) := quic_Close (listener l) n in (mkListener (listener l) (l_config l) true, n, e).

(** [CreateClientConnection], [CreateSecureClientConnection] and the two for
    listeners: each call has a transport of its own. *)
Definition CreateSecureClientConnection (now : Z) (addr : string) (tls : option TLSConfig) := Dial now addr (NewQUICTransportWithTLS tls).
Definition CreateClientConnection (now : Z) (addr : string) := Dial now addr (NewQUICTransport (Some DefaultQUICConfig) (Some DefaultGlobalConfig)).
Definition CreateServerListener (now : Z) (addr : string) := Listen now addr (NewQUICTransport (Some DefaultQUICConfig) (Some DefaultGlobalConfig)).
Definition CreateSecureServerListener (now : Z) (addr : string) (tls : option TLSConfig) := Listen now addr (NewQUICTransportWithTLS tls).
End Net.

(** ** The transport with its listeners and connections *)
Section World.
Context {N Addr Sock QL Conn Raw : Type} `{QuicNet N Addr Sock QL Conn} {RS : RawStream Raw} {QC : QuicConn Conn Raw}.

Record world : Type := mkWorld { w_tr : Transport; w_net : N; w_conns : list (Connections.Connection Conn Raw); w_listeners : list (Listener (QL := QL)) }.
Definition opened {A} (r : result error A) : list A := match r with Ok a => [a] | Err _ => [] end.

(** [ws_use]: whatever else is done with a connection leaves [closed] alone. *)
Inductive wstep (w : world) : world -> Prop :=
  | ws_listen now addr cfg t n r :
      ListenWithConfig now addr cfg (w_tr w) (w_net w) = Done (t, n, r) ->
      wstep w (mkWorld t n (w_conns w) (w_listeners w ++ opened r))
  | ws_dial now addr cfg t n r :
      DialWithConfig now addr cfg (w_tr w) (w_net w) = Done (t, n, r) ->
      wstep w (mkWorld t n (w_conns w ++ opened r) (w_listeners w))
  | ws_accept k l now t n r :
      w_listeners w !! k = Some l -> Accept now l (w_tr w) (w_net w) = Done (t, n, r) ->
      wstep w (mkWorld t n (w_conns w ++ opened r) (w_listeners w))
  | ws_use k c c' : w_conns w !! k = Some c -> cclosed c' = cclosed c ->
      wstep w (mkWorld (w_tr w) (w_net w) (<[k := c']> (w_conns w)) (w_listeners w))
  | ws_close_conn k c c' b e : w_conns w !! k = Some c -> Connections.Close c (base (w_tr w)) = (c', b, e) ->
      wstep w (mkWorld (set_base b (w_tr w)) (w_net w) (<[k := c']> (w_conns w)) (w_listeners w))
  | ws_close_listener k l l' n e : w_listeners w !! k = Some l -> CloseListener l (w_net w) = (l', n, e) ->
      wstep w (mkWorld (w_tr w) n (w_conns w) (<[k := l']> (w_listeners w)))
  | ws_close_transport : wstep w (mkWorld (CloseTransport (w_tr w)) (w_net w) (w_conns w) (w_listeners w))
  | ws_config c : wstep w (mkWorld (UpdateQUICConfig c (w_tr w)) (w_net w) (w_conns w) (w_listeners w)).

Definition stats_of (t : Transport) : Transport.TransportStats := Transport.stats (base t).
Definition count_open (cs : list (Connections.Connection Conn Raw)) : nat := length (List.filter (fun c => negb (cclosed c)) cs).

(** The counters are those of the connections there are. *)
Record Counted (w : world) : Prop := {
  ctd_active : Transport.ConnectionsActive (stats_of (w_tr w)) = wrapU 64 (Z.of_nat (count_open (w_conns w)));
  ctd_total : wrapU 64 (Transport.ConnectionsAccepted (stats_of (w_tr w)) + Transport.ConnectionsDialed (stats_of (w_tr w))) =
    wrapU 64 (Z.of_nat (length (w_conns w)))
}.

Lemma count_open_app (cs cs' : list (Connections.Connection Conn Raw)) : count_open (cs ++ cs') = (count_open cs + count_open cs')%nat.
Proof. unfold count_open. by rewrite List.filter_app, length_app. Qed.
Lemma count_open_insert (cs : list (Connections.Connection Conn Raw)) k c c' : cs !! k = Some c ->
  (count_open (<[k := c']> cs) + (if cclosed c then 0 else 1) = count_open cs + (if cclosed c' then 0 else 1))%nat.
Proof.
  intros Hk. rewrite <- (take_drop_middle cs k c Hk) at 2.
  rewrite insert_take_drop by (by eapply lookup_lt_Some). rewrite !count_open_app.
  unfold count_open. cbn. destruct (cclosed c), (cclosed c'); cbn; lia.
Qed.

(** A connection that was made is open and counted. *)
Lemma new_connection_open k now cfg (c : Connections.Connection Conn Raw) : new_connection k now cfg = Done c -> cclosed c = false.
Proof.
  unfold new_connection, NewQUICConnection. destruct cfg as [g|]; [|done].
  destruct (make_chan (MessageBufferSize g)) as [ch|]; cbn; [|done]. by intros [= <-].
Qed.

Lemma count_open_new (c : Connections.Connection Conn Raw) : cclosed c = false -> count_open [c] = 1%nat.
Proof. unfold count_open. cbn. by intros ->. Qed.

(** What a call that gives connections does to the counters. *)
Record Gives (t t' : Transport) (cs : list (Connections.Connection Conn Raw)) : Prop := {
  gv_active : Transport.ConnectionsActive (stats_of t') = wrapU 64 (Transport.ConnectionsActive (stats_of t) + Z.of_nat (count_open cs));
  gv_total : wrapU 64 (Transport.ConnectionsAccepted (stats_of t') + Transport.ConnectionsDialed (stats_of t')) =
    wrapU 64 (Transport.ConnectionsAccepted (stats_of t) + Transport.ConnectionsDialed (stats_of t) + Z.of_nat (length cs))
}.

Lemma Counted_gives w t n cs ls : Counted w -> Gives (w_tr w) t cs -> Counted (mkWorld t n (w_conns w ++ cs) ls).
Proof.
  intros [Ha Ht] [Ga Gt]. split; cbn [w_tr w_conns].
  - rewrite Ga, Ha, wrapU_add_l, count_open_app by lia. f_equal. lia.
  - rewrite Gt, <- wrapU_add_l, Ht, wrapU_add_l, length_app by lia. f_equal. lia.
Qed.

Lemma Gives_none t t' : Transport.ConnectionsActive (stats_of t') = Transport.ConnectionsActive (stats_of t) ->
  Transport.ConnectionsAccepted (stats_of t') = Transport.ConnectionsAccepted (stats_of t) ->
  Transport.ConnectionsDialed (stats_of t') = Transport.ConnectionsDialed (stats_of t) ->
  in_u 64 (Transport.ConnectionsActive (stats_of t)) -> Gives t t' [].
Proof. intros Ea Ec Ed Hr. split; rewrite ?Ea, ?Ec, ?Ed, Z.add_0_r; [by rewrite wrapU_id|done]. Qed.

Definition counters_in_range (t : Transport) : Prop := in_u 64 (Transport.ConnectionsActive (stats_of t)).

Lemma Listen_counts now addr cfg t n t' n' r : counters_in_range t ->
  ListenWithConfig now addr cfg t n = Done (t', n', r) -> Gives t t' [].
Proof.
  intros Hr. unfold ListenWithConfig. destruct (Transport.IsClosed _); [intros [= <- <- <-]; by apply Gives_none|].
  destruct (resolve_udp addr n) as [n1 [a|e]]; [|intros [= <- <- <-]; by apply Gives_none].
  destruct (listen_udp a n1) as [n2 [so|e]]; [|intros [= <- <- <-]; by apply Gives_none].
  destruct (buildQUICConfig cfg t) as [q|]; [|done]. cbn.
  destruct (quic_Listen so _ q n2) as [n3 [l|e]]; intros [= <- <- <-]; by apply Gives_none.
Qed.

Lemma Dial_counts now addr cfg t n t' n' r : counters_in_range t ->
  DialWithConfig now addr cfg t n = Done (t', n', r) -> Gives t t' (opened r).
Proof.
  intros Hr. unfold DialWithConfig. destruct (Transport.IsClosed _); [intros [= <- <- <-]; by apply Gives_none|].
  destruct (buildQUICConfig cfg t) as [q|]; [|done]. cbn. destruct (config t ≫= TLSConfig_) as [tls|]; [|done].
  destruct (quic_DialAddr _ _ q n) as [n1 [k|e]]; [|intros [= <- <- <-]; by apply Gives_none].
  destruct (new_connection k now cfg) as [c|] eqn:Hc; cbn; [|done]. apply new_connection_open in Hc.
  intros [= <- <- <-]. split; cbn [opened length]; [by rewrite count_open_new|].
  unfold stats_of. cbn. rewrite wrapU_add_r by lia. f_equal. lia.
Qed.

Lemma Accept_counts now l t n t' n' r : counters_in_range t ->
  Accept now l t n = Done (t', n', r) -> Gives t t' (opened r).
Proof.
  intros Hr. unfold Accept. destruct (l_closed l); [intros [= <- <- <-]; by apply Gives_none|].
  destruct (quic_Accept _ n) as [n1 [k|e]]; [|intros [= <- <- <-]; by apply Gives_none].
  destruct (new_connection k now _) as [c|] eqn:Hc; cbn; [|done]. apply new_connection_open in Hc.
  intros [= <- <- <-]. split; cbn [opened length]; [by rewrite count_open_new|].
  unfold stats_of. cbn. rewrite wrapU_add_l by lia. f_equal. lia.
Qed.

Lemma Close_flag (c c' : Connections.Connection Conn Raw) b b' e : Connections.Close c b = (c', b', e) -> cclosed c' = true /\
  b' = if cclosed c then b else UpdateStats "connections_active" minus_one b.
Proof.
  unfold Connections.Close. destruct (cclosed c) eqn:Hc; [by intros [= <- <- <-]|].
  destruct (close_with_error _) as [k err]. intros [= <- <- <-]. split; [|done]. cbn.
  unfold close_streams. set (c1 := SetState _ _). by destruct (close_streams_spec (map_to_list (streams c1)) c1) as [(objs & ->) _].
Qed.

Lemma Counted_range w : Counted w -> counters_in_range (w_tr w).
Proof. intros [Ha _]. unfold counters_in_range. rewrite Ha. by apply wrapU_range. Qed.

Lemma Counted_step w w' : Counted w -> wstep w w' -> Counted w'.
Proof.
  intros C. pose proof (Counted_range w C) as Hr.
  destruct 1 as [now addr cfg t n r Hl|now addr cfg t n r Hd|k l now t n r Hk Ha|k c c' Hk Hc|k c c' b e Hk Hc|k l l' n e Hk Hc| |cfg];
    [| | | | |by destruct C..].
  - rewrite <- (app_nil_r (w_conns w)). apply Counted_gives; [done|by eapply Listen_counts].
  - apply Counted_gives; [done|by eapply Dial_counts].
  - apply Counted_gives; [done|by eapply Accept_counts].
  - destruct C as [Ha Ht]. split; cbn [w_tr w_conns]; [|by rewrite length_insert].
    rewrite Ha. pose proof (count_open_insert _ k c c' Hk) as E. rewrite Hc in E. do 2 f_equal. lia.
  - destruct C as [Ha Ht]. apply Close_flag in Hc as [Hc ->]. pose proof (count_open_insert _ k c c' Hk) as E. rewrite Hc in E.
    split; cbn [w_tr w_conns]; [|rewrite length_insert; by destruct (cclosed c)].
    unfold stats_of in *. destruct (cclosed c); cbn; rewrite Ha; [do 2 f_equal; lia|]. rewrite wrapU_add_l by lia. unfold minus_one.
    replace (Z.of_nat (count_open (w_conns w)) + (2 ^ 64 - 1)) with
      (Z.of_nat (count_open (<[k:=c']> (w_conns w))) + 1 * 2 ^ 64) by lia. unfold wrapU. by rewrite Z.mod_add.
Qed.

(** C30: Whatever is dialed, accepted, used and closed in whatever order, and
    whatever the network answers: the active connections the transport counts
    are the connections that were given out and not closed, and those accepted
    and dialed together are all that were given out, up to 64 bits. *)
Theorem connections_counted cfg gcfg (n : N) w :
  rtc wstep (mkWorld (NewQUICTransport cfg gcfg) n [] []) w ->
  Transport.ConnectionsActive (stats_of (w_tr w)) = wrapU 64 (Z.of_nat (count_open (w_conns w))) /\
  wrapU 64 (Transport.ConnectionsAccepted (stats_of (w_tr w)) + Transport.ConnectionsDialed (stats_of (w_tr w))) =
    wrapU 64 (Z.of_nat (length (w_conns w))).
Proof.
  intros R. assert (Counted w) as [Ha Ht]; [|done].
  remember (mkWorld _ n [] []) as w0 eqn:E. assert (Counted w0) as C by by subst.
  clear E. induction R; eauto using Counted_step.
Qed.
End World.

(** ** What configuration reaches quic-go *)

(** A positive limit of the protocol's configuration wins over the transport's
    own; the default protocol configuration therefore replaces the idle
    timeout and the keep-alive period of the default QUIC configuration. *)
Theorem effective_config cfg t c : config t = Some c -> let g := default DefaultGlobalConfig cfg in
  exists q, buildQUICConfig cfg t = Done q /\
    q_MaxIdleTimeout q = (if 0 <? IdleTimeout g then IdleTimeout g else MaxIdleTimeout c) /\
    q_KeepAlivePeriod q = (if 0 <? KeepAlive g then KeepAlive g else KeepAlivePeriod c) /\
    q_MaxIncomingStreams q = (if 0 <? MaxStreams g then MaxStreams g else MaxIncomingStreams c) /\
    q_MaxIncomingUniStreams q = (if 0 <? MaxStreams g then MaxStreams g else MaxIncomingUniStreams c) /\
    (forall dg qc, buildQUICConfig cfg (UpdateQUICConfig (Some {|
       MaxIncomingStreams := MaxIncomingStreams c; MaxIncomingUniStreams := MaxIncomingUniStreams c;
       MaxStreamReceiveWindow := MaxStreamReceiveWindow c; MaxConnectionReceiveWindow := MaxConnectionReceiveWindow c;
       MaxIdleTimeout := MaxIdleTimeout c; KeepAlivePeriod := KeepAlivePeriod c; HandshakeIdleTimeout := HandshakeIdleTimeout c;
       TLSConfig_ := TLSConfig_ c; InitialStreamReceiveWindow := InitialStreamReceiveWindow c;
       InitialConnectionReceiveWindow := InitialConnectionReceiveWindow c; MaxDatagramFrameSize := dg;
       EnableDatagrams := EnableDatagrams c; DisablePathMTUDiscovery := DisablePathMTUDiscovery c; QUICConfig := qc |}) t) = Done q).
Proof.
  intros Hc g. unfold buildQUICConfig. rewrite Hc. eexists. split; [done|]. cbn. fold g. by rewrite !Z.gtb_ltb.
Qed.

Lemma effective_config_witness :
  exists q, buildQUICConfig None (NewQUICTransport None None) = Done q /\
    q_MaxIdleTimeout q = 5 * 60 * second /\ q_KeepAlivePeriod q = 30 * second /\ q_MaxIncomingStreams q = 100.
Proof.
  destruct (effective_config None (NewQUICTransport None None) DefaultQUICConfig eq_refl) as (q & H1 & H2 & H3 & H4 & _).
  by exists q.
Defined.

(** ** [SplitHostPort] *)
Lemma index_of_app c a b : c ∉ a -> index_of c (a ++ c :: b) = Some (length a).
Proof.
  intros Hn. unfold index_of. induction a as [|x a IH]; cbn; [by destruct (decide (c = c))|].
  apply not_elem_of_cons in Hn as [Hx Ha]. rewrite decide_False by done.
  specialize (IH Ha). destruct (list_find (eq c) (a ++ c :: b)) as [[i y]|]; cbn in *; [|done]. by injection IH as ->.
Qed.

Lemma last_index_of_app c a b : c ∉ b -> last_index_of c (a ++ c :: b) = Some (length a).
Proof.
  intros Hn. unfold last_index_of. rewrite rev_app_distr.
  change (rev (c :: b) ++ rev a) with ((rev b ++ [c]) ++ rev a). rewrite <- app_assoc.
  change ([c] ++ rev a) with (c :: rev a). rewrite index_of_app.
  - cbn. f_equal. rewrite length_app, length_rev. cbn. lia.
  - intros Hi. apply Hn. apply list_elem_of_In. apply in_rev. by apply list_elem_of_In.
Qed.

Ltac decided := refine (bool_decide_unpack _ _); vm_compute; exact I.
Lemma SplitHostPort_split host port :
  "["%char ∉ host -> "]"%char ∉ host -> "["%char ∉ port -> "]"%char ∉ port -> ":"%char ∉ port ->
  (":"%char ∉ host -> SplitHostPort (host ++ ":"%char :: port) = Some (host, port)) /\
  SplitHostPort ("["%char :: host ++ "]"%char :: ":"%char :: port) = Some (host, port).
Proof.
  intros Hh1 Hh2 Hp1 Hp2 Hp. split.
  - intros Hc. unfold SplitHostPort. rewrite last_index_of_app by done.
    assert (occurs ":" host = false /\ occurs "[" (host ++ ":"%char :: port) = false /\
            occurs "]" (host ++ ":"%char :: port) = false) as (E1 & E2 & E3).
    { unfold occurs. rewrite !bool_decide_false; [done|set_solver..]. }
    rewrite take_app_length, drop_app_add. cbn zeta. rewrite E1, E2, E3, bool_decide_false; [done|].
    destruct host; [done|]. intros [= ->]. set_solver.
  - unfold SplitHostPort.
    change ("["%char :: host ++ "]"%char :: ":"%char :: port) with (("["%char :: host) ++ "]"%char :: (":"%char :: port)).
    rewrite index_of_app by set_solver.
    rewrite (assoc_L (++) _ ["]"%char] (":"%char :: port) : ("["%char :: host) ++ "]"%char :: (":"%char :: port) = _).
    rewrite last_index_of_app by done. rewrite drop_app_add. cbn zeta.
    rewrite bool_decide_true by done. rewrite bool_decide_true by (rewrite length_app; cbn; lia).
    cbn [negb]. rewrite <- app_assoc, drop_app_add, take_app_length. cbn.
    unfold occurs. by rewrite !bool_decide_false by set_solver.
Qed.

(** An address made of a host and a port, the host in brackets when it holds
    colons, is split into them. *)
Theorem SplitHostPort_roundtrip host port :
  "["%char ∉ host -> "]"%char ∉ host -> "["%char ∉ port -> "]"%char ∉ port -> ":"%char ∉ port ->
  (":"%char ∉ host -> SplitHostPort (host ++ ":"%char :: port) = Some (host, port)) /\
  SplitHostPort ("["%char :: host ++ "]"%char :: ":"%char :: port) = Some (host, port).
Proof. apply SplitHostPort_split. Qed.

Lemma SplitHostPort_roundtrip_witness :
  SplitHostPort (list_ascii_of_string "game.example.com:4433") = Some (list_ascii_of_string "game.example.com", list_ascii_of_string "4433") /\
  SplitHostPort (list_ascii_of_string "[::1]:4433") = Some (list_ascii_of_string "::1", list_ascii_of_string "4433").
Proof.
  split.
  - apply (SplitHostPort_roundtrip (list_ascii_of_string "game.example.com") (list_ascii_of_string "4433"));
      decided.
  - apply (SplitHostPort_roundtrip (list_ascii_of_string "::1") (list_ascii_of_string "4433"));
      decided.
Defined.

(** The name a client expects of the server is the host it dials, unless the
    configuration gives one or skips the verification. *)
Theorem client_tls_name host port tls :
  "["%char ∉ host -> "]"%char ∉ host -> ":"%char ∉ host -> "["%char ∉ port -> "]"%char ∉ port -> ":"%char ∉ port ->
  ServerName (client_tls (string_of_list_ascii (host ++ ":"%char :: port)) tls) =
  if negb (InsecureSkipVerify tls) && String.eqb (ServerName tls) "" then string_of_list_ascii host else ServerName tls.
Proof.
  intros. unfold client_tls. rewrite list_ascii_of_string_of_list_ascii.
  rewrite (proj1 (SplitHostPort_split host port ltac:(done) ltac:(done) ltac:(done) ltac:(done) ltac:(done))) by done.
  by destruct (negb _ && _).
Qed.

Lemma client_tls_name_witness :
  ServerName (client_tls "game.example.com:4433" (mkTLS false "" [] VersionTLS13)) = "game.example.com"%string /\
  ServerName (client_tls "game.example.com:4433" generateTLSConfig) = ""%string.
Proof.
  split.
  - apply (client_tls_name (list_ascii_of_string "game.example.com") (list_ascii_of_string "4433") (mkTLS false "" [] VersionTLS13));
      decided.
  - apply (client_tls_name (list_ascii_of_string "game.example.com") (list_ascii_of_string "4433") generateTLSConfig);
      decided.
Defined.

(** ** Errors, sockets and panics *)

(** What the code relies on about sockets: listening opens one, and quic-go
    leaves the socket it was given to its caller. *)
Class SocketLaws (N Addr Sock QL Conn : Type) `{QuicNet N Addr Sock QL Conn} : Type := {
  sockets : N -> nat;
  resolve_sockets a n : sockets (resolve_udp a n).1 = sockets n;
  listen_sockets a n : sockets (listen_udp a n).1 = match (listen_udp a n).2 with Ok _ => S (sockets n) | Err _ => sockets n end;
  close_sockets s n : sockets (close_udp s n) = Nat.pred (sockets n);
  quic_Listen_sockets s tls q n : sockets (quic_Listen s tls q n).1 = sockets n;
  quic_Close_sockets l n : sockets (quic_Close l n).1 = sockets n
}.

Section Failures.
Context {N Addr Sock QL Conn Raw : Type} `{SocketLaws N Addr Sock QL Conn} {RS : RawStream Raw} {QC : QuicConn Conn Raw}.

(** A call to [Listen] that fails leaves no socket open and counts one error,
    unless the transport is closed; one that succeeds leaves one socket, and
    closing the listener does not close it. *)
Theorem listen_sockets_exact now addr cfg t (n : N) t' n' r :
  ListenWithConfig now addr cfg t n = Done (t', n', r) ->
  match r with
  | Err e => sockets n' = sockets n /\
      (if Transport.IsClosed (base t) then e = Sentinel ErrTransportClosed /\ t' = t
       else t' = update_stats "errors_encountered" 1 t)
  | Ok l => sockets n' = S (sockets n) /\ t' = t /\ l_config l = cfg /\ sockets (CloseListener l n').1.2 = S (sockets n)
  end.
Proof.
  unfold ListenWithConfig. destruct (Transport.IsClosed _); [by intros [= <- <- <-]|].
  pose proof (resolve_sockets addr n) as E1. destruct (resolve_udp addr n) as [n1 [a|e]]; cbn in E1; [|by intros [= <- <- <-]].
  pose proof (listen_sockets a n1) as E2. destruct (listen_udp a n1) as [n2 [so|e]]; cbn in E2; [|intros [= <- <- <-]; split; [congruence|done]].
  destruct (buildQUICConfig cfg t) as [q|]; [|done]. cbn.
  pose proof (quic_Listen_sockets so (config t ≫= TLSConfig_) q n2) as E3.
  destruct (quic_Listen so _ q n2) as [n3 [l|e]]; cbn in E3; intros [= <- <- <-].
  - rewrite E3, E2, E1. do 3 (split; [done|]). unfold CloseListener. cbn.
    pose proof (quic_Close_sockets l n3) as E4. destruct (quic_Close l n3) as [n4 e]. cbn in *. congruence.
  - split; [|done]. rewrite close_sockets, E3, E2. cbn. congruence.
Qed.

(** A closed transport neither listens nor dials, and touches nothing; its
    listeners go on accepting. *)
Theorem closed_transport now addr cfg l t (n : N) : let t' := CloseTransport t in
  ListenWithConfig now addr cfg t' n = Done (t', n, Err (Sentinel ErrTransportClosed)) /\
  DialWithConfig (Raw := Raw) now addr cfg t' n = Done (t', n, Err (Sentinel ErrTransportClosed)) /\
  HealthCheck_ now t' = Done (mkHealth HealthStatusUnhealthy now (Some (ErrTransport (Sentinel ErrTransportClosed)))) /\
  CloseTransport t' = t' /\
  Accept now l t' n = match Accept now l t n with
    | Done (u, n', r) => Done (CloseTransport u, n', r : result error (Connections.Connection Conn Raw))
    | Panic => Panic
    end.
Proof.
  intros t'. do 4 (split; [done|]). unfold Accept. destruct (l_closed l); [done|].
  destruct (quic_Accept (listener l) n) as [n1 [k|e]]; [|done].
  by destruct (new_connection k now (l_config l)) as [c|].
Qed.

(** Without a protocol configuration, which [buildQUICConfig] replaces by the
    default, the goroutine panics as soon as quic-go has a connection; so does
    dialing with a transport that has no TLS configuration. *)
Theorem missing_config_panics now addr t (n : N) l :
  Transport.IsClosed (base t) = false ->
  (forall tls n' k c, config t = Some c -> TLSConfig_ c = Some tls ->
    (forall q, quic_DialAddr addr (client_tls addr tls) q n = (n', Ok k)) ->
    DialWithConfig (Conn := Conn) (Raw := Raw) now addr None t n = Panic) /\
  (forall n' k, l_closed l = false -> l_config l = None -> quic_Accept (listener l) n = (n', Ok k) ->
    Accept (Conn := Conn) (Raw := Raw) now l t n = Panic) /\
  (forall cfg c, config t = Some c -> TLSConfig_ c = None -> DialWithConfig (Conn := Conn) (Raw := Raw) now addr cfg t n = Panic) /\
  (forall cfg, config t = None -> DialWithConfig (Conn := Conn) (Raw := Raw) now addr cfg t n = Panic /\ HealthCheck_ now t = Panic).
Proof.
  intros Hc. unfold DialWithConfig, Accept, HealthCheck_. rewrite Hc. split_and!.
  - intros tls n' k c Hq Ht Hd. unfold buildQUICConfig. rewrite Hq. cbn. by rewrite Ht, Hd.
  - intros n' k Hl Hn Ha. by rewrite Hl, Ha, Hn.
  - intros cfg c Hq Ht. unfold buildQUICConfig. rewrite Hq. cbn. by rewrite Ht.
  - intros cfg Hq. unfold buildQUICConfig. by rewrite Hq.
Qed.
End Failures.

(** ** A network in which the calls succeed or fail as told *)
Definition SimNet : Type := (nat * list bool)%type.
Definition answered (n : SimNet) (opens : nat) : SimNet * result error unit :=
  match n.2 with
  | true :: l => ((n.1 + opens, l)%nat, Ok tt)
  | _ :: l => ((n.1, l), Err (External "refused"))
  | [] => (n, Err (External "refused"))
  end.
#[export] Instance sim_net : QuicNet SimNet unit unit unit unit := {|
  resolve_udp _ n := answered n 0;
  listen_udp _ n := answered n 1;
  close_udp _ n := (Nat.pred n.1, n.2);
  quic_Listen _ _ _ n := answered n 0;
  quic_DialAddr _ _ _ n := answered n 0;
  quic_Accept _ n := answered n 0;
  quic_Close _ n := (n, None)
|}.
#[export] Instance sim_laws : SocketLaws SimNet unit unit unit unit.
Proof.
  refine {| sockets n := n.1 |}; intros; cbn; unfold answered;
    (destruct n as [? [|[] ?]]; cbn; try done; lia).
Defined.

Definition sim_start (answers : list bool) : world (N := SimNet) (QL := unit) (Conn := unit) (Raw := Pipe) :=
  mkWorld (NewQUICTransport None None) (0%nat, answers) [] [].

(** Two connections are dialed, and the first is closed. *)
Definition sim_dial (now : Z) (w : world (N := SimNet) (QL := unit) (Conn := unit) (Raw := Pipe)) : world :=
  match DialWithConfig now "peer" (Some DefaultGlobalConfig) (w_tr w) (w_net w) with
  | Done (t, n, r) => mkWorld t n (w_conns w ++ opened r) (w_listeners w)
  | Panic => w
  end.
Definition sim_close (w : world (N := SimNet) (QL := unit) (Conn := unit) (Raw := Pipe)) : world :=
  match w_conns w with
  | c :: cs => let '(c, b, _) := Connections.Close c (base (w_tr w)) in mkWorld (set_base b (w_tr w)) (w_net w) (c :: cs) (w_listeners w)
  | [] => w
  end.
Definition sim_one : world := Eval vm_compute in sim_dial 1 (sim_start [true; true]).
Definition sim_two : world := Eval vm_compute in sim_dial 2 sim_one.
Definition sim_closed : world := Eval vm_compute in sim_close sim_two.

Lemma connections_counted_witness : rtc wstep (sim_start [true; true]) sim_closed /\
  Transport.ConnectionsActive (stats_of (w_tr sim_closed)) = wrapU 64 (Z.of_nat (count_open (w_conns sim_closed))) /\
  count_open (w_conns sim_closed) = 1%nat /\ length (w_conns sim_closed) = 2%nat.
Proof.
  assert (rtc wstep (sim_start [true; true]) sim_closed) as R.
  { eapply rtc_l; [|eapply rtc_l; [|eapply rtc_l; [|apply rtc_refl]]].
    - apply (ws_dial (sim_start [true; true]) 1 "peer" (Some DefaultGlobalConfig) (w_tr sim_one) (w_net sim_one) (Ok (default (conn_with 0 0 []) (head (w_conns sim_one))))).
      vm_compute. reflexivity.
    - apply (ws_dial sim_one 2 "peer" (Some DefaultGlobalConfig) (w_tr sim_two) (w_net sim_two) (Ok (default (conn_with 0 0 []) (head (drop 1 (w_conns sim_two)))))).
      vm_compute. reflexivity.
    - apply (ws_close_conn sim_two 0%nat (default (conn_with 0 0 []) (head (w_conns sim_two))) (default (conn_with 0 0 []) (head (w_conns sim_closed)))
        (base (w_tr sim_closed)) None); vm_compute; reflexivity. }
  split; [done|]. split; [|split; reflexivity].
  exact (proj1 (connections_counted (N := SimNet) None None (0%nat, [true; true]) sim_closed R)).
Defined.

Lemma listen_sockets_exact_witness :
  sockets (1%nat, [] : list bool) = S (sockets (0%nat, [true; true; true])) /\
  sockets (0%nat, [] : list bool) = sockets (0%nat, [true; true; false]).
Proof.
  split.
  - apply (listen_sockets_exact 0 "srv" None (NewQUICTransport None None) (0%nat, [true; true; true])
      (NewQUICTransport None None) (1%nat, []) (Ok (NewQUICListener tt None))). reflexivity.
  - apply (listen_sockets_exact 5 "srv" None (NewQUICTransport None None) (0%nat, [true; true; false])
      (update_stats "errors_encountered" 1 (NewQUICTransport None None)) (0%nat, [])
      (Err (WrapError 5 (External "refused") "failed to create QUIC listener"))). reflexivity.
Defined.

Lemma missing_config_panics_witness :
  DialWithConfig (Conn := unit) (Raw := Pipe) 0 "peer" None (NewQUICTransport None None) (0%nat, [true]) = Panic /\
  Accept (Conn := unit) (Raw := Pipe) 0 (NewQUICListener tt None) (NewQUICTransport None None) (0%nat, [true]) = Panic /\
  DialWithConfig (Conn := unit) (Raw := Pipe) 0 "peer" (Some DefaultGlobalConfig) (NewQUICTransportWithTLS None) (0%nat, [true]) = Panic.
Proof.
  destruct (missing_config_panics (Raw := Pipe) 0 "peer" (NewQUICTransport None None) (0%nat, [true]) (NewQUICListener tt None) eq_refl) as (H1 & H2 & _).
  destruct (missing_config_panics (Raw := Pipe) 0 "peer" (NewQUICTransportWithTLS None) (0%nat, [true]) (NewQUICListener tt None) eq_refl) as (_ & _ & H3 & _).
  split_and!.
  - apply (H1 generateTLSConfig (0%nat, []) tt DefaultQUICConfig); reflexivity.
  - apply (H2 (0%nat, []) tt); reflexivity.
  - eapply H3; reflexivity.
Defined.
