(* ===== verification/GridSearch.v ===== *)
(** * Breadth-first search on a grid ([ExploreAction] of [examples/npc_web/main.go])

    The search for the nearest cell not yet visited: the queue with its index,
    the cells seen, the parents, and the walk back from the target to the first
    step. Cells are pairs of [int]; what blocks a cell is given by three tests.
    The theorems compare the search with the walks there are. *)
From S2P Require Import Prelude.
From Stdlib Require Import ZArith Lia.
From stdpp Require Import base tactics list gmap sets.
Open Scope Z_scope.

Abbreviation cell := (Z * Z)%type.
Definition dirs : list cell := [(1, 0); (-1, 0); (0, 1); (0, -1)].
(** [int] addition *)
Definition add (a b : Z) : Z := wrapS 64 (a + b).
Definition move (c d : cell) : cell := (add c.1 d.1, add c.2 d.2).

Section Search.
Context (inBounds danger fog : cell -> bool) (visited : gset cell) (allowFog : bool).

Inductive expansion : Type :=
  | Hit (target : cell) (parents : gmap cell cell)
  | More (queue : list cell) (seen : gset cell) (parents : gmap cell cell).

(** The neighbours of [cur] in the directions [ds]. *)
Fixpoint expand (cur : cell) (ds : list cell) (queue : list cell) (seen : gset cell) (parents : gmap cell cell) : expansion :=
  match ds with
  | [] => More queue seen parents
  | d :: ds =>
      let np := move cur d in
      if negb (inBounds np) || bool_decide (np ∈ seen) then expand cur ds queue seen parents
      else if danger np then expand cur ds queue seen parents
      else if fog np && negb allowFog then expand cur ds queue seen parents
      else
        let seen := {[np]} ∪ seen in
        let parents := <[np := cur]> parents in
        if bool_decide (np ∉ visited) then Hit np parents
        else expand cur ds (queue ++ [np]) seen parents
  end.

(** The loop over the queue: the target, if one is found, and the parents;
    [None] when the fuel is used up. *)
Fixpoint bfs_loop (fuel : nat) (queue : list cell) (qi : nat) (seen : gset cell) (parents : gmap cell cell)
    : option (option cell * gmap cell cell) :=
  match fuel with
  | O => None
  | S fuel =>
      match queue !! qi with
      | None => Some (None, parents)
      | Some cur =>
          match expand cur dirs queue seen parents with
          | Hit target parents => Some (Some target, parents)
          | More queue seen parents => bfs_loop fuel queue (S qi) seen parents
          end
      end
  end.
Definition bfs (fuel : nat) (start : cell) : option (option cell * gmap cell cell) :=
  bfs_loop fuel [start] 0 {[start]} ∅.
End Search.

(** One step before the target on the way back to [start]. *)
Fixpoint backtrack (fuel : nat) (parents : gmap cell cell) (start curr : cell) : option cell :=
  match fuel with
  | O => None
  | S fuel =>
      match parents !! curr with
      | None => Some curr
      | Some prev => if bool_decide (prev = start) then Some curr else backtrack fuel parents start prev
      end
  end.

(** ** Walks *)
Section Walks.
Context (inBounds danger fog : cell -> bool) (visited : gset cell) (allowFog : bool).

Definition passable (c : cell) : bool := inBounds c && negb (danger c) && (allowFog || negb (fog c)).
Definition succs (c : cell) : list cell := map (move c) dirs.

(** A walk of [n] steps over passable cells. *)
Inductive walk : nat -> cell -> cell -> Prop :=
  | walk_here c : walk 0 c c
  | walk_step n a b c : walk n a b -> c ∈ succs b -> passable c = true -> walk (S n) a c.

Lemma expand_eq cur d ds queue seen parents :
  expand inBounds danger fog visited allowFog cur (d :: ds) queue seen parents =
  let np := move cur d in
  if negb (passable np) || bool_decide (np ∈ seen)
  then expand inBounds danger fog visited allowFog cur ds queue seen parents
  else if bool_decide (np ∉ visited) then Hit np (<[np := cur]> parents)
  else expand inBounds danger fog visited allowFog cur ds (queue ++ [np]) ({[np]} ∪ seen) (<[np := cur]> parents).
Proof.
  cbn [expand]. unfold passable. destruct (inBounds _), (danger _), (fog _), allowFog; cbn; try done;
    by destruct (bool_decide _).
Qed.

(** What an expansion adds. *)
Lemma expand_spec cur ds : forall queue seen parents,
  match expand inBounds danger fog visited allowFog cur ds queue seen parents with
  | More queue' seen' parents' => exists news,
      queue' = queue ++ news /\ (forall c, c ∈ seen' <-> c ∈ seen \/ c ∈ news) /\ NoDup news /\
      (forall c, c ∈ news -> (c ∉ seen) /\ passable c = true /\ c ∈ map (move cur) ds /\ c ∈ visited /\ parents' !! c = Some cur) /\
      (forall c, c ∈ map (move cur) ds -> passable c = true -> c ∈ seen') /\
      (forall c, c ∈ seen -> parents' !! c = parents !! c)
  | Hit np parents' =>
      np ∈ map (move cur) ds /\ passable np = true /\ (np ∉ seen) /\ (np ∉ visited) /\ parents' !! np = Some cur /\
      (forall c, c ∈ seen -> parents' !! c = parents !! c)
  end.
Proof.
  induction ds as [|d ds IH]; intros queue seen parents.
  { exists []. rewrite app_nil_r. split_and!; [done|set_solver|constructor|set_solver|set_solver|done]. }
  rewrite expand_eq. cbv zeta. set (np := move cur d). cbn [map]. fold np.
  destruct (negb (passable np) || bool_decide (np ∈ seen)) eqn:E1.
  - assert (passable np = true -> np ∈ seen) as Hs.
    { intros Hp. rewrite Hp in E1. by apply bool_decide_eq_true in E1. }
    specialize (IH queue seen parents). destruct (expand _ _ _ _ _ _ _ _ _ _) as [t ps|q' s' ps].
    + set_solver.
    + destruct IH as (news & -> & Hseen & Hnd & Hn & Hc & Hp). exists news. split_and!; try done.
      * intros c Hc'. destruct (Hn c Hc') as (? & ? & ? & ? & ?). split_and!; try done. by right.
      * intros c [->|?]%elem_of_cons Hpc; [apply Hseen; left; auto|auto].
  - apply orb_false_iff in E1 as [E1 E2]. apply negb_false_iff in E1. apply bool_decide_eq_false in E2.
    destruct (bool_decide (np ∉ visited)) eqn:E3.
    + apply bool_decide_eq_true in E3. split_and!; try done; [by left|by rewrite lookup_insert_eq|].
      intros c Hc. rewrite lookup_insert_ne; [done|]. set_solver.
    + apply bool_decide_eq_false in E3. assert (np ∈ visited) as Hv by (destruct (decide (np ∈ visited)); done).
      specialize (IH (queue ++ [np]) ({[np]} ∪ seen) (<[np := cur]> parents)).
      destruct (expand _ _ _ _ _ _ _ _ _ _) as [t ps|q' s' ps].
      * destruct IH as (H1 & H2 & H3 & H4 & H5 & H6). split_and!; [by right|done|set_solver|done|done|].
        intros c Hc. rewrite H6 by set_solver. rewrite lookup_insert_ne; [done|]. set_solver.
      * destruct IH as (news & -> & Hseen & Hnd & Hn & Hc & Hp). exists (np :: news).
        split_and!; [by rewrite <- app_assoc|set_solver|constructor; [|done]| | |].
        -- intros Hin. by destruct (Hn np Hin) as [Hx _]; set_solver.
        -- intros c [->|Hin]%elem_of_cons.
           ++ split_and!; try done; [by left|]. rewrite Hp by set_solver. by rewrite lookup_insert_eq.
           ++ destruct (Hn c Hin) as (? & ? & ? & ? & ?). split_and!; try done; [set_solver|by right].
        -- intros c [->|Hin]%elem_of_cons Hpc; [apply Hseen; left; set_solver|auto].
        -- intros c Hin. rewrite Hp by set_solver. rewrite lookup_insert_ne; [done|]. set_solver.
Qed.

(** ** The invariant of the loop

    [qd] is the queue, each cell with its distance from [start]. *)
Context (start : cell).
Record Inv (qd : list (cell * nat)) (qi : nat) (seen : gset cell) (parents : gmap cell cell) : Prop := {
  inv_qi : (qi <= length qd)%nat;
  inv_nodup : NoDup qd.*1;
  inv_seen : forall c, c ∈ seen <-> c ∈ qd.*1;
  inv_start : qd !! 0%nat = Some (start, 0%nat);
  inv_walk : forall i c n, qd !! i = Some (c, n) -> walk n start c;
  inv_parent : forall i c n, qd !! i = Some (c, S n) -> exists j p, qd !! j = Some (p, n) /\ parents !! c = Some p /\
    c ∈ succs p /\ passable c = true;
  inv_rest : forall i c, qd !! i = Some (c, 0%nat) -> c = start;
  inv_sorted : forall i j c d n m, (i <= j)%nat -> qd !! i = Some (c, n) -> qd !! j = Some (d, m) -> (n <= m)%nat;
  inv_spread : forall j c d n m, qd !! qi = Some (c, n) -> qd !! j = Some (d, m) -> (m <= S n)%nat;
  inv_visited : forall c, c ∈ qd.*1 -> c ∈ visited;
  inv_inBounds : forall c, c ∈ qd.*1 -> c = start \/ passable c = true;
  inv_closed : forall i c n, (i < qi)%nat -> qd !! i = Some (c, n) -> forall c', c' ∈ succs c -> passable c' = true ->
    exists m, (c', m) ∈ qd /\ (m <= S n)%nat;
  inv_root : parents !! start = None
}.

Lemma Inv_init : start ∈ visited -> Inv [(start, 0%nat)] 0 {[start]} ∅.
Proof.
  intros Hv. assert (forall i x, [(start, 0%nat)] !! i = Some x -> x = (start, 0%nat)) as H1.
  { intros [|i] x E; [by injection E|done]. }
  split; cbn; try done; try lia.
  - repeat constructor. by intros ?%elem_of_nil.
  - set_solver.
  - intros i c n [= -> ->]%H1. constructor.
  - intros i c n [=]%H1.
  - by intros i c [= ->]%H1.
  - by intros i j c d n m _ [= -> ->]%H1 [= -> ->]%H1.
  - intros j c d n m _ [= -> ->]%H1. lia.
  - set_solver.
  - set_solver.
Qed.

Lemma fst_elem (qd : list (cell * nat)) c : c ∈ qd.*1 <-> exists i n, qd !! i = Some (c, n).
Proof.
  rewrite list_elem_of_fmap. split.
  - intros ([c' n] & -> & Hin). apply list_elem_of_lookup in Hin as [i Hi]. eauto.
  - intros (i & n & Hi). exists (c, n). split; [done|]. by eapply list_elem_of_lookup_2.
Qed.

Definition with_dist (n : nat) (news : list cell) : list (cell * nat) := map (fun c => (c, n)) news.
Lemma with_dist_fst n news : (with_dist n news).*1 = news.
Proof. unfold with_dist. induction news as [|c l IH]; [done|]. cbn. by rewrite IH. Qed.
Lemma with_dist_lookup n news i x : with_dist n news !! i = Some x -> exists c, x = (c, n) /\ c ∈ news.
Proof.
  unfold with_dist. change (map ?f ?l) with (f <$> l). rewrite list_lookup_fmap.
  destruct (news !! i) as [c|] eqn:E; [|done]. intros [= <-]. exists c. split; [done|]. by eapply list_elem_of_lookup_2.
Qed.
Lemma app_lookup_cases {A} (l l' : list A) i x : (l ++ l') !! i = Some x ->
  l !! i = Some x \/ ((length l <= i)%nat /\ l' !! (i - length l)%nat = Some x).
Proof. apply lookup_app_Some. Qed.

(** An expansion that finds nothing keeps the invariant. *)
Lemma Inv_step qd qi seen parents cur n queue' seen' parents' : Inv qd qi seen parents -> qd !! qi = Some (cur, n) ->
  expand inBounds danger fog visited allowFog cur dirs qd.*1 seen parents = More queue' seen' parents' ->
  exists qd', queue' = qd'.*1 /\ Inv qd' (S qi) seen' parents'.
Proof.
  intros I Hcur E. pose proof (expand_spec cur dirs qd.*1 seen parents) as S0. rewrite E in S0.
  destruct S0 as (news & -> & Hseen & Hnd & Hn & Hc & Hp). change (map (move cur) dirs) with (succs cur) in *.
  exists (qd ++ with_dist (S n) news). rewrite fmap_app, with_dist_fst. split; [done|].
  pose proof (lookup_lt_Some _ _ _ Hcur) as Hlt.
  assert (forall i x, (qd ++ with_dist (S n) news) !! i = Some x ->
    qd !! i = Some x \/ ((length qd <= i)%nat /\ exists c, x = (c, S n) /\ c ∈ news)) as Hcase.
  { intros i x [?|[Hi Hx]]%app_lookup_cases; [by left|right]. split; [done|]. by apply with_dist_lookup in Hx. }
  assert (forall i x, qd !! i = Some x -> (qd ++ with_dist (S n) news) !! i = Some x) as Hkeep.
  { intros i x Hi. by apply lookup_app_l_Some. }
  assert (forall i x, (i < length qd)%nat -> (qd ++ with_dist (S n) news) !! i = Some x -> qd !! i = Some x) as Hold.
  { intros i x Hi. by rewrite lookup_app_l. }
  assert (forall j c m, (qd ++ with_dist (S n) news) !! j = Some (c, m) -> (m <= S n)%nat) as Hmax.
  { intros j c m [Hj|(_ & ? & [= -> ->] & _)]%Hcase; [by eapply (inv_spread _ _ _ _ I)|lia]. }
  assert (forall c, c ∈ qd.*1 ++ news <-> c ∈ seen \/ c ∈ news) as Hall.
  { intros c. by rewrite elem_of_app, (inv_seen _ _ _ _ I). }
  split; rewrite ?fmap_app, ?with_dist_fst.
  - rewrite length_app. lia.
  - apply NoDup_app. split; [apply I|]. split; [|done]. intros c Hc1 Hc2. apply (inv_seen _ _ _ _ I) in Hc1. by apply Hn in Hc2 as [? _].
  - intros c. by rewrite Hseen, Hall.
  - apply Hkeep, I.
  - intros i c m [Hi|(_ & ? & [= -> ->] & Hin)]%Hcase; [by eapply (inv_walk _ _ _ _ I)|].
    apply Hn in Hin as (_ & Hpc & Hsu & _). eapply walk_step; [by eapply (inv_walk _ _ _ _ I)|done|done].
  - intros i c m [Hi|(_ & ? & [= -> ->] & Hin)]%Hcase.
    + destruct (inv_parent _ _ _ _ I _ _ _ Hi) as (j & q & Hj & Hq & ? & ?). exists j, q. split_and!; auto.
      rewrite Hp; [done|]. apply (inv_seen _ _ _ _ I), fst_elem. eauto.
    + apply Hn in Hin as (_ & Hpc & Hsu & _ & Hpa). exists qi, cur. split_and!; auto.
  - intros i c [Hi|(_ & ? & [=] & _)]%Hcase. by eapply (inv_rest _ _ _ _ I).
  - intros i j c d m m' Hij Hi Hj. destruct (Hcase _ _ Hi) as [Hi'|(Hge & ? & [= -> ->] & _)].
    + destruct (Hcase _ _ Hj) as [Hj'|(_ & ? & [= -> ->] & _)]; [by eapply (inv_sorted _ _ _ _ I)|by eapply Hmax].
    + destruct (Hcase _ _ Hj) as [Hj'%lookup_lt_Some|(_ & ? & [= -> ->] & _)]; lia.
  - intros j c d m m' Hi Hj%Hmax. destruct (Hcase _ _ Hi) as [Hi'|(_ & ? & [= -> ->] & _)]; [|lia].
    enough (n <= m)%nat by lia. eapply (inv_sorted _ _ _ _ I); [|done|done]. lia.
  - intros c [Hc1|Hc1]%elem_of_app; [by apply (inv_visited _ _ _ _ I)|by apply Hn in Hc1 as (_ & _ & _ & ? & _)].
  - intros c [Hc1|Hc1]%elem_of_app; [by apply (inv_inBounds _ _ _ _ I)|right; by apply Hn in Hc1 as (_ & ? & _)].
  - intros i c m Hi Hic c' Hsu Hpc. apply Hold in Hic; [|lia]. destruct (decide (i = qi)) as [->|Hne].
    + rewrite Hcur in Hic. injection Hic as <- <-. apply (Hc c') in Hpc; [|done]. apply Hseen in Hpc as [Hs|Hs].
      * apply (inv_seen _ _ _ _ I), fst_elem in Hs as (j & m' & Hj). exists m'. split; [|by eapply (inv_spread _ _ _ _ I)].
        apply elem_of_app. left. by eapply list_elem_of_lookup_2.
      * exists (S n). split; [|lia]. apply elem_of_app. right. unfold with_dist. apply list_elem_of_fmap. by exists c'.
    + destruct (inv_closed _ _ _ _ I i c m ltac:(lia) Hic c' Hsu Hpc) as (m' & Hm & ?). exists m'.
      split; [|done]. apply elem_of_app. by left.
  - rewrite Hp; [apply I|]. apply (inv_seen _ _ _ _ I), fst_elem. exists 0%nat, 0%nat. apply I.
Qed.

(** Cells near enough to the expanded ones have been reached. *)
Lemma reached qd qi seen parents K : Inv qd qi seen parents ->
  (forall i c m, qd !! i = Some (c, m) -> (m < K)%nat -> (i < qi)%nat) ->
  forall k c, walk k start c -> (k <= K)%nat -> exists m, (c, m) ∈ qd /\ (m <= k)%nat.
Proof.
  intros I Hexp k c W. remember start as a eqn:Ha. induction W as [c|k a b c W IH Hsu Hp]; intros Hk; subst.
  - exists 0%nat. split; [|lia]. eapply list_elem_of_lookup_2, I.
  - destruct IH as (m & Hm & Hle); [done|lia|]. apply list_elem_of_lookup in Hm as [i Hi].
    destruct (inv_closed _ _ _ _ I i b m) with c as (m' & ? & ?); [eapply Hexp; [done|lia]|done..|].
    exists m'. split; [done|lia].
Qed.

(** Following the parents from a cell ends one step from the start. *)
Lemma backtrack_spec qd qi seen parents ps : Inv qd qi seen parents ->
  (forall c, c ∈ seen -> ps !! c = parents !! c) ->
  forall n i c fuel, qd !! i = Some (c, S n) -> (n < fuel)%nat ->
  exists next, backtrack fuel ps start c = Some next /\ next ∈ succs start /\ passable next = true /\ walk n next c.
Proof.
  intros I Hps n. induction n as [|n IH]; intros i c fuel Hi Hf; (destruct fuel as [|fuel]; [lia|]); cbn [backtrack];
    (rewrite Hps by (apply (inv_seen _ _ _ _ I), fst_elem; eauto));
    destruct (inv_parent _ _ _ _ I _ _ _ Hi) as (j & p & Hj & -> & Hsu & Hpc).
  - rewrite (inv_rest _ _ _ _ I _ _ Hj) in *. rewrite bool_decide_true by done. exists c. split_and!; (done || constructor).
  - rewrite bool_decide_false.
    + destruct (IH j p fuel Hj ltac:(lia)) as (next & Hb & Hs & Hn & W). exists next. split_and!; try done.
      by eapply walk_step.
    + intros ->. assert (j = 0%nat) as ->.
      { eapply NoDup_lookup; [apply (inv_nodup _ _ _ _ I)| |].
        - rewrite list_lookup_fmap, Hj. reflexivity.
        - rewrite list_lookup_fmap, (inv_start _ _ _ _ I). reflexivity. }
      rewrite (inv_start _ _ _ _ I) in Hj. done.
Qed.

(** What the search answers: a nearest cell that is not visited, with the
    first step of a shortest walk to it; or that there is none. *)
Definition Answers (r : option cell * gmap cell cell) (fuel : nat) : Prop :=
  match r with
  | (Some target, ps) => (target ∉ visited) /\ exists n next,
      walk (S n) start target /\ (forall m c, walk m start c -> (c ∉ visited) -> (S n <= m)%nat) /\
      backtrack fuel ps start target = Some next /\ next ∈ succs start /\ passable next = true /\ walk n next target
  | (None, _) => forall m c, walk m start c -> c ∈ visited
  end.

Lemma hit_answers qd qi seen parents cur n target ps fuel : Inv qd qi seen parents -> qd !! qi = Some (cur, n) ->
  expand inBounds danger fog visited allowFog cur dirs qd.*1 seen parents = Hit target ps ->
  (S n < fuel)%nat -> Answers (Some target, ps) fuel.
Proof.
  intros I Hcur E Hf. pose proof (expand_spec cur dirs qd.*1 seen parents) as S0. rewrite E in S0.
  destruct S0 as (Hsu & Hp & Hns & Hnv & Hpar & Hkeep). change (map (move cur) dirs) with (succs cur) in Hsu.
  split; [done|]. pose proof (inv_walk _ _ _ _ I _ _ _ Hcur) as W.
  assert (exists next, backtrack fuel ps start target = Some next /\ next ∈ succs start /\ passable next = true /\ walk n next target) as (next & ?).
  { destruct fuel as [|fuel]; [lia|]. cbn [backtrack]. rewrite Hpar. destruct n as [|n].
    - rewrite (inv_rest _ _ _ _ I _ _ Hcur) in *. rewrite bool_decide_true by done. exists target. split_and!; (done || constructor).
    - rewrite bool_decide_false.
      + destruct (backtrack_spec _ _ _ _ ps I Hkeep n qi cur fuel Hcur ltac:(lia)) as (next & ? & ? & ? & W').
        exists next. split_and!; try done. by eapply walk_step.
      + intros ->. assert (qi = 0%nat) as ->.
        { eapply NoDup_lookup; [apply (inv_nodup _ _ _ _ I)| |].
          - rewrite list_lookup_fmap, Hcur. reflexivity.
          - rewrite list_lookup_fmap, (inv_start _ _ _ _ I). reflexivity. }
        rewrite (inv_start _ _ _ _ I) in Hcur. done. }
  exists n, next. split; [by eapply walk_step|]. split; [|done].
  intros m c Wm Hc. destruct (decide (m <= n)%nat) as [Hle|]; [exfalso|lia].
  destruct (reached _ _ _ _ n I) with m c as (m' & Hm & _); [|done|done|].
  - intros i d k Hi Hk. destruct (decide (i < qi)%nat) as [|Hge]; [done|exfalso].
    assert (n <= k)%nat; [|lia]. eapply (inv_sorted _ _ _ _ I); [|done|done]. lia.
  - apply Hc, (inv_visited _ _ _ _ I). apply list_elem_of_fmap. by exists (c, m').
Qed.

Lemma miss_answers qd seen parents fuel : Inv qd (length qd) seen parents -> Answers (None, parents) fuel.
Proof.
  intros I m c W. destruct (reached _ _ _ _ m I) with m c as (m' & Hm & _); [|done|done|].
  - intros i d k Hi _. by eapply lookup_lt_Some.
  - apply (inv_visited _ _ _ _ I). apply list_elem_of_fmap. by exists (c, m').
Qed.

Lemma dist_index qd qi seen parents : Inv qd qi seen parents ->
  forall n i c, qd !! i = Some (c, n) -> (n <= i)%nat.
Proof.
  intros I n. induction n as [|n IH]; intros i c Hi; [lia|].
  destruct (inv_parent _ _ _ _ I _ _ _ Hi) as (j & p & Hj & _).
  destruct (decide (i <= j)%nat) as [Hij|].
  - pose proof (inv_sorted _ _ _ _ I _ _ _ _ _ _ Hij Hi Hj). lia.
  - apply IH in Hj. lia.
Qed.

(** Every cell in bounds is among [cells]. *)
Context (cells : gset cell) (cells_all : forall c, inBounds c = true -> c ∈ cells).

Lemma queue_bound qd qi seen parents : Inv qd qi seen parents -> (length qd <= S (size cells))%nat.
Proof.
  intros I. pose proof (size_list_to_set (C := gset cell) qd.*1 (inv_nodup _ _ _ _ I)) as E. rewrite length_fmap in E.
  rewrite <- E. etrans; [apply (subseteq_size (C := gset cell) _ ({[start]} ∪ cells))|].
  - intros c Hc. apply elem_of_list_to_set in Hc. apply elem_of_union.
    destruct (inv_inBounds _ _ _ _ I c Hc) as [->|Hp]; [left; set_solver|right].
    apply cells_all. unfold passable in Hp. by destruct (inBounds c).
  - pose proof (size_union_alt {[start]} cells) as E2. rewrite E2, size_singleton.
    pose proof (subseteq_size (cells ∖ {[start]}) cells ltac:(set_solver)). lia.
Qed.

Lemma loop_answers bf fuel : (2 + size cells <= bf)%nat ->
  forall qd qi seen parents, Inv qd qi seen parents -> (S (size cells) < fuel + qi)%nat ->
  exists r, bfs_loop inBounds danger fog visited allowFog fuel qd.*1 qi seen parents = Some r /\ Answers r bf.
Proof.
  intros Hbf.
  induction fuel as [|fuel IH]; intros qd qi seen parents I Hf; pose proof (queue_bound _ _ _ _ I) as Hb.
  { pose proof (inv_qi _ _ _ _ I). lia. }
  cbn [bfs_loop]. rewrite list_lookup_fmap. destruct (qd !! qi) as [[cur n]|] eqn:Hcur; cbn [fmap option_fmap option_map fst].
  - pose proof (lookup_lt_Some _ _ _ Hcur) as Hlt. pose proof (dist_index _ _ _ _ I _ _ _ Hcur) as Hn.
    destruct (expand _ _ _ _ _ cur dirs qd.*1 seen parents) as [target ps|q' s' ps] eqn:E.
    + eexists. split; [done|]. eapply hit_answers; [done..|lia].
    + destruct (Inv_step _ _ _ _ _ _ _ _ _ I Hcur E) as (qd' & -> & I'). apply IH; [done|lia].
  - eexists. split; [done|]. apply lookup_ge_None in Hcur. pose proof (inv_qi _ _ _ _ I).
    replace qi with (length qd) in I by lia. by eapply miss_answers.
Qed.

Lemma bfs_answers fuel : (2 + size cells <= fuel)%nat -> start ∈ visited ->
  exists r, bfs inBounds danger fog visited allowFog fuel start = Some r /\ Answers r fuel.
Proof. intros Hf Hv. apply (loop_answers fuel fuel Hf [(start, 0%nat)] 0); [by apply Inv_init|lia]. Qed.
End Walks.

(** C28: The search ends, with as much fuel as there are cells and two more, and
    finds a nearest cell that is not visited whenever one can be reached: the
    target is as few steps away as any, and the step taken is the first of a
    shortest walk to it over cells in bounds that are not known to be dangerous
    (nor in fog, unless that is allowed). *)
Theorem bfs_correct (inBounds danger fog : cell -> bool) (visited : gset cell) (allowFog : bool) (start : cell) (cells : gset cell) fuel :
  (forall c, inBounds c = true -> c ∈ cells) -> start ∈ visited -> (2 + size cells <= fuel)%nat ->
  match bfs inBounds danger fog visited allowFog fuel start with
  | Some (Some target, parents) => (target ∉ visited) /\ exists n next,
      walk inBounds danger fog allowFog (S n) start target /\
      (forall m c, walk inBounds danger fog allowFog m start c -> (c ∉ visited) -> (S n <= m)%nat) /\
      backtrack fuel parents start target = Some next /\ next ∈ succs start /\
      passable inBounds danger fog allowFog next = true /\ walk inBounds danger fog allowFog n next target
  | Some (None, _) => forall m c, walk inBounds danger fog allowFog m start c -> c ∈ visited
  | None => False
  end.
Proof.
  intros Hc Hv Hf. by destruct (bfs_answers inBounds danger fog visited allowFog start cells Hc fuel Hf Hv) as ([[t|] ps] & -> & A).
Qed.

(** A corridor of three cells: the far end is the nearest unvisited cell. *)
Lemma bfs_correct_witness :
  let inb := fun c : cell => bool_decide (c ∈ ({[(0, 0); (1, 0); (2, 0)]} : gset cell)) in
  let vis : gset cell := {[(0, 0); (1, 0)]} in
  (forall m c, walk inb (fun _ => false) (fun _ => false) true m (0, 0) c -> (c ∉ vis) -> (2 <= m)%nat) /\
  backtrack 5 (<[(2, 0) := (1, 0)]> (<[(1, 0) := (0, 0)]> ∅)) (0, 0) (2, 0) = Some (1, 0).
Proof.
  intros inb vis.
  pose proof (bfs_correct inb (fun _ => false) (fun _ => false) vis true (0, 0) {[(0, 0); (1, 0); (2, 0)]} 5) as B.
  assert (bfs inb (fun _ => false) (fun _ => false) vis true 5 (0, 0) =
    Some (Some (2, 0), <[(2, 0) := (1, 0)]> (<[(1, 0) := (0, 0)]> ∅))) as E by (vm_compute; reflexivity).
  rewrite E in B. destruct B as (_ & n & next & W & Hmin & Hb & _).
  - intros c Hc. by apply bool_decide_eq_true in Hc.
  - refine (bool_decide_unpack _ _). vm_compute. exact I.
  - vm_compute. lia.
  - split; [|vm_compute; reflexivity]. intros m c Wm Hc. etrans; [|by eapply Hmin].
    destruct n; [|lia]. exfalso. inversion W as [|? ? b ? W0 Hs]; subst. inversion W0; subst.
    pose proof (bool_decide_pack _ Hs) as Hs'. vm_compute in Hs'. exact Hs'.
Defined.
