(* ===== verification/NpcWeb.v ===== *)
(** * The agent on a grid ([examples/npc_web/main.go])

    A world of tiles shared by the sensor, the actions and the conditions of an
    agent; the behaviour tree that moves it; building the world and the tick
    of the program. The tree, its nodes and the agent's step are those of
    [BehaviorTree] and [Agent]; the search of [ExploreAction] is in
    [GridSearch]. The grid is the object number [grid_ref] of the world. *)
From S2P Require Import Prelude Blackboard BehaviorTree Agent GridSearch Channels.
From Stdlib Require Import ZArith Lia Strings.String Floats.SpecFloat.
From stdpp Require Import base tactics list strings gmap sets pretty.
Open Scope Z_scope.

(** ** Tiles *)
Definition Empty : Z := 0.
Definition Trap : Z := 1.
Definition Artifact : Z := 2.
Definition Exit : Z := 3.
Definition Fog : Z := 4.
Definition Tile_String (t : Z) : string :=
  if t =? Empty then "empty" else if t =? Trap then "trap" else if t =? Artifact then "artifact"
  else if t =? Exit then "exit" else if t =? Fog then "fog" else "empty".

Abbreviation rows := (list (list Z)).
Definition cell_of (g : rows) (c : cell) : Z := default Empty (g !! Z.to_nat c.2 ≫= fun r => r !! Z.to_nat c.1).
Definition set_cell (c : cell) (t : Z) (g : rows) : rows := alter (fun r => <[Z.to_nat c.1 := t]> r) (Z.to_nat c.2) g.

(** ** [NewWorldRandom]: [rand k] is the k-th draw of the generator *)
Section NewWorld.
Context (rand : nat -> nat) (w h : nat).

Definition Intn (n k : nat) : Z := Z.of_nat (Nat.modulo (rand k) n).
(** The loop that looks for an empty cell. *)
Fixpoint place_one (fuel : nat) (t : Z) (k : nat) (g : rows) : option (rows * nat) :=
  match fuel with
  | O => None
  | S fuel =>
      let c := (Intn w k, Intn h (S k)) in
      if cell_of g c =? Empty then Some (set_cell c t g, (2 + k)%nat) else place_one fuel t (2 + k) g
  end.
Fixpoint place (fuel : nat) (t : Z) (n : nat) (k : nat) (g : rows) : option (rows * nat) :=
  match n with
  | O => Some (g, k)
  | S n => '(g, k) ← place_one fuel t k g; place fuel t n k g
  end.
Definition NewWorldRandom (fuel traps artifacts fog : nat) : option (rows * nat) :=
  let g := replicate h (replicate w Empty) in
  let g := set_cell (Intn w 0, Intn h 1) Exit g in
  '(g, k) ← place fuel Trap traps 2 g;
  '(g, k) ← place fuel Artifact artifacts k g;
  place fuel Fog fog k g.
End NewWorld.

(** ** Sensor, actions and conditions *)
Section Game.
(** Conversions out of [int]'s range, the generator's floats, the size. *)
Context (int_overflow : spec_float -> Z) (frand : nat -> spec_float) (W H : Z).
Definition BB : bbMap := NewBlackboard.
Definition grid_ref : nat := 0.

Definition grid (w : World) : rows := match objects w !! grid_ref with Some (VTable g) => g | _ => [] end.
Definition with_objects (f : gmap nat val -> gmap nat val) (w : World) : World :=
  mkWorld (bbdata w) (memory w) (reads w) (draws w) (f (objects w)).
Definition InBounds (c : cell) : bool := (0 <=? c.1) && (0 <=? c.2) && (c.1 <? W) && (c.2 <? H).
Definition TileAt (c : cell) (w : World) : Z := if InBounds c then cell_of (grid w) c else Empty.
Definition ClearTile (c : cell) (w : World) : World :=
  if InBounds c then with_objects (insert grid_ref (VTable (set_cell c Empty (grid w)))) w else w.

Definition getInt (key : string) (w : World) : Z :=
  match bb_get BB key w with
  | Some (VInt v) => v
  | Some (VInt64 v) => v
  | Some (VFloat64 f) => f64_to_int int_overflow f
  | _ => 0
  end.
Definition getBool (key : string) (w : World) : bool :=
  match bb_get BB key w with Some (VBool b) => b | _ => false end.
Definition abs (x : Z) : Z := if x <? 0 then wrapS 64 (- x) else x.
Definition pos (w : World) : cell := (getInt "pos_x" w, getInt "pos_y" w).
Definition set_pos (c : cell) (w : World) : World := bb_set BB "pos_y" (VInt c.2) (bb_set BB "pos_x" (VInt c.1) w).
Definition danger_key (c : cell) : string := "danger_" +:+ pretty c.1 +:+ "_" +:+ pretty c.2.
Definition danger (w : World) (c : cell) : bool := getBool (danger_key c) w.

(** The range [-r..r] and the offsets in the order of the two loops. *)
Definition range (r : Z) : list Z := map (fun i => Z.of_nat i - r) (seq 0 (Z.to_nat (2 * r + 1))).
Definition offsets (r : Z) : list cell := flat_map (fun dy => map (fun dx => (dx, dy)) (range r)) (range r).

Record scan : Type := mkScan { exitVisible : bool; nTrap : bool; nArt : bool; nearestArtDist : Z; nearest : cell; sworld : World }.
Definition scan_cell (at_ : cell) (s : scan) (d : cell) : scan :=
  let c := move at_ d in
  if negb (InBounds c) then s
  else
    let t := TileAt c (sworld s) in
    if t =? Exit then
      mkScan true (nTrap s) (nArt s) (nearestArtDist s) (nearest s)
        (bb_set BB "exit_y" (VInt c.2) (bb_set BB "exit_x" (VInt c.1) (sworld s)))
    else if t =? Trap then mkScan (exitVisible s) true (nArt s) (nearestArtDist s) (nearest s) (sworld s)
    else if t =? Artifact then
      let dist := add (abs d.1) (abs d.2) in
      if dist <? nearestArtDist s then mkScan (exitVisible s) (nTrap s) true dist c (sworld s)
      else mkScan (exitVisible s) (nTrap s) true (nearestArtDist s) (nearest s) (sworld s)
    else s.
(** 0.1 in binary64 *)
Definition f64_tenth : spec_float := S754_finite false 7205759403792794 (-56).

Definition VisionSensor_Update (radius : Z) (w : World) : option string * World :=
  let at_ := pos w in
  let tile := TileAt at_ w in
  let w := bb_set BB "trap_here" (VBool (tile =? Trap)) w in
  let w := bb_set BB "artifact_here" (VBool (tile =? Artifact)) w in
  let w := bb_set BB "fog_here" (VBool (tile =? Fog)) w in
  let s := foldl (scan_cell at_) (mkScan false false false (2 ^ 30) (-1, -1) w) (offsets radius) in
  let w := bb_set BB "exit_visible" (VBool (exitVisible s)) (sworld s) in
  let w := bb_set BB "nearby_trap" (VBool (nTrap s)) w in
  let w := bb_set BB "nearby_artifact" (VBool (nArt s)) w in
  let w :=
    if nArt s && (0 <=? (nearest s).1) then
      bb_set BB "artifact_y" (VInt (nearest s).2)
        (bb_set BB "artifact_x" (VInt (nearest s).1) (bb_set BB "artifact_visible" (VBool true) w))
    else bb_set BB "artifact_visible" (VBool false) w in
  (None, bb_set BB "speed_mod" (VFloat64 (f64_add f64_one (f64_mul (f64_of_Z (getInt "energy" w)) f64_tenth))) w).

(** [MoveSmartAction] *)
Definition free_step (w : World) (c : cell) : bool := InBounds c && negb (danger w c).
Definition step_score (w : World) (goal np : cell) : Z :=
  let dist := add (abs (wrapS 64 (goal.1 - np.1))) (abs (wrapS 64 (goal.2 - np.2))) in
  let fogPenalty := if TileAt np w =? Fog then 3 else 0 in
  wrapS 64 (wrapS 64 (dist * 10) + fogPenalty).
Definition consider (w : World) (goal : cell) (best : cell * Z) (np : cell) : cell * Z :=
  if negb (InBounds np) then best
  else if danger w np then best
  else let s := step_score w goal np in if s <? best.2 then (np, s) else best.
Definition MoveSmart (tx ty : string) (w : World) : Status * option nerr * World :=
  let c := pos w in
  let goal := (getInt tx w, getInt ty w) in
  if bool_decide (c = goal) then (StatusSuccess, None, w)
  else
    let best := foldl (consider w goal) (c, 2 ^ 30) (succs c) in
    let best := if best.2 =? 2 ^ 30 then default best.1 (List.find (free_step w) (succs c)) else best.1 in
    let '(slow, w) := if getBool "fog_here" w then let '(f, w) := Float64 frand w in (SFltb f (f64_div f64_one (f64_of_Z 2)), w) else (false, w) in
    if slow then (StatusRunning, None, w) else (StatusRunning, None, set_pos best w).

(** [ExploreAction]: the fuel is enough for every search ([explore_correct]). *)
Definition search_fuel : nat := 2 + Z.to_nat (W * H).
Definition visited (w : World) : gset cell := match bb_get BB "visited" w with Some (VCells m) => m | _ => ∅ end.
Definition search (w : World) (vm : gset cell) (allowFog : bool) : option (option cell * gmap cell cell) :=
  bfs InBounds (danger w) (fun c => TileAt c w =? Fog) vm allowFog search_fuel (pos w).
Definition next_cell (w : World) (vm : gset cell) : cell :=
  let go target parents := default target (backtrack search_fuel parents (pos w) target) in
  match search w vm false with
  | Some (Some target, parents) => go target parents
  | _ =>
      match search w vm true with
      | Some (Some target, parents) => go target parents
      | _ => default (0, 0) (List.find (free_step w) (succs (pos w)))
      end
  end.
Definition Explore (w : World) : Status * option nerr * World :=
  let vm := {[pos w]} ∪ visited w in
  (StatusRunning, None, set_pos (next_cell w vm) (bb_set BB "visited" (VCells vm) w)).

Definition PickupArtifact (w : World) : Status * option nerr * World :=
  let c := pos w in
  if negb (TileAt c w =? Artifact) then (StatusFailure, None, w)
  else (StatusSuccess, None, ClearTile c (bb_set BB "energy" (VInt (wrapS 64 (getInt "energy" w + 1))) w)).

Definition remember_cell (c : cell) (w : World) (d : cell) : World :=
  let n := move c d in
  if InBounds n && (TileAt n w =? Trap) then bb_set BB (danger_key n) (VBool true) w else w.
Definition remember_around (c : cell) (w : World) : World := foldl (remember_cell c) w (offsets 1).
Definition RememberTrap (w : World) : Status * option nerr * World :=
  let c := pos w in
  if TileAt c w =? Trap then
    let hp := getInt "hp" w in
    if hp <=? 0 then (StatusFailure, None, w)
    else (StatusSuccess, None, remember_around c (bb_set BB "hp" (VInt (wrapS 64 (hp - 1))) w))
  else (StatusSuccess, None, remember_around c w).

Definition ConditionKeyBool (name key : string) : node := ConditionFunc name (fun w => (getBool key w, None, w)).
Definition CheckAtExit (w : World) : Status * option nerr * World :=
  (if TileAt (pos w) w =? Exit then StatusSuccess else StatusFailure, None, w).

(** ** [Game.build]: the tree *)
Definition ms : Z := 1000000.
Definition game_tree : node :=
  let cd := Cooldown "MoveCD" (1000 * ms) false (Some (ActionFunc "MoveToExit" (MoveSmart "exit_x" "exit_y"))) in
  let ec := Cooldown "ExploreCD" (1000 * ms) false (Some (ActionFunc "Explore" Explore)) in
  let remember := ActionFunc "RememberTrap" RememberTrap in
  let toExit := Sequence "ToExit" [ConditionKeyBool "ExitVisible" "exit_visible";
                  Selector "MoveOrDone" [ActionFunc "CheckAtExit" CheckAtExit; cd]] in
  let toArtifact := Sequence "ToArtifact" [ConditionKeyBool "ArtifactVisible" "artifact_visible";
                  ActionFunc "MoveToArtifact" (MoveSmart "artifact_x" "artifact_y")] in
  let collect := Sequence "Collect" [ConditionKeyBool "ArtifactHere" "artifact_here"; ActionFunc "PickupArtifact" PickupArtifact] in
  let trapImpact := Sequence "TrapImpact" [ConditionKeyBool "TrapHere" "trap_here"; remember] in
  let safety := Sequence "Safety" [ConditionKeyBool "NearTrap" "nearby_trap"; remember] in
  Selector "Root" [toExit; trapImpact; collect; toArtifact; ec; safety].
Definition game_agent : agent := mkAgent BB (Some game_tree) [mkSensor "VisionSensor" (VisionSensor_Update 4)].
End Game.

Definition start_data : gmap string val :=
  Blackboard.Set_ BB "energy" (VInt 0) (Blackboard.Set_ BB "hp" (VInt 5) (Blackboard.Set_ BB "pos_y" (VInt 0) (Blackboard.Set_ BB "pos_x" (VInt 0) ∅))).
Definition start_world (g : rows) (draws : nat) : World := mkWorld start_data NewMemory 0 draws {[grid_ref := VTable g]}.
(** [build]: a world of 22 by 14 with 30 traps, 7 artifacts and 24 cells of fog. *)
Definition build (rand : nat -> nat) (fuel : nat) : option World :=
  '(g, k) ← NewWorldRandom rand 22 14 fuel 30 7 24; Some (start_world g k).

(** ** Tiles of a grid *)
Definition count_tile (t : Z) (g : rows) : nat := length (List.filter (Z.eqb t) (concat g)).
Definition well_formed (W H : Z) (g : rows) : Prop :=
  length g = Z.to_nat H /\ Forall (fun r => length r = Z.to_nat W) g.

Section Grids.
Context (W H : Z).

Lemma filter_insert (t u : Z) (r : list Z) i v : r !! i = Some v ->
  (length (List.filter (Z.eqb t) (<[i := u]> r)) + (if Z.eqb t v then 1 else 0) =
   length (List.filter (Z.eqb t) r) + (if Z.eqb t u then 1 else 0))%nat.
Proof.
  revert i. induction r as [|x r IH]; intros [|i]; [done..| |].
  - intros [= ->]. change (<[0%nat:=u]> (v :: r)) with (u :: r). cbn [List.filter].
    destruct (t =? v), (t =? u); cbn [length]; lia.
  - intros Hi. specialize (IH i Hi). change (<[S i:=u]> (x :: r)) with (x :: <[i:=u]> r). cbn [List.filter].
    destruct (t =? x); cbn [length]; lia.
Qed.

Lemma count_set_cell t u c (g : rows) r v : g !! Z.to_nat c.2 = Some r -> r !! Z.to_nat c.1 = Some v ->
  (count_tile t (set_cell c u g) + (if Z.eqb t v then 1 else 0) = count_tile t g + (if Z.eqb t u then 1 else 0))%nat.
Proof.
  intros Hg Hr. unfold count_tile, set_cell. revert Hg. generalize (Z.to_nat c.2) as j.
  induction g as [|x g IH]; intros [|j]; [done..| |].
  - intros [= ->]. change (alter ?f 0%nat (r :: g)) with (f r :: g). cbn [concat].
    rewrite !List.filter_app, !length_app. pose proof (filter_insert t u r _ v Hr). lia.
  - intros Hj. specialize (IH j Hj). change (alter ?f (S j) (x :: g)) with (x :: alter f j g). cbn [concat].
    rewrite !List.filter_app, !length_app. lia.
Qed.

Lemma cell_inside g c : well_formed W H g -> InBounds W H c = true ->
  exists r v, g !! Z.to_nat c.2 = Some r /\ r !! Z.to_nat c.1 = Some v /\ cell_of g c = v.
Proof.
  intros [Hl Hr] Hi. unfold InBounds in Hi. rewrite !andb_true_iff in Hi. destruct Hi as [[[H1 H2] H3] H4].
  apply Z.leb_le in H1, H2. apply Z.ltb_lt in H3, H4.
  destruct (lookup_lt_is_Some_2 g (Z.to_nat c.2)) as [r Eg]; [lia|].
  rewrite Forall_forall in Hr. pose proof (Hr r (list_elem_of_lookup_2 _ _ _ Eg)) as Er.
  destruct (lookup_lt_is_Some_2 r (Z.to_nat c.1)) as [v Ev]; [lia|].
  exists r, v. split_and!; [done..|]. unfold cell_of. by rewrite Eg; cbn; rewrite Ev.
Qed.

Lemma set_cell_wf g c t : well_formed W H g -> well_formed W H (set_cell c t g).
Proof.
  intros [Hl Hr]. split; unfold set_cell; [by rewrite length_alter|].
  apply Forall_alter; [done|]. intros r _ Hlen. by rewrite length_insert.
Qed.

Lemma cell_of_set g c d t : well_formed W H g -> InBounds W H c = true -> InBounds W H d = true ->
  cell_of (set_cell c t g) d = if decide (d = c) then t else cell_of g d.
Proof.
  intros Hwf Hc Hd. destruct (cell_inside g c Hwf Hc) as (r & v & Eg & Er & _).
  pose proof Hc as Hc'. pose proof Hd as Hd'. unfold InBounds in Hc', Hd'. rewrite !andb_true_iff, !Z.leb_le in Hc', Hd'.
  unfold cell_of, set_cell. destruct (decide (d = c)) as [->|Hne].
  - rewrite list_lookup_alter_eq, Eg. cbn. rewrite list_lookup_insert_eq; [done|]. by eapply lookup_lt_Some.
  - destruct (decide (d.2 = c.2)) as [E2|E2].
    + rewrite E2, list_lookup_alter_eq, Eg. cbn. rewrite list_lookup_insert_ne; [done|].
      intros E1. apply Hne. destruct c, d. cbn in *. f_equal; lia.
    + rewrite list_lookup_alter_ne; [done|]. lia.
Qed.
End Grids.

(** ** What the pieces of a step change *)
Section Frames.
Context (int_overflow : spec_float -> Z) (frand : nat -> spec_float) (W H : Z).
Abbreviation gInt := (getInt int_overflow).
Abbreviation gPos := (pos int_overflow).

Definition protected : list string := ["pos_x"; "pos_y"; "hp"; "energy"].
Definition plain (k : string) : bool := negb (String.prefix "danger_" k) && negb (bool_decide (k ∈ protected)).

(** The agent's place, health, energy and grid are what they were, and no
    danger is forgotten. *)
Record same_state (w w' : World) : Prop := {
  ss_objects : objects w' = objects w;
  ss_protected : forall k, k ∈ protected -> bb_get BB k w' = bb_get BB k w;
  ss_danger : forall c, danger w c = true -> danger w' c = true
}.
#[local] Instance same_state_preorder : PreOrder same_state.
Proof.
  split; [done|]. intros w1 w2 w3 [O1 P1 D1] [O2 P2 D2]. split; [congruence| |auto].
  intros k Hk. by rewrite P2, P1.
Qed.

Lemma get_set k k' v w : bb_get BB k (bb_set BB k' v w) = if decide (k' = k) then Some v else bb_get BB k w.
Proof.
  unfold bb_get, bb_set, Get, Blackboard.Set_, with_data, fullKey. cbn.
  destruct (decide (k' = k)) as [->|Hne]; [by rewrite lookup_insert_eq|by rewrite lookup_insert_ne].
Qed.
Lemma danger_key_prefix c : String.prefix "danger_" (danger_key c) = true.
Proof. unfold danger_key. cbn. by destruct (pretty c.1 +:+ "_" +:+ pretty c.2). Qed.
Lemma danger_key_plain c k : plain k = true -> k <> danger_key c.
Proof. intros Hp ->. unfold plain in Hp. by rewrite danger_key_prefix in Hp. Qed.
Lemma danger_key_unprotected c k : k ∈ protected -> danger_key c <> k.
Proof. intros Hk <-. unfold protected in Hk. rewrite !elem_of_cons, elem_of_nil in Hk. by destruct Hk as [|[|[|[|]]]]. Qed.

Lemma set_plain k v w : plain k = true -> same_state w (bb_set BB k v w).
Proof.
  intros Hp. split; [done| |].
  - intros k' Hk'. rewrite get_set, decide_False; [done|]. intros ->. unfold plain in Hp.
    by rewrite bool_decide_true, andb_false_r in Hp.
  - intros c. unfold danger, getBool. rewrite get_set, decide_False; [done|]. by apply danger_key_plain.
Qed.
Lemma set_danger c w : same_state w (bb_set BB (danger_key c) (VBool true) w).
Proof.
  split; [done| |].
  - intros k Hk. rewrite get_set, decide_False; [done|]. by apply danger_key_unprotected.
  - intros d. unfold danger, getBool. rewrite get_set. by destruct (decide _).
Qed.

Lemma same_getInt k w w' : same_state w w' -> k ∈ protected -> gInt k w' = gInt k w.
Proof. intros [_ P _] Hk. unfold getInt. by rewrite P. Qed.
Lemma same_pos w w' : same_state w w' -> gPos w' = gPos w.
Proof. intros S0. unfold pos. by rewrite !(same_getInt _ w w' S0) by (unfold protected; set_solver). Qed.
Lemma same_grid w w' : same_state w w' -> grid w' = grid w.
Proof. intros [O _ _]. unfold grid. by rewrite O. Qed.

(** A scan keeps the state, and so does the sensor. *)
Lemma scan_same at_ ds s : same_state (sworld s) (sworld (foldl (scan_cell W H at_) s ds)).
Proof.
  revert s. induction ds as [|d ds IH]; intros s; cbn [foldl]; [done|]. etrans; [|apply IH].
  unfold scan_cell. repeat case_match; cbn [sworld]; try done.
  etrans; [apply (set_plain "exit_x")|apply (set_plain "exit_y")]; done.
Qed.

Lemma vision_same r w : (VisionSensor_Update int_overflow W H r w).1 = None /\
  same_state w (VisionSensor_Update int_overflow W H r w).2.
Proof.
  unfold VisionSensor_Update. split; [done|]. cbn [snd]. set (s := foldl _ _ _).
  assert (same_state w (sworld s)) as S0.
  { etrans; [|apply scan_same]. cbn [sworld].
    etrans; [|apply set_plain; reflexivity]. etrans; [|apply set_plain; reflexivity]. by apply set_plain. }
  etrans; [exact S0|]. etrans; [|apply set_plain; reflexivity].
  assert (same_state (sworld s) (bb_set BB "nearby_artifact" (VBool (nArt s)) (bb_set BB "nearby_trap" (VBool (nTrap s))
    (bb_set BB "exit_visible" (VBool (exitVisible s)) (sworld s))))) as S1.
  { do 2 (etrans; [|apply set_plain; reflexivity]). by apply set_plain. }
  etrans; [exact S1|]. case_match; [|by apply set_plain].
  do 2 (etrans; [|apply set_plain; reflexivity]). by apply set_plain.
Qed.

Lemma remember_same_ds c ds w : same_state w (foldl (remember_cell W H c) w ds).
Proof.
  revert w. induction ds as [|d ds IH]; intros w; cbn [foldl]; [done|]. etrans; [|apply IH].
  unfold remember_cell. cbv zeta. case_match; [apply set_danger|done].
Qed.
Lemma remember_same c w : same_state w (remember_around W H c w).
Proof. apply remember_same_ds. Qed.
End Frames.

(** ** The least of the free cells *)
Section Pick.
Context {A : Type} (free : A -> bool) (score : A -> Z).

Definition pick (best : A * Z) (c : A) : A * Z :=
  if free c then if score c <? best.2 then (c, score c) else best else best.
Record picked (cs : list A) (best r : A * Z) : Prop := {
  pk_from : r = best \/ (r.1 ∈ cs /\ free r.1 = true /\ r.2 = score r.1 /\ r.2 < best.2);
  pk_best : r.2 <= best.2;
  pk_least : forall c, c ∈ cs -> free c = true -> r.2 <= score c
}.
Lemma pick_all cs : forall best, picked cs best (foldl pick best cs).
Proof.
  induction cs as [|c cs IH]; intros best; cbn [foldl].
  { split; [by left|lia|by intros c ?%elem_of_nil]. }
  assert ((free c = true /\ score c < best.2 /\ pick best c = (c, score c)) \/
    (pick best c = best /\ (free c = true -> best.2 <= score c))) as [(Hf & Hs & E)|[E Hf]].
  { unfold pick. destruct (free c); [|by right]. destruct (Z.ltb_spec (score c) best.2); [by left|by right]. }
  all: rewrite E; match goal with |- picked _ _ (foldl _ ?b _) => destruct (IH b) as [Hr Hle Hmin] end; cbn [fst snd] in *.
  - split; [|lia|].
    + right. destruct Hr as [Hr|(? & ? & ? & ?)]; [rewrite Hr; cbn; split_and!; [by left|done|done|lia]|].
      split_and!; [by right|done|done|lia].
    + intros d [->|Hd]%elem_of_cons Hfd; [done|auto].
  - split; [|lia|].
    + destruct Hr as [?|(? & ? & ? & ?)]; [by left|right]. split_and!; [by right|done..].
    + intros d [->|Hd]%elem_of_cons Hfd; [specialize (Hf Hfd); lia|auto].
Qed.
End Pick.

(** ** The game's invariant *)
Section Invariant.
Context (int_overflow : spec_float -> Z) (clock : nat -> Z) (rand : nat -> nat) (frand : nat -> spec_float) (W H : Z) (total : Z).
Context (size_positive : 0 < W /\ 0 < H) (total_small : total < 2 ^ 62).
Abbreviation gInt := (getInt int_overflow).
Abbreviation gPos := (pos int_overflow).

(** The agent is on the grid, its health is between 0 and 5, and its energy
    is the number of artifacts that are gone. *)
Record game_inv (w : World) : Prop := {
  gi_pos : InBounds W H (gPos w) = true;
  gi_hp : 0 <= gInt "hp" w <= 5;
  gi_grid : well_formed W H (grid w);
  gi_energy : gInt "energy" w + Z.of_nat (count_tile Artifact (grid w)) = total;
  gi_energy_pos : 0 <= gInt "energy" w
}.
(** What a step may do. *)
Record step_ok (w w' : World) : Prop := {
  so_inv : game_inv w -> game_inv w';
  so_hp : game_inv w -> gInt "hp" w' <= gInt "hp" w;
  so_energy : game_inv w -> gInt "energy" w <= gInt "energy" w';
  so_danger : forall c, danger w c = true -> danger w' c = true
}.
#[local] Instance step_ok_preorder : PreOrder step_ok.
Proof.
  split; [by split|]. intros w1 w2 w3 [I1 H1 E1 D1] [I2 H2 E2 D2]. split; auto.
  - intros I. specialize (H1 I). specialize (H2 (I1 I)). lia.
  - intros I. specialize (E1 I). specialize (E2 (I1 I)). lia.
Qed.

Lemma same_ok w w' : same_state w w' -> step_ok w w'.
Proof.
  intros S0. pose proof (same_getInt int_overflow "hp" w w' S0 ltac:(unfold protected; set_solver)) as Hh.
  pose proof (same_getInt int_overflow "energy" w w' S0 ltac:(unfold protected; set_solver)) as He.
  split; [|lia|lia|apply S0]. intros [H1 H2 H3 H4 H5].
  split; rewrite ?(same_pos int_overflow w w' S0), ?(same_grid w w' S0), ?Hh, ?He; done.
Qed.

Lemma getInt_set k k' v w : gInt k (bb_set BB k' (VInt v) w) = if decide (k' = k) then v else gInt k w.
Proof. unfold getInt. rewrite get_set. by destruct (decide _). Qed.
Lemma danger_set k v w c : k ∈ protected -> danger (bb_set BB k v w) c = danger w c.
Proof.
  intros Hk. unfold danger, getBool. rewrite get_set, decide_False; [done|].
  intros E. by apply (danger_key_unprotected c k Hk).
Qed.
Lemma in_protected k : bool_decide (k ∈ protected) = true -> k ∈ protected.
Proof. apply bool_decide_eq_true_1. Qed.

(** Moving to a cell of the grid. *)
Lemma set_pos_ok c w : InBounds W H c = true -> step_ok w (set_pos c w).
Proof.
  intros Hc. unfold set_pos. split.
  - intros [H1 H2 H3 H4 H5]. split; unfold pos; rewrite ?getInt_set; try done.
  - intros _. by rewrite !getInt_set.
  - intros _. by rewrite !getInt_set.
  - intros d. by rewrite !danger_set by (apply in_protected; reflexivity).
Qed.

Lemma find_free w c : List.find (free_step W H w) (succs (gPos w)) = Some c ->
  InBounds W H c = true /\ danger w c = false.
Proof.
  intros [_ Hf]%find_some. unfold free_step in Hf. apply andb_true_iff in Hf as [? ?%negb_true_iff]. done.
Qed.

(** The choice among the neighbours: a cell that is free, or no move. *)
Lemma consider_pick w goal best c :
  consider W H w goal best c = pick (free_step W H w) (step_score W H w goal) best c.
Proof.
  unfold consider, pick, free_step. cbv zeta. generalize (step_score W H w goal c) as z. intros z.
  destruct (InBounds W H c), (danger w c); reflexivity.
Qed.
Lemma consider_all w goal cs best : picked (free_step W H w) (step_score W H w goal) cs best (foldl (consider W H w goal) best cs).
Proof.
  replace (foldl (consider W H w goal) best cs) with (foldl (pick (free_step W H w) (step_score W H w goal)) best cs);
    [apply pick_all|]. revert best. induction cs as [|c cs IH]; intros best; cbn [foldl]; [done|]. by rewrite consider_pick.
Qed.

(** [MoveSmartAction] stays or goes to a neighbour on the grid that is not
    known to be dangerous. *)
Lemma MoveSmart_moves tx ty w : let w' := (MoveSmart int_overflow frand W H tx ty w).2 in
  exists w1, (w1 = w \/ w1 = next_draw w) /\
    (w' = w1 \/ exists c, w' = set_pos c w1 /\ (c = gPos w \/ (c ∈ succs (gPos w) /\ free_step W H w c = true))).
Proof.
  unfold MoveSmart. case_bool_decide; [exists w; split; by left|]. cbv zeta.
  set (best := foldl _ _ _).
  assert (exists c, (if best.2 =? 2 ^ 30 then default best.1 (List.find (free_step W H w) (succs (gPos w))) else best.1) = c /\
    (c = gPos w \/ (c ∈ succs (gPos w) /\ free_step W H w c = true))) as (c & -> & Hc).
  { eexists. split; [done|]. pose proof (consider_all w (gInt tx w, gInt ty w) (succs (gPos w)) (gPos w, 2 ^ 30)) as B.
    cbv zeta in B. change (foldl _ _ _) with best in B.
    assert (best.1 = gPos w \/ (best.1 ∈ succs (gPos w) /\ free_step W H w best.1 = true)) as Hb.
    { destruct B as [[-> |(? & ? & _)] _ _]; [by left|by right]. }
    case_match; [|done]. destruct (List.find _ _) as [d|] eqn:Ef; cbn; [|done].
    apply find_some in Ef as [Hin ?]. right. split; [by apply list_elem_of_In|done]. }
  destruct (getBool "fog_here" w); cbn [Float64].
  - exists (next_draw w). split; [by right|]. destruct (SFltb _ _); [by left|right; by exists c].
  - exists w. split; [by left|]. right. by exists c.
Qed.

Lemma reads_same w : same_state w (next_read w). Proof. by split. Qed.
Lemma draws_same w : same_state w (next_draw w). Proof. by split. Qed.

Lemma MoveSmart_ok tx ty w : step_ok w (MoveSmart int_overflow frand W H tx ty w).2.
Proof.
  destruct (MoveSmart_moves tx ty w) as (w1 & Hw1 & Hw'). assert (same_state w w1) as S1 by (by destruct Hw1; subst).
  destruct Hw' as [-> |(c & -> & Hc)]; [by apply same_ok|].
  assert (game_inv w -> InBounds W H c = true) as Hin.
  { intros I. destruct Hc as [-> |[_ Hf]]; [apply I|]. unfold free_step in Hf. by destruct (InBounds W H c). }
  pose proof (same_ok w w1 S1) as O1. split.
  - intros I. by apply (so_inv _ _ (set_pos_ok c w1 (Hin I))), (so_inv _ _ O1).
  - intros I. pose proof (so_hp _ _ O1 I). pose proof (so_hp _ _ (set_pos_ok c w1 (Hin I)) (so_inv _ _ O1 I)). lia.
  - intros I. pose proof (so_energy _ _ O1 I). pose proof (so_energy _ _ (set_pos_ok c w1 (Hin I)) (so_inv _ _ O1 I)). lia.
  - intros d Hd. apply (so_danger _ _ O1) in Hd. unfold set_pos. by rewrite !danger_set by (apply in_protected; reflexivity).
Qed.

(** Picking up an artifact moves it from the grid to the energy. *)
Lemma ClearTile_grid c w : InBounds W H c = true -> grid (ClearTile W H c w) = set_cell c Empty (grid w).
Proof. intros Hc. unfold ClearTile. rewrite Hc. unfold grid at 1. cbn. by rewrite lookup_insert_eq. Qed.
Lemma ClearTile_data c w : bbdata (ClearTile W H c w) = bbdata w.
Proof. unfold ClearTile. by case_match. Qed.
Lemma data_getInt k w w' : bbdata w' = bbdata w -> gInt k w' = gInt k w.
Proof. intros E. unfold getInt, bb_get. by rewrite E. Qed.

Lemma Pickup_ok w : step_ok w (PickupArtifact int_overflow W H w).2.
Proof.
  unfold PickupArtifact. destruct (TileAt W H (gPos w) w =? Artifact) eqn:E; cbn [negb snd]; [|done].
  set (w1 := bb_set BB "energy" _ w). set (w2 := ClearTile W H _ w1).
  assert (forall k, gInt k w2 = gInt k w1) as Hd by (intros k; apply data_getInt, ClearTile_data).
  assert (InBounds W H (gPos w) = true) as Hin.
  { unfold TileAt in E. by destruct (InBounds W H (gPos w)). }
  unfold TileAt in E. rewrite Hin in E. apply Z.eqb_eq in E.
  assert (game_inv w -> gInt "energy" w2 = gInt "energy" w + 1 /\ gInt "hp" w2 = gInt "hp" w) as He.
  { intros [H1 H2 H3 H4 H5]. rewrite !Hd. unfold w1. rewrite !getInt_set. cbn [decide]. split; [|done].
    change (wrapS 64 (gInt "energy" w + 1) = gInt "energy" w + 1). apply wrapS_id; [lia|]. unfold in_s. lia. }
  split.
  - intros I. destruct (He I) as [He1 Hh]. destruct I as [H1 H2 H3 H4 H5].
    destruct (cell_inside W H (grid w) (gPos w) H3 H1) as (r & v & Eg & Er & Ev). rewrite E in Ev. subst v.
    assert (grid w2 = set_cell (gPos w) Empty (grid w)) as Hg by (exact (ClearTile_grid (gPos w) w1 Hin)).
    pose proof (count_set_cell Artifact Empty (gPos w) (grid w) r Artifact Eg Er) as Hc. cbn in Hc.
    split; rewrite ?Hg.
    + unfold pos. rewrite !Hd. unfold w1. by rewrite !getInt_set.
    + lia.
    + by apply set_cell_wf.
    + rewrite He1. lia.
    + lia.
  - intros I. destruct (He I). lia.
  - intros I. destruct (He I). lia.
  - intros c. assert (danger w2 c = danger w1 c) as -> by (unfold danger, getBool, bb_get, w2; by rewrite ClearTile_data).
    unfold w1. by rewrite danger_set by (apply in_protected; reflexivity).
Qed.

Lemma hurt_ok w : 0 < gInt "hp" w -> step_ok w (bb_set BB "hp" (VInt (wrapS 64 (gInt "hp" w - 1))) w).
Proof.
  intros Hp. assert (game_inv w -> wrapS 64 (gInt "hp" w - 1) = gInt "hp" w - 1) as Hw.
  { intros [_ H2 _ _ _]. apply wrapS_id; [lia|]. unfold in_s. lia. }
  split.
  - intros I. specialize (Hw I). destruct I as [H1 H2 H3 H4 H5]. split; unfold pos; rewrite ?getInt_set; try done.
    cbn [decide]. change (0 <= wrapS 64 (gInt "hp" w - 1) <= 5). lia.
  - intros I. rewrite getInt_set. change (wrapS 64 (gInt "hp" w - 1) <= gInt "hp" w). specialize (Hw I). lia.
  - intros _. by rewrite getInt_set.
  - intros c. by rewrite danger_set by (apply in_protected; reflexivity).
Qed.

Lemma RememberTrap_ok w : step_ok w (RememberTrap int_overflow W H w).2.
Proof.
  unfold RememberTrap. case_match; [|by apply same_ok, remember_same]. case_match eqn:Eh; cbn [snd]; [done|].
  etrans; [apply hurt_ok; by apply Z.leb_gt|]. apply same_ok, remember_same.
Qed.

(** *** The search of [ExploreAction] *)
Definition column (y : nat) : list cell := map (fun x => (Z.of_nat x, Z.of_nat y)) (seq 0 (Z.to_nat W)).
Definition all_cells : gset cell := list_to_set (flat_map column (seq 0 (Z.to_nat H))).

Lemma all_cells_all c : InBounds W H c = true -> c ∈ all_cells.
Proof.
  unfold InBounds. rewrite !andb_true_iff, !Z.leb_le, !Z.ltb_lt. intros [[[H1 H2] H3] H4].
  apply elem_of_list_to_set, list_elem_of_In, in_flat_map. exists (Z.to_nat c.2). split; [apply in_seq; lia|].
  apply in_map_iff. exists (Z.to_nat c.1). split; [destruct c; cbn in *; f_equal; lia|apply in_seq; lia].
Qed.
Lemma size_of_list (l : list cell) : (size (list_to_set l : gset cell) <= length l)%nat.
Proof.
  induction l as [|c l IH]; [done|]. change (list_to_set (c :: l) : gset cell) with ({[c]} ∪ (list_to_set l) : gset cell).
  rewrite size_union_alt, size_singleton. pose proof (subseteq_size (list_to_set l ∖ {[c]}) (list_to_set l : gset cell) ltac:(set_solver)).
  cbn [length]. lia.
Qed.
Lemma size_all_cells : (2 + size all_cells <= search_fuel W H)%nat.
Proof.
  unfold search_fuel, all_cells. pose proof (size_of_list (flat_map column (seq 0 (Z.to_nat H)))) as E.
  assert (length (flat_map column (seq 0 (Z.to_nat H))) = (Z.to_nat W * Z.to_nat H)%nat) as El.
  { generalize 0%nat as a. generalize (Z.to_nat H) as n. intros n. induction n as [|n IH]; intros a; cbn; [lia|].
    rewrite length_app, IH. unfold column. rewrite length_map, length_seq. lia. }
  rewrite El in E. rewrite Z2Nat.inj_mul by lia. lia.
Qed.

Definition fog (w : World) (c : cell) : bool := TileAt W H c w =? Fog.
Lemma search_answers w vm allow : gPos w ∈ vm ->
  exists r, search int_overflow W H w vm allow = Some r /\
    Answers (InBounds W H) (danger w) (fog w) vm allow (gPos w) r (search_fuel W H).
Proof. intros Hv. by apply (bfs_answers _ _ _ _ _ _ all_cells all_cells_all _ size_all_cells). Qed.

(** The first step of a shortest walk from the agent to a nearest cell it has
    not visited. *)
Definition leads (w : World) (vm : gset cell) (allow : bool) (next : cell) : Prop :=
  exists target n, (target ∉ vm) /\ next ∈ succs (gPos w) /\ passable (InBounds W H) (danger w) (fog w) allow next = true /\
    walk (InBounds W H) (danger w) (fog w) allow n next target /\
    forall m c, walk (InBounds W H) (danger w) (fog w) allow m (gPos w) c -> (c ∉ vm) -> (S n <= m)%nat.
Definition nothing_left (w : World) (vm : gset cell) (allow : bool) : Prop :=
  forall m c, walk (InBounds W H) (danger w) (fog w) allow m (gPos w) c -> c ∈ vm.

Lemma next_cell_spec w vm : gPos w ∈ vm -> let next := next_cell int_overflow W H w vm in
  leads w vm false next \/
  (nothing_left w vm false /\ leads w vm true next) \/
  (nothing_left w vm true /\ next = default (0, 0) (List.find (free_step W H w) (succs (gPos w)))).
Proof.
  intros Hv. unfold next_cell.
  assert (forall allow t ps, Answers (InBounds W H) (danger w) (fog w) vm allow (gPos w) (Some t, ps) (search_fuel W H) ->
    leads w vm allow (default t (backtrack (search_fuel W H) ps (gPos w) t))) as Hl.
  { intros allow t ps (Ht & n & next & _ & Hmin & -> & Hs & Hp & Hw). exists t, n. by split_and!. }
  destruct (search_answers w vm false Hv) as ([[t|] ps] & -> & A); [left; by apply Hl|right].
  destruct (search_answers w vm true Hv) as ([[t|] ps'] & -> & A'); [left; split; [done|by apply Hl]|by right].
Qed.

Lemma next_cell_inside w vm : gPos w ∈ vm -> InBounds W H (next_cell int_overflow W H w vm) = true.
Proof.
  intros Hv. destruct (next_cell_spec w vm Hv) as [L|[[_ L]|[_ ->]]].
  1,2: destruct L as (? & ? & _ & _ & Hp & _); unfold passable in Hp; by destruct (InBounds W H _).
  destruct (List.find _ _) as [c|] eqn:E; cbn; [by apply find_free in E as [? _]|].
  unfold InBounds. cbn. rewrite !andb_true_iff, !Z.ltb_lt. lia.
Qed.

Lemma Explore_ok w : step_ok w (Explore int_overflow W H w).2.
Proof.
  unfold Explore. cbn [snd]. set (vm := {[gPos w]} ∪ visited w).
  etrans; [apply same_ok; by apply (set_plain "visited" (VCells vm))|]. apply set_pos_ok, next_cell_inside. set_solver.
Qed.

(** *** The tree and the agent *)
Abbreviation ok_ticks := (respects step_ok).

Lemma action_ok name Fn fuel : (forall w, step_ok w (Fn w).2) -> ok_ticks (tick BB clock rand frand fuel (ActionFunc name Fn)).
Proof. intros Ho w st err w' [= E]. specialize (Ho w). by rewrite E in Ho. Qed.
Lemma condition_ok name key fuel : ok_ticks (tick BB clock rand frand fuel (ConditionKeyBool name key)).
Proof. intros w st err w'. cbn. unfold ConditionFunc_Tick. case_match; by intros [= _ _ <-]. Qed.
Lemma cooldown_ok name d child : plain (name +:+ ".last") = true -> ok_ticks child ->
  ok_ticks (Cooldown_Tick BB clock name d false (Some child)).
Proof.
  intros Hk Hc w st err w'. unfold Cooldown_Tick. cbn [Clock].
  assert (ok_ticks (fun w0 => '(st, err, w0) ← child w0; if decide (st = StatusRunning) then Some (st, err, w0)
    else Some (st, err, bb_set BB (name +:+ ".last") (VTime (clock (reads w))) w0))) as Hrun.
  { intros v s e v'. destruct (child v) as [[[s1 e1] v1]|] eqn:E; cbn; [|done]. apply Hc in E.
    destruct (decide _); intros [= _ _ <-]; [done|]. etrans; [exact E|]. by apply same_ok, set_plain. }
  pose proof (same_ok _ _ (reads_same w)) as Hr. intros Ht. etrans; [exact Hr|].
  repeat case_match; first [by injection Ht as _ _ <-|by eapply Hrun].
Qed.

Lemma two_ok a b : ok_ticks a -> ok_ticks b -> ok_ticks (Sequence_Tick [a; b]).
Proof. intros Ha Hb. apply Sequence_respects; [apply _|]. apply Forall_cons_2; [done|]. by apply Forall_cons_2. Qed.

Lemma tree_ok fuel : ok_ticks (tick BB clock rand frand fuel (game_tree int_overflow frand W H)).
Proof.
  cbn [tick game_tree List.map option_map]. apply Selector_respects; [apply _|].
  repeat apply Forall_cons_2; try apply Forall_nil_2.
  - apply two_ok; [apply condition_ok|]. apply Selector_respects; [apply _|].
    repeat apply Forall_cons_2; try apply Forall_nil_2.
    + by apply (action_ok "" _ fuel).
    + apply cooldown_ok; [reflexivity|]. apply (action_ok "" _ fuel), MoveSmart_ok.
  - apply two_ok; [apply condition_ok|]. apply (action_ok "" _ fuel), RememberTrap_ok.
  - apply two_ok; [apply condition_ok|]. apply (action_ok "" _ fuel), Pickup_ok.
  - apply two_ok; [apply condition_ok|]. apply (action_ok "" _ fuel), MoveSmart_ok.
  - apply cooldown_ok; [reflexivity|]. apply (action_ok "" _ fuel), Explore_ok.
  - apply two_ok; [apply condition_ok|]. apply (action_ok "" _ fuel), RememberTrap_ok.
Qed.

Definition agent_ : agent := game_agent int_overflow frand W H.
Lemma Step_ok fuel w st err w' : Step clock rand frand fuel agent_ w = Some (Done (st, err, w')) -> step_ok w w'.
Proof.
  unfold Step, agent_, game_agent. cbn [sensors update_sensors SUpdate tree bb].
  destruct (vision_same int_overflow W H 4 w) as [E S1]. destruct (VisionSensor_Update _ _ _ _ w) as [e w1].
  cbn [fst snd] in *. subst e. cbn [Clock Tree_Tick]. intros Hs.
  etrans; [by apply same_ok|]. etrans; [apply same_ok, (reads_same w1)|].
  destruct (tick _ _ _ _ _ _ _) as [[[s1 e1] w2]|] eqn:Et; cbn [mbind option_bind] in Hs; [|done].
  apply tree_ok in Et. etrans; [exact Et|]. injection Hs as _ _ <-. apply same_ok. by split.
Qed.
Lemma Step_total fuel w : exists st err w', Step clock rand frand fuel agent_ w = Some (Done (st, err, w')).
Proof.
  unfold Step, agent_, game_agent. cbn [sensors update_sensors SUpdate tree bb].
  destruct (vision_same int_overflow W H 4 w) as [E _]. destruct (VisionSensor_Update _ _ _ _ w) as [e w1].
  cbn [fst] in E. subst e. cbn [Clock Tree_Tick].
  destruct (tick_total BB clock rand frand fuel (game_tree int_overflow frand W H) eq_refl (next_read w1)) as [[[st err] w2] ->].
  cbn. by do 3 eexists.
Qed.

(** [n] steps of the agent. *)
Fixpoint play (fuel n : nat) (w : World) : option (outcome World) :=
  match n with
  | O => Some (Done w)
  | S n =>
      r ← Step clock rand frand fuel agent_ w;
      match r with
      | Done (_, _, w) => play fuel n w
      | Panic => Some Panic
      end
  end.
Lemma play_ok fuel n : forall w, exists w', play fuel n w = Some (Done w') /\ step_ok w w'.
Proof.
  induction n as [|n IH]; intros w; [by exists w|]. cbn [play].
  destruct (Step_total fuel w) as (st & err & w1 & E). pose proof (Step_ok _ _ _ _ _ E) as O1.
  rewrite E. cbn [mbind option_bind]. destruct (IH w1) as (w' & -> & O2). exists w'. split; [done|]. by etrans.
Qed.
End Invariant.

(** ** The random world *)
Section NewWorldFacts.
Context (rand : nat -> nat) (w h : nat) (w_pos : (0 < w)%nat) (h_pos : (0 < h)%nat).
Abbreviation good := (well_formed (Z.of_nat w) (Z.of_nat h)).
Definition drawn (k : nat) : cell := (Intn rand w k, Intn rand h (S k)).

Lemma drawn_inside k : InBounds (Z.of_nat w) (Z.of_nat h) (drawn k) = true.
Proof.
  unfold InBounds, drawn, Intn. cbn. rewrite !andb_true_iff, !Z.leb_le, !Z.ltb_lt.
  pose proof (Nat.mod_upper_bound (rand k) w). pose proof (Nat.mod_upper_bound (rand (S k)) h). lia.
Qed.

(** What placing [n] tiles [t] does to the number of tiles [u]. *)
Definition placed (t : Z) (n : nat) (g g' : rows) : Prop :=
  good g' /\ forall u, Z.of_nat (count_tile u g') =
    Z.of_nat (count_tile u g) + (if u =? t then Z.of_nat n else 0) - (if u =? Empty then Z.of_nat n else 0).

Lemma set_counts t c g : good g -> InBounds (Z.of_nat w) (Z.of_nat h) c = true -> cell_of g c = Empty ->
  placed t 1 g (set_cell c t g).
Proof.
  intros Hg Hc He. split; [by apply set_cell_wf|]. intros u.
  destruct (cell_inside _ _ g c Hg Hc) as (r & v & Eg & Er & Ev). rewrite He in Ev. subst v.
  pose proof (count_set_cell u t c g r Empty Eg Er). destruct (u =? t), (u =? Empty); lia.
Qed.
Lemma placed_trans t n m g1 g2 g3 : placed t n g1 g2 -> placed t m g2 g3 -> placed t (n + m) g1 g3.
Proof.
  intros [_ H1] [Hg H2]. split; [done|]. intros u. rewrite H2, H1. destruct (u =? t), (u =? Empty); lia.
Qed.

Lemma place_one_spec fuel t : forall k g g' k', good g -> place_one rand w h fuel t k g = Some (g', k') -> placed t 1 g g'.
Proof.
  induction fuel as [|fuel IH]; intros k g g' k' Hg; cbn [place_one]; [done|]. fold (drawn k).
  destruct (cell_of g (drawn k) =? Empty) eqn:E; [|by apply IH].
  intros [= <- _]. apply set_counts; [done|apply drawn_inside|by apply Z.eqb_eq].
Qed.
Lemma place_spec fuel t n : forall k g g' k', good g -> place rand w h fuel t n k g = Some (g', k') -> placed t n g g'.
Proof.
  induction n as [|n IH]; intros k g g' k' Hg; cbn [place].
  - intros [= <- _]. split; [done|]. intros u. destruct (u =? t), (u =? Empty); lia.
  - destruct (place_one rand w h fuel t k g) as [[g1 k1]|] eqn:E1; cbn [mbind option_bind]; [|done].
    apply place_one_spec in E1; [|done]. intros E2. apply IH in E2; [|apply E1]. by apply (placed_trans t 1 n g g1).
Qed.

Lemma count_replicate u n m : count_tile u (replicate n (replicate m Empty)) = if u =? Empty then (n * m)%nat else 0%nat.
Proof.
  unfold count_tile. induction n as [|n IH]; cbn; [by destruct (u =? Empty)|]. rewrite List.filter_app, length_app, IH.
  assert (length (List.filter (Z.eqb u) (replicate m Empty)) = if u =? Empty then m else 0%nat) as ->; [|by destruct (u =? Empty)].
  clear. induction m as [|m IH]; cbn [replicate List.filter]; [by destruct (u =? Empty)|]. destruct (u =? Empty); cbn; lia.
Qed.
Lemma empty_good : good (replicate h (replicate w Empty)).
Proof. split; [rewrite length_replicate; lia|]. apply Forall_replicate. rewrite length_replicate. lia. Qed.
Lemma empty_cell c : cell_of (replicate h (replicate w Empty)) c = Empty.
Proof.
  unfold cell_of. destruct (replicate h _ !! _) as [r|] eqn:E; [|done]. apply lookup_replicate in E as [-> _]. cbn.
  destruct (replicate w Empty !! _) as [v|] eqn:E2; [|done]. by apply lookup_replicate in E2 as [-> _].
Qed.

Lemma new_world_counts fuel traps artifacts fog g k : NewWorldRandom rand w h fuel traps artifacts fog = Some (g, k) ->
  good g /\ count_tile Exit g = 1%nat /\ count_tile Trap g = traps /\ count_tile Artifact g = artifacts /\
  count_tile Fog g = fog /\ (count_tile Empty g + 1 + traps + artifacts + fog = w * h)%nat.
Proof.
  unfold NewWorldRandom. fold (drawn 0). set (g0 := set_cell _ _ _).
  assert (placed Exit 1 (replicate h (replicate w Empty)) g0) as [G0 C0]
    by (apply set_counts; [apply empty_good|apply drawn_inside|apply empty_cell]).
  destruct (place rand w h fuel Trap traps 2 g0) as [[g1 k1]|] eqn:E1; cbn [mbind option_bind]; [|done].
  apply place_spec in E1 as [G1 C1]; [|done].
  destruct (place rand w h fuel Artifact artifacts k1 g1) as [[g2 k2]|] eqn:E2; cbn [mbind option_bind]; [|done].
  apply place_spec in E2 as [G2 C2]; [|done]. intros E3. apply place_spec in E3 as [G3 C3]; [|done].
  split; [done|].
  assert (forall u, Z.of_nat (count_tile u g) = (if u =? Empty then Z.of_nat (h * w) else 0) +
    ((if u =? Exit then 1 else 0) + (if u =? Trap then Z.of_nat traps else 0) + (if u =? Artifact then Z.of_nat artifacts else 0) +
     (if u =? Fog then Z.of_nat fog else 0)) - (if u =? Empty then 1 + Z.of_nat traps + Z.of_nat artifacts + Z.of_nat fog else 0)) as C.
  { intros u. rewrite C3, C2, C1, C0, count_replicate.
    destruct (u =? Empty), (u =? Exit), (u =? Trap), (u =? Artifact), (u =? Fog); lia. }
  pose proof (C Exit) as HE. pose proof (C Trap) as HT. pose proof (C Artifact) as HA. pose proof (C Fog) as HF. pose proof (C Empty) as H0.
  cbn in HE, HT, HA, HF, H0. lia.
Qed.

(** *** Placing ends when the generator is fair *)
Definition fair : Prop := forall k c, InBounds (Z.of_nat w) (Z.of_nat h) c = true -> exists j, drawn (2 * j + k) = c.

Lemma place_one_mono fuel fuel' t : forall k g r, (fuel <= fuel')%nat ->
  place_one rand w h fuel t k g = Some r -> place_one rand w h fuel' t k g = Some r.
Proof.
  revert fuel'. induction fuel as [|fuel IH]; intros [|fuel'] k g r Hle; cbn [place_one]; try done; [lia|].
  case_match; [done|]. apply IH. lia.
Qed.
Lemma place_mono fuel fuel' t n : (fuel <= fuel')%nat -> forall k g r,
  place rand w h fuel t n k g = Some r -> place rand w h fuel' t n k g = Some r.
Proof.
  intros Hle. induction n as [|n IH]; intros k g r; cbn [place]; [done|].
  destruct (place_one rand w h fuel t k g) as [[g1 k1]|] eqn:E; cbn [mbind option_bind]; [|done].
  rewrite (place_one_mono _ _ _ _ _ _ Hle E). apply IH.
Qed.

Lemma empty_exists g : good g -> (0 < count_tile Empty g)%nat ->
  exists c, InBounds (Z.of_nat w) (Z.of_nat h) c = true /\ cell_of g c = Empty.
Proof.
  intros [Hl Hr] Hc. unfold count_tile in Hc. destruct (List.filter _ (concat g)) as [|x l] eqn:E; [cbn in Hc; lia|].
  assert (In x (List.filter (Z.eqb Empty) (concat g))) as Hx by (rewrite E; by left).
  apply filter_In in Hx as [Hx ->%Z.eqb_eq]. apply in_concat in Hx as (r & Hg & Hx).
  apply list_elem_of_In, list_elem_of_lookup in Hg as [y Hy]. apply list_elem_of_In, list_elem_of_lookup in Hx as [i Hi].
  exists (Z.of_nat i, Z.of_nat y). rewrite Forall_forall in Hr. pose proof (Hr r ltac:(by eapply list_elem_of_lookup_2)) as Er.
  apply lookup_lt_Some in Hy as Ly. apply lookup_lt_Some in Hi as Li. split.
  - unfold InBounds. cbn. rewrite !andb_true_iff, !Z.leb_le, !Z.ltb_lt. lia.
  - unfold cell_of. cbn. by rewrite !Nat2Z.id, Hy; cbn; rewrite Hi.
Qed.

Lemma place_one_ends t k g : fair -> good g -> (0 < count_tile Empty g)%nat ->
  exists fuel r, place_one rand w h fuel t k g = Some r.
Proof.
  intros Hf Hg Hc. destruct (empty_exists g Hg Hc) as (c & Hin & He). destruct (Hf k c Hin) as [j Hj].
  exists (S j). clear Hin. revert k Hj. induction j as [|j IH]; intros k Hj; cbn [place_one]; fold (drawn k).
  - change (2 * 0 + k)%nat with k in Hj. rewrite Hj, He. by eexists.
  - destruct (cell_of g (drawn k) =? Empty); [by eexists|]. apply IH.
    by replace (2 * j + (2 + k))%nat with (2 * S j + k)%nat by lia.
Qed.
Lemma place_ends t n : fair -> t <> Empty -> forall k g, good g -> (n <= count_tile Empty g)%nat ->
  exists fuel r, place rand w h fuel t n k g = Some r.
Proof.
  intros Hf Ht. induction n as [|n IH]; intros k g Hg Hc; cbn [place]; [by exists 0%nat, (g, k)|].
  destruct (place_one_ends t k g Hf Hg ltac:(lia)) as (f1 & [g1 k1] & E1).
  pose proof (place_one_spec _ _ _ _ _ _ Hg E1) as [G1 C1]. specialize (C1 Empty).
  replace (Empty =? t) with false in C1 by (symmetry; by apply Z.eqb_neq). cbn -[count_tile] in C1.
  destruct (IH k1 g1 G1 ltac:(lia)) as (f2 & r & E2). exists (Nat.max f1 f2), r.
  rewrite (place_one_mono f1 (Nat.max f1 f2) _ _ _ _ ltac:(lia) E1). cbn [mbind option_bind].
  apply (place_mono f2); [lia|done].
Qed.

Lemma new_world_ends traps artifacts fog : fair -> (1 + traps + artifacts + fog <= w * h)%nat ->
  exists fuel r, NewWorldRandom rand w h fuel traps artifacts fog = Some r.
Proof.
  intros Hf Hle. unfold NewWorldRandom. fold (drawn 0). set (g0 := set_cell _ _ _).
  assert (placed Exit 1 (replicate h (replicate w Empty)) g0) as [G0 C0]
    by (apply set_counts; [apply empty_good|apply drawn_inside|apply empty_cell]).
  specialize (C0 Empty). rewrite count_replicate in C0. cbn -[count_tile] in C0.
  destruct (place_ends Trap traps Hf ltac:(done) 2 g0 G0 ltac:(lia)) as (f1 & [g1 k1] & E1).
  pose proof (place_spec _ _ _ _ _ _ _ G0 E1) as [G1 C1]. specialize (C1 Empty). cbn -[count_tile] in C1.
  destruct (place_ends Artifact artifacts Hf ltac:(done) k1 g1 G1 ltac:(lia)) as (f2 & [g2 k2] & E2).
  pose proof (place_spec _ _ _ _ _ _ _ G1 E2) as [G2 C2]. specialize (C2 Empty). cbn -[count_tile] in C2.
  destruct (place_ends Fog fog Hf ltac:(done) k2 g2 G2 ltac:(lia)) as (f3 & r & E3).
  exists (Nat.max f1 (Nat.max f2 f3)), r.
  rewrite (place_mono f1 (Nat.max f1 (Nat.max f2 f3)) _ _ ltac:(lia) _ _ _ E1). cbn [mbind option_bind].
  rewrite (place_mono f2 (Nat.max f1 (Nat.max f2 f3)) _ _ ltac:(lia) _ _ _ E2). cbn [mbind option_bind].
  apply (place_mono f3); [lia|done].
Qed.
End NewWorldFacts.

(** A world that was built holds one exit and as many traps, artifacts and
    cells of fog as were asked for; a world too small for them is never built,
    however long the loop runs; and with a generator that draws every cell
    again and again, a world that is large enough is. *)
Theorem new_world_correct rand w h traps artifacts fog : (0 < w)%nat -> (0 < h)%nat ->
  (forall fuel g k, NewWorldRandom rand w h fuel traps artifacts fog = Some (g, k) ->
     well_formed (Z.of_nat w) (Z.of_nat h) g /\ count_tile Exit g = 1%nat /\ count_tile Trap g = traps /\
     count_tile Artifact g = artifacts /\ count_tile Fog g = fog) /\
  ((w * h < 1 + traps + artifacts + fog)%nat -> forall fuel, NewWorldRandom rand w h fuel traps artifacts fog = None) /\
  (fair rand w h -> (1 + traps + artifacts + fog <= w * h)%nat ->
     exists fuel r, NewWorldRandom rand w h fuel traps artifacts fog = Some r).
Proof.
  intros Hw Hh. split_and!.
  - intros fuel g k E. by destruct (new_world_counts rand w h Hw Hh _ _ _ _ _ _ E) as (? & ? & ? & ? & ? & _).
  - intros Hlt fuel. destruct (NewWorldRandom _ _ _ _ _ _ _) as [[g k]|] eqn:E; [|done].
    destruct (new_world_counts rand w h Hw Hh _ _ _ _ _ _ E) as (_ & _ & _ & _ & _ & Hc). lia.
  - by apply new_world_ends.
Qed.

(** Two cells drawn in turn. *)
Definition two_cells (k : nat) : nat := Nat.div2 k.
Lemma new_world_correct_witness :
  NewWorldRandom two_cells 2 1 5 1 0 1 = None /\
  exists fuel r, NewWorldRandom two_cells 2 1 fuel 1 0 0 = Some r.
Proof.
  destruct (new_world_correct two_cells 2 1 1 0 1 ltac:(lia) ltac:(lia)) as (_ & Hfull & _).
  destruct (new_world_correct two_cells 2 1 1 0 0 ltac:(lia) ltac:(lia)) as (_ & _ & Hends).
  split; [apply Hfull; lia|]. apply Hends; [|lia].
  intros k [x y] Hin. unfold InBounds in Hin. cbn in Hin. rewrite !andb_true_iff, !Z.leb_le, !Z.ltb_lt in Hin.
  unfold drawn, Intn, two_cells.
  assert (exists j, Z.of_nat (Nat.div2 (2 * j + k) mod 2) = x) as [j Hj].
  { pose proof (Nat.mod_upper_bound (Nat.div2 k) 2 ltac:(lia)) as Hm.
    destruct (decide (Z.of_nat (Nat.div2 k mod 2) = x)) as [E|E]; [by exists 0%nat|]. exists 1%nat.
    change (2 * 1 + k)%nat with (S (S k)). cbn [Nat.div2].
    rewrite (Nat.div_mod_eq (Nat.div2 k) 2). rewrite <- Nat.add_succ_r, Nat.mul_comm, Nat.Div0.add_mod, Nat.Div0.mod_mul, Nat.add_0_l, Nat.Div0.mod_mod.
    destruct (Nat.div2 k mod 2)%nat as [|[|]]; cbn; lia. }
  exists j. rewrite Hj. f_equal. rewrite Nat.mod_1_r. lia.
Defined.

(** ** The theorems *)

Lemma game_start_inv g k : well_formed 22 14 g -> count_tile Artifact g = 7%nat -> forall io, game_inv io 22 14 7 (start_world g k).
Proof.
  intros Hg Hc io.
  assert (bb_get BB "pos_x" (start_world g k) = Some (VInt 0) /\ bb_get BB "pos_y" (start_world g k) = Some (VInt 0) /\
    bb_get BB "hp" (start_world g k) = Some (VInt 5) /\ bb_get BB "energy" (start_world g k) = Some (VInt 0)) as (E1 & E2 & E3 & E4)
    by (unfold bb_get, start_world; cbn [bbdata]; vm_compute; done).
  assert (grid (start_world g k) = g) as Eg by (unfold grid, start_world; cbn [objects]; by rewrite lookup_singleton_eq).
  split; unfold pos, getInt; rewrite ?E1, ?E2, ?E3, ?E4, ?Eg; [done|lia|done| |lia]. rewrite Hc. lia.
Qed.

(** C36: From any random world, whatever the clock and the generators give: every
    step of the agent returns; the agent stays on the grid; its health stays
    between 0 and 5 and never grows; and its energy is exactly the number of
    artifacts it has taken off the grid. *)
Theorem game_safe int_overflow clock rand frand gfuel w0 fuel n m :
  build rand gfuel = Some w0 ->
  exists w w', play int_overflow clock rand frand 22 14 fuel n w0 = Some (Done w) /\
    play int_overflow clock rand frand 22 14 fuel m w = Some (Done w') /\
    InBounds 22 14 (pos int_overflow w) = true /\
    0 <= getInt int_overflow "hp" w' <= getInt int_overflow "hp" w /\ getInt int_overflow "hp" w <= 5 /\
    getInt int_overflow "energy" w = 7 - Z.of_nat (count_tile Artifact (grid w)) /\
    (forall c, danger w c = true -> danger w' c = true).
Proof.
  unfold build. destruct (NewWorldRandom rand 22 14 gfuel 30 7 24) as [[g k]|] eqn:E; cbn [mbind option_bind]; [|done].
  destruct (new_world_counts rand 22 14 ltac:(lia) ltac:(lia) _ _ _ _ _ _ E) as (Hg & _ & _ & Ha & _).
  intros [= <-]. pose proof (game_start_inv g k Hg Ha int_overflow) as I0.
  destruct (play_ok int_overflow clock rand frand 22 14 7 ltac:(lia) ltac:(lia) fuel n (start_world g k)) as (w & E1 & O1).
  destruct (play_ok int_overflow clock rand frand 22 14 7 ltac:(lia) ltac:(lia) fuel m w) as (w' & E2 & O2).
  pose proof (so_inv _ _ _ _ _ _ O1 I0) as I1. pose proof (so_inv _ _ _ _ _ _ O2 I1) as I2.
  exists w, w'. split_and!; [done|done|apply I1|apply I2|by apply (so_hp _ _ _ _ _ _ O2)|apply I1| |apply O2].
  pose proof (gi_energy _ _ _ _ _ I1). lia.
Qed.

(** A generator that draws the cells one after the other. *)
Definition cells_in_order (k : nat) : nat := if Nat.even k then Nat.div2 k else (Nat.div2 k / 22)%nat.
Definition ordered_world : option World := build cells_in_order 1.
Lemma game_safe_witness : exists w0 w w', ordered_world = Some w0 /\
  play (fun _ => 0) (fun k => Z.of_nat k * 10 ^ 9) cells_in_order (fun _ => f64_one) 22 14 1 3 w0 = Some (Done w) /\
  play (fun _ => 0) (fun k => Z.of_nat k * 10 ^ 9) cells_in_order (fun _ => f64_one) 22 14 1 2 w = Some (Done w') /\
  InBounds 22 14 (pos (fun _ => 0) w) = true.
Proof.
  destruct ordered_world as [w0|] eqn:E0; [|exfalso; revert E0; vm_compute; discriminate].
  destruct (game_safe (fun _ => 0) (fun k => Z.of_nat k * 10 ^ 9) cells_in_order (fun _ => f64_one) 1 w0 1 3 2 E0)
    as (w & w' & E1 & E2 & Hin & _).
  exists w0, w, w'. split; [exact eq_refl|]. split; [exact E1|]. split; [exact E2|exact Hin].
Defined.

Lemma set_pos_pos io c w : pos io (set_pos c w) = c.
Proof. unfold pos, set_pos. rewrite !getInt_set. by destruct c. Qed.

(** [ExploreAction] takes the first step of a shortest walk to a nearest cell
    not yet visited, over cells that are not known to be dangerous: around the
    fog if there is such a walk, through it otherwise. When nothing is left to
    visit it goes to a free neighbour, and when there is none either, to the
    corner (0, 0), wherever that is. *)
Theorem explore_correct io W H w : 0 < W /\ 0 < H ->
  let vm := {[pos io w]} ∪ visited w in
  let w' := (Explore io W H w).2 in
  visited w' = vm /\
  (leads io W H w vm false (pos io w') \/
   (nothing_left io W H w vm false /\ leads io W H w vm true (pos io w')) \/
   (nothing_left io W H w vm true /\
    ((pos io w' ∈ succs (pos io w) /\ free_step W H w (pos io w') = true) \/
     (Forall (fun c => free_step W H w c = false) (succs (pos io w)) /\ pos io w' = (0, 0))))).
Proof.
  intros Hsz vm w'. split.
  { unfold w', Explore. cbn [snd]. unfold visited at 1, set_pos. rewrite !get_set. done. }
  unfold w', Explore. cbn [snd]. rewrite set_pos_pos. fold vm.
  destruct (next_cell_spec io W H 0 Hsz ltac:(lia) w vm ltac:(set_solver)) as [?|[?|[Hn Hnext]]]; [by left|by right; left|right; right].
  split; [done|]. rewrite Hnext. destruct (List.find _ _) as [c|] eqn:E; cbn [default from_option].
  - left. apply find_some in E as [Hin ?]. split; [by apply list_elem_of_In|done].
  - right. split; [|done]. apply Forall_forall. intros c Hc. apply list_elem_of_In in Hc. by apply (find_none _ _ E).
Qed.

(** A corner walled in by two remembered traps, three cells away from the
    other corner. *)
Definition walled_in : World :=
  bb_set BB (danger_key (2, 3)) (VBool true) (bb_set BB (danger_key (3, 2)) (VBool true)
    (set_pos (3, 3) (start_world (replicate 4 (replicate 4 Empty)) 0))).
Lemma explore_correct_witness :
  visited (Explore (fun _ => 0) 4 4 walled_in).2 = {[(3, 3)]} /\ pos (fun _ => 0) (Explore (fun _ => 0) 4 4 walled_in).2 = (0, 0).
Proof.
  split; [|vm_compute; reflexivity].
  rewrite (proj1 (explore_correct (fun _ => 0) 4 4 walled_in ltac:(lia))). vm_compute. reflexivity.
Defined.

(** [MoveSmartAction] out of the fog goes to the free neighbour of least score,
    when the scores are below 2^30, and stays where no neighbour is free: the
    second search for a free neighbour never finds one. *)
Theorem move_least io frand W H tx ty w : let goal := (getInt io tx w, getInt io ty w) in
  let c := pos io w in let c' := pos io (MoveSmart io frand W H tx ty w).2 in
  c <> goal -> getBool "fog_here" w = false ->
  (forall d, d ∈ succs c -> free_step W H w d = true -> step_score W H w goal d < 2 ^ 30) ->
  (Forall (fun d => free_step W H w d = false) (succs c) /\ c' = c) \/
  (c' ∈ succs c /\ free_step W H w c' = true /\
   forall d, d ∈ succs c -> free_step W H w d = true -> step_score W H w goal c' <= step_score W H w goal d).
Proof.
  intros goal c c' Hne Hfog Hsmall. subst c'. unfold MoveSmart. fold c goal. rewrite bool_decide_false by done. cbv zeta.
  rewrite Hfog. cbn [snd]. rewrite set_pos_pos.
  pose proof (consider_all W H w goal (succs c) (c, 2 ^ 30)) as [Hfrom Hle Hleast].
  set (best := foldl _ _ _) in *. cbn [snd] in *.
  destruct Hfrom as [E|(Hin & Hf & Hs & Hlt)].
  - left. assert (Forall (fun d => free_step W H w d = false) (succs c)) as Hall.
    { apply Forall_forall. intros d Hd. destruct (free_step W H w d) eqn:Ed; [|done].
      specialize (Hsmall d Hd Ed). specialize (Hleast d Hd Ed). rewrite E in Hleast. cbn in Hleast. lia. }
    split; [done|]. rewrite E. cbn [fst snd]. rewrite Z.eqb_refl.
    destruct (List.find _ _) as [d|] eqn:Ef; [|done]. apply find_some in Ef as [Hd Ef].
    rewrite Forall_forall in Hall. rewrite Hall in Ef by (by apply list_elem_of_In). done.
  - right. rewrite (proj2 (Z.eqb_neq best.2 (2 ^ 30))) by lia. split_and!; [done..|]. intros d Hd Ed. rewrite <- Hs. auto.
Qed.

(** Open ground: the agent at (1, 1) heads for (1, 3). *)
Definition open_ground : World :=
  bb_set BB "exit_y" (VInt 3) (bb_set BB "exit_x" (VInt 1) (set_pos (1, 1) (start_world (replicate 4 (replicate 4 Empty)) 0))).
Lemma move_least_witness :
  pos (fun _ => 0) (MoveSmart (fun _ => 0) (fun _ => f64_one) 4 4 "exit_x" "exit_y" open_ground).2 = (1, 2) /\
  step_score 4 4 open_ground (1, 3) (1, 2) <= step_score 4 4 open_ground (1, 3) (2, 1).
Proof.
  assert (pos (fun _ => 0) (MoveSmart (fun _ => 0) (fun _ => f64_one) 4 4 "exit_x" "exit_y" open_ground).2 = (1, 2)) as E by (vm_compute; reflexivity).
  split; [exact E|].
  destruct (move_least (fun _ => 0) (fun _ => f64_one) 4 4 "exit_x" "exit_y" open_ground) as [[_ H2]|(_ & _ & Hmin)].
  - refine (bool_decide_unpack _ _). vm_compute. exact I.
  - vm_compute. reflexivity.
  - assert (succs (pos (fun _ => 0) open_ground) = [(2, 1); (0, 1); (1, 2); (1, 0)]) as Es by (vm_compute; reflexivity).
    intros d Hd _. rewrite Es in Hd. rewrite !elem_of_cons, elem_of_nil in Hd. destruct Hd as [->|[->|[->|[->|[]]]]]; vm_compute; reflexivity.
  - rewrite E in H2. exfalso. revert H2. change ((1, 2) <> pos (fun _ => 0) open_ground).
    refine (bool_decide_unpack _ _). vm_compute. exact I.
  - rewrite E in Hmin. apply Hmin; [|vm_compute; reflexivity].
    refine (bool_decide_unpack _ _). vm_compute. exact I.
Defined.

Section Remember.
Context (io : spec_float -> Z) (W H : Z).

Lemma remember_fold c ds : forall w d, d ∈ ds -> InBounds W H (move c d) = true -> TileAt W H (move c d) w = Trap ->
  danger (foldl (remember_cell W H c) w ds) (move c d) = true.
Proof.
  induction ds as [|e ds IH]; intros w d Hin Hb Ht; cbn [foldl]; [by apply elem_of_nil in Hin|].
  pose proof (remember_same_ds W H c [e] w) as S1. cbn [foldl] in S1.
  apply elem_of_cons in Hin as [->|Hin].
  - apply (ss_danger _ _ (remember_same_ds W H c ds _)). unfold remember_cell. rewrite Hb, Ht. cbn [andb].
    change (Trap =? Trap) with true. cbv iota zeta. unfold danger, getBool. rewrite get_set. by rewrite decide_True.
  - apply IH; [done|done|]. unfold TileAt in *. by rewrite (same_grid _ _ S1).
Qed.
End Remember.

Lemma offsets_1 d : d ∈ offsets 1 <-> -1 <= d.1 <= 1 /\ -1 <= d.2 <= 1.
Proof.
  change (offsets 1) with [(-1, -1); (0, -1); (1, -1); (-1, 0); (0, 0); (1, 0); (-1, 1); (0, 1); (1, 1)].
  rewrite !elem_of_cons, elem_of_nil. destruct d as [x y]. cbn. split.
  - intros E. repeat destruct E as [[= -> ->]|E]; lia.
  - intros [Hx Hy]. assert (x = -1 \/ x = 0 \/ x = 1) as [->|[->| ->]] by lia;
      (assert (y = -1 \/ y = 0 \/ y = 1) as [->|[->| ->]] by lia; tauto).
Qed.

(** [RememberTrapAction] on a trap costs one point of health, or fails when
    there is none left; afterwards every trap of the grid within one cell of
    the agent is remembered as a danger, and the agent has not moved. *)
Theorem remember_correct io W H w : let c := pos io w in let hp := getInt io "hp" w in
  let '(st, err, w') := RememberTrap io W H w in
  err = None /\ grid w' = grid w /\ pos io w' = c /\
  if (TileAt W H c w =? Trap) && (hp <=? 0) then st = StatusFailure /\ w' = w
  else
    st = StatusSuccess /\
    getInt io "hp" w' = (if TileAt W H c w =? Trap then wrapS 64 (hp - 1) else hp) /\
    forall d, -1 <= d.1 <= 1 -> -1 <= d.2 <= 1 -> InBounds W H (move c d) = true ->
      TileAt W H (move c d) w = Trap -> danger w' (move c d) = true.
Proof.
  intros c hp. unfold RememberTrap. fold c. fold hp.
  assert (forall w1, pos io w1 = c -> grid w1 = grid w ->
    let w' := remember_around W H c w1 in grid w' = grid w /\ pos io w' = c /\ getInt io "hp" w' = getInt io "hp" w1 /\
    forall d, -1 <= d.1 <= 1 -> -1 <= d.2 <= 1 -> InBounds W H (move c d) = true ->
      TileAt W H (move c d) w = Trap -> danger w' (move c d) = true) as Hrem.
  { intros w1 Hp Hg w'. subst w'. pose proof (remember_same W H c w1) as S1. split_and!.
    - by rewrite (same_grid _ _ S1).
    - by rewrite (same_pos io _ _ S1).
    - apply (same_getInt io "hp" _ _ S1). by apply in_protected.
    - intros d H1 H2 Hb Ht. apply remember_fold; [by apply offsets_1|done|]. unfold TileAt in *. by rewrite Hg. }
  destruct (TileAt W H c w =? Trap) eqn:Et; [destruct (hp <=? 0) eqn:Eh|]; cbn [andb]; [done| |].
  - destruct (Hrem (bb_set BB "hp" (VInt (wrapS 64 (hp - 1))) w)) as (H1 & H2 & H3 & H4); [|done|].
    + unfold pos. by rewrite !getInt_set.
    + split_and!; try done. rewrite H3, getInt_set. by rewrite decide_True.
  - destruct (Hrem w eq_refl eq_refl) as (H1 & H2 & H3 & H4). by split_and!.
Qed.

(** ** The ticks of the program

    A tick steps the agent of the game it read, builds a frame from the world
    and compares it with the tick before. [zero_time] is the last start before
    the first tick. *)
Module Loop.
Record TickFrame : Type := mkFrame {
  Tick : Z; Elapsed : Z; FStatus : Status; Outcome : string; PosX : Z; PosY : Z; HP : Z; Energy : Z;
  ExitVis : bool; Remembered : Z; Events : list string; Grid : list (list string) }.
Record Game : Type := mkGame { gworld : World; startTime : Z; pendingRestart : bool }.
Record Locals : Type := mkLocals { tick : Z; prevHP : Z; prevEnergy : Z; lastStart : Z }.

Section Loop.
Context (io : spec_float -> Z) (W H : Z).

Definition outcome_of (w : World) : string :=
  if TileAt W H (pos io w) w =? Exit then "success" else if getInt io "hp" w <=? 0 then "dead" else "".
Definition events_of (prevHP prevEnergy hp energy : Z) : list string :=
  let dh := wrapS 64 (prevHP - hp) in let de := wrapS 64 (energy - prevEnergy) in
  (if 0 <? dh then ["-" +:+ pretty dh +:+ " HP (trap)"] else []) ++
  (if 0 <? de then ["+" +:+ pretty de +:+ " energy (artifact)"] else []).
(** [start] and [w] are those of the game read at the beginning of the tick. *)
Definition frame (now start : Z) (st : Status) (w : World) (l : Locals) : TickFrame * Locals :=
  let hp := getInt io "hp" w in
  let energy := getInt io "energy" w in
  let l := if bool_decide (start <> lastStart l) then mkLocals (tick l) hp energy start else l in
  (mkFrame (tick l) (Z.quot (time_Sub now start) (80 * ms)) st (outcome_of w) (pos io w).1 (pos io w).2 hp energy
     (getBool "exit_visible" w) (Z.of_nat (length (List.filter (String.prefix "danger_") (Keys BB (bbdata w)))))
     (events_of (prevHP l) (prevEnergy l) hp energy) (map (map Tile_String) (grid w)),
   mkLocals (wrapS 64 (tick l + 1)) hp energy (lastStart l)).
(** The restart of a game whose agent is dead, once: [true] when the goroutine
    that restarts it in a second is launched. *)
Definition schedule (outcome : string) (g : Game) : Game * bool :=
  if String.eqb outcome "dead" && negb (pendingRestart g)
  then (mkGame (gworld g) (startTime g) true, true) else (g, false).
Definition Restart (now : Z) (w : World) (g : Game) : Game := mkGame w now false.

(** Ticks between two restarts, each with what its step gave. *)
Fixpoint ticks (obs : list (Z * Status * World)) (g : Game) (l : Locals) : list (TickFrame * bool) * Game * Locals :=
  match obs with
  | [] => ([], g, l)
  | (now, st, w) :: obs =>
      let '(f, l) := frame now (startTime g) st w l in
      let '(g, launched) := schedule (Outcome f) (mkGame w (startTime g) (pendingRestart g)) in
      let '(fs, g, l) := ticks obs g l in ((f, launched) :: fs, g, l)
  end.

Lemma ticks_after obs : forall g l fs g' l', ticks obs g l = (fs, g', l') -> pendingRestart g = true ->
  Forall (fun p => p.2 = false) fs /\ pendingRestart g' = true.
Proof.
  induction obs as [|[[now st] w] obs IH]; intros g l fs g' l'; cbn [ticks]; [by intros [= <- <- <-]|].
  intros E Hp. destruct (frame now (startTime g) st w l) as [f l1]. unfold schedule in E. cbn [pendingRestart gworld startTime] in E.
  rewrite Hp in E. rewrite andb_false_r in E.
  destruct (ticks obs _ l1) as [[fs1 g1] l2] eqn:Et. injection E as <- <- <-. apply IH in Et as [? ?]; [|done].
  split; [by constructor|done].
Qed.
(** The frame that launches the restart is the first in which the agent is dead. *)
Definition launched_first (fs : list (TickFrame * bool)) (pending : bool) : Prop :=
  if pending then exists fs1 f fs2, fs = fs1 ++ (f, true) :: fs2 /\ Outcome f = "dead"%string /\
    Forall (fun p => p.2 = false /\ Outcome p.1 <> "dead"%string) fs1 /\ Forall (fun p => p.2 = false) fs2
  else Forall (fun p => p.2 = false /\ Outcome p.1 <> "dead"%string) fs.
Lemma ticks_launch obs : forall g l fs g' l', ticks obs g l = (fs, g', l') -> pendingRestart g = false ->
  launched_first fs (pendingRestart g').
Proof.
  induction obs as [|[[now st] w] obs IH]; intros g l fs g' l'; cbn [ticks].
  { intros [= <- <- <-] Hp. rewrite Hp. constructor. }
  intros E Hp. destruct (frame now (startTime g) st w l) as [f l1]. unfold schedule in E. cbn [pendingRestart gworld startTime] in E.
  rewrite Hp, andb_true_r in E. destruct (String.eqb_spec (Outcome f) "dead") as [Ed|Ed].
  - destruct (ticks obs _ l1) as [[fs1 g1] l2] eqn:Et. injection E as <- <- <-.
    apply ticks_after in Et as [Hf ->]; [|done]. exists [], f, fs1. by split_and!.
  - destruct (ticks obs _ l1) as [[fs1 g1] l2] eqn:Et. injection E as <- <- <-. apply IH in Et; [|done].
    unfold launched_first in *. destruct (pendingRestart g1); [|by constructor].
    destruct Et as (fs0 & d & fs2 & -> & ? & ? & ?). exists ((f, false) :: fs0), d, fs2. split_and!; try done. by constructor.
Qed.
End Loop.
End Loop.

(** Between two restarts of a game at most one restart is launched: at the
    first tick whose frame shows the agent dead, if there is one. *)
Theorem restart_once io W H obs w0 start l : let '(fs, g, _) := Loop.ticks io W H obs (Loop.mkGame w0 start false) l in
  Loop.launched_first fs (Loop.pendingRestart g).
Proof.
  destruct (Loop.ticks io W H obs (Loop.mkGame w0 start false) l) as [[fs g] l'] eqn:E.
  by apply (Loop.ticks_launch io W H _ _ _ _ _ _ E).
Qed.

(** A tick that read a game before it was restarted marks the new one. *)
Example stale_tick_marks_new_game now w g :
  Loop.schedule "dead" (Loop.Restart now w g) = (Loop.mkGame w now true, true).
Proof. reflexivity. Qed.

(** ** The hub: clients with a channel of 64 frames each *)
Module Hub.
Record wsHub : Type := mkHub { clients : gmap nat (GoChan string) }.
Definition newHub : wsHub := mkHub ∅.
Definition add (c : nat) (h : wsHub) : wsHub := mkHub (<[c := mkChan [] 64 false]> (clients h)).
Definition remove (c : nat) (h : wsHub) : wsHub := mkHub (delete c (clients h)).
(** A frame for which a client has no room is dropped. *)
Definition broadcast (b : string) (h : wsHub) : wsHub :=
  mkHub ((fun ch => match try_send b ch with Done (ch, _) => ch | Panic => ch end) <$> clients h).
(** The loop of the client's handler takes a frame to write it. *)
Definition take_frame (c : nat) (h : wsHub) : wsHub * option string :=
  match clients h !! c with
  | None => (h, None)
  | Some ch => let '(ch, v) := try_recv EmptyString ch in (mkHub (<[c := ch]> (clients h)), v)
  end.

Inductive op : Type := Broadcast (b : string) | Take (c : nat) | Add (c : nat) | Remove (c : nat).
(** The frames client [c] has written. *)
Fixpoint run (c : nat) (ops : list op) (h : wsHub) : list string * wsHub :=
  match ops with
  | [] => ([], h)
  | Broadcast b :: ops => run c ops (broadcast b h)
  | Add d :: ops => run c ops (add d h)
  | Remove d :: ops => run c ops (remove d h)
  | Take d :: ops =>
      let '(h, v) := take_frame d h in
      let '(out, h) := run c ops h in
      (match v with Some v => if bool_decide (d = c) then v :: out else out | None => out end, h)
  end.
Definition frames (ops : list op) : list string := omap (fun o => match o with Broadcast b => Some b | _ => None end) ops.
(** [c] stays connected. *)
Definition stays (c : nat) (ops : list op) : Prop := Forall (fun o => o <> Add c /\ o <> Remove c) ops.

Lemma run_stays c ops : forall h ch, stays c ops -> clients h !! c = Some ch -> chan_closed ch = false ->
  (Z.of_nat (length (chan_buf ch)) <= chan_cap ch) ->
  let '(out, h') := run c ops h in
  exists ch', clients h' !! c = Some ch' /\ chan_closed ch' = false /\ chan_cap ch' = chan_cap ch /\
    Z.of_nat (length (chan_buf ch')) <= chan_cap ch' /\ (out ++ chan_buf ch') `sublist_of` (chan_buf ch ++ frames ops).
Proof.
  induction ops as [|o ops IH]; intros h ch Hs Hc Ho Hl; cbn [run].
  { exists ch. cbn. by rewrite app_nil_r. }
  apply Forall_cons in Hs as [[Ha Hr] Hs]. destruct o as [b|d|d|d]; cbn [run].
  - pose (ch1 := if Z.of_nat (length (chan_buf ch)) <? chan_cap ch then mkChan (chan_buf ch ++ [b]) (chan_cap ch) false else ch).
    assert (clients (broadcast b h) !! c = Some ch1) as Hc1.
    { unfold broadcast. cbn. rewrite lookup_fmap, Hc. cbn. unfold try_send. rewrite Ho. unfold ch1. by destruct (_ <? _). }
    specialize (IH (broadcast b h) ch1 Hs Hc1). destruct (run c ops (broadcast b h)) as [out h'].
    unfold ch1 in IH. destruct (Z.ltb_spec (Z.of_nat (length (chan_buf ch))) (chan_cap ch)) as [Hlt|Hge]; cbn [chan_buf chan_cap chan_closed] in IH.
    + destruct IH as (ch' & ? & ? & ? & ? & Hsub); [done|rewrite length_app; cbn; lia|]. exists ch'. split_and!; try done.
      by rewrite <- app_assoc in Hsub.
    + destruct IH as (ch' & ? & ? & ? & ? & Hsub); [done|done|]. exists ch'. split_and!; try done.
      etrans; [exact Hsub|]. apply sublist_app; [done|]. by apply sublist_cons.
  - unfold take_frame. destruct (decide (d = c)) as [->|Hne].
    + rewrite Hc. unfold try_recv. destruct (chan_buf ch) as [|v rest] eqn:Eb.
      * rewrite Ho. rewrite insert_id by done. replace (mkHub (clients h)) with h by (by destruct h).
        specialize (IH h ch Hs Hc Ho). rewrite Eb in IH. destruct (run c ops h) as [out h']. by apply IH.
      * specialize (IH (mkHub (<[c:=mkChan rest (chan_cap ch) (chan_closed ch)]> (clients h))) (mkChan rest (chan_cap ch) (chan_closed ch)) Hs).
        destruct (run c ops _) as [out h']. cbn [chan_buf chan_cap chan_closed clients length] in *.
        destruct IH as (ch' & ? & ? & ? & ? & Hsub); [by rewrite lookup_insert_eq|done|lia|].
        exists ch'. rewrite bool_decide_true by done. split_and!; try done. by apply sublist_skip.
    + destruct (clients h !! d) as [ch2|] eqn:Hd.
      * destruct (try_recv EmptyString ch2) as [ch3 v].
        specialize (IH (mkHub (<[d:=ch3]> (clients h))) ch Hs). cbn [clients] in IH. rewrite lookup_insert_ne in IH by done.
        destruct (run c ops _) as [out h']. rewrite bool_decide_false by done. destruct v; by apply IH.
      * specialize (IH h ch Hs Hc Ho Hl). by destruct (run c ops h) as [out h'].
  - apply (IH (add d h)); try done. unfold add. cbn. rewrite lookup_insert_ne; [done|]. intros ->. done.
  - apply (IH (remove d h)); try done. unfold remove. cbn. rewrite lookup_delete_ne; [done|]. intros ->. done.
Qed.
End Hub.

(** A client that stays connected writes frames in the order they were
    broadcast, none twice, whatever the other clients do; at most 64 wait for
    it, and those it is too slow for are dropped without blocking the program. *)
Theorem hub_delivers c ops h : Hub.stays c ops ->
  let '(out, h') := Hub.run c ops (Hub.add c h) in
  exists ch, Hub.clients h' !! c = Some ch /\ (length (chan_buf ch) <= 64)%nat /\
    (out ++ chan_buf ch) `sublist_of` Hub.frames ops.
Proof.
  intros Hs. pose proof (Hub.run_stays c ops (Hub.add c h) (mkChan [] 64 false) Hs) as R.
  destruct (Hub.run c ops (Hub.add c h)) as [out h']. cbn [chan_buf chan_cap chan_closed length] in R.
  destruct R as (ch & ? & _ & Hcap & Hl & ?); [unfold Hub.add; cbn; by rewrite lookup_insert_eq|done|lia|].
  exists ch. split_and!; [done|lia|done].
Qed.

Lemma hub_delivers_witness :
  let ops := [Hub.Broadcast "a"; Hub.Add 2; Hub.Broadcast "b"; Hub.Take 1; Hub.Remove 2; Hub.Broadcast "c"] in
  Hub.frames ops = ["a"; "b"; "c"]%string /\
  let '(out, h') := Hub.run 1 ops (Hub.add 1 Hub.newHub) in
  exists ch, Hub.clients h' !! 1%nat = Some ch /\ (length (chan_buf ch) <= 64)%nat /\ (out ++ chan_buf ch) `sublist_of` Hub.frames ops.
Proof.
  split; [reflexivity|].
  apply (hub_delivers 1 [Hub.Broadcast "a"; Hub.Add 2; Hub.Broadcast "b"; Hub.Take 1; Hub.Remove 2; Hub.Broadcast "c"] Hub.newHub).
  repeat (constructor; [split; discriminate|]). constructor.
Defined.
