(* ===== verification/Logging.v ===== *)
(** * Logging ([observability/log/logger.go], [interfaces.go])

    Typed fields, their conversion to fields of zap, and loggers with two
    levels: the one their zap core was built with and the one [SetLevel]
    changes. zap is class [ZapLevels] for its levels, and the calls made to it
    are data. Loggers are shared objects, by their position in a list. *)
From S2P Require Import Prelude.
From Stdlib Require Import ZArith Lia Strings.Byte Strings.String Floats.SpecFloat.
From stdpp Require Import base tactics list strings.
Open Scope Z_scope.

(** ** Fields *)
(** A value by its dynamic type; [AError] is any value that implements [error]. *)
Inductive any : Type :=
  | ANil
  | ABool (b : bool)
  | ABytes (l : list byte)
  | AComplex128 (re im : spec_float)
  | AComplex64 (re im : spec_float)
  | ADuration (d : Z)
  | AFloat64 (f : spec_float)
  | AFloat32 (f : spec_float)
  | AInt (z : Z)
  | AInt64 (z : Z)
  | AInt32 (z : Z)
  | AInt16 (z : Z)
  | AInt8 (z : Z)
  | AString (s : string)
  | ATime (t : Z)
  | AUint (z : Z)
  | AUint64 (z : Z)
  | AUint32 (z : Z)
  | AUint16 (z : Z)
  | AUint8 (z : Z)
  | AUintptr (z : Z)
  | AError (e : nerr)
  | AGroup (attrs : list (string * any))   (* []slog.Attr *)
  | ALogValuer (tag : nat)
  | AOther (tag : nat).

(** A number that names no constant is treated as [UnknownType]. *)
Inductive FieldType : Type :=
  | UnknownType | BoolType | ByteStringType | Complex128Type | Complex64Type | DurationType | Float64Type
  | Float32Type | IntType | Int64Type | Int32Type | Int16Type | Int8Type | StringType | TimeType | TimeFullType
  | UintType | Uint64Type | Uint32Type | Uint16Type | Uint8Type | UintptrType | ErrorType.
#[export] Instance FieldType_eq : EqDecision FieldType.
Proof. solve_decision. Defined.

Record Field : Type := mkField { Key : string; Type_ : FieldType; Value : any }.

Definition Any (key : string) (val : any) : Field := mkField key UnknownType val.
Definition Bool (key : string) (val : bool) : Field := mkField key BoolType (ABool val).
Definition ByteString (key : string) (val : list byte) : Field := mkField key ByteStringType (ABytes val).
Definition Complex128 (key : string) (re im : spec_float) : Field := mkField key Complex128Type (AComplex128 re im).
Definition Complex64 (key : string) (re im : spec_float) : Field := mkField key Complex64Type (AComplex64 re im).
Definition Duration (key : string) (val : Z) : Field := mkField key DurationType (ADuration val).
Definition Float64 (key : string) (val : spec_float) : Field := mkField key Float64Type (AFloat64 val).
Definition Float32 (key : string) (val : spec_float) : Field := mkField key Float32Type (AFloat32 val).
Definition Int (key : string) (val : Z) : Field := mkField key IntType (AInt val).
Definition Int64 (key : string) (val : Z) : Field := mkField key Int64Type (AInt64 val).
Definition Int32 (key : string) (val : Z) : Field := mkField key Int32Type (AInt32 val).
Definition Int16 (key : string) (val : Z) : Field := mkField key Int16Type (AInt16 val).
Definition Int8 (key : string) (val : Z) : Field := mkField key Int8Type (AInt8 val).
Definition String_ (key : string) (val : string) : Field := mkField key StringType (AString val).
Definition Time (key : string) (val : Z) : Field := mkField key TimeType (ATime val).
Definition TimeFull (key : string) (val : Z) : Field := mkField key TimeFullType (ATime val).
Definition Uint (key : string) (val : Z) : Field := mkField key UintType (AUint val).
Definition Uint64 (key : string) (val : Z) : Field := mkField key Uint64Type (AUint64 val).
Definition Uint32 (key : string) (val : Z) : Field := mkField key Uint32Type (AUint32 val).
Definition Uint16 (key : string) (val : Z) : Field := mkField key Uint16Type (AUint16 val).
Definition Uint8 (key : string) (val : Z) : Field := mkField key Uint8Type (AUint8 val).
Definition Uintptr (key : string) (val : Z) : Field := mkField key UintptrType (AUintptr val).
(** A nil [error] stored in an [any] is the nil [any]. *)
Definition of_error (val : option nerr) : any := match val with Some e => AError e | None => ANil end.
Definition Error (val : option nerr) : Field := mkField "error" ErrorType (of_error val).
Definition ErrorWithKey (key : string) (val : option nerr) : Field := mkField key ErrorType (of_error val).

(** ** Fields of zap: the constructor called, with its arguments *)
Inductive zctor : Type :=
  | ZBool | ZByteString | ZComplex128 | ZComplex64 | ZDuration | ZFloat64 | ZFloat32 | ZInt | ZInt64 | ZInt32
  | ZInt16 | ZInt8 | ZString | ZTime | ZUint | ZUint64 | ZUint32 | ZUintptr | ZNamedError | ZAny.
Record ZField : Type := mkZField { zctor_of : zctor; zkey : string; zval : any }.

(** The type assertion [v.(T)]: [isT] recognises the dynamic type. *)
Definition assert_type (isT : any -> bool) (v : any) : outcome any := if isT v then Done v else Panic.

Definition toZapField (f : Field) : outcome ZField :=
  let zap c isT := v ← assert_type isT (Value f); Done (mkZField c (Key f) v) in
  match Type_ f with
  | BoolType => zap ZBool (fun v => match v with ABool _ => true | _ => false end)
  | ByteStringType => zap ZByteString (fun v => match v with ABytes _ => true | _ => false end)
  | Complex128Type => zap ZComplex128 (fun v => match v with AComplex128 _ _ => true | _ => false end)
  | Complex64Type => zap ZComplex64 (fun v => match v with AComplex64 _ _ => true | _ => false end)
  | DurationType => zap ZDuration (fun v => match v with ADuration _ => true | _ => false end)
  | Float64Type => zap ZFloat64 (fun v => match v with AFloat64 _ => true | _ => false end)
  | Float32Type => zap ZFloat32 (fun v => match v with AFloat32 _ => true | _ => false end)
  | IntType => zap ZInt (fun v => match v with AInt _ => true | _ => false end)
  | Int64Type => zap ZInt64 (fun v => match v with AInt64 _ => true | _ => false end)
  | Int32Type => zap ZInt32 (fun v => match v with AInt32 _ => true | _ => false end)
  | Int16Type => zap ZInt16 (fun v => match v with AInt16 _ => true | _ => false end)
  | Int8Type => zap ZInt8 (fun v => match v with AInt8 _ => true | _ => false end)
  | StringType => zap ZString (fun v => match v with AString _ => true | _ => false end)
  | UintType => zap ZUint (fun v => match v with AUint _ => true | _ => false end)
  | Uint64Type => zap ZUint64 (fun v => match v with AUint64 _ => true | _ => false end)
  | Uint32Type => zap ZUint32 (fun v => match v with AUint32 _ => true | _ => false end)
  | Uint16Type => zap ZInt16 (fun v => match v with AInt16 _ => true | _ => false end)
  | Uint8Type => zap ZInt8 (fun v => match v with AInt8 _ => true | _ => false end)
  | UintptrType => zap ZUintptr (fun v => match v with AUintptr _ => true | _ => false end)
  | ErrorType => zap ZNamedError (fun v => match v with AError _ => true | _ => false end)
  | TimeType | TimeFullType | UnknownType => Done (mkZField ZAny (Key f) (Value f))
  end.
Fixpoint toZapFields (fields : list Field) : outcome (list ZField) :=
  match fields with
  | [] => Done []
  | f :: fields => z ← toZapField f; zs ← toZapFields fields; Done (z :: zs)
  end.

(** ** Attributes of slog

    The kind of a value, which slog normalises when it makes an attribute. *)
Inductive Kind : Type :=
  | KindAny | KindBool | KindDuration | KindFloat64 | KindInt64 | KindString | KindTime | KindUint64 | KindGroup | KindLogValuer.
Definition kind_of (v : any) : Kind :=
  match v with
  | ABool _ => KindBool | ADuration _ => KindDuration | AFloat64 _ => KindFloat64 | AInt64 _ => KindInt64
  | AString _ => KindString | ATime _ => KindTime | AUint64 _ => KindUint64 | AGroup _ => KindGroup
  | ALogValuer _ => KindLogValuer | _ => KindAny
  end.
Definition slogAttrToZapField (a : string * any) : ZField :=
  let ctor := match kind_of a.2 with
    | KindBool => ZBool | KindDuration => ZDuration | KindFloat64 => ZFloat64 | KindInt64 => ZInt64
    | KindString => ZString | KindTime => ZTime | KindUint64 => ZUint64
    | KindGroup | KindLogValuer | KindAny => ZAny
    end in mkZField ctor a.1 a.2.
Definition toZapFieldsFromSlogAttrs (attrs : list (string * any)) : list ZField := map slogAttrToZapField attrs.
(** [r.Attrs] calls the function on each attribute until it returns false. *)
Definition toZapFieldsFromSlog (attrs : list (string * any)) : list ZField :=
  foldl (fun fields a => fields ++ [slogAttrToZapField a]) [] attrs.

(** ** Levels *)
Definition LevelDebug : Z := 0.
Definition LevelInfo : Z := 1.
Definition LevelWarn : Z := 2.
Definition LevelError : Z := 3.
Definition LevelFatal : Z := 4.
Definition LevelTrace : Z := 100.
Definition LevelSilent : Z := 101.
Definition LevelNone : Z := 255.

(** zap's levels: [Enabled a b] holds when a core of level [a] lets [b] through,
    the levels being in the order of the list. *)
Class ZapLevels (L : Type) `{EqDecision L} : Type := {
  DebugLevel : L; InfoLevel : L; WarnLevel : L; ErrorLevel : L; FatalLevel : L;
  Enabled : L -> L -> bool;
  levels_ordered i j a b :
    [DebugLevel; InfoLevel; WarnLevel; ErrorLevel; FatalLevel] !! i = Some a ->
    [DebugLevel; InfoLevel; WarnLevel; ErrorLevel; FatalLevel] !! j = Some b -> Enabled a b = (i <=? j)%nat
}.
(** zapcore's numbers *)
#[export] Program Instance zapcore : ZapLevels Z :=
  {| DebugLevel := -1; InfoLevel := 0; WarnLevel := 1; ErrorLevel := 2; FatalLevel := 5; Enabled := Z.leb |}.
Next Obligation. intros [|[|[|[|[|i]]]]] [|[|[|[|[|j]]]]] a b; cbn; intros [= <-] [= <-]; done. Qed.

Section Loggers.
Context {L : Type} `{ZapLevels L}.

Definition toZapLevel (level : Z) : L :=
  if level =? LevelDebug then DebugLevel else if level =? LevelInfo then InfoLevel
  else if level =? LevelWarn then WarnLevel else if level =? LevelError then ErrorLevel
  else if level =? LevelFatal then FatalLevel else InfoLevel.
Definition fromZapLevel (level : L) : Z :=
  if decide (level = DebugLevel) then LevelDebug else if decide (level = InfoLevel) then LevelInfo
  else if decide (level = WarnLevel) then LevelWarn else if decide (level = ErrorLevel) then LevelError
  else if decide (level = FatalLevel) then LevelFatal else LevelInfo.
(** [slog.Level] is an [int]: -4, 0, 4 and 8 have names. *)
Definition toZapLevelForSlog (level : Z) : L :=
  if level =? -4 then DebugLevel else if level =? 0 then InfoLevel
  else if level =? 4 then WarnLevel else if level =? 8 then ErrorLevel else InfoLevel.

(** A zap logger: the level of its core and its fields. *)
Record zapLogger : Type := mkZap { core : L; context : list ZField }.
Record Logger : Type := mkLogger { zap : zapLogger; zapLevel : L }.
(** A call of one of zap's logging methods. *)
Record call : Type := mkCall { target : zapLogger; clevel : L; msg : string; cfields : list ZField }.
Record State : Type := mkState { loggers : list Logger; innerLogger : option nat; onceDone : bool; calls : list call }.
(** Loggers and state at the start of the program. *)
Definition initial : State := mkState [] None false [].

(** [build_fails] tells whether [config.Build] returns an error. *)
Definition New (build_fails : bool) (level : Z) (s : State) : outcome (nat * State) :=
  if build_fails then Panic
  else
    let r := length (loggers s) in
    let zl := toZapLevel level in
    Done (r, mkState (loggers s ++ [mkLogger (mkZap zl []) zl])
      (if onceDone s then innerLogger s else Some r) true (calls s)).
Definition Provide (build_fails : bool) (s : State) : outcome (nat * State) :=
  match innerLogger s with
  | Some r => Done (r, s)
  | None =>
      '(r, s) ← New build_fails LevelInfo s;
      Done (r, mkState (loggers s) (Some r) (onceDone s) (calls s))
  end.

Definition checkLevel (l : Logger) (level : Z) : bool := Enabled (zapLevel l) (toZapLevel level).
Definition emit (c : call) (s : State) : State := mkState (loggers s) (innerLogger s) (onceDone s) (calls s ++ [c]).
(** What [Debug], [Info], [Warn], [Error] and [Fatal] do at their zap level.
    A dangling reference does not occur. *)
Definition log_at (zl : L) (r : nat) (m : string) (fields : list Field) (s : State) : outcome State :=
  match loggers s !! r with
  | None => Panic
  | Some l => zs ← toZapFields fields; Done (emit (mkCall (zap l) zl m zs) s)
  end.
Definition Debug := log_at DebugLevel.
Definition Info := log_at InfoLevel.
Definition Warn := log_at WarnLevel.
Definition Error_ := log_at ErrorLevel.
Definition Fatal := log_at FatalLevel.
Definition Log (level : Z) (r : nat) (m : string) (fields : list Field) (s : State) : outcome State :=
  match loggers s !! r with
  | None => Panic
  | Some l => if negb (checkLevel l level) then Done s else log_at (toZapLevel level) r m fields s
  end.
Definition With (fields : list Field) (r : nat) (s : State) : outcome (nat * State) :=
  match loggers s !! r with
  | None => Panic
  | Some l =>
      zs ← toZapFields fields;
      Done (length (loggers s), mkState (loggers s ++ [mkLogger (mkZap (core (zap l)) (context (zap l) ++ zs)) (zapLevel l)])
        (innerLogger s) (onceDone s) (calls s))
  end.
Definition WithContext (r : nat) (s : State) : nat * State := (r, s).
Definition SetLevel (level : Z) (r : nat) (s : State) : State :=
  mkState (alter (fun l => mkLogger (zap l) (toZapLevel level)) r (loggers s)) (innerLogger s) (onceDone s) (calls s).
Definition GetLevel (r : nat) (s : State) : outcome Z :=
  match loggers s !! r with None => Panic | Some l => Done (fromZapLevel (zapLevel l)) end.

(** Calls that zap's core lets through. *)
Definition written (s : State) : list call := List.filter (fun c => Enabled (core (target c)) (clevel c)) (calls s).
End Loggers.

(** ** Fields reach zap unchanged *)
(** Fields made by the constructors. *)
Inductive made : Field -> Prop :=
  | made_Any k v : made (Any k v)
  | made_Bool k v : made (Bool k v)
  | made_ByteString k v : made (ByteString k v)
  | made_Complex128 k a b : made (Complex128 k a b)
  | made_Complex64 k a b : made (Complex64 k a b)
  | made_Duration k v : made (Duration k v)
  | made_Float64 k v : made (Float64 k v)
  | made_Float32 k v : made (Float32 k v)
  | made_Int k v : made (Int k v)
  | made_Int64 k v : made (Int64 k v)
  | made_Int32 k v : made (Int32 k v)
  | made_Int16 k v : made (Int16 k v)
  | made_Int8 k v : made (Int8 k v)
  | made_String k v : made (String_ k v)
  | made_Time k v : made (Time k v)
  | made_TimeFull k v : made (TimeFull k v)
  | made_Uint k v : made (Uint k v)
  | made_Uint64 k v : made (Uint64 k v)
  | made_Uint32 k v : made (Uint32 k v)
  | made_Uint16 k v : made (Uint16 k v)
  | made_Uint8 k v : made (Uint8 k v)
  | made_Uintptr k v : made (Uintptr k v)
  | made_Error v : made (Error v)
  | made_ErrorWithKey k v : made (ErrorWithKey k v).

(** The fields that cannot be logged. *)
Definition unloggable (f : Field) : bool :=
  match Type_ f, Value f with
  | Uint16Type, _ | Uint8Type, _ | ErrorType, ANil => true
  | _, _ => false
  end.
(** The zap field carries the key and the value of a field. *)
Definition carries (f : Field) (z : ZField) : Prop := zkey z = Key f /\ zval z = Value f.

Lemma made_converts f : made f ->
  if unloggable f then toZapField f = Panic else exists z, toZapField f = Done z /\ carries f z.
Proof. intros M. destruct M as [| | | | | | | | | | | | | | | | | | | | | |[v|]|k [v|]]; cbn; try done; by eexists. Qed.

(** Logging any list of fields made by the constructors either hands each field
    to zap in order, with its key and its value, or panics; it panics exactly
    when one of them was made by [Uint16] or [Uint8], whose conversion asserts
    the signed type, or is a nil error. *)
Theorem fields_exact fields : Forall made fields ->
  match toZapFields fields with
  | Done zs => Forall2 carries fields zs /\ existsb unloggable fields = false
  | Panic => existsb unloggable fields = true
  end.
Proof.
  induction 1 as [|f fields M _ IH]; [by split|]. cbn [toZapFields existsb].
  apply made_converts in M. destruct (unloggable f).
  - rewrite M. done.
  - destruct M as (z & -> & C). cbn. destruct (toZapFields fields) as [zs|]; cbn; [|done].
    destruct IH as [IH E]. split; [by constructor|done].
Qed.

Lemma fields_exact_witness :
  match toZapFields [Int "a" 1; Uint8 "b" 2] with
  | Done zs => Forall2 carries [Int "a" 1; Uint8 "b" 2] zs /\ existsb unloggable [Int "a" 1; Uint8 "b" 2] = false
  | Panic => existsb unloggable [Int "a" 1; Uint8 "b" 2] = true
  end.
Proof. apply (fields_exact [Int "a" 1; Uint8 "b" 2]). repeat constructor. Defined.

(** Attributes of slog keep their keys and values, in order. *)
Theorem slog_attributes attrs :
  toZapFieldsFromSlog attrs = toZapFieldsFromSlogAttrs attrs /\
  map (fun z => (zkey z, zval z)) (toZapFieldsFromSlogAttrs attrs) = attrs.
Proof.
  split.
  - enough (forall acc, foldl (fun fields a => fields ++ [slogAttrToZapField a]) acc attrs =
      acc ++ toZapFieldsFromSlogAttrs attrs) as E by apply (E []).
    induction attrs as [|a l IH]; intros acc; cbn [foldl]; [by rewrite app_nil_r|]. by rewrite IH, <- app_assoc.
  - unfold toZapFieldsFromSlogAttrs. induction attrs as [|[k v] l IH]; [done|]. cbn [map]. by rewrite IH.
Qed.

(** ** Levels *)
Section LevelFacts.
Context {L : Type} `{ZapLevels L}.

(** The level that takes effect: those without a zap level act as [LevelInfo]. *)
Definition severity (level : Z) : nat :=
  if level =? 0 then 0%nat else if level =? 2 then 2%nat else if level =? 3 then 3%nat else if level =? 4 then 4%nat else 1%nat.
Definition zap_levels : list L := [DebugLevel; InfoLevel; WarnLevel; ErrorLevel; FatalLevel].

Lemma toZapLevel_at level : zap_levels !! severity level = Some (toZapLevel level).
Proof.
  unfold severity, toZapLevel, LevelDebug, LevelInfo, LevelWarn, LevelError, LevelFatal.
  destruct (level =? 0) eqn:?; [done|]. destruct (level =? 1) eqn:?, (level =? 2) eqn:?; try done; try lia;
    destruct (level =? 3) eqn:?; try done; try lia; destruct (level =? 4) eqn:?; try done; lia.
Qed.

Lemma Enabled_severity a b : Enabled (toZapLevel a) (toZapLevel b) = (severity a <=? severity b)%nat.
Proof. apply levels_ordered; apply toZapLevel_at. Qed.

Lemma zap_levels_inj i j a : zap_levels !! i = Some a -> zap_levels !! j = Some a -> i = j.
Proof.
  intros Hi Hj. pose proof (levels_ordered _ _ _ _ Hi Hj) as E1. pose proof (levels_ordered _ _ _ _ Hj Hi) as E2.
  pose proof (levels_ordered _ _ _ _ Hi Hi) as E3. rewrite E3, Nat.leb_refl in *.
  symmetry in E1, E2. apply Nat.leb_le in E1, E2. lia.
Qed.

Lemma fromZapLevel_at i a : zap_levels !! i = Some a -> fromZapLevel a = Z.of_nat i.
Proof.
  intros Hi. unfold fromZapLevel.
  destruct (decide (a = DebugLevel)) as [->|]; [by rewrite (zap_levels_inj i 0 _ Hi eq_refl)|].
  destruct (decide (a = InfoLevel)) as [->|]; [by rewrite (zap_levels_inj i 1 _ Hi eq_refl)|].
  destruct (decide (a = WarnLevel)) as [->|]; [by rewrite (zap_levels_inj i 2 _ Hi eq_refl)|].
  destruct (decide (a = ErrorLevel)) as [->|]; [by rewrite (zap_levels_inj i 3 _ Hi eq_refl)|].
  destruct (decide (a = FatalLevel)) as [->|]; [by rewrite (zap_levels_inj i 4 _ Hi eq_refl)|].
  exfalso. unfold zap_levels in Hi. destruct i as [|[|[|[|[|i]]]]]; cbn in Hi; [congruence..|done].
Qed.
End LevelFacts.

(** A logger reports the level it was set to, [LevelInfo] for those that zap
    does not have (trace, silent and none among them). *)
Theorem GetLevel_SetLevel {L} `{ZapLevels L} level r (s : State (L := L)) : (r < length (loggers s))%nat ->
  GetLevel r (SetLevel level r s) = Done (Z.of_nat (severity level)).
Proof.
  intros Hr. destruct (lookup_lt_is_Some_2 _ _ Hr) as [l Hl]. unfold GetLevel, SetLevel. cbn [loggers].
  rewrite list_lookup_alter_eq, Hl. cbn. f_equal. apply fromZapLevel_at, toZapLevel_at.
Qed.

Lemma GetLevel_SetLevel_witness :
  exists r s, New (L := Z) false LevelDebug initial = Done (r, s) /\ GetLevel r (SetLevel LevelNone r s) = Done 1.
Proof. do 2 eexists. split; [reflexivity|]. apply (GetLevel_SetLevel (L := Z) LevelNone). cbn. lia. Defined.

(** A logger built at one level and set to another: [Log] calls zap at levels
    from the one it was set to and zap writes those from the one it was built
    with, so setting a lower level shows nothing more; the named methods ignore
    the level that was set. *)
Theorem levels_effective {L} `{ZapLevels L} built set_ level m (s : State (L := L)) :
  exists r s', New false built s = Done (r, s') /\
    let s1 := SetLevel set_ r s' in
    (exists s2, Log level r m [] s1 = Done s2 /\
      (length (calls s2) = length (calls s) + (if (severity set_ <=? severity level)%nat then 1 else 0))%nat /\
      (length (written s2) = length (written s) +
        (if (severity set_ <=? severity level)%nat && (severity built <=? severity level)%nat then 1 else 0))%nat) /\
    (exists s2, log_at (toZapLevel level) r m [] s1 = Done s2 /\
      (length (calls s2) = length (calls s) + 1)%nat /\
      (length (written s2) = length (written s) + (if (severity built <=? severity level)%nat then 1 else 0))%nat).
Proof.
  eexists _, _. split; [reflexivity|]. cbv zeta. unfold Log, log_at, SetLevel, checkLevel. cbn [loggers].
  rewrite list_lookup_alter_eq, list_lookup_middle by done. cbn [fmap option_fmap option_map zapLevel zap toZapFields].
  rewrite Enabled_severity. unfold written, emit. cbn [calls].
  assert (forall n, length (List.filter (fun c => Enabled (core (target c)) (clevel c))
      (calls s ++ [mkCall (mkZap (toZapLevel built) n) (toZapLevel level) m []])) =
    length (List.filter (fun c => Enabled (core (target c)) (clevel c)) (calls s)) +
      (if (severity built <=? severity level)%nat then 1 else 0))%nat as W.
  { intros n. rewrite List.filter_app, length_app. cbn [List.filter target core clevel]. rewrite Enabled_severity.
    by destruct (_ <=? _)%nat. }
  split.
  - destruct (severity set_ <=? severity level)%nat; cbn [negb andb].
    + eexists. split; [reflexivity|]. cbn [calls]. rewrite length_app, W. done.
    + eexists. split; [reflexivity|]. cbn [calls]. lia.
  - eexists. split; [reflexivity|]. cbn [calls]. rewrite length_app, W. done.
Qed.

(** Slog levels above [slog.LevelError] are logged as information, below those of warnings. *)
Theorem slog_levels_not_monotone {L} `{ZapLevels L} :
  Enabled (toZapLevelForSlog 4) (toZapLevelForSlog 9) = false /\
  forall n, 8 < n -> toZapLevelForSlog n = InfoLevel.
Proof.
  split; [by apply (levels_ordered 2 1)|]. intros n Hn. unfold toZapLevelForSlog.
  by rewrite !(proj2 (Z.eqb_neq n _)) by lia.
Qed.

(** ** The shared logger *)
Section Shared.
Context {L : Type} `{ZapLevels L}.

Inductive op : Type := ONew (level : Z) | OProvide | OWith (fields : list Field) (r : nat) | OSetLevel (level : Z) (r : nat)
  | OLog (level : Z) (r : nat) (m : string) (fields : list Field).
Definition do_op (o : op) (s : State (L := L)) : outcome (State (L := L)) :=
  match o with
  | ONew level => '(_, s) ← New false level s; Done s
  | OProvide => '(_, s) ← Provide false s; Done s
  | OWith fields r => '(_, s) ← With fields r s; Done s
  | OSetLevel level r => Done (SetLevel level r s)
  | OLog level r m fields => Log level r m fields s
  end.
Fixpoint do_ops (ops : list op) (s : State (L := L)) : outcome (State (L := L)) :=
  match ops with [] => Done s | o :: ops => s ← do_op o s; do_ops ops s end.

(** Nothing has been made yet, or the shared logger is the first. *)
Definition first_shared (s : State (L := L)) : Prop :=
  (loggers s = [] /\ innerLogger s = None /\ onceDone s = false) \/ (loggers s <> [] /\ innerLogger s = Some 0%nat /\ onceDone s = true).
Lemma New_shared level s r s' : New false level s = Done (r, s') -> first_shared s -> first_shared s' /\ innerLogger s' = Some 0%nat /\ onceDone s' = true.
Proof.
  unfold New. intros [= <- <-] [(E1 & E2 & E3)|(E1 & E2 & E3)]; rewrite ?E1, ?E3; cbn; (split; [right|done]).
  - done.
  - split_and!; try done. by destruct (loggers s).
Qed.
Lemma do_op_shared o s s' : do_op o s = Done s' -> first_shared s -> first_shared s'.
Proof.
  destruct o as [level| |fields r|level r|level r m fields]; cbn [do_op].
  - destruct (New false level s) as [[r s1]|] eqn:E; cbn; [|done]. intros [= <-] F. by apply (New_shared _ _ _ _ E F).
  - unfold Provide. destruct (innerLogger s) as [r|] eqn:Ei; [by intros [= <-]|].
    destruct (New false LevelInfo s) as [[r s1]|] eqn:E; cbn; [|done]. intros [= <-] F.
    destruct F as [F|(_ & F & _)]; [|congruence]. unfold New in E. injection E as <- <-. destruct F as (F1 & F2 & F3).
    right. by rewrite F1, F3.
  - unfold With. destruct (loggers s !! r) eqn:Er; [|done]. destruct (toZapFields fields); cbn; [|done]. intros [= <-] [(E & _ & _)|(E1 & E2 & E3)].
    + by rewrite E in Er.
    + right. cbn. split_and!; try done. by destruct (loggers s).
  - intros [= <-] [(E1 & E2 & E3)|(E1 & E2 & E3)]; [left|right]; cbn; split_and!; try done.
    + by rewrite E1.
    + intros E. apply E1. apply length_zero_iff_nil. by rewrite <- (length_alter (fun l => mkLogger (zap l) (toZapLevel level)) (loggers s) r), E.
  - unfold Log, log_at. destruct (loggers s !! r) as [l|]; [|done]. destruct (negb _); [by intros [= <-]|].
    destruct (toZapFields fields); cbn; [|done]. by intros [= <-].
Qed.
End Shared.

(** The logger that [Provide] shares is the first one the program made, whatever
    level it was made with, for the rest of the program. *)
Theorem provide_first {L} `{ZapLevels L} ops (s : State (L := L)) : do_ops ops initial = Done s ->
  exists s', Provide false s = Done (0%nat, s') /\ forall ops' s2, do_ops ops' s' = Done s2 -> Provide false s2 = Done (0%nat, s2).
Proof.
  assert (forall ops (s s' : State (L := L)), do_ops ops s = Done s' -> first_shared s -> first_shared s') as R.
  { clear. intros ops. induction ops as [|o ops IH]; intros s s'; cbn [do_ops]; [by intros [= ->]|].
    destruct (do_op o s) as [s1|] eqn:E; cbn; [|done]. intros Hr F. by eapply IH, do_op_shared. }
  assert (forall ops (s s' : State (L := L)), do_ops ops s = Done s' -> innerLogger s = Some 0%nat -> first_shared s -> innerLogger s' = Some 0%nat) as K.
  { clear. intros ops. induction ops as [|o ops IH]; intros s s'; cbn [do_ops]; [by intros [= ->]|].
    destruct (do_op o s) as [s1|] eqn:E; cbn; [|done]. intros Hr Hi F. pose proof (do_op_shared _ _ _ E F) as F1.
    eapply IH; [done| |done]. destruct F1 as [(E1 & E2 & _)|(_ & E2 & _)]; [|done]. exfalso.
    destruct F as [(_ & F & _)|(Fl & _ & _)]; [congruence|]. apply Fl.
    destruct o; cbn [do_op] in E.
    - unfold New in E. cbn in E. injection E as <-. cbn in E1. by destruct (loggers s).
    - unfold Provide in E. rewrite Hi in E. cbn in E. injection E as <-. done.
    - unfold With in E. destruct (loggers s !! r); [|done]. destruct (toZapFields fields); cbn in E; [|done]. injection E as <-.
      cbn in E1. by destruct (loggers s).
    - injection E as <-. cbn in E1. apply length_zero_iff_nil. by rewrite <- (length_alter (fun l => mkLogger (zap l) (toZapLevel level)) (loggers s) r), E1.
    - unfold Log, log_at in E. destruct (loggers s !! r); [|done]. destruct (negb _); [injection E as <-; done|].
      destruct (toZapFields fields); cbn in E; [|done]. injection E as <-. done. }
  intros Hs. assert (first_shared s) as F by (eapply R; [done|by left]).
  unfold Provide at 1. destruct F as [(F1 & F2 & F3)|(F1 & F2 & F3)]; rewrite F2.
  - cbn. rewrite F1. eexists. split; [reflexivity|]. intros ops' s2 Hr.
    assert (innerLogger s2 = Some 0%nat) as E. { eapply K; [done|done|]. by right. } unfold Provide. by rewrite E.
  - exists s. split; [done|]. intros ops' s2 Hr.
    assert (innerLogger s2 = Some 0%nat) as E. { eapply K; [done|done|]. by right. } unfold Provide. by rewrite E.
Qed.

Lemma provide_first_witness : exists s s',
  do_ops (L := Z) [ONew LevelFatal; ONew LevelDebug] initial = Done s /\ Provide false s = Done (0%nat, s').
Proof.
  eexists. destruct (provide_first (L := Z) [ONew LevelFatal; ONew LevelDebug] _ eq_refl) as (s' & E & _).
  exists s'. split; [reflexivity|exact E].
Defined.
