(* ===== verification/FieldChannels.v ===== *)
(** * Locks, channels and waiting of field accessors ([fields/field_accessor.go], [utils.go])

    Three places where an accessor leaves a goroutine behind: [TryLock] with its
    timeout, the goroutine behind [SubscribeIfCh], and [WaitWithTimeout]. Each
    is a state with one definition per atomic step of its goroutines. *)
From S2P Require Import Prelude Channels Fields FieldUtils.
From Stdlib Require Import ZArith Lia.
From stdpp Require Import base tactics list gmap relations.
Open Scope Z_scope.

(** ** [TryLock] *)
Module TryLocks.
(** The goroutine of a call, and its caller. *)
Inductive gor : Type := Acquiring | Acquired | Finished.
Inductive caller : Type := Waiting | Got | TimedOut | Unlocked.
(** [full]: the channel [done], of one place, holds its value. *)
Record call : Type := mkCall { gor_of : gor; caller_of : caller; full : bool }.
(** Who holds the mutex: somebody through [Lock], or the goroutine of a call. *)
Inductive owner : Type := User | Call (i : nat).
Record state : Type := mkState { mx : option owner; calls : list call }.
Definition free : state := mkState None [].

Definition put (i : nat) (c : call) (o : option owner) (s : state) : state := mkState o (<[i := c]> (calls s)).

Inductive act : Type :=
  | ALock | AUnlock                (* [Lock] and [Unlock] by others *)
  | ATryLock                       (* a call of [TryLock] starts its goroutine *)
  | AAcquire (i : nat)             (* [a.mx.Lock()] in the goroutine *)
  | ASelect (i : nat)              (* [done <- true], or the default case *)
  | AReceive (i : nat)             (* [case <-done] in the caller *)
  | ATimeout (i : nat)             (* [case <-time.After(timeout)] *)
  | ARelease (i : nat).            (* [Unlock] by the caller that got the lock *)

(** A step, [None] when it cannot be taken. *)
Definition step (a : act) (s : state) : option state :=
  match a with
  | ALock => match mx s with None => Some (mkState (Some User) (calls s)) | Some _ => None end
  | AUnlock => match mx s with Some User => Some (mkState None (calls s)) | _ => None end
  | ATryLock => Some (mkState (mx s) (calls s ++ [mkCall Acquiring Waiting false]))
  | AAcquire i =>
      match mx s, calls s !! i with
      | None, Some (mkCall Acquiring w f) => Some (put i (mkCall Acquired w f) (Some (Call i)) s)
      | _, _ => None
      end
  | ASelect i =>
      match calls s !! i with
      | Some (mkCall Acquired w false) => Some (put i (mkCall Finished w true) (mx s) s)
      | Some (mkCall Acquired w true) => Some (put i (mkCall Finished w true) None s)
      | _ => None
      end
  | AReceive i =>
      match calls s !! i with
      | Some (mkCall g Waiting true) => Some (put i (mkCall g Got false) (mx s) s)
      | _ => None
      end
  | ATimeout i =>
      match calls s !! i with
      | Some (mkCall g Waiting f) => Some (put i (mkCall g TimedOut f) (mx s) s)
      | _ => None
      end
  | ARelease i =>
      match mx s, calls s !! i with
      | Some (Call _), Some (mkCall g Got f) => Some (put i (mkCall g Unlocked f) None s)
      | _, _ => None
      end
  end.
Fixpoint run (acts : list act) (s : state) : option state :=
  match acts with [] => Some s | a :: acts => s ← step a s; run acts s end.
Definition reachable (s : state) : Prop := exists acts, run acts free = Some s.

(** What a call's fields say of the mutex. *)
Definition call_ok (o : option owner) (i : nat) (c : call) : Prop :=
  match gor_of c, caller_of c, full c with
  | Acquiring, (Waiting | TimedOut), false => o <> Some (Call i)
  | Acquired, (Waiting | TimedOut), false => o = Some (Call i)
  | Finished, (Waiting | TimedOut), true => o = Some (Call i)
  | Finished, Got, false => o = Some (Call i)
  | Finished, Unlocked, false => o <> Some (Call i)
  | _, _, _ => False
  end.
Definition Inv (s : state) : Prop :=
  (forall i c, calls s !! i = Some c -> call_ok (mx s) i c) /\
  (forall i, mx s = Some (Call i) -> (i < length (calls s))%nat).

(** Replacing one call, the others being untouched by the change of owner. *)
Lemma Inv_put s i c o : Inv s -> (i < length (calls s))%nat -> call_ok o i c ->
  (forall j d, j <> i -> calls s !! j = Some d -> call_ok (mx s) j d -> call_ok o j d) ->
  (forall j, o = Some (Call j) -> (j < length (calls s))%nat) -> Inv (put i c o s).
Proof.
  intros [I1 I2] Hi Hc Ho Hb. split; cbn.
  - intros j d Hj. destruct (decide (j = i)) as [->|Hne].
    + rewrite list_lookup_insert_eq in Hj by done. by injection Hj as <-.
    + rewrite list_lookup_insert_ne in Hj by done. by apply Ho; [..|apply I1].
  - intros j Hj. rewrite length_insert. by apply Hb.
Qed.

(** Calls other than [i] do not care whether [i] holds the mutex or nobody does. *)
Lemma call_ok_other o o' i j d : (o = None \/ o = Some (Call i)) -> (o' = None \/ o' = Some (Call i)) -> j <> i ->
  call_ok o j d -> call_ok o' j d.
Proof. unfold call_ok. destruct (gor_of d), (caller_of d), (full d); intros [->| ->] [->| ->]; congruence. Qed.

Lemma trylock_step a s s' : step a s = Some s' -> Inv s -> Inv s'.
Proof.
  intros E I. pose proof I as [I1 I2]. destruct a as [| | |i|i|i|i|i]; cbn [step] in E.
  - destruct (mx s) eqn:Em; [done|]. injection E as <-. split; cbn; [|done]. intros i c Hc. specialize (I1 i c Hc).
    unfold call_ok in *. destruct (gor_of c), (caller_of c), (full c); congruence.
  - destruct (mx s) as [[|]|] eqn:Em; [|done..]. injection E as <-. split; cbn; [|done]. intros i c Hc. specialize (I1 i c Hc).
    unfold call_ok in *. destruct (gor_of c), (caller_of c), (full c); congruence.
  - injection E as <-. split; cbn.
    + intros i c [Hc|[Hl Hc]]%lookup_app_Some; [by apply I1|]. apply list_lookup_singleton_Some in Hc as [Hi <-].
      cbn. intros Ho%I2. lia.
    + intros i Hi. rewrite length_app. specialize (I2 i Hi). lia.
  - destruct (mx s) as [|] eqn:Em; [done|]. destruct (calls s !! i) as [[[] w f]|] eqn:Ec; [|done..].
    injection E as <-. pose proof (I1 _ _ Ec) as C. pose proof (lookup_lt_Some _ _ _ Ec).
    apply Inv_put; [done|done| | |].
    + unfold call_ok in *. cbn in *. destruct w, f; done.
    + intros j d Hne _. apply (call_ok_other _ _ i); auto.
    + intros j [= <-]. done.
  - destruct (calls s !! i) as [[[] w []]|] eqn:Ec; try done; pose proof (I1 _ _ Ec) as C;
      pose proof (lookup_lt_Some _ _ _ Ec); unfold call_ok in C; cbn in C; [by destruct w|].
    injection E as <-. apply Inv_put; [done|done| |done|done]. unfold call_ok. cbn. by destruct w.
  - destruct (calls s !! i) as [[g [] []]|] eqn:Ec; try done. injection E as <-. pose proof (I1 _ _ Ec) as C.
    pose proof (lookup_lt_Some _ _ _ Ec). apply Inv_put; [done|done| |done|done]. unfold call_ok in *. by destruct g.
  - destruct (calls s !! i) as [[g [] f]|] eqn:Ec; try done. injection E as <-. pose proof (I1 _ _ Ec) as C.
    pose proof (lookup_lt_Some _ _ _ Ec). apply Inv_put; [done|done| |done|done]. unfold call_ok in *. by destruct g, f.
  - destruct (mx s) as [[|k]|] eqn:Em; [done| |done]. destruct (calls s !! i) as [[g [] f]|] eqn:Ec; try done.
    injection E as <-. pose proof (I1 _ _ Ec) as C. pose proof (lookup_lt_Some _ _ _ Ec).
    assert (k = i /\ g = Finished /\ f = false) as (-> & -> & ->).
    { unfold call_ok in C. cbn in C. destruct g, f; try done. by injection C as ->. }
    apply Inv_put; [done|done|done| |done]. intros j d Hne _. rewrite Em. apply (call_ok_other _ _ i); auto.
Qed.

Lemma trylock_run acts : forall s s', run acts s = Some s' -> Inv s -> Inv s'.
Proof.
  induction acts as [|a acts IH]; intros s s'; cbn [run]; [by intros [= ->]|].
  destruct (step a s) as [s1|] eqn:E; cbn; [|done]. intros Hr I. by eapply IH, trylock_step.
Qed.
Lemma Inv_reachable s : reachable s -> Inv s.
Proof. intros [acts Hr]. by eapply trylock_run; [done|]. Qed.

(** A call that timed out and whose goroutine holds the mutex. *)
Definition leaked (i : nat) (s : state) : Prop :=
  exists c, calls s !! i = Some c /\ caller_of c = TimedOut /\ gor_of c <> Acquiring.

Lemma leaked_step a i s s' : Inv s -> step a s = Some s' -> leaked i s -> leaked i s'.
Proof.
  intros [I1 I2] E (c & Hc & Hw & Hg). unfold leaked. pose proof (I1 _ _ Hc) as C.
  assert (forall j d o, (j = i -> caller_of d = TimedOut /\ gor_of d <> Acquiring) -> exists c, calls (put j d o s) !! i = Some c /\ caller_of c = TimedOut /\ gor_of c <> Acquiring) as P.
  { intros j d o Hd. cbn. destruct (decide (j = i)) as [->|Hne].
    - exists d. rewrite list_lookup_insert_eq by (by eapply lookup_lt_Some). by destruct Hd.
    - exists c. by rewrite list_lookup_insert_ne. }
  destruct a as [| | |j|j|j|j|j]; cbn [step] in E.
  1: destruct (mx s); [done|]; injection E as <-; eauto.
  1: destruct (mx s) as [[|]|]; [|done..]; injection E as <-; eauto.
  1: { injection E as <-. exists c. cbn. rewrite lookup_app_l; [done|]. by eapply lookup_lt_Some. }
  - destruct (mx s); [done|]. destruct (calls s !! j) as [[[] w f]|] eqn:Ec; [|done..]. injection E as <-. apply P.
    intros ->. rewrite Hc in Ec. injection Ec as ->. done.
  - destruct (calls s !! j) as [[[] w []]|] eqn:Ec; try done; injection E as <-; apply P; intros ->;
      rewrite Hc in Ec; injection Ec as ->; done.
  - destruct (calls s !! j) as [[g [] []]|] eqn:Ec; try done. injection E as <-. apply P.
    intros ->. rewrite Hc in Ec. injection Ec as ->. done.
  - destruct (calls s !! j) as [[g [] f]|] eqn:Ec; try done. injection E as <-. apply P.
    intros ->. rewrite Hc in Ec. injection Ec as ->. done.
  - destruct (mx s) as [[|k]|]; [done| |done]. destruct (calls s !! j) as [[g [] f]|] eqn:Ec; try done.
    injection E as <-. apply P. intros ->. rewrite Hc in Ec. injection Ec as ->. done.
Qed.

Lemma leaked_holds i s : Inv s -> leaked i s -> mx s = Some (Call i).
Proof.
  intros [I1 _] (c & Hc & Hw & Hg). specialize (I1 _ _ Hc). unfold call_ok in I1. rewrite Hw in I1.
  by destruct (gor_of c), (full c).
Qed.

Lemma leaked_run acts i : forall s s', Inv s -> run acts s = Some s' -> leaked i s -> leaked i s'.
Proof.
  induction acts as [|a acts IH]; intros s s' I; cbn [run]; [by intros [= ->]|].
  destruct (step a s) as [s1|] eqn:E; cbn; [|done]. intros Hr Hl.
  eapply IH; [by eapply trylock_step|done|by eapply leaked_step].
Qed.
End TryLocks.

(** At most one caller of [TryLock] has the lock, and nobody else then has. *)
Theorem trylock_exclusive s i j c d : TryLocks.reachable s ->
  TryLocks.calls s !! i = Some c -> TryLocks.calls s !! j = Some d ->
  TryLocks.caller_of c = TryLocks.Got -> TryLocks.caller_of d = TryLocks.Got ->
  i = j /\ TryLocks.mx s = Some (TryLocks.Call i).
Proof.
  intros [I1 _]%TryLocks.Inv_reachable Hi Hj Hc Hd. apply I1 in Hi, Hj. unfold TryLocks.call_ok in *.
  rewrite Hc in Hi. rewrite Hd in Hj. destruct (TryLocks.gor_of c), (TryLocks.full c), (TryLocks.gor_of d), (TryLocks.full d);
    try done. rewrite Hi in Hj. split; [congruence|done].
Qed.

Lemma trylock_exclusive_witness : exists s, TryLocks.run [TryLocks.ATryLock; TryLocks.AAcquire 0; TryLocks.ASelect 0; TryLocks.AReceive 0] TryLocks.free = Some s /\
  TryLocks.mx s = Some (TryLocks.Call 0).
Proof.
  eexists. split; [reflexivity|].
  assert (TryLocks.reachable (TryLocks.mkState (Some (TryLocks.Call 0)) [TryLocks.mkCall TryLocks.Finished TryLocks.Got false])) as R.
  { by exists [TryLocks.ATryLock; TryLocks.AAcquire 0; TryLocks.ASelect 0; TryLocks.AReceive 0]. }
  exact (proj2 (trylock_exclusive _ 0 0 _ _ R eq_refl eq_refl eq_refl eq_refl)).
Defined.

(** When [TryLock] gives up its goroutine does not: it takes the mutex as soon
    as it can, and since its channel has room for the answer it never takes the
    branch that would unlock it. From then on the mutex is held for ever: no
    [Lock] and no [TryLock] succeeds again. *)
Theorem trylock_timeout_leaks s i c : TryLocks.reachable s ->
  TryLocks.calls s !! i = Some c -> TryLocks.caller_of c = TryLocks.TimedOut ->
  (TryLocks.mx s = None -> exists s1, TryLocks.step (TryLocks.AAcquire i) s = Some s1) /\
  (TryLocks.gor_of c <> TryLocks.Acquiring -> forall acts s', TryLocks.run acts s = Some s' ->
     TryLocks.mx s' = Some (TryLocks.Call i) /\ TryLocks.step TryLocks.ALock s' = None /\
     forall j, TryLocks.step (TryLocks.AAcquire j) s' = None /\ TryLocks.step (TryLocks.AReceive j) s' = None).
Proof.
  intros R Hc Hw. pose proof (TryLocks.Inv_reachable _ R) as I. split.
  - intros Hm. destruct I as [I1 _]. pose proof (I1 _ _ Hc) as C. unfold TryLocks.call_ok in C.
    cbn [TryLocks.step]. rewrite Hm, Hc. destruct c as [g w f]. cbn in Hw, C. subst w. destruct g, f; try done; [eauto|..]; congruence.
  - intros Hg acts s' Hr.
    assert (TryLocks.leaked i s') as Hl by (eapply TryLocks.leaked_run; [done|done|by exists c]).
    pose proof (TryLocks.trylock_run _ _ _ Hr I) as I'. pose proof (TryLocks.leaked_holds _ _ I' Hl) as Hm.
    split; [done|]. cbn [TryLocks.step]. rewrite Hm. split; [done|]. intros j. split; [done|].
    destruct (TryLocks.calls s' !! j) as [d|] eqn:Hd; [|done]. destruct I' as [I1 _]. pose proof (I1 _ _ Hd) as C.
    destruct Hl as (c' & Hc' & Hw' & _). destruct d as [g [] []]; try done.
    exfalso. unfold TryLocks.call_ok in C. cbn in C. destruct g; try done. rewrite Hm in C. injection C as <-.
    rewrite Hc' in Hd. injection Hd as ->. done.
Qed.

(** Somebody holds the lock while a call of [TryLock] gives up, and unlocks: the
    mutex goes to the call that has failed, for good. *)
Lemma trylock_timeout_leaks_witness :
  exists s, TryLocks.run [TryLocks.ALock; TryLocks.ATryLock; TryLocks.ATimeout 0; TryLocks.AUnlock; TryLocks.AAcquire 0; TryLocks.ASelect 0] TryLocks.free = Some s /\
    forall acts s', TryLocks.run acts s = Some s' -> TryLocks.step TryLocks.ALock s' = None.
Proof.
  eexists. split; [reflexivity|]. intros acts s' Hr.
  assert (TryLocks.reachable (TryLocks.mkState (Some (TryLocks.Call 0)) [TryLocks.mkCall TryLocks.Finished TryLocks.TimedOut true])) as R.
  { by exists [TryLocks.ALock; TryLocks.ATryLock; TryLocks.ATimeout 0; TryLocks.AUnlock; TryLocks.AAcquire 0; TryLocks.ASelect 0]. }
  refine (proj1 (proj2 (proj2 (trylock_timeout_leaks _ 0 _ R eq_refl eq_refl) _ acts s' Hr))). done.
Defined.

(** ** [SubscribeIfCh]

    The goroutine that sends the current value, subscribes and waits to be
    cancelled; the callbacks the accessor launches; the consumer and the program
    around them. [tag] is the callback of this subscription. *)
Module SubscribeCh.
Section SubscribeCh.
Context {T : Type} `{GoType T} (tag : nat) (filter : option (T -> bool)).

Definition passes (v : T) : bool := match filter with None => true | Some f => f v end.

Inductive pc : Type := Start | Sending (current : T) | Subscribing | Listening (id : Z) | Leaving | Closed.
(** A goroutine that writes, by what it has done: stored its value, taken its
    version, recorded them. *)
Inductive writer : Type := Idle | Stored (v : T) | Stamped (v : T) (ver : Z) | Recorded (v : T).
(** The last three fields are a record for the theorems: values that were not
    sent, the current value that was to be sent, and those whose notification
    found the subscription there. No step reads them. *)
Record state : Type := mkState {
  acc : FA T; pc_of : pc; outCh : GoChan T; cancelled : bool; writers : gmap nat writer; received : list T;
  dropped : list T; initial : list T; heard : list T
}.
(** [outCh := make(chan T, 10)] and the goroutine. *)
Definition SubscribeIfCh (a : FA T) : state := mkState a Start (mkChan [] 10 false) false ∅ [] [] [] [].

Definition at_pc (p : pc) (s : state) : state :=
  mkState (acc s) p (outCh s) (cancelled s) (writers s) (received s) (dropped s) (initial s) (heard s).
Definition with_acc (a : FA T) (s : state) : state :=
  mkState a (pc_of s) (outCh s) (cancelled s) (writers s) (received s) (dropped s) (initial s) (heard s).
Definition with_ch (c : GoChan T) (s : state) : state :=
  mkState (acc s) (pc_of s) c (cancelled s) (writers s) (received s) (dropped s) (initial s) (heard s).
Definition drop_value (v : T) (s : state) : state :=
  mkState (acc s) (pc_of s) (outCh s) (cancelled s) (writers s) (received s) (dropped s ++ [v]) (initial s) (heard s).
(** [outCh <- v], when there is room; a panic ends a callback, which recovers. *)
Definition send (v : T) (s : state) : option state :=
  match try_send v (outCh s) with
  | Panic => Some (drop_value v s)
  | Done (c, true) => Some (with_ch c s)
  | Done (_, false) => None
  end.

Inductive act : Type :=
  | Write (t : nat) (now : Z) (v : T)  (* the next step of [a.Set(v)] in goroutine [t] *)
  | Read                         (* [current := a.Get()] and the filter *)
  | SendCurrent                  (* [case outCh <- current] *)
  | Leave                        (* [case <-cancelCh] with the current value in hand *)
  | Subscribe_                   (* [a.SubscribeIf] *)
  | Wake                         (* [<-cancelCh], and the deferred [unsub] *)
  | Close                        (* the deferred [close(outCh)] *)
  | Callback (j : nat)           (* goroutine [j] of the accessor sends *)
  | CallbackCancelled (j : nat)  (* or sees [cancelCh] closed *)
  | Receive                      (* the consumer *)
  | Unsubscribe.                 (* [close(cancelCh)], once *)

Definition writing (t : nat) (w : writer) (a : FA T) (s : state) : state :=
  mkState a (pc_of s) (outCh s) (cancelled s) (<[t := w]> (writers s)) (received s) (dropped s) (initial s) (heard s).
(** The value, the version, the history, then the notification. *)
Definition write (t : nat) (now : Z) (v : T) (s : state) : state :=
  match default Idle (writers s !! t) with
  | Idle => writing t (Stored v) (store v (acc s)) s
  | Stored v => let a := bump (acc s) in writing t (Stamped v (version a)) a s
  | Stamped v ver => writing t (Recorded v) (addToHistory now v ver (acc s)) s
  | Recorded v =>
      mkState (notifySubscribers v (acc s)) (pc_of s) (outCh s) (cancelled s) (<[t := Idle]> (writers s)) (received s) (dropped s) (initial s)
        (match pc_of s with Listening _ => heard s ++ (if passes v then [v] else []) | _ => heard s end)
  end.

(** A step, [None] when it cannot be taken. *)
Definition step (a : act) (s : state) : option state :=
  match a with
  | Write t now v => Some (write t now v s)
  | Read =>
      match pc_of s with
      | Start =>
          let current := Get (acc s) in
          if passes current
          then Some (mkState (acc s) (Sending current) (outCh s) (cancelled s) (writers s) (received s) (dropped s) [current] (heard s))
          else Some (at_pc Subscribing s)
      | _ => None
      end
  | SendCurrent => match pc_of s with Sending v => send v (at_pc Subscribing s) | _ => None end
  | Leave => match pc_of s with Sending v => if cancelled s then Some (drop_value v (at_pc Leaving s)) else None | _ => None end
  | Subscribe_ =>
      match pc_of s with
      | Subscribing => let '(id, a) := SubscribeIf tag filter (acc s) in Some (with_acc a (at_pc (Listening id) s))
      | _ => None
      end
  | Wake =>
      match pc_of s with
      | Listening id => if cancelled s then Some (with_acc (unsubscribe id (acc s)) (at_pc Leaving s)) else None
      | _ => None
      end
  | Close =>
      match pc_of s with
      | Leaving => match close_chan (outCh s) with Done c => Some (with_ch c (at_pc Closed s)) | Panic => None end
      | _ => None
      end
  | Callback j =>
      match take_notification tag j (acc s) with
      | None => None
      | Some (a, None) => Some (with_acc a s)
      | Some (a, Some v) => send v (with_acc a s)
      end
  | CallbackCancelled j =>
      match take_notification tag j (acc s) with
      | Some (a, Some v) => if cancelled s then Some (drop_value v (with_acc a s)) else None
      | _ => None
      end
  | Receive =>
      match chan_buf (outCh s) with
      | v :: rest =>
          Some (mkState (acc s) (pc_of s) (mkChan rest (chan_cap (outCh s)) (chan_closed (outCh s))) (cancelled s) (writers s)
                  (received s ++ [v]) (dropped s) (initial s) (heard s))
      | [] => None
      end
  | Unsubscribe =>
      if cancelled s then None
      else Some (mkState (acc s) (pc_of s) (outCh s) true (writers s) (received s) (dropped s) (initial s) (heard s))
  end.
Fixpoint run (acts : list act) (s : state) : option state :=
  match acts with [] => Some s | a :: acts => s ← step a s; run acts s end.

(** ** The account of the values *)
Definition sending (s : state) : list T := match pc_of s with Sending v => [v] | _ => [] end.
Definition awaiting (s : state) : list T := omap (passed tag) (goroutines (acc s)).
(** No subscriber is ours, or only the one at [id]. *)
Definition absent (a : FA T) : Prop := forall i s, subscribers a !! i = Some s -> callback s <> tag.
Definition only_at (id : Z) (a : FA T) : Prop :=
  subscribers a !! id = Some (mkSubscriber tag filter) /\
  forall i s, subscribers a !! i = Some s -> callback s = tag -> i = id.

Record Inv (s : state) : Prop := {
  inv_account : received s ++ chan_buf (outCh s) ++ awaiting s ++ sending s ++ dropped s ≡ₚ initial s ++ heard s;
  inv_subs : match pc_of s with Listening id => only_at id (acc s) | _ => absent (acc s) end;
  inv_fresh : match pc_of s with Start => initial s = [] | _ => True end;
  inv_early : match pc_of s with Start | Sending _ => received s = [] /\ chan_buf (outCh s) = [] /\ awaiting s = [] | _ => True end;
  inv_dropped : cancelled s = false -> dropped s = [];
  inv_leaving : match pc_of s with Leaving | Closed => cancelled s = true | _ => True end;
  inv_closed : chan_closed (outCh s) = true <-> pc_of s = Closed;
  inv_room : chan_cap (outCh s) = 10 /\ (length (chan_buf (outCh s)) <= 10)%nat
}.

Lemma notified_absent a v : absent a -> omap (passed tag) (map (fun p => (p.2, v)) (map_to_list (subscribers a))) = [].
Proof.
  intros Ha. assert (forall p, p ∈ map_to_list (subscribers a) -> callback p.2 <> tag) as Hp.
  { intros [i s] Hin%elem_of_map_to_list. by eapply Ha. }
  induction (map_to_list (subscribers a)) as [|p l IH]; [done|]. cbn [map omap list_omap]. unfold passed at 1. cbn [fst snd].
  rewrite decide_False by (apply Hp; by left). apply IH. intros q Hq. apply Hp. by right.
Qed.

Lemma notified_at id a v : only_at id a ->
  omap (passed tag) (map (fun p => (p.2, v)) (map_to_list (subscribers a))) = if passes v then [v] else [].
Proof.
  intros [Hid Hu]. pose proof (map_to_list_delete (subscribers a) id _ Hid) as P.
  apply (Permutation_map (fun p : Z * subscriber T => (p.2, v))) in P. apply (omap_Permutation (passed tag)) in P.
  assert (omap (passed tag) (map (fun p => (p.2, v)) (map_to_list (delete id (subscribers a)))) = []) as E.
  { apply (notified_absent (unsubscribe id a)). intros i s Hi Ht. cbn in Hi. apply lookup_delete_Some in Hi as [Hne Hi].
    apply Hne. symmetry. by eapply Hu. }
  cbn [map omap list_omap] in P. rewrite E in P. unfold passed at 1 in P. cbn [fst snd callback filter_of] in P. rewrite decide_True in P by done.
  unfold passes. destruct filter as [f|]; [destruct (f v)|].
  - symmetry in P. by apply Permutation_singleton_r in P.
  - symmetry in P. by apply Permutation_nil_r in P.
  - symmetry in P. by apply Permutation_singleton_r in P.
Qed.

Lemma taken j (a a' : FA T) v : take_notification tag j a = Some (a', v) ->
  omap (passed tag) (goroutines a) ≡ₚ option_list v ++ omap (passed tag) (goroutines a') /\ subscribers a' = subscribers a.
Proof.
  intros (p & Hj & -> & ->)%take_notification_spec. split; [|done]. cbn.
  rewrite <- (take_drop_middle _ _ _ Hj) at 1. rewrite delete_take_drop, !omap_app. cbn [omap list_omap].
  destruct (passed tag p); cbn; [|done]. by rewrite <- Permutation_middle.
Qed.

(** The values in hand, in the channel and on their way, as a multiset. *)
Lemma send_account v s s' : send v s = Some s' ->
  (s' = drop_value v s /\ chan_closed (outCh s) = true) \/
  (chan_closed (outCh s) = false /\ Z.of_nat (length (chan_buf (outCh s))) < chan_cap (outCh s) /\
   s' = with_ch (mkChan (chan_buf (outCh s) ++ [v]) (chan_cap (outCh s)) false) s).
Proof.
  unfold send, try_send. destruct (chan_closed (outCh s)); [intros [= <-]; by left|].
  destruct (Z.ltb_spec (Z.of_nat (length (chan_buf (outCh s)))) (chan_cap (outCh s))); [intros [= <-]; by right|done].
Qed.

Lemma Inv_start a : absent a -> omap (passed tag) (goroutines a) = [] -> Inv (SubscribeIfCh a).
Proof. intros Ha Hg. split; try done; cbn; [unfold awaiting; cbn; by rewrite Hg|lia]. Qed.

(** A value given to the channel, or dropped because the channel is closed, by
    a state that is right but for this value [v], still in hand. *)
Lemma Inv_send v s s' : send v s = Some s' ->
  Permutation (received s ++ chan_buf (outCh s) ++ (v :: awaiting s) ++ sending s ++ dropped s) (initial s ++ heard s) ->
  (match pc_of s with Listening id => only_at id (acc s) | _ => absent (acc s) end) ->
  (match pc_of s with Leaving | Closed => cancelled s = true | Subscribing | Listening _ => True | _ => False end) ->
  (cancelled s = false -> dropped s = []) -> (chan_closed (outCh s) = true <-> pc_of s = Closed) ->
  chan_cap (outCh s) = 10 /\ (length (chan_buf (outCh s)) <= 10)%nat -> Inv s'.
Proof.
  intros E P Hs Hl Hd Hc [Hcap Hlen]. apply send_account in E as [[-> Hcl]|(Hcl & Hlt & ->)].
  - assert (pc_of s = Closed) as Hp by tauto. split; cbn; rewrite ?Hp in *; try done.
    + rewrite <- P. unfold awaiting, sending. cbn. rewrite Hp. cbn. solve_Permutation.
    + congruence.
  - split; cbn; try done.
    + rewrite <- P. unfold awaiting, sending. cbn. solve_Permutation.
    + by destruct (pc_of s).
    + by destruct (pc_of s).
    + by destruct (pc_of s).
    + split; [done|]. intros Hp. apply Hc in Hp. congruence.
    + rewrite length_app. cbn. lia.
Qed.

(** A step that leaves the subscribers and the notifications alone. *)
Lemma Inv_writing t w a s : subscribers a = subscribers (acc s) -> goroutines a = goroutines (acc s) -> Inv s -> Inv (writing t w a s).
Proof. intros E1 E2 []. split; unfold awaiting, sending, only_at, absent in *; cbn; by rewrite ?E1, ?E2. Qed.
Lemma write_inv t now v s : Inv s -> Inv (write t now v s).
Proof.
  intros I. unfold write. destruct (default Idle (writers s !! t)) as [|w|w ver|w].
  1: by apply Inv_writing. 1: by apply Inv_writing. 1: by apply Inv_writing.
  destruct I as [Ia Is If Isd Id Il Ic [Icap Ilen]]. unfold awaiting, sending in *.
  split; cbn; unfold awaiting, sending; cbn; rewrite ?omap_app; try done.
  - destruct (pc_of s) as [| | |id| |] eqn:Ep.
    4: { rewrite (notified_at id) by done. rewrite (app_assoc (initial s)), <- Ia. solve_Permutation. }
    all: rewrite notified_absent by done; rewrite app_nil_r, <- Ia; done.
  - destruct (pc_of s); try done; by rewrite notified_absent, app_nil_r by done.
Qed.

Lemma subscription_step a s s' : step a s = Some s' -> Inv s -> Inv s'.
Proof.
  intros E I. pose proof I as [Ia Is If Isd Id Il Ic [Icap Ilen]]. unfold awaiting, sending in *.
  destruct a as [t now v| | | | | | |j|j| |]; cbn [step] in E.
  - injection E as <-. by apply write_inv.
  - destruct (pc_of s) eqn:Ep; try done. destruct Isd as (Hr & Hb & Hg). rewrite If, Hr, Hb, Hg in Ia.
    destruct (passes _); injection E as <-; (split; cbn; unfold awaiting, sending; cbn; try done);
      rewrite ?Hr, ?Hb, ?Hg, ?If; try done; try (by destruct Ic as [Ic _]; split; [intros ?%Ic|]).
    cbn. by rewrite <- Ia.
  - destruct (pc_of s) eqn:Ep; try done. apply Inv_send in E; cbn; try done.
    + unfold awaiting, sending. cbn. rewrite <- Ia. solve_Permutation.
    + destruct Ic as [Ic _]. split; [intros ?%Ic|]; done.
  - destruct (pc_of s) eqn:Ep; try done. destruct (cancelled s) eqn:Ec; [|done]. injection E as <-.
    split; cbn; unfold awaiting, sending; cbn; try done.
    + rewrite <- Ia. solve_Permutation.
    + congruence.
    + destruct Ic as [Ic _]. split; [intros ?%Ic|]; done.
  - destruct (pc_of s) eqn:Ep; try done. unfold SubscribeIf in E. injection E as <-.
    split; cbn; unfold awaiting, sending; cbn; try done.
    + split; cbn; [by rewrite lookup_insert_eq|]. intros i x Hi Ht. destruct (decide (i = generateUniqueID (subsID (acc s)))) as [|Hne]; [done|].
      rewrite lookup_insert_ne in Hi by done. by apply Is in Hi.
    + destruct Ic as [Ic _]. split; [intros ?%Ic|]; done.
  - destruct (pc_of s) eqn:Ep; try done. destruct (cancelled s) eqn:Ec; [|done]. injection E as <-.
    split; cbn; unfold awaiting, sending; cbn; try done.
    + intros i x Hi Ht. cbn in Hi. apply lookup_delete_Some in Hi as [Hne Hi]. destruct Is as [_ Hu]. apply Hne. symmetry. by eapply Hu.
    + congruence.
    + destruct Ic as [Ic _]. split; [intros ?%Ic|]; done.
  - destruct (pc_of s) eqn:Ep; try done. unfold close_chan in E. destruct (chan_closed (outCh s)) eqn:Ecl; [done|]. injection E as <-.
    split; cbn; unfold awaiting, sending; cbn; done.
  - destruct (take_notification tag j (acc s)) as [[a [v|]]|] eqn:Et; [| |done];
      apply taken in Et as [P Hsub]; cbn [option_list app] in P.
    + assert (match pc_of s with Start | Sending _ => False | _ => True end) as Hp.
      { destruct (pc_of s); try done; destruct Isd as (_ & _ & Hg); rewrite Hg in P; by apply Permutation_nil_cons in P. }
      apply Inv_send in E; cbn; try done.
      * rewrite <- Ia. unfold awaiting, sending. cbn. rewrite P. done.
      * unfold only_at, absent in *. by rewrite Hsub.
      * by destruct (pc_of s).
    + injection E as <-. assert (omap (passed tag) (goroutines (acc s)) ≡ₚ omap (passed tag) (goroutines a)) as P' by exact P.
      split; cbn; unfold awaiting, sending; cbn; try done.
      * by rewrite <- P'.
      * unfold only_at, absent in *. by rewrite Hsub.
      * destruct (pc_of s); try done; destruct Isd as (? & ? & Hg); rewrite Hg in P'; by apply Permutation_nil in P' as ->.
  - destruct (take_notification tag j (acc s)) as [[a [v|]]|] eqn:Et; try done.
    apply taken in Et as [P Hsub]; cbn [option_list app] in P. destruct (cancelled s) eqn:Ec; [|done]. injection E as <-.
    split; cbn; unfold awaiting, sending; cbn; try done.
    + rewrite <- Ia, P. solve_Permutation.
    + unfold only_at, absent in *. by rewrite Hsub.
    + destruct (pc_of s); try done; destruct Isd as (? & ? & Hg); rewrite Hg in P; by apply Permutation_nil_cons in P.
    + congruence.
    + by destruct (pc_of s).
  - destruct (chan_buf (outCh s)) as [|v rest] eqn:Eb; [done|]. injection E as <-.
    split; cbn; unfold awaiting, sending; cbn; try done.
    + rewrite <- Ia. solve_Permutation.
    + destruct (pc_of s); try done; by destruct Isd as (? & ? & _).
    + cbn in Ilen. lia.
  - destruct (cancelled s) eqn:Ec; [done|]. injection E as <-.
    split; cbn; unfold awaiting, sending; cbn; try done. by destruct (pc_of s).
Qed.

Lemma subscription_run acts : forall s s', run acts s = Some s' -> Inv s -> Inv s'.
Proof.
  induction acts as [|a acts IH]; intros s s'; cbn [run]; [by intros [= ->]|].
  destruct (step a s) as [s1|] eqn:E; cbn; [|done]. intros Hr I. by eapply IH, subscription_step.
Qed.
End SubscribeCh.
End SubscribeCh.

(** C19: The values a consumer has received, those in the channel, in hand and
    on their way by the subscription's own callback, and those dropped, are the
    current value the goroutine read and the values whose notification found it
    subscribed, each once, whatever other goroutines write meanwhile, step by
    step; nothing is dropped before the subscription is cancelled, so once
    everything has been delivered the consumer has received exactly these. At
    most ten wait in the channel, which is not closed before the cancellation.
    *)
Theorem subscription_accounts {T} `{GoType T} tag filter (a : FA T) acts s :
  SubscribeCh.absent tag a -> SubscribeCh.awaiting tag (SubscribeCh.SubscribeIfCh a) = [] ->
  SubscribeCh.run tag filter acts (SubscribeCh.SubscribeIfCh a) = Some s ->
  SubscribeCh.received s ++ chan_buf (SubscribeCh.outCh s) ++ SubscribeCh.awaiting tag s ++ SubscribeCh.sending s ++ SubscribeCh.dropped s
    ≡ₚ SubscribeCh.initial s ++ SubscribeCh.heard s /\
  (length (chan_buf (SubscribeCh.outCh s)) <= 10)%nat /\
  (SubscribeCh.cancelled s = false ->
    SubscribeCh.dropped s = [] /\ chan_closed (SubscribeCh.outCh s) = false /\
    (chan_buf (SubscribeCh.outCh s) = [] -> SubscribeCh.awaiting tag s = [] -> SubscribeCh.sending s = [] ->
     SubscribeCh.received s ≡ₚ SubscribeCh.initial s ++ SubscribeCh.heard s)).
Proof.
  intros Ha Hg Hr. pose proof (SubscribeCh.subscription_run tag filter acts _ _ Hr (SubscribeCh.Inv_start tag filter a Ha Hg)) as I.
  pose proof (SubscribeCh.inv_account _ _ _ I) as P. split_and!; [done|apply I|]. intros Hc.
  pose proof (SubscribeCh.inv_dropped _ _ _ I Hc) as Hd. split_and!; [done| |].
  - apply not_true_iff_false. intros Hp%(SubscribeCh.inv_closed _ _ _ I). pose proof (SubscribeCh.inv_leaving _ _ _ I) as Hl.
    rewrite Hp in Hl. congruence.
  - intros E1 E2 E3. by rewrite E1, E2, E3, Hd, !app_nil_r in P.
Qed.

(** All four steps of a write. *)
Definition whole_write (t : nat) (now v : Z) : list (SubscribeCh.act (T := Z)) := replicate 4 (SubscribeCh.Write t now v).
Definition observed : list (SubscribeCh.act (T := Z)) :=
  [SubscribeCh.Read; SubscribeCh.SendCurrent; SubscribeCh.Subscribe_] ++ whole_write 0 1 1 ++ whole_write 1 2 2 ++
  [SubscribeCh.Callback 1; SubscribeCh.Callback 0; SubscribeCh.Receive; SubscribeCh.Receive; SubscribeCh.Receive].

(** The consumer gets both values written, in the order the callbacks ran. *)
Lemma subscription_accounts_witness : exists s,
  SubscribeCh.run 0 None observed (SubscribeCh.SubscribeIfCh (NewFA 0 [0])) = Some s /\
  SubscribeCh.received s = [0; 2; 1] /\ SubscribeCh.received s ≡ₚ SubscribeCh.initial s ++ SubscribeCh.heard s.
Proof.
  destruct (SubscribeCh.run 0 None observed (SubscribeCh.SubscribeIfCh (NewFA 0 [0]))) as [s|] eqn:E; [|vm_compute in E; discriminate].
  exists s. split; [done|]. pose proof (subscription_accounts 0 None (NewFA 0 [0]) observed s) as A.
  vm_compute in E. injection E as <-. split; [done|].
  refine (proj2 (proj2 (proj2 (proj2 (A _ _ _)) _)) _ _ _); done.
Defined.

(** A value written after the goroutine read the current value and before it
    subscribed is never delivered: the consumer is left with an older one. *)
Example subscription_misses : exists s,
  SubscribeCh.run 0 None ([SubscribeCh.Read; SubscribeCh.SendCurrent] ++ whole_write 0 1 7 ++ [SubscribeCh.Subscribe_; SubscribeCh.Receive])
    (SubscribeCh.SubscribeIfCh (NewFA 0 [0])) = Some s /\
  SubscribeCh.received s = [0] /\ Get (SubscribeCh.acc s) = 7 /\ SubscribeCh.awaiting 0 s = [] /\
  SubscribeCh.sending s = [] /\ chan_buf (SubscribeCh.outCh s) = [].
Proof.
  destruct (SubscribeCh.run 0 None ([SubscribeCh.Read; SubscribeCh.SendCurrent] ++ whole_write 0 1 7 ++ [SubscribeCh.Subscribe_; SubscribeCh.Receive])
    (SubscribeCh.SubscribeIfCh (NewFA 0 [0]))) as [s|] eqn:E; [|vm_compute in E; discriminate].
  exists s. split; [done|]. vm_compute in E. injection E as <-. by split_and!.
Qed.

(** A value stored before the goroutine reads it and notified after it has
    subscribed is delivered twice, though it was written once. *)
Example subscription_repeats : exists s,
  SubscribeCh.run 0 None ([SubscribeCh.Write 0 1 7; SubscribeCh.Read; SubscribeCh.SendCurrent; SubscribeCh.Subscribe_] ++
      replicate 3 (SubscribeCh.Write 0 1 7) ++ [SubscribeCh.Callback 0; SubscribeCh.Receive; SubscribeCh.Receive])
    (SubscribeCh.SubscribeIfCh (NewFA 0 [0])) = Some s /\
  SubscribeCh.received s = [7; 7].
Proof. eexists. split; [vm_compute; reflexivity|reflexivity]. Qed.

(** How far the goroutine is from its end. *)
Definition to_go {T} (p : SubscribeCh.pc (T := T)) : nat :=
  match p with
  | SubscribeCh.Start => 5 | SubscribeCh.Sending _ => 4 | SubscribeCh.Subscribing => 3
  | SubscribeCh.Listening _ => 2 | SubscribeCh.Leaving => 1 | SubscribeCh.Closed => 0
  end.
Definition own_steps {T} : list (SubscribeCh.act (T := T)) :=
  [SubscribeCh.Read; SubscribeCh.Leave; SubscribeCh.Subscribe_; SubscribeCh.Wake; SubscribeCh.Close].

Lemma send_pc {T} `{GoType T} (v : T) s s' : SubscribeCh.send v s = Some s' -> SubscribeCh.pc_of s' = SubscribeCh.pc_of s.
Proof. intros [[-> _]|(_ & _ & ->)]%SubscribeCh.send_account; done. Qed.

Lemma to_go_step {T} `{GoType T} tag filter a (s s' : SubscribeCh.state (T := T)) : SubscribeCh.step tag filter a s = Some s' ->
  (to_go (SubscribeCh.pc_of s') <= to_go (SubscribeCh.pc_of s))%nat.
Proof.
  destruct a as [t now v| | | | | | |j|j| |]; cbn [SubscribeCh.step].
  - intros [= <-]. unfold SubscribeCh.write. by destruct (default _ _).
  - destruct (SubscribeCh.pc_of s) eqn:E; try done. destruct (SubscribeCh.passes _ _); intros [= <-]; cbn; lia.
  - destruct (SubscribeCh.pc_of s) eqn:E; try done. intros ->%send_pc. cbn. lia.
  - destruct (SubscribeCh.pc_of s) eqn:E; try done. destruct (SubscribeCh.cancelled s); [|done]. intros [= <-]. cbn. lia.
  - destruct (SubscribeCh.pc_of s) eqn:E; try done. intros [= <-]. cbn. lia.
  - destruct (SubscribeCh.pc_of s) eqn:E; try done. destruct (SubscribeCh.cancelled s); [|done]. intros [= <-]. cbn. lia.
  - destruct (SubscribeCh.pc_of s) eqn:E; try done. destruct (close_chan _); [|done]. intros [= <-]. cbn. lia.
  - destruct (take_notification _ _ _) as [[a [v|]]|]; [intros ->%send_pc|intros [= <-]|done]; done.
  - destruct (take_notification _ _ _) as [[a [v|]]|]; try done. destruct (SubscribeCh.cancelled s); [|done]. by intros [= <-].
  - destruct (chan_buf _); [done|]. by intros [= <-].
  - destruct (SubscribeCh.cancelled s); [done|]. by intros [= <-].
Qed.

(** After the cancellation the goroutine can always go on, whatever the consumer
    does, until it has closed the channel: one of its own steps is possible and
    brings it nearer to the end, and no step takes it back. Every callback still
    on its way can end as well. *)
Theorem cancelled_closes {T} `{GoType T} tag filter (a : FA T) acts s :
  SubscribeCh.absent tag a -> SubscribeCh.awaiting tag (SubscribeCh.SubscribeIfCh a) = [] ->
  SubscribeCh.run tag filter acts (SubscribeCh.SubscribeIfCh a) = Some s -> SubscribeCh.cancelled s = true ->
  (chan_closed (SubscribeCh.outCh s) = true \/
   exists o s', o ∈ own_steps /\ SubscribeCh.step tag filter o s = Some s' /\
     (to_go (SubscribeCh.pc_of s') < to_go (SubscribeCh.pc_of s))%nat) /\
  (forall o s', SubscribeCh.step tag filter o s = Some s' -> (to_go (SubscribeCh.pc_of s') <= to_go (SubscribeCh.pc_of s))%nat) /\
  (forall j b v, take_notification tag j (SubscribeCh.acc s) = Some (b, Some v) ->
     exists s', SubscribeCh.step tag filter (SubscribeCh.CallbackCancelled j) s = Some s').
Proof.
  intros Ha Hg Hr Hc. pose proof (SubscribeCh.subscription_run tag filter acts _ _ Hr (SubscribeCh.Inv_start tag filter a Ha Hg)) as I.
  split_and!.
  - destruct (SubscribeCh.pc_of s) as [|v| |id| |] eqn:Ep.
    + right. exists SubscribeCh.Read. cbn [SubscribeCh.step]. rewrite Ep. destruct (SubscribeCh.passes _ _); eexists;
        (split; [by left|split; [reflexivity|cbn; lia]]).
    + right. exists SubscribeCh.Leave. cbn [SubscribeCh.step]. rewrite Ep, Hc. eexists.
      split; [by right; left|split; [reflexivity|cbn; lia]].
    + right. exists SubscribeCh.Subscribe_. cbn [SubscribeCh.step]. rewrite Ep. eexists.
      split; [by do 2 right; left|split; [reflexivity|cbn; lia]].
    + right. exists SubscribeCh.Wake. cbn [SubscribeCh.step]. rewrite Ep, Hc. eexists.
      split; [by do 3 right; left|split; [reflexivity|cbn; lia]].
    + right. exists SubscribeCh.Close. cbn [SubscribeCh.step]. rewrite Ep. unfold close_chan.
      destruct (chan_closed (SubscribeCh.outCh s)) eqn:E.
      * apply (SubscribeCh.inv_closed _ _ _ I) in E. congruence.
      * eexists. split; [by do 4 right; left|split; [reflexivity|cbn; lia]].
    + left. by apply (SubscribeCh.inv_closed _ _ _ I).
  - intros o s' E. by eapply to_go_step.
  - intros j b v E. cbn [SubscribeCh.step]. rewrite E, Hc. eauto.
Qed.

Lemma cancelled_closes_witness : exists s,
  SubscribeCh.run 0 None [SubscribeCh.Read; SubscribeCh.Unsubscribe] (SubscribeCh.SubscribeIfCh (NewFA 0 [0])) = Some s /\
  (forall o s', SubscribeCh.step 0 None o s = Some s' -> (to_go (SubscribeCh.pc_of s') <= 4)%nat).
Proof.
  destruct (SubscribeCh.run 0 None [SubscribeCh.Read; SubscribeCh.Unsubscribe] (SubscribeCh.SubscribeIfCh (NewFA 0 [0]))) as [s|] eqn:E;
    [|vm_compute in E; discriminate].
  exists s. split; [done|]. pose proof (fun H1 H2 => cancelled_closes 0 None (NewFA 0 [0]) _ s H1 H2 E) as A.
  vm_compute in E. injection E as <-. refine (proj1 (proj2 (A _ _ _))); try done.
Defined.

(** ** [WaitGroup] and [WaitWithTimeout] ([utils.go]) *)
Module Waiting.
Inductive answer : Type := Pending | InTime | Late.
(** The counter; the goroutine behind [WaitWithTimeout] while it waits; whether
    the channel [done] is closed; the caller; and, for the theorem, whether the
    counter has been zero since the call. *)
Record state : Type := mkState { counter : Z; waiting : bool; done_closed : bool; caller : answer; was_zero : bool }.
Definition WaitWithTimeout (n : Z) : state := mkState n true false Pending (n =? 0).

Inductive act : Type :=
  | Add (delta : Z) | Done_       (* [Done_] is [wg.Add(-1)] *)
  | Wake                          (* [wg.Wait()] returns, and [close(done)] *)
  | Return                        (* [case <-done] *)
  | Timeout.                      (* [case <-time.After(timeout)] *)
Definition add (delta : Z) (s : state) : outcome state :=
  let n := counter s + delta in
  if n <? 0 then Panic else Done (mkState n (waiting s) (done_closed s) (caller s) (was_zero s || (n =? 0))).
(** A step, [None] when it cannot be taken. *)
Definition step (a : act) (s : state) : option (outcome state) :=
  match a with
  | Add delta => Some (add delta s)
  | Done_ => Some (add (-1) s)
  | Wake => if waiting s && (counter s =? 0) then Some (Done (mkState (counter s) false true (caller s) (was_zero s))) else None
  | Return =>
      match caller s with
      | Pending => if done_closed s then Some (Done (mkState (counter s) (waiting s) true InTime (was_zero s))) else None
      | _ => None
      end
  | Timeout =>
      match caller s with
      | Pending => Some (Done (mkState (counter s) (waiting s) (done_closed s) Late (was_zero s)))
      | _ => None
      end
  end.
Fixpoint run (acts : list act) (s : state) : option (outcome state) :=
  match acts with
  | [] => Some (Done s)
  | a :: acts => match step a s with Some (Done s) => run acts s | r => r end
  end.

Definition Inv (s : state) : Prop :=
  waiting s = negb (done_closed s) /\ (done_closed s = true -> was_zero s = true) /\
  (caller s = InTime -> was_zero s = true) /\ (counter s = 0 -> was_zero s = true).
Lemma waiting_run acts : forall s s', run acts s = Some (Done s') -> Inv s -> Inv s'.
Proof.
  induction acts as [|a acts IH]; intros s s'; cbn [run]; [by intros [= ->]|].
  destruct (step a s) as [[s1|]|] eqn:E; try done. intros Hr (I1 & I2 & I3 & I4). eapply IH; [done|]. clear Hr IH.
  assert (forall d, add d s = Done s1 -> Inv s1) as A.
  { intros d. unfold add. destruct (_ <? 0); [done|]. intros [= <-]. unfold Inv. cbn. rewrite !orb_true_iff, Z.eqb_eq. intuition auto. }
  destruct a; cbn [step] in E.
  - injection E as E. by eapply A.
  - injection E as E. by eapply A.
  - destruct (waiting s), (Z.eqb_spec (counter s) 0); cbn in E; try done. injection E as <-. unfold Inv. cbn. intuition auto.
  - destruct (caller s); try done. destruct (done_closed s) eqn:Ed; [|done]. injection E as <-. unfold Inv. cbn. intuition auto.
  - destruct (caller s); try done. injection E as <-. unfold Inv. cbn. intuition (auto; done).
Qed.
End Waiting.

(** [WaitWithTimeout] answers true only if the counter has been zero since it
    was called; when it gives up its goroutine stays, and ends when the counter
    is next zero. *)
Theorem wait_with_timeout n acts s : Waiting.run acts (Waiting.WaitWithTimeout n) = Some (Done s) ->
  (Waiting.caller s = Waiting.InTime -> Waiting.was_zero s = true) /\
  (Waiting.was_zero s = false -> Waiting.waiting s = true) /\
  (Waiting.waiting s = true -> Waiting.counter s = 0 ->
   exists s', Waiting.step Waiting.Wake s = Some (Done s') /\ Waiting.waiting s' = false).
Proof.
  intros Hr. apply Waiting.waiting_run in Hr as (I1 & I2 & I3 & I4).
  - split_and!; [done| |].
    + intros Hz. rewrite I1. destruct (Waiting.done_closed s); [|done]. rewrite I2 in Hz by done. done.
    + intros Hw Hc. cbn. rewrite Hw, Hc. eexists. split; [reflexivity|done].
  - unfold Waiting.Inv. cbn. rewrite Z.eqb_eq. by split_and!.
Qed.

Lemma wait_with_timeout_witness :
  exists s, Waiting.run [Waiting.Timeout; Waiting.Done_] (Waiting.WaitWithTimeout 1) = Some (Done s) /\
    exists s', Waiting.step Waiting.Wake s = Some (Done s') /\ Waiting.waiting s' = false.
Proof.
  eexists. split; [reflexivity|]. exact (proj2 (proj2 (wait_with_timeout 1 [Waiting.Timeout; Waiting.Done_] (Waiting.mkState 0 true false Waiting.Late true) eq_refl)) eq_refl eq_refl).
Defined.
