(* ===== verification/Persistence.v ===== *)
(** * Saving agents ([npc/agent.go], [blackboard.go], [memory.go]), and their
    statistics and queues ([learning.go], [communication.go])

    The snapshots an agent takes of its blackboard and memory, over the gob
    package as class [Gob]: decoding merges what was encoded into the variables
    it is given. The memory is here a slice over its array, which [Reset] and
    loading keep. *)
From S2P Require Import Prelude Blackboard BehaviorTree.
From Stdlib Require Import ZArith Lia Strings.String Floats.SpecFloat.
From stdpp Require Import base tactics list strings gmap.
Open Scope Z_scope.

(** ** The memory as a slice: an array and a length *)
Record Mem : Type := mkMem { backing : list DecisionRecord; mlen : nat }.
Definition zero_record : DecisionRecord := mkRecord "" StatusSuccess 0 zero_time.
(** [make([]DecisionRecord, 0, 128)] *)
Definition NewMemory : Mem := mkMem (replicate 128 zero_record) 0.
Definition History (m : Mem) : list DecisionRecord := take (mlen m) (backing m).
(** [grow] is the capacity [append] chooses. *)
Definition AppendDecision (grow : nat -> nat) (rec : DecisionRecord) (m : Mem) : Mem :=
  if (mlen m <? length (backing m))%nat then mkMem (<[mlen m := rec]> (backing m)) (S (mlen m))
  else mkMem (History m ++ [rec] ++ replicate (grow (mlen m) - S (mlen m)) zero_record) (S (mlen m)).
Definition Reset (m : Mem) : Mem := mkMem (backing m) 0.
Definition wf (m : Mem) : Prop := (mlen m <= length (backing m))%nat.

(** ** gob

    A field with its zero value is not transmitted: what is decoded into keeps
    its own. Records decoded into a slice are merged with those of its array,
    if it is large enough. *)
Definition merge_record (r old : DecisionRecord) : DecisionRecord :=
  mkRecord (if decide (Node r = "") then Node old else Node r)
    (if decide (RStatus r = StatusSuccess) then RStatus old else RStatus r)
    (if decide (Duration r = 0) then Duration old else Duration r)
    (if decide (RTimestamp r = zero_time) then RTimestamp old else RTimestamp r).
Definition merge_list (l : list DecisionRecord) (m : Mem) : Mem :=
  if (length l <=? length (backing m))%nat
  then mkMem (zip_with merge_record l (backing m) ++ drop (length l) (backing m)) (length l)
  else mkMem l (length l).

(** What the agent relies on: the documented behaviour of the package, with
    the types it registers itself, since the program registers none. An error
    is [None], or [false] with what had been decoded. *)
Class Gob (bytes : Type) : Type := {
  enc_data : gmap string val -> option bytes;
  dec_data : bytes -> gmap string val -> bool * gmap string val;
  enc_list : list DecisionRecord -> option bytes;
  dec_list : bytes -> Mem -> bool * Mem;
  enc_pair : bytes -> bytes -> option bytes;
  dec_pair : bytes -> option (bytes * bytes);
  blen : bytes -> nat;
  registered : val -> bool;
  registered_basic v : match v with
    | VNil | VBool _ | VInt _ | VInt64 _ | VFloat64 _ | VFloat32 _ | VString _ | VUint64 _ => registered v = true
    | VTime _ | VCheck _ | VPing _ | VTable _ | VCells _ | VVec2 _ _ | VVec3 _ _ _ | VTransform2D _ _
    | VTransform3D _ _ _ => registered v = false
    | VOther _ => True end;
  enc_data_ok d : is_Some (enc_data d) <-> map_Forall (fun _ v => registered v = true) d;
  dec_enc_data d b m : enc_data d = Some b -> blen b <> 0%nat /\ dec_data b m = (true, d ∪ m);
  enc_list_ok l : is_Some (enc_list l);
  dec_enc_list l b m : enc_list l = Some b -> blen b <> 0%nat /\ dec_list b m = (true, merge_list l m);
  enc_pair_ok a b : is_Some (enc_pair a b);
  dec_enc_pair a b c : enc_pair a b = Some c -> dec_pair c = Some (a, b)
}.

Section Saving.
Context {bytes : Type} `{Gob bytes}.

(** [MarshalBinary] and [UnmarshalBinary] work on the root of any view. *)
Definition MarshalBinary (d : gmap string val) : option bytes := enc_data d.
Definition UnmarshalBinary (b : bytes) (d : gmap string val) : bool * gmap string val := dec_data b d.
Definition Save (m : Mem) : option bytes := enc_list (History m).
Definition Load (b : bytes) (m : Mem) : bool * Mem := dec_list b m.

Definition SaveState (d : gmap string val) (m : Mem) : option bytes :=
  bbBytes ← MarshalBinary d; memBytes ← Save m; enc_pair bbBytes memBytes.
Definition LoadState (b : bytes) (d : gmap string val) (m : Mem) : bool * (gmap string val * Mem) :=
  match dec_pair b with
  | None => (false, (d, m))
  | Some (bbBytes, memBytes) =>
      let '(ok, d) := if (0 <? blen bbBytes)%nat then UnmarshalBinary bbBytes d else (true, d) in
      if negb ok then (false, (d, m))
      else
        let '(ok, m) := if (0 <? blen memBytes)%nat then Load memBytes m else (true, m) in
        (ok, (d, m))
  end.
End Saving.

(** ** [learning.go] *)
Definition MemoryManager_Append := AppendDecision.
Definition MemoryManager_All := History.
Definition MemoryManager_Reset := Reset.
Fixpoint count_success (h : list DecisionRecord) (s : Z) : Z :=
  match h with
  | [] => s
  | r :: h => count_success h (if decide (RStatus r = StatusSuccess) then wrapS 64 (s + 1) else s)
  end.
Definition SuccessRate (m : Mem) : spec_float :=
  let h := History m in
  if (length h =? 0)%nat then S754_zero false
  else f64_div (f64_of_Z (count_success h 0)) (f64_of_Z (Z.of_nat (length h))).
Definition Total (m : Mem) : nat := length (History m).

(** ** [communication.go]: a channel with the senders that wait for room *)
Section Queue.
Context {A : Type}.
Record messageQueue : Type := mkQueue { buf : list A; qcap : nat; senders : list A }.
(** [make] panics for a negative size. *)
Definition NewMessageQueue (buffer : Z) : outcome messageQueue :=
  if buffer <? 0 then Panic else Done (mkQueue [] (Z.to_nat buffer) []).
(** The new queue, and whether the sender could go on. *)
Definition Send (msg : A) (q : messageQueue) : messageQueue * bool :=
  if bool_decide (senders q = []) && (length (buf q) <? qcap q)%nat
  then (mkQueue (buf q ++ [msg]) (qcap q) [], true) else (mkQueue (buf q) (qcap q) (senders q ++ [msg]), false).
(** A receive lets the first waiting sender put its value in the channel. *)
Definition TryReceive (q : messageQueue) : messageQueue * option A :=
  match buf q, senders q with
  | v :: rest, [] => (mkQueue rest (qcap q) [], Some v)
  | v :: rest, s :: ss => (mkQueue (rest ++ [s]) (qcap q) ss, Some v)
  | [], s :: ss => (mkQueue [] (qcap q) ss, Some s)
  | [], [] => (q, None)
  end.
End Queue.
Arguments messageQueue : clear implicits.
Definition Noop_IsConnected : bool := false.
Definition Noop_Send {A} (payload : A) : option nerr := None.

(** ** The slice refines the list of decisions *)
Lemma wf_append grow rec m : wf m -> wf (AppendDecision grow rec m) /\
  History (AppendDecision grow rec m) = History m ++ [rec].
Proof.
  unfold wf, AppendDecision, History. intros Hw. destruct (Nat.ltb_spec (mlen m) (length (backing m))) as [Hl|Hl]; cbn [backing mlen].
  - split; [by rewrite length_insert|]. destruct (lookup_lt_is_Some_2 _ _ Hl) as [x Hx].
    rewrite (take_S_r _ _ rec) by (by apply list_lookup_insert_eq). by rewrite take_insert_ge by done.
  - rewrite take_ge by lia. assert (length (backing m) = mlen m) as E by lia. split.
    + rewrite !length_app. cbn. lia.
    + rewrite app_assoc, take_app_le by (rewrite length_app; cbn; lia). rewrite take_ge by (rewrite length_app; cbn; lia). done.
Qed.

(** The operations on the memory of an agent. *)
Inductive mem_op : Type := MAppend (rec : DecisionRecord) | MReset.
Definition mem_step (grow : nat -> nat) (o : mem_op) (m : Mem) : Mem :=
  match o with MAppend rec => AppendDecision grow rec m | MReset => Reset m end.
Definition list_step (o : mem_op) (m : simpleMemory) : simpleMemory :=
  match o with MAppend rec => BehaviorTree.AppendDecision rec m | MReset => Reset_ m end.

(** The slice over its array behaves as the list of decisions that the agent's
    steps are defined over, through any sequence of operations. *)
Theorem memory_refines_list grow ops :
  History (foldl (fun m o => mem_step grow o m) NewMemory ops) =
  foldl (fun m o => list_step o m) BehaviorTree.NewMemory ops.
Proof.
  assert (forall m l, wf m -> History m = l ->
    History (foldl (fun m o => mem_step grow o m) m ops) = foldl (fun m o => list_step o m) l ops) as R.
  { induction ops as [|[rec|] ops IH]; intros m l Hw Hh; cbn [foldl]; [done| |].
    - apply (wf_append grow rec) in Hw as [Hw Ha]. apply IH; [done|]. cbn. by rewrite Ha, Hh.
    - apply IH; [unfold wf; cbn; lia|done]. }
  by apply R; [unfold wf; cbn; lia|].
Qed.

(** ** Saving and loading *)
Lemma merge_zero r : merge_record r zero_record = r.
Proof. destruct r as [n s d t]. unfold merge_record. cbn. by repeat case_decide; subst. Qed.

Lemma History_merge l m : History (merge_list l m) =
  if (length l <=? length (backing m))%nat then zip_with merge_record l (backing m) else l.
Proof.
  unfold merge_list, History. destruct (Nat.leb_spec (length l) (length (backing m))); cbn [mlen backing]; [|by rewrite take_ge].
  rewrite take_app_le, take_ge; rewrite ?length_zip_with; [done|lia..].
Qed.

Lemma merge_fresh l : History (merge_list l NewMemory) = l.
Proof.
  rewrite History_merge. destruct (Nat.leb_spec (length l) (length (backing NewMemory))) as [Hl|]; [|done].
  cbn [backing NewMemory] in *. rewrite length_replicate in Hl. revert Hl. generalize 128%nat.
  induction l as [|r l IH]; intros n Hl; [done|]. destruct n as [|n]; [cbn in Hl; lia|]. cbn [replicate zip_with].
  rewrite merge_zero, IH; [done|]. cbn in Hl. lia.
Qed.

(** C14: Saving an agent succeeds exactly when gob knows the type of every value of
    its blackboard. Loading the snapshot into a new agent gives the same
    blackboard and the same history; loading it into any agent keeps the keys
    the snapshot does not have, and where the array of the memory has records
    (reset or not) the fields that were zero keep the old record's values. *)
Theorem save_load `{Gob bytes} (d : gmap string val) (m : Mem) :
  (is_Some (SaveState d m) <-> map_Forall (fun _ v => registered v = true) d) /\
  forall b, SaveState d m = Some b ->
    (exists m1, LoadState b ∅ NewMemory = (true, (d, m1)) /\ History m1 = History m) /\
    forall d' m', exists m1, LoadState b d' m' = (true, (d ∪ d', m1)) /\
      History m1 = (if (length (History m) <=? length (backing m'))%nat
                    then zip_with merge_record (History m) (backing m') else History m).
Proof.
  unfold SaveState, MarshalBinary, Save. split.
  - rewrite <- enc_data_ok. destruct (enc_data d) as [bb|]; cbn [mbind option_bind].
    + destruct (enc_list_ok (History m)) as [mb ->]. cbn [mbind option_bind]. split; [eauto|]. intros _. apply enc_pair_ok.
    + split; intros [? ?]; done.
  - intros b. destruct (enc_data d) as [bb|] eqn:E1; cbn [mbind option_bind]; [|done].
    destruct (enc_list (History m)) as [mb|] eqn:E2; cbn [mbind option_bind]; [|done]. intros E3%dec_enc_pair.
    assert (forall d' m', LoadState b d' m' = (true, (d ∪ d', merge_list (History m) m'))) as L.
    { intros d' m'. unfold LoadState. rewrite E3.
      apply (dec_enc_data d bb d') in E1 as [Hb E1]. apply (dec_enc_list _ _ m') in E2 as [Hm E2].
      apply Nat.neq_0_lt_0, Nat.ltb_lt in Hb, Hm. unfold UnmarshalBinary, Load. by rewrite Hb, E1, Hm, E2. }
    split.
    + eexists. rewrite L, (right_id_L ∅ (∪)). split; [done|]. apply merge_fresh.
    + intros d' m'. eexists. rewrite L. split; [done|]. apply History_merge.
Qed.

(** ** A gob whose bytes are what was encoded *)
Inductive blob : Type :=
  | BData (d : gmap string val) | BList (l : list DecisionRecord) | BPair (a b : blob).
Definition known (v : val) : bool :=
  match v with
  | VNil | VBool _ | VInt _ | VInt64 _ | VFloat64 _ | VFloat32 _ | VString _ | VUint64 _ => true
  | _ => false
  end.
#[export] Instance blob_gob : Gob blob.
Proof.
  refine {|
    enc_data d := if decide (map_Forall (fun _ v => known v = true) d) then Some (BData d) else None;
    dec_data b m := match b with BData d => (true, d ∪ m) | _ => (false, m) end;
    enc_list l := Some (BList l);
    dec_list b m := match b with BList l => (true, merge_list l m) | _ => (false, m) end;
    enc_pair a b := Some (BPair a b);
    dec_pair b := match b with BPair a b => Some (a, b) | _ => None end;
    blen _ := 1%nat;
    registered := known
  |}.
  - by intros [].
  - intros d. destruct (decide (map_Forall (fun _ v => known v = true) d)); split; intros Hd; try done.
  - intros d b m. destruct (decide (map_Forall (fun _ v => known v = true) d)); [|done]. by intros [= <-].
  - intros l. by eexists.
  - by intros l b m [= <-].
  - intros a b. by eexists.
  - by intros a b c [= <-].
Defined.

(** The snapshot of one agent, loaded into another that has a key of its own. *)
Lemma save_load_witness :
  let d : gmap string val := <["hp" := VInt 3]> ∅ in
  let d' : gmap string val := <["mood" := VString "calm"]> (<["hp" := VInt 9]> ∅) in
  exists b m1, SaveState (bytes := blob) d NewMemory = Some b /\ LoadState b d' NewMemory = (true, (d ∪ d', m1)) /\
    (d ∪ d') !! "mood" = Some (VString "calm") /\ (d ∪ d') !! "hp" = Some (VInt 3).
Proof.
  intros d d'. pose proof (save_load (bytes := blob) d NewMemory) as [_ L].
  destruct (L (BPair (BData d) (BList [])) eq_refl) as [_ L']. destruct (L' d' NewMemory) as (m1 & E & _).
  exists (BPair (BData d) (BList [])), m1. split_and!; [reflexivity|exact E|vm_compute; reflexivity..].
Defined.

(** An agent that waits cannot be saved: the instant its wait began is a value
    of a type that is not registered. *)
Theorem waiting_agent_not_saved `{Gob bytes} BB clock name dur w w' (m : Mem) :
  WaitAction_Tick BB clock name dur w = Some (StatusRunning, None, w') -> SaveState (bbdata w') m = None.
Proof.
  intros E. assert (exists t, bb_get BB (name +:+ ".start") w' = Some (VTime t)) as [t Ht].
  { unfold WaitAction_Tick in E. cbv zeta in E. destruct (bb_get BB (name +:+ ".start") w) as [v|] eqn:Ev.
    - destruct v as [| | | | | | |t| | | | | | | | | |]; try (injection E as <-; eexists; apply bb_get_set).
      destruct (Clock clock w) as [now w1] eqn:Ec. unfold Clock in Ec. injection Ec as <- <-.
      destruct (dur <=? _); [done|]. injection E as <-. by exists t.
    - injection E as <-. eexists. apply bb_get_set. }
  destruct (SaveState (bbdata w') m) eqn:Es; [|done]. exfalso.
  pose proof (proj1 (proj1 (save_load (bbdata w') m))) as R. rewrite Es in R. specialize (R (ex_intro _ _ eq_refl)).
  specialize (R _ _ Ht). cbn in R. pose proof (registered_basic (VTime t)) as N. cbn in N. congruence.
Qed.

Lemma waiting_agent_not_saved_witness :
  SaveState (bytes := blob) (bbdata (mkWorld (<["Wait.start" := VTime 5]> ∅) [] 1 0 ∅)) NewMemory = None.
Proof.
  apply (waiting_agent_not_saved NewBlackboard (fun _ => 5) "Wait" 100 (mkWorld ∅ [] 0 0 ∅)). reflexivity.
Defined.

Definition failed : DecisionRecord := mkRecord "A" StatusFailure 5 9.
Definition succeeded : DecisionRecord := mkRecord "B" StatusSuccess 0 12.

(** A success loaded after a reset is shown as the failure whose place it takes. *)
Example load_after_reset :
  let saved := SaveState (bytes := blob) ∅ (AppendDecision (fun n => 2 * n)%nat succeeded NewMemory) in
  let m := Reset (AppendDecision (fun n => 2 * n)%nat failed NewMemory) in
  exists b, saved = Some b /\ History (LoadState b ∅ m).2.2 = [mkRecord "B" StatusFailure 5 12].
Proof. eexists. split; reflexivity. Qed.

(** ** The queue *)
Inductive queue_op (A : Type) : Type := QSend (msg : A) | QReceive.
Arguments QSend {A} msg.
Arguments QReceive {A}.
Fixpoint queue_run {A} (ops : list (queue_op A)) (q : messageQueue A) : list A * messageQueue A :=
  match ops with
  | [] => ([], q)
  | QSend msg :: ops => queue_run ops (Send msg q).1
  | QReceive :: ops =>
      let '(q, v) := TryReceive q in let '(out, q) := queue_run ops q in (option_list v ++ out, q)
  end.
Definition sends {A} (ops : list (queue_op A)) : list A := omap (fun o => match o with QSend m => Some m | QReceive => None end) ops.
(** Senders wait only for a channel that is full. *)
Definition queue_ok {A} (q : messageQueue A) : Prop :=
  (length (buf q) <= qcap q)%nat /\ (senders q <> [] -> length (buf q) = qcap q).

Lemma queue_run_spec {A} (ops : list (queue_op A)) : forall q, queue_ok q ->
  let '(out, q') := queue_run ops q in
  queue_ok q' /\ qcap q' = qcap q /\ out ++ buf q' ++ senders q' = buf q ++ senders q ++ sends ops.
Proof.
  induction ops as [|[msg|] ops IH]; intros q [Hl Hs]; cbn [queue_run].
  - by rewrite app_nil_r.
  - unfold Send. case_bool_decide as Es; [destruct (Nat.ltb_spec (length (buf q)) (qcap q))|]; cbn [andb fst].
    + specialize (IH (mkQueue (buf q ++ [msg]) (qcap q) [])). destruct (queue_run ops _) as [out q'].
      destruct IH as (? & ? & ->); [by split; cbn; rewrite ?length_app; cbn; [lia|]|]. split_and!; [done..|].
      cbn. by rewrite Es, <- app_assoc.
    + specialize (IH (mkQueue (buf q) (qcap q) (senders q ++ [msg]))). destruct (queue_run ops _) as [out q'].
      destruct IH as (? & ? & ->); [split; cbn; [done|lia]|]. split_and!; [done..|]. cbn. by rewrite <- app_assoc.
    + specialize (IH (mkQueue (buf q) (qcap q) (senders q ++ [msg]))). destruct (queue_run ops _) as [out q'].
      destruct IH as (? & ? & ->); [split; cbn; [done|by intros _; apply Hs]|]. split_and!; [done..|]. cbn. by rewrite <- app_assoc.
  - unfold TryReceive. destruct (buf q) as [|v rest] eqn:Eb, (senders q) as [|s ss] eqn:Es; cbn [length] in *.
    + specialize (IH q). destruct (queue_run ops q) as [out q']. rewrite Eb, Es in IH. cbn. apply IH. split; rewrite ?Eb, ?Es; cbn; done.
    + specialize (IH (mkQueue [] (qcap q) ss)). destruct (queue_run ops _) as [out q'].
      destruct IH as (? & ? & E); [split; cbn; [done|by intros _; apply Hs]|]. split_and!; [done..|]. cbn in *. by rewrite E.
    + specialize (IH (mkQueue rest (qcap q) [])). destruct (queue_run ops _) as [out q'].
      destruct IH as (? & ? & E); [split; cbn; [lia|done]|]. split_and!; [done..|]. cbn in *. by rewrite E.
    + specialize (IH (mkQueue (rest ++ [s]) (qcap q) ss)). destruct (queue_run ops _) as [out q'].
      pose proof (Hs ltac:(done)). destruct IH as (? & ? & E); [split; cbn; rewrite ?length_app; cbn; lia|]. split_and!; [done..|]. cbn in *.
      by rewrite E, <- app_assoc.
Qed.

(** Messages are received in the order they were sent and none is lost: those
    received, followed by those in the channel and those of the senders that
    wait, are those sent; senders wait only while the channel is full. *)
Theorem queue_fifo {A} buffer (q : messageQueue A) ops : NewMessageQueue buffer = Done q ->
  let '(out, q') := queue_run ops q in
  out ++ buf q' ++ senders q' = sends ops /\ (Z.of_nat (length (buf q')) <= buffer) /\
  (senders q' <> [] -> Z.of_nat (length (buf q')) = buffer).
Proof.
  unfold NewMessageQueue. destruct (Z.ltb_spec buffer 0); [done|]. intros [= <-].
  pose proof (queue_run_spec ops (mkQueue [] (Z.to_nat buffer) [])) as R. destruct (queue_run ops _) as [out q'].
  destruct R as ([Hl Hs] & Hc & E); [split; cbn; [lia|done]|]. rewrite Hc in *. cbn in *. split_and!; [done|lia|]. intros Hn%Hs. lia.
Qed.

Lemma queue_fifo_witness :
  let '(out, q') := queue_run [QSend 1; QSend 2; QSend 3; QReceive; QReceive] (mkQueue [] 1 []) in
  out ++ buf q' ++ senders q' = [1; 2; 3] /\ (Z.of_nat (length (buf q')) <= 1) /\
  (senders q' <> [] -> Z.of_nat (length (buf q')) = 1).
Proof. apply (queue_fifo 1 (mkQueue [] 1 []) [QSend 1; QSend 2; QSend 3; QReceive; QReceive]). reflexivity. Defined.
