(* ===== verification/SyncFactory.v ===== *)
(** * The factories of syncv2 ([syncv2/interfaces/factory.go])

    [DefaultFactory] chooses a root by the dynamic type of the initial value or
    by its configuration; [VariableFactory] wraps the root of a strategy into
    the users' variable. A Go value carries its dynamic type; the type
    parameter [T] is a concrete type or an interface. *)
From S2P Require Import Prelude Atomics Channels Wrappers.
From Stdlib Require Import ZArith Lia Strings.String.
From stdpp Require Import base tactics list strings.
Open Scope Z_scope.

(** ** Values and types *)
Inductive Kind : Type := KInt64 | KInt32 | KUint64 | KBool | KOther.
(** [TDefined]: a defined type such as [time.Duration], with its kind. *)
Inductive gotype : Type := TInt64 | TInt32 | TUint64 | TBool | TDefined (name : nat) (k : Kind) | TOther (name : nat).
#[export] Instance Kind_eq : EqDecision Kind.
Proof. solve_decision. Defined.
#[export] Instance gotype_eq : EqDecision gotype.
Proof. solve_decision. Defined.
Inductive goval : Type :=
  | GNil | GInt64 (z : Z) | GInt32 (z : Z) | GUint64 (z : Z) | GBool (b : bool)
  | GDefined (name : nat) (k : Kind) (z : Z) | GOther (name : nat) (z : Z).
#[export] Instance goval_eq : EqDecision goval.
Proof. solve_decision. Defined.
#[export] Instance goval_inhabited : Inhabited goval := populate GNil.
(** [reflect.TypeOf]: nil for a nil interface. *)
Definition type_of (v : goval) : option gotype :=
  match v with
  | GNil => None | GInt64 _ => Some TInt64 | GInt32 _ => Some TInt32 | GUint64 _ => Some TUint64 | GBool _ => Some TBool
  | GDefined n k _ => Some (TDefined n k) | GOther n _ => Some (TOther n)
  end.
Definition kind_of (t : gotype) : Kind :=
  match t with
  | TInt64 => KInt64 | TInt32 => KInt32 | TUint64 => KUint64 | TBool => KBool | TDefined _ k => k | TOther _ => KOther
  end.
(** The type parameter. *)
Inductive static : Type := Concrete (t : gotype) | Interface.
#[export] Instance static_eq : EqDecision static.
Proof. solve_decision. Defined.
Definition typed (T : static) (v : goval) : Prop :=
  match T with Concrete t => type_of v = Some t | Interface => True end.
Definition is_type (T : static) (t : gotype) : bool := bool_decide (T = Concrete t).

(** ** Configuration *)
Inductive ChannelType : Type := BufferedChannel | UnbufferedChannel | PriorityChannel | BroadcastChannel | CycleChannel.
Inductive StorageStrategy : Type :=
  | StrategyAtomic | StrategyMutex | StrategyChannels | StrategySharded | StrategyLockFree | StrategyPersisted
  | StrategyReplicated | StrategyWriteOptimized | StrategyReadOptimized | StrategyMemoryOptimized.
(** The fields the factories read. *)
Record Configuration : Type := mkConfiguration { channelType : ChannelType; BufferSize : Z }.
Definition zero_configuration : Configuration := mkConfiguration BufferedChannel 0.

(** ** Roots *)
Inductive root : Type :=
  | RInt64 (a : Atomic Z) | RInt32 (a : Atomic Z) | RUint64 (a : Atomic Z) | RBool (a : Atomic bool) | RValue (a : Atomic goval)
  | RBuffered (c : Buffered.BufferedChannel goval) | RUnbuffered (c : Unbuffered.UnbufferedChannel (T := goval))
  | RPriority (c : PriorityChan.PriorityChannel goval) | RBroadcast (c : Broadcast.BroadcastChannel goval).

Section Factory.
(** [atomic] chooses by the kind, then asserts the predeclared type of that
    kind and the root's interface. *)
Definition CreateAtomicRoot (T : static) (initialValue : goval) : outcome root :=
  let fallback := RValue (AtomicValue.NewAtomicValue initialValue) in
  match type_of initialValue with
  | None => Panic
  | Some t =>
      match kind_of t with
      | KInt64 =>
          match initialValue with
          | GInt64 z => Done (if is_type T TInt64 then RInt64 (AtomicInt.NewAtomicInt64 z) else fallback)
          | _ => Panic
          end
      | KInt32 =>
          match initialValue with
          | GInt32 z => Done (if is_type T TInt32 then RInt32 (AtomicInt.NewAtomicInt32 z) else fallback)
          | _ => Panic
          end
      | KUint64 =>
          match initialValue with
          | GUint64 z => Done (if is_type T TUint64 then RUint64 (AtomicInt.NewAtomicUint64 z) else fallback)
          | _ => Panic
          end
      | KBool =>
          match initialValue with
          | GBool b => Done (if is_type T TBool then RBool (AtomicBool.NewAtomicBool b) else fallback)
          | _ => Panic
          end
      | KOther => Done fallback
      end
  end.
Definition CreateChannelRoot (cfg : Configuration) (initialValue : goval) (bufferSize : Z) : outcome root :=
  match channelType cfg with
  | UnbufferedChannel => Done (RUnbuffered (Unbuffered.NewUnbufferedChannel initialValue))
  | PriorityChannel => Done (RPriority (PriorityChan.NewPriorityChannel bufferSize initialValue))
  | BroadcastChannel => Done (RBroadcast (Broadcast.NewBroadcastChannel bufferSize initialValue))
  | BufferedChannel | CycleChannel => c ← Buffered.NewBufferedChannel bufferSize initialValue; Done (RBuffered c)
  end.
(** The creators that are not implemented. *)
Definition CreateMutexRoot : outcome root := Panic.
Definition CreateShardedRoot : outcome root := Panic.
Definition CreateLockFreeRoot : outcome root := Panic.
Definition CreatePersistedRoot : outcome root := Panic.
Definition CreateReplicatedRoot : outcome root := Panic.
Definition CreateWriteOptimizedRoot : outcome root := Panic.
Definition CreateReadOptimizedRoot : outcome root := Panic.
Definition CreateMemoryOptimizedRoot : outcome root := Panic.
(** The creators for one type. *)
Definition CreateInt64Atomic (z : Z) : outcome root := Done (RInt64 (AtomicInt.NewAtomicInt64 z)).
Definition CreateInt32Atomic (z : Z) : outcome root := Done (RInt32 (AtomicInt.NewAtomicInt32 z)).
Definition CreateUint64Atomic (z : Z) : outcome root := Done (RUint64 (AtomicInt.NewAtomicUint64 z)).
Definition CreateUint32Atomic (z : Z) : outcome root := Panic.
Definition CreateBoolAtomic (b : bool) : outcome root := Done (RBool (AtomicBool.NewAtomicBool b)).
Definition CreatePointerAtomic : outcome root := Panic.
(** [CreateStringAtomic] and [CreateFloatAtomic] *)
Definition CreateValueAtomic (v : goval) : outcome root := Done (RValue (AtomicValue.NewAtomicValue v)).
End Factory.

(** ** The roots behind the wrappers

    [atomic.Value] refuses nil and a value of another dynamic type. The typed
    roots are given values of their type by the compiler. *)
Definition unInt (v : goval) : Z := match v with GInt64 z | GInt32 z | GUint64 z => z | _ => 0 end.
Definition unBool (v : goval) : bool := match v with GBool b => b | _ => false end.
Definition delta_map {A B} (f : A -> B) (d : Delta A) : Delta B :=
  mkDelta (dVersion d) (f (dValue d)) (dTimestamp d) (dClientID d) (dOpType d).
Definition store_value (v : goval) (a : Atomic goval) : outcome root :=
  match type_of v with
  | None => Panic
  | Some t => if decide (type_of (AtomicValue.Get a) = Some t) then Done (RValue (AtomicValue.Set_ v a)) else Panic
  end.
Definition root_get_ (r : root) : outcome goval :=
  match r with
  | RInt64 a => Done (GInt64 (AtomicInt.Get a)) | RInt32 a => Done (GInt32 (AtomicInt.Get a))
  | RUint64 a => Done (GUint64 (AtomicInt.Get a)) | RBool a => Done (GBool (AtomicBool.Get a))
  | RValue a => Done (AtomicValue.Get a)
  | RBuffered c => Done (Buffered.Get c) | RUnbuffered c => Done (Unbuffered.Get c)
  | RPriority c => Done (PriorityChan.Get c) | RBroadcast c => Done (Broadcast.Get c)
  end.
Definition root_set_ (v : goval) (r : root) : outcome root :=
  match r, v with
  | RInt64 a, GInt64 z => Done (RInt64 (AtomicInt.Set_ z a))
  | RInt32 a, GInt32 z => Done (RInt32 (AtomicInt.Set_ z a))
  | RUint64 a, GUint64 z => Done (RUint64 (AtomicInt.Set_ z a))
  | RBool a, GBool b => Done (RBool (AtomicBool.Set_ b a))
  | RValue a, _ => store_value v a
  | RBuffered c, _ => c ← Buffered.Set_ v c; Done (RBuffered c)
  | RUnbuffered c, _ => Done (RUnbuffered (Unbuffered.Set_ v c))
  | RPriority c, _ => Done (RPriority (PriorityChan.Set_ v c))
  | RBroadcast c, _ => Done (RBroadcast (Broadcast.Set_ v c))
  | _, _ => Panic
  end.
Definition root_version_ (r : root) : Z :=
  match r with
  | RInt64 a | RInt32 a | RUint64 a => Version a | RBool a => Version a | RValue a => Version a
  | RBuffered c => Buffered.Version c | RUnbuffered c => Unbuffered.Version c
  | RPriority c => PriorityChan.Version c | RBroadcast c => Broadcast.version c
  end.
Definition root_dirty_ (r : root) : bool :=
  match r with
  | RInt64 a | RInt32 a | RUint64 a => IsDirty a | RBool a => IsDirty a | RValue a => IsDirty a
  | RBuffered c => Buffered.IsDirty c | RUnbuffered c => Unbuffered.IsDirty c
  | RPriority c => PriorityChan.IsDirty c | RBroadcast c => Broadcast.dirty c
  end.
Definition root_clean_ (r : root) : root :=
  match r with
  | RInt64 a => RInt64 (MarkClean a) | RInt32 a => RInt32 (MarkClean a) | RUint64 a => RUint64 (MarkClean a)
  | RBool a => RBool (MarkClean a) | RValue a => RValue (MarkClean a)
  | RBuffered c => RBuffered (Buffered.MarkClean c) | RUnbuffered c => RUnbuffered (Unbuffered.MarkClean c)
  | RPriority c => RPriority (PriorityChan.MarkClean c) | RBroadcast c => RBroadcast (Broadcast.MarkClean c)
  end.
(** [waiting]: a receiver waits at an unbuffered channel. *)
Definition root_send (waiting : bool) (v : goval) (r : root) : outcome root :=
  match r with
  | RBuffered c => '(c, _) ← Buffered.Send v c; Done (RBuffered c)
  | RUnbuffered c => Done (RUnbuffered (Unbuffered.Send waiting v c).1)
  | RPriority c => Done (RPriority (PriorityChan.Send v c).1)
  | RBroadcast c => '(c, _) ← Broadcast.Send v c; Done (RBroadcast c)
  | _ => Panic
  end.
Definition root_apply (waiting : bool) (ds : list (Delta goval)) (r : root) : outcome root :=
  match r with
  | RInt64 a => Done (RInt64 (AtomicInt.Int64_ApplyDeltas (map (delta_map unInt) ds) a).1)
  | RInt32 a => Done (RInt32 (AtomicInt.Int32_ApplyDeltas (map (delta_map unInt) ds) a).1)
  | RUint64 a => Done (RUint64 (AtomicInt.Uint64_ApplyDeltas (map (delta_map unInt) ds) a).1)
  | RBool a => Done (RBool (AtomicBool.ApplyDeltas (mkDelta 0 false 0 "" OpSet) (map (delta_map unBool) ds) a).1)
  | RValue a => Done (RValue (AtomicValue.ApplyDeltas ds a).1)
  | _ => write_deltas (root_send waiting) ds r
  end.

Section Variables.
Context (waiting : bool).
#[local] Instance root_wrapped : WrappedRoot root goval := {|
  w_get := root_get_; w_set := root_set_; w_version := root_version_; w_dirty := root_dirty_; w_clean := root_clean_;
  w_apply := root_apply waiting |}.

(** ** [VariableFactory] *)
(** The cores that are made: they differ in how [Set] notifies. *)
Inductive core_kind : Type := CAtomic (w : Wrapper root goval) | CChannel (w : Wrapper root goval).
(** A variable wrapper keeps the core it is given, also a nil one; the methods
    that need the core panic on that. [core_version] of a nil core stands for a
    panic, see [Variable_GetVersion]. *)
#[local] Instance created_core : Core (option core_kind) goval := {|
  core_get c := match c with
    | None => Panic
    | Some (CAtomic w) => '(w, v) ← Wrapper_Get w; Done (Some (CAtomic w), v)
    | Some (CChannel w) => '(w, v) ← Wrapper_Get w; Done (Some (CChannel w), v) end;
  core_set v c := match c with
    | None => Panic
    | Some (CAtomic w) => w ← Wrapper_Set v w; Done (Some (CAtomic w))
    | Some (CChannel w) => w ← Channel_Set v w; Done (Some (CChannel w)) end;
  core_version c := match c with None => 0 | Some (CAtomic w) | Some (CChannel w) => Wrapper_Version w end;
  core_close c := match c with
    | None => Panic
    | Some (CAtomic w) => Done (Some (CAtomic (Wrapper_Close w)))
    | Some (CChannel w) =>
        match Wrappers.root w with
        | RBuffered k => k ← Buffered.Close k; Done (Some (CChannel (Wrapper_Close (set_root (RBuffered k) w))))
        | RUnbuffered k => Done (Some (CChannel (Wrapper_Close (set_root (RUnbuffered (Unbuffered.Close k)) w))))
        | RPriority k => Done (Some (CChannel (Wrapper_Close (set_root (RPriority (PriorityChan.Close k)) w))))
        | RBroadcast k => k ← Broadcast.Close k; Done (Some (CChannel (Wrapper_Close (set_root (RBroadcast k) w))))
        | _ => Done (Some (CChannel (Wrapper_Close w)))
        end end;
  core_cas := None |}.
Definition variable : Type := VariableWrapper (option core_kind) goval.
Definition Variable_GetVersion (v : variable) : outcome Z :=
  match core v with None => Panic | Some _ => Done (GetVersion v) end.

Definition CreateVariable (cfg : Configuration) (T : static) (strategy : StorageStrategy) (initialValue : goval)
    (options : list Configuration) : outcome (result string variable) :=
  let wrap c := Done (Ok (NewVariableWrapper c)) in
  match strategy with
  | StrategyAtomic => r ← CreateAtomicRoot T initialValue; wrap (Some (CAtomic (NewWrapper r)))
  | StrategyChannels =>
      let bufferSize := match options with o :: _ => if 0 <? BufferSize o then BufferSize o else 10 | [] => 10 end in
      r ← CreateChannelRoot cfg initialValue bufferSize; wrap (Some (CChannel (NewWrapper r)))
  | StrategyMutex | StrategySharded => wrap None
  | _ => Done (Err "unsupported storage strategy"%string)
  end.
(** The convenience function uses a factory with the zero configuration. *)
Definition CreateVariable_global := CreateVariable zero_configuration.

(** Values that [CreateAtomicRoot] accepts. *)
Definition atomic_supported (v : goval) : bool :=
  match v with GNil => false | GDefined _ k _ => bool_decide (k = KOther) | _ => true end.
Definition implemented (s : StorageStrategy) : bool :=
  match s with StrategyAtomic | StrategyChannels => true | _ => false end.
Definition same_type (v v' : goval) : Prop := type_of v = type_of v' /\ v' <> GNil.

Lemma CreateAtomicRoot_spec T v : typed T v ->
  if atomic_supported v
  then exists r, CreateAtomicRoot T v = Done r /\ root_get_ r = Done v /\
    forall v', same_type v v' -> exists r', root_set_ v' r = Done r' /\ root_get_ r' = Done v'
  else CreateAtomicRoot T v = Panic.
Proof.
  intros Ht. unfold CreateAtomicRoot, atomic_supported, is_type.
  assert (forall u, u <> GNil -> exists r, Done (RValue (AtomicValue.NewAtomicValue u)) = Done r /\ root_get_ r = Done u /\
    forall v', same_type u v' -> exists r', root_set_ v' r = Done r' /\ root_get_ r' = Done v') as F.
  { intros u Hu. eexists. split; [reflexivity|]. split; [done|]. intros v' [E Hn]. cbn. unfold store_value. cbn.
    destruct (type_of v') as [t|] eqn:E'; [|by destruct v']. rewrite decide_True by congruence. by eexists. }
  destruct v as [|z|z|z|b|n k z|n z]; cbn; [done|..|by apply F].
  1-4: case_bool_decide; [|by apply F]; eexists; split; [reflexivity|]; split; [done|];
    intros v' [E Hn]; destruct v'; try done; by eexists.
  destruct k; cbn; try done. by apply F.
Qed.
End Variables.

(** The variables of the atomic strategy: a value that is not nil and not of a
    defined type over [int64], [int32], [uint64] or [bool] gives a variable
    that reads back the value, and after setting another value of its type,
    that one; nil and the defined types panic. *)
Theorem atomic_variable waiting cfg T v options : typed T v ->
  if atomic_supported v
  then exists x, CreateVariable cfg T StrategyAtomic v options = Done (Ok x) /\
    (exists x', Variable_Get (C := created_core waiting) x = Done (x', v)) /\
    forall v', same_type v v' -> exists x1 x2, Variable_Set (C := created_core waiting) v' x = Done x1 /\
      Variable_Get (C := created_core waiting) x1 = Done (x2, v')
  else CreateVariable cfg T StrategyAtomic v options = Panic.
Proof.
  intros Ht. pose proof (CreateAtomicRoot_spec T v Ht) as S0. unfold CreateVariable. destruct (atomic_supported v).
  - destruct S0 as (r & E & Hg & Hs). rewrite E. eexists. split; [reflexivity|]. split.
    + unfold Variable_Get. cbn. unfold Wrapper_Get. cbn. rewrite Hg. cbn. by eexists.
    + intros v' (r' & Hr & Hg')%Hs. unfold Variable_Set, Variable_Get. cbn. unfold Wrapper_Get, Wrapper_Set, write_root. cbn.
      rewrite Hg. cbn. rewrite Hg. cbn. rewrite Hr. cbn. rewrite batch_callbacks_all. cbn.
      eexists _, _. split; [reflexivity|]. cbn. unfold Wrapper_Get. cbn. rewrite Hg'. reflexivity.
  - by rewrite S0.
Qed.

Lemma atomic_variable_witness :
  CreateVariable zero_configuration (Concrete (TDefined 0 KInt64)) StrategyAtomic (GDefined 0 KInt64 5) [] = Panic /\
  exists x, CreateVariable zero_configuration (Concrete TInt64) StrategyAtomic (GInt64 5) [] = Done (Ok x) /\
    exists x', Variable_Get (C := created_core false) x = Done (x', GInt64 5).
Proof.
  split.
  - exact (atomic_variable false zero_configuration (Concrete (TDefined 0 KInt64)) (GDefined 0 KInt64 5) [] eq_refl).
  - destruct (atomic_variable false zero_configuration (Concrete TInt64) (GInt64 5) [] eq_refl) as (x & E & G & _).
    exists x. by split.
Defined.

(** The other strategies: channels give a variable that reads back the value,
    for every configuration (also for cycle channels, which are then buffered);
    mutex and sharded give, without an error, a variable whose methods panic;
    the rest is an error. *)
Theorem other_variables waiting cfg T strategy v options : strategy <> StrategyAtomic ->
  match strategy with
  | StrategyChannels => exists x x', CreateVariable cfg T strategy v options = Done (Ok x) /\
      Variable_Get (C := created_core waiting) x = Done (x', v)
  | StrategyMutex | StrategySharded => exists x, CreateVariable cfg T strategy v options = Done (Ok x) /\
      Variable_Get (C := created_core waiting) x = Panic /\
      (forall v', Variable_Set (C := created_core waiting) v' x = Panic) /\
      (forall n f, Update (C := created_core waiting) (S n) f x = Some Panic) /\
      Variable_GetVersion waiting x = Panic /\ Close (C := created_core waiting) x = Panic
  | _ => exists e, CreateVariable cfg T strategy v options = Done (Err e)
  end.
Proof.
  intros Hs. destruct strategy; try done; cbn [CreateVariable].
  1, 3: eexists; split; [reflexivity|done].
  2-7: by eexists.
  set (n := match options with [] => 10 | o :: _ => if 0 <? BufferSize o then BufferSize o else 10 end).
  assert (0 < n) as Hn. { subst n. destruct options as [|o ?]; [lia|]. destruct (Z.ltb_spec 0 (BufferSize o)); lia. }
  unfold CreateChannelRoot. destruct (channelType cfg); cbn; unfold Buffered.NewBufferedChannel, make_chan;
    try (destruct (Z.ltb_spec n 0); [lia|]); cbn; eexists _, _; split; [reflexivity|reflexivity|reflexivity..].
Qed.

Lemma other_variables_witness : exists x,
  CreateVariable zero_configuration (Concrete TInt64) StrategyMutex (GInt64 5) [] = Done (Ok x) /\
  Variable_Get (C := created_core false) x = Panic.
Proof.
  destruct (other_variables false zero_configuration (Concrete TInt64) StrategyMutex (GInt64 5) [] ltac:(done)) as (x & E & G & _).
  exists x. by split.
Defined.

(** A variable of an interface type cannot be given a value of another dynamic
    type: the store panics. *)
Example any_variable_keeps_type : exists x,
  CreateVariable_global Interface StrategyAtomic (GInt64 5) [] = Done (Ok x) /\
  Variable_Set (C := created_core false) (GBool true) x = Panic.
Proof. eexists. split; reflexivity. Qed.
