(* ===== verification/Accessors.v ===== *)
(** * The accessors' interface ([fields/fields.go]) and those that delegate

    Class [FieldAccessor] is the interface of that name, without the locks and
    channels of FieldChannels; [AccessorLaws] is what its users rely on. The
    plain accessor satisfies it, and so do the numeric and the slice accessors,
    whose methods call those of their root. *)
From S2P Require Import Prelude Channels Fields SliceFields FieldChannels.
From Stdlib Require Import ZArith Lia Strings.String.
From stdpp Require Import base tactics list gmap strings.
Open Scope Z_scope.

Class FieldAccessor (A T : Type) : Type := {
  fa_Get : A -> T;
  fa_Set : Z -> T -> A -> A;
  fa_Subscribe : nat -> A -> Z * A;
  fa_SubscribeIf : nat -> option (T -> bool) -> A -> Z * A;
  fa_unsubscribe : Z -> A -> A;
  fa_CompareAndSwap : Z -> T -> T -> A -> outcome (bool * A);
  fa_Swap : Z -> T -> A -> T * A;
  fa_Transaction : Z -> (T -> outcome T) -> A -> outcome T * A;
  fa_Version : A -> Z;
  fa_ChangedSince : Z -> A -> bool;
  fa_Merge : Z -> T -> (T -> T -> outcome T) -> A -> outcome A;
  fa_History : Z -> A -> list T;
  fa_Delta : Z -> A -> result string (list T);
  fa_GetWithContext : option string -> A -> result string T;
  fa_SetWithContext : option string -> Z -> T -> A -> option string * A;
  fa_Clone : Z -> A -> A
}.

(** What holds of every accessor in a state its operations can reach. *)
Class AccessorLaws (A T : Type) `{F : FieldAccessor A T} : Type := {
  fa_ok : A -> Prop;
  ok_set now v a : fa_ok a -> fa_ok (fa_Set now v a);
  ok_clone now a : fa_ok a -> fa_ok (fa_Clone now a);
  get_set now v a : fa_Get (fa_Set now v a) = v;
  version_set now v a : fa_Version (fa_Set now v a) = wrapU 64 (fa_Version a + 1);
  swap_set now v a : fa_Swap now v a = (fa_Get a, fa_Set now v a);
  changed_since ver a : fa_ChangedSince ver a = (ver <? fa_Version a);
  history_set now v a : fa_ok a -> fa_History 1 (fa_Set now v a) = [v];
  clone_get now a : fa_Get (fa_Clone now a) = fa_Get a;
  clone_version now a : fa_Version (fa_Clone now a) = 1;
  context_get a : fa_GetWithContext None a = Ok (fa_Get a);
  context_set now v a : fa_SetWithContext None now v a = (None, fa_Set now v a);
  context_expired e now v a : fa_GetWithContext (Some e) a = Err e /\ fa_SetWithContext (Some e) now v a = (Some e, a)
}.

(** A transaction without interference, and a merge with an accessor that holds
    [other]. *)
Definition FA_Transaction {T} `{GoType T} (now : Z) (update : T -> outcome T) (a : FA T) : outcome T * FA T :=
  match Transaction (fun _ => now) undisturbed (fun c (u : unit) => (update c, u)) tt a with (r, (_, a)) => (r, a) end.
Definition FA_Merge {T} `{GoType T} (now : Z) (other : T) (mergeFn : T -> T -> outcome T) (a : FA T) : outcome (FA T) :=
  Fields.Merge (fun _ => now) undisturbed (fun _ => other) mergeFn a.

#[export] Instance FA_accessor T `{GoType T} : FieldAccessor (FA T) T := {|
  fa_Get := Get; fa_Set := Fields.Set_; fa_Subscribe := Subscribe; fa_SubscribeIf := SubscribeIf; fa_unsubscribe := unsubscribe;
  fa_CompareAndSwap := CompareAndSwap; fa_Swap := Swap; fa_Transaction := FA_Transaction; fa_Version := Version;
  fa_ChangedSince := ChangedSince; fa_Merge := FA_Merge; fa_History := History; fa_Delta := Delta;
  fa_GetWithContext := GetWithContext; fa_SetWithContext := SetWithContext; fa_Clone := Clone |}.

Lemma last_history {T} `{GoType T} now v (a : FA T) log : Rep log a -> History 1 (Fields.Set_ now v a) = [v].
Proof.
  intros R. pose proof (Rep_write log now v a R) as R'. pose proof (Rep_history_length _ _ R') as [Hl He].
  unfold History. rewrite length_app in He. cbn [length] in He. set (h := history (Fields.Set_ now v a)) in *.
  change (1 =? 0) with false. cbn [orb]. destruct (Z.eqb_spec (Z.of_nat (length h)) 0) as [E|_]; [lia|].
  assert (map evalue h = map fst (drop (length (log ++ [v]) - 100) (stamped (log ++ [v])))) as Eh.
  { pose proof (f_equal (map fst) (rep_history _ _ R')) as E. rewrite map_map in E. exact E. }
  set (start := if 1 <? Z.of_nat (length h) then (length h - Z.to_nat 1)%nat else 0%nat).
  assert (start = (length h - 1)%nat) as ->. { unfold start. destruct (Z.ltb_spec 1 (Z.of_nat (length h))); lia. }
  rewrite <- skipn_map, Eh, stamped_snoc, length_app. cbn [length].
  rewrite drop_app_le by (rewrite length_stamped; lia). rewrite map_app, drop_app_ge; rewrite length_map, length_drop, length_stamped; [|lia].
  replace (length h - 1 - (length log - (length log + 1 - 100)))%nat with 0%nat by lia. done.
Qed.

#[export] Instance FA_laws T `{GoType T} : AccessorLaws (FA T) T.
Proof.
  refine {| fa_ok a := exists log, Rep log a |}; intros; try done.
  - destruct H0 as [log R]. eexists. by apply Rep_write.
  - eexists. apply (Rep_new now [Get a]).
  - apply Z.gtb_ltb.
  - destruct H0 as [log R]. by eapply last_history.
Defined.

(** ** The numeric accessor at an integer type, and the slice accessor *)
Record NFA : Type := mkNFA { nroot : FA Z }.
Record SFA : Type := mkSFA { sroot : FA slice_header }.
Definition NewNFA (now : Z) (initial : list Z) : NFA := mkNFA (NewFA now initial).
Definition NewSFA (now : Z) (initial : list slice_header) : SFA := mkSFA (NewFA now initial).

(** An accessor whose methods call its root's. [Clone] returns a plain
    accessor of the interface, which is the root of the result here. *)
Section Delegation.
Context {A T : Type} `{GoType T} (root_of : A -> FA T) (make : FA T -> A).
Definition with_root (f : FA T -> FA T) (a : A) : A := make (f (root_of a)).
Definition delegating : FieldAccessor A T := {|
  fa_Get a := Get (root_of a);
  fa_Set now v := with_root (Fields.Set_ now v);
  fa_Subscribe cb a := let '(id, r) := Subscribe cb (root_of a) in (id, make r);
  fa_SubscribeIf cb fl a := let '(id, r) := SubscribeIf cb fl (root_of a) in (id, make r);
  fa_unsubscribe id := with_root (unsubscribe id);
  fa_CompareAndSwap now e n a := '(b, r) ← CompareAndSwap now e n (root_of a); Done (b, make r);
  fa_Swap now v a := let '(old, r) := Swap now v (root_of a) in (old, make r);
  fa_Transaction now f a := let '(res, r) := FA_Transaction now f (root_of a) in (res, make r);
  fa_Version a := Version (root_of a);
  fa_ChangedSince ver a := ChangedSince ver (root_of a);
  fa_Merge now other f a := r ← FA_Merge now other f (root_of a); Done (make r);
  fa_History limit a := History limit (root_of a);
  fa_Delta from a := Delta from (root_of a);
  fa_GetWithContext c a := GetWithContext c (root_of a);
  fa_SetWithContext c now v a := let '(e, r) := SetWithContext c now v (root_of a) in (e, make r);
  fa_Clone now := with_root (Clone now) |}.
Context (root_make : forall r, root_of (make r) = r) (make_root : forall a, make (root_of a) = a).
Lemma delegating_laws : @AccessorLaws A T delegating.
Proof using root_make make_root.
  refine {| fa_ok a := exists log, Rep log (root_of a) |}; intros; cbn; unfold with_root; rewrite ?root_make; try done.
  - destruct H0 as [log R]. eexists. by apply Rep_write.
  - eexists. apply (Rep_new now [Get (root_of a)]).
  - apply Z.gtb_ltb.
  - destruct H0 as [log R]. by eapply last_history.
  - by rewrite make_root.
Qed.
End Delegation.

Definition NFA_methods : FieldAccessor NFA Z := delegating nroot mkNFA.
Definition SFA_methods : FieldAccessor SFA slice_header := delegating sroot mkSFA.
#[export] Instance NFA_accessor : FieldAccessor NFA Z := NFA_methods.
#[export] Instance NFA_laws : AccessorLaws NFA Z := delegating_laws nroot mkNFA (fun _ => eq_refl) (fun a => match a with mkNFA _ => eq_refl end).
#[export] Instance SFA_accessor : FieldAccessor SFA slice_header := SFA_methods.
#[export] Instance SFA_laws : AccessorLaws SFA slice_header :=
  delegating_laws sroot mkSFA (fun _ => eq_refl) (fun a => match a with mkSFA _ => eq_refl end).

(** [SubscribeCh] of the slice accessor calls itself: [None] for any fuel. *)
Fixpoint SFA_SubscribeCh {R} (fuel : nat) (a : SFA) : option R :=
  match fuel with O => None | S fuel => SFA_SubscribeCh fuel a end.
Lemma slice_SubscribeCh_never_returns {R} fuel (a : SFA) : @SFA_SubscribeCh R fuel a = None.
Proof. by induction fuel. Qed.
(** Those of the others are [SubscribeIfCh] without a filter. *)
Definition FA_SubscribeCh {T} `{GoType T} (a : FA T) : SubscribeCh.state (T := T) := SubscribeCh.SubscribeIfCh a.
Definition NFA_SubscribeCh (a : NFA) : SubscribeCh.state (T := Z) := SubscribeCh.SubscribeIfCh (nroot a).

(** ** Serialization: [marshal] and [unmarshal] are those of [encoding/json] *)
Section Serialization.
Context {T E bytes : Type} `{GoType T} (marshal : T -> result E bytes) (unmarshal : bytes -> result E T).
Definition Serialize (a : FA T) : result E bytes := marshal (Get a).
Definition Deserialize (now : Z) (b : bytes) (a : FA T) : option E * FA T :=
  match unmarshal b with Err e => (Some e, a) | Ok newValue => (None, Fields.Set_ now newValue a) end.
End Serialization.

(** The value of an accessor survives serialization into another, which counts
    one version; bytes that do not decode leave it as it was. *)
Theorem serialize_roundtrip {T E bytes} `{GoType T} (marshal : T -> result E bytes) (unmarshal : bytes -> result E T) now (a a' : FA T) :
  (forall v b, marshal v = Ok b -> unmarshal b = Ok v) ->
  (forall b, Serialize marshal a = Ok b -> exists a1, Deserialize unmarshal now b a' = (None, a1) /\
     Get a1 = Get a /\ Version a1 = wrapU 64 (Version a' + 1)) /\
  (forall b e, unmarshal b = Err e -> Deserialize unmarshal now b a' = (Some e, a')).
Proof.
  intros Hm. unfold Serialize, Deserialize. split.
  - intros b Hb%Hm. rewrite Hb. by eexists.
  - intros b e ->. done.
Qed.

Lemma serialize_roundtrip_witness : exists a1,
  Deserialize (fun b : Z => if b <? 0 then Err "range"%string else Ok b) 5 7 (NewFA 0 [1]) = (None, a1) /\ Get a1 = 7 /\ Version a1 = 2.
Proof.
  apply (proj1 (serialize_roundtrip (fun v : Z => if v <? 0 then Err "range"%string else Ok v)
    (fun b => if b <? 0 then Err "range"%string else Ok b) 5 (NewFA 0 [7]) (NewFA 0 [1])
    ltac:(intros v b; cbn; destruct (v <? 0) eqn:E; [done|intros [= <-]; by rewrite E])) 7). reflexivity.
Defined.

(** ** A client of the interface: a reader that polls

    It keeps the version it saw and reads when [ChangedSince] says so. *)
Section Poll.
Context {A T : Type} `{L : AccessorLaws A T}.
Definition poll (a : A) (seen : Z * T) : Z * T :=
  if fa_ChangedSince seen.1 a then (fa_Version a, fa_Get a) else seen.
(** Writes and polls in turn. *)
Fixpoint watch (events : list (option (Z * T))) (a : A) (seen : Z * T) : A * (Z * T) :=
  match events with
  | [] => (a, seen)
  | Some (now, v) :: events => watch events (fa_Set now v a) seen
  | None :: events => watch events a (poll a seen)
  end.
End Poll.

(** Behind the interface, whatever the accessor, a reader that polls last has
    the value the accessor holds, and its version, as long as the counter does
    not wrap. *)
Theorem poll_current {A T} `{L : AccessorLaws A T} (events : list (option (Z * T))) (a : A) :
  0 <= fa_Version a -> fa_Version a + Z.of_nat (length events) < 2 ^ 64 ->
  let '(a', seen) := watch events a (fa_Version a, fa_Get a) in poll a' seen = (fa_Version a', fa_Get a').
Proof.
  assert (forall events (a : A) seen, 0 <= fa_Version a -> fa_Version a + Z.of_nat (length events) < 2 ^ 64 ->
    seen.1 <= fa_Version a -> (seen.1 = fa_Version a -> seen.2 = fa_Get a) ->
    let '(a', seen) := watch events a seen in poll a' seen = (fa_Version a', fa_Get a')) as W.
  { clear events a. intros events. induction events as [|[[now v]|] events IH]; intros a seen H0 Hb Hs Hv; cbn [watch].
    - unfold poll. rewrite changed_since. destruct (Z.ltb_spec seen.1 (fa_Version a)); [done|].
      assert (seen.1 = fa_Version a) as E by lia. rewrite <- (Hv E), <- E. by destruct seen.
    - cbn [length] in Hb. assert (fa_Version (fa_Set now v a) = fa_Version a + 1) as E.
      { rewrite version_set. apply wrapU_id. unfold in_u. lia. }
      apply IH; rewrite E; lia.
    - cbn [length] in Hb. unfold poll. rewrite changed_since. destruct (Z.ltb_spec seen.1 (fa_Version a)); apply IH; cbn; done || lia. }
  intros H0 Hb. by apply W.
Qed.

(** Over the numeric accessor. *)
Definition polled : NFA := NewNFA 0 [3].
Lemma poll_current_witness :
  let '(a', seen) := watch [Some (1, 5); None; Some (2, 6)] polled (fa_Version polled, fa_Get polled) in
  poll a' seen = (fa_Version a', fa_Get a').
Proof.
  apply poll_current; change (fa_Version polled) with 1; [lia|]. cbn [length]. lia.
Defined.
