(* ===== verification/AdaptiveSteps.v ===== *)
(** * Adaptive sharding under concurrency ([AdaptiveSharded] of [syncv2/vars/sharded.go])

    Reads, writes and resizes as interleaved atomic steps: a read or a write
    loads the count, then picks a shard under the read lock, then uses the
    shard, which a resize may have dropped in between. Shards are objects on a
    heap, the current ones a list of references. The sequential operations are
    in Sharded. *)
From S2P Require Import Prelude.
From Stdlib Require Import ZArith Lia.
From stdpp Require Import base tactics list.
Open Scope Z_scope.

Section Adaptive.
Context {T : Type} (minShards maxShards : Z).

(** A thread of [SetShard] or [GetShard], by what it does next; [h] is the hash
    of its key. *)
Inductive thread : Type :=
  | SetIndex (h : Z) (v : T)        (* [a.count.Load()] *)
  | SetPick (idx : Z) (v : T)       (* the region under [a.mx.RLock] *)
  | SetStore (r : nat) (v : T)      (* the region under [sh.mx.Lock], value and version *)
  | SetVersion                      (* [a.version.Add(1)] and the flag *)
  | SetDone
  | GetIndex (h : Z)
  | GetPick (idx : Z)
  | GetLoad (r : nat)
  | GetDone (v : T).
Record state : Type := mkState { objs : list T; current : list nat; count : Z; version : Z; threads : list thread }.

(** The index, clamped to the shards there are. *)
Definition pick (idx : Z) (s : state) : outcome nat :=
  let idx := if Z.of_nat (length (current s)) <=? idx then Z.of_nat (length (current s)) - 1 else idx in
  if idx <? 0 then Panic else match current s !! Z.to_nat idx with Some r => Done r | None => Panic end.
Definition shard_index (h : Z) (s : state) : outcome Z :=
  let n := wrapU 32 (count s) in if n =? 0 then Panic else Done (wrapU 32 h mod n).
(** [int] division of the count, and [make] of the new length. *)
Definition scaleUp (s : state) : outcome state :=
  let newCount := if maxShards <? count s * 2 then maxShards else count s * 2 in
  if newCount =? count s then Done s
  else if newCount <? 0 then Panic
  else
    match current s with
    | [] => Panic
    | r0 :: _ =>
        match objs s !! r0 with
        | None => Panic
        | Some v0 =>
            let kept := take (Z.to_nat newCount) (current s) in
            let fresh := (Z.to_nat newCount - Z.to_nat (count s))%nat in
            Done (mkState (objs s ++ replicate fresh v0) (take (Z.to_nat (count s)) kept ++ seq (length (objs s)) fresh)
                    (wrapS 32 newCount) (wrapU 64 (version s + 1)) (threads s))
        end
    end.
Definition scaleDown (s : state) : outcome state :=
  let half := Z.quot (count s) 2 in
  let newCount := if half <? minShards then minShards else half in
  if newCount =? count s then Done s
  else if (newCount <? 0) || (Z.of_nat (length (current s)) <? newCount) then Panic
  else Done (mkState (objs s) (take (Z.to_nat newCount) (current s)) (wrapS 32 newCount) (wrapU 64 (version s + 1)) (threads s)).

Definition set_thread (t : nat) (th : thread) (s : state) : state :=
  mkState (objs s) (current s) (count s) (version s) (<[t := th]> (threads s)).
(** The next step of a thread; [None] when it has ended. *)
Definition advance (t : nat) (th : thread) (s : state) : option (outcome state) :=
  match th with
  | SetIndex h v => Some (i ← shard_index h s; Done (set_thread t (SetPick i v) s))
  | SetPick i v => Some (r ← pick i s; Done (set_thread t (SetStore r v) s))
  | SetStore r v =>
      Some (match objs s !! r with
            | None => Panic
            | Some _ => Done (set_thread t SetVersion (mkState (<[r := v]> (objs s)) (current s) (count s) (version s) (threads s)))
            end)
  | SetVersion => Some (Done (set_thread t SetDone (mkState (objs s) (current s) (count s) (wrapU 64 (version s + 1)) (threads s))))
  | GetIndex h => Some (i ← shard_index h s; Done (set_thread t (GetPick i) s))
  | GetPick i => Some (r ← pick i s; Done (set_thread t (GetLoad r) s))
  | GetLoad r => Some (match objs s !! r with None => Panic | Some v => Done (set_thread t (GetDone v) s) end)
  | SetDone | GetDone _ => None
  end.

Inductive act : Type := Set_ (h : Z) (v : T) | Get_ (h : Z) | Run (t : nat) | ScaleUp | ScaleDown.
(** [ScaleUp] and [ScaleDown] are what [maybeResize] does when it decides so,
    between the limits. *)
Definition step (a : act) (s : state) : option (outcome state) :=
  match a with
  | Set_ h v => Some (Done (mkState (objs s) (current s) (count s) (version s) (threads s ++ [SetIndex h v])))
  | Get_ h => Some (Done (mkState (objs s) (current s) (count s) (version s) (threads s ++ [GetIndex h])))
  | Run t => match threads s !! t with Some th => advance t th s | None => None end
  | ScaleUp => if count s <? maxShards then Some (scaleUp s) else None
  | ScaleDown => if minShards <? count s then Some (scaleDown s) else None
  end.
(** A step that cannot be taken is skipped. *)
Fixpoint run (acts : list act) (s : state) : outcome state :=
  match acts with
  | [] => Done s
  | a :: acts => match step a s with None => run acts s | Some Panic => Panic | Some (Done s) => run acts s end
  end.
Definition initial (n : nat) (v : T) : state := mkState (replicate n v) (seq 0 n) (Z.of_nat n) 1 [].

(** ** No step panics *)
Definition thread_ok (n : nat) (th : thread) : Prop :=
  match th with
  | SetPick i _ | GetPick i => 0 <= i
  | SetStore r _ | GetLoad r => (r < n)%nat
  | _ => True
  end.
Record Inv (s : state) : Prop := {
  inv_length : Z.of_nat (length (current s)) = count s;
  inv_count : 1 <= minShards /\ minShards <= count s <= maxShards /\ maxShards < 2 ^ 31;
  inv_refs : Forall (fun r => (r < length (objs s))%nat) (current s);
  inv_threads : Forall (thread_ok (length (objs s))) (threads s)
}.

Lemma steps_thread_ok_mono n m th : (n <= m)%nat -> thread_ok n th -> thread_ok m th.
Proof. destruct th; cbn; lia. Qed.

Lemma Inv_set_thread t th s : Inv s -> thread_ok (length (objs s)) th -> Inv (set_thread t th s).
Proof. intros [? ? ? ?] Hok. split; cbn; try done. by apply Forall_insert. Qed.

Lemma pick_ok i s : Inv s -> 0 <= i -> exists r, pick i s = Done r /\ r ∈ current s /\ (r < length (objs s))%nat.
Proof.
  intros [Hl Hc Hr _] Hi. unfold pick.
  set (j := if Z.of_nat (length (current s)) <=? i then Z.of_nat (length (current s)) - 1 else i).
  assert (0 <= j < Z.of_nat (length (current s))) as Hj. { unfold j. destruct (Z.leb_spec (Z.of_nat (length (current s))) i); lia. }
  destruct (Z.ltb_spec j 0); [lia|]. destruct (lookup_lt_is_Some_2 (current s) (Z.to_nat j)) as [r Er]; [lia|].
  rewrite Er. exists r. split; [done|]. split; [by eapply list_elem_of_lookup_2|]. by eapply (Forall_lookup_1 _ _ _ _ Hr).
Qed.
Lemma shard_index_ok h s : Inv s -> exists i, shard_index h s = Done i /\ 0 <= i < count s.
Proof.
  intros [Hl Hc _ _]. unfold shard_index. rewrite wrapU_id by (unfold in_u; lia).
  destruct (Z.eqb_spec (count s) 0); [lia|]. eexists. split; [reflexivity|]. apply Z.mod_pos_bound. lia.
Qed.

Lemma advance_ok t th s : Inv s -> thread_ok (length (objs s)) th ->
  match advance t th s with None => True | Some o => exists s', o = Done s' /\ Inv s' /\ current s' = current s /\ length (objs s') = length (objs s) end.
Proof.
  intros I Hok. destruct th as [h v|i v|r v| | |h|i|r|v]; cbn [advance]; try done.
  - destruct (shard_index_ok h s I) as (i & -> & Hi). eexists. split; [reflexivity|]. split; [|done]. apply Inv_set_thread; [done|cbn; lia].
  - destruct (pick_ok i s I Hok) as (r & -> & _ & Hr). eexists. split; [reflexivity|]. split; [|done]. by apply Inv_set_thread.
  - cbn in Hok. destruct (lookup_lt_is_Some_2 _ _ Hok) as [x ->]. eexists. split; [reflexivity|]. cbn. rewrite length_insert. split; [|done].
    apply (Inv_set_thread t SetVersion (mkState (<[r:=v]> (objs s)) (current s) (count s) (version s) (threads s))); [|done].
    destruct I. split; cbn; rewrite ?length_insert; done.
  - eexists. split; [reflexivity|]. split; [|done].
    apply (Inv_set_thread t SetDone (mkState (objs s) (current s) (count s) (wrapU 64 (version s + 1)) (threads s))); [|done].
    by destruct I.
  - destruct (shard_index_ok h s I) as (i & -> & Hi). eexists. split; [reflexivity|]. split; [|done]. apply Inv_set_thread; [done|cbn; lia].
  - destruct (pick_ok i s I Hok) as (r & -> & _ & Hr). eexists. split; [reflexivity|]. split; [|done]. by apply Inv_set_thread.
  - cbn in Hok. destruct (lookup_lt_is_Some_2 _ _ Hok) as [x ->]. eexists. split; [reflexivity|]. split; [|done]. by apply Inv_set_thread.
Qed.

(** A resize keeps the current shards, or a prefix of them, and adds new objects. *)
Definition grows (s s' : state) : Prop :=
  (length (objs s) <= length (objs s'))%nat /\
  forall r, r ∈ current s' -> r ∈ current s \/ (length (objs s) <= r)%nat.

Lemma steps_scaleUp_ok s : Inv s -> count s < maxShards -> exists s', scaleUp s = Done s' /\ Inv s' /\ grows s s'.
Proof.
  intros I Hlt. pose proof I as [Hl Hc Hr Ht]. unfold scaleUp.
  set (n := if maxShards <? count s * 2 then maxShards else count s * 2).
  assert (count s < n <= maxShards) as Hn. { unfold n. destruct (Z.ltb_spec maxShards (count s * 2)); lia. }
  rewrite (proj2 (Z.eqb_neq _ _)), (proj2 (Z.ltb_ge _ _)) by lia.
  destruct (current s) as [|r0 rest] eqn:Ec; [cbn in Hl; lia|]. rewrite <- Ec in *.
  assert ((r0 < length (objs s))%nat) as H0. { rewrite Ec in Hr. by apply Forall_cons in Hr as [? _]. }
  destruct (lookup_lt_is_Some_2 _ _ H0) as [v0 ->].
  rewrite (take_ge (current s) (Z.to_nat n)) by lia. rewrite (take_ge (current s)) by lia.
  eexists. split; [reflexivity|]. split; [|split].
  - split; cbn; rewrite ?length_app, ?length_replicate, ?length_seq.
    + rewrite wrapS_id by (unfold in_s; lia). lia.
    + rewrite wrapS_id by (unfold in_s; lia). lia.
    + apply Forall_app. split.
      * eapply Forall_impl; [exact Hr|]. cbn. lia.
      * apply Forall_forall. intros r Hin. apply elem_of_seq in Hin. lia.
    + eapply Forall_impl; [exact Ht|]. intros th. apply steps_thread_ok_mono. lia.
  - cbn. rewrite length_app. lia.
  - cbn. intros r [?|Hin]%elem_of_app; [by left|right]. apply elem_of_seq in Hin. lia.
Qed.

Lemma steps_scaleDown_ok s : Inv s -> minShards < count s -> exists s', scaleDown s = Done s' /\ Inv s' /\ grows s s'.
Proof.
  intros I Hlt. pose proof I as [Hl Hc Hr Ht]. unfold scaleDown. rewrite Z.quot_div_nonneg by lia.
  assert (count s / 2 < count s) by (apply Z.div_lt; lia).
  set (n := if count s / 2 <? minShards then minShards else count s / 2).
  assert (minShards <= n < count s) as Hn. { unfold n. destruct (Z.ltb_spec (count s / 2) minShards); lia. }
  rewrite (proj2 (Z.eqb_neq _ _)), (proj2 (Z.ltb_ge n 0)), (proj2 (Z.ltb_ge _ n)) by lia. cbn [orb].
  eexists. split; [reflexivity|]. split; [|split].
  - split; cbn; rewrite ?wrapS_id by (unfold in_s; lia).
    + rewrite length_take. lia.
    + lia.
    + by apply Forall_take.
    + done.
  - done.
  - cbn. intros r Hin. left. by apply elem_of_take in Hin as (? & Hi%list_elem_of_lookup_2 & _).
Qed.

Lemma step_ok a s : Inv s -> match step a s with None => True | Some o => exists s', o = Done s' /\ Inv s' /\ grows s s' end.
Proof.
  intros I. pose proof I as [Hl Hc Hr Ht]. destruct a as [h v|h|t| |]; cbn [step].
  - eexists. split; [reflexivity|]. split; [split; cbn; try done; apply Forall_app; by split; [|constructor]|]. split; [done|]. by left.
  - eexists. split; [reflexivity|]. split; [split; cbn; try done; apply Forall_app; by split; [|constructor]|]. split; [done|]. by left.
  - destruct (threads s !! t) as [th|] eqn:E; [|done]. pose proof (advance_ok t th s I (Forall_lookup_1 _ _ _ _ Ht E)) as A.
    destruct (advance t th s) as [o|]; [|done]. destruct A as (s' & -> & ? & E1 & E2). exists s'. split_and!; try done.
    split; [lia|]. rewrite E1. by left.
  - destruct (Z.ltb_spec (count s) maxShards); [|done]. by apply steps_scaleUp_ok.
  - destruct (Z.ltb_spec minShards (count s)); [|done]. by apply steps_scaleDown_ok.
Qed.

Lemma run_ok acts : forall s, Inv s -> exists s', run acts s = Done s' /\ Inv s' /\ grows s s'.
Proof.
  induction acts as [|a acts IH]; intros s I; cbn [run].
  - exists s. split_and!; [done|done|]. split; [done|by left].
  - pose proof (step_ok a s I) as A. destruct (step a s) as [o|]; [|by apply IH].
    destruct A as (s1 & -> & I1 & [L1 G1]). destruct (IH s1 I1) as (s' & -> & I' & [L2 G2]). exists s'. split_and!; [done|done|].
    split; [lia|]. intros r Hr. destruct (G2 r Hr) as [Hr1|]; [|right; lia]. by apply G1.
Qed.

Lemma Inv_initial n v : 1 <= minShards -> minShards <= Z.of_nat n <= maxShards -> maxShards < 2 ^ 31 -> Inv (initial n v).
Proof.
  intros H1 H2 H3. split; cbn.
  - by rewrite length_seq.
  - done.
  - rewrite length_replicate. apply Forall_forall. intros r Hin. apply elem_of_seq in Hin. lia.
  - constructor.
Qed.
End Adaptive.

(** C21: Between positive limits below 2^31, and over a concrete type of values (so that
    [atomic.Value] never panics), no interleaving of reads, writes and resizes
    panics: the count and the shards agree whenever the lock is free, and an
    index computed before a resize is clamped after it. A shard that a resize
    has dropped never comes back, so a write that stores into it, having picked
    it before, is not seen by any read that picks its shard later: those pick
    only current shards. *)
Theorem adaptive_interleaved {T} minShards maxShards n (v : T) acts :
  1 <= minShards -> minShards <= Z.of_nat n <= maxShards -> maxShards < 2 ^ 31 ->
  exists s, run minShards maxShards acts (initial n v) = Done s /\
    Z.of_nat (length (current s)) = count s /\ minShards <= count s <= maxShards /\
    (forall i, 0 <= i -> exists r, pick i s = Done r /\ r ∈ current s) /\
    forall r, (r < length (objs s))%nat -> (r ∉ current s) -> forall acts' s',
      run minShards maxShards acts' s = Done s' -> r ∉ current s'.
Proof.
  intros H1 H2 H3. destruct (run_ok minShards maxShards acts (initial n v)) as (s & -> & I & _); [by apply Inv_initial|].
  exists s. split_and!; [done|apply I|apply I|apply I| |].
  - intros i Hi. destruct (pick_ok minShards maxShards i s I Hi) as (r & ? & ? & _). eauto.
  - intros r Hr Hn acts' s' E. destruct (run_ok minShards maxShards acts' s I) as (s1 & E1 & _ & [_ G]).
    rewrite E in E1. injection E1 as <-. intros Hin. destruct (G r Hin) as [|]; [done|lia].
Qed.

(** A table made with two shards has grown to four; a writer picks the last
    one, the table shrinks back, the write completes. *)
Definition lost_write : list (act (T := Z)) := [ScaleUp; Set_ 3 7; Run 0; Run 0; ScaleDown; Run 0; Run 0].
Lemma adaptive_interleaved_witness : exists s,
  run 2 128 lost_write (initial 2 0) = Done s /\ threads s = [SetDone] /\ objs s !! 3%nat = Some 7 /\ (3%nat ∉ current s) /\
  forall acts' s', run 2 128 acts' s = Done s' -> 3%nat ∉ current s'.
Proof.
  destruct (adaptive_interleaved 2 128 2 0 lost_write) as (s & E & _ & _ & _ & D); [lia|lia|lia|].
  exists s. split; [done|]. vm_compute in E. injection E as <-.
  assert (3%nat ∉ [0%nat; 1%nat]) as Hn by (intros Hin; repeat (apply elem_of_cons in Hin as [?|Hin]; [lia|]); by apply not_elem_of_nil in Hin).
  split_and!; [done|done|exact Hn|]. intros acts' s'. apply D; [cbn; lia|exact Hn].
Defined.

(** The write is complete and no key reads it. *)
Example write_is_lost :
  match run 2 128 (lost_write ++ [Get_ 3; Run 1; Run 1; Run 1; Get_ 0; Run 2; Run 2; Run 2]) (initial 2 0)
  with Done s => threads s | Panic => [] end = [SetDone; GetDone 0; GetDone 0].
Proof. vm_compute. reflexivity. Qed.
