(* ===== verification/ChannelSteps.v ===== *)
(** * Buffered channels under concurrency ([BufferedChannel] of [syncv2/vars/channel.go])

    Only [SetBufferSize] takes the lock; the other operations read the field
    [ch] and then use the Go channel they found there, which a resize may have
    closed and replaced in between. Go channels are objects on a heap, the field
    a reference. Over a channel of size 0 a sender and a receiver meet. [T] is
    a concrete type: with an interface type, [atomic.Value.Store] would panic on
    nil and on a change of the dynamic type, which the model has no values for.
    The sequential operations are in Channels. *)
From S2P Require Import Prelude Channels.
From Stdlib Require Import ZArith Lia.
From stdpp Require Import base tactics list list_tactics sorting.
Open Scope Z_scope.

Section Steps.
Context {T : Type} {inh : Inhabited T}.

(** A goroutine in one of the operations, by what it does next; [block] says
    whether the call waits. *)
Inductive thread : Type :=
  (* [Set]: [current], the version and the flag, then a send whose outcome is ignored *)
  | SetStore (v : T) | SetVersion (v : T)
  (* [Send] and [SendBlocking] *)
  | SendGuard (block : bool) (v : T)
  | SendLoad (block after : bool) (v : T)               (* reads [c.ch] *)
  | SendChan (block after : bool) (r : nat) (v : T)     (* the channel operation *)
  | SendStore (v : T) | SendVersion
  | SendDone (ok : bool)
  (* [Receive] and [ReceiveBlocking] *)
  | RecvLoad (block : bool) | RecvChan (block : bool) (r : nat) | RecvStore (v : T) | RecvDone (res : option T)
  (* [SetBufferSize]; [new] is the channel it has made *)
  | SizeLock (size : Z) | SizeClose (new : nat) | SizeDrain (old new : nat) | SizeMove (old new : nat) (v : T) | SizeDone (ok : bool)
  (* [Close] *)
  | CloseSwap | CloseChan | CloseDone.

(** For the record: the values put in a channel by senders, those received from
    one, and those a resize found no room for. *)
Record state : Type := mkState {
  objs : list (GoChan T); ch : nat; current : T; version : Z; dirty : bool; closed : bool; locked : bool;
  threads : list thread; sent : list T; received : list T; dropped : list T }.

Definition initial (bufferSize : Z) (initialValue : T) : outcome state :=
  c ← make_chan bufferSize; Done (mkState [c] 0 initialValue 1 false false false [] [] [] []).

Definition become (t : nat) (th : thread) (s : state) : state :=
  mkState (objs s) (ch s) (current s) (version s) (dirty s) (closed s) (locked s) (<[t := th]> (threads s)) (sent s) (received s) (dropped s).
Definition put (r : nat) (k : GoChan T) (s : state) : state :=
  mkState (<[r := k]> (objs s)) (ch s) (current s) (version s) (dirty s) (closed s) (locked s) (threads s) (sent s) (received s) (dropped s).
Definition store (v : T) (s : state) : state :=
  mkState (objs s) (ch s) v (version s) (dirty s) (closed s) (locked s) (threads s) (sent s) (received s) (dropped s).
Definition bump (s : state) : state :=
  mkState (objs s) (ch s) (current s) (wrapU 64 (version s + 1)) true (closed s) (locked s) (threads s) (sent s) (received s) (dropped s).
Definition lock (b : bool) (s : state) : state :=
  mkState (objs s) (ch s) (current s) (version s) (dirty s) (closed s) b (threads s) (sent s) (received s) (dropped s).
Definition record (vs rs ds : list T) (s : state) : state :=
  mkState (objs s) (ch s) (current s) (version s) (dirty s) (closed s) (locked s) (threads s) (sent s ++ vs) (received s ++ rs) (dropped s ++ ds).
Definition add_chan (k : GoChan T) (s : state) : state :=
  mkState (objs s ++ [k]) (ch s) (current s) (version s) (dirty s) (closed s) (locked s) (threads s) (sent s) (received s) (dropped s).
Definition set_ch (r : nat) (s : state) : state :=
  mkState (objs s) r (current s) (version s) (dirty s) (closed s) (locked s) (threads s) (sent s) (received s) (dropped s).
Definition set_closed (s : state) : state :=
  mkState (objs s) (ch s) (current s) (version s) (dirty s) true (locked s) (threads s) (sent s) (received s) (dropped s).

Definition done (s : state) : option (outcome state) := Some (Done s).

(** [Set], [Send], [SendBlocking]: the channel operation comes before the
    stores in the latter two ([after]). *)
Definition send_step (t : nat) (th : thread) (s : state) : option (outcome state) :=
  match th with
  | SetStore v => done (become t (SetVersion v) (store v s))
  | SetVersion v => done (become t (SendLoad false false v) (bump s))
  | SendGuard block v => done (become t (if closed s then SendDone false else SendLoad block true v) s)
  | SendLoad block after v => done (become t (SendChan block after (ch s) v) s)
  | SendChan block after r v =>
      k ← objs s !! r;
      match try_send v k with
      | Panic => Some Panic
      | Done (k, true) => done (become t (if (after : bool) then SendStore v else SendDone true) (put r k (record [v] [] [] s)))
      | Done (k, false) => if (block : bool) then None else done (become t (SendDone false) s)
      end
  | SendStore v => done (become t SendVersion (store v s))
  | SendVersion => done (become t (SendDone true) (bump s))
  | _ => None
  end.

(** A receive from a closed and empty channel gives the zero value, which was
    never sent. *)
Definition receive_step (t : nat) (th : thread) (s : state) : option (outcome state) :=
  match th with
  | RecvLoad block => done (become t (RecvChan block (ch s)) s)
  | RecvChan block r =>
      k ← objs s !! r;
      match try_recv inhabitant k with
      | (k', Some v) =>
          done (become t (RecvStore v) (put r k' (match chan_buf k with [] => s | _ => record [] [v] [] s end)))
      | (_, None) => if (block : bool) then None else done (become t (RecvDone None) s)
      end
  | RecvStore v => done (become t (RecvDone (Some v)) (store v s))
  | _ => None
  end.

(** [SetBufferSize]: the lock, the flag, the new channel; [close]; the drain
    loop, whose [break] only leaves the [select]; the field. *)
Definition resize_step (t : nat) (th : thread) (s : state) : option (outcome state) :=
  match th with
  | SizeLock size =>
      if locked s then None
      else if closed s then done (become t (SizeDone false) s)
      else Some (k ← make_chan size; Done (become t (SizeClose (length (objs s))) (lock true (add_chan k s))))
  | SizeClose new =>
      k ← objs s !! ch s; Some (k ← close_chan k; Done (become t (SizeDrain (ch s) new) (put (ch s) k s)))
  | SizeDrain old new =>
      k ← objs s !! old;
      match chan_buf k with
      | [] => done (become t (SizeDone true) (lock false (set_ch new s)))
      | v :: rest => done (become t (SizeMove old new v) (put old (mkChan rest (chan_cap k) (chan_closed k)) s))
      end
  | SizeMove old new v =>
      k ← objs s !! new;
      match try_send v k with
      | Panic => Some Panic
      | Done (k, true) => done (become t (SizeDrain old new) (put new k s))
      | Done (_, false) => done (become t (SizeDrain old new) (record [] [] [v] s))
      end
  | _ => None
  end.

(** [Close]: the swap of the flag, then the channel the field refers to. *)
Definition close_step (t : nat) (th : thread) (s : state) : option (outcome state) :=
  match th with
  | CloseSwap => done (if closed s then become t CloseDone s else become t CloseChan (set_closed s))
  | CloseChan => k ← objs s !! ch s; Some (k ← close_chan k; Done (become t CloseDone (put (ch s) k s)))
  | _ => None
  end.

Definition advance (t : nat) (th : thread) (s : state) : option (outcome state) :=
  match th with
  | SetStore _ | SetVersion _ | SendGuard _ _ | SendLoad _ _ _ | SendChan _ _ _ _ | SendStore _ | SendVersion => send_step t th s
  | RecvLoad _ | RecvChan _ _ | RecvStore _ => receive_step t th s
  | SizeLock _ | SizeClose _ | SizeDrain _ _ | SizeMove _ _ _ => resize_step t th s
  | CloseSwap | CloseChan => close_step t th s
  | SendDone _ | RecvDone _ | SizeDone _ | CloseDone => None
  end.

(** A channel without buffer: one of the two, or both, wait in a blocking
    call when the other comes, and the value goes from hand to hand. *)
Definition meet_step (t u : nat) (s : state) : option (outcome state) :=
  match threads s !! t, threads s !! u with
  | Some (SendChan block after r v), Some (RecvChan block' r') =>
      k ← objs s !! r;
      if bool_decide (r' = r /\ chan_cap k = 0 /\ chan_closed k = false) && ((block : bool) || block')
      then done (become u (RecvStore v) (become t (if (after : bool) then SendStore v else SendDone true) (record [v] [v] [] s)))
      else None
  | _, _ => None
  end.

Inductive act : Type :=
  | CallSet (v : T) | CallSend (block : bool) (v : T) | CallReceive (block : bool) | CallResize (size : Z) | CallClose
  | Run (t : nat)
  | Meet (t u : nat).      (* sender [t] and receiver [u] *)
Definition call (th : thread) (s : state) : state :=
  mkState (objs s) (ch s) (current s) (version s) (dirty s) (closed s) (locked s) (threads s ++ [th]) (sent s) (received s) (dropped s).
Definition step (a : act) (s : state) : option (outcome state) :=
  match a with
  | CallSet v => done (call (SetStore v) s)
  | CallSend block v => done (call (SendGuard block v) s)
  | CallReceive block => done (call (RecvLoad block) s)
  | CallResize size => done (call (SizeLock size) s)
  | CallClose => done (call CloseSwap s)
  | Run t => th ← threads s !! t; advance t th s
  | Meet t u => meet_step t u s
  end.
(** A step that cannot be taken is skipped. *)
Fixpoint run (acts : list act) (s : state) : outcome state :=
  match acts with
  | [] => Done s
  | a :: acts => match step a s with None => run acts s | Some Panic => Panic | Some (Done s) => run acts s end
  end.
End Steps.
Arguments state : clear implicits.
Arguments thread : clear implicits.

Section Facts.
Context {T : Type} {inh : Inhabited T}.
Implicit Types s : state T.

(** ** Accounting *)
Definition in_hand (th : thread T) : list T := match th with SizeMove _ _ v => [v] | _ => [] end.
Definition refs (th : thread T) : list nat :=
  match th with SendChan _ _ r _ | RecvChan _ r | SizeClose r => [r] | SizeDrain r1 r2 | SizeMove r1 r2 _ => [r1; r2] | _ => [] end.
Definition held (s : state T) : list T := mjoin (chan_buf <$> objs s) ++ mjoin (in_hand <$> threads s).

Record Inv s : Prop := {
  inv_accounts : sent s ≡ₚ received s ++ dropped s ++ held s;
  inv_fits : Forall (fun k => Z.of_nat (length (chan_buf k)) <= chan_cap k) (objs s);
  inv_ch : (ch s < length (objs s))%nat;
  inv_refs : Forall (fun th => Forall (fun r => (r < length (objs s))%nat) (refs th)) (threads s)
}.

Lemma balance {A} (sn vs rcv rs dr ds B B' H H' b b' h h' : list A) :
  sn ≡ₚ rcv ++ dr ++ B ++ H -> b ++ B' ≡ₚ b' ++ B -> h ++ H' ≡ₚ h' ++ H -> h ++ b ++ vs ≡ₚ h' ++ b' ++ rs ++ ds ->
  sn ++ vs ≡ₚ (rcv ++ rs) ++ (dr ++ ds) ++ B' ++ H'.
Proof.
  intros Hs P1 P2 Hb. apply (Permutation_app_inv_l (h ++ b)).
  transitivity ((h ++ b ++ vs) ++ sn); [solve_Permutation|]. rewrite Hb, Hs.
  transitivity ((rcv ++ rs) ++ (dr ++ ds) ++ (b ++ B') ++ (h ++ H')); [|solve_Permutation].
  rewrite P1, P2. solve_Permutation.
Qed.

Lemma refs_mono (n m : nat) (l : list nat) : (n <= m)%nat -> Forall (fun r => (r < n)%nat) l -> Forall (fun r => (r < m)%nat) l.
Proof. intros Hle H. eapply Forall_impl; [exact H|]. cbn. lia. Qed.

(** A step that changes one channel and its own goroutine. *)
Lemma Inv_move t th0 th r k k' vs rs ds s : Inv s -> threads s !! t = Some th0 -> objs s !! r = Some k ->
  in_hand th0 ++ chan_buf k ++ vs ≡ₚ in_hand th ++ chan_buf k' ++ rs ++ ds ->
  Z.of_nat (length (chan_buf k')) <= chan_cap k' -> Forall (fun r => (r < length (objs s))%nat) (refs th) ->
  Inv (become t th (put r k' (record vs rs ds s))).
Proof.
  intros [H1 H2 H3 H4] Ht Hk Hb Hf Hr. split; cbn.
  - unfold held in *. cbn. eapply balance; [exact H1|by apply mjoin_insert|by apply mjoin_insert|done].
  - by apply Forall_insert.
  - by rewrite length_insert.
  - rewrite length_insert. by apply Forall_insert.
Qed.
Lemma Inv_own t th0 th s : Inv s -> threads s !! t = Some th0 -> in_hand th = in_hand th0 ->
  Forall (fun r => (r < length (objs s))%nat) (refs th) -> Inv (become t th s).
Proof.
  intros [H1 H2 H3 H4] Ht Hh Hr. split; cbn; try done; [|by apply Forall_insert].
  rewrite H1. unfold held. cbn. do 3 f_equiv. pose proof (mjoin_insert in_hand (threads s) t th0 th Ht) as P.
  rewrite Hh in P. by apply Permutation_app_inv_l in P.
Qed.
Lemma Inv_call th s : Inv s -> in_hand th = [] -> refs th = [] -> Inv (call th s).
Proof.
  intros [H1 H2 H3 H4] Hh Hr. split; cbn; try done.
  - unfold held. cbn. rewrite mjoin_snoc, Hh, app_nil_r. done.
  - apply Forall_app. split; [done|]. constructor; [rewrite Hr|]; constructor.
Qed.
Lemma Inv_add n s : Inv s -> 0 <= n -> Inv (add_chan (mkChan [] n false) s).
Proof.
  intros [H1 H2 H3 H4] Hn. split; cbn.
  - unfold held. cbn. rewrite mjoin_snoc. cbn. by rewrite app_nil_r.
  - apply Forall_app. split; [done|]. by constructor.
  - rewrite length_app. lia.
  - eapply Forall_impl; [exact H4|]. intros th. apply refs_mono. rewrite length_app. lia.
Qed.
(** The fields the invariant does not mention. *)
Lemma Inv_fields s c v d cl lk : Inv s ->
  Inv (mkState (objs s) (ch s) c v d cl lk (threads s) (sent s) (received s) (dropped s)).
Proof. by intros [? ? ? ?]. Qed.
Lemma Inv_refs t th s : Inv s -> threads s !! t = Some th -> Forall (fun r => (r < length (objs s))%nat) (refs th).
Proof. intros I Ht. exact (Forall_lookup_1 _ _ _ _ (inv_refs _ I) Ht). Qed.
Lemma record_nil s : record [] [] [] s = s.
Proof. destruct s. unfold record. cbn. by rewrite !app_nil_r. Qed.
Lemma Inv_fit r k s : Inv s -> objs s !! r = Some k -> Z.of_nat (length (chan_buf k)) <= chan_cap k.
Proof. intros I Hk. exact (Forall_lookup_1 _ _ _ _ (inv_fits _ I) Hk). Qed.

Definition fine (o : option (outcome (state T))) : Prop := match o with Some (Done s) => Inv s | _ => True end.

Lemma send_step_ok t th s : Inv s -> threads s !! t = Some th -> fine (send_step t th s).
Proof.
  intros I Ht. pose proof (Inv_refs t th s I Ht) as Hr. destruct th; try done; cbn [send_step].
  - apply (Inv_fields (become t (SetVersion v) s)). by eapply Inv_own.
  - apply (Inv_fields (become t (SendLoad false false v) s)). by eapply Inv_own.
  - cbn. destruct (closed s); by eapply Inv_own.
  - eapply Inv_own; try done. cbn. constructor; [apply I|constructor].
  - destruct (objs s !! r) as [k|] eqn:Hk; [|done]. cbn. unfold try_send. destruct (chan_closed k); [done|].
    destruct (Z.ltb_spec (Z.of_nat (length (chan_buf k))) (chan_cap k)).
    + cbn. eapply (Inv_move t _ _ r k _ [v] [] []); try done.
      * destruct after; cbn; by rewrite app_nil_r.
      * cbn. rewrite length_app. cbn. lia.
      * destruct after; constructor.
    + destruct block; cbn; [done|]. by eapply Inv_own.
  - apply (Inv_fields (become t SendVersion s)). by eapply Inv_own.
  - apply (Inv_fields (become t (SendDone true) s)). by eapply Inv_own.
Qed.

Lemma receive_step_ok t th s : Inv s -> threads s !! t = Some th -> fine (receive_step t th s).
Proof.
  intros I Ht. pose proof (Inv_refs t th s I Ht) as Hr. destruct th; try done; cbn [receive_step].
  - eapply Inv_own; try done. cbn. constructor; [apply I|constructor].
  - destruct (objs s !! r) as [k|] eqn:Hk; [|done]. cbn. pose proof (Inv_fit r k s I Hk) as Hf. unfold try_recv.
    destruct (chan_buf k) as [|v rest] eqn:Eb; cbn.
    + destruct (chan_closed k); cbn.
      * rewrite <- (record_nil s). eapply (Inv_move t _ _ r k); try done. by rewrite Eb.
      * destruct block; cbn; [done|]. by eapply Inv_own.
    + eapply (Inv_move t _ _ r k _ [] [v] []); try done.
      * rewrite Eb. cbn. by rewrite !app_nil_r, <- Permutation_cons_append.
      * cbn in *. lia.
  - apply (Inv_fields (become t (RecvDone (Some v)) s)). by eapply Inv_own.
Qed.

Lemma resize_step_ok t th s : Inv s -> threads s !! t = Some th -> fine (resize_step t th s).
Proof.
  intros I Ht. pose proof (Inv_refs t th s I Ht) as Hr. destruct th; try done; cbn [resize_step].
  - destruct (locked s); [done|]. destruct (closed s); [by eapply Inv_own|]. unfold make_chan.
    destruct (Z.ltb_spec size 0); [done|]. cbn. pose proof (Inv_add size s I H) as I1.
    apply (Inv_fields (become t (SizeClose (length (objs s))) (add_chan (mkChan [] size false) s))).
    eapply Inv_own; try done. cbn. constructor; [|constructor]. rewrite length_app. cbn. lia.
  - destruct (objs s !! ch s) as [k|] eqn:Hk; [|done]. cbn. unfold close_chan. destruct (chan_closed k); [done|]. cbn.
    rewrite <- (record_nil s). eapply (Inv_move t _ _ (ch s) k); try done; [exact (Inv_fit (ch s) k s I Hk)|].
    cbn in Hr |- *. constructor; [apply I|done].
  - destruct (objs s !! old) as [k|] eqn:Hk; [|done]. cbn. pose proof (Inv_fit old k s I Hk) as Hf.
    apply Forall_cons in Hr as [Ho Hn]. apply Forall_cons in Hn as [Hn _]. destruct (chan_buf k) as [|v rest] eqn:Eb; cbn.
    + assert (Inv (become t (SizeDone true) s)) as [J1 J2 J3 J4] by by eapply Inv_own. by split.
    + rewrite <- (record_nil s). eapply (Inv_move t _ _ old k); try done.
      * rewrite Eb. cbn. by rewrite !app_nil_r.
      * cbn in *. lia.
      * cbn. by repeat constructor.
  - destruct (objs s !! new) as [k|] eqn:Hk; [|done]. cbn. unfold try_send. destruct (chan_closed k); [done|].
    apply Forall_cons in Hr as [Ho Hn]. apply Forall_cons in Hn as [Hn _].
    destruct (Z.ltb_spec (Z.of_nat (length (chan_buf k))) (chan_cap k)); cbn.
    + rewrite <- (record_nil s). eapply (Inv_move t _ _ new k); try done.
      * cbn. by rewrite !app_nil_r, <- Permutation_cons_append.
      * cbn. rewrite length_app. cbn. lia.
      * cbn. by repeat constructor.
    + pose proof (Inv_move t _ (SizeDrain old new) new k k [] [] [v] s I Ht Hk) as J. cbn in J.
      unfold put in J. cbn in J. rewrite list_insert_id in J by done. apply J.
      * by rewrite app_nil_r, <- Permutation_cons_append.
      * by eapply Inv_fit.
      * by repeat constructor.
Qed.

Lemma close_step_ok t th s : Inv s -> threads s !! t = Some th -> fine (close_step t th s).
Proof.
  intros I Ht. destruct th; try done; cbn [close_step].
  - cbn. destruct (closed s); [by eapply Inv_own|]. apply (Inv_fields (become t CloseChan s)). by eapply Inv_own.
  - destruct (objs s !! ch s) as [k|] eqn:Hk; [|done]. cbn. unfold close_chan. destruct (chan_closed k); [done|]. cbn.
    rewrite <- (record_nil s). eapply (Inv_move t _ _ (ch s) k); try done; exact (Inv_fit (ch s) k s I Hk).
Qed.

Lemma Inv_exchange v s : Inv s -> Inv (record [v] [v] [] s).
Proof. intros [H1 H2 H3 H4]. split; try done. unfold held. cbn. rewrite H1. unfold held. solve_Permutation. Qed.
Lemma meet_step_ok t u s : Inv s -> fine (meet_step t u s).
Proof.
  intros I. unfold meet_step. destruct (threads s !! t) as [[]|] eqn:Ht; try done. destruct (threads s !! u) as [[]|] eqn:Hu; try done.
  destruct (objs s !! r) as [k|]; [|done]. cbn. destruct (_ && _); [|done]. apply (Inv_exchange v) in I.
  assert (t <> u) as Hne by congruence. assert (Inv (become t (if after then SendStore v else SendDone true) (record [v] [v] [] s))) as I'.
  { eapply Inv_own; [done|exact Ht|by destruct after|destruct after; constructor]. }
  eapply Inv_own; [exact I'|cbn; by rewrite list_lookup_insert_ne|done|constructor].
Qed.

Lemma chan_step_ok a s : Inv s -> fine (step a s).
Proof.
  intros I. destruct a as [v|b v|b|n| |t|t u]; cbn [step]; try by apply Inv_call. 2: by apply meet_step_ok.
  destruct (threads s !! t) as [th|] eqn:Ht; [|done]. cbn.
  destruct th; try done; by first [apply send_step_ok|apply receive_step_ok|apply resize_step_ok|apply close_step_ok].
Qed.
Lemma chan_run_ok acts : forall s s', Inv s -> run acts s = Done s' -> Inv s'.
Proof.
  induction acts as [|a acts IH]; intros s s' I; cbn [run]; [by intros [= <-]|].
  pose proof (chan_step_ok a s I) as F. destruct (step a s) as [[s1|]|]; [by apply IH|done|by apply IH].
Qed.
Lemma Inv_chan_initial n v s : initial n v = Done s -> Inv s.
Proof.
  unfold initial, make_chan. destruct (Z.ltb_spec n 0); [done|]. intros [= <-]. split; cbn; try done; [by constructor|lia].
Qed.
End Facts.

Section Theorems.
Context {T : Type} {inh : Inhabited T}.
Implicit Types s : state T.

(** However sends, receives, resizes and the closing of a buffered channel
    interleave, every value a sender put in is received by one receiver, or was
    dropped by a resize that found no room, or is still in a channel or in the
    hand of a resize; no channel holds more than its size; and the field always
    refers to a channel. *)
Theorem channel_accounts bufferSize (v : T) acts s0 s : initial bufferSize v = Done s0 -> run acts s0 = Done s ->
  sent s ≡ₚ received s ++ dropped s ++ held s /\
  Forall (fun k => Z.of_nat (length (chan_buf k)) <= chan_cap k) (objs s) /\
  exists k, objs s !! ch s = Some k.
Proof.
  intros H0 Hr. pose proof (chan_run_ok acts s0 s (Inv_chan_initial _ _ _ H0) Hr) as I.
  split_and!; [apply I|apply I|]. apply lookup_lt_is_Some, I.
Qed.

(** ** Senders and receivers alone *)
Definition plain_act (a : act (T := T)) : bool := match a with CallResize _ | CallClose => false | _ => true end.
Definition plain (th : thread T) : Prop :=
  match th with
  | SendChan _ _ r _ | RecvChan _ r => r = 0%nat
  | SizeLock _ | SizeClose _ | SizeDrain _ _ | SizeMove _ _ _ | SizeDone _ | CloseSwap | CloseChan | CloseDone => False
  | _ => True
  end.
Record Fifo (n : Z) s : Prop := {
  fifo_objs : exists buf, objs s = [mkChan buf n false] /\ sent s = received s ++ buf /\ Z.of_nat (length buf) <= n;
  fifo_state : ch s = 0%nat /\ closed s = false /\ dropped s = [];
  fifo_threads : Forall plain (threads s)
}.

Lemma Fifo_own n t th s c v d : Fifo n s -> plain th ->
  Fifo n (mkState (objs s) (ch s) c v d (closed s) (locked s) (<[t := th]> (threads s)) (sent s) (received s) (dropped s)).
Proof. intros [? ? ?] Hp. split; cbn; try done. by apply Forall_insert. Qed.

Lemma Fifo_advance n t th s : Fifo n s -> plain th ->
  match advance t th s with None => True | Some Panic => False | Some (Done s') => Fifo n s' end.
Proof.
  intros F Hp. pose proof F as [(buf & Ho & Hs & Hl) (Hch & Hcl & Hd) Ht].
  destruct th; try done; cbn [advance send_step receive_step]; try (cbn; rewrite ?Hcl; by apply (Fifo_own n t _ s _ _ _ F)).
  - cbn in Hp. subst r. rewrite Ho. cbn. destruct (Z.ltb_spec (Z.of_nat (length buf)) n).
    + split; cbn; rewrite ?app_nil_r; [|done|].
      * rewrite Ho. exists (buf ++ [v]). split_and!; [done|by rewrite Hs, app_assoc|]. rewrite length_app. cbn. lia.
      * apply Forall_insert; [done|]. by destruct after.
    + destruct block; [done|]. by apply (Fifo_own n t _ s _ _ _ F).
  - cbn in Hp. subst r. rewrite Ho. cbn. destruct buf as [|v rest]; cbn.
    + destruct block; [done|]. by apply (Fifo_own n t _ s _ _ _ F).
    + split; cbn; rewrite ?app_nil_r.
      * rewrite Ho. exists rest. split_and!; [done|by rewrite Hs, <- app_assoc|]. cbn in Hl. lia.
      * done.
      * by apply Forall_insert.
Qed.

Lemma Fifo_meet n t u s : Fifo n s ->
  match meet_step t u s with None => True | Some Panic => False | Some (Done s') => Fifo n s' end.
Proof.
  intros F. pose proof F as [(buf & Ho & Hs & Hl) (Hch & Hcl & Hd) Ht]. unfold meet_step.
  destruct (threads s !! t) as [[]|] eqn:E; try done. destruct (threads s !! u) as [[]|] eqn:E'; try done.
  destruct (objs s !! r) as [k|] eqn:Ek; [|done]. cbn. case_bool_decide as Hd'; [|done]. destruct Hd' as (-> & Hc & _). cbn. destruct (block || block0); [|done].
  rewrite Ho in Ek. destruct r; [|done]. injection Ek as <-. cbn in Hc. subst n. assert (buf = []) as -> by (destruct buf; [done|cbn in Hl; lia]).
  split; cbn; [|by rewrite app_nil_r|].
  - exists []. split_and!; [done|by rewrite Hs, !app_nil_r|done].
  - repeat apply Forall_insert; try done. by destruct after.
Qed.


Lemma run_step a acts s s' : step a s = Some (Done s') -> run (a :: acts) s = run acts s'.
Proof. intros E. cbn [run]. by rewrite E. Qed.
Lemma step_thread t th s : threads s !! t = Some th -> step (Run t) s = advance t th s.
Proof. intros E. cbn [step]. by rewrite E. Qed.

(** A resize, up to the closing of the old channel. *)
Lemma resize_closes size k s :
  objs s !! ch s = Some k -> chan_closed k = false -> closed s = false -> locked s = false -> 0 <= size ->
  exists s', (forall acts, run (CallResize size :: Run (length (threads s)) :: Run (length (threads s)) :: acts) s = run acts s') /\
    threads s' = threads s ++ [SizeDrain (ch s) (length (objs s))] /\
    objs s' !! ch s = Some (mkChan (chan_buf k) (chan_cap k) true) /\ received s' = received s.
Proof.
  intros Hk Hkc Hcl Hlk Hsz. set (z := length (threads s)).
  assert (ch s < length (objs s))%nat as Hlt by by eapply lookup_lt_Some.
  assert (forall th (l : list (thread T)), l = threads s ++ [th] -> l !! z = Some th) as Hz.
  { intros th l ->. unfold z. by rewrite lookup_app_r, Nat.sub_diag. }
  assert (forall th0 th, <[z := th]> (threads s ++ [th0]) = threads s ++ [th]) as Hi.
  { intros th0 th. unfold z. by rewrite insert_app_r_alt, Nat.sub_diag by lia. }
  set (s1 := call (SizeLock size) s). set (s2 := become z (SizeClose (length (objs s))) (lock true (add_chan (mkChan [] size false) s1))).
  set (s3 := become z (SizeDrain (ch s) (length (objs s))) (put (ch s) (mkChan (chan_buf k) (chan_cap k) true) s2)).
  assert (step (Run z) s1 = Some (Done s2)) as E2.
  { rewrite (step_thread z (SizeLock size)) by by apply Hz. cbn [advance resize_step]. change (locked s1) with (locked s). change (closed s1) with (closed s).
    rewrite Hlk, Hcl. unfold make_chan. by rewrite (proj2 (Z.ltb_ge size 0)). }
  assert (step (Run z) s2 = Some (Done s3)) as E3.
  { rewrite (step_thread z (SizeClose (length (objs s)))) by (apply Hz, Hi). cbn [advance resize_step].
    change (objs s2) with (objs s ++ [mkChan [] size false]). change (ch s2) with (ch s). rewrite lookup_app_l, Hk by done.
    cbn [mbind option_bind]. unfold close_chan. by rewrite Hkc. }
  exists s3. split_and!; try done.
  - intros acts. fold z. rewrite (run_step _ _ s s1) by done. rewrite (run_step _ _ s1 s2), (run_step _ _ s2 s3) by done. done.
  - change (threads s3) with (<[z := SizeDrain (ch s) (length (objs s))]> (threads s2)).
    change (threads s2) with (<[z := SizeClose (length (objs s)) : thread T]> (threads s ++ [SizeLock size])). by rewrite !Hi.
  - change (objs s3) with (<[ch s := mkChan (chan_buf k) (chan_cap k) true]> (objs s ++ [mkChan [] size false])).
    rewrite list_lookup_insert_eq; [done|]. rewrite length_app. lia.
Qed.

(** A resize closes the channel under those who wait on it: while a sender has
    the current channel in hand, a resize to any size makes its send panic; and
    a receiver waiting on the empty channel returns the zero value, which
    nobody sent. *)
Theorem resize_disturbs t b a v r size k s :
  threads s !! t = Some (SendChan b a (ch s) v) -> threads s !! r = Some (RecvChan true (ch s)) ->
  objs s !! ch s = Some k -> chan_closed k = false -> closed s = false -> locked s = false -> 0 <= size ->
  let z := length (threads s) in
  run [CallResize size; Run z; Run z; Run t] s = Panic /\
  (chan_buf k = [] -> exists s', run [CallResize size; Run z; Run z; Run r; Run r] s = Done s' /\
     threads s' !! r = Some (RecvDone (Some inhabitant)) /\ received s' = received s).
Proof.
  intros Ht Hr Hk Hkc Hcl Hlk Hsz z. destruct (resize_closes size k s Hk Hkc Hcl Hlk Hsz) as (s' & Hrun & Et & Eo & Er).
  apply (lookup_app_l_Some _ [SizeDrain (ch s) (length (objs s))]) in Ht, Hr. rewrite <- Et in Ht, Hr. subst z. split.
  - rewrite (Hrun [Run t]). cbn [run]. rewrite (step_thread t _ s' Ht). cbn [advance send_step]. by rewrite Eo.
  - intros Hb. rewrite (Hrun [Run r; Run r]). pose proof (lookup_lt_Some _ _ _ Hr) as Hlt.
    set (s1 := become r (RecvStore inhabitant) (put (ch s) (mkChan [] (chan_cap k) true) s')).
    rewrite (run_step _ _ s' s1); [|rewrite (step_thread r _ s' Hr); cbn [advance receive_step]; by rewrite Eo, Hb].
    assert (threads s1 !! r = Some (RecvStore inhabitant)) as E1 by by apply list_lookup_insert_eq.
    rewrite (run_step _ _ s1 (become r (RecvDone (Some inhabitant)) (store inhabitant s1))); [|by rewrite (step_thread r _ s1 E1)].
    eexists. split; [reflexivity|]. split; [|exact Er]. apply list_lookup_insert_eq. cbn. by rewrite length_insert.
Qed.
End Theorems.

(** ** Instances *)
#[local] Instance zero_int : Inhabited Z := populate 0.

(** Two values are sent, one received; the channel shrinks to nothing. *)
Definition sends_and_shrinks : list (act (T := Z)) :=
  [CallSend false 7; Run 0; Run 0; Run 0; CallSend true 8; Run 1; Run 1; Run 1; CallReceive true; Run 2; Run 2;
   CallResize 0; Run 3; Run 3; Run 3; Run 3; Run 3].
Definition chan_of (n : Z) : state Z := mkState [mkChan [] n false] 0 0 1 false false false [] [] [] [].

Lemma channel_accounts_witness : exists s, run sends_and_shrinks (chan_of 2) = Done s /\ sent s = [7; 8] /\
  received s = [7] /\ dropped s = [8] /\ held s = [] /\ sent s ≡ₚ received s ++ dropped s ++ held s.
Proof.
  destruct (run sends_and_shrinks (chan_of 2)) as [s|] eqn:E; [|by vm_compute in E].
  destruct (channel_accounts 2 0 sends_and_shrinks (chan_of 2) s eq_refl E) as [H _].
  exists s. split; [done|]. vm_compute in E. injection E as <-. exact (conj eq_refl (conj eq_refl (conj eq_refl (conj eq_refl H)))).
Defined.


(** A sender and a receiver have the channel in hand. *)
Definition both_wait : state Z := mkState [mkChan [] 1 false] 0 0 1 false false false [SendChan true true 0 7; RecvChan true 0] [] [] [].
Lemma resize_disturbs_witness : run [CallResize 5; Run 2; Run 2; Run 0] both_wait = Panic /\
  exists s', run [CallResize 5; Run 2; Run 2; Run 1; Run 1] both_wait = Done s' /\ threads s' !! 1%nat = Some (RecvDone (Some 0)).
Proof.
  destruct (resize_disturbs 0 true true 7 1 5 (mkChan [] 1 false) both_wait) as [H1 H2]; [reflexivity..|lia|].
  split; [exact H1|]. destruct (H2 eq_refl) as (s' & E & Ht & _). exists s'. split; [exact E|exact Ht].
Defined.
