(* ===== verification/BroadcastSteps.v ===== *)
(** * Broadcast channels under concurrency ([BroadcastChannel] of [syncv2/vars/channel.go])

    A send holds the read lock while it goes through the subscribers;
    subscribing, unsubscribing, resizing and closing hold the write lock for
    their whole body, and are one step each. From 1000 subscribers on [Send]
    makes one goroutine per batch, each of which goes through all subscribers.
    A subscription of size 0 has no buffer: a value goes from the hand of a
    sender to a receiver that waits. The sequential operations are in Channels. *)
From S2P Require Import Prelude Channels.
From Stdlib Require Import ZArith Lia.
From stdpp Require Import base tactics list sorting gmap.
Import Broadcast.
Open Scope Z_scope.

(** What a goroutine does under the write lock. *)
Inductive locked_op : Type := OpSubscribe (sub : nat) | OpUnsubscribe (sub : nat) | OpSetBufferSize (size : Z) | OpClose.

Section Steps.
Context {T : Type} {inh : Inhabited T}.

(** A goroutine, by what it does next; [block] tells [SendBlocking] from
    [Send]. A send carries the subscribers in the order of its [range] and those
    it has yet to come to; a [Send] in batches carries, for each of the
    goroutines it waits for, the subscribers that goroutine has yet to come to,
    [None] before its [range]. *)
Inductive thread : Type :=
  | BGuard (block : bool) (v : T) | BLock (block : bool) (v : T) | BStore (block : bool) (v : T)
  | BPush (block : bool) (v : T) (order todo : list nat) | BBatch (v : T) (passes : list (option (list nat))) | BDone
  | WSwap | WLock (op : locked_op) | WDone.

(** [readers] counts the holders of the read lock. For the record, [pushed]
    and [got] are what was put in the channel of each subscription and what was
    received from it. *)
Record state : Type := mkState {
  chan : BroadcastChannel T; readers : Z; threads : list thread; pushed : gmap nat (list T); got : gmap nat (list T) }.
Definition start (c : BroadcastChannel T) : state := mkState c 0 [] ∅ ∅.

Definition become (t : nat) (th : thread) (s : state) : state :=
  mkState (chan s) (readers s) (<[t := th]> (threads s)) (pushed s) (got s).
Definition with_chan (c : BroadcastChannel T) (n : Z) (s : state) : state := mkState c n (threads s) (pushed s) (got s).
Definition note (x : nat) (v : T) (m : gmap nat (list T)) : gmap nat (list T) := <[x := default [] (m !! x) ++ [v]]> m.

(** The body of [Close], after the flag. *)
Definition close_locked (c : BroadcastChannel T) : outcome (BroadcastChannel T) :=
  cs ← close_all (elements (subs c)) (chans c); Done (mkBr None cs (current c) (version c) (dirty c) (closed c) (bufferSize c)).
Definition locked (op : locked_op) (c : BroadcastChannel T) : outcome (BroadcastChannel T) :=
  match op with
  | OpSubscribe sub => Subscribe sub c
  | OpUnsubscribe sub => Unsubscribe sub c
  | OpSetBufferSize size => Done (SetBufferSize size c).1
  | OpClose => close_locked c
  end.

(** One value for one subscriber, and whether it was taken. [waiting] is a
    subscriber that waits in a receive: over a channel without buffer, such a
    receive and a send meet. *)
Definition offer (waiting : option nat) (x : nat) (v : T) (s : state) : option (outcome (state * bool)) :=
  let c := chan s in
  k ← chans c !! x;
  Some (if decide (waiting = Some x /\ chan_cap k = 0 /\ chan_closed k = false)
        then Done (mkState c (readers s) (threads s) (note x v (pushed s)) (note x v (got s)), true)
        else '(k, ok) ← try_send v k;
             Done (if ok : bool then (mkState (set_subs (subscribers c) (<[x := k]> (chans c)) c) (readers s) (threads s)
                                        (note x v (pushed s)) (got s), true)
                   else (s, false))).

(** [order] is used by the step that starts the [range]: the subscribers in
    some order. A new subscription has an address of its own. *)
Definition advance (t : nat) (waiting : option nat) (order : list nat) (th : thread) (s : state) : option (outcome state) :=
  let c := chan s in
  match th with
  | BGuard block v => Some (Done (become t (if closed c then BDone else BLock block v) s))
  | BLock block v => Some (Done (become t (BStore block v) (with_chan c (readers s + 1) s)))
  | BStore block v =>
      if negb block && (1000 <=? Z.of_nat (size (subs c)))
      then Some (Done (become t (BBatch v (replicate (batch_count (size (subs c))) None)) (with_chan (touch v c) (readers s) s)))
      else if decide (order ≡ₚ elements (subs c)) then Some (Done (become t (BPush block v order order) (with_chan (touch v c) (readers s) s)))
      else None
  | BPush block v order [] => Some (Done (become t BDone (with_chan c (readers s - 1) s)))
  | BPush block v order (x :: todo) =>
      r ← offer waiting x v s;
      match r with
      | Panic => Some Panic
      | Done (s, ok) => if (block : bool) && negb ok then None else Some (Done (become t (BPush block v order todo) s))
      end
  | BBatch v passes =>                       (* [wg.Wait] *)
      if decide (Forall (fun p => p = Some []) passes) then Some (Done (become t BDone (with_chan c (readers s - 1) s))) else None
  | WSwap =>
      Some (Done (if closed c then become t WDone s
                  else become t (WLock OpClose) (with_chan (mkBr (subscribers c) (chans c) (current c) (version c) (dirty c) true (bufferSize c)) (readers s) s)))
  | WLock op =>
      if readers s =? 0 then
        match op with
        | OpSubscribe sub => if decide (sub ∈ dom (chans c)) then None else Some (c ← locked op c; Done (become t WDone (with_chan c (readers s) s)))
        | _ => Some (c ← locked op c; Done (become t WDone (with_chan c (readers s) s)))
        end
      else None
  | BDone | WDone => None
  end.
(** A step of the goroutine of batch [i] of send [t]. *)
Definition advance_pass (t i : nat) (waiting : option nat) (order : list nat) (th : thread) (s : state) : option (outcome state) :=
  match th with
  | BBatch v passes =>
      p ← passes !! i;
      match p with
      | None => if decide (order ≡ₚ elements (subs (chan s))) then Some (Done (become t (BBatch v (<[i := Some order]> passes)) s)) else None
      | Some [] => None
      | Some (x :: todo) =>
          r ← offer waiting x v s;
          Some ('(s, _) ← r; Done (become t (BBatch v (<[i := Some todo]> passes)) s))
      end
  | _ => None
  end.

Inductive act : Type :=
  | CallSend (block : bool) (v : T) | CallLocked (op : locked_op) | CallClose
  | Recv (x : nat)                                   (* a subscriber takes a value of its buffer *)
  | Run (t : nat) (waiting : option nat) (order : list nat)
  | RunPass (t i : nat) (waiting : option nat) (order : list nat).
Definition call (th : thread) (s : state) : state := mkState (chan s) (readers s) (threads s ++ [th]) (pushed s) (got s).
Definition step (a : act) (s : state) : option (outcome state) :=
  match a with
  | CallSend block v => Some (Done (call (BGuard block v) s))
  | CallLocked OpClose | CallClose => Some (Done (call WSwap s))
  | CallLocked op => Some (Done (call (WLock op) s))
  | Recv x =>
      k ← chans (chan s) !! x;
      match chan_buf k with
      | [] => None
      | v :: rest =>
          Some (Done (mkState (set_subs (subscribers (chan s)) (<[x := mkChan rest (chan_cap k) (chan_closed k)]> (chans (chan s))) (chan s))
            (readers s) (threads s) (pushed s) (note x v (got s))))
      end
  | Run t w order => th ← threads s !! t; advance t w order th s
  | RunPass t i w order => th ← threads s !! t; advance_pass t i w order th s
  end.
(** A step that cannot be taken is skipped. *)
Fixpoint run (acts : list act) (s : state) : outcome state :=
  match acts with
  | [] => Done s
  | a :: acts => match step a s with None => run acts s | Some Panic => Panic | Some (Done s) => run acts s end
  end.
End Steps.
Arguments state : clear implicits.
Arguments thread : clear implicits.
Arguments act : clear implicits.

Section Facts.
Context {T : Type} {inh : Inhabited T}.
Implicit Types s : state T.

(** ** The invariant *)
Definition holds (th : thread T) : bool := match th with BStore _ _ | BPush _ _ _ _ | BBatch _ _ => true | _ => false end.
Definition given (x : nat) (m : gmap nat (list T)) : list T := default [] (m !! x).
(** A send goes through the subscribers; one that waits has given its value to
    all it has passed. *)
Definition push_ok (c : BroadcastChannel T) (m : gmap nat (list T)) (th : thread T) : Prop :=
  match th with
  | BPush block v order todo => order ≡ₚ elements (subs c) /\
      exists pre, order = pre ++ todo /\ (block = true -> Forall (fun x => v ∈ given x m) pre)
  | BBatch v passes => forall todo x, Some todo ∈ passes -> x ∈ todo -> x ∈ subs c
  | _ => True
  end.
Definition open_chans (c : BroadcastChannel T) : Prop :=
  forall x, x ∈ subs c -> exists k, chans c !! x = Some k /\ chan_closed k = false /\ Z.of_nat (length (chan_buf k)) <= chan_cap k.
Definition buffer (x : nat) (cs : gmap nat (GoChan T)) : list T := match cs !! x with Some k => chan_buf k | None => [] end.
Record Inv s : Prop := {
  inv_open : open_chans (chan s);
  inv_fifo : forall x, given x (pushed s) = given x (got s) ++ buffer x (chans (chan s));
  inv_new : forall x, chans (chan s) !! x = None -> given x (pushed s) = [];
  inv_readers : readers s = cnt holds (threads s);
  inv_push : Forall (push_ok (chan s) (pushed s)) (threads s)
}.

Lemma given_note x y v m : given x (note y v m) = if decide (x = y) then given x m ++ [v] else given x m.
Proof. unfold given, note. destruct (decide (x = y)) as [->|]; [by rewrite lookup_insert_eq|by rewrite lookup_insert_ne]. Qed.
Lemma push_ok_idle c c' m th : holds th = false -> push_ok c m th -> push_ok c' m th.
Proof. by destruct th. Qed.
Lemma no_holder s : Inv s -> readers s = 0 -> Forall (fun th => holds th = false) (threads s).
Proof.
  intros I H0. apply Forall_lookup_2. intros i th Hi. destruct (holds th) eqn:E; [|done].
  pose proof (cnt_pos holds _ _ _ Hi E). rewrite <- (inv_readers _ I) in H. lia.
Qed.

Lemma push_ok_mono c c' m m' th : subs c' = subs c -> (forall x v, v ∈ given x m -> v ∈ given x m') -> push_ok c m th -> push_ok c' m' th.
Proof.
  intros E Hm. destruct th as [| | |block w order todo| | | | |]; try done; cbn; rewrite E; [|done].
  intros (H1 & pre & H2 & H3). split; [done|]. exists pre. split; [done|]. intros Hb. eapply Forall_impl; [exact (H3 Hb)|]. auto.
Qed.

(** A step of one goroutine that changes the channel's record but not the
    subscribers or their channels. *)
Lemma Inv_thread t th0 th c s : Inv s -> threads s !! t = Some th0 ->
  subscribers c = subscribers (chan s) -> chans c = chans (chan s) ->
  push_ok c (pushed s) th ->
  Inv (mkState c (readers s - (if holds th0 then 1 else 0) + (if holds th then 1 else 0)) (<[t := th]> (threads s)) (pushed s) (got s)).
Proof.
  intros [H1 H2 H3 H4 H6] Ht Es Ec Hp. assert (subs c = subs (chan s)) as Ess by (unfold subs; by rewrite Es).
  split; cbn; rewrite ?Ec; try done.
  - unfold open_chans. by rewrite Ess, Ec.
  - by rewrite (cnt_insert holds _ _ _ th Ht), H4.
  - apply Forall_insert; [|done]. eapply Forall_impl; [exact H6|]. intros th'. by apply push_ok_mono.
Qed.

(** A step under the write lock: the channels it leaves hold what they held. *)
Lemma Inv_write t th c s : Inv s -> readers s = 0 -> threads s !! t = Some th -> holds th = false ->
  open_chans c -> (forall x, buffer x (chans c) = buffer x (chans (chan s))) ->
  (forall x, chans c !! x = None -> chans (chan s) !! x = None) ->
  Inv (mkState c (readers s) (<[t := WDone]> (threads s)) (pushed s) (got s)).
Proof.
  intros I H0 Ht Hh Ho Hbuf Hn. pose proof (no_holder s I H0) as Hidle. destruct I as [H1 H2 H3 H4 H6]. split; cbn; try done.
  - intros x. by rewrite Hbuf.
  - auto.
  - by rewrite (cnt_insert holds _ _ _ WDone Ht), Hh, H4, Z.sub_0_r, Z.add_0_r.
  - apply Forall_insert; [|done]. apply Forall_lookup_2. intros i th' Hi.
    eapply push_ok_idle; [exact (Forall_lookup_1 _ _ _ _ Hidle Hi)|exact (Forall_lookup_1 _ _ _ _ H6 Hi)].
Qed.

Lemma buffer_insert x y k (cs : gmap nat (GoChan T)) : buffer x (<[y := k]> cs) = if decide (x = y) then chan_buf k else buffer x cs.
Proof. unfold buffer. destruct (decide (x = y)) as [->|]; [by rewrite lookup_insert_eq|by rewrite lookup_insert_ne]. Qed.
Lemma insert_None x y (k : GoChan T) (cs : gmap nat (GoChan T)) : <[y := k]> cs !! x = None -> cs !! x = None.
Proof. by intros [? _]%lookup_insert_None. Qed.

Lemma close_all_ok (order : list nat) : forall cs : gmap nat (GoChan T), NoDup order ->
  (forall x, x ∈ order -> exists k, cs !! x = Some k /\ chan_closed k = false) ->
  exists cs', close_all order cs = Done cs' /\ (forall x, buffer x cs' = buffer x cs) /\ (forall x, cs' !! x = None -> cs !! x = None).
Proof.
  induction order as [|x order IH]; intros cs Hnd Hok; cbn [close_all]; [by exists cs|].
  apply NoDup_cons in Hnd as [Hx Hnd]. destruct (Hok x) as (k & Ek & Hk); [apply list_elem_of_here|]. rewrite Ek.
  unfold close_chan. rewrite Hk. cbn [mbind outcome_bind].
  destruct (IH (<[x := mkChan (chan_buf k) (chan_cap k) true]> cs) Hnd) as (cs' & E & H1 & H2).
  { intros y Hy. rewrite lookup_insert_ne by (intros ->; done). apply Hok. by right. }
  exists cs'. split; [done|]. split.
  - intros y. rewrite H1, buffer_insert. case_decide; [subst|done]. unfold buffer. by rewrite Ek.
  - intros y Hy. by eapply insert_None, H2.
Qed.

(** What is done under the write lock changes no buffer, and succeeds except
    when [make] meets a negative size. *)
Lemma locked_ok op (c : BroadcastChannel T) : open_chans c -> (forall x, op = OpSubscribe x -> chans c !! x = None) ->
  match locked op c with
  | Panic => exists x, op = OpSubscribe x /\ closed c = false /\ bufferSize c < 0
  | Done c' => open_chans c' /\ (forall x, buffer x (chans c') = buffer x (chans c)) /\ (forall x, chans c' !! x = None -> chans c !! x = None)
  end.
Proof.
  intros Ho Hnew. destruct op as [x|x|n|]; cbn [locked].
  - specialize (Hnew x eq_refl). assert (forall y k, chan_buf k = [] -> buffer y (<[x := k]> (chans c)) = buffer y (chans c)) as Hbuf.
    { intros y k Hk. rewrite buffer_insert. case_decide; [subst|done]. unfold buffer. by rewrite Hnew. }
    assert (x ∉ subs c) as Hx by (intros Hin; destruct (Ho x Hin) as (k & E & _); congruence).
    unfold Subscribe. destruct (closed c) eqn:Ecl; cbn.
    + split_and!; [|intros y; by apply Hbuf|intros y; apply insert_None].
      intros y Hy. cbn. rewrite lookup_insert_ne by (intros ->; done). exact (Ho y Hy).
    + unfold make_chan. destruct (Z.ltb_spec (bufferSize c) 0); cbn; [by exists x|].
      split_and!; [|intros y; by apply Hbuf|intros y; apply insert_None].
      intros y Hy. cbn. unfold subs in Hy. cbn in Hy. apply elem_of_union in Hy as [->%elem_of_singleton|Hy].
      * rewrite lookup_insert_eq. eexists. split_and!; done.
      * rewrite lookup_insert_ne by (intros ->; done). exact (Ho y Hy).
  - unfold Unsubscribe. destruct (decide (x ∈ subs c)) as [Hx|Hx]; [|done].
    destruct (Ho x Hx) as (k & Ek & Hk & Hl). rewrite Ek. unfold close_chan. rewrite Hk. cbn.
    split_and!; [| |intros y; apply insert_None].
    + intros y Hy. unfold subs in Hy. cbn in Hy. apply elem_of_difference in Hy as [Hy Hne].
      cbn. rewrite lookup_insert_ne by (intros ->; apply Hne; by apply elem_of_singleton). exact (Ho y Hy).
    + intros y. cbn. rewrite buffer_insert. case_decide; [subst|done]. unfold buffer. by rewrite Ek.
  - unfold SetBufferSize. by destruct (closed c).
  - unfold close_locked. destruct (close_all_ok (elements (subs c)) (chans c)) as (cs' & -> & H1 & H2); [apply NoDup_elements| |].
    { intros x Hx%elem_of_elements. destruct (Ho x Hx) as (k & ? & ? & _). eauto. }
    cbn. split_and!; [|exact H1|exact H2]. intros x Hx. unfold subs in Hx. cbn in Hx. by apply not_elem_of_empty in Hx.
Qed.

(** A subscription that meets a negative size. *)
Definition negative_size (a : act T) s : Prop := exists t w o x, a = Run t w o /\ threads s !! t = Some (WLock (OpSubscribe x)) /\
  closed (chan s) = false /\ bufferSize (chan s) < 0.
Definition fine (bad : Prop) (o : option (outcome (state T))) : Prop :=
  match o with None => True | Some Panic => bad | Some (Done s) => Inv s end.

(** A value that goes into or out of the channel of [x]. *)
Lemma Inv_chan x k k' s ps gs : Inv s -> chans (chan s) !! x = Some k -> chan_closed k' = chan_closed k -> chan_cap k' = chan_cap k ->
  Z.of_nat (length (chan_buf k')) <= Z.max (Z.of_nat (length (chan_buf k))) (chan_cap k) ->
  given x ps = given x gs ++ chan_buf k' -> (forall y, y <> x -> given y ps = given y (pushed s) /\ given y gs = given y (got s)) ->
  (forall y v, v ∈ given y (pushed s) -> v ∈ given y ps) ->
  Inv (mkState (set_subs (subscribers (chan s)) (<[x := k']> (chans (chan s))) (chan s)) (readers s) (threads s) ps gs).
Proof.
  intros [H1 H2 H3 H4 H6] Hk Hcl Hcap Hlen Hx Hy Hm. split; cbn; try done.
  - intros y Hin. cbn. destruct (H1 y Hin) as (ky & Ey & Hc & Hl). destruct (decide (y = x)) as [->|Hne].
    + rewrite lookup_insert_eq. exists k'. simplify_eq. split_and!; [done|congruence|lia].
    + rewrite lookup_insert_ne by done. by exists ky.
  - intros y. rewrite buffer_insert. case_decide; [by subst|]. destruct (Hy y) as [-> ->]; done.
  - intros y. destruct (decide (y = x)) as [->|Hne]; [by rewrite lookup_insert_eq|]. rewrite lookup_insert_ne by done.
    destruct (Hy y Hne) as [-> _]. apply H3.
  - eapply Forall_impl; [exact H6|]. intros th. by apply push_ok_mono.
Qed.
Lemma given_more x v y u (m : gmap nat (list T)) : u ∈ given y m -> u ∈ given y (note x v m).
Proof. intros H. rewrite given_note. case_decide; [|done]. apply elem_of_app. by left. Qed.
Lemma given_it x v (m : gmap nat (list T)) : v ∈ given x (note x v m).
Proof. rewrite given_note, decide_True by done. apply elem_of_app. right. apply list_elem_of_here. Qed.

(** What one offer leaves as it was; a value that was taken is in the account. *)
Lemma offer_ok w x v s : Inv s -> x ∈ subs (chan s) -> exists s' ok, offer w x v s = Some (Done (s', ok)) /\ Inv s' /\
  threads s' = threads s /\ readers s' = readers s /\ subscribers (chan s') = subscribers (chan s) /\
  (forall y u, u ∈ given y (pushed s) -> u ∈ given y (pushed s')) /\ (ok = true -> v ∈ given x (pushed s')).
Proof.
  intros I Hx. destruct (inv_open _ I x Hx) as (k & Ek & Hcl & Hl). unfold offer. rewrite Ek. cbn [mbind option_bind].
  destruct (decide _) as [(_ & Hc & _)|_].
  - eexists _, true. split; [done|]. split_and!; try done; cbn; [|intros y u; apply given_more|intros _; apply given_it].
    destruct I as [H1 H2 H3 H4 H6]. split; cbn; try done.
    + intros y. rewrite !given_note. case_decide as E; [|apply H2]. subst y. specialize (H2 x). unfold buffer in H2 |- *. rewrite Ek in H2 |- *.
      assert (chan_buf k = []) as Eb by (destruct (chan_buf k); [done|cbn in Hl; lia]). by rewrite H2, Eb, !app_nil_r.
    + intros y Hy. rewrite given_note, decide_False by (intros ->; congruence). by apply H3.
    + eapply Forall_impl; [exact H6|]. intros th. apply push_ok_mono; [done|]. intros y u. apply given_more.
  - unfold try_send. rewrite Hcl. destruct (Z.ltb_spec (Z.of_nat (length (chan_buf k))) (chan_cap k)); cbn; [|by eexists s, false].
    eexists _, true. split; [done|]. split_and!; try done; cbn; [|intros y u; apply given_more|intros _; apply given_it].
    apply (Inv_chan x k); try done; cbn.
    + rewrite length_app. cbn. lia.
    + rewrite given_note, decide_True by done. rewrite (inv_fifo _ I x). unfold buffer. by rewrite Ek, app_assoc.
    + intros y Hy. by rewrite given_note, decide_False.
    + intros y u. apply given_more.
Qed.

(** A holder of the read lock goes on. *)
Lemma Inv_holder t th0 th s : Inv s -> threads s !! t = Some th0 -> holds th0 = true -> holds th = true ->
  push_ok (chan s) (pushed s) th -> Inv (become t th s).
Proof.
  intros I Ht H0 H1 Hp. pose proof (Inv_thread t th0 th (chan s) s I Ht eq_refl eq_refl Hp) as J. rewrite H0, H1 in J.
  by replace (readers s - 1 + 1) with (readers s) in J by lia.
Qed.
Lemma push_subs t b v order x todo s : Inv s -> threads s !! t = Some (BPush b v order (x :: todo)) -> x ∈ subs (chan s).
Proof.
  intros I Ht. destruct (Forall_lookup_1 _ _ _ _ (inv_push _ I) Ht) as (Hord & pre & Epre & _).
  apply elem_of_elements. rewrite <- Hord, Epre. apply elem_of_app. right. apply list_elem_of_here.
Qed.
Lemma pass_subs t i v passes x todo s : Inv s -> threads s !! t = Some (BBatch v passes) -> passes !! i = Some (Some (x :: todo)) -> x ∈ subs (chan s).
Proof.
  intros I Ht Hi. apply (Forall_lookup_1 _ _ _ _ (inv_push _ I) Ht (x :: todo)); [by eapply list_elem_of_lookup_2|apply list_elem_of_here].
Qed.

Lemma broadcast_advance_ok t w order th s : Inv s -> threads s !! t = Some th -> fine (negative_size (Run t w order) s) (advance t w order th s).
Proof.
  intros I Ht. pose proof (Forall_lookup_1 _ _ _ _ (inv_push _ I) Ht) as Hp.
  pose proof (fun c th' => Inv_thread t th th' c s I Ht) as Own.
  assert (forall n, n - 0 + 0 = n) as Z0 by lia. assert (forall n, n - 0 + 1 = n + 1) as Z1 by lia.
  assert (forall n, n - 1 + 1 = n) as Z2 by lia. assert (forall n, n - 1 + 0 = n - 1) as Z3 by lia.
  destruct th as [b v|b v|b v|b v ord [|x todo]|v passes| | |op|]; cbn [advance]; try done.
  - cbn. specialize (Own (chan s) (if closed (chan s) then BDone else BLock b v)). destruct (closed (chan s)); cbn in Own; rewrite Z0 in Own; by apply Own.
  - specialize (Own (chan s) (BStore b v)). cbn in Own. rewrite Z1 in Own. by apply Own.
  - destruct (negb b && _).
    + specialize (Own (touch v (chan s)) (BBatch v (replicate (batch_count (size (subs (chan s)))) None))). cbn [holds] in Own. rewrite Z2 in Own. apply Own; try done.
      cbn. intros todo x [E%eq_sym _]%elem_of_replicate. done.
    + destruct (decide (order ≡ₚ elements (subs (chan s)))) as [E|]; [|done].
      specialize (Own (touch v (chan s)) (BPush b v order order)). cbn [holds] in Own. rewrite Z2 in Own. apply Own; try done.
      cbn. split; [done|]. exists []. split; [done|]. constructor.
  - specialize (Own (chan s) BDone). cbn in Own. rewrite Z3 in Own. by apply Own.
  - destruct Hp as (Hord & pre & Epre & Hgiven). destruct (offer_ok w x v s I) as (s' & ok & -> & I' & Eth & _ & Es & Hm & Hok); [by eapply push_subs|].
    cbn [mbind option_bind]. destruct (b && negb ok) eqn:E; [done|]. cbn [fine]. eapply Inv_holder; [done|by rewrite Eth|done|done|].
    cbn. unfold subs. rewrite Es. split; [done|]. exists (pre ++ [x]). split; [by rewrite <- app_assoc|]. intros ->. apply Forall_app. split.
    + eapply Forall_impl; [exact (Hgiven eq_refl)|]. intros y. apply Hm.
    + constructor; [|constructor]. apply Hok. by destruct ok.
  - destruct (decide _); [|done]. specialize (Own (chan s) BDone). cbn in Own. rewrite Z3 in Own. by apply Own.
  - cbn. destruct (closed (chan s)).
    + specialize (Own (chan s) WDone). cbn in Own. rewrite Z0 in Own. by apply Own.
    + match goal with |- Inv ?w => specialize (Own (chan w) (WLock OpClose)) end. cbn in Own. rewrite Z0 in Own. by apply Own.
  - destruct (Z.eqb_spec (readers s) 0) as [H0|]; [|done].
    assert ((forall y, op = OpSubscribe y -> chans (chan s) !! y = None) ->
      fine (negative_size (Run t w order) s) (Some (c ← locked op (chan s); Done (become t WDone (with_chan c (readers s) s))))) as F.
    { intros Hn. pose proof (locked_ok op (chan s) (inv_open _ I) Hn) as L. destruct (locked op (chan s)) as [c'|]; cbn.
      - destruct L as (? & ? & ?). by apply (Inv_write t (WLock op) c' s).
      - destruct L as (x & -> & ? & ?). by exists t, w, order, x. }
    destruct op; try (apply F; done). destruct (decide (sub ∈ dom (chans (chan s)))) as [|Hn]; [done|]. apply F.
    intros y [= <-]. by apply not_elem_of_dom.
Qed.
Lemma broadcast_pass_ok t i w order th s : Inv s -> threads s !! t = Some th -> fine False (advance_pass t i w order th s).
Proof.
  intros I Ht. pose proof (Forall_lookup_1 _ _ _ _ (inv_push _ I) Ht) as Hp. destruct th as [| | | |v passes| | | |]; try done.
  cbn. destruct (passes !! i) as [p|] eqn:Hi; [|done]. cbn.
  assert (forall c todo, subs c = subs (chan s) -> (forall x, x ∈ todo -> x ∈ subs (chan s)) -> push_ok c (pushed s) (BBatch v (<[i := Some todo]> passes))) as Set_.
  { intros c todo Ec Hs l x [j Hj]%list_elem_of_lookup Hx. rewrite Ec. destruct (decide (j = i)) as [->|Hne].
    - rewrite list_lookup_insert_eq in Hj by (by eapply lookup_lt_Some). injection Hj as <-. by apply Hs.
    - rewrite list_lookup_insert_ne in Hj by done. eapply Hp; [by eapply list_elem_of_lookup_2|done]. }
  destruct p as [[|x todo]|].
  - done.
  - destruct (offer_ok w x v s I) as (s' & ok & -> & I' & Eth & _ & Es & Hm & Hok); [by eapply pass_subs|]. cbn.
    eapply Inv_holder; [done|by rewrite Eth|done|done|]. assert (subs (chan s') = subs (chan s)) as Es' by (unfold subs; by rewrite Es).
    apply (push_ok_mono (chan s') (chan s') (pushed s)); [done|exact Hm|]. apply Set_; [done|].
    intros y Hy. apply (Hp (x :: todo)); [by eapply list_elem_of_lookup_2|by right].
  - destruct (decide (order ≡ₚ elements (subs (chan s)))) as [E|]; [|done]. cbn. eapply Inv_holder; [done|done|done|done|].
    apply Set_; [done|]. intros x Hx. apply elem_of_elements. by rewrite <- E.
Qed.

Lemma Inv_spawn_thread th s : Inv s -> holds th = false -> (forall c m, push_ok c m th) -> Inv (call th s).
Proof.
  intros [H1 H2 H3 H4 H6] Hh Hp. split; cbn; try done.
  - rewrite cnt_app, H4. cbn. rewrite Hh. lia.
  - apply Forall_app. split; [done|]. by constructor.
Qed.
Lemma broadcast_step_ok a s : Inv s -> fine (negative_size a s) (step a s).
Proof.
  intros I. destruct a as [b v|op| |x|t w order|t i w order]; cbn [step].
  - by apply Inv_spawn_thread.
  - destruct op; by apply Inv_spawn_thread.
  - by apply Inv_spawn_thread.
  - destruct (chans (chan s) !! x) as [k|] eqn:Ek; [|done]. cbn. destruct (chan_buf k) as [|v rest] eqn:Eb; [done|]. cbn.
    apply (Inv_chan x k); try done; cbn.
    + rewrite Eb. cbn. lia.
    + rewrite given_note, decide_True by done. rewrite (inv_fifo _ I x). unfold buffer. by rewrite Ek, Eb, <- app_assoc.
    + intros y Hy. by rewrite given_note, decide_False.
  - destruct (threads s !! t) as [th|] eqn:Ht; [|done]. cbn. by apply broadcast_advance_ok.
  - destruct (threads s !! t) as [th|] eqn:Ht; [|done]. cbn. pose proof (broadcast_pass_ok t i w order th s I Ht) as F.
    by destruct (advance_pass t i w order th s) as [[]|].
Qed.
Lemma broadcast_run_ok acts : forall s, Inv s ->
  match run acts s with
  | Done s' => Inv s'
  | Panic => exists acts1 a acts2 s', acts = acts1 ++ a :: acts2 /\ run acts1 s = Done s' /\ negative_size a s'
  end.
Proof.
  induction acts as [|a acts IH]; intros s I; cbn [run]; [done|].
  pose proof (broadcast_step_ok a s I) as F. destruct (step a s) as [[s1|]|] eqn:E; cbn in F.
  - specialize (IH s1 F). destruct (run acts s1); [done|]. destruct IH as (a1 & b & a2 & s' & -> & H & Hb).
    exists (a :: a1), b, a2, s'. split_and!; [done| |done]. cbn [run]. by rewrite E.
  - by exists [], a, acts, s.
  - specialize (IH s I). destruct (run acts s); [done|]. destruct IH as (a1 & b & a2 & s' & -> & H & Hb).
    exists (a :: a1), b, a2, s'. split_and!; [done| |done]. cbn [run]. by rewrite E.
Qed.
Lemma Inv_broadcast_start n v : Inv (start (NewBroadcastChannel n v) : state T).
Proof. by split. Qed.

(** ** Sizes that are not negative *)
Definition sane_op (op : locked_op) : Prop := match op with OpSetBufferSize n => 0 <= n | _ => True end.
Definition sane_thread (th : thread T) : Prop := forall op, th = WLock op -> sane_op op.
Definition sane (a : act T) : Prop := match a with CallLocked op => sane_op op | _ => True end.
Definition sized s : Prop := 0 <= bufferSize (chan s) /\ Forall sane_thread (threads s).

Lemma sized_become t th s : sized s -> sane_thread th -> sized (become t th s).
Proof. intros [H1 H2] H. split; [done|]. by apply Forall_insert. Qed.
Lemma offer_keeps w x v s s' ok : offer w x v s = Some (Done (s', ok)) ->
  threads s' = threads s /\ readers s' = readers s /\ subscribers (chan s') = subscribers (chan s) /\
  bufferSize (chan s') = bufferSize (chan s).
Proof.
  unfold offer. destruct (chans (chan s) !! x) as [k|]; [|done]. cbn. destruct (decide _); [by intros [= <- <-]|].
  destruct (try_send v k) as [[k' []]|]; by intros [= <- <-].
Qed.
Lemma sized_offer w x v s s' ok : sized s -> offer w x v s = Some (Done (s', ok)) -> sized s'.
Proof. intros [H1 H2] (E1 & _ & _ & E2)%offer_keeps. split; [by rewrite E2|by rewrite E1]. Qed.
Lemma locked_size op (c c' : BroadcastChannel T) : 0 <= bufferSize c -> sane_op op -> locked op c = Done c' -> 0 <= bufferSize c'.
Proof.
  intros H Ho. destruct op; cbn [locked].
  - unfold Subscribe. destruct (closed c); [by intros [= <-]|]. destruct (make_chan _); [|done]. by intros [= <-].
  - unfold Unsubscribe. destruct (decide _); [|by intros [= <-]]. destruct (chans c !! sub); [|by intros [= <-]].
    destruct (close_chan _); [|done]. by intros [= <-].
  - unfold SetBufferSize. destruct (closed c); by intros [= <-].
  - unfold close_locked. destruct (close_all _ _); [|done]. by intros [= <-].
Qed.
(** The operations waiting for the write lock are those that were called. *)
Lemma sized_advance t w order th s s' : sized s -> sane_thread th -> advance t w order th s = Some (Done s') -> sized s'.
Proof.
  intros Hs Hth. destruct th as [b v|b v|b v|b v ord [|x todo]|v passes| | |op|]; cbn [advance]; try done.
  - intros [= <-]. apply sized_become; [done|]. by destruct (closed _).
  - intros [= <-]. by apply sized_become.
  - destruct (negb b && _); [intros [= <-]; by apply (sized_become _ _ (with_chan _ _ s))|].
    destruct (decide _); [|done]. intros [= <-]. by apply (sized_become _ _ (with_chan _ _ s)).
  - intros [= <-]. by apply sized_become.
  - destruct (offer w x v s) as [[[s1 ok]|]|] eqn:E; [|done|done]. cbn. destruct (b && negb ok); [done|]. intros [= <-].
    apply sized_become; [by eapply sized_offer|done].
  - destruct (decide _); [|done]. intros [= <-]. by apply sized_become.
  - intros [= <-]. destruct (closed _); [by apply sized_become|]. apply (sized_become _ _ (with_chan _ _ s)); [done|]. by intros op [= <-].
  - destruct (readers s =? 0); [|done]. intros E. assert (exists c, locked op (chan s) = Done c /\ s' = become t WDone (with_chan c (readers s) s)) as (c & E' & ->).
    { destruct op; try (destruct (decide _); [done|]); destruct (locked _ _); cbn in E; simplify_eq; eauto. }
    destruct Hs as [H1 H2]. apply sized_become; [|done]. split; [|done]. eapply locked_size; [exact H1|by apply Hth|exact E'].
Qed.
Lemma sized_step a s s' : sized s -> sane a -> step a s = Some (Done s') -> sized s'.
Proof.
  intros [H1 H2] Ha. assert (forall th', sane_thread th' -> sized (call th' s)) as H.
  { intros. split; [done|]. apply Forall_app. split; [done|]. by constructor. }
  destruct a as [b v|op| |x|t w order|t i w order]; cbn [step].
  - intros [= <-]. by apply H.
  - destruct op; intros [= <-]; apply H; try done; by intros op [= <-].
  - intros [= <-]. by apply H.
  - destruct (chans (chan s) !! x) as [k|]; [|done]. cbn. destruct (chan_buf k); [done|]. by intros [= <-].
  - destruct (threads s !! t) as [th|] eqn:Ht; [|done]. apply sized_advance; [done|]. exact (Forall_lookup_1 _ _ _ _ H2 Ht).
  - destruct (threads s !! t) as [[| | | |v passes| | | |]|]; try done. cbn. destruct (passes !! i) as [[[|x todo]|]|]; try done; cbn.
    + destruct (offer w x v s) as [[[s1 ok]|]|] eqn:E; [|done|done]. intros [= <-]. apply sized_become; [by eapply sized_offer|done].
    + destruct (decide _); [|done]. intros [= <-]. by apply sized_become.
Qed.
Lemma sized_run acts : forall s s', sized s -> Forall sane acts -> run acts s = Done s' -> sized s'.
Proof.
  induction acts as [|a acts IH]; intros s s' Hs Ha; cbn [run]; [by intros [= <-]|]. apply Forall_cons in Ha as [Ha Has].
  destruct (step a s) as [[s1|]|] eqn:E; [|done|by apply IH]. apply IH; [|done]. by eapply sized_step.
Qed.

(** C39: Sends, subscriptions, resizes and closings of a broadcast channel, of
    any sizes and in any interleaving, panic in one case only: somebody
    subscribes to an open channel whose buffer size is negative, which neither
    the constructor nor [SetBufferSize] refuses; no send meets a channel that
    was closed under it. Otherwise every subscriber receives what was put in
    its channel, in that order and each once, and the rest is in its buffer;
    and a blocking send goes through the subscribers there are, whose number
    cannot change meanwhile, having given its value to each it has passed. *)
Theorem broadcast_interleaved n v acts :
  match run acts (start (NewBroadcastChannel n v)) with
  | Panic => exists acts1 t w o acts2 s x, acts = acts1 ++ Run t w o :: acts2 /\ run acts1 (start (NewBroadcastChannel n v)) = Done s /\
      threads s !! t = Some (WLock (OpSubscribe x)) /\ closed (chan s) = false /\ bufferSize (chan s) < 0
  | Done s =>
      (forall x, given x (pushed s) = given x (got s) ++ buffer x (chans (chan s))) /\
      forall t w order todo, threads s !! t = Some (BPush true w order todo) ->
        order ≡ₚ elements (subs (chan s)) /\ exists pre, order = pre ++ todo /\ Forall (fun x => w ∈ given x (pushed s)) pre
  end /\
  (0 <= n -> Forall sane acts -> run acts (start (NewBroadcastChannel n v)) <> Panic).
Proof.
  pose proof (broadcast_run_ok acts _ (Inv_broadcast_start n v)) as R.
  destruct (run acts (start (NewBroadcastChannel n v))) as [s|] eqn:E; (split; [|try done]).
  - split; [apply R|]. intros t w order todo Ht. destruct (Forall_lookup_1 _ _ _ _ (inv_push _ R) Ht) as (H1 & pre & H2 & H3).
    split; [done|]. exists pre. split; [done|by apply H3].
  - destruct R as (acts1 & a & acts2 & s & -> & H & t & w & o & x & -> & R). by exists acts1, t, w, o, acts2, s, x.
  - intros Hn Ha _. destruct R as (acts1 & a & acts2 & s & -> & H & t & w & o & x & -> & _ & _ & R).
    apply Forall_app in Ha as [Ha _]. destruct (sized_run acts1 (start (NewBroadcastChannel n v)) s) as [Hz _]; [by split|done|done|lia].
Qed.

(** ** A subscriber that does not read *)

(** Where a blocking send waits. *)
Record waits_on (t x : nat) (w : T) (order todo : list nat) (k : GoChan T) s : Prop := {
  wait_thread : threads s !! t = Some (BPush true w order (x :: todo));
  wait_chan : chans (chan s) !! x = Some k;
  wait_full : chan_closed k = false /\ chan_cap k <= Z.of_nat (length (chan_buf k));
  wait_readers : 0 < readers s
}.

Lemma insert_other {A} (l : list A) t t' a b : l !! t = Some a -> t' <> t -> <[t' := b]> l !! t = Some a.
Proof. intros H Hne. by rewrite list_lookup_insert_ne. Qed.
(** What a step of another goroutine leaves as it was. *)
Definition undisturbed t x w order todo k (s s' : state T) : Prop :=
  waits_on t x w order todo k s' /\ subs (chan s') = subs (chan s) /\
  forall u op, threads s !! u = Some (WLock op) -> threads s' !! u = Some (WLock op).
(** Somebody receives from [x]. *)
Definition receives (x : nat) (a : act T) : Prop :=
  match a with Recv y => y = x | Run _ r _ | RunPass _ _ r _ => r = Some x | _ => False end.

Lemma waits_become t x w order todo k u th th' s : waits_on t x w order todo k s -> u <> t -> threads s !! u = Some th ->
  (forall op, th <> WLock op) -> undisturbed t x w order todo k s (become u th' s).
Proof.
  intros [H1 H2 H3 H4] Hne Hu Hn. split_and!; [|done|].
  - split; cbn; [by apply insert_other|done|done|done].
  - intros v op Hv. apply insert_other; [done|]. intros ->. simplify_eq. by apply (Hn op).
Qed.
Lemma waits_offer t x w order todo k r y v s s' ok : waits_on t x w order todo k s -> r <> Some x ->
  offer r y v s = Some (Done (s', ok)) -> undisturbed t x w order todo k s s'.
Proof.
  intros [H1 H2 [H3 H4] H5] Hr E. pose proof (offer_keeps _ _ _ _ _ _ E) as (E1 & E2 & E3 & _). revert E.
  unfold offer. destruct (chans (chan s) !! y) as [ky|] eqn:Ey; [|done]. cbn. intros E. split_and!; [|unfold subs; by rewrite E3|by rewrite E1].
  split; [by rewrite E1| |done|by rewrite E2]. revert E. destruct (decide _); [by intros [= <- <-]|].
  unfold try_send. destruct (chan_closed ky); [done|]. destruct (Z.ltb_spec (Z.of_nat (length (chan_buf ky))) (chan_cap ky)); intros [= <- <-]; [|done].
  cbn. rewrite lookup_insert_ne; [done|]. intros ->. simplify_eq. lia.
Qed.
Lemma waits_trans t x w order todo k s s1 s2 : undisturbed t x w order todo k s s1 -> undisturbed t x w order todo k s1 s2 ->
  undisturbed t x w order todo k s s2.
Proof. intros (H1 & H2 & H3) (H4 & H5 & H6). split_and!; [done|congruence|auto]. Qed.
(** The send that waits stays where it is. *)
Lemma waits_stuck t x w order todo k r v s : waits_on t x w order todo k s -> r <> Some x -> offer r x v s = Some (Done (s, false)).
Proof.
  intros [H1 H2 [H3 H4] H5] Hr. unfold offer. rewrite H2. cbn. rewrite decide_False by tauto.
  unfold try_send. by rewrite H3, (proj2 (Z.ltb_ge _ _)).
Qed.

Lemma waits_advance t x w order todo k u r o th s s' : Inv s -> waits_on t x w order todo k s -> r <> Some x -> threads s !! u = Some th ->
  advance u r o th s = Some (Done s') -> undisturbed t x w order todo k s s'.
Proof.
  intros I W Hr Hu. destruct (decide (u = t)) as [->|Hne].
  { pose proof (wait_thread _ _ _ _ _ _ _ W). simplify_eq. cbn [advance]. by rewrite (waits_stuck _ _ _ _ _ _ r w s W Hr). }
  assert (forall c n, chans c = chans (chan s) -> subs c = subs (chan s) -> 0 < n -> undisturbed t x w order todo k s (with_chan c n s)) as K.
  { intros c n E1 E2 Hn. destruct W. split_and!; [|done|done]. split; cbn; [done|by rewrite E1|done|done]. }
  pose proof (wait_readers _ _ _ _ _ _ _ W) as H5.
  assert (forall th', (forall op, th <> WLock op) -> undisturbed t x w order todo k s (become u th' s)) as B
    by (intros; by eapply waits_become).
  assert (forall c n th', chans c = chans (chan s) -> subs c = subs (chan s) -> 0 < n -> (forall op, th <> WLock op) ->
    undisturbed t x w order todo k s (become u th' (with_chan c n s))) as KB.
  { intros c n th' E1 E2 Hn Hth. eapply waits_trans; [by apply (K c n)|]. eapply waits_become; [by apply K|done|done|done]. }
  assert (holds th = true -> 0 < readers s - 1) as H6.
  { intros Hh. pose proof (cnt_pos2 holds (threads s) t u _ _ (wait_thread _ _ _ _ _ _ _ W) Hu (not_eq_sym Hne) eq_refl Hh) as C.
    rewrite <- (inv_readers _ I) in C. lia. }
  destruct th as [b v|b v|b v|b v ord [|y todo']|v passes| | |op|]; cbn [advance]; try done.
  - intros [= <-]. by apply B.
  - intros [= <-]. apply KB; try done. lia.
  - destruct (negb b && _); [intros [= <-]; by apply KB|]. destruct (decide _); [|done]. intros [= <-]. by apply KB.
  - intros [= <-]. apply KB; try done. by apply H6.
  - destruct (offer r y v s) as [[[s1 ok]|]|] eqn:E; [|done|done]. cbn. destruct (b && negb ok); [done|]. intros [= <-].
    pose proof (waits_offer _ _ _ _ _ _ _ _ _ _ _ _ W Hr E) as W1. eapply waits_trans; [exact W1|].
    eapply waits_become; [apply W1|done|by rewrite (proj1 (offer_keeps _ _ _ _ _ _ E))|done].
  - destruct (decide _); [|done]. intros [= <-]. apply KB; try done. by apply H6.
  - intros [= <-]. destruct (closed (chan s)); [by apply B|by apply KB].
  - by rewrite (proj2 (Z.eqb_neq _ _)) by lia.
Qed.
Lemma waits_pass t x w order todo k u i r o th s s' : waits_on t x w order todo k s -> r <> Some x -> threads s !! u = Some th ->
  advance_pass u i r o th s = Some (Done s') -> undisturbed t x w order todo k s s'.
Proof.
  intros W Hr Hu. destruct th as [| | | |v passes| | | |]; try done. cbn.
  assert (u <> t) as Hne by (intros ->; pose proof (wait_thread _ _ _ _ _ _ _ W); congruence).
  destruct (passes !! i) as [[[|y todo']|]|]; try done; cbn.
  - destruct (offer r y v s) as [[[s1 ok]|]|] eqn:E; [|done|done]. intros [= <-].
    pose proof (waits_offer _ _ _ _ _ _ _ _ _ _ _ _ W Hr E) as W1. eapply waits_trans; [exact W1|].
    eapply waits_become; [apply W1|done|by rewrite (proj1 (offer_keeps _ _ _ _ _ _ E))|done].
  - destruct (decide _); [|done]. intros [= <-]. by eapply waits_become.
Qed.
Lemma blocked_step t x w order todo k a s s' : Inv s -> waits_on t x w order todo k s -> ~ receives x a ->
  step a s = Some (Done s') -> undisturbed t x w order todo k s s'.
Proof.
  intros I W Hx E. assert (forall th, undisturbed t x w order todo k s (call th s)) as C.
  { intros th. destruct W. split_and!; [split; cbn; try done; by apply lookup_app_l_Some|done|]. intros. by apply lookup_app_l_Some. }
  destruct a as [b u|op| |y|u r o|u i r o]; cbn [step] in E.
  - injection E as <-. apply C.
  - destruct op; injection E as <-; apply C.
  - injection E as <-. apply C.
  - destruct (chans (chan s) !! y) as [ky|] eqn:Ey; [|done]. cbn in E. destruct (chan_buf ky); [done|]. injection E as <-.
    destruct W. split_and!; [|done|done]. split; cbn; try done. rewrite lookup_insert_ne; [done|]. intros ->. by apply Hx.
  - destruct (threads s !! u) as [th|] eqn:Hu; [|done]. cbn in E. by eapply waits_advance.
  - destruct (threads s !! u) as [th|] eqn:Hu; [|done]. cbn in E. by eapply waits_pass.
Qed.

(** A blocking send that waits on a subscriber with a full buffer holds the
    read lock: until somebody receives from that subscriber the send waits, the
    subscribers stay as they are, and whoever wants to subscribe, to
    unsubscribe (the waited for subscriber too), to resize or to close waits as
    well, whatever else happens. *)
Theorem blocked_send_blocks_all n v acts s t x w order todo k acts' s' :
  run acts (start (NewBroadcastChannel n v)) = Done s ->
  threads s !! t = Some (BPush true w order (x :: todo)) -> chans (chan s) !! x = Some k ->
  chan_cap k <= Z.of_nat (length (chan_buf k)) ->
  Forall (fun a => ~ receives x a) acts' -> run acts' s = Done s' ->
  threads s' !! t = Some (BPush true w order (x :: todo)) /\ subs (chan s') = subs (chan s) /\
  forall u op, threads s !! u = Some (WLock op) -> threads s' !! u = Some (WLock op).
Proof.
  intros Hr Ht Hk Hfull Hx Hr'. pose proof (broadcast_run_ok acts _ (Inv_broadcast_start n v)) as I. rewrite Hr in I.
  assert (waits_on t x w order todo k s) as W.
  { split; [done|done| |].
    - destruct (inv_open _ I x) as (k' & ? & ? & _); [by eapply push_subs|]. by simplify_eq.
    - pose proof (cnt_pos holds _ _ _ Ht eq_refl) as C. rewrite <- (inv_readers _ I) in C. lia. }
  clear Hr Ht Hk Hfull. revert s I W Hr'. induction acts' as [|a acts' IH]; intros s I W; cbn [run].
  - intros [= <-]. split_and!; [apply W|done|done].
  - apply Forall_cons in Hx as [Hx Hxs]. pose proof (broadcast_step_ok a s I) as F.
    destruct (step a s) as [[s1|]|] eqn:E; [|done|by apply IH]. intros Hr'.
    destruct (blocked_step _ _ _ _ _ _ a s s1 I W Hx E) as (W1 & Hsub & Hw).
    destruct (IH Hxs s1 F W1 Hr') as (H1 & H2 & H3). split_and!; [done|congruence|auto].
Qed.
End Facts.

(** ** Instances *)
#[local] Instance zero_of_int : Inhabited Z := populate 0.

(** Two subscribers with room for one value; two blocking sends. The first
    completes, the second gives its value to the first subscriber, which has
    received, and waits on the other; a third goroutine wants to unsubscribe. *)
Definition one_reads : list (act Z) :=
  [CallLocked (OpSubscribe 5); Run 0 None []; CallLocked (OpSubscribe 6); Run 1 None [];
   CallSend true 7; Run 2 None []; Run 2 None []; Run 2 None [5; 6]%nat; Run 2 None []; Run 2 None []; Run 2 None []; Recv 5;
   CallSend true 8; Run 3 None []; Run 3 None []; Run 3 None [5; 6]%nat; Run 3 None []; CallLocked (OpUnsubscribe 6)].
Definition goes_on : list (act Z) := [Run 3 None []; Run 4 None []; Recv 5; CallClose; Run 5 None []; Run 5 None []].
(** A subscriber without a buffer gets a value only while it waits for one. *)
Definition hand_to_hand : list (act Z) :=
  [CallLocked (OpSubscribe 5); Run 0 None []; CallSend false 7; Run 1 None []; Run 1 None []; Run 1 None [5]%nat; Run 1 None []; Run 1 None [];
   CallSend false 8; Run 2 None []; Run 2 None []; Run 2 None [5]%nat; Run 2 (Some 5%nat) []; Run 2 None []].

Lemma broadcast_interleaved_witness :
  (exists s, run one_reads (start (NewBroadcastChannel 1 0)) = Done s /\
    given 5 (pushed s) = [7; 8] /\ given 5 (got s) = [7] /\ buffer 5 (chans (chan s)) = [8] /\
    given 5 (pushed s) = given 5 (got s) ++ buffer 5 (chans (chan s))) /\
  run one_reads (start (NewBroadcastChannel 1 0)) <> Panic.
Proof.
  pose proof (broadcast_interleaved 1 0 one_reads) as [H P]. split; [|apply P; [lia|by repeat constructor]]. clear P.
  destruct (run one_reads (start (NewBroadcastChannel 1 0))) as [s|] eqn:E; [|by vm_compute in E].
  exists s. split; [done|]. destruct H as [H _]. specialize (H 5%nat). vm_compute in E. injection E as <-.
  exact (conj eq_refl (conj eq_refl (conj eq_refl H))).
Defined.

Example hand_to_hand_gets : match run hand_to_hand (start (NewBroadcastChannel 0 0)) with Done s => given 5 (got s) | Panic => [] end = [8].
Proof. reflexivity. Qed.
(** [SetBufferSize(-1)] is accepted, and the next [Subscribe] panics. *)
Example negative_size_panics :
  run [CallLocked (OpSetBufferSize (-1)); Run 0 None []; CallLocked (OpSubscribe 5); Run 1 None []] (start (NewBroadcastChannel 1 0)) = Panic.
Proof. reflexivity. Qed.

Lemma goes_on_elsewhere : Forall (fun a => ~ receives 6 a) goes_on.
Proof. repeat (apply Forall_cons; split; [cbn; intros ?; congruence|]). constructor. Qed.
Lemma blocked_send_blocks_all_witness : exists s s', run one_reads (start (NewBroadcastChannel 1 0)) = Done s /\ run goes_on s = Done s' /\
  threads s' !! 4%nat = Some (WLock (OpUnsubscribe 6)) /\ subs (chan s') = subs (chan s).
Proof.
  destruct (run one_reads (start (NewBroadcastChannel 1 0))) as [s|] eqn:E; [|by vm_compute in E].
  destruct (run goes_on s) as [s'|] eqn:E'; [|vm_compute in E; injection E as <-; by vm_compute in E'].
  destruct (blocked_send_blocks_all 1 0 one_reads s 3 6 8 [5; 6]%nat [] (mkChan [7] 1 false) goes_on s') as (_ & H2 & H3);
    [exact E|by vm_compute in E; injection E as <-|by vm_compute in E; injection E as <-|done|exact goes_on_elsewhere|exact E'|].
  exists s, s'. split; [done|]. split; [done|]. split; [|exact H2]. apply H3. by vm_compute in E; injection E as <-.
Defined.
