(* ===== verification/ShardedViews.v ===== *)
(** * Iterating, merging and statistics of sharded roots ([syncv2/vars/sharded.go])

    What each root does over all of its shards, and how resizing an adaptive
    root changes it. *)
From S2P Require Import Prelude Sharded.
From Stdlib Require Import ZArith Lia Strings.String.
From stdpp Require Import base tactics list gmap strings.
Import Adaptive.
Open Scope Z_scope.

(** ** Consistent hashing and ranges *)
Definition Consistent_ForEachShard {T A} (c : ConsistentHashSharded T) (action : nat -> T -> A -> A * bool) (a : A) : A :=
  for_each_from 0 (shards (cbase c)) action a.
Definition Consistent_MergeShard {T} (c : ConsistentHashSharded T) (merge : list T -> T) : T := merge (svalue <$> shards (cbase c)).
Definition Range_MergeShard {T} (r : RangeSharded T) (merge : list T -> T) : T := merge (svalue <$> shards (rbase r)).

Section Adaptive.
Context {T : Type} (Sum64 : string -> Z).

(** ** The adaptive root *)
Definition Adaptive_Get (a : AdaptiveSharded T) := GetShard Sum64 a defaultShardKey.
Definition Adaptive_Set (a : AdaptiveSharded T) (v : T) := SetShard Sum64 a defaultShardKey v.

(** Both take a copy of the table of shards first, and read the shards after. *)
Definition Adaptive_ForEachShard {A} (a : AdaptiveSharded T) (action : nat -> T -> A -> A * bool) (x : A) : A :=
  let currentShards := shards (abase a) in
  for_each_from 0 currentShards action x.
Definition Adaptive_MergeShard (a : AdaptiveSharded T) (merge : list T -> T) : T :=
  let currentShards := shards (abase a) in
  merge (svalue <$> currentShards).
Definition Adaptive_Version (a : AdaptiveSharded T) : Z := version (abase a).
Definition Adaptive_IsDirty (a : AdaptiveSharded T) : bool := dirty (abase a).
Definition Adaptive_MarkClean (a : AdaptiveSharded T) : AdaptiveSharded T := set_shards (MarkClean (abase a)) (count a) a.

Definition GetAccessCounts (a : AdaptiveSharded T) : gmap Z Z :=
  <[4 := scaleDownThreshold a]> (<[3 := scaleUpThreshold a]> (<[2 := count a]> (<[1 := sampleOps a]> (<[0 := totalOps a]> ∅)))).
(** [resizing] is the flag of a resize under way. *)
Definition GetResizeStats (resizing : bool) (a : AdaptiveSharded T) : gmap string Z :=
  let result := <["total_ops" := totalOps a]> ∅ in
  let result := <["sample_ops" := sampleOps a]> result in
  let result := <["current_shards" := count a]> result in
  let result := <["min_shards" := minShards a]> result in
  let result := <["max_shards" := maxShards a]> result in
  let result := <["scale_up_threshold" := scaleUpThreshold a]> result in
  let result := <["scale_down_threshold" := scaleDownThreshold a]> result in
  let result := <["is_resizing" := 0]> result in
  if resizing then <["is_resizing" := 1]> result else result.

(** ** What resizing does to a merge *)
Definition values (a : AdaptiveSharded T) : list T := svalue <$> shards (abase a).

Lemma merge_values a merge : Adaptive_MergeShard a merge = merge (values a).
Proof. reflexivity. Qed.
Lemma ForEach_values {A} (action : nat -> T -> A -> A) a x :
  Adaptive_ForEachShard a (fun i v y => (action i v y, true)) x = foldl (fun y iv => action iv.1 iv.2 y) x (imap pair (values a)).
Proof.
  unfold Adaptive_ForEachShard, values. generalize (shards (abase a)). intros l.
  assert (forall i y, for_each_from i l (fun i v y => (action i v y, true)) y =
    foldl (fun y iv => action iv.1 iv.2 y) y (imap (fun j v => ((i + j)%nat, v)) (svalue <$> l))) as H; [|exact (H 0%nat x)].
  induction l as [|sh l IH]; intros i y; [done|]. cbn. rewrite IH, Nat.add_0_r. f_equal. apply imap_ext.
  intros j v _. cbn. f_equal. lia.
Qed.

Lemma SetShard_values a key v idx : index_of Sum64 a key = Done idx -> (idx < length (values a))%nat ->
  exists a' r, SetShard Sum64 a key v = Done (a', r) /\ values a' = <[idx := v]> (values a).
Proof.
  intros Hi Hlt. unfold values in Hlt. rewrite length_fmap in Hlt. unfold SetShard.
  destruct (trackOperation a) as [a1 r] eqn:E. assert (index_of Sum64 a1 key = Done idx /\ abase a1 = abase a) as [-> Eb].
  { unfold trackOperation in E. injection E as <- <-. split; [exact Hi|done]. }
  cbn [mbind outcome_bind]. unfold shard_set. rewrite Eb. destruct (lookup_lt_is_Some_2 _ _ Hlt) as [sh ->]. cbn.
  eexists _, _. split; [reflexivity|]. unfold values. cbn. by rewrite list_fmap_insert.
Qed.
End Adaptive.

(** A merge sees one value per shard, in order. Scaling up adds copies of the
    first shard's current value and scaling down forgets the last shards, so a
    merge that adds values up counts that value again, or loses what the dropped
    shards held, though nobody wrote. *)
Theorem resize_changes_merge {T} (a : AdaptiveSharded T) (merge : list T -> T) :
  adaptive_inv a ->
  Adaptive_MergeShard a merge = merge (values a) /\
  (count a < maxShards a -> exists a' v0 n, scaleUp a = Done a' /\ head (values a) = Some v0 /\ (0 < n)%nat /\
     Z.of_nat n = Z.min (count a) (maxShards a - count a) /\
     Adaptive_MergeShard a' merge = merge (values a ++ replicate n v0)) /\
  (minShards a < count a -> exists a' n, scaleDown a = Done a' /\ (n < length (values a))%nat /\
     Z.of_nat n = Z.max (minShards a) (count a / 2) /\
     Adaptive_MergeShard a' merge = merge (take n (values a))).
Proof.
  intros [Hl Hm Hc Hx]. split; [done|]. assert (length (values a) = Z.to_nat (count a)) as Hv by (unfold values; rewrite length_fmap; lia).
  split.
  - intros Hlt. unfold scaleUp, shard_get. cbv zeta.
    set (n := if maxShards a <? count a * 2 then maxShards a else count a * 2).
    assert (n = count a + Z.min (count a) (maxShards a - count a)) as Hn by (unfold n; destruct (Z.ltb_spec (maxShards a) (count a * 2)); lia).
    rewrite (proj2 (Z.eqb_neq _ _)), (proj2 (Z.ltb_ge _ _)) by lia.
    destruct (shards (abase a)) as [|sh rest] eqn:E; [cbn in Hl; lia|]. cbn [lookup list_lookup mbind outcome_bind]. rewrite <- E in Hl |- *.
    eexists _, (svalue sh), (Z.to_nat n - Z.to_nat (count a))%nat. split; [reflexivity|].
    split; [unfold values; by rewrite E|]. split; [lia|]. split; [lia|].
    unfold Adaptive_MergeShard. cbn. f_equal. rewrite !take_ge by (rewrite ?length_take; lia). by rewrite fmap_app, fmap_replicate.
  - intros Hlt. unfold scaleDown. cbv zeta. rewrite Z.quot_div_nonneg by lia.
    assert (count a / 2 < count a) by (apply Z.div_lt; lia).
    set (n := if count a / 2 <? minShards a then minShards a else count a / 2).
    assert (n = Z.max (minShards a) (count a / 2)) as Hn by (unfold n; destruct (Z.ltb_spec (count a / 2) (minShards a)); lia).
    rewrite (proj2 (Z.eqb_neq _ _)), (proj2 (Z.ltb_ge n 0)), (proj2 (Z.ltb_ge _ n)) by lia. cbn [orb].
    eexists _, (Z.to_nat n). split; [reflexivity|]. split; [lia|]. split; [lia|].
    unfold Adaptive_MergeShard, values. cbn. by rewrite fmap_take.
Qed.

(** A counter of 5 in the first of two shards counts 15 after one resize. *)
Definition counted : AdaptiveSharded Z := SetShardLimits 1 4 (set_shards (mkShards [mkShard 5 1; mkShard 0 1] 1 false) 2 (NewAdaptiveSharded 2 0)).
Lemma resize_changes_merge_witness : Adaptive_MergeShard counted (foldr Z.add 0) = 5 /\
  exists a', scaleUp counted = Done a' /\ Adaptive_MergeShard a' (foldr Z.add 0) = 15.
Proof.
  destruct (resize_changes_merge counted (foldr Z.add 0)) as (H1 & H2 & _); [split; vm_compute; repeat split; discriminate || reflexivity|].
  split; [exact H1|]. destruct H2 as (a' & v0 & n & E & H0 & _ & Hn & Hm); [reflexivity|]. exists a'. split; [exact E|].
  rewrite Hm. vm_compute in H0. injection H0 as <-. change (Z.of_nat n = 2) in Hn. assert (n = 2%nat) as -> by lia. reflexivity.
Defined.

(** The statistics are those of the record. *)
Lemma GetResizeStats_total {T} b (a : AdaptiveSharded T) :
  size (GetResizeStats b a) = 8%nat /\ GetResizeStats b a !! "total_ops" = GetAccessCounts a !! 0 /\
  GetResizeStats b a !! "current_shards" = GetAccessCounts a !! 2 /\ GetResizeStats b a !! "is_resizing" = Some (if b then 1 else 0).
Proof. by destruct b. Qed.
