(* ===== verification/Background.v ===== *)
(** * Results through channels

    The calls that answer on a channel: [PublishAsync]
    ([events/bus/eventbus.go]) and [SendMessageAsync]
    ([protocol/quic/connection.go]) run a call in a goroutine and send its
    result; [MonitorVariable] ([sync/analyzer/analyzer.go]) sends a result at
    every tick until its context is done. *)
From S2P Require Import Prelude Errors Messages Streams Channels SyncVars VarMetrics EventBus Connections.
From Stdlib Require Import ZArith Lia Strings.String.
From stdpp Require Import base tactics list strings gmap.
Open Scope Z_scope.

(** ** One result *)
Section Async.
Context {W A : Type} (body : W -> W * A).

Inductive async_pc : Type := ACall | ASend (a : A) | AClose | AEnd.
(** The shared state the call works on, the channel of one place, the
    goroutine, and what the caller has received, [None] being the zero value of
    a closed channel. *)
Record async : Type := mkAsync { shared : W; result_chan : GoChan A; pc : async_pc; received : list (option A) }.
Definition async_start (s : W) : async := mkAsync s (mkChan [] 1 false) ACall [].

Inductive async_act : Type := ARun | AReceive | AOther (f : W -> W).
Definition async_step (a : async_act) (x : async) : option (outcome async) :=
  match a with
  | ARun =>
      match pc x with
      | ACall => let '(s, r) := body (shared x) in Some (Done (mkAsync s (result_chan x) (ASend r) (received x)))
      | ASend r =>
          match try_send r (result_chan x) with
          | Panic => Some Panic
          | Done (k, true) => Some (Done (mkAsync (shared x) k AClose (received x)))
          | Done (_, false) => None
          end
      | AClose => Some (k ← close_chan (result_chan x); Done (mkAsync (shared x) k AEnd (received x)))
      | AEnd => None
      end
  | AReceive =>
      match chan_buf (result_chan x) with
      | r :: rest => Some (Done (mkAsync (shared x) (mkChan rest (chan_cap (result_chan x)) (chan_closed (result_chan x))) (pc x) (received x ++ [Some r])))
      | [] => if chan_closed (result_chan x) then Some (Done (mkAsync (shared x) (result_chan x) (pc x) (received x ++ [None]))) else None
      end
  | AOther f => Some (Done (mkAsync (f (shared x)) (result_chan x) (pc x) (received x)))
  end.
Fixpoint async_run (acts : list async_act) (x : async) : outcome async :=
  match acts with
  | [] => Done x
  | a :: acts => match async_step a x with None => async_run acts x | Some Panic => Panic | Some (Done x) => async_run acts x end
  end.

(** Where the goroutine is says what is in the channel and was received: the
    result [r] it computed from some state of the shared object, once. *)
Definition async_inv (x : async) : Prop :=
  chan_cap (result_chan x) = 1 /\
  match pc x with
  | ACall => result_chan x = mkChan [] 1 false /\ received x = []
  | ASend r => result_chan x = mkChan [] 1 false /\ received x = [] /\ exists s, r = (body s).2
  | AClose => chan_closed (result_chan x) = false /\ exists r s, r = (body s).2 /\
      (chan_buf (result_chan x) = [r] /\ received x = [] \/ chan_buf (result_chan x) = [] /\ received x = [Some r])
  | AEnd => chan_closed (result_chan x) = true /\ exists r s, r = (body s).2 /\
      (chan_buf (result_chan x) = [r] /\ received x = [] \/ chan_buf (result_chan x) = [] /\ exists n, received x = Some r :: replicate n None)
  end.
Lemma async_step_ok a x : async_inv x ->
  match async_step a x with None => True | Some Panic => False | Some (Done x') => async_inv x' end.
Proof.
  intros [Hc Hp]. destruct a as [| |f]; cbn [async_step].
  - destruct (pc x) eqn:E.
    + destruct Hp as [H1 H2]. pose proof (eq_refl (body (shared x))) as Eb. destruct (body (shared x)) as [s r] eqn:Eb'. split; cbn; [done|].
      split_and!; [done|done|]. exists (shared x). by rewrite Eb'.
    + destruct Hp as (H1 & H2 & s & ->). rewrite H1. cbn. split; cbn; [done|]. split; [done|]. exists (body s).2, s. split; [done|]. by left.
    + destruct Hp as (H1 & r & s & -> & H2). unfold close_chan. rewrite H1. cbn. split; cbn; [done|]. split; [done|].
      exists (body s).2, s. split; [done|]. destruct H2 as [[-> ->]|[-> ->]]; [by left|right]. split; [done|]. by exists 0%nat.
    + done.
  - destruct (pc x) eqn:E.
    + destruct Hp as [-> H2]. done.
    + destruct Hp as (-> & H2 & _). done.
    + destruct Hp as (H1 & r & s & -> & [[H2 H3]|[H2 H3]]); rewrite H2; cbn; [|by rewrite H1].
      split; cbn; [done|]. split; [done|]. exists (body s).2, s. split; [done|]. right. by rewrite H3.
    + destruct Hp as (H1 & r & s & -> & [[H2 H3]|[H2 [n H3]]]); rewrite H2; cbn; rewrite ?H1; (split; cbn; [done|]).
      * split; [done|]. exists (body s).2, s. split; [done|]. right. rewrite H3. split; [done|]. by exists 0%nat.
      * split; [done|]. exists (body s).2, s. split; [done|]. right. split; [done|]. exists (n + 1)%nat. by rewrite H3, replicate_add.
  - split; cbn; [done|]. by destruct (pc x).
Qed.

Lemma async_run_ok acts : forall x, async_inv x -> exists x', async_run acts x = Done x' /\ async_inv x'.
Proof.
  induction acts as [|a acts IH]; intros x I; cbn [async_run]; [by exists x|].
  pose proof (async_step_ok a x I) as F. destruct (async_step a x) as [[x1|]|]; [by apply IH|done|by apply IH].
Qed.
Lemma async_run_app acts more : forall x x', async_run acts x = Done x' -> async_run (acts ++ more) x = async_run more x'.
Proof.
  induction acts as [|a acts IH]; intros x x' E; cbn in *; [by injection E as ->|].
  destruct (async_step a x) as [[x1|]|]; [by apply IH|done|by apply IH].
Qed.

(** The steps the goroutine has left. *)
Definition async_left (x : async) : nat := match pc x with ACall => 3 | ASend _ => 2 | AClose => 1 | AEnd => 0 end.
Lemma async_go x : async_inv x -> pc x <> AEnd -> exists x', async_step ARun x = Some (Done x') /\ S (async_left x') = async_left x.
Proof.
  intros [Hc Hp] Hn. unfold async_left. cbn. destruct (pc x) eqn:E; [| | |done].
  - destruct (body (shared x)) as [s' r]. by eexists.
  - destruct Hp as (-> & _). by eexists.
  - destruct Hp as (H1 & _). unfold close_chan. rewrite H1. by eexists.
Qed.
Lemma async_ends n : forall x, async_inv x -> (async_left x <= n)%nat ->
  exists x', async_run (replicate n ARun) x = Done x' /\ async_inv x' /\ pc x' = AEnd.
Proof.
  induction n as [|n IH]; intros x I Hle; cbn [replicate async_run].
  - exists x. split_and!; [done|done|]. unfold async_left in Hle. by destruct (pc x); try lia.
  - assert (pc x = AEnd \/ pc x <> AEnd) as [E|Hn] by (destruct (pc x); auto; by right).
    + assert (async_step ARun x = None) as -> by (cbn; by rewrite E). apply IH; [done|]. unfold async_left. rewrite E. lia.
    + destruct (async_go x I Hn) as (x1 & E & Hl). pose proof (async_step_ok ARun x I) as F. rewrite E in F |- *. apply IH; [done|lia].
Qed.
End Async.

(** The caller receives one result, that of one call on the shared state as it
    was at some moment, and after it only zero values; the goroutine never waits
    and never panics: three steps of it, and it has ended, whether the caller
    receives or not. *)
Theorem async_once {W A} (body : W -> W * A) s acts :
  exists x, async_run body acts (async_start s) = Done x /\
    (received x = [] \/ exists r s' n, r = (body s').2 /\ received x = Some r :: replicate n None) /\
    (pc x <> AEnd -> exists x', async_step body ARun x = Some (Done x')) /\
    exists x', async_run body (acts ++ [ARun; ARun; ARun]) (async_start s) = Done x' /\ pc x' = AEnd /\ chan_closed (result_chan x') = true.
Proof.
  destruct (async_run_ok body acts (async_start s)) as (x & E & I); [by split|].
  exists x. split_and!; [done| | |].
  - destruct I as [_ Hp]. destruct (pc x).
    + left. apply Hp.
    + left. apply Hp.
    + destruct Hp as (_ & r & s' & Hr & [[_ ?]|[_ ?]]); [by left|right]. by exists r, s', 0%nat.
    + destruct Hp as (_ & r & s' & Hr & [[_ ?]|[_ [n ?]]]); [by left|right]. by exists r, s', n.
  - intros Hn. destruct (async_go body x I Hn) as (x' & ? & _). eauto.
  - destruct (async_ends body 3 x I) as (x' & E' & I' & Ep); [unfold async_left; destruct (pc x); lia|].
    exists x'. split; [rewrite (async_run_app body acts _ _ x E); exact E'|]. split; [done|].
    destruct I' as [_ Hp]. rewrite Ep in Hp. apply Hp.
Qed.

(** ** The two calls *)
Section Publishing.
Context {U : Type}.
Context (run_handler : handler -> Event -> inMemoryBus * U -> inMemoryBus * U * option nerr).
Context (on_publish : observer -> string -> string -> Event -> inMemoryBus * U -> inMemoryBus * U).
Context (on_delivered : observer -> string -> string -> Z -> option nerr -> Z -> inMemoryBus * U -> inMemoryBus * U).

(** The orders and the duration are those of the delivery. *)
Definition PublishAsync sub_order obs_order dur (event : Event) (acts : list (async_act (W := inMemoryBus * U))) (bu : inMemoryBus * U)
    : outcome (async (W := inMemoryBus * U) (A := option nerr)) :=
  async_run (Publish run_handler on_publish on_delivered sub_order obs_order dur event) acts (async_start bu).
End Publishing.

Section Sending.
Context {Conn Raw : Type} {RS : RawStream Raw} {QC : QuicConn Conn Raw}.
Definition SendMessageAsync (l : Pool.loc) acts (p : Pool.MessagePool) (c : Connection Conn Raw) : outcome async :=
  async_run (fun pc => let '(p, c, err) := SendMessage l pc.1 pc.2 in ((p, c), err)) acts (async_start (p, c)).
End Sending.

(** ** A result at every tick *)
Section Monitor.
Context {A : Type}.

(** [a] is what the analysis gave at the tick. *)
Inductive monitor_pc : Type := MonSelect | MonSend (a : A) | MonEnd.
Record monitor : Type := mkMonitor { results : GoChan A; cancelled : bool; mpc : monitor_pc; sent : list A; taken : list A }.
Definition monitor_start : monitor := mkMonitor (mkChan [] 1 false) false MonSelect [] [].

Inductive monitor_act : Type := Tick (a : A) | SeesDone | Sends | Cancel | Take.
Definition monitor_step (act : monitor_act) (m : monitor) : option (outcome monitor) :=
  match act, mpc m with
  | Tick a, MonSelect => Some (Done (mkMonitor (results m) (cancelled m) (MonSend a) (sent m) (taken m)))
  | SeesDone, MonSelect =>
      if cancelled m then Some (k ← close_chan (results m); Done (mkMonitor k true MonEnd (sent m) (taken m))) else None
  | Sends, MonSend a =>
      match try_send a (results m) with
      | Panic => Some Panic
      | Done (k, true) => Some (Done (mkMonitor k (cancelled m) MonSelect (sent m ++ [a]) (taken m)))
      | Done (_, false) => None
      end
  | Cancel, pc => Some (Done (mkMonitor (results m) true pc (sent m) (taken m)))
  | Take, pc =>
      match chan_buf (results m) with
      | a :: rest => Some (Done (mkMonitor (mkChan rest (chan_cap (results m)) (chan_closed (results m))) (cancelled m) pc (sent m) (taken m ++ [a])))
      | [] => None
      end
  | _, _ => None
  end.
Fixpoint monitor_run (acts : list monitor_act) (m : monitor) : outcome monitor :=
  match acts with
  | [] => Done m
  | a :: acts => match monitor_step a m with None => monitor_run acts m | Some Panic => Panic | Some (Done m) => monitor_run acts m end
  end.

Record monitor_inv (m : monitor) : Prop := {
  mon_cap : chan_cap (results m) = 1 /\ (length (chan_buf (results m)) <= 1)%nat;
  mon_values : sent m = taken m ++ chan_buf (results m);
  mon_closed : chan_closed (results m) = true <-> mpc m = MonEnd;
  mon_end : mpc m = MonEnd -> cancelled m = true
}.
Lemma monitor_step_ok a m : monitor_inv m ->
  match monitor_step a m with None => True | Some Panic => False | Some (Done m') => monitor_inv m' end.
Proof.
  intros [[H1 H1'] H2 H3 H4]. destruct a; cbn [monitor_step].
  - destruct (mpc m) eqn:E; try done. split; cbn; try done. by rewrite H3.
  - destruct (mpc m) eqn:E; try done. destruct (cancelled m); [|done]. unfold close_chan.
    destruct (chan_closed (results m)) eqn:Ec; [by pose proof (proj1 H3 eq_refl)|]. split; cbn; done.
  - destruct (mpc m) eqn:E; try done. unfold try_send. destruct (chan_closed (results m)) eqn:Ec; [by pose proof (proj1 H3 eq_refl)|].
    rewrite H1. destruct (Z.ltb_spec (Z.of_nat (length (chan_buf (results m)))) 1); [|done]. split; cbn; try done.
    + split; [done|]. rewrite length_app. cbn. lia.
    + by rewrite H2, app_assoc.
  - split; cbn; try done.
  - destruct (chan_buf (results m)) as [|a rest] eqn:Eb; [done|]. split; cbn; try done.
    + split; [done|]. cbn in H1'. lia.
    + by rewrite H2, <- app_assoc.
Qed.
Lemma monitor_run_ok acts : forall m, monitor_inv m -> exists m', monitor_run acts m = Done m' /\ monitor_inv m'.
Proof.
  induction acts as [|a acts IH]; intros m I; cbn [monitor_run]; [by exists m|].
  pose proof (monitor_step_ok a m I) as F. destruct (monitor_step a m) as [[m1|]|]; [by apply IH|done|by apply IH].
Qed.
Lemma monitor_start_ok : monitor_inv monitor_start.
Proof. split; cbn; try done. split; [done|lia]. Qed.
Lemma monitor_run_app acts more : forall m m', monitor_run acts m = Done m' -> monitor_run (acts ++ more) m = monitor_run more m'.
Proof.
  induction acts as [|a acts IH]; intros m m' E; cbn in *; [by injection E as ->|].
  destruct (monitor_step a m) as [[m1|]|]; [by apply IH|done|by apply IH].
Qed.

(** Results are taken in the order of the ticks, each once, and at most one
    waits in the channel; the channel is closed when the monitor ends, which is
    only after the cancellation. A reader that goes on taking after the
    cancellation lets the monitor end; without it a monitor that holds a second
    result never ends, cancelled or not. *)
Theorem monitor_correct acts : exists m, monitor_run acts monitor_start = Done m /\
  sent m = taken m ++ chan_buf (results m) /\ (length (chan_buf (results m)) <= 1)%nat /\
  (chan_closed (results m) = true <-> mpc m = MonEnd) /\ (mpc m = MonEnd -> cancelled m = true) /\
  (cancelled m = true -> exists m', monitor_run (acts ++ [Take; Sends; SeesDone]) monitor_start = Done m' /\ mpc m' = MonEnd) /\
  (forall a, mpc m = MonSend a -> chan_buf (results m) <> [] -> forall acts', Forall (fun x => x <> Take) acts' ->
     exists m', monitor_run acts' m = Done m' /\ mpc m' = MonSend a).
Proof.
  destruct (monitor_run_ok acts monitor_start monitor_start_ok) as (m & E & I). pose proof I as [[H1 H1'] H2 H3 H4].
  exists m. split_and!; try done.
  - intros Hc. rewrite (monitor_run_app acts _ _ m E). destruct m as [k c pc0 sn tk]. cbn in *. subst c.
    destruct k as [b cp cl]. cbn in *. subst cp. destruct b as [|a [|]]; [| |cbn in H1'; lia].
    + destruct pc0 as [|x|]; [destruct cl; [by pose proof (proj1 H3 eq_refl)|]|destruct cl; [by pose proof (proj1 H3 eq_refl)|]|]; cbn; eexists; split; reflexivity.
    + destruct pc0 as [|x|]; [destruct cl; [by pose proof (proj1 H3 eq_refl)|]|destruct cl; [by pose proof (proj1 H3 eq_refl)|]|]; cbn; eexists; split; reflexivity.
  - intros a Ha Hb acts' Ht. clear E H2 H4.
    assert (chan_closed (results m) = false) as Hcl by (destruct (chan_closed (results m)); [rewrite (proj1 H3 eq_refl) in Ha; done|done]).
    clear I H3. revert m Ha Hb H1 H1' Hcl. induction Ht as [|x acts' Hx _ IH]; intros m Ha Hb H1 H1' Hcl; cbn [monitor_run]; [by exists m|].
    destruct x; try done; cbn [monitor_step]; rewrite Ha; try (by apply IH).
    unfold try_send. rewrite Hcl, H1. destruct (chan_buf (results m)) as [|y [|]] eqn:Eb; [done| |cbn in H1'; lia]. cbn. rewrite <- Eb in *. by apply IH.
Qed.
End Monitor.

(** The tick of [MonitorVariable]: the analysis of the variable as it is then. *)
Definition analysis_tick {V Ty} `{GoValue V Ty} (t : AnalysisThresholds) (x : SyncVariable V) : monitor_act := Tick (AnalyzeVariable t x).
