(* ===== verification/AtomicSteps.v ===== *)
(** * Concurrent sets of an [Atomic] variable ([sync/vars/atomic.go])

    [Set] loads the value, stores the new one, counts a version, sets the flag
    and enters a delta into the history, each atomic on its own; between them
    other sets run. The sequential [Set] is in SyncVars. *)
From S2P Require Import Prelude SyncVars.
From Stdlib Require Import ZArith Lia Strings.String.
From stdpp Require Import base tactics list list_tactics sorting strings gmap.
Open Scope Z_scope.

Section Steps.
Context {V Ty : Type} {GV : GoValue V Ty}.
Abbreviation value := (option V).

(** A goroutine in [Set], by what it does next. *)
Inductive thread : Type :=
  | TLoad (new : value) | TStore (old new : value) | TVersion (old new : value)
  | TDirty (n : Z) (old new : value) | THistory (n : Z) (old new : value) | TDone (err : option var_error).
(** For the record: the values stored, the versions given out with their
    values, and the deltas entered, each in order. *)
Record state : Type := mkState {
  var : Var V; threads : list thread; stores : list value; given : list (Z * value); log : list (Delta V) }.
Definition start (cfg : VariableConfig V) : state := mkState (NewAtomicVariable cfg) [] [] [] [].

Definition advance (t : nat) (th : thread) (s : state) : option (outcome state) :=
  let v := var s in
  let next th v := mkState v (<[t := th]> (threads s)) in
  match th with
  | TLoad new =>
      Some (Done (next
        (if negb (checkPermissions PermissionWrite (permissionMask (core v))) then TDone (Some ErrPermissionDenied)
         else match resolve (conflictResolver v) (onConflict v) (v_value v) new with
              | None => TDone None
              | Some new => TStore (v_value v) new
              end) v (stores s) (given s) (log s)))
  | TStore old new =>
      Some (if storable (v_value v) new then Done (next (TVersion old new) (set_value new v) (stores s ++ [new]) (given s) (log s)) else Panic)
  | TVersion old new =>
      let n := wrapU 64 (version (core v) + 1) in
      Some (Done (next (TDirty n old new) (set_core (set_version n (dirty (core v)) (core v)) v) (stores s) (given s ++ [(n, new)]) (log s)))
  | TDirty n old new =>
      Some (Done (next (THistory n old new) (set_core (set_version (version (core v)) true (core v)) v) (stores s) (given s) (log s)))
  | THistory n old new =>
      let d := mkDelta n "" old new 0 "" in
      let c := if 0 <? maxHistory (core v) then updateHistory d (core v) else core v in
      Some (Done (next (TDone None) (notify old new (set_core c v)) (stores s) (given s) (log s ++ [d])))
  | TDone _ => None
  end.

Inductive act : Type := CallSet (new : value) | Run (t : nat).
Definition step (a : act) (s : state) : option (outcome state) :=
  match a with
  | CallSet new => Some (Done (mkState (var s) (threads s ++ [TLoad new]) (stores s) (given s) (log s)))
  | Run t => th ← threads s !! t; advance t th s
  end.
Fixpoint run (acts : list act) (s : state) : outcome state :=
  match acts with
  | [] => Done s
  | a :: acts => match step a s with None => run acts s | Some Panic => Panic | Some (Done s) => run acts s end
  end.

(** ** The invariant *)
Definition entry (d : Delta V) : Z * value := (Version d, DValue d).
(** The version a goroutine has and has not entered yet, and the value it has
    stored and has no version for. *)
Definition to_enter (th : thread) : list (Z * value) := match th with TDirty n _ x | THistory n _ x => [(n, x)] | _ => [] end.
Definition to_count (th : thread) : list value := match th with TVersion _ x => [x] | _ => [] end.
Definition thread_typed (ty : Ty) (th : thread) : Prop := match th with TLoad x | TStore _ x => typed ty x | _ => True end.
Definition resolver_typed (ty : Ty) (v : Var V) : Prop :=
  forall old new x, (old = None \/ typed ty old) -> typed ty new -> resolve (conflictResolver v) (onConflict v) old new = Some x -> typed ty x.

Record Inv (ty : Ty) (n : nat) (s : state) : Prop := {
  inv_versions : (given s).*1 = (fun i => wrapU 64 (2 + Z.of_nat i)) <$> seq 0 (length (given s));
  inv_version : version (core (var s)) = wrapU 64 (1 + Z.of_nat (length (given s)));
  inv_stored : stores s ≡ₚ (given s).*2 ++ mjoin (to_count <$> threads s);
  inv_value : v_value (var s) = default None (last (stores s));
  inv_entered : given s ≡ₚ (entry <$> log s) ++ mjoin (to_enter <$> threads s);
  inv_ring : ring n (log s) (core (var s)) /\ 0 < maxHistory (core (var s));
  inv_typed : Forall (thread_typed ty) (threads s) /\ Forall (typed ty) (stores s) /\ resolver_typed ty (var s)
}.
End Steps.

Section Facts.
Context {V Ty : Type} {GV : GoValue V Ty}.
Abbreviation value := (option V).
Implicit Types s : state (V := V).

(** The bookkeeping of one goroutine's step: the two sides grow by the same. *)
Lemma hand_over {A} (f : thread (V := V) -> list A) t th0 th (l : list thread) G G' R R' :
  l !! t = Some th0 -> G ≡ₚ R ++ mjoin (f <$> l) -> G' ++ R ++ f th0 ≡ₚ R' ++ G ++ f th ->
  G' ≡ₚ R' ++ mjoin (f <$> <[t := th]> l).
Proof.
  intros Ht HG Hf. apply (Permutation_app_inv_r (R ++ f th0)). rewrite Hf, HG.
  pose proof (mjoin_insert f l t th0 th Ht) as P.
  transitivity (R' ++ R ++ (f th ++ mjoin (f <$> l))); [solve_Permutation|]. rewrite <- P. solve_Permutation.
Qed.

Lemma stored_typed ty s : Forall (typed ty) (stores s) -> v_value (var s) = default None (last (stores s)) ->
  v_value (var s) = None \/ typed ty (v_value (var s)).
Proof.
  intros Hs ->. destruct (last (stores s)) as [x|] eqn:E; [|by left]. right. apply last_Some in E as [l E]. rewrite E in Hs.
  apply Forall_app in Hs as [_ Hs]. by apply Forall_cons in Hs as [? _].
Qed.
Lemma typed_storable ty (old new : value) : (old = None \/ typed ty old) -> typed ty new -> storable old new = true.
Proof. destruct old, new; cbn; try done. intros [|E]; [done|]. intros ->. by apply bool_decide_eq_true. Qed.

(** Entering a delta touches the history alone. *)
Lemma late_update n d old new (v : Var V) L : ring n L (core v) -> 0 < maxHistory (core v) ->
  let v' := notify old new (set_core (if 0 <? maxHistory (core v) then updateHistory d (core v) else core v) v) in
  version (core v') = version (core v) /\ v_value v' = v_value v /\ ring n (L ++ [d]) (core v') /\
  maxHistory (core v') = maxHistory (core v) /\ forall ty, resolver_typed ty v -> resolver_typed ty v'.
Proof.
  intros HR Hm. rewrite (proj2 (Z.ltb_lt _ _) Hm). cbn zeta. destruct (updateHistory_fields d (core v)) as (U1 & _ & _ & U2).
  unfold notify. cbn [onChange set_core]. destruct (onChange v); cbn; (split_and!; [done|done|by apply ring_update|done|done]).
Qed.

Lemma atomic_advance_ok ty n t th s : Inv ty n s -> threads s !! t = Some th ->
  match advance t th s with None => True | Some Panic => False | Some (Done s') => Inv ty n s' end.
Proof.
  intros [H1 H2 H3 H4 H5 [H6 H6'] (H7 & H8 & H9)] Ht. pose proof (Forall_lookup_1 _ _ _ _ H7 Ht) as Hty.
  assert (forall th', thread_typed ty th' -> Forall (thread_typed ty) (<[t := th']> (threads s))) as K by (intros; by apply Forall_insert).
  pose proof (stored_typed ty s H8 H4) as Hv.
  destruct th as [new|old new|old new|m old new|m old new|e]; cbn [advance]; try done.
  - match goal with |- Inv _ _ (mkState _ (<[t := ?th]> _) _ _ _) => assert (thread_typed ty th /\ to_count th = [] /\ to_enter th = []) as (A & B & C) end.
    { destruct (negb _); [done|]. destruct (resolve _ _ _ _) as [x|] eqn:E; [|done]. split_and!; try done. by eapply H9. }
    split; cbn [var threads stores given log]; try done.
    + eapply hand_over; [exact Ht|exact H3|]. rewrite B. cbn [to_count]. solve_Permutation.
    + eapply hand_over; [exact Ht|exact H5|]. rewrite C. cbn [to_enter]. solve_Permutation.
    + auto.
  - rewrite (typed_storable ty _ _ Hv Hty). split; cbn [var threads stores given log]; try done.
    + eapply hand_over; [exact Ht|exact H3|]. cbn [to_count]. solve_Permutation.
    + cbn. by rewrite last_snoc.
    + eapply hand_over; [exact Ht|exact H5|]. cbn [to_enter]. solve_Permutation.
    + split_and!; [by apply K| |done]. apply Forall_app. by split; [|constructor].
  - split; cbn [var threads stores given log]; try done.
    + rewrite fmap_app, H1, length_app, seq_app, fmap_app. cbn. f_equal. f_equal.
      rewrite H2. rewrite wrapU_add_l by lia. f_equal. lia.
    + cbn. rewrite length_app, H2, wrapU_add_l by lia. cbn. f_equal. lia.
    + eapply hand_over; [exact Ht|exact H3|]. cbn [to_count]. rewrite fmap_app. cbn. solve_Permutation.
    + eapply hand_over; [exact Ht|exact H5|]. cbn [to_enter]. solve_Permutation.
    + split_and!; try done. by apply K.
  - split; cbn [var threads stores given log]; try done.
    + eapply hand_over; [exact Ht|exact H3|]. cbn [to_count]. solve_Permutation.
    + eapply hand_over; [exact Ht|exact H5|]. cbn [to_enter]. solve_Permutation.
    + split_and!; try done. by apply K.
  - destruct (late_update n (mkDelta m "" old new 0 "") old new (var s) (log s) H6 H6') as (E1 & E2 & E3 & E4 & E5).
    split; cbn [var threads stores given log]; try done.
    + by rewrite E1.
    + eapply hand_over; [exact Ht|exact H3|]. cbn [to_count]. solve_Permutation.
    + by rewrite E2.
    + eapply hand_over; [exact Ht|exact H5|]. cbn [to_enter]. rewrite fmap_app. cbn. solve_Permutation.
    + by rewrite E4.
    + split_and!; [by apply K|done|by apply E5].
Qed.

Lemma atomic_step_ok ty n a s : Inv ty n s -> match a with CallSet x => typed ty x | _ => True end ->
  match step a s with None => True | Some Panic => False | Some (Done s') => Inv ty n s' end.
Proof.
  intros HI Ha. destruct a as [new|t]; cbn [step].
  - destruct HI as [H1 H2 H3 H4 H5 H6 (H7 & H8 & H9)]. split; cbn [var threads stores given log]; try done.
    + by rewrite mjoin_snoc, app_assoc, app_nil_r.
    + by rewrite mjoin_snoc, app_assoc, app_nil_r.
    + split_and!; try done. apply Forall_app. by split; [|constructor].
  - destruct (threads s !! t) as [th|] eqn:Ht; cbn; [|done]. by apply atomic_advance_ok.
Qed.

Lemma atomic_run_ok ty n acts : forall s, Inv ty n s -> Forall (fun a => match a with CallSet x => typed ty x | _ => True end) acts ->
  exists s', run acts s = Done s' /\ Inv ty n s'.
Proof.
  induction acts as [|a acts IH]; intros s HI HF; cbn [run]; [by exists s|]. apply Forall_cons in HF as [Ha HF].
  pose proof (atomic_step_ok ty n a s HI Ha) as K. destruct (step a s) as [[s'|]|]; [|done|]; by apply IH.
Qed.

(** Concurrent sets of values of one type never panic; the versions they are
    given are 2, 3, ... once each; what is stored, counted and entered are the
    same values but for the sets under way, each in an order of its own; the
    value is the last one stored, the ring the end of the deltas entered. *)
Theorem atomic_sets_interleaved (cfg : VariableConfig V) ty acts :
  EnableHistory cfg = true -> 0 < MaxHistory cfg ->
  (forall r old new, ConflictResolver cfg = Some r -> old = None \/ typed ty old -> typed ty new -> typed ty (r old new)) ->
  Forall (fun a => match a with CallSet x => typed ty x | _ => True end) acts ->
  exists s, run acts (start cfg) = Done s /\
    (given s).*1 = (fun i => wrapU 64 (2 + Z.of_nat i)) <$> seq 0 (length (given s)) /\
    stores s ≡ₚ (given s).*2 ++ mjoin (to_count <$> threads s) /\
    given s ≡ₚ (entry <$> log s) ++ mjoin (to_enter <$> threads s) /\
    v_value (var s) = default None (last (stores s)) /\
    ring (Z.to_nat (MaxHistory cfg)) (log s) (core (var s)).
Proof.
  intros He Hm Hr HF. destruct (atomic_run_ok ty (Z.to_nat (MaxHistory cfg)) acts (start cfg)) as (s & E & []); [|done|].
  - split; try done.
    + cbn. split; [by apply ring_new|done].
    + split_and!; try constructor. intros old new x Ho Hn. cbn. unfold resolve. destruct (fastEqual _ _); [|by intros [= <-]].
      destruct (ConflictResolver cfg) eqn:E; [|done]. intros [= <-]. by apply Hr.
  - exists s. by destruct inv_ring0.
Qed.
End Facts.

#[local] Existing Instance Samples.any_value.

(** Two sets at once: the older version's value stays, the newest delta tells
    another. *)
Example newest_delta_is_not_the_value :
  let s0 := start (Samples.cfg) in
  match run [CallSet (Some (AnyInt 1)); CallSet (Some (AnyInt 2)); Run 0; Run 1; Run 1; Run 0; Run 0; Run 1; Run 0; Run 0; Run 1; Run 1]%nat s0 with
  | Done s => v_value (var s) = Some (AnyInt 1) /\ last (given s) = Some (3, Some (AnyInt 2)) /\ option_map (@DValue _) (last (log s)) = Some (Some (AnyInt 2))
  | Panic => False
  end.
Proof. vm_compute. done. Qed.
